(* ===== verification/_CoqProject ===== *)
-Q . S2P
Prelude.v
Double.v
BlockMap.v
RangeLock.v
PartitionDP.v
QueryProtocol.v
Sampling.v
DynamicLock.v
DynamicProtocol.v
Spinlock.v
NaiveLock.v
Random.v
Chromosome.v
GeneticPartitioner.v
GeneticLock.v
GeneticProtocol.v
TrainingThread.v
QueryLock.v
Adapter.v
Rng.v
Workload.v
Stream.v
Phase.v
PrintCompat.v
Scenario.v
BenchRun.v
Threads.v
Example.v
Report.v
GeneticTests.v
GeneticBench.v
GeneticReport.v
Fraction.v
Distributions.v
Args.v
ArgsLaws.v
ThreadLoops.v
Checksum.v
Json.v
Pins.v
Config.v
ConfigLaws.v
SharedArgs.v
SharedLaws.v
SharedBuilders.v
Statistic.v
StageProtocol.v
Heap.v
Assoc.v
SplayTree.v
SplayLaws.v
SplayMap.v
Arrays.v
Weave.v
Kids.v
Lazy.v
TreeLoops.v
IdIndex.v
BTree.v
BTreeLaws.v
BTreeMap.v
SearchTree.v
BoundedTree.v
GSAT.v
GSATLaws.v
GSATMap.v
GSATKinds.v
GSATTree.v
IST.v
ISTLaws.v
ISTMap.v
ISTTree.v
