(* ===== verification/Prelude.v ===== *)
(** A verification of the dynamic-locks library.

    The repository implements a lock over the positions [0 .. n-1] of an array that
    the caller owns: [WriteQuery(left, right, func)] runs [func] while no other
    query runs on a common position. The positions are grouped into [kBlocks] fine
    blocks and the blocks into [kLockCnt] segments with a mutex each; the adaptive
    locks move the borders of the segments to where the queries are.

    - [common/naive_lock.hpp]: [NaiveLock], with equal segments.
    - [dynamic/dynamic_lock.hpp]: [DynamicLock], whose rebuilder thread computes the
      borders by dynamic programming from the hits of the blocks.
    - [genetic/genetic_partitioner.hpp] and [genetic/genetic_lock.hpp]:
      [GeneticLock], whose training thread gives samples of the queries to a
      [GeneticPartitioner].
    - [common/spinlock.*]: the mutex that can replace [std::mutex].
    - [benchmarks/*.cpp], [common/request_workload.hpp],
      [common/print_compat.hpp], [example/main.cpp]: the programs that use them.
    - [Benchmark-v700/cpp/ds/adaptive_lock]: the adapter that makes a lock a set for
      SetBench, a vendored benchmark suite for concurrent sets.
    - [Benchmark-v700/cpp/microbench]: the microbenchmark of SetBench that runs such a
      set, and its configuration.
    - [Benchmark-v700/cpp/gsat/ds]: sequential search trees that SetBench runs as sets
      through their adapters in [Benchmark-v700/cpp/ds]: [splay_tree], [btree], the
      self-adjusting trees [sabt], [sast], [salt] and [sait], which are instances of
      [gsat], and the interpolation search tree [ist].

    * Files

    - [Prelude]: machine words ([u64], [u32], [s32], [s64] on [Z]), arrays as lists indexed
      by [Z], loops with their invariant rules, sums, the hint database [word].
      [Double]: binary64 and the 80-bit format, on the Standard Library's
      [SpecFloat].
    - [BlockMap], [RangeLock], [Sampling]: what the locks share: blocks and the
      block-to-lock table, [RangeLockGuard], the sampling counter.
      [PartitionDP]: [OptimizePartitions]. [Chromosome], [GeneticPartitioner]:
      [GeneticPartitioner]; [Random] is its interface to the random engine.
    - [DynamicLock], [GeneticLock], [NaiveLock]: the objects as records and one
      definition per method, run to its end. A method that may throw returns an
      [outcome]; a call that would not return is [None].
    - [QueryProtocol]: the optimistic protocol of [WriteQuery], one step per atomic
      access; [DynamicProtocol] and [GeneticProtocol] add the threads that publish
      new borders; [TrainingThread] is the condition variable of the training
      thread; [Spinlock] the spinlock.
    - [QueryLock]: the class of what a lock promises to its clients, with the three
      locks as instances. The clients are proved against it: [Adapter] (the set),
      [Stream], [Phase], [Scenario], [BenchRun], [Report] (the adaptive benchmark),
      [Threads], [Example] (the example), [GeneticTests], [GeneticBench],
      [GeneticReport] (the genetic benchmark). [Rng], [Workload] and [PrintCompat]
      are their generators and their formatter.
    - The microbenchmark, from the bottom up: [Fraction] bounds the products of a range
      and a fraction; [Distributions] has the distributions, the data maps and [spec],
      the logic of computations that draw random words; [Args] the generators of
      arguments with their builders, [ArgsLaws] their class [ArgsGeneratorOk];
      [SharedArgs] the two generators whose threads share atomics and the one that
      dispatches to others, [SharedLaws] and [SharedBuilders] their laws;
      [ThreadLoops] the loops of the threads, the stop conditions and the stages of a
      run over any set, which is the class [SetAdapter]; [Checksum] the invariants of
      a run; [Statistic] its statistics. [StageProtocol] is how the threads of a stage
      start and end together, one step per access to a [volatile] variable.
    - Its configuration: [Json] is the interface [JsonLib] of the JSON library; [Pins]
      the pin patterns, [Config] the conversions of all builders and of the
      parameters, [ConfigLaws] their round trip.

    - The search trees: [Heap] is a monad of computations on a heap of nodes, [Assoc]
      sorted association lists, [Arrays] arrays with a used prefix, [Weave] the order of
      the keys of a node and of its children, [Kids] the bounds of the children and nodes
      with arrays, [Lazy] entries that a removal only marks. [SplayTree] and [BTree] are the trees as
      the code has them, [SplayLaws] and [BTreeLaws] the lemmas on their rotations and
      their rebalancing, [SplayMap] and [BTreeMap] what their operations do to a map.
      [SearchTree] is the class of what a tree promises, with the two as instances, and
      makes a tree a [SetAdapter].
    - The self-adjusting trees: [GSAT] is the template, with what its arguments provide as
      the record [GSATTraits]; [GSATLaws] has the shape of a tree, the class
      [GSATTraitsOk] of what the arguments promise, and the rebuild; [GSATMap] the way
      down and what the operations do to a map; [GSATKinds] the four instances;
      [GSATTree] sequences of operations.
    - The interpolation search tree: [IST] is the tree, [ISTLaws] has the shape of a tree,
      what its constructor checks (the class [ISTParamsOk]) and the rebuild; [ISTMap] the
      way down, what the operations do to a map, [Validate] and the height after a
      rebuild; [ISTTree] sequences of operations.
    - Both share [TreeLoops], the loops that collect and count entries, and [IdIndex], the
      interpolation index of [id.h]. [BoundedTree] is the class of what they promise: a
      finite map for the keys of an interval and a bounded number of operations.

    * What the theorems show

    - Exclusion and progress, for any number of threads and all interleavings: two
      queries that run [func] at the same time have no common position; the
      executions of [func] can be put in an order; [DynamicLock] has no deadlock;
      the spinlock refines an atomic mutex. For [GeneticLock] this holds while
      training is enabled, and [GeneticLock_disabled_publication_races] shows that
      it fails otherwise.
    - Functional behaviour of every method on every branch, exceptions of [lock()]
      included, and the invariants that all methods keep.
    - Optimality of the dynamic programming, and that the genetic search ends,
      keeps partitions valid and never remembers a worse one.
    - The clients: the adapter refines a finite set of keys; query streams stay in
      the array; a phase of the benchmark has the same result for every interleaving
      of its threads; its reported counts are those of the scenario; formats and
      generators round trip; and the example program always throws.
    - The microbenchmark: with uniform and skewed-uniform distributions the generators of
      seven builders answer with keys of the range, without undefined behaviour
      ([args_builders_correct]); the draw of a Zipf distribution can be outside of its
      range ([zipf_exceeds]). The same holds for threads that share the edges of a wave,
      whose values are good in every coherent history, as long as no query finds an
      empty wave ([creakers_and_wave_correct]), and for threads that share the last
      deleted key ([leafs_handshake_correct]); the moving window has an exact
      schedule; a generalized generator dispatches as declared. Over any [SetAdapter]
      (the adaptive locks' adapter is one) the key sum and the size that a run collects
      in its prefill and its warm-up, and the key sum that it prints after the test, are
      those of the set ([run_stages_key_sum]); under an operation counter every thread
      makes exactly its share of the limit ([operation_counter_exact]). No thread works on the set before all have
      initialised themselves or after one has left, and a stage always ends
      ([stage_protocol_safe], [stage_protocol_live]). Well-formed parameters and pin
      patterns round trip through their texts.

    - The search trees: any sequence of operations gives the results of a finite map,
      without undefined behaviour ([splay_tree_refines_map], where also every node is
      freed at the end, and [btree_refines_map]); the B-tree's height is logarithmic
      ([btree_path_length]), so that its arrays of [kMaxDepth] entries are long enough;
      the microbenchmark's check sum is right for them ([tree_stages_key_sum]). The four
      self-adjusting trees refine a finite map through all their rebuilds, for any clear
      policy and rebuild bound ([gsat_refines_map]); so does the interpolation search
      tree ([ist_refines_map]), whose height after a rebuild is doubly logarithmic
      ([ist_rebuild_low]).

    * Bounds and fuel

    Loops whose number of rounds depends on other threads or on random draws take
    fuel: [WriteQuery] waits while queries are paused, the rejection loops of the
    partitioner draw until they find a new cut. [wp] is total correctness: there is
    an amount of fuel with which the computation returns, and more changes nothing.
    [find_free] searches a cyclic pool and is given its length. In the microbenchmark a
    distribution that rejects draws has [fuel] rounds, and a theorem excepts only a
    sequence of draws with [fuel] rejected ones in a row ([rejects]); reading a
    configuration has the nesting of its value as fuel, and the round trip gives an
    amount that is enough. The loops of the
    splay tree have the number of nodes as fuel, those of the B-tree the levels of the
    tree, and the theorems show that both are enough. The recursions of a
    self-adjusting tree and of the interpolation search tree have its levels as fuel, and
    a rebuild the number of its keys;
    fewer than 2^31 operations keep [total_asize] in range. The interpolation index
    computes with [int64_t]s, and its theorems ask for intervals whose length times the
    size of an index is below 2^63 ([id_fits]; [id_wide_interval] is what happens
    otherwise). Machine words wrap around where the code does; the theorems state the
    sizes they need, such as [kLockCnt * kBlocks < 2^64].

    * Not modelled

    - Memory orders: the protocols are interleavings of sequentially consistent
      accesses.
    - The benchmarks' phases leave out the rebuilder and the training thread, which
      change borders and never data; [DynamicProtocol] and [GeneticProtocol] treat
      them. Clock and scheduler are inputs.
    - [std::sort] on chromosomes, the engines and distributions of [random], the
      text of a floating-point number and [strtod] are parameters with the
      documented properties that the code needs.
    - Of the microbenchmark: the texts ([to_string], the printed reports), the setters
      that assign one field, and the process around a run (its arguments, the pinning
      and the start of threads, the clock). An atomic of the shared generators is the
      list of its accesses, with loads of earlier values; memory orders are left out.
    - Of the B-tree, the self-adjusting trees and the interpolation search tree, the memory: a node is a part of its
      parent's value, and the destructor is left out. The node handlers of the trees only serve statistics.
    - Of the self-adjusting trees: the counts of accesses, of 64 bits, are unbounded. The
      double square roots of [SqrtDelimiter] and of the interpolation search tree are the
      exact ones, and [pow], which gives the size of an index, is a parameter whose
      values are positive and small enough for [id_fits].
    - Of the rest of SetBench: the other data structures of [ds/] and [gsat/], the memory
      reclamation and the support code of [common/], which are third-party and which
      the locks do not use; the scripts and plots.

    This file is the prelude: unsigned arithmetic, arrays, loops and sums. *)
From stdpp Require Export base tactics numbers list list_numbers option gmap.
From Stdlib Require Export ZArith Lia.

#[global] Set Default Goal Selector "!".
Open Scope Z_scope.

(** ** Unsigned machine words *)

Definition modulus64 : Z := 2 ^ 64.
Definition modulus32 : Z := 2 ^ 32.

(** [SIZE_MAX], [std::numeric_limits<size_t>::max()]. *)
Definition size_max : Z := modulus64 - 1.

Definition u64 (z : Z) : Z := z mod modulus64.
Definition u32 (z : Z) : Z := z mod modulus32.

(** Conversion to a 32-bit [int]. *)
Definition s32 (z : Z) : Z := (z + 2 ^ 31) mod modulus32 - 2 ^ 31.

(** Conversion to [int64_t]; a signed 64-bit result that overflows, which is undefined,
    wraps around. *)
Definition s64 (z : Z) : Z := (z + 2 ^ 63) mod modulus64 - 2 ^ 63.

Definition u64_add (a b : Z) : Z := u64 (a + b).
Definition u64_sub (a b : Z) : Z := u64 (a - b).
Definition u64_mul (a b : Z) : Z := u64 (a * b).

Declare Scope u64_scope.
Delimit Scope u64_scope with u64.
Notation "a +₆₄ b" := (u64_add a b) (at level 50, left associativity) : u64_scope.
Notation "a -₆₄ b" := (u64_sub a b) (at level 50, left associativity) : u64_scope.
Notation "a *₆₄ b" := (u64_mul a b) (at level 40, left associativity) : u64_scope.
Open Scope u64_scope.

Definition is_u64 (z : Z) : Prop := 0 ≤ z < modulus64.

(** ** Arrays

    [std::vector], [std::array] and arrays of atomics are lists; [get] and
    [set] take the [size_t] index as the code writes it. The source never
    checks an index, and the theorems establish that the ones used are in
    range; outside of the range [get] is the default element and [set] does
    nothing. *)

Definition len {A} (l : list A) : Z := Z.of_nat (length l).
Definition get {A} `{Inhabited A} (l : list A) (i : Z) : A := l !!! Z.to_nat i.
Definition set {A} (l : list A) (i : Z) (v : A) : list A := <[Z.to_nat i := v]> l.

Declare Scope arr_scope.
Delimit Scope arr_scope with arr.
Notation "l .[ i ]" := (get l i) (at level 1, left associativity, format "l .[ i ]") : arr_scope.
Notation "l .[ i <- v ]" := (set l i v)
  (at level 1, left associativity, format "l .[ i  <-  v ]") : arr_scope.
Open Scope arr_scope.

(** ** Loops

    [for_range lo hi body s] is [for (size_t i = lo; i < hi; ++i) body]. *)

Fixpoint for_n {S : Type} (n : nat) (i : Z) (body : Z → S → S) (s : S) : S :=
  match n with
  | O => s
  | S n' => for_n n' (i + 1) body (body i s)
  end.

Definition for_range {S : Type} (lo hi : Z) (body : Z → S → S) (s : S) : S :=
  for_n (Z.to_nat (hi - lo)) lo body s.

(** A counted loop whose body may run out of fuel. *)
Definition for_opt {S : Type} (lo hi : Z) (body : Z → S → option S) (s : S) : option S :=
  for_range lo hi (λ i s, s ≫= body i) (Some s).

(** [while_fuel n cond body s] runs [while (cond) body] for at most [n]
    iterations; [None] when the fuel runs out first. *)
Fixpoint while_fuel {S : Type} (n : nat) (cond : S → bool) (body : S → S) (s : S) : option S :=
  match n with
  | O => if cond s then None else Some s
  | S n' => if cond s then while_fuel n' cond body (body s) else Some s
  end.

(** ** Sums *)

Definition zsum (l : list Z) : Z := foldr Z.add 0 l.

(** [std::accumulate(begin, end, size_t{0})]. *)
Definition accumulate (l : list Z) : Z := foldl u64_add 0 l.

(** [std::clamp(v, lo, hi)]. *)
Definition clamp (v lo hi : Z) : Z := if v <? lo then lo else if hi <? v then hi else v.

(** [std::min] and [std::max] on [size_t] are [Z.min] and [Z.max]. *)

(** ** Automation *)

Create HintDb word discriminated.
#[export] Hint Constants Opaque : word.

Ltac word_unfold := unfold u64_add, u64_sub, u64_mul, u64, u32, is_u64, size_max,
  modulus64, modulus32 in *.

Ltac zbool :=
  repeat match goal with
  | H : context [Z.leb ?a ?b] |- _ => destruct (Z.leb_spec a b)
  | H : context [Z.ltb ?a ?b] |- _ => destruct (Z.ltb_spec a b)
  | H : context [Z.eqb ?a ?b] |- _ => destruct (Z.eqb_spec a b)
  | |- context [Z.leb ?a ?b] => destruct (Z.leb_spec a b)
  | |- context [Z.ltb ?a ?b] => destruct (Z.ltb_spec a b)
  | |- context [Z.eqb ?a ?b] => destruct (Z.eqb_spec a b)
  end; try (exfalso; lia).

(** ** Words *)

Lemma modulus64_pos : 0 < modulus64.
Proof. reflexivity. Qed.

Lemma modulus64_val : modulus64 = 18446744073709551616.
Proof. reflexivity. Qed.

Lemma modulus32_val : modulus32 = 4294967296.
Proof. reflexivity. Qed.

Lemma u64_range z : is_u64 (u64 z).
Proof. unfold is_u64, u64. apply Z.mod_pos_bound, modulus64_pos. Qed.

Lemma u64_small z : is_u64 z → u64 z = z.
Proof. intros H. apply Z.mod_small, H. Qed.

Lemma u64_add_range a b : is_u64 (a +₆₄ b).
Proof. apply u64_range. Qed.

Lemma u64_sub_range a b : is_u64 (a -₆₄ b).
Proof. apply u64_range. Qed.

Lemma u64_mul_range a b : is_u64 (a *₆₄ b).
Proof. apply u64_range. Qed.

Lemma u64_add_small a b : 0 ≤ a + b < modulus64 → a +₆₄ b = a + b.
Proof. apply u64_small. Qed.

Lemma u64_sub_small a b : 0 ≤ a - b < modulus64 → a -₆₄ b = a - b.
Proof. apply u64_small. Qed.

Lemma u64_mul_small a b : 0 ≤ a * b < modulus64 → a *₆₄ b = a * b.
Proof. apply u64_small. Qed.

Lemma u64_add_idemp_l a b : u64 (u64 a + b) = u64 (a + b).
Proof. unfold u64. apply Z.add_mod_idemp_l. done. Qed.

Lemma s32_small z : - 2 ^ 31 ≤ z < 2 ^ 31 → s32 z = z.
Proof. intros. unfold s32, modulus32. rewrite Z.mod_small; lia. Qed.

Lemma s64_small z : - 2 ^ 63 ≤ z < 2 ^ 63 → s64 z = z.
Proof. intros. unfold s64, modulus64. rewrite Z.mod_small; lia. Qed.

Lemma is_u64_0 : is_u64 0.
Proof. unfold is_u64, modulus64. lia. Qed.

#[export] Hint Resolve u64_range u64_add_range u64_sub_range u64_mul_range is_u64_0 : word.

(** ** Arrays *)

Section arrays.
  Context {A : Type} `{Inhabited A}.
  Implicit Types (l : list A) (i j : Z).

Lemma len_nonneg l : 0 ≤ len l.
Proof. unfold len. lia. Qed.

Lemma len_set l i v : len (l.[i <- v]) = len l.
Proof. unfold len, set. by rewrite length_insert. Qed.

Lemma len_app l k : len (l ++ k) = len l + len k.
Proof. unfold len. rewrite length_app. lia. Qed.

Lemma len_cons a l : len (a :: l) = len l + 1.
Proof. unfold len. simpl. lia. Qed.

Lemma len_replicate (n : nat) (a : A) : len (replicate n a) = Z.of_nat n.
Proof. unfold len. by rewrite length_replicate. Qed.

Lemma get_set_eq l i v : 0 ≤ i < len l → (l.[i <- v]).[i] = v.
Proof. unfold get, set, len. intros. apply list_lookup_total_insert_eq. lia. Qed.

Lemma get_set_ne l i j v : 0 ≤ i → 0 ≤ j → i ≠ j → (l.[i <- v]).[j] = l.[j].
Proof. unfold get, set. intros. apply list_lookup_total_insert_ne. lia. Qed.

Lemma get_set l i j v :
  0 ≤ i < len l → 0 ≤ j → (l.[i <- v]).[j] = if Z.eqb i j then v else l.[j].
Proof.
  intros. destruct (Z.eqb_spec i j) as [<-|].
  - by apply get_set_eq.
  - apply get_set_ne; lia.
Qed.

Lemma get_lookup l i : 0 ≤ i < len l → l !! Z.to_nat i = Some (l.[i]).
Proof. unfold get, len. intros. apply list_lookup_lookup_total_lt. lia. Qed.

Lemma lookup_get l (n : nat) x : l !! n = Some x → l.[Z.of_nat n] = x.
Proof. unfold get. intros. rewrite Nat2Z.id. by apply list_lookup_total_correct. Qed.

Lemma get_app_l l k i : 0 ≤ i < len l → (l ++ k).[i] = l.[i].
Proof. unfold get, len. intros. apply lookup_total_app_l. lia. Qed.

Lemma get_app_r l k i : len l ≤ i → (l ++ k).[i] = k.[i - len l].
Proof.
  unfold get, len. intros. rewrite lookup_total_app_r by lia.
  f_equal. lia.
Qed.

Lemma get_0 a l : (a :: l).[0] = a.
Proof. done. Qed.

Lemma get_cons a l i : 0 < i → (a :: l).[i] = l.[i - 1].
Proof.
  unfold get. intros. replace (Z.to_nat i) with (S (Z.to_nat (i - 1))) by lia. done.
Qed.

Lemma get_replicate (n : nat) (a : A) i : 0 ≤ i < Z.of_nat n → (replicate n a).[i] = a.
Proof. unfold get. intros. apply lookup_total_replicate_2. lia. Qed.

Lemma arr_ext l k :
  len l = len k → (∀ i, 0 ≤ i < len l → l.[i] = k.[i]) → l = k.
Proof.
  intros Hl Hi. apply (list_eq_same_length _ _ (length l)); [unfold len in *; lia|done|].
  intros n x y Hn Hx Hy. specialize (Hi (Z.of_nat n)).
  rewrite (lookup_get _ _ _ Hx), (lookup_get _ _ _ Hy) in Hi.
  apply Hi. unfold len. lia.
Qed.

Lemma get_Forall (P : A → Prop) l i : Forall P l → 0 ≤ i < len l → P (l.[i]).
Proof.
  intros HP Hi. apply (proj1 (Forall_lookup P l) HP (Z.to_nat i)), get_lookup, Hi.
Qed.

Lemma Forall_get (P : A → Prop) l : (∀ i, 0 ≤ i < len l → P (l.[i])) → Forall P l.
Proof.
  intros HP. apply Forall_lookup. intros n x Hx.
  rewrite <-(lookup_get _ _ _ Hx). apply HP. apply lookup_lt_Some in Hx. unfold len. lia.
Qed.
End arrays.

Lemma get_fmap {A B} `{Inhabited A, Inhabited B} (f : A → B) (l : list A) i :
  0 ≤ i < len l → (f <$> l).[i] = f (l.[i]).
Proof.
  intros Hi. unfold get at 1. apply list_lookup_total_correct.
  rewrite list_lookup_fmap, get_lookup by done. done.
Qed.

Lemma len_fmap {A B} (f : A → B) (l : list A) : len (f <$> l) = len l.
Proof. unfold len. by rewrite length_fmap. Qed.

Lemma len_seqZ lo n : 0 ≤ n → len (seqZ lo n) = n.
Proof. intros. unfold len. rewrite length_seqZ. lia. Qed.

Lemma get_seqZ lo n i : 0 ≤ i < n → (seqZ lo n).[i] = lo + i.
Proof.
  unfold get. intros. apply list_lookup_total_correct.
  rewrite lookup_seqZ. lia.
Qed.

(** Two-dimensional tables. *)

Definition get2 (t : list (list Z)) (i j : Z) : Z := (t.[i]).[j].
Definition set2 (t : list (list Z)) (i j v : Z) : list (list Z) := t.[i <- (t.[i]).[j <- v]].

(** [std::vector dp(rows, std::vector(cols, v))]. *)
Definition table_make (rows cols v : Z) : list (list Z) :=
  replicate (Z.to_nat rows) (replicate (Z.to_nat cols) v).

Definition table_dim (t : list (list Z)) (rows cols : Z) : Prop :=
  len t = rows ∧ ∀ i, 0 ≤ i < rows → len (t.[i]) = cols.

Lemma table_make_dim rows cols v :
  0 ≤ rows → 0 ≤ cols → table_dim (table_make rows cols v) rows cols.
Proof.
  intros. unfold table_make. split; [rewrite len_replicate; lia|].
  intros i Hi. rewrite get_replicate by lia. rewrite len_replicate. lia.
Qed.

Lemma get2_make rows cols v i j :
  0 ≤ i < rows → 0 ≤ j < cols → get2 (table_make rows cols v) i j = v.
Proof. intros. unfold get2, table_make. rewrite !get_replicate by lia. done. Qed.

Lemma set2_dim t rows cols i j v :
  table_dim t rows cols → 0 ≤ i < rows → table_dim (set2 t i j v) rows cols.
Proof.
  intros [Hr Hc] Hi. split; [by unfold set2; rewrite len_set|].
  intros k Hk. unfold set2. rewrite get_set by lia.
  destruct (Z.eqb_spec i k); [rewrite len_set|]; auto.
Qed.

Lemma get2_set2 t rows cols i j i' j' v :
  table_dim t rows cols → 0 ≤ i < rows → 0 ≤ j < cols → 0 ≤ i' → 0 ≤ j' →
  get2 (set2 t i j v) i' j' = if (Z.eqb i i' && Z.eqb j j')%bool then v else get2 t i' j'.
Proof.
  intros [Hr Hc] Hi Hj Hi' Hj'. unfold get2, set2. rewrite get_set by lia.
  destruct (Z.eqb_spec i i') as [<-|]; simpl; [|done].
  apply get_set; [|done]. rewrite Hc; lia.
Qed.

(** ** Loops *)

Lemma for_n_S {S} n i (body : Z → S → S) s :
  for_n (Datatypes.S n) i body s = for_n n (i + 1) body (body i s).
Proof. done. Qed.

Lemma for_n_snoc {S} n i (body : Z → S → S) s :
  for_n (Datatypes.S n) i body s = body (i + Z.of_nat n) (for_n n i body s).
Proof.
  revert i s. induction n as [|n IH]; intros i s.
  - simpl. f_equal. lia.
  - rewrite for_n_S, IH, for_n_S. f_equal. lia.
Qed.

Lemma for_range_empty {S} lo hi (body : Z → S → S) s :
  hi ≤ lo → for_range lo hi body s = s.
Proof. intros. unfold for_range. by replace (Z.to_nat (hi - lo)) with O by lia. Qed.

Lemma for_range_first {S} lo hi (body : Z → S → S) s :
  lo < hi → for_range lo hi body s = for_range (lo + 1) hi body (body lo s).
Proof.
  intros. unfold for_range.
  replace (Z.to_nat (hi - lo)) with (Datatypes.S (Z.to_nat (hi - (lo + 1)))) by lia. done.
Qed.

Lemma for_range_last {S} lo hi (body : Z → S → S) s :
  lo ≤ hi → for_range lo (hi + 1) body s = body hi (for_range lo hi body s).
Proof.
  intros. unfold for_range.
  replace (Z.to_nat (hi + 1 - lo)) with (Datatypes.S (Z.to_nat (hi - lo))) by lia.
  rewrite for_n_snoc. f_equal. lia.
Qed.

(** The invariant rule of counted loops. *)
Lemma for_range_inv {S} (P : Z → S → Prop) lo hi (body : Z → S → S) s :
  lo ≤ hi → P lo s →
  (∀ i t, lo ≤ i < hi → P i t → P (i + 1) (body i t)) →
  P hi (for_range lo hi body s).
Proof.
  intros Hle H0 Hstep.
  assert (∀ n : nat, lo + Z.of_nat n ≤ hi → P (lo + Z.of_nat n) (for_n n lo body s)) as Hn.
  { induction n as [|n IH]; intros Hn.
    - simpl. rewrite Z.add_0_r. done.
    - rewrite for_n_snoc. replace (lo + Z.of_nat (Datatypes.S n)) with (lo + Z.of_nat n + 1) by lia.
      apply Hstep; [lia|]. apply IH. lia. }
  specialize (Hn (Z.to_nat (hi - lo)) ltac:(lia)).
  by replace (lo + Z.of_nat (Z.to_nat (hi - lo))) with hi in Hn by lia.
Qed.

Lemma for_opt_inv {S} (P : Z → S → Prop) lo hi (body : Z → S → option S) s :
  lo ≤ hi → P lo s →
  (∀ i t, lo ≤ i < hi → P i t → ∃ t', body i t = Some t' ∧ P (i + 1) t') →
  ∃ r, for_opt lo hi body s = Some r ∧ P hi r.
Proof.
  intros Hle H0 Hstep. unfold for_opt.
  apply (for_range_inv (λ i o, ∃ t, o = Some t ∧ P i t)); [done|by eauto|].
  intros i o Hi (t & -> & Ht). apply Hstep; done.
Qed.

(** An invariant that does not depend on the index needs no ordering. *)
Lemma for_range_const {S} (P : S → Prop) lo hi (body : Z → S → S) s :
  P s → (∀ i t, lo ≤ i < hi → P t → P (body i t)) → P (for_range lo hi body s).
Proof.
  intros H0 Hstep. destruct (decide (lo ≤ hi)).
  - apply (for_range_inv (λ _, P)); auto.
  - rewrite for_range_empty by lia. done.
Qed.

Lemma for_range_ext {S} lo hi (f g : Z → S → S) s :
  (∀ i t, lo ≤ i < hi → f i t = g i t) → for_range lo hi f s = for_range lo hi g s.
Proof.
  intros Hfg. destruct (decide (lo ≤ hi)); [|by rewrite !for_range_empty by lia].
  symmetry. apply (for_range_inv (λ i t, t = for_range lo i f s)).
  - done.
  - by rewrite for_range_empty by lia.
  - intros i t Hi ->. rewrite for_range_last by lia. symmetry. by apply Hfg.
Qed.

(** Building a vector with [push_back]. *)
Lemma for_range_push {A} `{Inhabited A} lo hi (f : Z → A) :
  lo ≤ hi → let l := for_range lo hi (λ i l, l ++ [f i]) [] in
  len l = hi - lo ∧ ∀ j, 0 ≤ j < hi - lo → l.[j] = f (lo + j).
Proof.
  intros Hle. apply (for_range_inv (λ i l, len l = i - lo ∧ ∀ j, 0 ≤ j < i - lo → l.[j] = f (lo + j)));
    [done|split; [unfold len; simpl; lia|intros; lia]|].
  intros i l Hi [Hl Hf]. split; [rewrite len_app; unfold len in *; simpl; lia|].
  intros j Hj. destruct (decide (j = len l)) as [->|].
  - rewrite get_app_r by lia. rewrite Z.sub_diag. simpl. rewrite get_0. f_equal. lia.
  - rewrite get_app_l by lia. apply Hf. lia.
Qed.

(** Running the same fuelled loop with more fuel changes nothing. *)
Lemma while_fuel_mono {S} n m (cond : S → bool) body s r :
  while_fuel n cond body s = Some r → (n ≤ m)%nat → while_fuel m cond body s = Some r.
Proof.
  revert m s. induction n as [|n IH]; intros m s Hr Hle.
  - destruct m; simpl in *; by destruct (cond s).
  - destruct m as [|m]; [lia|]. simpl in *.
    destruct (cond s); [|done]. apply IH; [done|lia].
Qed.

(** A loop whose measure strictly decreases ends within the measure. *)
Lemma while_fuel_total {S} (μ : S → nat) (I : S → Prop) n (cond : S → bool) body s :
  I s → (∀ t, I t → cond t = true → I (body t) ∧ (μ (body t) < μ t)%nat) →
  (μ s ≤ n)%nat → ∃ r, while_fuel n cond body s = Some r ∧ I r ∧ cond r = false.
Proof.
  intros HI Hstep. revert s HI. induction n as [|n IH]; intros s HI Hμ; simpl.
  - destruct (cond s) eqn:Hc; [|by eauto].
    destruct (Hstep s HI Hc). lia.
  - destruct (cond s) eqn:Hc; [|by eauto].
    destruct (Hstep s HI Hc). apply IH; [done|lia].
Qed.

(** ** Sums *)

Lemma zsum_cons a l : zsum (a :: l) = a + zsum l.
Proof. done. Qed.

Lemma zsum_fmap_insert {A} (f : A → Z) (l : list A) t x y :
  l !! t = Some x → zsum (f <$> <[t:=y]> l) = zsum (f <$> l) + (f y - f x).
Proof.
  revert t. unfold zsum. induction l as [|z l IH]; intros [|t] Hl; simpl in *; [done..| |].
  - injection Hl as ->. lia.
  - specialize (IH t Hl). unfold fmap in IH. lia.
Qed.

Lemma zsum_app l k : zsum (l ++ k) = zsum l + zsum k.
Proof. unfold zsum. induction l as [|a l IH]; simpl; lia. Qed.

Lemma zsum_nonneg l : Forall (λ x, 0 ≤ x) l → 0 ≤ zsum l.
Proof. induction 1; simpl; lia. Qed.

Lemma foldl_u64_add a l : foldl u64_add (u64 a) l = u64 (a + zsum l).
Proof.
  revert a. induction l as [|x l IH]; intros a; simpl.
  - f_equal. lia.
  - unfold u64_add at 2. rewrite u64_add_idemp_l, IH. f_equal. lia.
Qed.

Lemma accumulate_spec l : accumulate l = u64 (zsum l).
Proof. unfold accumulate. change 0 with (u64 0) at 1. by rewrite foldl_u64_add. Qed.

Lemma zsum_take_S l i :
  0 ≤ i < len l → zsum (take (Z.to_nat (i + 1)) l) = zsum (take (Z.to_nat i) l) + l.[i].
Proof.
  intros Hi. replace (Z.to_nat (i + 1)) with (S (Z.to_nat i)) by lia.
  rewrite (take_S_r _ _ (l.[i])) by (by apply get_lookup).
  rewrite zsum_app. simpl. lia.
Qed.

Lemma zsum_take_mono l i j :
  Forall (λ x, 0 ≤ x) l → 0 ≤ i ≤ j → j ≤ len l →
  zsum (take (Z.to_nat i) l) ≤ zsum (take (Z.to_nat j) l).
Proof.
  intros Hl [H0 Hij] Hj.
  replace j with (i + Z.of_nat (Z.to_nat (j - i))) in * by lia.
  induction (Z.to_nat (j - i)) as [|n IH].
  - by rewrite Z.add_0_r.
  - replace (i + Z.of_nat (S n)) with (i + Z.of_nat n + 1) in * by lia.
    rewrite zsum_take_S by lia.
    assert (0 ≤ l.[i + Z.of_nat n]) by (apply (get_Forall (λ x, 0 ≤ x)); [done|lia]).
    specialize (IH ltac:(lia) ltac:(lia)). lia.
Qed.

Lemma clamp_range v lo hi : lo ≤ hi → lo ≤ clamp v lo hi ≤ hi.
Proof. unfold clamp. intros. zbool; lia. Qed.

Lemma clamp_id v lo hi : lo ≤ v ≤ hi → clamp v lo hi = v.
Proof. unfold clamp. intros. zbool; lia. Qed.

(** *** Sums modulo [2^64] *)

Lemma u64_u64 a : u64 (u64 a) = u64 a.
Proof. unfold u64. apply Z.mod_mod. done. Qed.

Lemma u64_add_u64 a b : u64 a +₆₄ u64 b = u64 (a + b).
Proof. unfold u64_add, u64. by rewrite <-Z.add_mod by done. Qed.

Lemma u64_sub_u64 a b : u64 a -₆₄ u64 b = u64 (a - b).
Proof. unfold u64_sub, u64. by rewrite <-Zminus_mod. Qed.

Lemma u64_mul_u64 a b : u64 a *₆₄ u64 b = u64 (a * b).
Proof. unfold u64_mul, u64. by rewrite <-Z.mul_mod by done. Qed.

Lemma u64_add_r a b : u64 a +₆₄ b = u64 (a + b).
Proof. unfold u64_add. apply u64_add_idemp_l. Qed.

Lemma zsum_map_ext {A} (f g : A → Z) l :
  (∀ x, x ∈ l → f x = g x) → zsum (f <$> l) = zsum (g <$> l).
Proof.
  intros Hfg. f_equal. apply list_fmap_ext. intros i x Hx. apply Hfg. by eapply list_elem_of_lookup_2.
Qed.

Lemma zsum_seqZ_snoc (f : Z → Z) lo n :
  0 ≤ n → zsum (f <$> seqZ lo (n + 1)) = zsum (f <$> seqZ lo n) + f (lo + n).
Proof.
  intros Hn. rewrite seqZ_app by lia. rewrite fmap_app, zsum_app.
  change (seqZ (lo + n) 1) with [0 + (lo + n)]. rewrite Z.add_0_l. simpl. lia.
Qed.

(** [for (i = lo; i < hi; ++i) total += f(i);] *)
Lemma sum_loop lo hi (f g : Z → Z) :
  lo ≤ hi → (∀ i, lo ≤ i < hi → f i = u64 (g i)) →
  for_range lo hi (λ i total, total +₆₄ f i) 0 = u64 (zsum (g <$> seqZ lo (hi - lo))).
Proof.
  intros Hle Hfg.
  apply (for_range_inv (λ i total, total = u64 (zsum (g <$> seqZ lo (i - lo))))); [done| |].
  - by rewrite Z.sub_diag.
  - intros i t Hi ->. rewrite Hfg by done. rewrite u64_add_u64.
    replace (i + 1 - lo) with (i - lo + 1) by lia. rewrite zsum_seqZ_snoc by lia. do 3 f_equal. lia.
Qed.

(** An epoch counter that is incremented twice keeps its parity. *)
Lemma odd_u64_plus_2 e : Z.odd e = false → Z.odd (u64 (e + 2)) = false.
Proof.
  intros He. unfold u64. rewrite Zmod_eq by done.
  rewrite <-Z.add_opp_r, !Z.odd_add, Z.odd_opp, Z.odd_mul, He.
  change (Z.odd modulus64) with false. by rewrite andb_false_r.
Qed.

Lemma u64_add_twice e : e +₆₄ 1 +₆₄ 1 = u64 (e + 2).
Proof. unfold u64_add. rewrite u64_add_idemp_l. f_equal. lia. Qed.

Lemma existsb_never {A} (l : list A) : existsb (λ _, false) l = false.
Proof. by induction l. Qed.

Lemma s32_s32_add a b : s32 (s32 a + b) = s32 (a + b).
Proof.
  unfold s32. f_equal.
  replace ((a + 2 ^ 31) mod modulus32 - 2 ^ 31 + b + 2 ^ 31) with ((a + 2 ^ 31) mod modulus32 + b) by lia.
  rewrite Zplus_mod_idemp_l. f_equal. lia.
Qed.

Lemma zsum_perm l k : l ≡ₚ k → zsum l = zsum k.
Proof. induction 1; rewrite ?zsum_cons in *; lia. Qed.

(** At most one index of a range is equal to [v]. *)
Lemma zsum_indicator lo (n : nat) v :
  zsum ((λ i, if i =? v then 1 else 0) <$> seqZ lo (Z.of_nat n)) =
  if (lo <=? v) && (v <? lo + Z.of_nat n) then 1 else 0.
Proof.
  induction n as [|n IH]; [destruct (Z.leb_spec lo v), (Z.ltb_spec v (lo + Z.of_nat 0)); simpl; try lia; done|].
  rewrite Nat2Z.inj_succ, <-Z.add_1_r, zsum_seqZ_snoc, IH by lia.
  destruct (Z.leb_spec lo v), (Z.ltb_spec v (lo + Z.of_nat n)), (Z.ltb_spec v (lo + (Z.of_nat n + 1))),
    (Z.eqb_spec (lo + Z.of_nat n) v); simpl; lia.
Qed.
