(* ===== verification/Double.v ===== *)
(** IEEE-754 arithmetic as the code uses it.

    [double] is binary64 and [long double] is the x87 80-bit format (the
    System V x86-64 ABI the project builds for); both are the executable
    [spec_float] model of the Standard Library with round-to-nearest-even.
    Every comparison is false on a NaN, as in C++. *)
From Stdlib Require Export SpecFloat.
From S2P Require Import Prelude.

(** ** binary64 *)

Definition double : Type := spec_float.

Definition d_prec : Z := 53.
Definition d_emax : Z := 1024.

(** [static_cast<double>(z)]. *)
Definition d_of_Z (z : Z) : double := binary_normalize d_prec d_emax z 0 false.

Definition d_add (x y : double) : double := SFadd d_prec d_emax x y.
Definition d_sub (x y : double) : double := SFsub d_prec d_emax x y.
Definition d_mul (x y : double) : double := SFmul d_prec d_emax x y.
Definition d_div (x y : double) : double := SFdiv d_prec d_emax x y.
Definition d_abs (x : double) : double := SFabs x.

Definition d_lt (x y : double) : bool := SFltb x y.
Definition d_le (x y : double) : bool := SFleb x y.
Definition d_eq (x y : double) : bool := SFeqb x y.

#[export] Instance double_inhabited : Inhabited double := populate (S754_zero false).

(** [x > y] and [x >= y]. *)
Definition d_gt (x y : double) : bool := d_lt y x.
Definition d_ge (x y : double) : bool := d_le y x.

(** The decimal literal [num/den], both exactly representable, correctly rounded. *)
Definition d_lit (num den : Z) : double := d_div (d_of_Z num) (d_of_Z den).

Definition d_zero : double := S754_zero false.
Definition d_one : double := d_of_Z 1.
Definition d_infinity : double := S754_infinity false.

Definition d_isfinite (x : double) : bool :=
  match x with
  | S754_zero _ | S754_finite _ _ _ => true
  | S754_infinity _ | S754_nan => false
  end.

(** [std::max], [std::min] and [std::clamp] compare with [<] only. *)
Definition d_max (a b : double) : double := if d_lt a b then b else a.
Definition d_min (a b : double) : double := if d_lt b a then b else a.
Definition d_clamp (v lo hi : double) : double :=
  if d_lt v lo then lo else if d_lt hi v then hi else v.

Notation "x +ᵈ y" := (d_add x y) (at level 50, left associativity).
Notation "x -ᵈ y" := (d_sub x y) (at level 50, left associativity).
Notation "x *ᵈ y" := (d_mul x y) (at level 40, left associativity).
Notation "x /ᵈ y" := (d_div x y) (at level 40, left associativity).
Notation "x <?ᵈ y" := (d_lt x y) (at level 70, no associativity).
Notation "x <=?ᵈ y" := (d_le x y) (at level 70, no associativity).
Notation "x =?ᵈ y" := (d_eq x y) (at level 70, no associativity).
Notation "x >?ᵈ y" := (d_gt x y) (at level 70, no associativity).
Notation "x >=?ᵈ y" := (d_ge x y) (at level 70, no associativity).

(** [static_cast<size_t>(x)]: truncation towards zero; [None] outside of the
    range of [size_t], where the conversion is undefined. *)
Definition d_to_size (x : double) : option Z :=
  match x with
  | S754_zero _ => Some 0
  | S754_finite s m e =>
      let a := Z.shiftl (Zpos m) e in
      let v := if s then - a else a in
      if ((0 <=? v) && (v <? modulus64))%Z then Some v else None
  | _ => None
  end.

(** *** Conversions to signed integers

    A finite [x] rounded towards zero, and up. *)
Definition d_trunc (x : double) : option Z :=
  match x with
  | S754_zero _ => Some 0
  | S754_finite s m e =>
      let z := if 0 <=? e then Z.pos m * 2 ^ e else Z.pos m / 2 ^ (- e) in
      Some (if s then - z else z)
  | _ => None
  end.

Definition d_ceil (x : double) : option Z :=
  match x with
  | S754_zero _ => Some 0
  | S754_finite s m e =>
      let z := (if s then -1 else 1) * Z.pos m in
      Some (if 0 <=? e then z * 2 ^ e else - ((- z) / 2 ^ (- e)))
  | _ => None
  end.

(** To [bits] bits; the result is [unspecified] where [x] does not fit. *)
Definition convert (unspecified : double → Z) (bits : Z) (round : double → option Z) (x : double) : Z :=
  match round x with
  | Some z => if (- 2 ^ (bits - 1) <=? z) && (z <? 2 ^ (bits - 1)) then z else unspecified x
  | None => unspecified x
  end.

(** ** The 80-bit format *)

Definition ld_prec : Z := 64.
Definition ld_emax : Z := 16384.

Definition ld_of_Z (z : Z) : spec_float := binary_normalize ld_prec ld_emax z 0 false.

(** A [double] operand of a [long double] expression is converted exactly. *)
Definition ld_of_double (x : double) : spec_float :=
  match x with
  | S754_finite s m e => binary_normalize ld_prec ld_emax (cond_Zopp s (Zpos m)) e s
  | _ => x
  end.

Definition ld_mul (x y : spec_float) : spec_float := SFmul ld_prec ld_emax x y.
Definition ld_gt (x y : spec_float) : bool := SFltb y x.

(** ** Order facts *)

Lemma SFltb_irrefl x : SFltb x x = false.
Proof.
  unfold SFltb, SFcompare. destruct x as [s|s| |s m e]; try destruct s; try done.
  - rewrite Z.compare_refl. by rewrite Pos.compare_cont_refl.
  - rewrite Z.compare_refl. by rewrite Pos.compare_cont_refl.
Qed.

Lemma d_lt_irrefl x : (x <?ᵈ x) = false.
Proof. apply SFltb_irrefl. Qed.

(** [x < y] and [y <= x] exclude each other. *)
Lemma SFltb_not_leb x y : SFltb x y = true → SFleb y x = false.
Proof.
  unfold SFltb, SFleb, SFcompare.
  destruct x as [[]|[]| |[] m e], y as [[]|[]| |[] m' e']; try done;
    rewrite (Z.compare_antisym e e'); destruct (e ?= e')%Z; simpl; try done;
    change (Pos.compare_cont Eq m' m) with (Pos.compare_cont (CompOpp Eq) m' m);
    rewrite <-(Pos.compare_cont_antisym m m' Eq);
    destruct (Pos.compare_cont Eq m m'); done.
Qed.

(** ** The order of the numbers that are not NaNs

    The comparison is lexicographic; [d_key] makes it an order on triples. *)

Definition d_key (x : double) : Z * Z * Z :=
  match x with
  | S754_zero _ | S754_nan => (0, 0, 0)
  | S754_infinity s => (if s then -2 else 2, 0, 0)
  | S754_finite false m e => (1, e, Zpos m)
  | S754_finite true m e => (-1, -e, Zneg m)
  end.

Definition key_lt (a b : Z * Z * Z) : Prop :=
  a.1.1 < b.1.1 ∨ a.1.1 = b.1.1 ∧ (a.1.2 < b.1.2 ∨ a.1.2 = b.1.2 ∧ a.2 < b.2).

Lemma d_lt_key x y : x ≠ S754_nan → y ≠ S754_nan → (x <?ᵈ y) = true ↔ key_lt (d_key x) (d_key y).
Proof.
  unfold d_lt, SFltb, SFcompare, key_lt. intros Hx Hy.
  destruct x as [[]|[]| |[] m e], y as [[]|[]| |[] m' e']; simpl; try done;
    try (split; intros; done || lia);
    change (Pos.compare_cont Eq m m') with (Pos.compare m m');
    destruct (Z.compare_spec e e'); try (split; intros; done || lia);
    destruct (Pos.compare_spec m m'); simpl; split; intros; done || lia.
Qed.

Lemma d_le_key x y : x ≠ S754_nan → y ≠ S754_nan → (x <=?ᵈ y) = true ↔ ¬ key_lt (d_key y) (d_key x).
Proof.
  unfold d_le, SFleb, SFcompare, key_lt. intros Hx Hy.
  destruct x as [[]|[]| |[] m e], y as [[]|[]| |[] m' e']; simpl; try done;
    try (split; intros; done || lia);
    change (Pos.compare_cont Eq m m') with (Pos.compare m m');
    destruct (Z.compare_spec e e'); try (split; intros; done || lia);
    destruct (Pos.compare_spec m m'); simpl; split; intros; done || lia.
Qed.

(** "Not smaller" is transitive. *)
Lemma d_not_lt_trans x y z :
  x ≠ S754_nan → y ≠ S754_nan → z ≠ S754_nan →
  (x <?ᵈ y) = false → (y <?ᵈ z) = false → (x <?ᵈ z) = false.
Proof.
  intros Hx Hy Hz H1 H2. apply not_true_iff_false. apply not_true_iff_false in H1, H2.
  rewrite d_lt_key in * by done. unfold key_lt in *. lia.
Qed.

Lemma d_le_not_lt x y : x ≠ S754_nan → y ≠ S754_nan → (x <=?ᵈ y) = true → (y <?ᵈ x) = false.
Proof. intros Hx Hy H. apply not_true_iff_false. rewrite d_lt_key by done. by apply d_le_key. Qed.

Lemma d_not_le_not_lt x y : x ≠ S754_nan → y ≠ S754_nan → (x <=?ᵈ y) = false → (x <?ᵈ y) = false.
Proof.
  intros Hx Hy H. apply not_true_iff_false in H. apply not_true_iff_false.
  rewrite d_le_key in H by done. rewrite d_lt_key by done. unfold key_lt in *. lia.
Qed.

(** ** Results that are not NaNs *)

(** [+0], a positive number or [+∞]. *)
Definition d_nonneg (x : double) : Prop :=
  match x with
  | S754_zero false | S754_infinity false | S754_finite false _ _ => True
  | _ => False
  end.

Lemma d_nonneg_not_nan x : d_nonneg x → x ≠ S754_nan.
Proof. by intros Hx ->. Qed.

Lemma shr_1_nonneg r : 0 ≤ shr_m r → 0 ≤ shr_m (shr_1 r).
Proof. destruct r as [[|[]|] r s]; simpl; lia. Qed.

Lemma iter_pos_nonneg p r : 0 ≤ shr_m r → 0 ≤ shr_m (SpecFloat.iter_pos shr_1 p r).
Proof. revert r. induction p; intros r Hr; simpl; auto using shr_1_nonneg. Qed.

Lemma shr_fexp_nonneg m e l : 0 ≤ m → 0 ≤ shr_m (shr_fexp d_prec d_emax m e l).1.
Proof.
  intros Hm. unfold shr_fexp, shr.
  assert (0 ≤ shr_m (shr_record_of_loc m l)) by (by destruct l as [|[]]).
  destruct (fexp _ _ _ - _); [done|by apply iter_pos_nonneg|done].
Qed.

Lemma round_nearest_even_nonneg m l : 0 ≤ m → 0 ≤ round_nearest_even m l.
Proof. intros. destruct l as [|[]]; simpl; try lia. destruct (Z.even m); lia. Qed.

Lemma binary_round_aux_nonneg m e l : 0 ≤ m → d_nonneg (binary_round_aux d_prec d_emax false m e l).
Proof.
  intros Hm. unfold binary_round_aux.
  pose proof (shr_fexp_nonneg m e l Hm) as H1. destruct (shr_fexp _ _ m e l) as [r e1]; simpl in H1.
  pose proof (shr_fexp_nonneg _ e1 loc_Exact (round_nearest_even_nonneg _ (loc_of_shr_record r) H1)) as H2.
  destruct (shr_fexp _ _ _ e1 loc_Exact) as [r2 e2]; simpl in H2.
  destruct (shr_m r2); [done| |lia]. by destruct (_ <=? _).
Qed.

Lemma binary_normalize_nonneg m e : 0 ≤ m → d_nonneg (binary_normalize d_prec d_emax m e false).
Proof.
  intros Hm. destruct m as [|p|p]; [done| |lia]. unfold binary_normalize, binary_round.
  destruct (shl_align _ _ _) as [mz ez]. by apply binary_round_aux_nonneg.
Qed.

Lemma d_of_Z_nonneg z : 0 ≤ z → d_nonneg (d_of_Z z).
Proof. apply binary_normalize_nonneg. Qed.

Lemma d_add_nonneg x y : d_nonneg x → d_nonneg y → d_nonneg (x +ᵈ y).
Proof.
  unfold d_add. destruct x as [[]|[]| |[] m e], y as [[]|[]| |[] m' e']; try done.
  intros _ _. cbn [SFadd cond_Zopp]. apply binary_normalize_nonneg. lia.
Qed.

Lemma d_mul_finite_nonneg m e y : d_nonneg y → d_nonneg (S754_finite false m e *ᵈ y).
Proof.
  unfold d_mul. destruct y as [[]|[]| |[] m' e']; try done.
  intros _. cbn [SFmul xorb]. apply binary_round_aux_nonneg. lia.
Qed.

Lemma d_div_finite_nonneg x m e : d_nonneg x → d_nonneg (x /ᵈ S754_finite false m e).
Proof.
  unfold d_div. destruct x as [[]|[]| |[] m' e']; try done.
  intros _. cbn [SFdiv xorb]. destruct (SFdiv_core_binary _ _ _ _ _ _) as [[q e1] l] eqn:Hd.
  apply binary_round_aux_nonneg. unfold SFdiv_core_binary in Hd.
  set (s := _ - _ - _) in Hd. set (m1 := match s with 0 => _ | _ => _ end) in Hd.
  assert (0 ≤ m1) as Hm1 by (unfold m1; destruct s; [done|by apply Z.shiftl_nonneg|done]).
  destruct (Z.div_eucl m1 (Zpos m)) as [q' r] eqn:He. injection Hd as <- _ _.
  change q' with ((q', r).1). rewrite <-He. change (Z.div_eucl m1 (Z.pos m)).1 with (m1 / Zpos m).
  apply Z.div_pos; lia.
Qed.

Lemma digits2_iter m d : Zpos (digits2_pos (Pos.iter xO m d)) = Zpos (digits2_pos m) + Zpos d.
Proof.
  induction d as [|d IH] using Pos.peano_ind; [simpl; lia|]. rewrite Pos.iter_succ. simpl. lia.
Qed.

Lemma digits2_bound p n : Zpos p < 2 ^ n → 0 ≤ n → Zpos (digits2_pos p) ≤ n.
Proof.
  revert n. induction p as [p IH|p IH|]; intros n Hp Hn; simpl.
  1, 2: destruct (decide (n = 0)) as [->|]; [simpl in Hp; lia|];
    assert (Zpos (digits2_pos p) ≤ n - 1); [apply IH; [|lia]|lia];
    replace n with (Z.succ (n - 1)) in Hp by lia; rewrite Z.pow_succ_r in Hp by lia; lia.
  destruct (decide (n = 0)) as [->|]; [simpl in Hp; lia|lia].
Qed.

(** Small positive integers are exact, hence finite. *)
Lemma d_of_Z_finite z : 1 ≤ z < 2 ^ 53 → ∃ m e, d_of_Z z = S754_finite false m e.
Proof.
  intros Hz. destruct z as [|p|p]; [lia| |lia]. unfold d_of_Z, binary_normalize, binary_round.
  pose proof (digits2_bound p 53 ltac:(lia) ltac:(lia)) as Hd.
  set (dg := Zpos (digits2_pos p)) in *. assert (0 < dg) by done.
  assert (fexp d_prec d_emax (dg + 0) = dg - 53) as Hf by (unfold fexp, emin, d_prec, d_emax; lia).
  rewrite Hf.
  assert (∃ mz, shl_align p 0 (dg - 53) = (mz, dg - 53) ∧ Zpos (digits2_pos mz) = 53) as (mz & -> & Hmz).
  { unfold shl_align. rewrite Z.sub_0_r. destruct (dg - 53) as [|q|q] eqn:Hq.
    - exists p. split; [done|]. fold dg. lia.
    - lia.
    - exists (Pos.iter xO p q). split; [done|]. rewrite digits2_iter. fold dg. lia. }
  assert (∀ l, shr_fexp d_prec d_emax (Zpos mz) (dg - 53) l = (shr_record_of_loc (Zpos mz) l, dg - 53)) as Hs.
  { intros l. unfold shr_fexp. simpl Zdigits2. rewrite Hmz.
    replace (fexp d_prec d_emax (53 + (dg - 53)) - (dg - 53)) with 0
      by (unfold fexp, emin, d_prec, d_emax; lia). done. }
  unfold binary_round_aux. rewrite Hs. simpl. rewrite Hs. simpl.
  destruct (Z.leb_spec (dg - 53) (d_emax - d_prec)); [by eauto|unfold d_emax, d_prec in *; lia].
Qed.
