(* ===== verification/BlockMap.v ===== *)
(** Fine blocks and the block-to-lock table.

    Both adaptive locks guard an array of [array_size] positions by cutting it
    into [kBlocks] fine blocks and mapping each block to one of [kLockCnt]
    mutexes. This file models the arithmetic the two classes share:
    normalising a query, [PositionToBlock], [RefreshBlockToLock] (which expands
    a vector of cuts into the table) and [FindLocksSegmentUnlocked], and proves
    that the table is monotone, that it is exact for well-formed cuts, and that
    two queries whose blocks overlap always have a lock in common. *)
From S2P Require Import Prelude.

Section BlockMap.
  Variables (kLockCnt kBlocks : Z).

(** [array_size == 0 ? 1 : 1 + ((array_size - 1) / kBlocks)] *)
Definition init_block_size (array_size : Z) : Z :=
  if array_size =? 0 then 1 else 1 +₆₄ (array_size -₆₄ 1) / kBlocks.

(** The first lines of [WriteQuery] and [CountLocksForRange]: clamp both ends
    to the array, then swap them if they are out of order. *)
Definition normalize (array_size left right : Z) : Z * Z :=
  let left := Z.min left (array_size -₆₄ 1) in
  let right := Z.min right (array_size -₆₄ 1) in
  if right <? left then (right, left) else (left, right).

Definition PositionToBlock (block_size pos : Z) : Z :=
  Z.min (pos / block_size) (kBlocks - 1).

(** [for (i = 0; i <= kLockCnt; ++i) cuts[i] = i * kBlocks / kLockCnt;
    cuts[kLockCnt] = kBlocks;] *)
Definition uniform_cuts : list Z :=
  let cuts := for_range 0 (kLockCnt + 1)
    (λ i cuts, cuts.[i <- (i *₆₄ kBlocks) / kLockCnt])
    (replicate (Z.to_nat (kLockCnt + 1)) 0) in
  cuts.[kLockCnt <- kBlocks].

(** [while (lock_index + 1 < kLockCnt && block >= cuts[lock_index + 1]) ++lock_index;]
    at most [n] iterations. *)
Fixpoint advance (n : nat) (cuts : list Z) (block lock_index : Z) : Z :=
  match n with
  | O => lock_index
  | S n' =>
      if ((lock_index + 1 <? kLockCnt) && (cuts.[lock_index + 1] <=? block))%bool
      then advance n' cuts block (lock_index + 1)
      else lock_index
  end.

(** One iteration of the loop over the blocks: the state is [lock_index] and the table. *)
Definition refresh_body (cuts : list Z) (block : Z) (st : Z * list Z) : Z * list Z :=
  let lock_index := advance (Z.to_nat kLockCnt) cuts block st.1 in
  (lock_index, st.2.[block <- lock_index]).

Definition RefreshBlockToLock (cuts table : list Z) : list Z :=
  (for_range 0 kBlocks (refresh_body cuts) (0, table)).2.

Definition FindLocksSegmentUnlocked (table : list Z) (block_size left right : Z) : Z * Z :=
  (table.[PositionToBlock block_size left], table.[PositionToBlock block_size right]).

(** ** Well-formedness *)

(** Non-decreasing cuts from [0] to [kBlocks]. *)
Definition cuts_weak (cuts : list Z) : Prop :=
  len cuts = kLockCnt + 1 ∧ cuts.[0] = 0 ∧ cuts.[kLockCnt] = kBlocks ∧
  ∀ i, 0 ≤ i < kLockCnt → cuts.[i] ≤ cuts.[i + 1].

(** Every mutex gets at least one block. *)
Definition cuts_valid (cuts : list Z) : Prop :=
  len cuts = kLockCnt + 1 ∧ cuts.[0] = 0 ∧ cuts.[kLockCnt] = kBlocks ∧
  ∀ i, 0 ≤ i < kLockCnt → cuts.[i] < cuts.[i + 1].

(** A table that may be used to take locks. *)
Definition table_ok (table : list Z) : Prop :=
  len table = kBlocks ∧
  (∀ b, 0 ≤ b < kBlocks → 0 ≤ table.[b] < kLockCnt) ∧
  (∀ b b', 0 ≤ b ≤ b' → b' < kBlocks → table.[b] ≤ table.[b']).

Context (HL : 0 < kLockCnt) (HB : 0 < kBlocks).

(** ** Queries and blocks *)

Lemma normalize_spec n l r :
  0 < n < modulus64 → 0 ≤ l → 0 ≤ r →
  normalize n l r =
    (Z.min (Z.min l (n - 1)) (Z.min r (n - 1)), Z.max (Z.min l (n - 1)) (Z.min r (n - 1))).
Proof.
  intros Hn Hl Hr. unfold normalize. rewrite u64_sub_small by lia.
  zbool; f_equal; lia.
Qed.

Lemma normalize_range n l r l' r' :
  0 < n < modulus64 → 0 ≤ l → 0 ≤ r → normalize n l r = (l', r') → 0 ≤ l' ≤ r' ∧ r' < n.
Proof. intros Hn Hl Hr. rewrite normalize_spec by done. intros [= <- <-]. lia. Qed.

Lemma init_block_size_pos n : 0 ≤ n < modulus64 → 1 ≤ init_block_size n.
Proof.
  intros Hn. unfold init_block_size. destruct (Z.eqb_spec n 0); [lia|].
  rewrite u64_sub_small by lia.
  assert (0 ≤ (n - 1) / kBlocks ≤ n - 1).
  { split; [apply Z.div_pos; lia|]. apply Z.div_le_upper_bound; nia. }
  rewrite u64_add_small by lia. lia.
Qed.

Lemma PositionToBlock_range s p :
  1 ≤ s → 0 ≤ p → 0 ≤ PositionToBlock s p < kBlocks.
Proof.
  intros Hs Hp. unfold PositionToBlock.
  assert (0 ≤ p / s) by (apply Z.div_pos; lia). lia.
Qed.

Lemma PositionToBlock_mono s p q :
  1 ≤ s → 0 ≤ p ≤ q → PositionToBlock s p ≤ PositionToBlock s q.
Proof.
  intros Hs Hp. unfold PositionToBlock.
  assert (p / s ≤ q / s) by (apply Z.div_le_mono; lia). lia.
Qed.

(** The final [min] of [PositionToBlock] is never needed inside the array. *)
Lemma PositionToBlock_exact n p :
  0 ≤ p < n → n < modulus64 →
  PositionToBlock (init_block_size n) p = p / init_block_size n ∧
  p / init_block_size n < kBlocks.
Proof.
  intros Hp Hn. assert (p / init_block_size n < kBlocks) as Hlt.
  { unfold init_block_size. destruct (Z.eqb_spec n 0); [lia|].
    rewrite u64_sub_small by lia.
    assert (0 ≤ (n - 1) / kBlocks ≤ n - 1).
    { split; [apply Z.div_pos; lia|]. apply Z.div_le_upper_bound; nia. }
    rewrite u64_add_small by lia.
    pose proof (Z.div_mod (n - 1) kBlocks ltac:(lia)).
    pose proof (Z.mod_pos_bound (n - 1) kBlocks ltac:(lia)).
    apply Z.div_lt_upper_bound; nia. }
  split; [|done]. unfold PositionToBlock. lia.
Qed.

(** ** The table *)

(** The loop keeps [lock_index] in range, never decreases it, and stops only
    at the last lock or at a cut above the block. *)
Lemma advance_spec n cuts b li :
  0 ≤ li < kLockCnt → (Z.to_nat (kLockCnt - 1 - li) ≤ n)%nat →
  let li' := advance n cuts b li in
  li ≤ li' < kLockCnt ∧
  (li' + 1 < kLockCnt → b < cuts.[li' + 1]) ∧
  (∀ i, li < i ≤ li' → cuts.[i] ≤ b).
Proof.
  revert li. induction n as [|n IH]; intros li Hli Hn; simpl.
  - split_and!; intros; lia.
  - destruct (Z.ltb_spec (li + 1) kLockCnt); simpl; [|split_and!; intros; lia].
    destruct (Z.leb_spec (cuts.[li + 1]) b).
    + destruct (IH (li + 1)) as (Hr & Hs & Hc); [lia|lia|].
      split_and!; [lia|lia|done|]. intros i Hi.
      destruct (decide (i = li + 1)) as [->|]; [done|]. apply Hc. lia.
    + split_and!; intros; lia.
Qed.

(** What the refreshing loop knows after the blocks below [b]. *)
Definition refresh_inv (b : Z) (st : Z * list Z) : Prop :=
  0 ≤ st.1 < kLockCnt ∧ len st.2 = kBlocks ∧
  (0 < b → st.2.[b - 1] = st.1) ∧ (b = 0 → st.1 = 0) ∧
  (∀ c, 0 ≤ c < b → 0 ≤ st.2.[c] ≤ st.1) ∧
  (∀ c c', 0 ≤ c ≤ c' → c' < b → st.2.[c] ≤ st.2.[c']).

Lemma refresh_body_inv cuts b st :
  0 ≤ b < kBlocks → refresh_inv b st → refresh_inv (b + 1) (refresh_body cuts b st).
Proof.
  destruct st as [li t]. unfold refresh_inv, refresh_body; simpl.
  intros Hb (Hli & Hlen & Hlast & Hz & Hle & Hmono).
  destruct (advance_spec (Z.to_nat kLockCnt) cuts b li) as (Hr & _ & _); [lia|lia|].
  set (li' := advance _ cuts b li) in *.
  assert (∀ c, 0 ≤ c → (t.[b <- li']).[c] = if Z.eqb b c then li' else t.[c]) as Hget.
  { intros c Hc. apply get_set; [|done]. fold (len t). lia. }
  split_and!; [lia|lia|by rewrite len_set| | | |].
  - intros _. rewrite Hget by lia. by zbool.
  - lia.
  - intros c Hc. rewrite Hget by lia. zbool; [lia|]. specialize (Hle c ltac:(lia)). lia.
  - intros c c' Hc Hc'. rewrite !Hget by lia. zbool; try lia.
    + specialize (Hle c ltac:(lia)). lia.
    + apply Hmono; lia.
Qed.

Lemma refresh_inv_0 t : len t = kBlocks → refresh_inv 0 (0, t).
Proof. unfold refresh_inv; simpl. intros. split_and!; try done; try lia; intros; lia. Qed.

(** Whatever the cuts are, refreshing yields a table that may be used. *)
Lemma RefreshBlockToLock_ok cuts t :
  len t = kBlocks → table_ok (RefreshBlockToLock cuts t).
Proof.
  intros Ht. unfold RefreshBlockToLock.
  assert (refresh_inv kBlocks (for_range 0 kBlocks (refresh_body cuts) (0, t)))
    as (Hr & Hl & _ & _ & Hle & Hm).
  { apply for_range_inv; [lia|by apply refresh_inv_0|].
    intros. apply refresh_body_inv; auto. }
  split_and!; [done| |].
  - intros b Hb. specialize (Hle b Hb). lia.
  - intros b b' Hb Hb'. by apply Hm.
Qed.

(** *** Exactness for well-formed cuts *)

Lemma cuts_valid_weak cuts : cuts_valid cuts → cuts_weak cuts.
Proof. intros (? & ? & ? & H). split_and!; [done..|]. intros i Hi. specialize (H i Hi). lia. Qed.

Lemma cuts_weak_mono cuts i j :
  cuts_weak cuts → 0 ≤ i ≤ j → j ≤ kLockCnt → cuts.[i] ≤ cuts.[j].
Proof.
  intros (_ & _ & _ & Hs) [Hi Hij] Hj.
  replace j with (i + Z.of_nat (Z.to_nat (j - i))) in * by lia.
  induction (Z.to_nat (j - i)) as [|n IH]; [rewrite Z.add_0_r; lia|].
  specialize (Hs (i + Z.of_nat n) ltac:(lia)).
  replace (i + Z.of_nat (S n)) with (i + Z.of_nat n + 1) by lia.
  specialize (IH ltac:(lia) ltac:(lia)). lia.
Qed.

(** A block lies in one segment only. *)
Lemma segment_unique cuts i k b :
  cuts_weak cuts → 0 ≤ i < kLockCnt → 0 ≤ k < kLockCnt →
  cuts.[i] ≤ b < cuts.[i + 1] → cuts.[k] ≤ b < cuts.[k + 1] → i = k.
Proof.
  intros Hc Hi Hk Hbi Hbk. destruct (Z.lt_trichotomy i k) as [?|[?|?]]; [|done|].
  - pose proof (cuts_weak_mono cuts (i + 1) k Hc ltac:(lia) ltac:(lia)). lia.
  - pose proof (cuts_weak_mono cuts (k + 1) i Hc ltac:(lia) ltac:(lia)). lia.
Qed.

Lemma cuts_valid_strict cuts i j :
  cuts_valid cuts → 0 ≤ i < j → j ≤ kLockCnt → cuts.[i] < cuts.[j].
Proof.
  intros Hv Hi Hj. destruct (Hv) as (_ & _ & _ & Hs). specialize (Hs i ltac:(lia)).
  pose proof (cuts_weak_mono cuts (i + 1) j (cuts_valid_weak _ Hv) ltac:(lia) Hj). lia.
Qed.

Definition exact_inv (cuts : list Z) (b : Z) (st : Z * list Z) : Prop :=
  0 ≤ st.1 < kLockCnt ∧ len st.2 = kBlocks ∧ (0 < b → cuts.[st.1] < b) ∧ (b = 0 → st.1 = 0) ∧
  ∀ c, 0 ≤ c < b → 0 ≤ st.2.[c] < kLockCnt ∧ cuts.[st.2.[c]] ≤ c < cuts.[st.2.[c] + 1].

Lemma refresh_body_exact cuts b st :
  cuts_weak cuts → 0 ≤ b < kBlocks → exact_inv cuts b st →
  exact_inv cuts (b + 1) (refresh_body cuts b st).
Proof.
  destruct st as [li t]. unfold exact_inv, refresh_body; simpl.
  intros (Hlen & H0 & HK & Hstep) Hb (Hli & Ht & Hlow & Hz & Hex).
  destruct (advance_spec (Z.to_nat kLockCnt) cuts b li) as (Hr & Hstop & Hc); [lia|lia|].
  set (li' := advance _ cuts b li) in *.
  assert (cuts.[li'] ≤ b) as Hlo.
  { destruct (decide (li = li')) as [<-|]; [|apply Hc; lia].
    destruct (decide (b = 0)) as [->|]; [rewrite Hz, H0 by lia; lia|]. specialize (Hlow ltac:(lia)). lia. }
  assert (b < cuts.[li' + 1]) as Hhi.
  { destruct (decide (li' + 1 < kLockCnt)); [auto|].
    replace (li' + 1) with kLockCnt by lia. lia. }
  split_and!; [lia|lia|by rewrite len_set|lia|lia|].
  intros c Hc'. rewrite get_set by lia. zbool; [subst; lia|]. apply Hex. lia.
Qed.

(** For cuts that go from [0] to [kBlocks] the table gives block [b] the lock
    whose segment contains it. *)
Lemma RefreshBlockToLock_exact cuts t b :
  cuts_weak cuts → len t = kBlocks → 0 ≤ b < kBlocks →
  let i := (RefreshBlockToLock cuts t).[b] in
  0 ≤ i < kLockCnt ∧ cuts.[i] ≤ b < cuts.[i + 1].
Proof.
  intros Hcuts Ht Hb. unfold RefreshBlockToLock.
  assert (exact_inv cuts kBlocks (for_range 0 kBlocks (refresh_body cuts) (0, t)))
    as (_ & _ & _ & _ & Hex).
  { apply for_range_inv; [lia| |].
    - unfold exact_inv; simpl. split_and!; try done; intros; lia.
    - intros. apply refresh_body_exact; auto. }
  apply Hex, Hb.
Qed.

(** *** The initial cuts *)

Lemma uniform_cuts_get i :
  kLockCnt * kBlocks < modulus64 → 0 ≤ i ≤ kLockCnt →
  len uniform_cuts = kLockCnt + 1 ∧ uniform_cuts.[i] = i * kBlocks / kLockCnt.
Proof.
  intros Hov Hi. unfold uniform_cuts.
  set (f := λ (i : Z) (cuts : list Z), cuts.[i <- i *₆₄ kBlocks / kLockCnt]).
  set (z := replicate (Z.to_nat (kLockCnt + 1)) 0).
  assert (len (for_range 0 (kLockCnt + 1) f z) = kLockCnt + 1 ∧
    ∀ j, 0 ≤ j < kLockCnt + 1 → (for_range 0 (kLockCnt + 1) f z).[j] = j * kBlocks / kLockCnt)
    as [Hlen Hget].
  { apply (for_range_inv (λ b c, len c = kLockCnt + 1 ∧
      ∀ j, 0 ≤ j < b → c.[j] = j * kBlocks / kLockCnt)); [lia| |].
    - split; [unfold z; rewrite len_replicate; lia|intros; lia].
    - intros b c Hb [Hl Hc]. unfold f. split; [by rewrite len_set|].
      intros j Hj. rewrite get_set by lia. destruct (Z.eqb_spec b j) as [<-|]; [|apply Hc; lia].
      rewrite u64_mul_small by nia. done. }
  split; [by rewrite len_set|]. rewrite get_set by lia.
  destruct (Z.eqb_spec kLockCnt i) as [<-|]; [|apply Hget; lia].
  by rewrite Z.mul_comm, Z.div_mul by lia.
Qed.

Lemma uniform_cuts_weak : kLockCnt * kBlocks < modulus64 → cuts_weak uniform_cuts.
Proof.
  intros Hov. assert (∀ i, 0 ≤ i ≤ kLockCnt → uniform_cuts.[i] = i * kBlocks / kLockCnt) as Hg
    by (intros; by apply uniform_cuts_get).
  split_and!; [apply (uniform_cuts_get 0); [done|lia]|rewrite Hg by lia; done| |].
  - rewrite Hg by lia. by rewrite Z.mul_comm, Z.div_mul by lia.
  - intros i Hi. rewrite !Hg by lia. apply Z.div_le_mono; nia.
Qed.

Lemma uniform_cuts_valid :
  kLockCnt * kBlocks < modulus64 → kLockCnt ≤ kBlocks → cuts_valid uniform_cuts.
Proof.
  intros Hov Hle. destruct (uniform_cuts_weak Hov) as (H1 & H2 & H3 & _).
  split_and!; [done..|]. intros i Hi.
  rewrite (proj2 (uniform_cuts_get i Hov ltac:(lia))),
    (proj2 (uniform_cuts_get (i + 1) Hov ltac:(lia))).
  assert (i * kBlocks / kLockCnt + 1 ≤ (i + 1) * kBlocks / kLockCnt); [|lia].
  rewrite <-Z.div_add by lia. apply Z.div_le_mono; nia.
Qed.

(** *** Lock segments *)

(** The segment of a normalised query is an interval of locks. *)
(** The table is the one the cuts describe. *)
Definition table_matches (table cuts : list Z) : Prop :=
  ∀ b, 0 ≤ b < kBlocks → cuts.[table.[b]] ≤ b < cuts.[table.[b] + 1].

Lemma refresh_matches cuts table :
  cuts_weak cuts → len table = kBlocks → table_matches (RefreshBlockToLock cuts table) cuts.
Proof. intros Hc Hl b Hb. by apply RefreshBlockToLock_exact. Qed.

Lemma FindLocksSegment_range table s l r f e :
  table_ok table → 1 ≤ s → 0 ≤ l ≤ r →
  FindLocksSegmentUnlocked table s l r = (f, e) → 0 ≤ f ≤ e ∧ e < kLockCnt.
Proof.
  intros (_ & Hr & Hm) Hs Hl [= <- <-].
  pose proof (PositionToBlock_range s l Hs ltac:(lia)).
  pose proof (PositionToBlock_range s r Hs ltac:(lia)).
  pose proof (PositionToBlock_mono s l r Hs ltac:(lia)).
  pose proof (Hr _ H). pose proof (Hr _ H0). split; [|lia].
  split; [lia|]. apply Hm; lia.
Qed.

(** Queries that touch a common block share a lock. *)
Lemma overlap_shares_lock table s l1 r1 l2 r2 :
  table_ok table → 1 ≤ s → 0 ≤ l1 ≤ r1 → 0 ≤ l2 ≤ r2 →
  PositionToBlock s l1 ≤ PositionToBlock s r2 → PositionToBlock s l2 ≤ PositionToBlock s r1 →
  ∃ k, (FindLocksSegmentUnlocked table s l1 r1).1 ≤ k ≤ (FindLocksSegmentUnlocked table s l1 r1).2 ∧
       (FindLocksSegmentUnlocked table s l2 r2).1 ≤ k ≤ (FindLocksSegmentUnlocked table s l2 r2).2.
Proof.
  intros (_ & Hr & Hm) Hs H1 H2 H12 H21. simpl.
  set (P := PositionToBlock s) in *.
  assert (∀ p, 0 ≤ p → 0 ≤ P p < kBlocks) as HP by (intros; by apply PositionToBlock_range).
  assert (P l1 ≤ P r1) by (apply PositionToBlock_mono; lia).
  assert (P l2 ≤ P r2) by (apply PositionToBlock_mono; lia).
  pose proof (HP l1 ltac:(lia)). pose proof (HP l2 ltac:(lia)).
  pose proof (HP r1 ltac:(lia)). pose proof (HP r2 ltac:(lia)).
  exists (table.[Z.max (P l1) (P l2)]). repeat split; apply Hm; lia.
Qed.

End BlockMap.

(** ** Properties *)

(** The lock of a block by a linear search in the cuts (the specification of
    the table): the last index below [kLockCnt - 1] whose cut is not above the block. *)
Fixpoint search_lock (n : nat) (cuts : list Z) (block : Z) : Z :=
  match n with
  | O => 0
  | S n' => if cuts.[Z.of_nat n] <=? block then Z.of_nat n else search_lock n' cuts block
  end.

Lemma search_lock_spec n cuts b :
  cuts.[0] ≤ b → let i := search_lock n cuts b in
  0 ≤ i ≤ Z.of_nat n ∧ cuts.[i] ≤ b ∧ ∀ j, i < j ≤ Z.of_nat n → b < cuts.[j].
Proof.
  intros H0. induction n as [|n IH]; [simpl; split_and!; first [lia|intros; lia]|].
  cbn [search_lock]. destruct (Z.leb_spec (cuts.[Z.of_nat (S n)]) b).
  - split_and!; first [lia|intros; lia].
  - destruct IH as (Hr & Hc & Hj). split_and!; try lia. intros j Hj'.
    destruct (decide (j = Z.of_nat (S n))) as [->|]; [done|]. apply Hj. lia.
Qed.

(** [RefreshBlockToLock] turns cuts that go from [0] to [kBlocks] without
    decreasing into the table of the specification: block [b] gets the lock [i]
    with [cuts[i] <= b < cuts[i + 1]], the one a search in the cuts finds. *)
Theorem RefreshBlockToLock_correct kLockCnt kBlocks cuts table b :
  0 < kLockCnt → 0 < kBlocks → cuts_weak kLockCnt kBlocks cuts → len table = kBlocks →
  0 ≤ b < kBlocks →
  let i := (RefreshBlockToLock kLockCnt kBlocks cuts table).[b] in
  cuts.[i] ≤ b < cuts.[i + 1] ∧ i = search_lock (Z.to_nat (kLockCnt - 1)) cuts b.
Proof.
  intros HL HB Hcuts Hlen Hb i.
  destruct (RefreshBlockToLock_exact kLockCnt kBlocks HL HB cuts table b Hcuts Hlen Hb) as [Hi Hc].
  fold i in Hi, Hc. split; [done|].
  pose proof Hcuts as (_ & H0 & _).
  destruct (search_lock_spec (Z.to_nat (kLockCnt - 1)) cuts b ltac:(lia)) as (Hr & Hs & Habove).
  set (k := search_lock _ cuts b) in *.
  destruct (Z.lt_trichotomy i k) as [Hlt|[?|Hgt]]; [|done|].
  - assert (cuts.[i + 1] ≤ cuts.[k]); [|lia].
    apply (cuts_weak_mono kLockCnt kBlocks); [done|lia|lia].
  - specialize (Habove i ltac:(lia)). lia.
Qed.

Lemma RefreshBlockToLock_correct_witness :
  RefreshBlockToLock 3 8 [0; 2; 2; 8] (replicate 8 0) = [0; 0; 2; 2; 2; 2; 2; 2] ∧
  cuts_weak 3 8 [0; 2; 2; 8] ∧
  2 = search_lock (Z.to_nat (3 - 1)) [0; 2; 2; 8] 5.
Proof.
  assert (cuts_weak 3 8 [0; 2; 2; 8]) as Hw.
  { split_and!; try reflexivity. intros i Hi.
    assert (i = 0 ∨ i = 1 ∨ i = 2) as [-> | [-> | ->]] by lia; done. }
  split; [vm_compute; reflexivity|]. split; [done|].
  apply (RefreshBlockToLock_correct 3 8 [0; 2; 2; 8] (replicate 8 0) 5); [lia|lia|done|done|lia].
Defined.

(** [PositionToBlock] never needs its upper clamp: for an array of any size
    below [2^64] the block of a position inside the array is
    [pos / block_size], it is below [kBlocks], and a larger position never has
    a smaller block. *)
Theorem PositionToBlock_sound kBlocks n p q :
  0 < kBlocks → 0 ≤ p ≤ q → q < n → n < modulus64 →
  PositionToBlock kBlocks (init_block_size kBlocks n) p = p / init_block_size kBlocks n ∧
  0 ≤ PositionToBlock kBlocks (init_block_size kBlocks n) p ∧
  PositionToBlock kBlocks (init_block_size kBlocks n) p
    ≤ PositionToBlock kBlocks (init_block_size kBlocks n) q < kBlocks.
Proof.
  intros HB Hp Hq Hn. pose proof (init_block_size_pos kBlocks HB n ltac:(lia)).
  split; [by apply PositionToBlock_exact; [|lia|]|].
  pose proof (PositionToBlock_mono kBlocks (init_block_size kBlocks n) p q ltac:(lia) ltac:(lia)).
  pose proof (PositionToBlock_range kBlocks HB (init_block_size kBlocks n) p ltac:(lia) ltac:(lia)).
  pose proof (PositionToBlock_range kBlocks HB (init_block_size kBlocks n) q ltac:(lia) ltac:(lia)).
  lia.
Qed.

Lemma PositionToBlock_sound_witness :
  PositionToBlock 1024 (init_block_size 1024 (modulus64 - 1)) (modulus64 - 2) = 1023 ∧
  PositionToBlock 1024 (init_block_size 1024 1000000) 999 = 999 / init_block_size 1024 1000000.
Proof.
  split; [vm_compute; reflexivity|].
  apply (PositionToBlock_sound 1024 1000000 999 1000); unfold modulus64; lia.
Defined.
