(* ===== verification/RangeLock.v ===== *)
(** [RangeLockGuard]: taking a contiguous range of mutexes.

    The same nested class appears in [NaiveLock], [DynamicLock] and
    [GeneticLock]. A mutex array is the map of the mutexes that are held to the
    thread that holds them. [lock()] may throw (the mutex type is a template
    parameter and [std::mutex::lock] is allowed to): the oracle [throws] says on
    which indices it does; blocking on a mutex of another thread is the business
    of [QueryProtocol], here the mutexes of the range are free. *)
From S2P Require Import Prelude.

(** The result of an operation that may throw. *)
Inductive outcome (A : Type) := Returned (a : A) | Thrown.
Arguments Returned {A} a.
Arguments Thrown {A}.

(** The members of a constructed guard, besides the reference to the array. *)
Record RangeLockGuard := { first_ : Z; locked_count_ : Z }.

(** [while (locked_count_ > 0) { --locked_count_; locks_[first_ + locked_count_].unlock(); }] *)
Fixpoint UnlockAll_loop (locked_count : nat) (first : Z) (locks : gmap Z nat) : gmap Z nat :=
  match locked_count with
  | O => locks
  | S n => UnlockAll_loop n first (delete (first + Z.of_nat n) locks)
  end.

Definition UnlockAll (g : RangeLockGuard) (locks : gmap Z nat) : gmap Z nat :=
  UnlockAll_loop (Z.to_nat (locked_count_ g)) (first_ g) locks.

(** The loop of the constructor over the [n] remaining indices from [index]. *)
Fixpoint lock_loop (me : nat) (throws : Z → bool) (n : nat) (index : Z)
    (g : RangeLockGuard) (locks : gmap Z nat) : gmap Z nat * outcome RangeLockGuard :=
  match n with
  | O => (locks, Returned g)
  | S n' =>
      if throws index then (UnlockAll g locks, Thrown)
      else lock_loop me throws n' (index + 1)
             {| g with locked_count_ := locked_count_ g + 1 |} (<[index := me]> locks)
  end.

(** The constructor: [for (index = first; index <= last; ++index)], with the
    handler that unlocks what was taken and rethrows. *)
Definition construct (me : nat) (throws : Z → bool) (first last : Z) (locks : gmap Z nat) :
    gmap Z nat * outcome RangeLockGuard :=
  lock_loop me throws (Z.to_nat (last + 1 - first)) first
    {| first_ := first; locked_count_ := 0 |} locks.

(** The destructor. *)
Definition destroy (g : RangeLockGuard) (locks : gmap Z nat) : gmap Z nat := UnlockAll g locks.

(** The mutexes [first .. first + n - 1] are added to those held in [locks]. *)
Definition range_held (me : nat) (first n : Z) (locks : gmap Z nat) (locks' : gmap Z nat) : Prop :=
  ∀ i, locks' !! i = if decide (first ≤ i < first + n) then Some me else locks !! i.

Definition range_free (first last : Z) (locks : gmap Z nat) : Prop :=
  ∀ i, first ≤ i ≤ last → locks !! i = None.

(** ** Lemmas *)

Lemma UnlockAll_loop_spec me first n locks locks' :
  (∀ i, first ≤ i < first + Z.of_nat n → locks !! i = None) →
  range_held me first (Z.of_nat n) locks locks' → UnlockAll_loop n first locks' = locks.
Proof.
  revert locks'. induction n as [|n IH]; intros locks' Hfree Hh; simpl.
  - apply map_eq. intros i. rewrite Hh. by case_decide; [lia|].
  - apply IH; [intros; apply Hfree; lia|]. intros i. rewrite lookup_delete.
    case_decide as Hi.
    + case_decide; [lia|]. symmetry. apply Hfree. lia.
    + rewrite Hh. repeat case_decide; try lia; done.
Qed.

Lemma lock_loop_spec me throws n index g locks0 locks :
  locked_count_ g = index - first_ g → first_ g ≤ index →
  (∀ i, first_ g ≤ i < index + Z.of_nat n → locks0 !! i = None) →
  range_held me (first_ g) (locked_count_ g) locks0 locks →
  match lock_loop me throws n index g locks with
  | (locks', Returned g') =>
      (∀ i, index ≤ i < index + Z.of_nat n → throws i = false) ∧
      g' = {| first_ := first_ g; locked_count_ := locked_count_ g + Z.of_nat n |} ∧
      range_held me (first_ g') (locked_count_ g') locks0 locks'
  | (locks', Thrown) => locks' = locks0 ∧ ∃ i, index ≤ i < index + Z.of_nat n ∧ throws i = true
  end.
Proof.
  revert index g locks. induction n as [|n IH]; intros index g locks Hc Hi Hfree Hh; simpl.
  - split_and!; [intros; lia| |done]. destruct g; simpl in *. f_equal. lia.
  - destruct (throws index) eqn:Ht.
    + split; [|exists index; split; [lia|done]]. unfold UnlockAll.
      apply (UnlockAll_loop_spec me); [intros; apply Hfree; lia|].
      by replace (Z.of_nat (Z.to_nat (locked_count_ g))) with (locked_count_ g) by lia.
    + set (g1 := {| g with locked_count_ := _ |}).
      specialize (IH (index + 1) g1 (<[index := me]> locks)).
      destruct (lock_loop me throws n (index + 1) g1 _) as [locks' [g'|]];
        destruct IH as (H1 & H2); try (simpl; lia); try (intros; apply Hfree; simpl in *; lia).
      1, 3: intros i; simpl; rewrite lookup_insert; specialize (Hh i);
        repeat case_decide; try lia; done.
      * destruct H2 as [-> H2]. simpl in *. split_and!.
        -- intros i Hr. destruct (decide (i = index)) as [->|]; [done|apply H1; lia].
        -- f_equal. lia.
        -- done.
      * split; [done|]. destruct H2 as (i & ? & ?). exists i. split; [lia|done].
Qed.

Lemma construct_spec me throws first last locks :
  first ≤ last + 1 → range_free first last locks →
  match construct me throws first last locks with
  | (locks', Returned g) =>
      (∀ i, first ≤ i ≤ last → throws i = false) ∧
      g = {| first_ := first; locked_count_ := last - first + 1 |} ∧
      range_held me first (last - first + 1) locks locks'
  | (locks', Thrown) => locks' = locks ∧ ∃ i, first ≤ i ≤ last ∧ throws i = true
  end.
Proof.
  intros Hfl Hfree. unfold construct.
  pose proof (lock_loop_spec me throws (Z.to_nat (last + 1 - first)) first
    {| first_ := first; locked_count_ := 0 |} locks locks) as H. simpl in H.
  destruct (lock_loop _ _ _ _ _ _) as [locks' [g|]].
  - destruct H as (Hno & -> & Hh); [lia|lia|intros; apply Hfree; lia| |].
    + intros i. by case_decide; [lia|].
    + simpl in *. replace (Z.of_nat (Z.to_nat (last + 1 - first))) with (last - first + 1) in * by lia.
      split_and!; [intros i Hi; apply Hno; lia|done|done].
  - destruct H as (-> & i & ? & ?); [lia|lia|intros; apply Hfree; lia| |].
    + intros i. by case_decide; [lia|].
    + split; [done|]. exists i. split; [lia|done].
Qed.

(** Whether some mutex of the range throws decides how the constructor ends. *)
Lemma construct_cases me throws first last locks :
  first ≤ last + 1 → range_free first last locks →
  ∃ locks', range_held me first (last - first + 1) locks locks' ∧
    construct me throws first last locks =
      if existsb throws (seqZ first (last - first + 1)) then (locks, Thrown)
      else (locks', Returned {| first_ := first; locked_count_ := last - first + 1 |}).
Proof.
  intros Hfl Hfree. unfold construct.
  set (g0 := {| first_ := first; locked_count_ := 0 |}).
  assert (range_held me first 0 locks locks) as H0 by (intros i; by case_decide; [lia|]).
  pose proof (lock_loop_spec me throws (Z.to_nat (last + 1 - first)) first g0 locks locks
    ltac:(simpl; lia) ltac:(simpl; lia) ltac:(intros; apply Hfree; simpl in *; lia) H0) as H.
  destruct (lock_loop _ _ _ _ _ _) as [locks' [g|]]; simpl in *.
  - destruct H as (Hno & -> & Hh).
    replace (Z.of_nat (Z.to_nat (last + 1 - first))) with (last - first + 1) in * by lia.
    exists locks'. split; [done|]. simpl in *.
    destruct (existsb throws _) eqn:He; [|done].
    apply existsb_exists in He as (i & Hi & Ht). apply list_elem_of_In, elem_of_seqZ in Hi.
    rewrite Hno in Ht by lia. done.
  - destruct H as (-> & i & Hi & Ht).
    exists (list_to_map ((λ i, (i, me)) <$> seqZ first (last - first + 1)) ∪ locks). split.
    + intros j. rewrite lookup_union. case_decide as Hj.
      * erewrite (elem_of_list_to_map_1' _ j me); [by destruct (locks !! j)| |].
        -- intros y Hy. apply list_elem_of_fmap in Hy as (? & [= _ ->] & _). done.
        -- apply list_elem_of_fmap. exists j. rewrite elem_of_seqZ. split; [done|lia].
      * rewrite not_elem_of_list_to_map_1; [by destruct (locks !! j)|].
        rewrite <-list_fmap_compose. intros Hy.
        apply list_elem_of_fmap in Hy as (? & -> & Hy). apply elem_of_seqZ in Hy. simpl in *. lia.
    + replace (existsb throws _) with true; [done|]. symmetry. apply existsb_exists.
      exists i. split; [|done]. apply list_elem_of_In, elem_of_seqZ. lia.
Qed.

Lemma destroy_spec me first last locks locks' :
  first ≤ last + 1 → range_free first last locks →
  range_held me first (last - first + 1) locks locks' →
  destroy {| first_ := first; locked_count_ := last - first + 1 |} locks' = locks.
Proof.
  intros Hfl Hfree Hh. unfold destroy, UnlockAll; simpl.
  apply (UnlockAll_loop_spec me); [intros; apply Hfree; lia|].
  by replace (Z.of_nat (Z.to_nat (last - first + 1))) with (last - first + 1) by lia.
Qed.

Lemma range_free_empty first last : range_free first last ∅.
Proof. intros i _. apply lookup_empty. Qed.

(** ** Properties *)

(** C9. The guard is exception safe and exact. On a free range, the constructor
    throws exactly when [lock()] throws on some mutex of the range: if it
    returns, none throws, exactly the mutexes [first..last] are added to those
    held, and the destructor restores the initial state; if it throws, one of
    them throws and every mutex is left as it was found. *)
Theorem RangeLockGuard_safe me throws first last locks :
  first ≤ last + 1 → range_free first last locks →
  match construct me throws first last locks with
  | (locks', Returned g) =>
      (∀ i, first ≤ i ≤ last → throws i = false) ∧
      range_held me first (last - first + 1) locks locks' ∧ destroy g locks' = locks
  | (locks', Thrown) => locks' = locks ∧ ∃ i, first ≤ i ≤ last ∧ throws i = true
  end.
Proof.
  intros Hfl Hfree. pose proof (construct_spec me throws first last locks Hfl Hfree) as H.
  destruct (construct _ _ _ _ _) as [locks' [g|]]; [|done].
  destruct H as (Hno & -> & H). split_and!; [done|done|]. by apply (destroy_spec me).
Qed.

Lemma RangeLockGuard_safe_witness :
  construct 7%nat (λ i, i =? 4) 2 5 {[ 0 := 1%nat ]} = ({[ 0 := 1%nat ]}, Thrown) ∧
  match construct 7%nat (λ i, i =? 4) 2 5 {[ 0 := 1%nat ]} with
  | (locks', Returned g) =>
      (∀ i, 2 ≤ i ≤ 5 → (i =? 4) = false) ∧
      range_held 7 2 (5 - 2 + 1) {[ 0 := 1%nat ]} locks' ∧ destroy g locks' = {[ 0 := 1%nat ]}
  | (locks', Thrown) => locks' = {[ 0 := 1%nat ]} ∧ ∃ i, 2 ≤ i ≤ 5 ∧ (i =? 4) = true
  end.
Proof.
  split; [vm_compute; reflexivity|]. apply RangeLockGuard_safe; [lia|].
  intros i Hi. apply lookup_singleton_ne. lia.
Defined.
