(* ===== verification/PartitionDP.v ===== *)
(** Optimal partitioning ([DynamicLock::OptimizePartitions], [PartitionCost]).

    The dynamic lock chooses the next cuts by dynamic programming over
    [(kBlocks + 1) x (kLockCnt + 1)] tables: the cost of a segment is the square
    of the number of recorded block hits in it, plus a penalty for every query
    that crossed its left boundary. The loops are modelled as they are written,
    in 64-bit arithmetic. The file shows that they compute the textbook
    recurrence, that the cuts are always non-decreasing from [0] to [kBlocks],
    and that, as long as no cost can overflow, they are strictly increasing and
    of minimal cost among all partitions. *)
From S2P Require Import Prelude BlockMap.

(** [kBoundaryCrossingPenalty]. *)
Definition kBoundaryCrossingPenalty : Z := 10000000.

Section DP.
  Variables (kLockCnt kBlocks : Z).

(** [prefix_sum[i + 1] = prefix_sum[i] + current_stats[i]]. *)
Definition prefix_sums (stats : list Z) : list Z :=
  for_range 0 kBlocks (λ i ps, ps.[i + 1 <- ps.[i] +₆₄ stats.[i]])
    (replicate (Z.to_nat (kBlocks + 1)) 0).

Definition segment_weight (prefix_sum : list Z) (left right : Z) : Z :=
  prefix_sum.[right] -₆₄ prefix_sum.[left].

Definition cut_penalty (boundary_crossings : list Z) (left : Z) : Z :=
  if left =? 0 then 0 else kBoundaryCrossingPenalty *₆₄ boundary_crossings.[left].

(** The tables [dp] and [split] of the search. *)
Record tables := { dp : list (list Z); split : list (list Z) }.

(** The body of the innermost loop. *)
Definition relax (prefix_sum boundary_crossings : list Z) (right locks left : Z) (t : tables) : tables :=
  if get2 (dp t) left (locks - 1) =? size_max then t
  else
    let weight := segment_weight prefix_sum left right in
    let cut_penalty := cut_penalty boundary_crossings left in
    let candidate := get2 (dp t) left (locks - 1) +₆₄ weight *₆₄ weight +₆₄ cut_penalty in
    if candidate <? get2 (dp t) right locks
    then {| dp := set2 (dp t) right locks candidate; split := set2 (split t) right locks left |}
    else t.

Definition dp_tables (prefix_sum boundary_crossings : list Z) : tables :=
  let t := {| dp := set2 (table_make (kBlocks + 1) (kLockCnt + 1) size_max) 0 0 0;
              split := table_make (kBlocks + 1) (kLockCnt + 1) 0 |} in
  for_range 1 (kBlocks + 1) (λ right,
    for_range 1 (kLockCnt + 1) (λ locks,
      for_range 0 right (relax prefix_sum boundary_crossings right locks))) t.

(** The walk back: iteration [i] handles [locks = kLockCnt - i]; the state is
    [current] and [new_partitions]. *)
Definition backtrack_body (split : list (list Z)) (i : Z) (st : Z * list Z) : Z * list Z :=
  let locks := kLockCnt - i in
  let s := get2 split st.1 locks in
  (s, st.2.[locks - 1 <- s]).

Definition OptimizePartitions (prefix_sum boundary_crossings : list Z) : list Z :=
  let t := dp_tables prefix_sum boundary_crossings in
  let new_partitions := (replicate (Z.to_nat (kLockCnt + 1)) 0).[kLockCnt <- kBlocks] in
  (for_range 0 kLockCnt (backtrack_body (split t)) (kBlocks, new_partitions)).2.

Definition PartitionCost (partitions prefix_sum boundary_crossings : list Z) : Z :=
  for_range 0 kLockCnt (λ lock_index total,
    let left := partitions.[lock_index] in
    let right := partitions.[lock_index + 1] in
    let weight := segment_weight prefix_sum left right in
    total +₆₄ (weight *₆₄ weight +₆₄ cut_penalty boundary_crossings left)) 0.

Context (HL : 0 < kLockCnt) (HB : 0 < kBlocks).

(** ** The loops compute a recurrence *)

Section Recurrence.
  Variables (P C : list Z).

(** One candidate of cell [(right, locks)]; [row] is column [locks - 1] of [dp]. *)
Definition cell_step (row : Z → Z) (right left : Z) (vs : Z * Z) : Z * Z :=
  if row left =? size_max then vs
  else
    let weight := segment_weight P left right in
    let candidate := row left +₆₄ weight *₆₄ weight +₆₄ cut_penalty C left in
    if candidate <? vs.1 then (candidate, left) else vs.

Definition cell_value (row : Z → Z) (right : Z) : Z * Z :=
  for_range 0 right (cell_step row right) (size_max, 0).

Definition dims (t : tables) : Prop :=
  table_dim (dp t) (kBlocks + 1) (kLockCnt + 1) ∧ table_dim (split t) (kBlocks + 1) (kLockCnt + 1).

Definition cell (t : tables) (r k : Z) : Z * Z := (get2 (dp t) r k, get2 (split t) r k).

(** Cells other than [(r, k)] are the same in both tables. *)
Definition same_but (r k : Z) (t t' : tables) : Prop :=
  ∀ r' k', 0 ≤ r' → 0 ≤ k' → (r', k') ≠ (r, k) → cell t' r' k' = cell t r' k'.

Lemma relax_spec t r k l :
  dims t → 0 ≤ l < r → r ≤ kBlocks → 1 ≤ k ≤ kLockCnt →
  let t' := relax P C r k l t in
  dims t' ∧ same_but r k t t' ∧
  cell t' r k = cell_step (λ x, get2 (dp t) x (k - 1)) r l (cell t r k).
Proof.
  intros [Hd Hs] Hl Hr Hk. unfold relax, cell_step, cell; simpl.
  destruct (Z.eqb_spec (get2 (dp t) l (k - 1)) size_max); [done|].
  destruct (_ <? get2 (dp t) r k); [|done]. unfold dims, same_but, cell; simpl. split_and!.
  - by apply set2_dim; [|lia].
  - by apply set2_dim; [|lia].
  - intros r' k' Hr' Hk' Hne. rewrite !(get2_set2 _ (kBlocks + 1) (kLockCnt + 1)) by (done || lia).
    destruct (Z.eqb_spec r r'), (Z.eqb_spec k k'); simpl; congruence.
  - rewrite !(get2_set2 _ (kBlocks + 1) (kLockCnt + 1)) by (done || lia).
    by rewrite !Z.eqb_refl.
Qed.

Lemma relax_loop t r k :
  dims t → 0 ≤ r ≤ kBlocks → 1 ≤ k ≤ kLockCnt → cell t r k = (size_max, 0) →
  let t' := for_range 0 r (relax P C r k) t in
  dims t' ∧ same_but r k t t' ∧ cell t' r k = cell_value (λ x, get2 (dp t) x (k - 1)) r.
Proof.
  intros Hd Hr Hk Hinf. unfold cell_value.
  apply (for_range_inv (λ b t', dims t' ∧ same_but r k t t' ∧
    cell t' r k = for_range 0 b (cell_step (λ x, get2 (dp t) x (k - 1)) r) (size_max, 0)));
    [lia| |].
  - rewrite for_range_empty by lia. done.
  - intros b t' Hb (Hd' & Hsame & Hcell).
    destruct (relax_spec t' r k b) as (Hd'' & Hsame' & Hcell'); [done|lia|lia|lia|].
    split_and!; [done..| |].
    + intros r' k' Hr' Hk' Hne. rewrite Hsame' by done. by apply Hsame.
    + rewrite for_range_last by lia. rewrite Hcell', Hcell.
      unfold cell_step.
      assert (get2 (dp t') b (k - 1) = get2 (dp t) b (k - 1)) as ->; [|done].
      assert (cell t' b (k - 1) = cell t b (k - 1)) as Hc; [|by injection Hc].
      apply Hsame; [lia|lia|]. intros [= ? ?]. lia.
Qed.

(** Cell [(r, k)] has its final value in terms of column [k - 1]. *)
Definition cell_rec (t : tables) (r k : Z) : Prop :=
  cell t r k = cell_value (λ x, get2 (dp t) x (k - 1)) r.

Definition untouched (t : tables) (r k : Z) : Prop := cell t r k = (size_max, 0).

Lemma cell_value_ext row row' r :
  (∀ x, 0 ≤ x < r → row x = row' x) → cell_value row r = cell_value row' r.
Proof.
  intros H. unfold cell_value. apply for_range_ext. intros i vs Hi.
  unfold cell_step. by rewrite H.
Qed.

(** The state of the search when the rows below [R] are final. *)
Definition rows_done (R : Z) (t : tables) : Prop :=
  dims t ∧ get2 (dp t) 0 0 = 0 ∧
  (∀ k, 1 ≤ k ≤ kLockCnt → get2 (dp t) 0 k = size_max) ∧
  (∀ r, 1 ≤ r ≤ kBlocks → get2 (dp t) r 0 = size_max) ∧
  (∀ k, 0 ≤ k ≤ kLockCnt → get2 (split t) 0 k = 0) ∧
  (∀ r k, 1 ≤ r < R → 1 ≤ k ≤ kLockCnt → cell_rec t r k) ∧
  (∀ r k, R ≤ r ≤ kBlocks → 1 ≤ k ≤ kLockCnt → untouched t r k).

Lemma cell_rec_same t t' r k r0 k0 :
  cell_rec t r k → 1 ≤ r → 1 ≤ k → same_but r0 k0 t t' →
  (r0, k0) ≠ (r, k) → r ≤ r0 → cell_rec t' r k.
Proof.
  intros Hrec Hr Hk Hsame Hne Hle. unfold cell_rec in *.
  rewrite Hsame by (done || lia || congruence). rewrite Hrec. apply cell_value_ext.
  intros x Hx. assert (cell t' x (k - 1) = cell t x (k - 1)) as Hc; [|by injection Hc].
  apply Hsame; [lia|lia|]. intros [= ? ?]. lia.
Qed.

(** Row [r] when the columns below [K] are final. *)
Definition row_loop (t : tables) (r K : Z) (t' : tables) : Prop :=
  dims t' ∧ (∀ r' k', 0 ≤ r' → 0 ≤ k' → r' ≠ r ∨ k' = 0 → cell t' r' k' = cell t r' k') ∧
  (∀ k', 1 ≤ k' < K → cell_rec t' r k') ∧ (∀ k', K ≤ k' ≤ kLockCnt → untouched t' r k').

Lemma row_loop_ok t r : 1 ≤ r ≤ kBlocks → rows_done r t →
  row_loop t r (kLockCnt + 1) (for_range 1 (kLockCnt + 1) (λ k, for_range 0 r (relax P C r k)) t).
Proof.
  intros Hr Hrows.
  apply (for_range_inv (row_loop t r)); [lia| |].
  - split_and!; try done; try apply Hrows; [intros; lia|].
    intros k' Hk'. destruct Hrows as (_ & _ & _ & _ & _ & _ & Hun). apply Hun; lia.
  - intros K t' HK (Hd & Hsame & Hrec & Hun).
    destruct (relax_loop t' r K Hd ltac:(lia) ltac:(lia)) as (Hd' & Hsame' & Hcell).
    { apply Hun. lia. }
    split_and!; [done..| | |].
    + intros r' k' Hr' Hk' Hor. rewrite Hsame' by (done || intros [= ? ?]; lia). by apply Hsame.
    + intros k' Hk'. destruct (decide (k' = K)) as [->|].
      * unfold cell_rec. rewrite Hcell. apply cell_value_ext. intros x Hx.
        assert (cell (for_range 0 r (relax P C r K) t') x (K - 1) = cell t' x (K - 1)) as Hc;
          [|by injection Hc].
        apply Hsame'; [lia|lia|]. intros [= ? ?]. lia.
      * eapply cell_rec_same; [apply Hrec; lia|lia|lia|done|congruence|lia].
    + intros k' Hk'. unfold untouched. rewrite Hsame' by (lia || intros [= ?]; lia).
      apply Hun. lia.
Qed.

Lemma row_step t r :
  1 ≤ r ≤ kBlocks → rows_done r t →
  rows_done (r + 1)
    (for_range 1 (kLockCnt + 1) (λ k, for_range 0 r (relax P C r k)) t).
Proof.
  intros Hr Hrows. destruct (row_loop_ok t r Hr Hrows) as (Hd & Hsame & Hrec & _).
  destruct Hrows as (_ & H00 & H0k & Hr0 & Hs0 & Hdone & Hun).
  set (t' := for_range 1 _ _ t) in *.
  assert (∀ r' k', 0 ≤ r' → 0 ≤ k' → r' ≠ r ∨ k' = 0 →
    get2 (dp t') r' k' = get2 (dp t) r' k' ∧ get2 (split t') r' k' = get2 (split t) r' k') as Hg.
  { intros r' k' ? ? ?. specialize (Hsame r' k'). unfold cell in Hsame.
    split; [apply (f_equal fst) in Hsame|apply (f_equal snd) in Hsame]; done. }
  split_and!; [done|..].
  - destruct (Hg 0 0) as [-> _]; [lia..|done].
  - intros k Hk. destruct (Hg 0 k) as [-> _]; [lia..|auto].
  - intros r' Hr'. destruct (Hg r' 0) as [-> _]; [lia..|auto].
  - intros k Hk. destruct (Hg 0 k) as [_ ->]; [lia..|auto].
  - intros r' k Hr' Hk. destruct (decide (r' = r)) as [->|]; [apply Hrec; lia|].
    unfold cell_rec. rewrite Hsame by lia. rewrite (Hdone r' k) by lia.
    apply cell_value_ext. intros x Hx. destruct (Hg x (k - 1)) as [-> _]; [lia..|done].
  - intros r' k Hr' Hk. unfold untouched. rewrite Hsame by lia. apply Hun; lia.
Qed.

Lemma dp_tables_done : rows_done (kBlocks + 1) (dp_tables P C).
Proof.
  unfold dp_tables. apply for_range_inv; [lia| |].
  - assert (∀ r k, 0 ≤ r ≤ kBlocks → 0 ≤ k ≤ kLockCnt →
      get2 (set2 (table_make (kBlocks + 1) (kLockCnt + 1) size_max) 0 0 0) r k =
      if ((0 =? r) && (0 =? k))%bool then 0 else size_max) as Hget.
    { intros r k Hr Hk. rewrite (get2_set2 _ (kBlocks + 1) (kLockCnt + 1));
        [|by apply table_make_dim; lia|lia..]. by rewrite get2_make by lia. }
    unfold rows_done; simpl. split_and!.
    + split; [apply set2_dim; [apply table_make_dim; lia|lia]|apply table_make_dim; lia].
    + by rewrite Hget by lia.
    + intros k Hk. rewrite Hget by lia. by destruct (Z.eqb_spec 0 k); [lia|].
    + intros r Hr. rewrite Hget by lia. by destruct (Z.eqb_spec 0 r); [lia|].
    + intros k Hk. by apply get2_make; lia.
    + intros. lia.
    + intros r k Hr Hk. unfold untouched, cell; simpl. rewrite Hget, get2_make by lia.
      by destruct (Z.eqb_spec 0 r); [lia|].
  - intros r t Hr Ht. apply row_step; [lia|done].
Qed.

(** The split of a cell is an earlier, reachable row; it stays [0] otherwise. *)
Lemma cell_value_split row r :
  0 ≤ r → let vs := cell_value row r in
  (vs = (size_max, 0)) ∨
  (0 ≤ vs.2 < r ∧ row vs.2 ≠ size_max ∧
   vs.1 = row vs.2 +₆₄ segment_weight P vs.2 r *₆₄ segment_weight P vs.2 r +₆₄ cut_penalty C vs.2).
Proof.
  intros Hr. unfold cell_value.
  apply (for_range_inv (λ b vs, vs = (size_max, 0) ∨ (0 ≤ vs.2 < b ∧ row vs.2 ≠ size_max ∧
    vs.1 = row vs.2 +₆₄ segment_weight P vs.2 r *₆₄ segment_weight P vs.2 r
           +₆₄ cut_penalty C vs.2))); [lia|by left|].
  intros b vs Hb Hvs. unfold cell_step.
  destruct (Z.eqb_spec (row b) size_max); [destruct Hvs; [by left|right; intuition lia]|].
  destruct (_ <? vs.1); [right; simpl; intuition lia|destruct Hvs; [by left|right; intuition lia]].
Qed.

(** ** The walk back *)

Lemma split_range t r k :
  rows_done (kBlocks + 1) t → 0 ≤ r ≤ kBlocks → 1 ≤ k ≤ kLockCnt →
  0 ≤ get2 (split t) r k ≤ r.
Proof.
  intros (_ & _ & _ & _ & Hs0 & Hrec & _) Hr Hk.
  destruct (decide (r = 0)) as [->|]; [rewrite Hs0; lia|].
  specialize (Hrec r k ltac:(lia) Hk). unfold cell_rec, cell in Hrec.
  apply (f_equal snd) in Hrec; simpl in Hrec. rewrite Hrec.
  destruct (cell_value_split (λ x, get2 (dp t) x (k - 1)) r) as [->|Hv]; simpl; lia.
Qed.

(** After [i] iterations the upper [i] cuts are fixed and non-decreasing. *)
Definition back_inv (t : tables) (i : Z) (st : Z * list Z) : Prop :=
  let locks := kLockCnt - i in
  len st.2 = kLockCnt + 1 ∧ 0 ≤ st.1 ≤ kBlocks ∧ st.2.[locks] = st.1 ∧ st.2.[kLockCnt] = kBlocks ∧
  (∀ j, locks ≤ j < kLockCnt → st.2.[j] = get2 (split t) (st.2.[j + 1]) (j + 1)) ∧
  (∀ j, locks ≤ j ≤ kLockCnt → 0 ≤ st.2.[j] ≤ kBlocks).

Lemma backtrack_body_inv t i st :
  rows_done (kBlocks + 1) t → 0 ≤ i < kLockCnt →
  back_inv t i st → back_inv t (i + 1) (backtrack_body (split t) i st).
Proof.
  destruct st as [cur cuts]. unfold back_inv, backtrack_body; simpl.
  intros Ht Hi (Hlen & Hcur & Htop & HK & Hch & Hrg).
  set (s := get2 (split t) cur (kLockCnt - i)).
  assert (0 ≤ s ≤ cur) by (apply split_range; [done|lia|lia]).
  replace (kLockCnt - (i + 1)) with (kLockCnt - i - 1) by lia.
  assert (∀ j, 0 ≤ j → (cuts.[kLockCnt - i - 1 <- s]).[j] =
    if Z.eqb (kLockCnt - i - 1) j then s else cuts.[j]) as Hget by (intros; apply get_set; lia).
  split_and!.
  - by rewrite len_set.
  - lia.
  - lia.
  - rewrite Hget by lia. by rewrite Z.eqb_refl.
  - rewrite Hget by lia. by zbool.
  - intros j Hj. rewrite !Hget by lia.
    destruct (Z.eqb_spec (kLockCnt - i - 1) j) as [<-|].
    + replace (kLockCnt - i - 1 + 1) with (kLockCnt - i) by lia.
      destruct (Z.eqb_spec (kLockCnt - i - 1) (kLockCnt - i)); [lia|]. by rewrite Htop.
    + destruct (Z.eqb_spec (kLockCnt - i - 1) (j + 1)); [lia|]. apply Hch. lia.
  - intros j Hj. rewrite Hget by lia. destruct (Z.eqb_spec (kLockCnt - i - 1) j); [lia|].
    apply Hrg. lia.
Qed.

(** The cuts chain through [split] from [kBlocks] downwards. *)
Lemma OptimizePartitions_chain :
  let t := dp_tables P C in let cuts := OptimizePartitions P C in
  len cuts = kLockCnt + 1 ∧ cuts.[kLockCnt] = kBlocks ∧
  (∀ j, 0 ≤ j < kLockCnt → cuts.[j] = get2 (split t) (cuts.[j + 1]) (j + 1)) ∧
  (∀ j, 0 ≤ j ≤ kLockCnt → 0 ≤ cuts.[j] ≤ kBlocks).
Proof.
  unfold OptimizePartitions.
  set (init := (replicate _ 0).[kLockCnt <- kBlocks]).
  assert (len (replicate (Z.to_nat (kLockCnt + 1)) 0) = kLockCnt + 1) as Hl
    by (rewrite len_replicate; lia).
  assert (back_inv (dp_tables P C) kLockCnt
    (for_range 0 kLockCnt (backtrack_body (split (dp_tables P C))) (kBlocks, init)))
    as (H1 & H2 & H3 & H4 & H5 & H6).
  { apply for_range_inv; [lia| |].
    - unfold back_inv; simpl. rewrite Z.sub_0_r.
      assert (init.[kLockCnt] = kBlocks) by (apply get_set_eq; lia).
      split_and!; try done; try lia.
      + unfold init. by rewrite len_set.
      + intros j Hj. replace j with kLockCnt by lia. lia.
    - intros. apply backtrack_body_inv; [apply dp_tables_done|lia|done]. }
  rewrite Z.sub_diag in *. by split_and!.
Qed.

(** Whatever the statistics are, even after an overflow, the result is a
    non-decreasing vector of cuts from [0] to [kBlocks]. *)
Lemma OptimizePartitions_weak_lemma : cuts_weak kLockCnt kBlocks (OptimizePartitions P C).
Proof.
  destruct OptimizePartitions_chain as (Hlen & HK & Hch & Hrg).
  pose proof dp_tables_done as Ht.
  split_and!; [done| |done|].
  - (* the walk ends at row 0 *)
    destruct Ht as (Hd & H00 & H0k & Hr0 & Hs0 & Hrec & _).
    set (t := dp_tables P C) in *. set (cuts := OptimizePartitions P C) in *.
    (* either some cut is 0, and the lower ones too, or every row is reachable *)
    assert (∀ n : nat, Z.of_nat n < kLockCnt →
      cuts.[kLockCnt - Z.of_nat n - 1] = 0 ∨
      get2 (dp t) (cuts.[kLockCnt - Z.of_nat n - 1]) (kLockCnt - Z.of_nat n - 1) ≠ size_max) as Hall.
    { induction n as [|n IH]; intros Hn.
      - rewrite (Hch (kLockCnt - Z.of_nat 0 - 1)) by lia.
        replace (kLockCnt - Z.of_nat 0 - 1 + 1) with kLockCnt by lia. rewrite HK.
        specialize (Hrec kBlocks kLockCnt ltac:(lia) ltac:(lia)).
        unfold cell_rec, cell in Hrec. apply (f_equal snd) in Hrec; simpl in Hrec. rewrite Hrec.
        replace (kLockCnt - Z.of_nat 0 - 1) with (kLockCnt - 1) by lia.
        destruct (cell_value_split (λ x, get2 (dp t) x (kLockCnt - 1)) kBlocks ltac:(lia))
          as [->|(? & ? & ?)]; [by left|by right].
      - replace (kLockCnt - Z.of_nat (S n) - 1) with (kLockCnt - Z.of_nat n - 1 - 1) by lia.
        set (j := kLockCnt - Z.of_nat n - 1) in *.
        rewrite (Hch (j - 1)) by lia. replace (j - 1 + 1) with j by lia.
        destruct (IH ltac:(lia)) as [H0|Hne].
        + left. rewrite H0. apply Hs0. lia.
        + destruct (decide (cuts.[j] = 0)) as [->|Hnz]; [left; apply Hs0; lia|].
          pose proof (Hrg j ltac:(lia)) as Hj.
          assert (cell_rec t (cuts.[j]) j) as Hc by (apply Hrec; lia).
          unfold cell_rec, cell in Hc. apply (f_equal snd) in Hc; simpl in Hc. rewrite Hc.
          destruct (cell_value_split (λ x, get2 (dp t) x (j - 1)) (cuts.[j]) (proj1 Hj))
            as [->|(? & ? & ?)]; [by left|by right]. }
    destruct (Hall (Z.to_nat (kLockCnt - 1)) ltac:(lia)) as [H0|Hne];
      replace (kLockCnt - Z.of_nat (Z.to_nat (kLockCnt - 1)) - 1) with 0 in * by lia; [done|].
    destruct (decide (cuts.[0] = 0)); [done|]. destruct Hne. apply Hr0.
    specialize (Hrg 0 ltac:(lia)). lia.
  - intros i Hi. rewrite Hch by lia. apply split_range; [done| |lia]. apply Hrg. lia.
Qed.

End Recurrence.

(** ** Optimality when no cost overflows *)

Section Optimal.
  Variables (P C : list Z).

(** The statistics fit: prefix sums of non-negative counts, non-negative
    crossings, and the largest possible cost is below the [inf] marker. *)
Definition within_budget : Prop :=
  P.[0] = 0 ∧ (∀ i j, 0 ≤ i ≤ j → j ≤ kBlocks → P.[i] ≤ P.[j]) ∧
  len C = kBlocks ∧ Forall (λ x, 0 ≤ x) C ∧
  P.[kBlocks] * P.[kBlocks] + kBoundaryCrossingPenalty * zsum C < size_max.

(** The cost of a segment in unbounded arithmetic. *)
Definition seg_cost (l r : Z) : Z :=
  (P.[r] - P.[l]) * (P.[r] - P.[l]) +
  (if l =? 0 then 0 else kBoundaryCrossingPenalty * C.[l]).

(** A partition of the first [r] blocks into [k] non-empty segments, and its cost. *)
Inductive chain : Z → Z → Z → Prop :=
  | chain_start : chain 0 0 0
  | chain_segment k l r c : chain k l c → 0 ≤ l < r → chain (k + 1) r (c + seg_cost l r).

(** The tight upper bound on the cost of a partition of the first [r] blocks. *)
Definition cap (r : Z) : Z :=
  P.[r] * P.[r] + kBoundaryCrossingPenalty * zsum (take (Z.to_nat r) C).

Context (Hbud : within_budget).

Lemma P_nonneg r : 0 ≤ r ≤ kBlocks → 0 ≤ P.[r].
Proof. destruct Hbud as (H0 & Hm & _). intros. rewrite <-H0. apply Hm; lia. Qed.

Lemma C_nonneg l : 0 ≤ l < kBlocks → 0 ≤ C.[l].
Proof. destruct Hbud as (_ & _ & Hl & HC & _). intros. apply (get_Forall (λ x, 0 ≤ x)); [done|lia]. Qed.

Lemma cap_le r : 0 ≤ r ≤ kBlocks → cap r < size_max.
Proof.
  intros Hr. destruct Hbud as (H0 & Hm & Hl & HC & Hb). unfold cap.
  assert (zsum (take (Z.to_nat r) C) ≤ zsum C).
  { rewrite <-(take_drop (Z.to_nat r) C) at 2. rewrite zsum_app.
    assert (0 ≤ zsum (drop (Z.to_nat r) C)); [|lia]. by apply zsum_nonneg, Forall_drop. }
  pose proof (P_nonneg r Hr). assert (P.[r] ≤ P.[kBlocks]) by (apply Hm; lia).
  unfold kBoundaryCrossingPenalty in *. nia.
Qed.

Lemma seg_cost_cap l r c :
  0 ≤ l < r → r ≤ kBlocks → 0 ≤ c ≤ cap l → 0 ≤ seg_cost l r ∧ c + seg_cost l r ≤ cap r.
Proof.
  intros Hl Hr Hc. destruct Hbud as (H0 & Hm & Hlen & HC & _). unfold cap, seg_cost in *.
  pose proof (P_nonneg l ltac:(lia)). assert (P.[l] ≤ P.[r]) by (apply Hm; lia).
  pose proof (C_nonneg l ltac:(lia)).
  assert (zsum (take (Z.to_nat (l + 1)) C) ≤ zsum (take (Z.to_nat r) C))
    by (apply zsum_take_mono; [done|lia|lia]).
  rewrite zsum_take_S in * by lia. unfold kBoundaryCrossingPenalty in *.
  destruct (l =? 0); split; nia.
Qed.

Lemma chain_cap k r c : chain k r c → r ≤ kBlocks → 0 ≤ r ∧ 0 ≤ k ∧ 0 ≤ c ≤ cap r.
Proof.
  induction 1 as [|k l r c Hch IH Hl]; intros Hr.
  - unfold cap. destruct Hbud as (-> & _). simpl. lia.
  - destruct IH as (? & ? & Hc); [lia|]. destruct (seg_cost_cap l r c); [lia|lia|lia|]. lia.
Qed.

(** The 64-bit operations of [relax] and [PartitionCost] are exact. *)
Lemma seg_exact l r c :
  0 ≤ l < r → r ≤ kBlocks → 0 ≤ c ≤ cap l →
  segment_weight P l r *₆₄ segment_weight P l r +₆₄ cut_penalty C l = seg_cost l r ∧
  c +₆₄ segment_weight P l r *₆₄ segment_weight P l r +₆₄ cut_penalty C l = c + seg_cost l r ∧
  c +₆₄ seg_cost l r = c + seg_cost l r.
Proof.
  intros Hl Hr Hc. destruct (seg_cost_cap l r c Hl Hr Hc) as [Hs Hcap].
  pose proof (cap_le r ltac:(lia)) as Hmax.
  destruct Hbud as (H0 & Hm & _). pose proof (P_nonneg l ltac:(lia)).
  assert (P.[l] ≤ P.[r]) by (apply Hm; lia). pose proof (C_nonneg l ltac:(lia)).
  unfold size_max, cut_penalty, segment_weight, seg_cost in *.
  set (w := P.[r] - P.[l]) in *. assert (0 ≤ w) by lia.
  set (q := if l =? 0 then 0 else kBoundaryCrossingPenalty * C.[l]) in *.
  assert (0 ≤ q) by (unfold q, kBoundaryCrossingPenalty; destruct (l =? 0); nia).
  assert (P.[r] -₆₄ P.[l] = w) as -> by (apply u64_sub_small; unfold w in *; nia).
  rewrite (u64_mul_small w w) by nia.
  assert ((if l =? 0 then 0 else kBoundaryCrossingPenalty *₆₄ C.[l]) = q) as ->.
  { unfold q in *. destruct (l =? 0); [done|]. apply u64_mul_small. unfold kBoundaryCrossingPenalty in *. nia. }
  assert (0 ≤ w * w) by nia. set (ww := w * w) in *.
  rewrite (u64_add_small ww q), (u64_add_small c ww) by lia.
  rewrite (u64_add_small (c + ww) q), (u64_add_small c (ww + q)) by lia. lia.
Qed.

(** [c] is the least cost of a partition of the first [r] blocks into [k] segments. *)
Definition least (k r c : Z) : Prop := chain k r c ∧ ∀ c', chain k r c' → c ≤ c'.

(** What a final cell says: unreachable, or the least cost. *)
Definition cell_least (k r v : Z) : Prop :=
  (v = size_max ∧ ∀ c, ¬ chain k r c) ∨ (v ≠ size_max ∧ least k r v).

Lemma chain_inv k r c :
  chain (k + 1) r c → 0 ≤ k → ∃ l c', chain k l c' ∧ 0 ≤ l < r ∧ c = c' + seg_cost l r.
Proof.
  intros Hch Hk. inversion Hch as [Hk0|k' l r' c' Hc Hl Heq]; [lia|].
  replace k with k' by lia. eauto.
Qed.

(** The loop over the candidates of a cell: there is none, or [vs] is the best one. *)
Definition best_of (row : Z → Z) (r b : Z) (vs : Z * Z) : Prop :=
  (vs = (size_max, 0) ∧ ∀ l, 0 ≤ l < b → row l = size_max) ∨
  (0 ≤ vs.2 < b ∧ row vs.2 ≠ size_max ∧ vs.1 = row vs.2 + seg_cost vs.2 r ∧
   ∀ l, 0 ≤ l < b → row l ≠ size_max → vs.1 ≤ row l + seg_cost l r).

Lemma cell_value_best row r :
  1 ≤ r ≤ kBlocks → (∀ l, 0 ≤ l < r → row l ≠ size_max → 0 ≤ row l ≤ cap l) → best_of row r r (cell_value P C row r).
Proof.
  intros Hr Hcap.
  unfold cell_value.
  apply (for_range_inv (best_of row r)); [lia| |].
  - left. split; [done|intros; lia].
  - intros b vs Hb Hvs. unfold cell_step.
    destruct (Z.eqb_spec (row b) size_max) as [Hinf|Hfin].
    + destruct Hvs as [[-> Hall]|(? & ? & ? & Hall)]; [left|right].
      * split; [done|]. intros l Hl. destruct (decide (l = b)) as [->|]; [done|apply Hall; lia].
      * split_and!; [lia|lia|done|done|]. intros l Hl Hne.
        destruct (decide (l = b)) as [->|]; [done|apply Hall; [lia|done]].
    + specialize (Hcap b ltac:(lia) Hfin).
      destruct (seg_exact b r (row b) ltac:(lia) ltac:(lia) Hcap) as (_ & -> & _).
      destruct (seg_cost_cap b r (row b) ltac:(lia) ltac:(lia) Hcap) as [? Hle].
      pose proof (cap_le r ltac:(lia)).
      destruct (Z.ltb_spec (row b + seg_cost b r) vs.1) as [Hlt|Hge]; right; simpl.
      * split_and!; [lia|lia|done|done|]. intros l Hl Hne.
        destruct (decide (l = b)) as [->|]; [lia|].
        destruct Hvs as [[-> Hall]|(? & ? & ? & Hall)].
        -- destruct Hne. apply Hall. lia.
        -- specialize (Hall l ltac:(lia) Hne). lia.
      * destruct Hvs as [[-> Hall]|(? & ? & ? & Hall)]; [simpl in *; lia|].
        split_and!; [lia|lia|done|done|]. intros l Hl Hne.
        destruct (decide (l = b)) as [->|]; [lia|apply Hall; [lia|done]].
Qed.

(** The minimum over the candidates of a cell. *)
Lemma cell_value_least k row r :
  0 ≤ k → 1 ≤ r ≤ kBlocks → (∀ l, 0 ≤ l < r → cell_least k l (row l)) →
  let vs := cell_value P C row r in
  cell_least (k + 1) r vs.1 ∧
  (vs.1 ≠ size_max → 0 ≤ vs.2 < r ∧ row vs.2 ≠ size_max ∧ vs.1 = row vs.2 + seg_cost vs.2 r).
Proof.
  intros Hk Hr Hrow.
  assert (∀ l, 0 ≤ l < r → row l ≠ size_max → 0 ≤ row l ≤ cap l) as Hcap.
  { intros l Hl Hne. destruct (Hrow l Hl) as [[? _]|[_ [Hch _]]]; [done|].
    destruct (chain_cap k l (row l) Hch) as (_ & _ & ?); [lia|done]. }
  pose proof (cell_value_best row r Hr Hcap) as Hmin. unfold best_of in Hmin.
  simpl in *. set (vs := cell_value P C row r) in *.
  destruct Hmin as [[-> Hall]|(Hrng & Hne & Heq & Hall)]; simpl.
  - split; [|done]. left. split; [done|]. intros c Hch.
    apply chain_inv in Hch as (l & c' & Hch & Hl & ->); [|done].
    destruct (Hrow l Hl) as [[_ Hno]|[Hfin _]]; [by eapply Hno|]. by rewrite Hall in Hfin.
  - destruct (Hrow vs.2 Hrng) as [[? _]|[_ [Hch _]]]; [done|].
    specialize (Hcap vs.2 Hrng Hne).
    destruct (seg_cost_cap vs.2 r (row vs.2) ltac:(lia) ltac:(lia) Hcap).
    pose proof (cap_le r ltac:(lia)).
    split; [|done]. right. split; [lia|]. split.
    + rewrite Heq. by apply chain_segment.
    + intros c Hc. apply chain_inv in Hc as (l & c' & Hc & Hl & ->); [|done].
      destruct (Hrow l Hl) as [[_ Hno]|[Hfin [_ Hle]]]; [by destruct (Hno c')|].
      specialize (Hall l Hl Hfin). specialize (Hle c' Hc). lia.
Qed.

Lemma chain_zero_r k c : chain k 0 c → k = 0 ∧ c = 0.
Proof. inversion 1; [done|lia]. Qed.

Lemma chain_zero_k r c : chain 0 r c → r ≤ kBlocks → r = 0 ∧ c = 0.
Proof.
  intros Hch Hr. inversion Hch as [|k l r' c' Hc Hl]; [done|].
  destruct (chain_cap k l c' Hc); lia.
Qed.

(** Every cell of the final table is the least cost. *)
Lemma dp_least r k :
  0 ≤ r ≤ kBlocks → 0 ≤ k ≤ kLockCnt → cell_least k r (get2 (dp (dp_tables P C)) r k).
Proof.
  destruct (dp_tables_done P C) as (_ & H00 & H0k & Hr0 & _ & Hrec & _).
  set (t := dp_tables P C) in *. intros Hr.
  assert (∀ n : nat, ∀ r k, 0 ≤ r ≤ Z.of_nat n → r ≤ kBlocks → 0 ≤ k ≤ kLockCnt →
    cell_least k r (get2 (dp t) r k)) as Hall; [|intros; apply (Hall (Z.to_nat r)); lia].
  clear r k Hr. induction n as [|n IH]; intros r k Hrn Hr Hk.
  - replace r with 0 by lia. destruct (decide (k = 0)) as [->|].
    + rewrite H00. right. split; [done|]. split; [constructor|].
      intros c Hc. apply chain_zero_r in Hc. lia.
    + rewrite H0k by lia. left. split; [done|]. intros c Hc. apply chain_zero_r in Hc. lia.
  - destruct (decide (r = 0)) as [->|]; [apply IH; lia|].
    destruct (decide (k = 0)) as [->|].
    + rewrite Hr0 by lia. left. split; [done|]. intros c Hc. apply chain_zero_k in Hc; lia.
    + assert (cell_rec P C t r k) as Hc by (apply Hrec; lia).
      unfold cell_rec, cell in Hc. apply (f_equal fst) in Hc; simpl in Hc. rewrite Hc.
      destruct (cell_value_least (k - 1) (λ x, get2 (dp t) x (k - 1)) r) as [Hl _]; [lia|lia| |].
      * intros l Hl. apply IH; lia.
      * by replace (k - 1 + 1) with k in Hl by lia.
Qed.

(** ... and its split is the last cut of a cheapest partition. *)
Lemma split_least r k :
  1 ≤ r ≤ kBlocks → 1 ≤ k ≤ kLockCnt →
  let t := dp_tables P C in let s := get2 (split t) r k in
  get2 (dp t) r k ≠ size_max →
  0 ≤ s < r ∧ get2 (dp t) s (k - 1) ≠ size_max ∧
  get2 (dp t) r k = get2 (dp t) s (k - 1) + seg_cost s r.
Proof.
  intros Hr Hk t s Hne. destruct (dp_tables_done P C) as (_ & _ & _ & _ & _ & Hrec & _).
  assert (cell_rec P C t r k) as Hc by (apply Hrec; lia).
  unfold cell_rec, cell in Hc. subst s.
  pose proof (f_equal fst Hc) as Hd. pose proof (f_equal snd Hc) as Hs. simpl in Hd, Hs.
  rewrite Hs, Hd. rewrite Hd in Hne.
  destruct (cell_value_least (k - 1) (λ x, get2 (dp t) x (k - 1)) r) as [_ H]; [lia|lia| |auto].
  intros l Hl. apply dp_least; lia.
Qed.

(** ** From tables to cuts *)

(** A partition into as many non-empty segments as there are locks exists. *)
Lemma chain_units k : 0 ≤ k → ∃ c, chain k k c.
Proof.
  intros Hk. replace k with (Z.of_nat (Z.to_nat k)) by lia.
  induction (Z.to_nat k) as [|n [c IH]]; [exists 0; constructor|].
  exists (c + seg_cost (Z.of_nat n) (Z.of_nat n + 1)).
  replace (Z.of_nat (S n)) with (Z.of_nat n + 1) by lia. apply chain_segment; [done|lia].
Qed.

Lemma dp_reachable : kLockCnt ≤ kBlocks → get2 (dp (dp_tables P C)) kBlocks kLockCnt ≠ size_max.
Proof.
  intros Hle. destruct (dp_least kBlocks kLockCnt) as [[_ Hno]|[H _]]; [lia|lia| |done].
  destruct (chain_units (kLockCnt - 1)) as [c Hc]; [lia|].
  destruct (Hno (c + seg_cost (kLockCnt - 1) kBlocks)).
  replace kLockCnt with (kLockCnt - 1 + 1) at 1 by lia. apply chain_segment; [done|lia].
Qed.

(** All the rows on the way back are reachable, so the cuts are strict. *)
Lemma OptimizePartitions_rows j :
  kLockCnt ≤ kBlocks → 0 ≤ j ≤ kLockCnt →
  let cuts := OptimizePartitions P C in
  get2 (dp (dp_tables P C)) (cuts.[j]) j ≠ size_max ∧ (0 < j → 1 ≤ cuts.[j] ≤ kBlocks).
Proof.
  intros Hle Hj cuts. destruct (OptimizePartitions_chain P C) as (Hlen & HK & Hch & Hrg).
  fold cuts in Hlen, HK, Hch, Hrg.
  replace j with (kLockCnt - Z.of_nat (Z.to_nat (kLockCnt - j))) in * by lia.
  set (n := Z.to_nat (kLockCnt - j)) in *. clearbody n.
  assert (Z.of_nat n ≤ kLockCnt) as Hn by lia. clear Hj.
  induction n as [|n IH].
  - rewrite Z.sub_0_r, HK. split; [by apply dp_reachable|lia].
  - destruct IH as [Hne Hpos]; [lia|].
    set (j' := kLockCnt - Z.of_nat n) in *.
    replace (kLockCnt - Z.of_nat (S n)) with (j' - 1) by lia.
    assert (1 ≤ cuts.[j'] ≤ kBlocks) as Hr by (apply Hpos; lia).
    destruct (split_least (cuts.[j']) j') as (Hs & Hd & _); [lia|lia|done|].
    assert (cuts.[j' - 1] = get2 (split (dp_tables P C)) (cuts.[j']) j') as Heq.
    { rewrite (Hch (j' - 1)) by lia. by replace (j' - 1 + 1) with j' by lia. }
    rewrite Heq. split; [done|]. intros Hpos'.
    destruct (decide (get2 (split (dp_tables P C)) (cuts.[j']) j' = 0)) as [H0|]; [|lia].
    rewrite H0 in Hd. destruct (dp_tables_done P C) as (_ & _ & H0k & _).
    destruct Hd. apply H0k. lia.
Qed.

Lemma OptimizePartitions_valid_lemma :
  kLockCnt ≤ kBlocks → cuts_valid kLockCnt kBlocks (OptimizePartitions P C).
Proof.
  intros Hle. destruct (OptimizePartitions_weak_lemma P C) as (Hlen & H0 & HK & _).
  destruct (OptimizePartitions_chain P C) as (_ & _ & Hch & _).
  split_and!; [done..|]. intros i Hi. rewrite (Hch i) by lia.
  destruct (OptimizePartitions_rows (i + 1) Hle ltac:(lia)) as [Hne Hr].
  destruct (split_least ((OptimizePartitions P C).[i + 1]) (i + 1)); [lia|lia|done|lia].
Qed.

(** [PartitionCost] of valid cuts is the cost of the partition they describe. *)
Lemma PartitionCost_chain cuts :
  cuts_valid kLockCnt kBlocks cuts → chain kLockCnt kBlocks (PartitionCost cuts P C).
Proof.
  intros Hv. pose proof Hv as (Hlen & H0 & HK & Hs). unfold PartitionCost.
  rewrite <-HK at 1.
  apply (for_range_inv (λ i total, chain i (cuts.[i]) total)); [lia|rewrite H0; constructor|].
  intros i total Hi Hch.
  assert (0 ≤ cuts.[i]).
  { rewrite <-H0. apply (cuts_weak_mono kLockCnt kBlocks); [by apply cuts_valid_weak|lia|lia]. }
  assert (cuts.[i + 1] ≤ kBlocks).
  { rewrite <-HK. apply (cuts_weak_mono kLockCnt kBlocks); [by apply cuts_valid_weak|lia|lia]. }
  specialize (Hs i Hi).
  destruct (chain_cap i (cuts.[i]) total Hch) as (_ & _ & Hcap); [lia|].
  destruct (seg_exact (cuts.[i]) (cuts.[i + 1]) total) as (-> & _ & ->); [lia|lia|done|].
  by apply chain_segment.
Qed.

(** The cost of the cuts found is the entry of the table. *)
Lemma PartitionCost_optimize :
  kLockCnt ≤ kBlocks →
  PartitionCost (OptimizePartitions P C) P C = get2 (dp (dp_tables P C)) kBlocks kLockCnt.
Proof.
  intros Hle. destruct (OptimizePartitions_chain P C) as (_ & HK & Hch & _).
  destruct (OptimizePartitions_weak_lemma P C) as (_ & H0 & _).
  destruct (dp_tables_done P C) as (_ & H00 & _).
  set (cuts := OptimizePartitions P C) in *. unfold PartitionCost. rewrite <-HK at 1.
  apply (for_range_inv (λ i total, total = get2 (dp (dp_tables P C)) (cuts.[i]) i));
    [lia|by rewrite H0|].
  intros i total Hi ->.
  destruct (OptimizePartitions_rows (i + 1) Hle ltac:(lia)) as [Hne Hr]. fold cuts in Hne, Hr.
  destruct (split_least (cuts.[i + 1]) (i + 1)) as (Hs & Hd & Heq); [lia|lia|done|].
  rewrite <-(Hch i Hi) in *. replace (i + 1 - 1) with i in * by lia. rewrite Heq.
  destruct (dp_least (cuts.[i]) i) as [[? _]|[_ [Hc _]]]; [lia|lia|done|].
  destruct (chain_cap i (cuts.[i]) _ Hc) as (_ & _ & Hcap); [lia|].
  by destruct (seg_exact (cuts.[i]) (cuts.[i + 1]) _ Hs ltac:(lia) Hcap) as (-> & _ & ->).
Qed.

Lemma OptimizePartitions_least cuts :
  kLockCnt ≤ kBlocks → cuts_valid kLockCnt kBlocks cuts →
  PartitionCost (OptimizePartitions P C) P C ≤ PartitionCost cuts P C.
Proof.
  intros Hle Hv. rewrite PartitionCost_optimize by done.
  destruct (dp_least kBlocks kLockCnt) as [[Hinf _]|[_ [_ Hmin]]]; [lia|lia| |].
  - by destruct (dp_reachable Hle).
  - by apply Hmin, PartitionCost_chain.
Qed.

End Optimal.

(** ** Prefix sums *)

Lemma prefix_sums_spec stats :
  len stats = kBlocks → Forall (λ x, 0 ≤ x) stats → zsum stats < modulus64 →
  len (prefix_sums stats) = kBlocks + 1 ∧
  ∀ i, 0 ≤ i ≤ kBlocks → (prefix_sums stats).[i] = zsum (take (Z.to_nat i) stats).
Proof.
  intros Hlen Hpos Hsum. unfold prefix_sums.
  assert (len (replicate (Z.to_nat (kBlocks + 1)) 0) = kBlocks + 1) as Hrep
    by (rewrite len_replicate; lia).
  assert (∀ i, 0 ≤ i ≤ kBlocks → 0 ≤ zsum (take (Z.to_nat i) stats) < modulus64) as Hb.
  { intros i Hi. split; [by apply zsum_nonneg, Forall_take|].
    pose proof (zsum_take_mono stats i kBlocks Hpos ltac:(lia) ltac:(lia)) as Hle.
    rewrite (take_ge stats (Z.to_nat kBlocks)) in Hle by (unfold len in *; lia). lia. }
  set (f := λ i ps, _).
  assert (let ps := for_range 0 kBlocks f (replicate (Z.to_nat (kBlocks + 1)) 0) in
    len ps = kBlocks + 1 ∧
    ∀ j, 0 ≤ j ≤ kBlocks → ps.[j] = zsum (take (Z.to_nat j) stats)) as H; [|exact H].
  apply (for_range_inv (λ i ps, len ps = kBlocks + 1 ∧
    ∀ j, 0 ≤ j ≤ i → ps.[j] = zsum (take (Z.to_nat j) stats))); [lia| |].
  - split; [done|]. intros j Hj. replace j with 0 by lia. by rewrite get_replicate by lia.
  - intros i ps Hi (Hl & Hj). split; [unfold f; by rewrite len_set|].
    intros j Hj'. unfold f. rewrite get_set by lia. destruct (Z.eqb_spec (i + 1) j) as [<-|].
    + rewrite Hj by lia. pose proof (Hb (i + 1) ltac:(lia)).
      rewrite zsum_take_S in * by lia. by apply u64_add_small.
    + apply Hj. lia.
Qed.

(** A direct reading of the budget: the square of the number of recorded hits
    plus the penalties of all the crossings stays below [2^64 - 1]. *)
Definition stats_fit (stats crossings : list Z) : Prop :=
  len stats = kBlocks ∧ len crossings = kBlocks ∧
  Forall (λ x, 0 ≤ x) stats ∧ Forall (λ x, 0 ≤ x) crossings ∧
  zsum stats * zsum stats + kBoundaryCrossingPenalty * zsum crossings < size_max.

Lemma stats_fit_budget stats crossings :
  stats_fit stats crossings → within_budget (prefix_sums stats) crossings.
Proof.
  intros (Hl & Hlc & Hs & Hc & Hb).
  pose proof (zsum_nonneg _ Hs). pose proof (zsum_nonneg _ Hc).
  assert (zsum stats < modulus64) by (unfold size_max, kBoundaryCrossingPenalty in *; nia).
  destruct (prefix_sums_spec stats) as [_ Hp]; [done..|].
  split_and!.
  - by rewrite Hp by lia.
  - intros i j Hij Hj. rewrite !Hp by lia. apply zsum_take_mono; [done|lia|lia].
  - done.
  - done.
  - rewrite Hp, take_ge by (unfold len in *; lia). done.
Qed.

End DP.

(** ** Properties *)

(** Whatever the collected statistics are, and even if the 64-bit costs
    wrap around, [OptimizePartitions] returns [kLockCnt + 1] non-decreasing cuts
    that start at block [0] and end at block [kBlocks]. *)
Theorem OptimizePartitions_wellformed kLockCnt kBlocks prefix_sum crossings :
  0 < kLockCnt → 0 < kBlocks →
  cuts_weak kLockCnt kBlocks (OptimizePartitions kLockCnt kBlocks prefix_sum crossings).
Proof. intros. by apply OptimizePartitions_weak_lemma. Qed.

Lemma OptimizePartitions_wellformed_witness :
  0 < 3 ∧ 0 < 4 ∧
  cuts_weak 3 4 (OptimizePartitions 3 4 [0; 2 ^ 63; 0; 2 ^ 63; 5] [0; 2 ^ 62; 2 ^ 40; 7]).
Proof.
  split; [lia|]. split; [lia|]. apply OptimizePartitions_wellformed; lia.
Defined.

(** C4. When the statistics fit (the square of the recorded hits plus all the
    crossing penalties stays below [2^64 - 1]) and there are at least as many
    blocks as locks, the cuts found are strictly increasing, and no other
    partition into [kLockCnt] non-empty segments has a smaller [PartitionCost]. *)
Theorem OptimizePartitions_optimal kLockCnt kBlocks stats crossings cuts :
  0 < kLockCnt ≤ kBlocks → stats_fit kBlocks stats crossings →
  cuts_valid kLockCnt kBlocks cuts →
  let prefix_sum := prefix_sums kBlocks stats in
  let best := OptimizePartitions kLockCnt kBlocks prefix_sum crossings in
  cuts_valid kLockCnt kBlocks best ∧
  PartitionCost kLockCnt best prefix_sum crossings ≤ PartitionCost kLockCnt cuts prefix_sum crossings.
Proof.
  intros HL Hfit Hv. apply stats_fit_budget in Hfit; [|lia..].
  split; [apply OptimizePartitions_valid_lemma|apply OptimizePartitions_least]; done || lia.
Qed.

Example OptimizePartitions_example :
  OptimizePartitions 3 6 (prefix_sums 6 [9; 1; 1; 1; 9; 1]) [0; 0; 0; 0; 0; 0] = [0; 1; 4; 6].
Proof. vm_compute. reflexivity. Qed.

Lemma OptimizePartitions_optimal_witness :
  stats_fit 4 [10; 0; 0; 10] [0; 0; 3; 0] ∧ cuts_valid 2 4 [0; 1; 4] ∧
  cuts_valid 2 4 (OptimizePartitions 2 4 (prefix_sums 4 [10; 0; 0; 10]) [0; 0; 3; 0]).
Proof.
  assert (stats_fit 4 [10; 0; 0; 10] [0; 0; 3; 0]) as Hfit.
  { split_and!; try reflexivity; repeat constructor; lia. }
  assert (cuts_valid 2 4 [0; 1; 4]) as Hv.
  { split_and!; try reflexivity. intros i Hi.
    assert (i = 0 ∨ i = 1) as [-> | ->] by lia; reflexivity. }
  split; [done|]. split; [done|].
  apply (OptimizePartitions_optimal 2 4 [10; 0; 0; 10] [0; 0; 3; 0] [0; 1; 4]); [lia|done..].
Defined.
