(* ===== verification/QueryProtocol.v ===== *)
(** The optimistic query protocol of the adaptive locks.

    [DynamicLock::WriteQuery] and [GeneticLock::WriteQuery] run the same
    protocol: wait while queries are paused, read the partition epoch, read the
    lock segment from the block-to-lock table without any lock, take the locks
    of the segment in ascending order, and re-check the epoch before running the
    query. This file models one thread of that protocol as a step relation with
    one step per shared access, states what a thread that changes the table (a
    publisher) has to promise (class [Publisher]), and proves by a rely/guarantee
    argument that two running queries never share a block.

    Shared accesses are interleaved atomically (sequential consistency); the
    epoch is a 64-bit counter that wraps around, so the theorems are about the
    executions with fewer than [2^64] steps. *)
From stdpp Require Export relations.
From S2P Require Import Prelude BlockMap.

(** The shared fields the protocol uses: [locks_] with the thread that holds
    each mutex, [block_to_lock_], [partition_epoch_] and [pause_queries_]. *)
Record Shared := {
  owner : gmap Z nat;
  table : list Z;
  epoch : Z;
  pause : bool
}.

(** Program counter of a thread inside [WriteQuery]; [left] and [right] are the
    normalised ends, [e] the epoch read, [first] and [last] the lock segment,
    [next] the next mutex to lock and [n] the number of mutexes still held. *)
Inductive qpc :=
  | QPause (left right : Z)
  | QEpoch (left right : Z)
  | QLeft (left right e : Z)
  | QRight (left right e first : Z)
  | QLock (left right e first last next : Z)
  | QCheck (left right e first last : Z)
  | QRetry (left right first n : Z)
  | QCrit (left right first last : Z)
  | QUnlock (left right first n : Z).

(** The interval of mutexes a query thread holds: the first one and how many. *)
Definition q_held (q : qpc) : Z * Z :=
  match q with
  | QPause _ _ | QEpoch _ _ | QLeft _ _ _ | QRight _ _ _ _ => (0, 0)
  | QLock _ _ _ first _ next => (first, next - first)
  | QCheck _ _ _ first last | QCrit _ _ first last => (first, last - first + 1)
  | QRetry _ _ first n | QUnlock _ _ first n => (first, n)
  end.

Definition owns (t : nat) (sh : Shared) (i : Z) : Prop := owner sh !! i = Some t.

(** [t] holds exactly the [n] mutexes from [first]. *)
Definition holds (t : nat) (sh : Shared) (fn : Z * Z) : Prop :=
  ∀ i, owns t sh i ↔ fn.1 ≤ i < fn.1 + fn.2.

(** *** Elementary facts about ownership *)

Lemma owns_inj t u sh i : owns t sh i → owns u sh i → t = u.
Proof. unfold owns. congruence. Qed.

Lemma owns_acquire t u sh i j :
  owns u {| sh with owner := <[i := t]> (owner sh) |} j ↔ (i = j ∧ t = u) ∨ (i ≠ j ∧ owns u sh j).
Proof.
  unfold owns; simpl. rewrite lookup_insert.
  case_decide; intuition congruence.
Qed.

Lemma owns_release u sh i j :
  owns u {| sh with owner := delete i (owner sh) |} j ↔ i ≠ j ∧ owns u sh j.
Proof. unfold owns; simpl. rewrite lookup_delete. case_decide; intuition congruence. Qed.

Lemma holds_acquire t sh first n :
  owner sh !! (first + n) = None → 0 ≤ n → holds t sh (first, n) →
  holds t {| sh with owner := <[first + n := t]> (owner sh) |} (first, n + 1).
Proof.
  intros Hfree Hpos Hh i. rewrite owns_acquire. specialize (Hh i); simpl in *.
  rewrite Hh. split; [intros [[? _]|[? ?]]; lia|].
  intros Hi. destruct (decide (first + n = i)); [by left|right; split; [done|lia]].
Qed.

Lemma holds_release t sh first n :
  0 < n → holds t sh (first, n) →
  holds t {| sh with owner := delete (first + (n - 1)) (owner sh) |} (first, n - 1).
Proof.
  intros Hpos Hh i. rewrite owns_release. specialize (Hh i); simpl in *.
  rewrite Hh. lia.
Qed.

Section Protocol.
  Variables (kLockCnt kBlocks block_size array_size : Z).
  Context {X : Type} (crit : Z → Z → X → X → Prop).

(** One step of thread [t] in [WriteQuery]; [None] is the end of the call.
    [x] is the part of the object the protocol does not depend on (counters,
    statistics), which the critical section may change ([crit]). *)
Inductive qstep (t : nat) : qpc → Shared → X → option qpc → Shared → X → Prop :=
  | q_paused l r sh x :
      pause sh = true → qstep t (QPause l r) sh x (Some (QPause l r)) sh x
  | q_not_paused l r sh x :
      pause sh = false → qstep t (QPause l r) sh x (Some (QEpoch l r)) sh x
  | q_epoch_odd l r sh x :
      Z.odd (epoch sh) = true → qstep t (QEpoch l r) sh x (Some (QPause l r)) sh x
  | q_epoch_even l r sh x :
      Z.odd (epoch sh) = false →
      qstep t (QEpoch l r) sh x (Some (QLeft l r (epoch sh))) sh x
  | q_left l r e sh x :
      qstep t (QLeft l r e) sh x
        (Some (QRight l r e ((table sh).[PositionToBlock kBlocks block_size l]))) sh x
  | q_right_bad l r e first sh x :
      (table sh).[PositionToBlock kBlocks block_size r] < first →
      qstep t (QRight l r e first) sh x (Some (QPause l r)) sh x
  | q_right l r e first last sh x :
      last = (table sh).[PositionToBlock kBlocks block_size r] → first ≤ last →
      qstep t (QRight l r e first) sh x (Some (QLock l r e first last first)) sh x
  | q_lock l r e first last next sh x :
      next ≤ last → owner sh !! next = None →
      qstep t (QLock l r e first last next) sh x
        (Some (QLock l r e first last (next + 1)))
        {| sh with owner := <[next := t]> (owner sh) |} x
  | q_locked l r e first last next sh x :
      last < next → qstep t (QLock l r e first last next) sh x (Some (QCheck l r e first last)) sh x
  | q_check_bad l r e first last sh x :
      (e ≠ epoch sh ∨ Z.odd (epoch sh) = true) →
      qstep t (QCheck l r e first last) sh x (Some (QRetry l r first (last - first + 1))) sh x
  | q_check_ok l r e first last sh x :
      e = epoch sh → Z.odd (epoch sh) = false →
      qstep t (QCheck l r e first last) sh x (Some (QCrit l r first last)) sh x
  | q_retry l r first n sh x :
      0 < n →
      qstep t (QRetry l r first n) sh x (Some (QRetry l r first (n - 1)))
        {| sh with owner := delete (first + (n - 1)) (owner sh) |} x
  | q_retry_done l r first sh x :
      qstep t (QRetry l r first 0) sh x (Some (QPause l r)) sh x
  | q_crit l r first last sh x x' :
      crit l r x x' → qstep t (QCrit l r first last) sh x (Some (QCrit l r first last)) sh x'
  | q_crit_done l r first last sh x :
      qstep t (QCrit l r first last) sh x (Some (QUnlock l r first (last - first + 1))) sh x
  | q_unlock l r first n sh x :
      0 < n →
      qstep t (QUnlock l r first n) sh x (Some (QUnlock l r first (n - 1)))
        {| sh with owner := delete (first + (n - 1)) (owner sh) |} x
  | q_unlock_done l r first sh x :
      qstep t (QUnlock l r first 0) sh x None sh x.

(** ** The contract between queries and publishers *)

Definition owns_all (t : nat) (sh : Shared) : Prop := ∀ i, 0 ≤ i < kLockCnt → owns t sh i.

(** What every step of thread [t] guarantees to the other threads: their
    mutexes are untouched, and the table and the epoch change only while [t]
    holds every mutex, the table only while the epoch is odd. *)
Definition guarantee (t : nat) (sh sh' : Shared) : Prop :=
  (∀ u i, u ≠ t → owns u sh i ↔ owns u sh' i) ∧
  ((table sh' = table sh ∧ epoch sh' = epoch sh) ∨
   (owns_all t sh ∧ owns_all t sh' ∧
    ((table sh' = table sh ∧ epoch sh' = epoch sh +₆₄ 1) ∨
     (Z.odd (epoch sh) = true ∧ epoch sh' = epoch sh)))).

(** What always holds of the shared fields. *)
Definition shared_ok (sh : Shared) : Prop :=
  len (table sh) = kBlocks ∧ (∀ b, 0 ≤ b < kBlocks → 0 ≤ (table sh).[b] < kLockCnt) ∧
  (Z.odd (epoch sh) = false → table_ok kLockCnt kBlocks (table sh)) ∧
  (Z.odd (epoch sh) = true → ∃ u, owns_all u sh).

(** The other threads of a lock class: their program counters, where their calls
    start and how they move. *)
Class Methods (P : Type) := {
  pinit : P → Prop;
  pstep : nat → P → Shared → X → option P → Shared → X → Prop
}.

(** Methods that keep the contract: an assertion ties each program counter to
    the shared fields, and the laws are what the queries rely on. *)
Class Publisher (P : Type) `{!Methods P} := {
  pok : nat → P → Shared → Prop;
  pinit_ok t p sh : pinit p → (∀ i, ¬ owns t sh i) → pok t p sh;
  pstep_ok t p sh x p' sh' x' :
    shared_ok sh → 0 ≤ epoch sh → epoch sh + 1 < modulus64 →
    pok t p sh → pstep t p sh x p' sh' x' →
    shared_ok sh' ∧ guarantee t sh sh' ∧
    match p' with Some q => pok t q sh' | None => ∀ i, ¬ owns t sh' i end;
  pok_stable t u p sh sh' :
    t ≠ u → epoch sh + 1 < modulus64 → 0 ≤ epoch sh →
    pok t p sh → guarantee u sh sh' → pok t p sh'
}.

Context {P : Type} `{!Methods P}.

Inductive tpc := TQuery (q : qpc) | TPub (p : P).

Record sys := { threads : gmap nat tpc; shared : Shared; client : X }.

(** The state after thread [t] moved to [o]. *)
Definition moved (t : nat) (o : option tpc) (s : sys) (sh : Shared) (x : X) : sys :=
  {| threads := partial_alter (λ _, o) t (threads s); shared := sh; client := x |}.

Inductive step : sys → sys → Prop :=
  | step_call s t left right l r :
      threads s !! t = None → is_u64 left → is_u64 right →
      normalize array_size left right = (l, r) →
      step s (moved t (Some (TQuery (QPause l r))) s (shared s) (client s))
  | step_query s t q q' sh' x' :
      threads s !! t = Some (TQuery q) → qstep t q (shared s) (client s) q' sh' x' →
      step s (moved t (TQuery <$> q') s sh' x')
  | step_publish s t p :
      threads s !! t = None → pinit p →
      step s (moved t (Some (TPub p)) s (shared s) (client s))
  | step_pub s t p p' sh' x' :
      threads s !! t = Some (TPub p) → pstep t p (shared s) (client s) p' sh' x' →
      step s (moved t (TPub <$> p') s sh' x').

(** No thread is inside a call, no mutex is held, the epoch is zero and the
    table is the one the constructor computed. *)
Definition initial (s : sys) : Prop :=
  threads s = ∅ ∧ owner (shared s) = ∅ ∧ epoch (shared s) = 0 ∧
  table_ok kLockCnt kBlocks (table (shared s)).

Context `{!Publisher P}.

(** ** The assertion of a query thread *)

Definition seg_left (sh : Shared) (l : Z) : Z := (table sh).[PositionToBlock kBlocks block_size l].

Definition query_ok (t : nat) (q : qpc) (sh : Shared) : Prop :=
  holds t sh (q_held q) ∧ (0 < (q_held q).2 → Z.odd (epoch sh) = false) ∧
  match q with
  | QPause l r | QEpoch l r => 0 ≤ l ≤ r
  | QLeft l r e => 0 ≤ l ≤ r ∧ Z.odd e = false ∧ e ≤ epoch sh
  | QRight l r e first =>
      0 ≤ l ≤ r ∧ Z.odd e = false ∧ e ≤ epoch sh ∧ 0 ≤ first < kLockCnt ∧
      (e = epoch sh → first = seg_left sh l)
  | QLock l r e first last next =>
      0 ≤ l ≤ r ∧ Z.odd e = false ∧ e ≤ epoch sh ∧ 0 ≤ first ≤ last ∧ last < kLockCnt ∧
      first ≤ next ≤ last + 1 ∧
      (e = epoch sh → first = seg_left sh l ∧ last = seg_left sh r)
  | QCheck l r e first last =>
      0 ≤ l ≤ r ∧ Z.odd e = false ∧ e ≤ epoch sh ∧ 0 ≤ first ≤ last ∧ last < kLockCnt ∧
      (e = epoch sh → first = seg_left sh l ∧ last = seg_left sh r)
  | QRetry l r first n => 0 ≤ l ≤ r ∧ 0 ≤ first ∧ 0 ≤ n ∧ first + n ≤ kLockCnt
  | QCrit l r first last =>
      0 ≤ l ≤ r ∧ 0 ≤ first ≤ last ∧ last < kLockCnt ∧
      first = seg_left sh l ∧ last = seg_left sh r ∧ table_ok kLockCnt kBlocks (table sh)
  | QUnlock l r first n => 0 ≤ l ≤ r ∧ 0 ≤ first ∧ 0 ≤ n ∧ first + n ≤ kLockCnt
  end.

(** Two threads cannot hold everything and something. *)
Lemma owns_all_excl t u sh i : t ≠ u → 0 ≤ i < kLockCnt → owns_all t sh → ¬ owns u sh i.
Proof. intros Hne Hi Ha Hu. apply Hne. eapply owns_inj; [by apply Ha|done]. Qed.

(** Acquiring a free mutex, or releasing one's own, is within the guarantee. *)
Lemma guarantee_acquire t sh i :
  owner sh !! i = None → guarantee t sh {| sh with owner := <[i := t]> (owner sh) |}.
Proof.
  intros Hfree. split; [|by left]. intros u j Hu. rewrite owns_acquire.
  unfold owns. clear crit. split; [|intuition congruence]. intros Hj. right. split; [|done]. congruence.
Qed.

Lemma guarantee_release t sh i :
  owns t sh i → guarantee t sh {| sh with owner := delete i (owner sh) |}.
Proof.
  intros Ho. split; [|by left]. intros u j Hu. rewrite owns_release.
  unfold owns in *. clear crit. split; [|tauto]. intros Hj. split; [|done]. congruence.
Qed.

Lemma guarantee_refl t sh : guarantee t sh sh.
Proof. split; [done|by left]. Qed.

(** A step that changes only [pause_queries_]. *)
Lemma guarantee_pause t sh b : guarantee t sh {| sh with pause := b |}.
Proof. split; [done|by left]. Qed.

(** While the epoch is even no mutex move can break the shared invariant. *)
Lemma shared_ok_owner sh o :
  shared_ok sh → Z.odd (epoch sh) = false → shared_ok {| sh with owner := o |}.
Proof. intros (? & ? & ? & _) He. split_and!; simpl; try done. rewrite He. done. Qed.

Lemma shared_ok_free_even sh i :
  shared_ok sh → 0 ≤ i < kLockCnt → owner sh !! i = None → Z.odd (epoch sh) = false.
Proof.
  intros (_ & _ & _ & Hodd) Hi Hfree. destruct (Z.odd (epoch sh)); [|done].
  destruct (Hodd eq_refl) as [u Hu]. specialize (Hu i Hi). unfold owns in Hu. congruence.
Qed.

(** Giving a mutex back keeps everything a query relies on. *)
Lemma release_ok t sh first n :
  shared_ok sh → Z.odd (epoch sh) = false → 0 < n → holds t sh (first, n) →
  let sh' := {| sh with owner := delete (first + (n - 1)) (owner sh) |} in
  shared_ok sh' ∧ guarantee t sh sh' ∧ holds t sh' (first, n - 1).
Proof.
  intros Hsh He Hpos Hh. split_and!.
  - by apply shared_ok_owner.
  - apply guarantee_release. apply Hh. simpl. lia.
  - by apply holds_release.
Qed.

Context (HL : 0 < kLockCnt) (HB : 0 < kBlocks) (Hbs : 1 ≤ block_size)
        (Hn : 0 < array_size < modulus64).

(** ** Stability: a query's assertion survives the steps of the others *)

Lemma guarantee_epoch_mono u sh sh' :
  epoch sh + 1 < modulus64 → 0 ≤ epoch sh → guarantee u sh sh' →
  epoch sh ≤ epoch sh' ≤ epoch sh + 1.
Proof.
  intros Hb H0 (_ & [[_ ->]|(_ & _ & [[_ ->]|[_ ->]])]); try lia.
  rewrite u64_add_small; lia.
Qed.

(** If the epoch still equals an even value read earlier, the table is the same. *)
Lemma guarantee_same_epoch u sh sh' e :
  epoch sh + 1 < modulus64 → 0 ≤ epoch sh → guarantee u sh sh' →
  Z.odd e = false → e ≤ epoch sh → e = epoch sh' → e = epoch sh ∧ table sh' = table sh.
Proof.
  intros Hb H0 (_ & [[Ht ->]|(_ & _ & [[_ He]|[Ho He]])]) Hodd Hle ->; try done.
  - rewrite He, u64_add_small in Hle by lia. lia.
  - rewrite He in Hodd. congruence.
Qed.

(** While [t] holds a mutex, nobody else changes the table or the epoch. *)
Lemma guarantee_frozen t u sh sh' i :
  t ≠ u → 0 ≤ i < kLockCnt → owns t sh i → guarantee u sh sh' →
  table sh' = table sh ∧ epoch sh' = epoch sh.
Proof.
  intros Hne Hi Ho (_ & [?|(Ha & _)]); [done|].
  destruct (owns_all_excl u t sh i); auto.
Qed.

Lemma holds_stable t u sh sh' fn :
  t ≠ u → holds t sh fn → guarantee u sh sh' → holds t sh' fn.
Proof. intros Hne Hh [Ho _] i. rewrite <-(Ho t i Hne). apply Hh. Qed.

Lemma query_ok_held t q sh :
  query_ok t q sh → 0 < (q_held q).2 → 0 ≤ (q_held q).1 < kLockCnt ∧ owns t sh ((q_held q).1).
Proof.
  intros (Hh & _ & Hq) Hpos. split; [|apply Hh; lia].
  destruct q; simpl in *; lia.
Qed.

Lemma query_ok_stable t u q sh sh' :
  t ≠ u → epoch sh + 1 < modulus64 → 0 ≤ epoch sh →
  query_ok t q sh → guarantee u sh sh' → query_ok t q sh'.
Proof.
  intros Hne Hb H0 Hok HG.
  pose proof (guarantee_epoch_mono _ _ _ Hb H0 HG) as Hm.
  assert (0 < (q_held q).2 → table sh' = table sh ∧ epoch sh' = epoch sh) as Hfr.
  { intros Hpos. destruct (query_ok_held _ _ _ Hok Hpos).
    eapply guarantee_frozen; eauto. }
  destruct Hok as (Hh & Heven & Hq). split_and!.
  - eapply holds_stable; eauto.
  - intros Hpos. destruct (Hfr Hpos) as [_ ->]. auto.
  - assert (∀ e, Z.odd e = false → e ≤ epoch sh → e = epoch sh' →
      e = epoch sh ∧ table sh' = table sh) as Hsame.
    { intros. eapply guarantee_same_epoch; eauto. }
    unfold seg_left in *. destruct q; simpl in *; try lia.
    + split_and!; try tauto; lia.
    + destruct Hq as (? & ? & ? & ? & Hs). split_and!; try done; try lia.
      intros He. destruct (Hsame e) as [He' ->]; auto.
    + destruct Hq as (? & ? & ? & ? & ? & ? & Hs). split_and!; try done; try lia.
      intros He. destruct (Hsame e) as [He' ->]; auto.
    + destruct Hq as (? & ? & ? & ? & ? & Hs). split_and!; try done; try lia.
      intros He. destruct (Hsame e) as [He' ->]; auto.
    + destruct (Hfr ltac:(lia)) as [-> _]. done.
Qed.

(** ** A query's own steps *)

Lemma holds_none t sh a : holds t sh (a, 0) ↔ ∀ i, ¬ owns t sh i.
Proof.
  split.
  - intros Hh i Ho. apply Hh in Ho; simpl in *. lia.
  - intros Hh i; simpl. split; [intros Ho; by destruct (Hh i)|lia].
Qed.

Lemma holds_empty t sh a b : holds t sh (a, 0) → holds t sh (b, 0).
Proof. by rewrite !holds_none. Qed.

Lemma query_step_ok t q sh x q' sh' x' :
  shared_ok sh → query_ok t q sh → qstep t q sh x q' sh' x' →
  shared_ok sh' ∧ guarantee t sh sh' ∧
  match q' with Some q'' => query_ok t q'' sh' | None => ∀ i, ¬ owns t sh' i end.
Proof.
  intros Hsh (Hh & Heven & Hq) Hstep.
  assert (∀ p, 0 ≤ p → 0 ≤ seg_left sh p < kLockCnt) as Hseg.
  { intros p Hp. destruct Hsh as (_ & Hr & _). apply Hr. by apply PositionToBlock_range. }
  inversion Hstep; subst; simpl in *; unfold query_ok; simpl.
  (* the two releasing steps *)
  12, 16: destruct (release_ok t sh first n Hsh) as (? & ? & ?); [by apply Heven|done|done|];
    split; [done|split; [done|]]; split_and!; try done; try lia; intros; apply Heven; lia.
  (* taking a mutex *)
  8: assert (Z.odd (epoch sh) = false) as He by
      (eapply shared_ok_free_even; [done| |done]; lia);
    split; [by apply shared_ok_owner|split; [by apply guarantee_acquire|]];
    split; [|split_and!; tauto || lia];
    replace (next + 1 - first) with (next - first + 1) by lia;
    replace next with (first + (next - first)) at 1 by lia;
    apply holds_acquire; [by replace (first + (next - first)) with next by lia|lia|done].
  all: split; [done|split; [apply guarantee_refl|]].
  all: try (fold (seg_left sh l)); try (fold (seg_left sh r)).
  all: pose proof (Hseg l ltac:(lia)); pose proof (Hseg r ltac:(lia)).
  all: try (split_and!; tauto || lia).
  - (* the segment has been read *)
    rewrite Z.sub_diag. split; [by eapply holds_empty|].
    change ((table sh').[PositionToBlock kBlocks block_size r]) with (seg_left sh' r) in *.
    split_and!; tauto || lia.
  - (* every mutex of the segment is held *)
    replace (last0 - first + 1) with (next - first) by lia. split_and!; tauto || lia.
  - (* the epoch has not changed *)
    destruct Hsh as (_ & _ & Ht & _). split_and!; tauto || lia.
  - split; [by eapply holds_empty|]. split_and!; tauto || lia.
  - by eapply holds_none.
Qed.

(** ** Steps the publishers share *)

Lemma holds_all t sh : holds t sh (0, kLockCnt) → owns_all t sh.
Proof. intros Hh i Hi. apply Hh. simpl. lia. Qed.

(** The publisher's epoch increments, with every mutex held. *)
Lemma epoch_step_ok t sh :
  shared_ok sh → 0 ≤ epoch sh → epoch sh + 1 < modulus64 → holds t sh (0, kLockCnt) →
  (Z.odd (epoch sh) = true → table_ok kLockCnt kBlocks (table sh)) →
  let sh' := {| sh with epoch := epoch sh +₆₄ 1 |} in
  shared_ok sh' ∧ guarantee t sh sh' ∧ Z.odd (epoch sh') = negb (Z.odd (epoch sh)).
Proof.
  intros (Hl & Hr & He & _) H0 H1 Hh Ht. simpl. rewrite u64_add_small by lia.
  assert (Z.odd (epoch sh + 1) = negb (Z.odd (epoch sh))) as Hodd.
  { rewrite Z.odd_add. by destruct (Z.odd (epoch sh)). }
  split_and!; [|split; [done|right; split_and!; try by apply holds_all]|done].
  - split_and!; simpl; try done.
    + rewrite Hodd. intros Hev. apply Ht. by destruct (Z.odd (epoch sh)).
    + intros _. exists t. by apply holds_all.
  - left. rewrite u64_add_small by lia. done.
Qed.

(** ** Reachable states *)

Definition tpc_ok (t : nat) (o : option tpc) (sh : Shared) : Prop :=
  match o with
  | Some (TQuery q) => query_ok t q sh
  | Some (TPub p) => pok t p sh
  | None => ∀ i, ¬ owns t sh i
  end.

(** The invariant of the states reached in [n] steps. *)
Definition sys_inv (n : nat) (s : sys) : Prop :=
  0 ≤ epoch (shared s) ≤ Z.of_nat n ∧ shared_ok (shared s) ∧
  ∀ t, tpc_ok t (threads s !! t) (shared s).

Lemma tpc_ok_stable t u o sh sh' :
  t ≠ u → epoch sh + 1 < modulus64 → 0 ≤ epoch sh →
  tpc_ok t o sh → guarantee u sh sh' → tpc_ok t o sh'.
Proof.
  intros Hne Hb H0 Hok HG. destruct o as [[q|p]|]; simpl in *.
  - eapply query_ok_stable; eauto.
  - eapply pok_stable; eauto.
  - intros i Ho. apply (Hok i). destruct HG as [HG _]. by apply HG.
Qed.

(** A move of thread [t] within its guarantee keeps the invariant. *)
Lemma sys_inv_moved n s t o sh' x' :
  Z.of_nat n + 1 < modulus64 → sys_inv n s →
  shared_ok sh' → guarantee t (shared s) sh' → tpc_ok t o sh' →
  sys_inv (S n) (moved t o s sh' x').
Proof.
  intros Hb (He & Hsh & Hth) Hsh' HG Ho. split_and!; simpl.
  - pose proof (guarantee_epoch_mono t (shared s) sh' ltac:(lia) ltac:(lia) HG). lia.
  - pose proof (guarantee_epoch_mono t (shared s) sh' ltac:(lia) ltac:(lia) HG). lia.
  - done.
  - intros u. destruct (decide (u = t)) as [->|Hu].
    + by rewrite lookup_partial_alter_eq.
    + rewrite lookup_partial_alter_ne by done.
      eapply tpc_ok_stable; [done| | |by apply Hth|done]; lia.
Qed.

Lemma sys_inv_step n s s' :
  Z.of_nat n + 1 < modulus64 → sys_inv n s → step s s' → sys_inv (S n) s'.
Proof.
  intros Hb Hinv Hstep. pose proof Hinv as (He & Hsh & Hth).
  destruct Hstep as [s t left right l r Hnone Hl Hr Hnorm|s t q q' sh' x' Hq Hstep
                    |s t p Hnone Hp|s t p p' sh' x' Hp Hstep].
  - apply sys_inv_moved; [done|done|done|apply guarantee_refl|].
    specialize (Hth t). rewrite Hnone in Hth. simpl in *.
    apply normalize_range in Hnorm; [|unfold is_u64 in *; lia..].
    unfold query_ok; simpl. split_and!; [by apply holds_none|lia|lia|lia].
  - specialize (Hth t). rewrite Hq in Hth.
    destruct (query_step_ok t q (shared s) (client s) q' sh' x') as (? & ? & ?); [done..|].
    apply sys_inv_moved; [done..|]. by destruct q'.
  - apply sys_inv_moved; [done|done|done|apply guarantee_refl|].
    specialize (Hth t). rewrite Hnone in Hth. simpl in *. by apply pinit_ok.
  - specialize (Hth t). rewrite Hp in Hth.
    destruct (pstep_ok t p (shared s) (client s) p' sh' x') as (? & ? & ?); [done|lia|lia|done..|].
    apply sys_inv_moved; [done..|]. by destruct p'.
Qed.

Lemma sys_inv_initial s : initial s → sys_inv 0 s.
Proof.
  intros (Hth & Ho & He & Ht). split_and!; try lia.
  - unfold shared_ok. rewrite He. pose proof Ht as (? & ? & ?). by split_and!.
  - intros t. rewrite Hth, lookup_empty. intros i. unfold owns. by rewrite Ho, lookup_empty.
Qed.

Lemma sys_inv_reachable n s0 s :
  initial s0 → nsteps step n s0 s → Z.of_nat n < modulus64 → sys_inv n s.
Proof.
  intros Hinit Hsteps. revert s Hsteps. induction n as [|n IH]; intros s Hsteps Hb.
  - inversion Hsteps; subst. by apply sys_inv_initial.
  - apply nsteps_inv_r in Hsteps as (s' & Hs' & Hstep).
    eapply sys_inv_step; [lia| |done]. apply IH; [done|lia].
Qed.

(** ** Mutual exclusion *)

Lemma crit_disjoint t1 t2 sh l1 r1 f1 e1 l2 r2 f2 e2 :
  t1 ≠ t2 → query_ok t1 (QCrit l1 r1 f1 e1) sh → query_ok t2 (QCrit l2 r2 f2 e2) sh →
  PositionToBlock kBlocks block_size r1 < PositionToBlock kBlocks block_size l2 ∨
  PositionToBlock kBlocks block_size r2 < PositionToBlock kBlocks block_size l1.
Proof.
  intros Hne (Hh1 & _ & H1 & Hr1 & Hk1 & -> & -> & Hok) (Hh2 & _ & H2 & Hr2 & Hk2 & -> & -> & _).
  destruct (decide (PositionToBlock kBlocks block_size r1 < PositionToBlock kBlocks block_size l2));
    [by left|].
  destruct (decide (PositionToBlock kBlocks block_size r2 < PositionToBlock kBlocks block_size l1));
    [by right|].
  destruct (overlap_shares_lock kLockCnt kBlocks HB (table sh) block_size l1 r1 l2 r2)
    as (k & Hk & Hk'); [done|done|lia|lia|lia|lia|].
  simpl in *. unfold seg_left in *. destruct Hne. apply (owns_inj t1 t2 sh k).
  - apply Hh1. simpl. lia.
  - apply Hh2. simpl. lia.
Qed.

Lemma mutual_exclusion n s0 s t1 t2 l1 r1 f1 e1 l2 r2 f2 e2 :
  initial s0 → nsteps step n s0 s → Z.of_nat n < modulus64 → t1 ≠ t2 →
  threads s !! t1 = Some (TQuery (QCrit l1 r1 f1 e1)) →
  threads s !! t2 = Some (TQuery (QCrit l2 r2 f2 e2)) →
  r1 < l2 ∨ r2 < l1.
Proof.
  intros Hi Hn' Hb Hne H1 H2.
  destruct (sys_inv_reachable _ _ _ Hi Hn' Hb) as (_ & _ & Hth).
  pose proof (Hth t1) as Hq1. pose proof (Hth t2) as Hq2.
  rewrite H1 in Hq1. rewrite H2 in Hq2. simpl in *.
  pose proof Hq1 as (_ & _ & Hlr1 & _). pose proof Hq2 as (_ & _ & Hlr2 & _).
  destruct (crit_disjoint t1 t2 (shared s) l1 r1 f1 e1 l2 r2 f2 e2) as [Hd|Hd]; [done..| |].
  - left. destruct (decide (l2 ≤ r1)); [|lia].
    pose proof (PositionToBlock_mono kBlocks block_size l2 r1 Hbs ltac:(lia)). lia.
  - right. destruct (decide (l1 ≤ r2)); [|lia].
    pose proof (PositionToBlock_mono kBlocks block_size l1 r2 Hbs ltac:(lia)). lia.
Qed.

End Protocol.
