(* ===== verification/Sampling.v ===== *)
(** Sampling: pieces the adaptive locks share.

    The thread-local sampling counter of [ShouldSampleStats] and
    [ShouldSampleTraining] (the same arithmetic in both locks), the maximum of an
    array of hits, and the three ways one round of the retry loop of [WriteQuery]
    ends. *)
From S2P Require Import Prelude.

(** [*std::max_element(begin, end)] of a non-empty range. *)
Definition max_element (l : list Z) : Z :=
  match l with
  | [] => 0
  | a :: l => foldl (λ m x, if m <? x then x else m) a l
  end.

(** [ShouldSampleStats]'s arithmetic; [counter] is the thread-local counter. *)
Definition sample_tick (rate counter : Z) : bool * Z :=
  let counter := counter +₆₄ 1 in
  if Z.land rate (rate -₆₄ 1) =? 0
  then (Z.land counter (rate -₆₄ 1) =? 0, counter)
  else (counter mod rate =? 0, counter).

(** How one round of the retry loop ends: [continue], [return] after [func] has
    run, or an exception of [lock()]. *)
Inductive round (A : Type) := Continue (a : A) | Ran (a : A) | Threw (a : A).
Arguments Continue {A} a.
Arguments Ran {A} a.
Arguments Threw {A} a.

(** ** Sampling *)

Lemma power_of_two_test r : 0 < r → Z.land r (r - 1) = 0 → r = 2 ^ Z.log2 r.
Proof.
  intros Hr Hl. pose proof (Z.log2_spec r Hr) as [Hlo Hhi]. pose proof (Z.log2_nonneg r).
  destruct (decide (r = 2 ^ Z.log2 r)) as [|Hne]; [done|].
  assert (Z.testbit (Z.land r (r - 1)) (Z.log2 r) = true) as Hbit; [|by rewrite Hl, Z.bits_0 in Hbit].
  rewrite Z.land_spec, Z.bit_log2 by done. simpl.
  replace (Z.log2 r) with (Z.log2 (r - 1)); [apply Z.bit_log2; lia|].
  apply Z.log2_unique; lia.
Qed.

(** Both branches of the code decide whether the rate divides the counter. *)
Lemma sample_tick_mod rate counter :
  1 ≤ rate < modulus64 →
  sample_tick rate counter = ((counter +₆₄ 1) mod rate =? 0, counter +₆₄ 1).
Proof.
  intros Hr. unfold sample_tick. rewrite u64_sub_small by lia.
  destruct (Z.eqb_spec (Z.land rate (rate - 1)) 0) as [Hp|]; [|done].
  apply power_of_two_test in Hp; [|lia]. rewrite Hp.
  replace (2 ^ Z.log2 rate - 1) with (Z.ones (Z.log2 rate)) by (rewrite Z.ones_equiv; lia).
  rewrite Z.land_ones by apply Z.log2_nonneg. done.
Qed.

(** The number of queries sampled among [n] consecutive ones of a thread. *)
Fixpoint samples (n : nat) (rate counter : Z) : Z :=
  match n with
  | O => 0
  | S n' => let (sampled, counter) := sample_tick rate counter in
            (if sampled then 1 else 0) + samples n' rate counter
  end.

Lemma div_succ c r : 0 < r → (c + 1) / r = c / r + (if (c + 1) mod r =? 0 then 1 else 0).
Proof.
  intros Hr. pose proof (Z.div_mod c r ltac:(lia)). pose proof (Z.mod_pos_bound c r Hr).
  pose proof (Z.div_mod (c + 1) r ltac:(lia)). pose proof (Z.mod_pos_bound (c + 1) r Hr).
  zbool; nia.
Qed.

(** ** Properties *)

(** Sampling: with rate [rate], whether it is a power of two (the mask test)
    or not (the modulo test), a thread that starts with counter [c] records
    [(c + n) / rate - c / rate] of its next [n] queries, i.e. exactly one of any
    [rate] consecutive ones. *)
Theorem sampling_rate rate counter n :
  1 ≤ rate < modulus64 → 0 ≤ counter → counter + Z.of_nat n < modulus64 →
  samples n rate counter = (counter + Z.of_nat n) / rate - counter / rate.
Proof.
  intros Hr. revert counter. induction n as [|n IH]; intros counter Hc Hb.
  - rewrite Z.add_0_r. simpl. lia.
  - cbn [samples]. rewrite sample_tick_mod by done. rewrite u64_add_small by lia.
    rewrite IH by lia. replace (counter + Z.of_nat (S n)) with (counter + 1 + Z.of_nat n) by lia.
    rewrite (div_succ counter rate) by lia. destruct (_ =? 0); lia.
Qed.

Lemma sampling_rate_witness :
  samples 16 4 3 = 4 ∧ samples 16 5 3 = (3 + Z.of_nat 16) / 5 - 3 / 5.
Proof.
  split; [vm_compute; reflexivity|].
  apply (sampling_rate 5 3 16); unfold modulus64; lia.
Defined.
