(* ===== verification/DynamicLock.v ===== *)
(** [DynamicLock]: the object and its methods.

    The class of [dynamic/dynamic_lock.hpp] as a record and one definition per
    method, each run by a single thread from start to end; the interleaving of
    several threads is the subject of [DynamicProtocol]. [kLockCnt] and [kBlocks]
    are parameters (the source fixes [kBlocks] to 1024, [source_kBlocks]). Clock
    readings and the thread-local sampling counter are arguments. *)
From S2P Require Import Double BlockMap PartitionDP RangeLock Sampling Prelude.

Definition source_kBlocks : Z := 1024.

(** The members of the class. [rebuild_thread_] records whether the thread is
    joinable. *)
Record DynamicLock := {
  array_size_ : Z;
  block_size_ : Z;
  locks_ : gmap Z nat;
  block_to_lock_ : list Z;
  stats_ : list Z;
  boundary_crossings_ : list Z;
  last_stats_ : list Z;
  partitions_ : list Z;
  rebuild_flag_ : bool;
  collect_stats_ : bool;
  pause_queries_ : bool;
  rebuilder_running_ : bool;
  partition_epoch_ : Z;
  rebuild_thread_ : bool;
  stop_rebuilder_ : bool;
  rebuild_count_ : Z;
  operation_count_ : Z;
  stats_sample_rate_ : Z;
  total_lock_time_ : Z;
  min_rebuild_gain_ : double;
  min_rebuild_skew_ : double
}.

(** Assignments to one member. *)
Definition set_locks_ (d : DynamicLock) (v : gmap Z nat) : DynamicLock := {| d with locks_ := v |}.
Definition set_block_to_lock_ (d : DynamicLock) (v : list Z) : DynamicLock := {| d with block_to_lock_ := v |}.
Definition set_last_stats_ (d : DynamicLock) (v : list Z) : DynamicLock := {| d with last_stats_ := v |}.
Definition set_partitions_ (d : DynamicLock) (v : list Z) : DynamicLock := {| d with partitions_ := v |}.
Definition set_rebuild_flag_ (d : DynamicLock) (v : bool) : DynamicLock := {| d with rebuild_flag_ := v |}.
Definition set_collect_stats_ (d : DynamicLock) (v : bool) : DynamicLock := {| d with collect_stats_ := v |}.
Definition set_pause_queries_ (d : DynamicLock) (v : bool) : DynamicLock := {| d with pause_queries_ := v |}.
Definition set_rebuilder_running_ (d : DynamicLock) (v : bool) : DynamicLock := {| d with rebuilder_running_ := v |}.
Definition set_partition_epoch_ (d : DynamicLock) (v : Z) : DynamicLock := {| d with partition_epoch_ := v |}.
Definition set_rebuild_thread_ (d : DynamicLock) (v : bool) : DynamicLock := {| d with rebuild_thread_ := v |}.
Definition set_stop_rebuilder_ (d : DynamicLock) (v : bool) : DynamicLock := {| d with stop_rebuilder_ := v |}.
Definition set_rebuild_count_ (d : DynamicLock) (v : Z) : DynamicLock := {| d with rebuild_count_ := v |}.
Definition set_operation_count_ (d : DynamicLock) (v : Z) : DynamicLock := {| d with operation_count_ := v |}.
Definition set_stats_sample_rate_ (d : DynamicLock) (v : Z) : DynamicLock := {| d with stats_sample_rate_ := v |}.
Definition set_total_lock_time_ (d : DynamicLock) (v : Z) : DynamicLock := {| d with total_lock_time_ := v |}.

Section DynamicLock.
  Variables (kLockCnt kBlocks : Z).

(** The constructor. *)
Definition make (array_size stats_sample_rate : Z) (min_rebuild_gain min_rebuild_skew : double) :
    DynamicLock :=
  let partitions := uniform_cuts kLockCnt kBlocks in
  let zeros := replicate (Z.to_nat kBlocks) 0 in
  {| array_size_ := array_size;
     block_size_ := init_block_size kBlocks array_size;
     locks_ := ∅;
     block_to_lock_ := RefreshBlockToLock kLockCnt kBlocks partitions zeros;
     stats_ := zeros;
     boundary_crossings_ := zeros;
     last_stats_ := zeros;
     partitions_ := partitions;
     rebuild_flag_ := false;
     collect_stats_ := false;
     pause_queries_ := false;
     rebuilder_running_ := false;
     partition_epoch_ := 0;
     rebuild_thread_ := false;
     stop_rebuilder_ := false;
     rebuild_count_ := 0;
     operation_count_ := 0;
     stats_sample_rate_ := Z.max stats_sample_rate 1;
     total_lock_time_ := 0;
     min_rebuild_gain_ := d_max min_rebuild_gain d_one;
     min_rebuild_skew_ := d_max min_rebuild_skew d_one |}.

(** ** Statistics *)

Definition ShouldSampleStats (d : DynamicLock) (counter : Z) : bool * Z :=
  if negb (collect_stats_ d) then (false, counter)
  else if stats_sample_rate_ d <=? 1 then (true, counter)
  else sample_tick (stats_sample_rate_ d) counter.

(** [for (i = lo; i <= right_block && i < kBlocks; ++i) a[i].fetch_add(1)] *)
Definition bump (lo right_block : Z) (a : list Z) : list Z :=
  for_range lo (Z.min (right_block + 1) kBlocks) (λ i a, a.[i <- a.[i] +₆₄ 1]) a.

Definition UpdateStats (d : DynamicLock) (left right : Z) : DynamicLock :=
  let left_block := PositionToBlock kBlocks (block_size_ d) left in
  let right_block := PositionToBlock kBlocks (block_size_ d) right in
  {| d with stats_ := bump left_block right_block (stats_ d);
            boundary_crossings_ := bump (left_block + 1) right_block (boundary_crossings_ d) |}.

(** [SnapshotStats] and [SnapshotBoundaryCrossings] copy one array of atomics. *)
Definition snapshot (a : list Z) : list Z :=
  for_range 0 kBlocks (λ i s, s.[i <- a.[i]]) (replicate (Z.to_nat kBlocks) 0).

Definition SnapshotStats (d : DynamicLock) : list Z := snapshot (stats_ d).

Definition SnapshotBoundaryCrossings (d : DynamicLock) : list Z := snapshot (boundary_crossings_ d).

(** The loop that stores zero in both arrays. *)
Definition clear_stats (d : DynamicLock) : DynamicLock :=
  for_range 0 kBlocks (λ i d,
    {| d with stats_ := (stats_ d).[i <- 0];
              boundary_crossings_ := (boundary_crossings_ d).[i <- 0] |}) d.

Definition ResetCollectedStatsUnlocked (d : DynamicLock) (current_stats : list Z) : DynamicLock :=
  clear_stats (set_last_stats_ d current_stats).

(** [ForceSaveStats]: [last_stats_[i] = stats_[i].exchange(0)]. *)
Definition ForceSaveStats (d : DynamicLock) : DynamicLock :=
  for_range 0 kBlocks (λ i d,
    {| d with last_stats_ := (last_stats_ d).[i <- (stats_ d).[i]];
              stats_ := (stats_ d).[i <- 0];
              boundary_crossings_ := (boundary_crossings_ d).[i <- 0] |}) d.

Definition HasEnoughSkew (min_rebuild_skew_ : double) (stats : list Z) (total_ops : Z) : bool :=
  let max_block := max_element stats in
  let average_block := d_of_Z total_ops /ᵈ d_of_Z kBlocks in
  (average_block >?ᵈ d_zero) && ((d_of_Z max_block /ᵈ average_block) >=?ᵈ min_rebuild_skew_).

(** The loop of [ShouldRebuild] over the blocks: [diff] and [comparable_blocks]. *)
Definition drift_body (last_stats current_stats : list Z) (i : Z) (st : double * Z) : double * Z :=
  let old_value := d_of_Z (last_stats.[i]) in
  let new_value := d_of_Z (current_stats.[i]) in
  if (old_value =?ᵈ d_zero) && (new_value =?ᵈ d_zero) then st
  else (st.1 +ᵈ d_abs (new_value -ᵈ old_value) /ᵈ d_max old_value d_one, st.2 +₆₄ 1).

(** The exits of [ShouldRebuild]: too few hits; not skewed (the statistics are
    reset); no earlier statistics (they are kept); the drift test. *)
Inductive verdict := TooFew | NotSkewed | FirstStats | Drift (rebuild : bool).

Definition judge (min_rebuild_skew_ threshold : double) (last_stats current_stats : list Z) : verdict :=
  let total_ops := accumulate current_stats in
  if total_ops <? 1000 then TooFew
  else if negb (HasEnoughSkew min_rebuild_skew_ current_stats total_ops) then NotSkewed
  else
    let last_total := accumulate last_stats in
    if last_total =? 0 then FirstStats
    else
      let '(diff, comparable_blocks) :=
        for_range 0 kBlocks (drift_body last_stats current_stats) (d_zero, 0) in
      if comparable_blocks =? 0 then Drift false
      else Drift ((diff /ᵈ d_of_Z comparable_blocks) >?ᵈ threshold).

Definition ShouldRebuild (d : DynamicLock) (threshold : double) : bool * DynamicLock :=
  let current_stats := SnapshotStats d in
  match judge (min_rebuild_skew_ d) threshold (last_stats_ d) current_stats with
  | TooFew => (false, d)
  | NotSkewed => (false, ResetCollectedStatsUnlocked d current_stats)
  | FirstStats => (true, set_last_stats_ d current_stats)
  | Drift rebuild => (rebuild, d)
  end.

(** ** Rebuilding *)

Definition HasEnoughPartitionGain (min_rebuild_gain_ : double)
    (current_partitions new_partitions prefix_sum boundary_crossings : list Z) : bool :=
  if decide (new_partitions = current_partitions) then false
  else
    let current_cost := PartitionCost kLockCnt current_partitions prefix_sum boundary_crossings in
    let new_cost := PartitionCost kLockCnt new_partitions prefix_sum boundary_crossings in
    if new_cost =? 0 then negb (current_cost =? 0)
    else ld_gt (ld_of_Z current_cost) (ld_mul (ld_of_Z new_cost) (ld_of_double min_rebuild_gain_)).

(** The publication, under all the locks and both mutexes. *)
Definition publish (d : DynamicLock) (new_partitions current_stats : list Z) : DynamicLock :=
  let d := set_partitions_ d new_partitions in
  let d := set_partition_epoch_ d (partition_epoch_ d +₆₄ 1) in
  let d := set_block_to_lock_ d (RefreshBlockToLock kLockCnt kBlocks (partitions_ d) (block_to_lock_ d)) in
  let d := set_partition_epoch_ d (partition_epoch_ d +₆₄ 1) in
  clear_stats (set_last_stats_ d current_stats).

(** [RebuildPartitions], run by thread [me] while no query runs; [throws] says
    which [lock()] throws. The handler of the guard unlocks what was taken, and
    nothing resets the two flags in that case. *)
Definition RebuildPartitions (me : nat) (throws : Z → bool) (d : DynamicLock) :
    outcome bool * DynamicLock :=
  if rebuild_flag_ d then (Returned false, d)
  else
    let d := set_rebuild_flag_ d true in
    let current_stats := SnapshotStats d in
    let current_boundary_crossings := SnapshotBoundaryCrossings d in
    let prefix_sum := prefix_sums kBlocks current_stats in
    let new_partitions :=
      OptimizePartitions kLockCnt kBlocks prefix_sum current_boundary_crossings in
    if negb (HasEnoughPartitionGain (min_rebuild_gain_ d) (partitions_ d) new_partitions prefix_sum
               current_boundary_crossings)
    then
      let d := ResetCollectedStatsUnlocked d current_stats in
      (Returned false, set_rebuild_flag_ d false)
    else
      let d := set_pause_queries_ d true in
      match construct me throws 0 (kLockCnt - 1) (locks_ d) with
      | (locks, Thrown) => (Thrown, set_locks_ d locks)
      | (locks, Returned all_locks) =>
          let d := publish (set_locks_ d locks) new_partitions current_stats in
          let d := set_rebuild_flag_ d false in
          let d := set_pause_queries_ d false in
          (Returned true, set_locks_ d (destroy all_locks (locks_ d)))
      end.

(** [if (RebuildPartitions()) ++rebuild_count_;] *)
Definition count_rebuild (r : outcome bool * DynamicLock) : outcome unit * DynamicLock :=
  match r with
  | (Returned true, d) => (Returned tt, set_rebuild_count_ d (rebuild_count_ d +₆₄ 1))
  | (Returned false, d) => (Returned tt, d)
  | (Thrown, d) => (Thrown, d)
  end.

Definition RebuildNow (me : nat) (throws : Z → bool) (d : DynamicLock) : outcome unit * DynamicLock :=
  let current_stats := SnapshotStats d in
  let total_ops := accumulate current_stats in
  if total_ops =? 0 then (Returned tt, d) else count_rebuild (RebuildPartitions me throws d).

(** One round of the rebuilder thread after its sleep:
    [if (ShouldRebuild(change_threshold) && RebuildPartitions()) ++rebuild_count_;] *)
Definition rebuilder_round (me : nat) (throws : Z → bool) (change_threshold : double)
    (d : DynamicLock) : outcome unit * DynamicLock :=
  let (should, d) := ShouldRebuild d change_threshold in
  if should then count_rebuild (RebuildPartitions me throws d) else (Returned tt, d).

(** The rebuilder thread. [stop k] is the result of the [k]-th load of
    [stop_rebuilder_]; durations are in milliseconds. [sleep_loop] is the inner
    loop: the steps slept and the number of loads so far. *)
Fixpoint sleep_loop (fuel : nat) (stop : nat → bool) (k : nat) (interval slept : Z) :
    option (list Z * nat) :=
  match fuel with
  | O => None
  | S n =>
      if negb (stop k) && (slept <? interval)
      then let step := Z.min 50 (interval - slept) in
           match sleep_loop n stop (S k) interval (slept + step) with
           | Some (steps, k') => Some (step :: steps, k')
           | None => None
           end
      else Some ([], S k)
  end.

(** The thread function, for at most [rounds] rounds; the exception of a round
    leaves the thread function. *)
Fixpoint rebuilder_thread (rounds fuel : nat) (stop : nat → bool) (k : nat)
    (interval : Z) (change_threshold : double) (me : nat) (throws : Z → bool)
    (d : DynamicLock) : option (outcome unit * DynamicLock) :=
  match rounds with
  | O => None
  | S n =>
      if stop k then Some (Returned tt, d)
      else
        match sleep_loop fuel stop (S k) interval 0 with
        | None => None
        | Some (_, k) =>
            if stop k then Some (Returned tt, d)
            else match rebuilder_round me throws change_threshold d with
                 | (Thrown, d) => Some (Thrown, d)
                 | (Returned _, d) =>
                     rebuilder_thread n fuel stop (S k) interval change_threshold me throws d
                 end
        end
  end.

(** [StartRebuilder] before the new thread runs. *)
Definition StartRebuilder (d : DynamicLock) : DynamicLock :=
  if rebuild_thread_ d then d
  else
    let d := set_stop_rebuilder_ d false in
    let d := set_collect_stats_ d true in
    let d := set_rebuilder_running_ d true in
    set_rebuild_thread_ d true.

(** [StopRebuilder], after the rebuilder thread has been joined. *)
Definition StopRebuilder (d : DynamicLock) : DynamicLock :=
  let d := set_stop_rebuilder_ d true in
  let d := if rebuild_thread_ d then set_rebuild_thread_ d false else d in
  let d := set_rebuilder_running_ d false in
  set_collect_stats_ d false.

(** ** Queries *)

(** The body of [while (true)] in [WriteQuery], after the pause. [delta] is the
    time since the call started, [counter] the sampling counter of the thread,
    [data] what [func] works on. The [std::lock_guard] of the one-mutex case is
    [construct] on an interval of one mutex. *)
Definition attempt {D : Type} (me : nat) (throws : Z → bool) (delta : Z) (func : Z → Z → D → D)
    (left right : Z) (st : DynamicLock * Z * D) : round (DynamicLock * Z * D) :=
  let '(d, counter, data) := st in
  let epoch := partition_epoch_ d in
  if Z.odd epoch then Continue st
  else
    let '(lock_start, lock_end) :=
      FindLocksSegmentUnlocked kBlocks (block_to_lock_ d) (block_size_ d) left right in
    if lock_end <? lock_start then Continue st
    else
      match construct me throws lock_start lock_end (locks_ d) with
      | (locks, Thrown) => Threw (set_locks_ d locks, counter, data)
      | (locks, Returned guard) =>
          let d := set_locks_ d locks in
          let current_epoch := partition_epoch_ d in
          if negb (epoch =? current_epoch) || Z.odd current_epoch
          then Continue (set_locks_ d (destroy guard (locks_ d)), counter, data)
          else
            let d := set_total_lock_time_ d (total_lock_time_ d + delta) in
            let d := set_operation_count_ d (operation_count_ d +₆₄ 1) in
            let '(sample, counter) := ShouldSampleStats d counter in
            let d := if sample then UpdateStats d left right else d in
            let data := func left right data in
            Ran (set_locks_ d (destroy guard (locks_ d)), counter, data)
      end.

(** [WriteQuery] with at most [fuel] rounds of its two loops; [None] if they
    were not enough. *)
Fixpoint query_loop {D : Type} (fuel : nat) (me : nat) (throws : Z → bool) (delta : Z)
    (func : Z → Z → D → D) (left right : Z) (st : DynamicLock * Z * D) :
    option (outcome unit * (DynamicLock * Z * D)) :=
  match fuel with
  | O => None
  | S n =>
      if pause_queries_ st.1.1 then query_loop n me throws delta func left right st
      else match attempt me throws delta func left right st with
           | Ran st' => Some (Returned tt, st')
           | Threw st' => Some (Thrown, st')
           | Continue st' => query_loop n me throws delta func left right st'
           end
  end.

Definition WriteQuery {D : Type} (fuel : nat) (me : nat) (throws : Z → bool) (delta : Z)
    (left right : Z) (func : Z → Z → D → D) (st : DynamicLock * Z * D) :
    option (outcome unit * (DynamicLock * Z * D)) :=
  if array_size_ st.1.1 =? 0 then Some (Returned tt, st)
  else
    let (left, right) := normalize (array_size_ st.1.1) left right in
    query_loop fuel me throws delta func left right st.

Definition CountLocksForRange (d : DynamicLock) (left right : Z) : Z :=
  if array_size_ d =? 0 then 0
  else
    let (left, right) := normalize (array_size_ d) left right in
    let '(lock_start, lock_end) :=
      FindLocksSegmentUnlocked kBlocks (block_to_lock_ d) (block_size_ d) left right in
    lock_end -₆₄ lock_start +₆₄ 1.

(** ** Accessors *)

(** [std::chrono::duration<double, std::milli>(total).count()]. *)
Definition GetTotalLockTimeMs (d : DynamicLock) : double :=
  d_of_Z (total_lock_time_ d) /ᵈ d_of_Z 1000000.

Definition GetAvgLockTimeMs (d : DynamicLock) : double :=
  let operations := operation_count_ d in
  if operations =? 0 then d_zero
  else GetTotalLockTimeMs d /ᵈ d_of_Z operations.

Definition ResetRuntimeStats (d : DynamicLock) : DynamicLock :=
  let d := set_operation_count_ d 0 in
  set_total_lock_time_ d 0.

Definition GetRebuildCount (d : DynamicLock) : Z := rebuild_count_ d.
Definition GetOperationCount (d : DynamicLock) : Z := operation_count_ d.

Definition SetStatsSampleRate (d : DynamicLock) (sample_rate : Z) : DynamicLock :=
  set_stats_sample_rate_ d (Z.max sample_rate 1).

Definition PartitionCuts (d : DynamicLock) : list Z := partitions_ d.

End DynamicLock.

(** ** Statistics *)

Section Lemmas.
  Variables (kLockCnt kBlocks : Z).
  Context (HL : 0 < kLockCnt) (HB : 0 < kBlocks).

(** An array of [kBlocks] 64-bit counters. *)
Definition counters (a : list Z) : Prop := len a = kBlocks ∧ Forall is_u64 a.

Lemma counters_zero : counters (replicate (Z.to_nat kBlocks) 0).
Proof.
  split; [rewrite len_replicate; lia|]. apply Forall_replicate. apply is_u64_0.
Qed.

Lemma counters_set a i v : counters a → is_u64 v → counters (a.[i <- v]).
Proof.
  intros [Hl Hf] Hv. split; [by rewrite len_set|]. by apply Forall_insert.
Qed.

Lemma bump_counters lo right_block a : counters a → counters (bump kBlocks lo right_block a).
Proof.
  intros Ha. unfold bump. apply (for_range_const counters); [done|].
  intros. apply counters_set; [done|apply u64_add_range].
Qed.

(** [bump] adds one to the blocks [lo .. right_block] and to no other. *)
Lemma bump_get lo right_block a b :
  len a = kBlocks → 0 ≤ lo → right_block < kBlocks → 0 ≤ b < kBlocks →
  (bump kBlocks lo right_block a).[b] =
    if (lo <=? b) && (b <=? right_block) then a.[b] +₆₄ 1 else a.[b].
Proof.
  intros Ha Hlo Hr Hb. unfold bump. replace (Z.min _ _) with (right_block + 1) by lia.
  set (f := λ (i : Z) (a : list Z), a.[i <- a.[i] +₆₄ 1]).
  assert (∀ hi, lo ≤ hi ≤ kBlocks → let a' := for_range lo hi f a in
    len a' = kBlocks ∧
    ∀ b, 0 ≤ b < kBlocks → a'.[b] = if (lo <=? b) && (b <? hi) then a.[b] +₆₄ 1 else a.[b]) as H.
  { intros hi Hhi. apply (for_range_inv (λ i a', len a' = kBlocks ∧
      ∀ b, 0 ≤ b < kBlocks → a'.[b] = if (lo <=? b) && (b <? i) then a.[b] +₆₄ 1 else a.[b]));
      [lia| |].
    - split; [done|]. intros. by zbool.
    - intros i t Hi [Hl Ht]. unfold f. split; [by rewrite len_set|].
      intros c Hc. rewrite get_set by lia. rewrite !Ht by lia. zbool; simpl; congruence || lia. }
  destruct (decide (right_block + 1 < lo)).
  - rewrite for_range_empty by lia. by zbool.
  - destruct (H (right_block + 1) ltac:(lia)) as [_ ->]; [|done]. by zbool.
Qed.

Lemma snapshot_id a : len a = kBlocks → snapshot kBlocks a = a.
Proof.
  intros Ha. unfold snapshot.
  set (f := λ (i : Z) (s : list Z), s.[i <- a.[i]]).
  assert (let s := for_range 0 kBlocks f (replicate (Z.to_nat kBlocks) 0) in
    len s = kBlocks ∧ ∀ b, 0 ≤ b < kBlocks → s.[b] = a.[b]) as [Hl Hg].
  { apply (for_range_inv (λ i s, len s = kBlocks ∧ ∀ b, 0 ≤ b < i → s.[b] = a.[b])); [lia| |].
    - split; [rewrite len_replicate; lia|intros; lia].
    - intros i s Hi [Hl Hs]. unfold f. split; [by rewrite len_set|].
      intros b Hb. rewrite get_set by lia. destruct (Z.eqb_spec i b) as [<-|]; [done|apply Hs; lia]. }
  apply arr_ext; [lia|]. intros i Hi. apply Hg. lia.
Qed.

(** Zeroing the blocks one after the other gives the array of zeros. *)
Lemma zero_all (a : list Z) :
  len a = kBlocks →
  for_range 0 kBlocks (λ i a, a.[i <- 0]) a = replicate (Z.to_nat kBlocks) 0.
Proof.
  intros Ha.
  assert (let s := for_range 0 kBlocks (λ i a, a.[i <- 0]) a in
    len s = kBlocks ∧ ∀ b, 0 ≤ b < kBlocks → s.[b] = 0) as [Hl Hg].
  { apply (for_range_inv (λ i s, len s = kBlocks ∧ ∀ b, 0 ≤ b < i → s.[b] = 0)); [lia| |].
    - split; [done|intros; lia].
    - intros i s Hi [Hl Hs]. split; [by rewrite len_set|].
      intros b Hb. rewrite get_set by lia. destruct (Z.eqb_spec i b) as [<-|]; [done|apply Hs; lia]. }
  apply arr_ext; [rewrite len_replicate; lia|]. intros i Hi.
  rewrite Hg by lia. rewrite get_replicate by lia. done.
Qed.

Definition zeros : list Z := replicate (Z.to_nat kBlocks) 0.

Lemma clear_stats_spec (d : DynamicLock) :
  len (stats_ d) = kBlocks → len (boundary_crossings_ d) = kBlocks →
  clear_stats kBlocks d = {| d with stats_ := zeros; boundary_crossings_ := zeros |}.
Proof.
  intros Hs Hc. unfold zeros.
  rewrite <-(zero_all (stats_ d) Hs) at 1. rewrite <-(zero_all (boundary_crossings_ d) Hc).
  unfold clear_stats.
  apply (for_range_inv (λ i d', d' = {| d with
    stats_ := for_range 0 i (λ i a, a.[i <- 0]) (stats_ d);
    boundary_crossings_ := for_range 0 i (λ i a, a.[i <- 0]) (boundary_crossings_ d) |})); [lia| |].
  - rewrite !for_range_empty by lia. by destruct d.
  - intros i t Hi ->. simpl. rewrite !for_range_last by lia. done.
Qed.

(** ** The object invariant *)

(** What holds of a [DynamicLock] between two calls. *)
Record dl_ok (d : DynamicLock) : Prop := {
  ok_size : is_u64 (array_size_ d);
  ok_block : block_size_ d = init_block_size kBlocks (array_size_ d);
  ok_table : table_ok kLockCnt kBlocks (block_to_lock_ d);
  ok_cuts : cuts_weak kLockCnt kBlocks (partitions_ d);
  ok_match : table_matches kBlocks (block_to_lock_ d) (partitions_ d);
  ok_stats : counters (stats_ d);
  ok_crossings : counters (boundary_crossings_ d);
  ok_last : counters (last_stats_ d);
  ok_epoch : Z.odd (partition_epoch_ d) = false ∧ is_u64 (partition_epoch_ d);
  ok_rate : 1 ≤ stats_sample_rate_ d;
  ok_free : locks_ d = ∅
}.

Lemma make_ok n rate gain skew :
  kLockCnt * kBlocks < modulus64 → is_u64 n →
  dl_ok (make kLockCnt kBlocks n rate gain skew).
Proof.
  intros Hov Hn. pose proof (uniform_cuts_weak kLockCnt kBlocks HL HB Hov) as Hc.
  assert (len (replicate (Z.to_nat kBlocks) 0) = kBlocks) as Hz by (rewrite len_replicate; lia).
  split; simpl; try done; try lia.
  - by apply RefreshBlockToLock_ok.
  - by apply refresh_matches.
  - apply counters_zero; lia.
  - apply counters_zero; lia.
  - apply counters_zero; lia.
Qed.

Lemma segment_range d l r f e :
  dl_ok d → 0 ≤ l ≤ r →
  FindLocksSegmentUnlocked kBlocks (block_to_lock_ d) (block_size_ d) l r = (f, e) →
  0 ≤ f ≤ e ∧ e < kLockCnt.
Proof.
  intros Hd Hlr. apply (FindLocksSegment_range kLockCnt); [done|apply Hd| |done].
  rewrite (ok_block d Hd). pose proof (ok_size d Hd). apply init_block_size_pos; [done|].
  unfold is_u64 in *. lia.
Qed.

(** ** Rebuilding *)

(** The three ways a rebuild that ran can end. *)
Definition rejected (d : DynamicLock) : DynamicLock :=
  {| d with last_stats_ := stats_ d; stats_ := zeros;
            boundary_crossings_ := zeros; rebuild_flag_ := false |}.

Definition rebuilt (d : DynamicLock) (cuts : list Z) : DynamicLock :=
  {| d with partitions_ := cuts; partition_epoch_ := u64 (partition_epoch_ d + 2);
            block_to_lock_ := RefreshBlockToLock kLockCnt kBlocks cuts (block_to_lock_ d);
            last_stats_ := stats_ d; stats_ := zeros;
            boundary_crossings_ := zeros;
            rebuild_flag_ := false; pause_queries_ := false |}.

Definition interrupted (d : DynamicLock) : DynamicLock :=
  {| d with rebuild_flag_ := true; pause_queries_ := true |}.

(** The cuts a rebuild would choose. *)
Definition next_cuts (d : DynamicLock) : list Z :=
  OptimizePartitions kLockCnt kBlocks (prefix_sums kBlocks (stats_ d)) (boundary_crossings_ d).

Definition gains (d : DynamicLock) : bool :=
  HasEnoughPartitionGain kLockCnt (min_rebuild_gain_ d) (partitions_ d) (next_cuts d)
    (prefix_sums kBlocks (stats_ d)) (boundary_crossings_ d).

Lemma RebuildPartitions_eq me throws d :
  dl_ok d → rebuild_flag_ d = false →
  RebuildPartitions kLockCnt kBlocks me throws d =
    if gains d then
      if existsb throws (seqZ 0 kLockCnt) then (Thrown, interrupted d)
      else (Returned true, rebuilt d (next_cuts d))
    else (Returned false, rejected d).
Proof.
  intros Hd Hflag. unfold RebuildPartitions. rewrite Hflag.
  unfold SnapshotStats, SnapshotBoundaryCrossings; simpl.
  rewrite !snapshot_id by apply Hd. fold (next_cuts d).
  change (HasEnoughPartitionGain kLockCnt _ _ _ _ _) with (gains d).
  destruct (gains d); simpl.
  - destruct (construct_cases me throws 0 (kLockCnt - 1) (locks_ d)) as (locks' & Hh & ->); [lia| |].
    { rewrite (ok_free d Hd). apply range_free_empty. }
    replace (kLockCnt - 1 - 0 + 1) with kLockCnt in * by lia.
    destruct (existsb throws _); [by destruct d|]. unfold publish.
    rewrite clear_stats_spec by apply Hd. simpl.
    pose proof (destroy_spec me 0 (kLockCnt - 1) (locks_ d) locks' ltac:(lia)) as Hdes.
    replace (kLockCnt - 1 - 0 + 1) with kLockCnt in * by lia.
    rewrite Hdes; [|rewrite (ok_free d Hd); apply range_free_empty|done].
    unfold rebuilt. by rewrite <-u64_add_twice.
  - unfold ResetCollectedStatsUnlocked. rewrite clear_stats_spec by apply Hd. done.
Qed.

Lemma next_cuts_weak d : cuts_weak kLockCnt kBlocks (next_cuts d).
Proof. unfold next_cuts. apply OptimizePartitions_weak_lemma; lia. Qed.

Lemma rejected_ok d : dl_ok d → dl_ok (rejected d).
Proof. intros []. split; simpl; try done; by apply counters_zero. Qed.

Lemma rebuilt_ok d cuts : dl_ok d → cuts_weak kLockCnt kBlocks cuts → dl_ok (rebuilt d cuts).
Proof.
  intros [] Hc. split; simpl; try done; try by apply counters_zero.
  - apply RefreshBlockToLock_ok; [done..|apply ok_table0].
  - apply refresh_matches; [done..|apply ok_table0].
  - split; [by apply odd_u64_plus_2, ok_epoch0|apply u64_range].
Qed.

Lemma RebuildPartitions_ok me throws d : dl_ok d → dl_ok (RebuildPartitions kLockCnt kBlocks me throws d).2.
Proof.
  intros Hd. destruct (rebuild_flag_ d) eqn:Hf.
  - unfold RebuildPartitions. by rewrite Hf.
  - rewrite RebuildPartitions_eq by done. destruct (gains d); [destruct (existsb _ _)|]; simpl.
    + destruct Hd. by split.
    + apply rebuilt_ok; [done|apply next_cuts_weak].
    + by apply rejected_ok.
Qed.

Lemma count_rebuild_ok r : dl_ok r.2 → dl_ok (count_rebuild r).2.
Proof. destruct r as [[[]|] d]; simpl; intros []; by split. Qed.

(** ** Queries *)

(** The object after a query that ran: the bookkeeping, nothing else. *)
Definition counted (d : DynamicLock) (delta counter l r : Z) : DynamicLock :=
  let d1 := {| d with total_lock_time_ := total_lock_time_ d + delta;
                      operation_count_ := operation_count_ d +₆₄ 1 |} in
  if (ShouldSampleStats d counter).1 then UpdateStats kBlocks d1 l r else d1.

Definition segment (d : DynamicLock) (l r : Z) : Z * Z :=
  FindLocksSegmentUnlocked kBlocks (block_to_lock_ d) (block_size_ d) l r.

(** The indices of the mutexes a query on [l, r] takes. *)
Definition segment_locks (d : DynamicLock) (l r : Z) : list Z :=
  seqZ (segment d l r).1 ((segment d l r).2 - (segment d l r).1 + 1).

Lemma attempt_eq {D : Type} me throws delta (func : Z → Z → D → D) l r d counter data :
  dl_ok d → 0 ≤ l ≤ r →
  attempt kBlocks me throws delta func l r (d, counter, data) =
    if existsb throws (segment_locks d l r) then Threw (d, counter, data)
    else Ran (counted d delta counter l r, (ShouldSampleStats d counter).2, func l r data).
Proof.
  intros Hd Hlr. unfold attempt, segment_locks, segment. rewrite (proj1 (ok_epoch d Hd)).
  destruct (FindLocksSegmentUnlocked _ _ _ l r) as [f e] eqn:Hseg.
  pose proof (segment_range d l r f e Hd Hlr Hseg). simpl.
  destruct (Z.ltb_spec e f); [lia|].
  assert (range_free f e (locks_ d)) as Hfree by (rewrite (ok_free d Hd); apply range_free_empty).
  destruct (construct_cases me throws f e (locks_ d)) as (locks' & Hh & ->); [lia|done|].
  destruct (existsb throws _); [by destruct d|].
  change (partition_epoch_ (set_locks_ d locks')) with (partition_epoch_ d).
  rewrite Z.eqb_refl, (proj1 (ok_epoch d Hd)). simpl.
  change (ShouldSampleStats (set_operation_count_ _ _) counter) with (ShouldSampleStats d counter).
  unfold counted. destruct (ShouldSampleStats d counter) as [[] c]; simpl.
  all: rewrite (destroy_spec me f e (locks_ d) locks') by done || lia; done.
Qed.

Lemma query_loop_eq {D : Type} fuel me throws delta (func : Z → Z → D → D) l r d counter data :
  dl_ok d → 0 ≤ l ≤ r → pause_queries_ d = false → (1 ≤ fuel)%nat →
  query_loop kBlocks fuel me throws delta func l r (d, counter, data) =
    if existsb throws (segment_locks d l r) then Some (Thrown, (d, counter, data))
    else Some (Returned tt,
      (counted d delta counter l r, (ShouldSampleStats d counter).2, func l r data)).
Proof.
  intros Hd Hlr Hp Hf. destruct fuel as [|fuel]; [lia|]. cbn [query_loop fst]. rewrite Hp.
  rewrite attempt_eq by done. by destruct (existsb _ _).
Qed.

(** While the queries are paused the loop only spins. *)
Lemma query_loop_paused {D : Type} fuel me throws delta (func : Z → Z → D → D) l r st :
  pause_queries_ st.1.1 = true → query_loop kBlocks fuel me throws delta func l r st = None.
Proof. intros Hp. induction fuel as [|n IH]; [done|]. cbn [query_loop]. by rewrite Hp. Qed.

Lemma counted_ok d delta counter l r : dl_ok d → dl_ok (counted d delta counter l r).
Proof.
  intros []. unfold counted. destruct (ShouldSampleStats d counter) as [[] c]; simpl; split; simpl; try done.
  all: by apply bump_counters.
Qed.

(** ** Method calls *)

Lemma ForceSaveStats_ok d : dl_ok d → dl_ok (ForceSaveStats kBlocks d).
Proof.
  intros Hd. unfold ForceSaveStats. apply (for_range_const dl_ok); [done|].
  intros i t Hi []. split; simpl; try done; apply counters_set; try done; try apply is_u64_0.
  destruct ok_stats0 as [Hl Hu]. apply get_Forall; [done|lia].
Qed.

Lemma clear_stats_ok d : dl_ok d → dl_ok (clear_stats kBlocks d).
Proof.
  intros Hd. rewrite clear_stats_spec by apply Hd. destruct Hd. split; simpl; try done; by apply counters_zero.
Qed.

Lemma ShouldRebuild_ok threshold d : dl_ok d → dl_ok (ShouldRebuild kBlocks d threshold).2.
Proof.
  intros Hd. unfold ShouldRebuild, SnapshotStats. rewrite !snapshot_id by apply Hd.
  destruct (judge _ _ _ _ _); simpl; try done.
  - apply clear_stats_ok. destruct Hd. by split.
  - destruct Hd. by split.
Qed.

(** Any sequence of calls by one thread at a time, whatever the clock, the
    sampling counters, [func], the exceptions of [lock()] and the thresholds. *)
Inductive method_call : DynamicLock → DynamicLock → Prop :=
  | call_query (D : Type) fuel me throws delta l r (func : Z → Z → D → D) counter data d out d' counter' data' :
      is_u64 l → is_u64 r →
      WriteQuery kBlocks fuel me throws delta l r func (d, counter, data) = Some (out, (d', counter', data')) →
      method_call d d'
  | call_RebuildNow me throws d : method_call d (RebuildNow kLockCnt kBlocks me throws d).2
  | call_round me throws threshold d :
      method_call d (rebuilder_round kLockCnt kBlocks me throws threshold d).2
  | call_ForceSaveStats d : method_call d (ForceSaveStats kBlocks d)
  | call_StartRebuilder d : method_call d (StartRebuilder d)
  | call_StopRebuilder d : method_call d (StopRebuilder d)
  | call_ResetRuntimeStats d : method_call d (ResetRuntimeStats d)
  | call_SetStatsSampleRate d rate : is_u64 rate → method_call d (SetStatsSampleRate d rate).

Lemma WriteQuery_ok {D : Type} fuel me throws delta l r (func : Z → Z → D → D) counter data d out st :
  is_u64 l → is_u64 r → dl_ok d →
  WriteQuery kBlocks fuel me throws delta l r func (d, counter, data) = Some (out, st) → dl_ok st.1.1.
Proof.
  intros Hl Hr Hd. unfold WriteQuery. cbn [fst].
  destruct (Z.eqb_spec (array_size_ d) 0); [by intros [= _ <-]|].
  pose proof (ok_size d Hd). unfold is_u64 in *.
  destruct (normalize (array_size_ d) l r) as [l' r'] eqn:Hn.
  apply normalize_range in Hn; [|lia..].
  destruct fuel as [|fuel]; [done|]. destruct (pause_queries_ d) eqn:Hp.
  - rewrite query_loop_paused by done. done.
  - rewrite query_loop_eq by done || lia. destruct (existsb _ _); intros [= _ <-]; [done|].
    by apply counted_ok.
Qed.

Lemma RebuildNow_ok me throws d : dl_ok d → dl_ok (RebuildNow kLockCnt kBlocks me throws d).2.
Proof.
  intros Hd. unfold RebuildNow. destruct (_ =? 0); [done|].
  by apply count_rebuild_ok, RebuildPartitions_ok.
Qed.

Lemma rebuilder_round_ok me throws threshold d :
  dl_ok d → dl_ok (rebuilder_round kLockCnt kBlocks me throws threshold d).2.
Proof.
  intros Hd. apply (ShouldRebuild_ok threshold) in Hd. unfold rebuilder_round.
  destruct (ShouldRebuild _ _ _) as [[] d1]; [|done].
  by apply count_rebuild_ok, RebuildPartitions_ok.
Qed.

Lemma method_call_ok d d' : dl_ok d → method_call d d' → dl_ok d'.
Proof.
  intros Hd Hc. destruct Hc as [D fuel me throws delta l r func c data d out d' c' data' Hl Hr Hq
    |me throws d|me throws th d|d|d|d|d|d rate Hrate].
  - change d' with ((d', c', data').1.1). exact (WriteQuery_ok fuel me throws delta l r func c data d out _ Hl Hr Hd Hq).
  - by apply RebuildNow_ok.
  - by apply rebuilder_round_ok.
  - by apply ForceSaveStats_ok.
  - unfold StartRebuilder. destruct (rebuild_thread_ d); [done|]. destruct Hd. by split.
  - unfold StopRebuilder. destruct Hd. simpl. destruct (rebuild_thread_ d); by split.
  - destruct Hd. by split.
  - destruct Hd. split; simpl; try done. lia.
Qed.

End Lemmas.

(** ** Properties *)

(** C5. [DynamicLock] keeps its invariant: after the constructor and any
    sequence of method calls (queries with arbitrary clocks, counters and
    exceptions, rebuilds, rebuilder rounds, [ForceSaveStats], [StartRebuilder],
    [StopRebuilder], resets) the cuts are non-decreasing from [0] to [kBlocks],
    the block-to-lock table is exactly the one of the cuts and indexes existing
    mutexes, the statistics arrays keep their size and width, the epoch is even
    and no mutex is left locked. *)
Theorem DynamicLock_invariant kLockCnt kBlocks n rate gain skew d :
  0 < kLockCnt → 0 < kBlocks → kLockCnt * kBlocks < modulus64 → is_u64 n →
  rtc (method_call kLockCnt kBlocks) (make kLockCnt kBlocks n rate gain skew) d →
  dl_ok kLockCnt kBlocks d.
Proof.
  intros HL HB Hov Hn Hr. pose proof (make_ok kLockCnt kBlocks HL HB n rate gain skew Hov Hn) as H0.
  induction Hr as [|d d' d'' Hstep _ IH]; [done|].
  apply IH. exact (method_call_ok kLockCnt kBlocks HL HB _ _ H0 Hstep).
Qed.

Lemma DynamicLock_invariant_witness :
  let d0 := make 4 16 100 1 d_one d_one in
  let d1 := StartRebuilder d0 in
  dl_ok 4 16 d1 ∧ collect_stats_ d1 = true.
Proof.
  split; [|reflexivity].
  apply (DynamicLock_invariant 4 16 100 1 d_one d_one); [lia|lia|by vm_compute|by vm_compute|].
  eapply rtc_l; [apply call_StartRebuilder|apply rtc_refl].
Defined.

(** C6. [WriteQuery] in an object that is not being rebuilt returns, and does
    exactly its contract: it takes the mutexes of the segment of the clamped
    and ordered query, runs [func] exactly once on that interval, adds one to the
    operation count and the waiting time to the total, records the query in the
    statistics when it is sampled, changes nothing else, and releases every
    mutex. If [lock()] throws on a mutex of the segment, [func] does not run and
    the object is unchanged. *)
Theorem WriteQuery_correct {D : Type} kLockCnt kBlocks fuel me throws delta l r
    (func : Z → Z → D → D) d counter data :
  0 < kLockCnt → 0 < kBlocks → dl_ok kLockCnt kBlocks d →
  array_size_ d ≠ 0 → pause_queries_ d = false → is_u64 l → is_u64 r → (1 ≤ fuel)%nat →
  let left := Z.min (Z.min l r) (array_size_ d - 1) in
  let right := Z.min (Z.max l r) (array_size_ d - 1) in
  WriteQuery kBlocks fuel me throws delta l r func (d, counter, data) =
    if existsb throws (segment_locks kBlocks d left right)
    then Some (Thrown, (d, counter, data))
    else Some (Returned tt, (counted kBlocks d delta counter left right,
                             (ShouldSampleStats d counter).2, func left right data)).
Proof.
  intros HL HB Hd Hn Hp Hl Hr Hf left right. unfold WriteQuery. cbn [fst].
  pose proof (ok_size _ _ d Hd). unfold is_u64 in *.
  destruct (Z.eqb_spec (array_size_ d) 0); [done|].
  rewrite normalize_spec by lia.
  replace (Z.min (Z.min l _) _) with left by lia. replace (Z.max _ _) with right by lia.
  by apply (query_loop_eq kLockCnt); [..|lia|done|].
Qed.

Lemma WriteQuery_correct_witness :
  let d := make 4 16 100 1 d_one d_one in
  (∃ d', WriteQuery 16 1 7 (λ _, false) 5 90 20 (λ l r x, l + r + x) (d, 0, 0) =
     Some (Returned tt, (d', 0, 110)) ∧ operation_count_ d' = 1) ∧
  WriteQuery 16 1 7 (λ _, false) 5 90 20 (λ l r x, l + r + x) (d, 0, 0) =
    Some (Returned tt, (counted 16 d 5 0 20 90, 0, 20 + 90 + 0)).
Proof.
  split; [eexists; vm_compute; split; reflexivity|].
  apply (WriteQuery_correct 4 16 1 7 (λ _, false) 5 90 20 (λ l r x, l + r + x));
    try (lia || done || by vm_compute).
  apply make_ok; try lia; by vm_compute.
Defined.

(** C7. [RebuildPartitions], when no other rebuild runs and no [lock()] throws,
    returns whether it published: if the gain is enough it installs the cuts of
    [OptimizePartitions], the table that matches them and an even epoch two
    higher; otherwise cuts, table and epoch are untouched. In both cases the
    statistics are moved to [last_stats_] and cleared, and no flag and no mutex
    stays set. When the statistics fit in 64 bits the published cuts are of
    minimal cost among all partitions with non-empty segments. *)
Theorem RebuildPartitions_correct kLockCnt kBlocks me d b d' :
  0 < kLockCnt ≤ kBlocks → dl_ok kLockCnt kBlocks d → rebuild_flag_ d = false →
  RebuildPartitions kLockCnt kBlocks me (λ _, false) d = (Returned b, d') →
  dl_ok kLockCnt kBlocks d' ∧ b = gains kLockCnt kBlocks d ∧
  last_stats_ d' = stats_ d ∧ stats_ d' = zeros kBlocks ∧ boundary_crossings_ d' = zeros kBlocks ∧
  rebuild_flag_ d' = false ∧
  (b = false → partitions_ d' = partitions_ d ∧ block_to_lock_ d' = block_to_lock_ d ∧
     partition_epoch_ d' = partition_epoch_ d ∧ pause_queries_ d' = pause_queries_ d) ∧
  (b = true → partitions_ d' = next_cuts kLockCnt kBlocks d ∧ pause_queries_ d' = false ∧
     partition_epoch_ d' = u64 (partition_epoch_ d + 2) ∧
     table_matches kBlocks (block_to_lock_ d') (partitions_ d') ∧
     (stats_fit kBlocks (stats_ d) (boundary_crossings_ d) →
      cuts_valid kLockCnt kBlocks (partitions_ d') ∧
      ∀ cuts, cuts_valid kLockCnt kBlocks cuts →
        PartitionCost kLockCnt (partitions_ d') (prefix_sums kBlocks (stats_ d)) (boundary_crossings_ d)
        ≤ PartitionCost kLockCnt cuts (prefix_sums kBlocks (stats_ d)) (boundary_crossings_ d))).
Proof.
  intros HL Hd Hflag Heq.
  pose proof (RebuildPartitions_ok kLockCnt kBlocks ltac:(lia) ltac:(lia) me (λ _, false) d Hd) as Hok.
  rewrite Heq in Hok. rewrite RebuildPartitions_eq in Heq by (done || lia).
  rewrite existsb_never in Heq. split; [done|]. pose proof (ok_match _ _ d' Hok).
  destruct (gains kLockCnt kBlocks d); injection Heq as <- <-; split_and!; try done; simpl.
  intros _. split_and!; try done. intros Hfit. apply stats_fit_budget in Hfit; [|lia..].
  split; [apply OptimizePartitions_valid_lemma; done || lia|].
  intros cuts Hv. apply OptimizePartitions_least; done || lia.
Qed.

(** A lock whose hits are all in the first half. *)
Definition hot_example : DynamicLock :=
  let d := make 2 4 8 1 d_one d_one in {| d with stats_ := [9; 9; 0; 0] |}.

Lemma hot_example_ok : dl_ok 2 4 hot_example.
Proof.
  assert (dl_ok 2 4 (make 2 4 8 1 d_one d_one)) as [] by (apply make_ok; try lia; by vm_compute).
  split; simpl; try done. split; [done|repeat constructor; by vm_compute].
Qed.

Lemma RebuildPartitions_correct_witness :
  let r := RebuildPartitions 2 4 0 (λ _, false) hot_example in
  r.1 = Returned true ∧ partitions_ r.2 = [0; 1; 4] ∧ dl_ok 2 4 r.2 ∧ stats_ r.2 = [0; 0; 0; 0].
Proof.
  intros r. assert (r.1 = Returned true) as Hr by (vm_compute; reflexivity).
  split; [exact Hr|]. split; [vm_compute; reflexivity|].
  edestruct (RebuildPartitions_correct 2 4 0 hot_example true r.2) as (Hok & _ & _ & Hz & _);
    [lia|apply hot_example_ok|reflexivity|rewrite <-Hr; apply surjective_pairing|].
  exact (conj Hok Hz).
Defined.

(** C8. A rebuild is not exception safe: if the gain is enough and a [lock()]
    throws while [RebuildPartitions] takes all the mutexes, the guard gives the
    mutexes back but [pause_queries_] and [rebuild_flag_] stay set; from then on
    no [WriteQuery] returns, however long it is run, and every later rebuild
    gives up at once. *)
Theorem RebuildPartitions_throw_blocks {D : Type} kLockCnt kBlocks me throws d i :
  0 < kLockCnt → 0 < kBlocks → dl_ok kLockCnt kBlocks d → array_size_ d ≠ 0 →
  rebuild_flag_ d = false → gains kLockCnt kBlocks d = true →
  0 ≤ i < kLockCnt → throws i = true →
  let d' := (RebuildPartitions kLockCnt kBlocks me throws d).2 in
  (RebuildPartitions kLockCnt kBlocks me throws d).1 = Thrown ∧ locks_ d' = locks_ d ∧
  (∀ fuel me throws delta l r (func : Z → Z → D → D) counter data,
     WriteQuery kBlocks fuel me throws delta l r func (d', counter, data) = None) ∧
  (∀ me throws, RebuildPartitions kLockCnt kBlocks me throws d' = (Returned false, d')).
Proof.
  intros HL HB Hd Hn Hflag Hgain Hi Ht. rewrite RebuildPartitions_eq by done. rewrite Hgain.
  replace (existsb throws (seqZ 0 kLockCnt)) with true.
  - simpl. split_and!; try done. intros. unfold WriteQuery; simpl.
    destruct (Z.eqb_spec (array_size_ d) 0); [done|].
    destruct (normalize _ _ _). by apply query_loop_paused.
  - symmetry. apply existsb_exists. exists i. split; [|done].
    apply list_elem_of_In, elem_of_seqZ. lia.
Qed.

Lemma RebuildPartitions_throw_blocks_witness :
  gains 2 4 hot_example = true ∧
  (RebuildPartitions 2 4 0 (λ i, i =? 1) hot_example).1 = Thrown ∧
  WriteQuery 4 1000 1 (λ _, false) 0 3 3 (λ _ _ x, x + 1)
    ((RebuildPartitions 2 4 0 (λ i, i =? 1) hot_example).2, 0, 0) = None.
Proof.
  assert (gains 2 4 hot_example = true) as Hg by (vm_compute; reflexivity).
  destruct (RebuildPartitions_throw_blocks (D:=Z) 2 4 0 (λ i, i =? 1) hot_example 1)
    as (Hthrow & _ & Hq & _);
    [lia|lia|apply hot_example_ok|done|reflexivity|exact Hg|lia|reflexivity|].
  split; [exact Hg|]. split; [exact Hthrow|]. apply Hq.
Defined.

(** [CountLocksForRange] is the number of mutexes that a query on the range
    holds while it runs, it is between [1] and [kLockCnt], and it does not
    depend on the order of the two ends. *)
Theorem CountLocksForRange_correct kLockCnt kBlocks d l r :
  0 < kLockCnt < modulus64 → 0 < kBlocks → dl_ok kLockCnt kBlocks d → array_size_ d ≠ 0 →
  is_u64 l → is_u64 r →
  let (left, right) := normalize (array_size_ d) l r in
  CountLocksForRange kBlocks d l r = len (segment_locks kBlocks d left right) ∧
  1 ≤ CountLocksForRange kBlocks d l r ≤ kLockCnt ∧
  CountLocksForRange kBlocks d r l = CountLocksForRange kBlocks d l r.
Proof.
  intros HL HB Hd Hn Hl Hr. pose proof (ok_size _ _ d Hd). unfold is_u64 in *.
  assert (normalize (array_size_ d) r l = normalize (array_size_ d) l r) as Hsym.
  { rewrite !normalize_spec by lia. f_equal; lia. }
  destruct (normalize (array_size_ d) l r) as [left right] eqn:Hnorm.
  pose proof (normalize_range (array_size_ d) l r left right ltac:(lia) ltac:(lia) ltac:(lia) Hnorm).
  unfold CountLocksForRange. rewrite Hsym, Hnorm. destruct (Z.eqb_spec (array_size_ d) 0); [done|].
  unfold segment_locks, segment. destruct (FindLocksSegmentUnlocked _ _ _ _ _) as [f e] eqn:Hseg.
  pose proof (segment_range kLockCnt kBlocks HB d left right f e Hd ltac:(lia) Hseg). simpl.
  rewrite len_seqZ by lia. rewrite u64_sub_small by lia. rewrite u64_add_small by lia. lia.
Qed.

Lemma CountLocksForRange_correct_witness :
  let d := make 4 16 100 1 d_one d_one in
  CountLocksForRange 16 d 90 20 = 4 ∧ 1 ≤ CountLocksForRange 16 d 90 20 ≤ 4.
Proof.
  split; [vm_compute; reflexivity|].
  apply (CountLocksForRange_correct 4 16 (make 4 16 100 1 d_one d_one) 90 20);
    [by vm_compute|lia|apply make_ok; try lia; by vm_compute|done|by vm_compute..].
Defined.

(** [UpdateStats] adds one hit to every block the query touches and one
    crossing to every block boundary inside it, and to no other block. *)
Theorem UpdateStats_correct kLockCnt kBlocks d l r b :
  0 < kLockCnt → 0 < kBlocks → dl_ok kLockCnt kBlocks d → 0 ≤ l ≤ r → 0 ≤ b < kBlocks →
  let left_block := PositionToBlock kBlocks (block_size_ d) l in
  let right_block := PositionToBlock kBlocks (block_size_ d) r in
  (stats_ (UpdateStats kBlocks d l r)).[b] =
    (if (left_block <=? b) && (b <=? right_block) then (stats_ d).[b] +₆₄ 1 else (stats_ d).[b]) ∧
  (boundary_crossings_ (UpdateStats kBlocks d l r)).[b] =
    (if (left_block <? b) && (b <=? right_block)
     then (boundary_crossings_ d).[b] +₆₄ 1 else (boundary_crossings_ d).[b]).
Proof.
  intros HL HB Hd Hlr Hb left_block right_block.
  assert (1 ≤ block_size_ d) as Hs.
  { rewrite (ok_block _ _ d Hd). pose proof (ok_size _ _ d Hd).
    apply init_block_size_pos; [done|]. unfold is_u64 in *. lia. }
  pose proof (PositionToBlock_range kBlocks HB (block_size_ d) l Hs ltac:(lia)) as H.
  pose proof (PositionToBlock_range kBlocks HB (block_size_ d) r Hs ltac:(lia)) as H0.
  unfold UpdateStats; simpl. fold left_block right_block.
  fold left_block in H. fold right_block in H0.
  rewrite !bump_get by (try apply Hd; lia). split; [done|].
  by destruct (Z.leb_spec (left_block + 1) b), (Z.ltb_spec left_block b); try lia.
Qed.

Lemma UpdateStats_correct_witness :
  stats_ (UpdateStats 4 hot_example 1 5) = [10; 10; 1; 0] ∧
  (boundary_crossings_ (UpdateStats 4 hot_example 1 5)).[2] = 1.
Proof.
  split; [vm_compute; reflexivity|].
  apply (UpdateStats_correct 2 4 hot_example 1 5 2); [lia|lia|apply hot_example_ok|lia|lia].
Defined.

(** The rebuilder thread sleeps exactly its interval in steps of at most
    50 ms when it is not stopped, and reacts to [StopRebuilder] within one step:
    as soon as a load of [stop_rebuilder_] gives [true], no further step is slept. *)
Theorem rebuilder_sleep fuel stop k interval slept :
  0 ≤ slept ≤ interval → (Z.to_nat (interval - slept) < fuel)%nat →
  ∃ steps k', sleep_loop fuel stop k interval slept = Some (steps, k') ∧
    Forall (λ s, 0 < s ≤ 50) steps ∧ zsum steps ≤ interval - slept ∧
    k' = (k + S (length steps))%nat ∧
    (∀ j, (k ≤ j < k + length steps)%nat → stop j = false) ∧
    (zsum steps < interval - slept → stop (k + length steps)%nat = true).
Proof.
  revert k slept. induction fuel as [|fuel IH]; intros k slept Hs Hf; [lia|]. cbn [sleep_loop].
  destruct (stop k) eqn:Hst; simpl.
  { exists [], (S k). simpl. rewrite Nat.add_0_r. split_and!; try done; try lia. }
  destruct (Z.ltb_spec slept interval).
  - destruct (IH (S k) (slept + Z.min 50 (interval - slept))) as (steps & k' & -> & Hall & Hsum & -> & Hno & Hend);
      [lia|lia|].
    exists (Z.min 50 (interval - slept) :: steps), (S k + S (length steps))%nat. simpl.
    split_and!; [done|constructor; [lia|done]|lia|lia| |].
    + intros j Hj. destruct (decide (j = k)) as [->|]; [done|]. apply Hno. lia.
    + intros Hlt. rewrite <-Nat.add_succ_comm. apply Hend. lia.
  - exists [], (S k). simpl. split_and!; try done; lia.
Qed.

Lemma rebuilder_sleep_witness :
  sleep_loop 200 (λ _, false) 0 120 0 = Some ([50; 50; 20], 4%nat) ∧
  ∃ steps k', sleep_loop 200 (λ j, Nat.eqb j 1) 0 120 0 = Some (steps, k') ∧ zsum steps ≤ 120 - 0.
Proof.
  split; [vm_compute; reflexivity|].
  destruct (rebuilder_sleep 200 (λ j, Nat.eqb j 1) 0 120 0) as (steps & k' & H & _ & Hs & _); [lia|lia|].
  exists steps, k'. exact (conj H Hs).
Defined.
