(* ===== verification/DynamicProtocol.v ===== *)
(** Concurrency of [DynamicLock].

    Every method of [dynamic/dynamic_lock.hpp] that touches the shared state, one
    step per access: the queries are the threads of [QueryProtocol]; this file
    adds the threads that run [RebuildPartitions] (from [RebuildNow] or from the
    rebuilder thread), [ShouldRebuild], [ForceSaveStats], [CountLocksForRange]
    and [PartitionCuts], with [partitions_mutex_], [stats_mutex_] and the flags,
    in any number and in any interleaving. It discharges the contract
    [Publisher] and derives, for the whole class, that running queries exclude
    each other and are isolated, that [CountLocksForRange] never underflows, and
    that the class cannot deadlock. *)
From S2P Require Import Double BlockMap PartitionDP DynamicLock QueryProtocol Prelude.

(** The members that only the holders of a mutex or the running queries use,
    and [array], the data the queries protect. *)
Record Client := {
  stats : list Z;
  crossings : list Z;
  last_stats : list Z;
  partitions : list Z;
  partitions_mutex : option nat;
  stats_mutex : option nat;
  rebuild_flag : bool;
  rebuild_count : Z;
  operation_count : Z;
  total_lock_time : Z;
  array : gmap Z Z
}.

(** Where a thread goes on after the loop that zeroes the statistics. *)
Inductive after_clear := KShould | KRejected | KPublished.

(** Program counters, by method. *)
Inductive ppc :=
  (* CountLocksForRange *)
  | CountLock (l r : Z) | CountLeft (l r : Z) | CountRight (l r first : Z)
  | CountUnlock (l r first last : Z)
  (* PartitionCuts *)
  | CutsLock | CutsCopy | CutsUnlock (cuts : list Z)
  (* ForceSaveStats *)
  | ForceLock | ForceExchange (i : Z) | ForceLast (i v : Z) | ForceCrossing (i : Z) | ForceUnlock
  (* ShouldRebuild *)
  | ShouldLock (threshold : double) | ShouldSnap (threshold : double) (i : Z) (cs : list Z)
  | ShouldJudge (threshold : double) (cs : list Z) | ShouldKeep (cs : list Z)
  | ShouldReset (cs : list Z) | ShouldUnlock (rebuild : bool)
  (* RebuildNow *)
  | NowSnap (i : Z) (cs : list Z) | NowTotal (cs : list Z)
  (* RebuildPartitions: the plan *)
  | RFlag | RSnap (i : Z) (cs : list Z) | RCross (i : Z) (cs cb : list Z) | RPlan (cs cb : list Z)
  | RGainLock (cs cb np : list Z) | RGain (cs cb np : list Z) | RGainUnlock (cs np : list Z)
  (* the plan is rejected *)
  | RRejectLock (cs : list Z) | RRejectLast (cs : list Z) | RRejectFlag
  | RRejectUnlockStats | RRejectUnlockParts
  (* the plan is published *)
  | RPause (cs np : list Z) | RLock (next : Z) (cs np : list Z) | RParts (cs np : list Z)
  | RStats (cs np : list Z) | RPublish (cs np : list Z) | REpochOdd (cs : list Z)
  | RRefresh (block lock_index : Z) (cs : list Z) | REpochEven (cs : list Z) | RLast (cs : list Z)
  | RUnlockStats | RUnlockParts | RFlagOff | RUnpause | RUnlock (n : Z) | RCount
  (* the loop of stores of zero, in three of the methods *)
  | ClearStats (k : after_clear) (i : Z) | ClearCrossings (k : after_clear) (i : Z).

(** Inside [partitions_mutex_] and inside [stats_mutex_]. *)
Definition in_parts (p : ppc) : bool :=
  match p with
  | CountLeft _ _ | CountRight _ _ _ | CountUnlock _ _ _ _ | CutsCopy | CutsUnlock _
  | RGain _ _ _ | RGainUnlock _ _ | RRejectLock _ | RRejectLast _ | RRejectFlag
  | RRejectUnlockStats | RRejectUnlockParts | RStats _ _ | RPublish _ _ | REpochOdd _
  | RRefresh _ _ _ | REpochEven _ | RLast _ | RUnlockStats | RUnlockParts
  | ClearStats KRejected _ | ClearCrossings KRejected _
  | ClearStats KPublished _ | ClearCrossings KPublished _ => true
  | _ => false
  end.

Definition in_stats (p : ppc) : bool :=
  match p with
  | ForceExchange _ | ForceLast _ _ | ForceCrossing _ | ForceUnlock
  | ShouldSnap _ _ _ | ShouldJudge _ _ | ShouldKeep _ | ShouldReset _ | ShouldUnlock _
  | RRejectLast _ | RRejectFlag | RRejectUnlockStats | RPublish _ _ | REpochOdd _
  | RRefresh _ _ _ | REpochEven _ | RLast _ | RUnlockStats
  | ClearStats _ _ | ClearCrossings _ _ => true
  | _ => false
  end.

Section DynamicProtocol.
  Variables (kLockCnt kBlocks array_size : Z) (min_rebuild_gain min_rebuild_skew : double).

Let block_size := init_block_size kBlocks array_size.

(** What a running query does: the accounting, the statistics, and [func], which
    works on the positions of the query. *)
Inductive in_query (l r : Z) : Client → Client → Prop :=
  | query_duration x delta :
      in_query l r x {| x with total_lock_time := total_lock_time x + delta |}
  | query_operation x :
      in_query l r x {| x with operation_count := operation_count x +₆₄ 1 |}
  | query_hit x b :
      PositionToBlock kBlocks block_size l ≤ b ≤ PositionToBlock kBlocks block_size r →
      in_query l r x {| x with stats := (stats x).[b <- (stats x).[b] +₆₄ 1] |}
  | query_crossing x b :
      PositionToBlock kBlocks block_size l < b ≤ PositionToBlock kBlocks block_size r →
      in_query l r x {| x with crossings := (crossings x).[b <- (crossings x).[b] +₆₄ 1] |}
  | query_func x a :
      (∀ p, ¬ (l ≤ p ≤ r) → a !! p = array x !! p) →
      in_query l r x {| x with array := a |}.

(** Where the zeroing loop ends up. *)
Definition cleared (k : after_clear) : ppc :=
  match k with
  | KShould => ShouldUnlock false
  | KRejected => RRejectFlag
  | KPublished => RUnlockStats
  end.

Definition no_stats : list Z := replicate (Z.to_nat kBlocks) 0.

(** Steps that read the shared fields and change the client's. *)
Inductive cstep (t : nat) (sh : Shared) : ppc → Client → option ppc → Client → Prop :=
  (* CountLocksForRange *)
  | c_lock l r x : partitions_mutex x = None →
      cstep t sh (CountLock l r) x (Some (CountLeft l r)) {| x with partitions_mutex := Some t |}
  | c_left l r x :
      cstep t sh (CountLeft l r) x
        (Some (CountRight l r ((table sh).[PositionToBlock kBlocks block_size l]))) x
  | c_right l r first x :
      cstep t sh (CountRight l r first) x
        (Some (CountUnlock l r first ((table sh).[PositionToBlock kBlocks block_size r]))) x
  | c_unlock l r first last x :
      cstep t sh (CountUnlock l r first last) x None {| x with partitions_mutex := None |}
  (* PartitionCuts *)
  | cuts_lock x : partitions_mutex x = None →
      cstep t sh CutsLock x (Some CutsCopy) {| x with partitions_mutex := Some t |}
  | cuts_copy x : cstep t sh CutsCopy x (Some (CutsUnlock (partitions x))) x
  | cuts_unlock cuts x : cstep t sh (CutsUnlock cuts) x None {| x with partitions_mutex := None |}
  (* ForceSaveStats *)
  | force_lock x : stats_mutex x = None →
      cstep t sh ForceLock x (Some (ForceExchange 0)) {| x with stats_mutex := Some t |}
  | force_exchange i x : i < kBlocks →
      cstep t sh (ForceExchange i) x (Some (ForceLast i ((stats x).[i])))
        {| x with stats := (stats x).[i <- 0] |}
  | force_last i v x :
      cstep t sh (ForceLast i v) x (Some (ForceCrossing i))
        {| x with last_stats := (last_stats x).[i <- v] |}
  | force_crossing i x :
      cstep t sh (ForceCrossing i) x (Some (ForceExchange (i + 1)))
        {| x with crossings := (crossings x).[i <- 0] |}
  | force_done i x : kBlocks ≤ i → cstep t sh (ForceExchange i) x (Some ForceUnlock) x
  | force_unlock x : cstep t sh ForceUnlock x None {| x with stats_mutex := None |}
  (* ShouldRebuild *)
  | should_lock th x : stats_mutex x = None →
      cstep t sh (ShouldLock th) x (Some (ShouldSnap th 0 no_stats)) {| x with stats_mutex := Some t |}
  | should_snap th i cs x : i < kBlocks →
      cstep t sh (ShouldSnap th i cs) x (Some (ShouldSnap th (i + 1) (cs.[i <- (stats x).[i]]))) x
  | should_snapped th i cs x : kBlocks ≤ i →
      cstep t sh (ShouldSnap th i cs) x (Some (ShouldJudge th cs)) x
  | should_judge th cs x :
      cstep t sh (ShouldJudge th cs) x
        (Some match judge kBlocks min_rebuild_skew th (last_stats x) cs with
              | TooFew => ShouldUnlock false
              | NotSkewed => ShouldReset cs
              | FirstStats => ShouldKeep cs
              | Drift b => ShouldUnlock b
              end) x
  | should_keep cs x :
      cstep t sh (ShouldKeep cs) x (Some (ShouldUnlock true)) {| x with last_stats := cs |}
  | should_reset cs x :
      cstep t sh (ShouldReset cs) x (Some (ClearStats KShould 0)) {| x with last_stats := cs |}
  | should_unlock (rebuild : bool) x :
      cstep t sh (ShouldUnlock rebuild) x (if rebuild then Some RFlag else None) {| x with stats_mutex := None |}
  (* RebuildNow *)
  | now_snap i cs x : i < kBlocks →
      cstep t sh (NowSnap i cs) x (Some (NowSnap (i + 1) (cs.[i <- (stats x).[i]]))) x
  | now_snapped i cs x : kBlocks ≤ i → cstep t sh (NowSnap i cs) x (Some (NowTotal cs)) x
  | now_total cs x :
      cstep t sh (NowTotal cs) x (if accumulate cs =? 0 then None else Some RFlag) x
  (* RebuildPartitions *)
  | r_busy x : rebuild_flag x = true → cstep t sh RFlag x None x
  | r_flag x : rebuild_flag x = false →
      cstep t sh RFlag x (Some (RSnap 0 no_stats)) {| x with rebuild_flag := true |}
  | r_snap i cs x : i < kBlocks →
      cstep t sh (RSnap i cs) x (Some (RSnap (i + 1) (cs.[i <- (stats x).[i]]))) x
  | r_snapped i cs x : kBlocks ≤ i → cstep t sh (RSnap i cs) x (Some (RCross 0 cs no_stats)) x
  | r_cross i cs cb x : i < kBlocks →
      cstep t sh (RCross i cs cb) x (Some (RCross (i + 1) cs (cb.[i <- (crossings x).[i]]))) x
  | r_crossed i cs cb x : kBlocks ≤ i → cstep t sh (RCross i cs cb) x (Some (RPlan cs cb)) x
  | r_plan cs cb x :
      cstep t sh (RPlan cs cb) x
        (Some (RGainLock cs cb (OptimizePartitions kLockCnt kBlocks (prefix_sums kBlocks cs) cb))) x
  | r_gain_lock cs cb np x : partitions_mutex x = None →
      cstep t sh (RGainLock cs cb np) x (Some (RGain cs cb np)) {| x with partitions_mutex := Some t |}
  | r_gain cs cb np x :
      cstep t sh (RGain cs cb np) x
        (Some (if HasEnoughPartitionGain kLockCnt min_rebuild_gain (partitions x) np
                    (prefix_sums kBlocks cs) cb
               then RGainUnlock cs np else RRejectLock cs)) x
  | r_reject_lock cs x : stats_mutex x = None →
      cstep t sh (RRejectLock cs) x (Some (RRejectLast cs)) {| x with stats_mutex := Some t |}
  | r_reject_last cs x :
      cstep t sh (RRejectLast cs) x (Some (ClearStats KRejected 0)) {| x with last_stats := cs |}
  | r_reject_flag x :
      cstep t sh RRejectFlag x (Some RRejectUnlockStats) {| x with rebuild_flag := false |}
  | r_reject_unlock_stats x :
      cstep t sh RRejectUnlockStats x (Some RRejectUnlockParts) {| x with stats_mutex := None |}
  | r_reject_unlock_parts x :
      cstep t sh RRejectUnlockParts x None {| x with partitions_mutex := None |}
  | r_gain_unlock cs np x :
      cstep t sh (RGainUnlock cs np) x (Some (RPause cs np)) {| x with partitions_mutex := None |}
  | r_parts cs np x : partitions_mutex x = None →
      cstep t sh (RParts cs np) x (Some (RStats cs np)) {| x with partitions_mutex := Some t |}
  | r_stats cs np x : stats_mutex x = None →
      cstep t sh (RStats cs np) x (Some (RPublish cs np)) {| x with stats_mutex := Some t |}
  | r_publish cs np x :
      cstep t sh (RPublish cs np) x (Some (REpochOdd cs)) {| x with partitions := np |}
  | r_refreshed b li cs x : kBlocks ≤ b →
      cstep t sh (RRefresh b li cs) x (Some (REpochEven cs)) x
  | r_last cs x :
      cstep t sh (RLast cs) x (Some (ClearStats KPublished 0)) {| x with last_stats := cs |}
  | r_unlock_stats x :
      cstep t sh RUnlockStats x (Some RUnlockParts) {| x with stats_mutex := None |}
  | r_unlock_parts x :
      cstep t sh RUnlockParts x (Some RFlagOff) {| x with partitions_mutex := None |}
  | r_flag_off x : cstep t sh RFlagOff x (Some RUnpause) {| x with rebuild_flag := false |}
  | r_count x : cstep t sh RCount x None {| x with rebuild_count := rebuild_count x +₆₄ 1 |}
  (* zeroing *)
  | clear_stat k i x : i < kBlocks →
      cstep t sh (ClearStats k i) x (Some (ClearCrossings k i)) {| x with stats := (stats x).[i <- 0] |}
  | clear_crossing k i x :
      cstep t sh (ClearCrossings k i) x (Some (ClearStats k (i + 1)))
        {| x with crossings := (crossings x).[i <- 0] |}
  | clear_done k i x : kBlocks ≤ i → cstep t sh (ClearStats k i) x (Some (cleared k)) x.

(** All the steps: those, and the ones that change the shared fields. *)
Inductive dstep (t : nat) : ppc → Shared → Client → option ppc → Shared → Client → Prop :=
  | d_client p sh x p' x' : cstep t sh p x p' x' → dstep t p sh x p' sh x'
  | d_pause cs np sh x :
      dstep t (RPause cs np) sh x (Some (RLock 0 cs np)) {| sh with pause := true |} x
  | d_lock next cs np sh x : next < kLockCnt → owner sh !! next = None →
      dstep t (RLock next cs np) sh x (Some (RLock (next + 1) cs np))
        {| sh with owner := <[next := t]> (owner sh) |} x
  | d_locked next cs np sh x : kLockCnt ≤ next →
      dstep t (RLock next cs np) sh x (Some (RParts cs np)) sh x
  | d_epoch_odd cs sh x :
      dstep t (REpochOdd cs) sh x (Some (RRefresh 0 0 cs)) {| sh with epoch := epoch sh +₆₄ 1 |} x
  | d_refresh b li cs sh x : b < kBlocks →
      dstep t (RRefresh b li cs) sh x
        (Some (RRefresh (b + 1) (refresh_body kLockCnt (partitions x) b (li, table sh)).1 cs))
        {| sh with table := (refresh_body kLockCnt (partitions x) b (li, table sh)).2 |} x
  | d_epoch_even cs sh x :
      dstep t (REpochEven cs) sh x (Some (RLast cs)) {| sh with epoch := epoch sh +₆₄ 1 |} x
  | d_unpause sh x :
      dstep t RUnpause sh x (Some (RUnlock kLockCnt)) {| sh with pause := false |} x
  | d_unlock n sh x : 0 < n →
      dstep t (RUnlock n) sh x (Some (RUnlock (n - 1)))
        {| sh with owner := delete (0 + (n - 1)) (owner sh) |} x
  | d_unlocked sh x : dstep t (RUnlock 0) sh x (Some RCount) sh x.

(** The calls: the arguments of [CountLocksForRange] are already normalised. *)
Inductive dcall : ppc → Prop :=
  | call_count left right l r : is_u64 left → is_u64 right →
      normalize array_size left right = (l, r) → dcall (CountLock l r)
  | call_cuts : dcall CutsLock
  | call_force : dcall ForceLock
  | call_should threshold : dcall (ShouldLock threshold)
  | call_now : dcall (NowSnap 0 no_stats).

(** ** The assertion of a publisher *)

Definition p_held (p : ppc) : Z * Z :=
  match p with
  | RLock next _ _ => (0, next)
  | RParts _ _ | RStats _ _ | RPublish _ _ | REpochOdd _ | RRefresh _ _ _ | REpochEven _ | RLast _
  | RUnlockStats | RUnlockParts | RFlagOff | RUnpause
  | ClearStats KPublished _ | ClearCrossings KPublished _ => (0, kLockCnt)
  | RUnlock n => (0, n)
  | _ => (0, 0)
  end.

(** The epoch is odd exactly while the table is rewritten. *)
Definition p_odd (p : ppc) : bool :=
  match p with RRefresh _ _ _ | REpochEven _ => true | _ => false end.

Definition p_ok (t : nat) (p : ppc) (sh : Shared) : Prop :=
  holds t sh (p_held p) ∧ (0 < (p_held p).2 → Z.odd (epoch sh) = p_odd p) ∧
  match p with
  | RLock next _ _ => 0 ≤ next ≤ kLockCnt
  | RUnlock n => 0 ≤ n ≤ kLockCnt
  | RRefresh b li _ => 0 ≤ b ≤ kBlocks ∧ refresh_inv kLockCnt kBlocks b (li, table sh)
  | REpochEven _ => table_ok kLockCnt kBlocks (table sh)
  | CountLock l r | CountLeft l r | CountRight l r _ | CountUnlock l r _ _ => 0 ≤ l ≤ r
  | _ => True
  end.

Context (HL : 0 < kLockCnt) (HB : 0 < kBlocks) (Hn : 0 < array_size < modulus64).

(** *** The publisher keeps the contract *)

Local Abbreviation guarantee := (guarantee kLockCnt).
Local Abbreviation shared_ok := (shared_ok kLockCnt kBlocks).

(** All the ways a client step can end. *)
Ltac cstep_cases Hc :=
  destruct Hc; try (match goal with b : bool |- _ => destruct b end);
  try (match goal with k : after_clear |- _ => destruct k end);
  try (destruct (judge _ _ _ _ _)); try (destruct (HasEnoughPartitionGain _ _ _ _ _ _));
  try (destruct (accumulate _ =? 0)).

(** A client step moves between program counters that hold the same mutexes. *)
Lemma cstep_ok t p sh x p' x' :
  p_ok t p sh → cstep t sh p x p' x' →
  match p' with Some q => p_ok t q sh | None => ∀ i, ¬ owns t sh i end.
Proof.
  intros (Hh & Ho & Hp) Hstep. cstep_cases Hstep; simpl in *;
    first [by apply (holds_none t sh 0) | split_and!; done || idtac].
  (* the table has been rewritten *)
  all: try lia. destruct Hp as (Hb & Hr & Hl & _ & _ & Hle & Hm).
  assert (b = kBlocks) as -> by lia. simpl in *. split_and!; [done| |].
  - intros c Hc. specialize (Hle c Hc). lia.
  - intros c c' Hc Hc'. apply Hm; lia.
Qed.

Lemma dstep_ok t p sh x p' sh' x' :
  shared_ok sh → 0 ≤ epoch sh → epoch sh + 1 < modulus64 →
  p_ok t p sh → dstep t p sh x p' sh' x' →
  shared_ok sh' ∧ guarantee t sh sh' ∧
  match p' with Some q => p_ok t q sh' | None => ∀ i, ¬ owns t sh' i end.
Proof.
  intros Hsh H0 H1 Hp Hstep.
  destruct Hstep as [p sh x p' x' Hc|cs np sh x|next cs np sh x Hlt Hfree|next cs np sh x Hge
    |cs sh x|b li cs sh x Hb|cs sh x|sh x|n sh x Hpos|sh x].
  - split; [done|]. split; [apply guarantee_refl|]. by eapply cstep_ok.
  - destruct Hp as (Hh & Ho & _). split; [by destruct Hsh|]. split; [apply guarantee_pause|].
    split_and!; [done|simpl; lia|lia|lia].
  - destruct Hp as (Hh & Ho & Hnext); simpl in *.
    assert (Z.odd (epoch sh) = false) as He by (eapply shared_ok_free_even; [done| |done]; lia).
    split; [by apply shared_ok_owner|]. split; [by apply guarantee_acquire|].
    split_and!; simpl; [|done|lia|lia]. apply (holds_acquire t sh 0 next); [done|lia|done].
  - destruct Hp as (Hh & Ho & Hnext); simpl in *. assert (next = kLockCnt) as -> by lia.
    split; [done|]. split; [apply guarantee_refl|]. by split_and!.
  - destruct Hp as (Hh & Ho & _); simpl in *. specialize (Ho HL).
    destruct (epoch_step_ok kLockCnt kBlocks t sh) as (Hs & Hg & Hodd); [done..|by rewrite Ho|].
    split; [done|]. split; [done|]. rewrite Ho in Hodd.
    split; [done|]. split; [done|]. split; [lia|]. apply refresh_inv_0; [done|apply (proj1 Hsh)].
  - destruct Hp as (Hh & Ho & Hbk & Hinv); simpl in *. specialize (Ho HL).
    pose proof (refresh_body_inv kLockCnt kBlocks HL HB (partitions x) b (li, table sh) ltac:(lia) Hinv) as Hinv'.
    destruct Hsh as (Hlen & Hrng & _ & Hall).
    split; [|split].
    + split_and!; simpl; [by rewrite len_set| |by rewrite Ho|done].
      intros c Hc. rewrite get_set by lia. destruct (Z.eqb_spec b c); [apply Hinv'|by apply Hrng].
    + split; [done|]. right. split_and!; [by apply holds_all|by apply holds_all|]. by right.
    + split; [done|]. split; [done|]. split; [lia|]. exact Hinv'.
  - destruct Hp as (Hh & Ho & Ht); simpl in *. specialize (Ho HL).
    destruct (epoch_step_ok kLockCnt kBlocks t sh) as (Hs & Hg & Hodd); [done..|].
    split; [done|]. split; [done|]. rewrite Ho in Hodd. by split_and!.
  - destruct Hp as (Hh & Ho & _). split; [by destruct Hsh|]. split; [apply guarantee_pause|].
    split_and!; done || lia.
  - destruct Hp as (Hh & Ho & Hnr); simpl in *.
    destruct (release_ok kLockCnt kBlocks t sh 0 n) as (Hs & Hg & Hh'); [done|by apply Ho|done|done|].
    split; [done|]. split; [done|]. split_and!; [done|simpl; intros; apply Ho; lia|lia|lia].
  - destruct Hp as (Hh & _). split; [done|]. split; [apply guarantee_refl|]. by split_and!.
Qed.

Lemma p_held_first p : (p_held p).1 = 0.
Proof. destruct p; try destruct k; done. Qed.

Lemma p_ok_stable t u p sh sh' : t ≠ u → p_ok t p sh → guarantee u sh sh' → p_ok t p sh'.
Proof.
  intros Hne (Hh & Ho & Hp) HG.
  assert (0 < (p_held p).2 → table sh' = table sh ∧ epoch sh' = epoch sh) as Hfr.
  { intros Hpos. apply (guarantee_frozen kLockCnt t u sh sh' ((p_held p).1)); [done| | |done].
    - rewrite p_held_first. lia.
    - apply Hh. lia. }
  split_and!.
  - by eapply holds_stable.
  - intros Hpos. destruct (Hfr Hpos) as [_ ->]. auto.
  - destruct p; try done; simpl in *; by destruct (Hfr HL) as [-> _].
Qed.

#[export] Instance dynamic_methods : Methods (X:=Client) ppc :=
  {| pinit := dcall; pstep := dstep |}.

#[export] Instance dynamic_publisher : Publisher kLockCnt kBlocks (X:=Client) ppc.
Proof.
  refine {| pok := p_ok |}.
  - intros t p sh Hc Hno.
    assert (holds t sh (0, 0)) by by apply holds_none.
    destruct Hc as [left right l r ? ? Hnorm| | | |]; split_and!; simpl; try done; try lia.
    all: apply normalize_range in Hnorm; unfold is_u64 in *; lia.
  - intros t p sh x p' sh' x' Hs H0 H1. by apply dstep_ok.
  - intros t u p sh sh' Hne _ _. by apply p_ok_stable.
Defined.

(** ** The whole class *)

Definition dsys : Type := sys (X:=Client) (P:=ppc).

Definition dyn_step : dsys → dsys → Prop :=
  step kBlocks block_size array_size in_query.

(** A freshly constructed object. *)
Definition dyn_initial (s : dsys) : Prop :=
  initial kLockCnt kBlocks s ∧ pause (shared s) = false ∧
  partitions_mutex (client s) = None ∧ stats_mutex (client s) = None.

(** A step of thread [t], which is inside a call. *)
Inductive thread_step (t : nat) (s : dsys) : dsys → Prop :=
  | thread_query q q' sh' x' :
      threads s !! t = Some (TQuery q) →
      qstep kBlocks block_size in_query t q (shared s) (client s) q' sh' x' →
      thread_step t s (moved t (TQuery <$> q') s sh' x')
  | thread_pub p p' sh' x' :
      threads s !! t = Some (TPub p) → dstep t p (shared s) (client s) p' sh' x' →
      thread_step t s (moved t (TPub <$> p') s sh' x').

Lemma thread_step_step t s s' : thread_step t s s' → dyn_step s s'.
Proof. intros [q q' sh' x' Hq Hs|p p' sh' x' Hp Hs]; [by eapply step_query|by eapply step_pub]. Qed.

Definition dyn_inv (n : nat) (s : dsys) : Prop := sys_inv kLockCnt kBlocks block_size n s.

Lemma block_size_pos : 1 ≤ block_size.
Proof. apply init_block_size_pos; lia. Qed.

Lemma dyn_inv_reachable n s0 s :
  dyn_initial s0 → nsteps dyn_step n s0 s → Z.of_nat n < modulus64 → dyn_inv n s.
Proof.
  intros [Hi _] Hs Hb. unfold dyn_inv. eapply sys_inv_reachable; eauto using block_size_pos.
Qed.

(** *** The two class mutexes *)

(** Thread [t] is in the region [f] of a publisher. *)
Definition region (f : ppc → bool) (s : dsys) (t : nat) : Prop :=
  ∃ p, threads s !! t = Some (TPub p) ∧ f p = true.

(** The owner of a mutex is exactly the thread inside its region. *)
Definition mutex_inv (f : ppc → bool) (m : Client → option nat) (s : dsys) : Prop :=
  ∀ t, m (client s) = Some t ↔ region f s t.

Definition after (f : ppc → bool) (p' : option ppc) : bool :=
  match p' with Some p => f p | None => false end.

(** How a step of a publisher treats a mutex: it leaves it, takes it when it
    enters the region, or gives it back when it leaves. *)
Definition mutex_move (f : ppc → bool) (m : Client → option nat) (t : nat)
    (p : ppc) (x : Client) (p' : option ppc) (x' : Client) : Prop :=
  (f p = after f p' ∧ m x' = m x) ∨
  (f p = false ∧ after f p' = true ∧ m x = None ∧ m x' = Some t) ∨
  (f p = true ∧ after f p' = false ∧ m x' = None).

Ltac mutex_cases :=
  unfold mutex_move; simpl;
  first [by left | by right; left | by right; right].

Lemma dstep_parts t p sh x p' sh' x' :
  dstep t p sh x p' sh' x' → mutex_move in_parts partitions_mutex t p x p' x'.
Proof.
  intros [? ? ? ? ? Hc| | | | | | | | |]; try mutex_cases.
  cstep_cases Hc; mutex_cases.
Qed.

Lemma dstep_stats t p sh x p' sh' x' :
  dstep t p sh x p' sh' x' → mutex_move in_stats stats_mutex t p x p' x'.
Proof.
  intros [? ? ? ? ? Hc| | | | | | | | |]; try mutex_cases.
  cstep_cases Hc; mutex_cases.
Qed.

(** Queries use neither mutex. *)
Lemma qstep_client t q sh x q' sh' x' :
  qstep kBlocks block_size in_query t q sh x q' sh' x' →
  partitions_mutex x' = partitions_mutex x ∧ stats_mutex x' = stats_mutex x.
Proof.
  intros Hs; inversion Hs as [| | | | | | | | | | | | |? ? ? ? ? ? ? Hc| | |]; subst; try done.
  by destruct Hc.
Qed.

Lemma region_moved f t u o s sh x :
  region f (moved t o s sh x) u ↔
    if decide (u = t) then ∃ p, o = Some (TPub p) ∧ f p = true else region f s u.
Proof.
  unfold region; simpl. destruct (decide (u = t)) as [->|].
  - by setoid_rewrite lookup_partial_alter_eq.
  - by setoid_rewrite lookup_partial_alter_ne; [|done].
Qed.

Lemma after_region f (p' : option ppc) :
  (∃ q, TPub <$> p' = Some (TPub q) ∧ f q = true) ↔ after f p' = true.
Proof.
  destruct p' as [p|]; simpl.
  - split; [intros (q & [= <-] & ?); done|by exists p].
  - split; [intros (q & ? & ?)|]; done.
Qed.

Lemma mutex_inv_step f m s s' :
  (∀ p, dcall p → f p = false) →
  (∀ t p sh x p' sh' x', dstep t p sh x p' sh' x' → mutex_move f m t p x p' x') →
  (∀ t q sh x q' sh' x', qstep kBlocks block_size in_query t q sh x q' sh' x' → m x' = m x) →
  mutex_inv f m s → dyn_step s s' → mutex_inv f m s'.
Proof.
  intros Hcall Hpub Hquery Hinv Hstep u. specialize (Hinv u) as Hu.
  destruct Hstep as [s t left right l r Hnone _ _ _|s t q q' sh' x' Hq Hs|s t p Hnone Hp|s t p p' sh' x' Hp Hs];
    rewrite region_moved; simpl.
  - case_decide as Hd; [subst u|done]. rewrite Hu. unfold region. rewrite Hnone.
    split; intros (? & ? & ?); congruence.
  - rewrite (Hquery _ _ _ _ _ _ _ Hs). case_decide as Hd; [subst u|done].
    rewrite Hu. unfold region. rewrite Hq.
    split; intros (p & Hp & _); [|destruct q']; discriminate Hp.
  - case_decide as Hd; [subst u|done]. rewrite Hu. unfold region. rewrite Hnone.
    split; intros (p' & Hp' & Hf); [discriminate Hp'|]. injection Hp' as <-.
    by rewrite Hcall in Hf.
  - specialize (Hpub _ _ _ _ _ _ _ Hs).
    assert (m (client s) = Some t ↔ f p = true) as Ht.
    { rewrite (Hinv t). unfold region. rewrite Hp.
      split; [intros (q & [= <-] & ?); done|by exists p]. }
    pose proof (after_region f p') as Ha.
    destruct Hpub as [[Hf ->]|[(Hf & Hf' & Hm & ->)|(Hf & Hf' & ->)]]; case_decide as Hd.
    + subst u. by rewrite Ha, Ht, Hf.
    + done.
    + subst u. rewrite Ha, Hf'. done.
    + rewrite <-Hu, Hm. split; congruence.
    + subst u. rewrite Ha, Hf'. done.
    + rewrite <-Hu. split; [done|]. rewrite (proj2 Ht Hf). congruence.
Qed.

Lemma dcall_outside p : dcall p → in_parts p = false ∧ in_stats p = false.
Proof. by intros []. Qed.

(** *** The pause *)

(** The publishers that will clear [pause_queries_]. *)
Definition pausing (p : ppc) : bool :=
  match p with
  | RLock _ _ _ | RParts _ _ | RStats _ _ | RPublish _ _ | REpochOdd _ | RRefresh _ _ _
  | REpochEven _ | RLast _ | RUnlockStats | RUnlockParts | RFlagOff | RUnpause
  | ClearStats KPublished _ | ClearCrossings KPublished _ => true
  | _ => false
  end.

Definition pause_inv (s : dsys) : Prop := pause (shared s) = true → ∃ t, region pausing s t.

Lemma dstep_pause t p sh x p' sh' x' :
  dstep t p sh x p' sh' x' →
  pause sh' = false ∨ (pausing p = true → after pausing p' = true) ∧
    (pause sh' = pause sh ∨ after pausing p' = true).
Proof.
  intros [? ? ? ? ? Hc| | | | | | | | |]; simpl; try (by left); right; simpl; auto.
  cstep_cases Hc; simpl; auto.
Qed.

Lemma qstep_pause t q sh x q' sh' x' :
  qstep kBlocks block_size in_query t q sh x q' sh' x' → pause sh' = pause sh.
Proof. by destruct 1. Qed.

Lemma pause_inv_step s s' : pause_inv s → dyn_step s s' → pause_inv s'.
Proof.
  unfold pause_inv. intros Hinv Hstep.
  destruct Hstep as [s t left right l r Hnone _ _ _|s t q q' sh' x' Hq Hs|s t p Hnone Hp|s t p p' sh' x' Hp Hs];
    simpl; setoid_rewrite region_moved.
  1, 3: intros Hpause; destruct (Hinv Hpause) as (u & Hu); exists u;
    rewrite decide_False; [done|]; intros ->; destruct Hu as (? & ? & ?); congruence.
  - rewrite (qstep_pause _ _ _ _ _ _ _ Hs). intros Hpause. destruct (Hinv Hpause) as (u & Hu).
    exists u. rewrite decide_False; [done|]. intros ->. destruct Hu as (? & ? & ?). congruence.
  - intros Hpause. destruct (dstep_pause _ _ _ _ _ _ _ Hs) as [?|[Hstay Hnew]]; [congruence|].
    destruct (decide (after pausing p' = true)) as [Hy|Hno].
    { exists t. rewrite decide_True by done. by apply after_region. }
    destruct Hnew as [Heq|]; [|done]. rewrite Heq in Hpause. destruct (Hinv Hpause) as (u & Hu).
    exists u. rewrite decide_False; [done|]. intros ->. destruct Hu as (q & Hq & Hpq).
    rewrite Hp in Hq. injection Hq as <-. auto.
Qed.

(** *** The readers of the table under [partitions_mutex_] *)

Definition count_ok (p : ppc) (sh : Shared) : Prop :=
  match p with
  | CountRight l _ f => f = seg_left kBlocks block_size sh l
  | CountUnlock l r f e => f = seg_left kBlocks block_size sh l ∧ e = seg_left kBlocks block_size sh r
  | _ => True
  end.

Definition count_inv (s : dsys) : Prop :=
  ∀ t p, threads s !! t = Some (TPub p) → count_ok p (shared s).

(** The table changes only inside [partitions_mutex_]. *)
Lemma dstep_table t p sh x p' sh' x' :
  dstep t p sh x p' sh' x' → table sh' = table sh ∨ in_parts p = true.
Proof. intros []; auto. Qed.

Lemma qstep_table t q sh x q' sh' x' :
  qstep kBlocks block_size in_query t q sh x q' sh' x' → table sh' = table sh.
Proof. by destruct 1. Qed.

Lemma count_ok_own t p sh x p' sh' x' :
  count_ok p sh → dstep t p sh x p' sh' x' → match p' with Some q => count_ok q sh' | None => True end.
Proof.
  intros Hok Hs. destruct Hs as [? ? ? ? ? Hc| | | | | | | | |]; try done.
  cstep_cases Hc; simpl in *; auto.
Qed.

Lemma count_ok_table p sh sh' : table sh' = table sh ∨ in_parts p = false → count_ok p sh → count_ok p sh'.
Proof. intros Ht. destruct p; try done; unfold count_ok, seg_left; destruct Ht as [->|]; done. Qed.

Lemma mutex_unique f m s t u : mutex_inv f m s → region f s t → region f s u → t = u.
Proof. intros Hinv Ht Hu. apply Hinv in Ht. apply Hinv in Hu. congruence. Qed.

Lemma count_inv_step s s' :
  mutex_inv in_parts partitions_mutex s → count_inv s → dyn_step s s' → count_inv s'.
Proof.
  intros Hm Hinv Hstep u q.
  destruct Hstep as [s t left right l r Hnone _ _ _|s t q0 q' sh' x' Hq Hs|s t p Hnone Hp|s t p p' sh' x' Hp Hs];
    simpl; destruct (decide (u = t)) as [->|Hu]; rewrite ?lookup_partial_alter_eq,
      ?lookup_partial_alter_ne by done.
  - done.
  - apply Hinv.
  - by destruct q'.
  - intros Huq. eapply count_ok_table; [left; by eapply qstep_table|by eapply Hinv].
  - intros [= <-]. by destruct Hp.
  - apply Hinv.
  - intros Hq. pose proof (count_ok_own _ _ _ _ _ _ _ (Hinv t p Hp) Hs) as Hok.
    destruct p' as [p'|]; [|done]. by injection Hq as <-.
  - intros Huq. eapply count_ok_table; [|by eapply Hinv].
    destruct (dstep_table _ _ _ _ _ _ _ Hs) as [?|Hin]; [by left|right].
    destruct (in_parts q) eqn:Hinq; [|done]. destruct Hu.
    apply (mutex_unique _ _ s u t Hm); [by exists q|by exists p].
Qed.

(** *** Everything together *)

Record class_inv (n : nat) (s : dsys) : Prop := {
  inv_protocol : dyn_inv n s;
  inv_parts : mutex_inv in_parts partitions_mutex s;
  inv_stats : mutex_inv in_stats stats_mutex s;
  inv_pause : pause_inv s;
  inv_count : count_inv s
}.

Lemma class_inv_initial s : dyn_initial s → class_inv 0 s.
Proof.
  intros (Hi & Hp & Hm1 & Hm2). pose proof Hi as (Ht & _). split.
  - by apply sys_inv_initial.
  - intros t. rewrite Hm1. unfold region. rewrite Ht. split; [done|]. by intros (? & ? & _).
  - intros t. rewrite Hm2. unfold region. rewrite Ht. split; [done|]. by intros (? & ? & _).
  - unfold pause_inv. by rewrite Hp.
  - intros t p. by rewrite Ht.
Qed.

Lemma class_inv_step n s s' :
  Z.of_nat n + 1 < modulus64 → class_inv n s → dyn_step s s' → class_inv (S n) s'.
Proof.
  intros Hb [] Hstep. split.
  - eapply sys_inv_step; eauto using block_size_pos.
  - eapply mutex_inv_step; eauto using dstep_parts.
    + intros p Hc. by apply dcall_outside.
    + intros t q sh x q' sh' x' Hq. by apply (qstep_client _ _ _ _ _ _ _ Hq).
  - eapply mutex_inv_step; eauto using dstep_stats.
    + intros p Hc. by apply dcall_outside.
    + intros t q sh x q' sh' x' Hq. by apply (qstep_client _ _ _ _ _ _ _ Hq).
  - by eapply pause_inv_step.
  - by eapply count_inv_step.
Qed.

Lemma class_inv_reachable n s0 s :
  dyn_initial s0 → nsteps dyn_step n s0 s → Z.of_nat n < modulus64 → class_inv n s.
Proof.
  intros Hinit Hs. revert s Hs. induction n as [|n IH]; intros s Hs Hb.
  - inversion Hs; subst. by apply class_inv_initial.
  - apply nsteps_inv_r in Hs as (s1 & Hs1 & Hstep).
    eapply class_inv_step; [lia| |done]. apply IH; [done|lia].
Qed.

(** *** Progress *)

(** What a thread may have to wait for. *)
Inductive resource := Unpaused | Free (i : Z) | PartsMutex | StatsMutex.

(** The order in which the resources are taken. *)
Definition rank (r : resource) : Z :=
  match r with Unpaused => -1 | Free i => i | PartsMutex => kLockCnt | StatsMutex => kLockCnt + 1 end.

Definition available (s : dsys) (r : resource) : Prop :=
  match r with
  | Unpaused => pause (shared s) = false
  | Free i => owner (shared s) !! i = None
  | PartsMutex => partitions_mutex (client s) = None
  | StatsMutex => stats_mutex (client s) = None
  end.

#[export] Instance available_decision s r : Decision (available s r).
Proof. destruct r; simpl; apply _. Defined.

Definition waits_for (c : tpc) : option resource :=
  match c with
  | TQuery (QPause _ _) => Some Unpaused
  | TQuery (QLock _ _ _ _ last next) => if next <=? last then Some (Free next) else None
  | TPub (RLock next _ _) => if next <? kLockCnt then Some (Free next) else None
  | TPub (CountLock _ _ | CutsLock | RGainLock _ _ _ | RParts _ _) => Some PartsMutex
  | TPub (ForceLock | ShouldLock _ | RRejectLock _ | RStats _ _) => Some StatsMutex
  | _ => None
  end.

(** Thread [t] is able to change its program counter. *)
Definition can_move (s : dsys) (t : nat) : Prop :=
  ∃ s', thread_step t s s' ∧ threads s' !! t ≠ threads s !! t.

Lemma can_move_query s t q q' sh' x' :
  threads s !! t = Some (TQuery q) →
  qstep kBlocks block_size in_query t q (shared s) (client s) q' sh' x' →
  q' ≠ Some q → can_move s t.
Proof.
  intros Hq Hs Hne. exists (moved t (TQuery <$> q') s sh' x').
  split; [by eapply thread_query|]. simpl. rewrite lookup_partial_alter_eq, Hq.
  destruct q'; simpl; congruence.
Qed.

Lemma can_move_pub s t p p' sh' x' :
  threads s !! t = Some (TPub p) → dstep t p (shared s) (client s) p' sh' x' →
  p' ≠ Some p → can_move s t.
Proof.
  intros Hp Hs Hne. exists (moved t (TPub <$> p') s sh' x').
  split; [by eapply thread_pub|]. simpl. rewrite lookup_partial_alter_eq, Hp.
  destruct p'; simpl; congruence.
Qed.

(** A query that waits for nothing, or for something available, can move. *)
Lemma query_moves s t q :
  threads s !! t = Some (TQuery q) → query_ok kLockCnt kBlocks block_size t q (shared s) →
  (∀ r, waits_for (TQuery q) = Some r → available s r) → can_move s t.
Proof.
  intros Hq (_ & _ & Hok) Hw. destruct q as [l r|l r|l r e|l r e f|l r e f la nx|l r e f la|l r f n|l r f la|l r f n];
    simpl in *.
  - specialize (Hw _ eq_refl). eapply can_move_query; [done|by apply q_not_paused|done].
  - destruct (Z.odd (epoch (shared s))) eqn:He.
    + eapply can_move_query; [done|by apply q_epoch_odd|done].
    + eapply can_move_query; [done|by apply q_epoch_even|done].
  - eapply can_move_query; [done|apply q_left|done].
  - destruct (Z.lt_ge_cases ((table (shared s)).[PositionToBlock kBlocks block_size r]) f).
    + eapply can_move_query; [done|by apply q_right_bad|done].
    + eapply can_move_query; [done|by apply q_right|done].
  - destruct (Z.leb_spec nx la).
    + specialize (Hw _ eq_refl). eapply can_move_query; [done|by apply q_lock|]. intros [= ?]. lia.
    + eapply can_move_query; [done|by apply q_locked|done].
  - destruct (decide (e = epoch (shared s))) as [Heq|]; [destruct (Z.odd (epoch (shared s))) eqn:He|].
    + eapply can_move_query; [done|apply q_check_bad; by right|done].
    + eapply can_move_query; [done|by apply q_check_ok|done].
    + eapply can_move_query; [done|apply q_check_bad; by left|done].
  - destruct (decide (n = 0)) as [->|].
    + eapply can_move_query; [done|apply q_retry_done|done].
    + eapply can_move_query; [done|apply q_retry; lia|]. intros [= ?]. lia.
  - eapply can_move_query; [done|apply q_crit_done|done].
  - destruct (decide (n = 0)) as [->|].
    + eapply can_move_query; [done|apply q_unlock_done|done].
    + eapply can_move_query; [done|apply q_unlock; lia|]. intros [= ?]. lia.
Qed.

(** Every program counter of a publisher has a step once what it waits for is
    available. *)
Lemma client_moves s t p p' x' :
  threads s !! t = Some (TPub p) → cstep t (shared s) p (client s) p' x' → p' ≠ Some p → can_move s t.
Proof. intros Hp Hc. by apply (can_move_pub s t p p' (shared s) x'); [|apply d_client]. Qed.

Ltac moves_by_client :=
  eapply client_moves;
    [eassumption|first [by econstructor | econstructor; lia]
    |repeat match goal with |- context [match ?x with _ => _ end] => destruct x end;
     first [discriminate | intros [= ?]; lia]].

Lemma publisher_moves s t p :
  threads s !! t = Some (TPub p) → p_ok t p (shared s) →
  (∀ r, waits_for (TPub p) = Some r → available s r) → can_move s t.
Proof.
  intros Hp (_ & _ & Hok) Hw.
  assert (∀ i, i < kBlocks ∨ kBlocks ≤ i) as Hcmp by (intros; lia).
  destruct p; simpl in Hok, Hw; try specialize (Hw _ eq_refl) as Ha; simpl in *;
    try (destruct (Hcmp i)); try moves_by_client.
  - destruct (rebuild_flag (client s)) eqn:Hf.
    + eapply client_moves; [done|by apply r_busy|done].
    + eapply client_moves; [done|by apply r_flag|done].
  - eapply can_move_pub; [done|apply d_pause|done].
  - destruct (Z.ltb_spec next kLockCnt).
    + specialize (Hw _ eq_refl). eapply can_move_pub; [done|by apply d_lock|]. intros [= ?]. lia.
    + eapply can_move_pub; [done|by apply d_locked|done].
  - eapply can_move_pub; [done|apply d_epoch_odd|done].
  - destruct (Hcmp block).
    + eapply can_move_pub; [done|by apply d_refresh|]. intros [= ?]. lia.
    + eapply client_moves; [done|by apply r_refreshed|done].
  - eapply can_move_pub; [done|apply d_epoch_even|done].
  - eapply can_move_pub; [done|apply d_unpause|done].
  - destruct (decide (n = 0)) as [->|].
    + eapply can_move_pub; [done|apply d_unlocked|done].
    + eapply can_move_pub; [done|apply d_unlock; lia|]. intros [= ?]. lia.
  - eapply client_moves; [done|by apply clear_done|]. by destruct k.
Qed.

(** The holder of an unavailable resource waits, if at all, for one that comes
    later in the order. *)
Lemma holder n s r :
  class_inv n s → ¬ available s r → 
  ∃ u c, threads s !! u = Some c ∧ ∀ r', waits_for c = Some r' → rank r < rank r'.
Proof.
  intros [(_ & _ & Hth) Hparts Hstats Hpause _] Hna. destruct r as [|i| |]; simpl in *.
  - destruct Hpause as (u & p & Hu & Hp); [by destruct (pause (shared s))|].
    exists u, (TPub p). split; [done|]. specialize (Hth u). rewrite Hu in Hth. destruct Hth as (_ & _ & Hok).
    destruct p; simpl in *; try done; intros r' Hr'; try (injection Hr' as <-; simpl; lia).
    destruct (next <? kLockCnt); [|done]. injection Hr' as <-. simpl. lia.
  - destruct (owner (shared s) !! i) as [u|] eqn:Ho; [|done].
    specialize (Hth u). destruct (threads s !! u) as [c|] eqn:Hc; [|by destruct (Hth i)].
    exists u, c. split; [done|]. intros r' Hr'. destruct c as [q|p]; destruct Hth as (Hh & _ & Hok);
      pose proof (proj1 (Hh i) Ho) as Hi.
    + destruct q; simpl in *; try done; try lia.
      destruct (_ <=? _); [|done]. injection Hr' as <-. simpl. lia.
    + destruct p; simpl in *; try done; try lia; try (injection Hr' as <-; simpl; lia).
      destruct (next <? kLockCnt); [|done]. injection Hr' as <-. simpl. lia.
  - destruct (partitions_mutex (client s)) as [u|] eqn:Hm; [|done].
    destruct (proj1 (Hparts u) Hm) as (p & Hu & Hp). exists u, (TPub p). split; [done|].
    intros r' Hr'. destruct p; simpl in *; try done; injection Hr' as <-; simpl; lia.
  - destruct (stats_mutex (client s)) as [u|] eqn:Hm; [|done].
    destruct (proj1 (Hstats u) Hm) as (p & Hu & Hp). exists u, (TPub p). split; [done|].
    intros r' Hr'. by destruct p.
Qed.

Lemma thread_moves n s t c :
  class_inv n s → threads s !! t = Some c →
  (∀ r, waits_for c = Some r → available s r) → can_move s t.
Proof.
  intros [(_ & _ & Hth) _ _ _ _] Hc Hw. specialize (Hth t). rewrite Hc in Hth.
  destruct c as [q|p]; [exact (query_moves s t q Hc Hth Hw)|exact (publisher_moves s t p Hc Hth Hw)].
Qed.

(** Going up the order always ends at a thread that can move. *)
Lemma progress_from n s (k : nat) t c :
  class_inv n s → threads s !! t = Some c →
  (∀ r, waits_for c = Some r → kLockCnt + 2 - rank r ≤ Z.of_nat k) → ∃ u, can_move s u.
Proof.
  intros Hinv. revert t c. induction k as [|k IH]; intros t c Hc Hk.
  - exists t. eapply thread_moves; [done..|]. intros r Hr. specialize (Hk r Hr).
    (* no resource has such a rank, unless it is free *)
    destruct (waits_for c) as [r0|] eqn:Hwc; [|done]. injection Hr as <-.
    exfalso. destruct c as [[]|[]]; simpl in *; try done;
      try (injection Hwc as <-; simpl in Hk; lia).
    + destruct (Z.leb_spec next last0); [|done]. injection Hwc as <-; simpl in Hk.
      destruct Hinv as [(_ & _ & Hth) _ _ _ _]. specialize (Hth t). rewrite Hc in Hth.
      destruct Hth as (_ & _ & Hok). simpl in Hok. lia.
    + destruct (Z.ltb_spec next kLockCnt); [|done]. injection Hwc as <-; simpl in Hk. lia.
  - assert ((∀ r, waits_for c = Some r → available s r) ∨ ∃ r, waits_for c = Some r ∧ ¬ available s r)
      as [Hav|(r & Hr & Hna)].
    { destruct (waits_for c) as [r|]; [|by left].
      destruct (decide (available s r)); [left; by intros ? [= <-]|right; eauto]. }
    + exists t. by eapply thread_moves.
    + destruct (holder n s r Hinv Hna) as (u & c' & Hu & Hrank). apply (IH u c' Hu).
      intros r' Hr'. specialize (Hrank r' Hr'). specialize (Hk r Hr). lia.
Qed.

(** *** The data *)

(** Publishers never touch the protected data; queries only while they run. *)
Lemma dstep_array t p sh x p' sh' x' : dstep t p sh x p' sh' x' → array x' = array x.
Proof. intros [? ? ? ? ? Hc| | | | | | | | |]; try done. by destruct Hc. Qed.

Lemma qstep_array t q sh x q' sh' x' :
  qstep kBlocks block_size in_query t q sh x q' sh' x' →
  array x' = array x ∨ ∃ l r f e, q = QCrit l r f e ∧
    ∀ p, ¬ (l ≤ p ≤ r) → array x' !! p = array x !! p.
Proof.
  intros Hs; inversion Hs as [| | | | | | | | | | | | |l r f e ? ? ? Hc| | |]; subst; try by left.
  right. exists l, r, f, e. split; [done|]. by destruct Hc.
Qed.

Lemma thread_step_guarantee n u s s' :
  Z.of_nat n + 1 < modulus64 → class_inv n s → thread_step u s s' → guarantee u (shared s) (shared s').
Proof.
  intros Hb [(He & Hsh & Hth) _ _ _ _] Hstep. specialize (Hth u).
  destruct Hstep as [q q' sh' x' Hq Hs|p p' sh' x' Hp Hs]; simpl.
  - rewrite Hq in Hth. by eapply query_step_ok; eauto using block_size_pos.
  - rewrite Hp in Hth. eapply dstep_ok; [done|lia|lia|exact Hth|done].
Qed.

Lemma thread_step_others u t s s' : t ≠ u → thread_step u s s' → threads s' !! t = threads s !! t.
Proof. intros Hne [q q' sh' x' _ _|p p' sh' x' _ _]; simpl; by apply lookup_partial_alter_ne. Qed.

(** While a thread other than the publisher is inside [partitions_mutex_] the
    table may be used. *)
Lemma table_ok_in_parts n s t p :
  class_inv n s → threads s !! t = Some (TPub p) → in_parts p = true → p_odd p = false →
  table_ok kLockCnt kBlocks (table (shared s)).
Proof.
  intros [(_ & (_ & _ & Heven & Hodd) & Hth) Hparts _ _ _] Hp Hin Hno. apply Heven.
  destruct (Z.odd (epoch (shared s))) eqn:He; [|done].
  destruct (Hodd eq_refl) as (u & Hu). specialize (Hth u).
  destruct (threads s !! u) as [[q|p']|] eqn:Hc; [..|destruct (Hth 0); by apply Hu].
  - destruct Hth as (Hh & Hev & _). rewrite He in Hev. pose proof (proj1 (Hh 0) (Hu 0 ltac:(lia))).
    specialize (Hev ltac:(lia)). done.
  - destruct Hth as (Hh & Hev & _). rewrite He in Hev. pose proof (proj1 (Hh 0) (Hu 0 ltac:(lia))).
    specialize (Hev ltac:(lia)).
    assert (t = u) as ->; [|congruence].
    apply (mutex_unique _ _ s t u Hparts); [by exists p|]. exists p'. split; [done|]. by destruct p'.
Qed.

(** ** Properties *)

(** C1. Mutual exclusion: in every interleaving of any number of queries,
    rebuilds, rebuilder rounds, [ForceSaveStats], [CountLocksForRange] and
    [PartitionCuts] calls on a fresh object, two queries that run [func] at the
    same time work on disjoint intervals (executions of fewer than [2^64] steps,
    so that the epoch does not wrap). *)
Theorem DynamicLock_exclusive n s0 s t1 t2 l1 r1 f1 e1 l2 r2 f2 e2 :
  dyn_initial s0 → nsteps dyn_step n s0 s → Z.of_nat n < modulus64 → t1 ≠ t2 →
  threads s !! t1 = Some (TQuery (QCrit l1 r1 f1 e1)) →
  threads s !! t2 = Some (TQuery (QCrit l2 r2 f2 e2)) →
  r1 < l2 ∨ r2 < l1.
Proof.
  intros [Hi _] Hs Hb Hne H1 H2.
  eapply (mutual_exclusion kLockCnt kBlocks block_size array_size in_query (Publisher0:=dynamic_publisher)); eauto using block_size_pos.
Qed.

(** C2. Isolation: while a query runs [func] on [l, r], no step of any other
    thread changes a position of [l, r], the block-to-lock table or the epoch,
    or takes one of the query's mutexes away. *)
Theorem DynamicLock_isolated n s0 s s' t u l r f e :
  dyn_initial s0 → nsteps dyn_step n s0 s → Z.of_nat n + 1 < modulus64 →
  threads s !! t = Some (TQuery (QCrit l r f e)) → t ≠ u → thread_step u s s' →
  threads s' !! t = Some (TQuery (QCrit l r f e)) ∧
  (∀ p, l ≤ p ≤ r → array (client s') !! p = array (client s) !! p) ∧
  table (shared s') = table (shared s) ∧ epoch (shared s') = epoch (shared s) ∧
  (∀ i, f ≤ i ≤ e → owner (shared s') !! i = Some t).
Proof.
  intros Hi Hs Hb Ht Hne Hstep.
  pose proof (class_inv_reachable n s0 s Hi Hs ltac:(lia)) as Hinv.
  pose proof (thread_step_guarantee n u s s' Hb Hinv Hstep) as HG.
  destruct Hinv as [(_ & _ & Hth) _ _ _ _]. pose proof (Hth t) as Hq. rewrite Ht in Hq.
  destruct Hq as (Hh & _ & Hlr & Hf & He & _); simpl in *.
  destruct (guarantee_frozen kLockCnt t u (shared s) (shared s') f) as [Htab Hep];
    [done|lia|apply Hh; simpl; lia|done|].
  split_and!; [by rewrite (thread_step_others u t s s')| |done|done|].
  - intros p Hp. destruct Hstep as [q q' sh' x' Hu Hqs|pc p' sh' x' Hu Hps]; simpl.
    + destruct (qstep_array _ _ _ _ _ _ _ Hqs) as [->|(l' & r' & f' & e' & -> & Ha)]; [done|].
      apply Ha. destruct Hi as [Hi _].
      assert (r < l' ∨ r' < l); [|lia].
      eapply (mutual_exclusion kLockCnt kBlocks block_size array_size in_query (Publisher0:=dynamic_publisher)); eauto using block_size_pos. lia.
    + by rewrite (dstep_array _ _ _ _ _ _ _ Hps).
  - intros i Hi'. apply (holds_stable kLockCnt t u (shared s) (shared s') _ Hne Hh HG). simpl. lia.
Qed.

(** [CountLocksForRange] may run at any time, concurrently with rebuilds:
    what it computes from the two table entries it reads under
    [partitions_mutex_] is the length of a non-empty interval of existing
    mutexes, so the subtraction never wraps. *)
Theorem CountLocksForRange_concurrent n s0 s t l r f e :
  dyn_initial s0 → nsteps dyn_step n s0 s → Z.of_nat n < modulus64 → kLockCnt < modulus64 →
  threads s !! t = Some (TPub (CountUnlock l r f e)) →
  0 ≤ f ≤ e ∧ e < kLockCnt ∧ 1 ≤ e -₆₄ f +₆₄ 1 ≤ kLockCnt.
Proof.
  intros Hi Hs Hb HK Ht.
  pose proof (class_inv_reachable n s0 s Hi Hs Hb) as Hinv.
  pose proof (table_ok_in_parts n s t _ Hinv Ht eq_refl eq_refl) as Htab.
  destruct Hinv as [(_ & _ & Hth) _ _ _ Hcount]. specialize (Hth t). rewrite Ht in Hth.
  destruct Hth as (_ & _ & Hlr). destruct (Hcount t _ Ht) as [-> ->].
  destruct (FindLocksSegment_range kLockCnt kBlocks HB (table (shared s)) block_size l r
    (seg_left kBlocks block_size (shared s) l) (seg_left kBlocks block_size (shared s) r) Htab)
    as [Hf He]; [by apply block_size_pos|done|done|].
  rewrite u64_sub_small by lia. rewrite u64_add_small by lia. lia.
Qed.

(** C3. The class cannot deadlock: in every reachable state in which some thread
    is inside a call, some such thread has a step that changes its program
    counter (a spin of the pause loop does not count). *)
Theorem DynamicLock_no_deadlock n s0 s :
  dyn_initial s0 → nsteps dyn_step n s0 s → Z.of_nat n < modulus64 →
  threads s ≠ ∅ → ∃ t s', thread_step t s s' ∧ threads s' !! t ≠ threads s !! t.
Proof.
  intros Hi Hs Hb Hne. pose proof (class_inv_reachable n s0 s Hi Hs Hb) as Hinv.
  apply map_choose in Hne as (t & c & Hc).
  destruct (progress_from n s (Z.to_nat (kLockCnt + 3)) t c Hinv Hc) as (u & s' & Hu); [|by exists u, s'].
  intros r Hr. assert (-1 ≤ rank r); [|lia]. destruct r as [|i| |]; simpl; try lia.
  destruct Hinv as [(_ & _ & Hth) _ _ _ _]. specialize (Hth t). rewrite Hc in Hth.
  destruct c as [[]|[]]; try done; destruct Hth as (_ & _ & Hok); simpl in *.
  - destruct (_ <=? _); [|done]. injection Hr as <-. lia.
  - destruct (_ <? _); [|done]. injection Hr as <-. lia.
Qed.

End DynamicProtocol.

(** *** A concrete execution: two mutexes, four blocks of two positions; threads
    1 and 2 run queries on [0, 3] and [4, 7], thread 3 counts the mutexes of [1, 6]. *)

Definition demo_start : dsys :=
  {| threads := ∅;
     shared := {| owner := ∅; table := [0; 0; 1; 1]; epoch := 0; pause := false |};
     client := {| stats := [0; 0; 0; 0]; crossings := [0; 0; 0; 0]; last_stats := [0; 0; 0; 0];
                  partitions := [0; 2; 4]; partitions_mutex := None; stats_mutex := None;
                  rebuild_flag := false; rebuild_count := 0; operation_count := 0;
                  total_lock_time := 0; array := ∅ |} |}.

Lemma demo_initial : dyn_initial 2 4 demo_start.
Proof.
  unfold dyn_initial, initial, table_ok. split_and!; try done; simpl.
  - intros b Hb. assert (b = 0 ∨ b = 1 ∨ b = 2 ∨ b = 3) as [->|[->|[->| ->]]] by lia; by vm_compute.
  - intros b b' Hb Hb'.
    assert (b = 0 ∨ b = 1 ∨ b = 2 ∨ b = 3) as [->|[->|[->| ->]]] by lia;
    assert (b' = 0 ∨ b' = 1 ∨ b' = 2 ∨ b' = 3) as [->|[->|[->| ->]]] by lia;
      first [by vm_compute|lia].
Qed.

Lemma two_pos : 0 < 2. Proof. done. Qed.
Lemma four_pos : 0 < 4. Proof. done. Qed.
Lemma eight_ok : 0 < 8 < modulus64. Proof. done. Qed.

Definition demo_step : dsys → dsys → Prop :=
  dyn_step 2 4 8 d_one d_one.

(** Run one step of a thread and compute the state reached. *)
Ltac demo_state :=
  match goal with |- nsteps _ _ ?s _ => let s' := eval vm_compute in s in change s with s' end.
Ltac demo_call tid l r :=
  eapply nsteps_l; [eapply step_call with (t := tid) (left := l) (right := r);
    [vm_compute; reflexivity|by vm_compute|by vm_compute|vm_compute; reflexivity]|]; demo_state.
Ltac demo_query tid :=
  eapply nsteps_l; [eapply step_query with (t := tid);
    [vm_compute; reflexivity|solve [econstructor; by vm_compute]]|]; demo_state.
Ltac demo_pub tid :=
  eapply nsteps_l; [eapply step_pub with (t := tid);
    [vm_compute; reflexivity|solve [apply d_client; econstructor; by vm_compute]]|]; demo_state.

Lemma demo_run :
  ∃ n s, nsteps demo_step n demo_start s ∧ (n < 100)%nat ∧
    threads s !! 1%nat = Some (TQuery (QCrit 0 3 0 0)) ∧
    threads s !! 2%nat = Some (TQuery (QCrit 4 7 1 1)) ∧
    threads s !! 3%nat = Some (TPub (CountUnlock 1 6 0 1)).
Proof.
  eexists _, _. unfold demo_step, dyn_step. split.
  - demo_call 1%nat 3 0. do 7 demo_query 1%nat.
    demo_call 2%nat 4 9. do 7 demo_query 2%nat.
    eapply nsteps_l; [eapply step_publish with (t := 3%nat) (p := CountLock 1 6); [by vm_compute|]|].
    { by apply (call_count 4 8 6 1). }
    demo_state.
    do 3 demo_pub 3%nat. apply nsteps_O.
  - split; [lia|]. by vm_compute.
Qed.

Lemma DynamicLock_exclusive_witness :
  ∃ n s, nsteps demo_step n demo_start s ∧
    threads s !! 1%nat = Some (TQuery (QCrit 0 3 0 0)) ∧
    threads s !! 2%nat = Some (TQuery (QCrit 4 7 1 1)) ∧ (3 < 4 ∨ 7 < 0).
Proof.
  destruct demo_run as (n & s & Hs & Hn & H1 & H2 & _). exists n, s. split_and!; [done..|].
  apply (DynamicLock_exclusive 2 4 8 d_one d_one two_pos four_pos eight_ok n demo_start s
    1%nat 2%nat 0 3 0 0 4 7 1 1); [apply demo_initial|done|unfold modulus64; lia|done|done|done].
Defined.

Lemma DynamicLock_isolated_witness :
  ∃ n s s', nsteps demo_step n demo_start s ∧
    thread_step 2 4 8 d_one d_one 2 s s' ∧
    (∀ p, 0 ≤ p ≤ 3 → array (client s') !! p = array (client s) !! p) ∧
    array (client s') !! 5 = Some 42.
Proof.
  destruct demo_run as (n & s & Hs & Hn & H1 & H2 & _).
  set (x' := let x := client s in {| x with array := <[5 := 42]> (array x) |}).
  assert (thread_step 2 4 8 d_one d_one 2 s (moved 2 (Some (TQuery (QCrit 4 7 1 1))) s (shared s) x')) as Hstep.
  { eapply (thread_query _ _ _ _ _ 2 s _ (Some (QCrit 4 7 1 1))); [done|]. apply q_crit.
    apply query_func. intros p Hp. apply lookup_insert_ne. lia. }
  exists n, s, (moved 2 (Some (TQuery (QCrit 4 7 1 1))) s (shared s) x').
  split; [done|]. split; [done|]. split.
  - apply (DynamicLock_isolated 2 4 8 d_one d_one two_pos four_pos eight_ok n demo_start s
      _ 1%nat 2%nat 0 3 0 0); [apply demo_initial|done|unfold modulus64; lia|done|done|done].
  - apply lookup_insert_eq.
Defined.

Lemma CountLocksForRange_concurrent_witness :
  ∃ n s, nsteps demo_step n demo_start s ∧
    threads s !! 3%nat = Some (TPub (CountUnlock 1 6 0 1)) ∧ 1 ≤ 1 -₆₄ 0 +₆₄ 1 ≤ 2.
Proof.
  destruct demo_run as (n & s & Hs & Hn & _ & _ & H3). exists n, s. split; [done|]. split; [done|].
  apply (CountLocksForRange_concurrent 2 4 8 d_one d_one two_pos four_pos eight_ok n demo_start s
    3%nat 1 6 0 1); [apply demo_initial|done|unfold modulus64; lia|done|done].
Defined.

Lemma DynamicLock_no_deadlock_witness :
  ∃ n s t s', nsteps demo_step n demo_start s ∧
    thread_step 2 4 8 d_one d_one t s s' ∧ threads s' !! t ≠ threads s !! t.
Proof.
  destruct demo_run as (n & s & Hs & Hn & H1 & _).
  destruct (DynamicLock_no_deadlock 2 4 8 d_one d_one two_pos four_pos eight_ok n demo_start s)
    as (t & s' & Ht & Hne); [apply demo_initial|done|unfold modulus64; lia| |].
  - intros He. rewrite He in H1. discriminate H1.
  - exists n, s, t, s'. exact (conj Hs (conj Ht Hne)).
Defined.
