(* ===== verification/Spinlock.v ===== *)
(** [spinlock] and the compare-and-swap loops.

    [common/spinlock.cpp] as a step relation, one step per atomic access, for any
    number of threads; [compare_exchange_weak] may fail spuriously. The spinlock
    is shown to refine an abstract mutex. The second part is [AddDuration], the
    compare-and-swap loop with which the three lock classes accumulate waiting
    times: no addition is lost. *)
From stdpp Require Export relations.
From S2P Require Import Prelude.

(** ** The spinlock *)

(** Program counters of [lock()] (before the exchange, with the local variable
    [expected]; in the inner loop; before [expected = false]) and of a thread
    that has returned from it. *)
Inductive spc := Exchange (expected : bool) | Waiting | Again | Locked.

Record spin := { locked_ : bool; spc_of : gmap nat spc }.

Definition at_pc (t : nat) (o : option spc) (b : bool) (s : spin) : spin :=
  {| locked_ := b; spc_of := partial_alter (λ _, o) t (spc_of s) |}.

(** A thread calls [unlock()] only when it holds the lock. *)
Inductive spin_step (t : nat) : spin → spin → Prop :=
  | spin_call s : spc_of s !! t = None →
      spin_step t s (at_pc t (Some (Exchange false)) (locked_ s) s)
  | spin_success s expected : spc_of s !! t = Some (Exchange expected) → locked_ s = expected →
      spin_step t s (at_pc t (Some Locked) true s)
  | spin_failure s expected : spc_of s !! t = Some (Exchange expected) →
      (* spuriously, or because the values differ *)
      spin_step t s (at_pc t (Some Waiting) (locked_ s) s)
  | spin_busy s : spc_of s !! t = Some Waiting → locked_ s = true →
      spin_step t s (at_pc t (Some Waiting) (locked_ s) s)
  | spin_free s : spc_of s !! t = Some Waiting → locked_ s = false →
      spin_step t s (at_pc t (Some Again) (locked_ s) s)
  | spin_again s : spc_of s !! t = Some Again →
      spin_step t s (at_pc t (Some (Exchange false)) (locked_ s) s)
  | spin_unlock s : spc_of s !! t = Some Locked →
      spin_step t s (at_pc t None false s).

Definition spin_any (s s' : spin) : Prop := ∃ t, spin_step t s s'.

Definition spin_initial : spin := {| locked_ := false; spc_of := ∅ |}.

(** *** The abstract mutex: who owns it *)

Inductive mutex_step (t : nat) : option nat → option nat → Prop :=
  | mutex_lock : mutex_step t None (Some t)
  | mutex_unlock : mutex_step t (Some t) None
  | mutex_idle o : mutex_step t o o.

(** The state of the spinlock stands for the owner [o]. *)
Definition spin_rel (s : spin) (o : option nat) : Prop :=
  locked_ s = bool_decide (is_Some o) ∧
  (∀ t, spc_of s !! t = Some Locked ↔ o = Some t) ∧
  (∀ t e, spc_of s !! t = Some (Exchange e) → e = false).

Lemma lookup_at_pc t o b s u :
  spc_of (at_pc t o b s) !! u = if decide (u = t) then o else spc_of s !! u.
Proof. simpl. case_decide; subst; [apply lookup_partial_alter_eq|by apply lookup_partial_alter_ne]. Qed.

(** A step that neither acquires nor releases. *)
Lemma spin_rel_idle s o t c :
  spin_rel s o → spc_of s !! t ≠ Some Locked → c ≠ Locked → (∀ e, c = Exchange e → e = false) →
  spin_rel (at_pc t (Some c) (locked_ s) s) o.
Proof.
  intros (Hl & Ho & He) Hnot Hc Hce. split; [done|]. split.
  - intros u. rewrite lookup_at_pc. case_decide; [subst u|done].
    rewrite <-Ho. split; congruence.
  - intros u e. rewrite lookup_at_pc. case_decide; [|by apply He]. intros [= ->]. by apply Hce.
Qed.

Lemma spin_simulation t s s' o :
  spin_rel s o → spin_step t s s' → ∃ o', mutex_step t o o' ∧ spin_rel s' o'.
Proof.
  intros Hrel Hstep. pose proof Hrel as (Hl & Ho & He).
  destruct Hstep as [s Hp|s e Hp Heq|s e Hp|s Hp Hb|s Hp Hb|s Hp|s Hp].
  1, 3, 4, 5, 6: exists o; split; [constructor|];
    apply spin_rel_idle; [done|rewrite Hp; congruence|congruence|congruence].
  - pose proof (He t e Hp) as ->. destruct o as [u|]; [by rewrite Hl in Heq|].
    exists (Some t). split; [constructor|]. split; [done|]. split.
    + intros u. rewrite lookup_at_pc. case_decide; [subst; done|]. rewrite Ho. split; congruence.
    + intros u e'. rewrite lookup_at_pc. case_decide; [congruence|apply He].
  - pose proof (proj1 (Ho t) Hp) as ->. exists None. split; [constructor|]. split; [done|]. split.
    + intros u. rewrite lookup_at_pc. case_decide; [subst; split; congruence|]. rewrite Ho. split; congruence.
    + intros u e'. rewrite lookup_at_pc. case_decide; [congruence|apply He].
Qed.

Lemma spin_rel_initial : spin_rel spin_initial None.
Proof.
  split; [done|]. split; [intros t; simpl; rewrite lookup_empty; split; congruence|].
  intros t e. simpl. by rewrite lookup_empty.
Qed.

Lemma spin_rel_reachable s : rtc spin_any spin_initial s → ∃ o, spin_rel s o.
Proof.
  intros Hs. cut (∀ s0, rtc spin_any s0 s → (∃ o, spin_rel s0 o) → ∃ o, spin_rel s o).
  { intros H. apply (H spin_initial Hs). exists None. apply spin_rel_initial. }
  intros s0 Hr. clear Hs. induction Hr as [|s0 s1 s2 (t & Hstep) _ IH]; [done|].
  intros (o & Ho). apply IH. destruct (spin_simulation _ _ _ _ Ho Hstep) as (o' & _ & ?). by exists o'.
Qed.

(** ** [AddDuration] *)

(** Program counters: before the load, and before the exchange with [current]. *)
Inductive apc := AddLoad (delta : Z) | AddExchange (delta current : Z).

(** [added] is the list of the durations whose calls have returned. *)
Record adder := { target : Z; apc_of : gmap nat apc; added : list Z }.

Inductive add_step (t : nat) : adder → adder → Prop :=
  | add_call s delta : apc_of s !! t = None →
      add_step t s {| s with apc_of := <[t := AddLoad delta]> (apc_of s) |}
  | add_load s delta : apc_of s !! t = Some (AddLoad delta) →
      add_step t s {| s with apc_of := <[t := AddExchange delta (target s)]> (apc_of s) |}
  | add_success s delta current : apc_of s !! t = Some (AddExchange delta current) →
      target s = current →
      add_step t s {| target := current + delta; apc_of := delete t (apc_of s); added := delta :: added s |}
  | add_failure s delta current : apc_of s !! t = Some (AddExchange delta current) →
      (* the failed exchange loads the present value into [current] *)
      add_step t s {| s with apc_of := <[t := AddExchange delta (target s)]> (apc_of s) |}.

Definition add_any (s s' : adder) : Prop := ∃ t, add_step t s s'.

(** ** Properties *)

(** C10. [spinlock] refines a mutex. In every reachable state there is an owner
    [o] that describes it: [locked_] says whether there is one, and it is the
    only thread that has returned from [lock()], so no two threads are inside
    the lock; every step of a thread is one of the abstract mutex: it acquires
    the mutex only when it is free, releases only its own, or does nothing. *)
Theorem spinlock_refines_mutex s :
  rtc spin_any spin_initial s →
  ∃ o, locked_ s = bool_decide (is_Some o) ∧
    (∀ t, spc_of s !! t = Some Locked ↔ o = Some t) ∧
    ∀ t s', spin_step t s s' → ∃ o', mutex_step t o o' ∧
      (∀ u, spc_of s' !! u = Some Locked ↔ o' = Some u).
Proof.
  intros Hs. destruct (spin_rel_reachable s Hs) as (o & Hrel). exists o.
  pose proof Hrel as (Hl & Ho & _). split; [done|]. split; [done|].
  intros t s' Hstep. destruct (spin_simulation _ _ _ _ Hrel Hstep) as (o' & Hm & _ & Ho' & _). eauto.
Qed.

Lemma spinlock_refines_mutex_witness :
  let s := at_pc 1 (Some Locked) true (at_pc 1 (Some (Exchange false)) false spin_initial) in
  rtc spin_any spin_initial s ∧
  ∃ o, locked_ s = bool_decide (is_Some o) ∧ (∀ t, spc_of s !! t = Some Locked ↔ o = Some t).
Proof.
  intros s. assert (rtc spin_any spin_initial s) as Hs.
  { eapply rtc_l; [exists 1%nat; by apply spin_call|].
    eapply rtc_l; [exists 1%nat; by apply (spin_success 1 _ false)|]. apply rtc_refl. }
  split; [exact Hs|]. destruct (spinlock_refines_mutex s Hs) as (o & H1 & H2 & _).
  exists o. exact (conj H1 H2).
Defined.

(** A thread that runs [lock()] alone on a free spinlock gets it within
    three of its own steps, from wherever it is in the loop, unless an exchange
    fails spuriously; and whoever holds it can always release it. *)
Theorem spinlock_progress s t :
  rtc spin_any spin_initial s → is_Some (spc_of s !! t) → 
  (locked_ s = false → ∃ n s', (n ≤ 3)%nat ∧ nsteps (spin_step t) n s s' ∧ spc_of s' !! t = Some Locked) ∧
  (locked_ s = true → ∃ u s', spin_step u s s' ∧ locked_ s' = false).
Proof.
  intros Hs [c Hc]. destruct (spin_rel_reachable s Hs) as (o & Hl & Ho & He). split; intros Hlk.
  - set (s1 := at_pc t (Some Locked) true).
    assert (∀ s0, spc_of s0 !! t = Some (Exchange false) → locked_ s0 = false →
      spin_step t s0 (s1 s0) ∧ spc_of (s1 s0) !! t = Some Locked) as Hx.
    { intros s0 H0 H1. split; [by apply (spin_success t s0 false)|].
      unfold s1. rewrite lookup_at_pc. by rewrite decide_True. }
    assert (∀ s0 c0, locked_ s0 = false → spc_of (at_pc t (Some c0) (locked_ s0) s0) !! t = Some c0 ∧
      locked_ (at_pc t (Some c0) (locked_ s0) s0) = false) as Hat.
    { intros s0 c0 H0. split; [|done]. rewrite lookup_at_pc. by rewrite decide_True. }
    destruct c as [e| | |].
    + pose proof (He t e Hc) as ->. destruct (Hx s Hc Hlk) as [H1 H2].
      exists 1%nat, (s1 s). split; [lia|]. split; [|done]. by apply nsteps_once.
    + destruct (Hat s Again Hlk) as [Ha Hla]. destruct (Hat _ (Exchange false) Hla) as [Hb Hlb].
      destruct (Hx _ Hb Hlb) as [H1 H2]. eexists 3%nat, _. split; [lia|]. split; [|exact H2].
      eapply nsteps_l; [by apply spin_free|]. eapply nsteps_l; [by apply spin_again|]. by apply nsteps_once.
    + destruct (Hat s (Exchange false) Hlk) as [Hb Hlb].
      destruct (Hx _ Hb Hlb) as [H1 H2]. eexists 2%nat, _. split; [lia|]. split; [|exact H2].
      eapply nsteps_l; [by apply spin_again|]. by apply nsteps_once.
    + exists 0%nat, s. split; [lia|]. split; [constructor|done].
  - destruct o as [u|]; [|by rewrite Hl in Hlk].
    exists u, (at_pc u None false s). split; [|done]. apply spin_unlock. by apply Ho.
Qed.

Lemma spinlock_progress_witness :
  let s := at_pc 1 (Some Waiting) false (at_pc 1 (Some (Exchange false)) false spin_initial) in
  ∃ n s', (n ≤ 3)%nat ∧ nsteps (spin_step 1) n s s' ∧ spc_of s' !! 1%nat = Some Locked.
Proof.
  intros s. apply (spinlock_progress s 1); [|by exists Waiting|reflexivity].
  eapply rtc_l; [exists 1%nat; by apply spin_call|].
  eapply rtc_l; [exists 1%nat; by apply (spin_failure 1 _ false)|]. apply rtc_refl.
Defined.

(** [AddDuration] loses no update: however the calls of any number of
    threads interleave, and however often the weak exchange fails, the
    accumulator is its initial value plus the durations of the calls that have
    returned, each counted once. *)
Theorem AddDuration_no_lost_update v s :
  rtc add_any {| target := v; apc_of := ∅; added := [] |} s → target s = v + zsum (added s).
Proof.
  intros Hs. cut (∀ s0, rtc add_any s0 s → target s0 = v + zsum (added s0) → target s = v + zsum (added s)).
  { intros H. apply (H _ Hs). simpl. lia. }
  intros s0 Hr. clear Hs. induction Hr as [|s0 s1 s2 (t & Hstep) _ IH]; [done|]. intros H0. apply IH.
  destruct Hstep as [s0 d _|s0 d _|s0 d c _ Hc|s0 d c _]; simpl in *; lia.
Qed.

Lemma AddDuration_no_lost_update_witness :
  ∃ s, rtc add_any {| target := 10; apc_of := ∅; added := [] |} s ∧ target s = 10 + zsum [5].
Proof.
  set (s0 := {| target := 10; apc_of := ∅; added := [] |}).
  set (s3 := {| target := 10 + 5; apc_of := delete 1%nat (<[1%nat := AddExchange 5 10]> (<[1%nat := AddLoad 5]> ∅));
                added := [5] |}).
  assert (rtc add_any s0 s3) as Hs.
  { eapply rtc_l; [exists 1%nat; by apply (add_call 1 s0 5)|].
    eapply rtc_l; [exists 1%nat; by apply (add_load 1 _ 5)|].
    eapply rtc_l; [exists 1%nat; by apply (add_success 1 _ 5 10)|]. apply rtc_refl. }
  exists s3. split; [exact Hs|]. exact (AddDuration_no_lost_update 10 s3 Hs).
Defined.
