(* ===== verification/NaiveLock.v ===== *)
(** [NaiveLock]: the baseline with equal segments ([common/naive_lock.hpp]).

    The object, its methods run by one thread at a time, and its contract. A
    [size_t] division by zero is undefined behaviour: the methods that divide
    return [None] then, and the file shows exactly when that can happen. *)
From S2P Require Import BlockMap RangeLock Double Prelude.

Record NaiveLock := {
  n_array_size_ : Z;
  n_block_size_ : Z;
  n_locks_ : gmap Z nat;
  n_operation_count_ : Z;
  n_total_lock_time_ : Z
}.

Section NaiveLock.
  Variable kLockCnt : Z.

(** The constructor: [array_size == 0 ? 1 : (array_size + kLockCnt - 1) / kLockCnt]. *)
Definition naive_make (array_size : Z) : NaiveLock :=
  {| n_array_size_ := array_size;
     n_block_size_ := if array_size =? 0 then 1 else (array_size +₆₄ kLockCnt -₆₄ 1) / kLockCnt;
     n_locks_ := ∅; n_operation_count_ := 0; n_total_lock_time_ := 0 |}.

(** [std::min(pos / block_size_, kLockCnt - 1)]; [None] for a division by zero. *)
Definition naive_lock_of (d : NaiveLock) (pos : Z) : option Z :=
  if n_block_size_ d =? 0 then None
  else Some (Z.min (pos / n_block_size_ d) (kLockCnt -₆₄ 1)).

(** [first_lock] and [last_lock]. *)
Definition naive_segment (d : NaiveLock) (left right : Z) : option (Z * Z) :=
  match naive_lock_of d left, naive_lock_of d right with
  | Some first_lock, Some last_lock => Some (first_lock, last_lock)
  | _, _ => None
  end.

(** [WriteQuery] by thread [me]; the [std::lock_guard] of the one-mutex case is
    the guard on an interval of one mutex. *)
Definition naive_WriteQuery {D : Type} (me : nat) (throws : Z → bool) (delta : Z) (left right : Z)
    (func : Z → Z → D → D) (st : NaiveLock * D) : option (outcome unit * (NaiveLock * D)) :=
  let (d, data) := st in
  if n_array_size_ d =? 0 then Some (Returned tt, st)
  else
    let (left, right) := normalize (n_array_size_ d) left right in
    match naive_segment d left right with
    | None => None
    | Some (first_lock, last_lock) =>
        match construct me throws first_lock last_lock (n_locks_ d) with
        | (locks, Thrown) => Some (Thrown, ({| d with n_locks_ := locks |}, data))
        | (locks, Returned guard) =>
            let d := {| d with n_total_lock_time_ := n_total_lock_time_ d + delta;
                               n_operation_count_ := n_operation_count_ d +₆₄ 1;
                               n_locks_ := locks |} in
            let data := func left right data in
            Some (Returned tt, ({| d with n_locks_ := destroy guard (n_locks_ d) |}, data))
        end
    end.

Definition naive_CountLocksForRange (d : NaiveLock) (left right : Z) : option Z :=
  if n_array_size_ d =? 0 then Some 0
  else
    let (left, right) := normalize (n_array_size_ d) left right in
    match naive_segment d left right with
    | None => None
    | Some (first_lock, last_lock) => Some (last_lock -₆₄ first_lock +₆₄ 1)
    end.

Definition naive_GetTotalLockTimeMs (d : NaiveLock) : double :=
  d_of_Z (n_total_lock_time_ d) /ᵈ d_of_Z 1000000.

Definition naive_GetAvgLockTimeMs (d : NaiveLock) : double :=
  let operations := n_operation_count_ d in
  if operations =? 0 then d_zero else naive_GetTotalLockTimeMs d /ᵈ d_of_Z operations.

Definition naive_ResetRuntimeStats (d : NaiveLock) : NaiveLock :=
  {| d with n_operation_count_ := 0; n_total_lock_time_ := 0 |}.

(** [StartRebuilder], [StopRebuilder] and [ForceSaveStats] do nothing. *)
Definition naive_StartRebuilder (d : NaiveLock) : NaiveLock := d.
Definition naive_StopRebuilder (d : NaiveLock) : NaiveLock := d.
Definition naive_ForceSaveStats (d : NaiveLock) : NaiveLock := d.
Definition naive_GetRebuildCount (d : NaiveLock) : Z := 0.

(** ** The invariant *)

(** A block size is usable when it is positive and [kLockCnt] blocks cover the array. *)
Definition naive_ok (d : NaiveLock) : Prop :=
  is_u64 (n_array_size_ d) ∧ 1 ≤ n_block_size_ d ∧
  n_array_size_ d ≤ n_block_size_ d * kLockCnt ∧ n_locks_ d = ∅.

Context (HL : 0 < kLockCnt < modulus64).

Lemma naive_make_ok n : 0 ≤ n → n + kLockCnt - 1 < modulus64 → naive_ok (naive_make n).
Proof.
  intros Hn Hb. unfold naive_ok, naive_make, is_u64; simpl. destruct (Z.eqb_spec n 0); [split_and!; done || lia|].
  assert (n +₆₄ kLockCnt -₆₄ 1 = n + kLockCnt - 1) as ->.
  { unfold u64_sub, u64_add, u64. rewrite Zminus_mod_idemp_l. apply Z.mod_small. lia. }
  pose proof (Z.div_mod (n + kLockCnt - 1) kLockCnt ltac:(lia)).
  pose proof (Z.mod_pos_bound (n + kLockCnt - 1) kLockCnt ltac:(lia)).
  set (q := (n + kLockCnt - 1) / kLockCnt) in *. split_and!; try lia; try done; nia.
Qed.

Lemma naive_lock_of_spec d p :
  naive_ok d → 0 ≤ p < n_array_size_ d →
  naive_lock_of d p = Some (p / n_block_size_ d) ∧ 0 ≤ p / n_block_size_ d < kLockCnt.
Proof.
  intros (_ & Hb & Hc & _) Hp. unfold naive_lock_of. destruct (Z.eqb_spec (n_block_size_ d) 0); [lia|].
  assert (p / n_block_size_ d < kLockCnt) by (apply Z.div_lt_upper_bound; nia).
  assert (0 ≤ p / n_block_size_ d) by (apply Z.div_pos; lia).
  rewrite u64_sub_small by lia. split; [f_equal; lia|lia].
Qed.

Lemma naive_segment_spec d l r :
  naive_ok d → 0 ≤ l ≤ r → r < n_array_size_ d →
  naive_segment d l r = Some (l / n_block_size_ d, r / n_block_size_ d) ∧
  0 ≤ l / n_block_size_ d ≤ r / n_block_size_ d ∧ r / n_block_size_ d < kLockCnt.
Proof.
  intros Hd Hlr Hr. unfold naive_segment.
  destruct (naive_lock_of_spec d l Hd ltac:(lia)) as [-> ?].
  destruct (naive_lock_of_spec d r Hd ltac:(lia)) as [-> ?].
  split; [done|]. split; [|lia]. split; [lia|]. apply Z.div_le_mono; destruct Hd; lia.
Qed.

(** The object after a query that ran. *)
Definition naive_counted (d : NaiveLock) (delta : Z) : NaiveLock :=
  {| d with n_total_lock_time_ := n_total_lock_time_ d + delta;
            n_operation_count_ := n_operation_count_ d +₆₄ 1 |}.

Lemma naive_WriteQuery_eq {D : Type} me throws delta l r (func : Z → Z → D → D) d data :
  naive_ok d → n_array_size_ d ≠ 0 → is_u64 l → is_u64 r →
  let (left, right) := normalize (n_array_size_ d) l r in
  naive_WriteQuery me throws delta l r func (d, data) =
    if existsb throws (seqZ (left / n_block_size_ d) (right / n_block_size_ d - left / n_block_size_ d + 1))
    then Some (Thrown, (d, data))
    else Some (Returned tt, (naive_counted d delta, func left right data)).
Proof.
  intros Hd Hn Hl Hr. pose proof Hd as (Hs & Hb & Hc & Hf). unfold naive_WriteQuery.
  destruct (Z.eqb_spec (n_array_size_ d) 0); [done|]. unfold is_u64 in *.
  destruct (normalize (n_array_size_ d) l r) as [left right] eqn:Hnorm.
  pose proof (normalize_range (n_array_size_ d) l r left right ltac:(lia) ltac:(lia) ltac:(lia) Hnorm).
  destruct (naive_segment_spec d left right Hd ltac:(lia) ltac:(lia)) as (-> & Hfe & He).
  destruct (construct_cases me throws (left / n_block_size_ d) (right / n_block_size_ d) (n_locks_ d))
    as (locks' & Hh & ->); [lia|rewrite Hf; apply range_free_empty|].
  destruct (existsb throws _); [by destruct d|]. simpl.
  rewrite (destroy_spec me (left / n_block_size_ d) (right / n_block_size_ d) (n_locks_ d) locks');
    [done|lia|rewrite Hf; apply range_free_empty|done].
Qed.

End NaiveLock.

(** ** Properties *)

(** C11. [NaiveLock] on an array for which [array_size + kLockCnt - 1] does not
    overflow: [WriteQuery] runs [func] exactly once, on the clamped and ordered
    interval, unless [lock()] throws, in which case the object is unchanged; the
    mutexes it holds meanwhile are [left / block_size .. right / block_size], as
    many as [CountLocksForRange] says, at most [kLockCnt]; and two queries with a
    common position have a common mutex. *)
Theorem NaiveLock_correct {D : Type} kLockCnt n me throws delta l r (func : Z → Z → D → D) data :
  0 < kLockCnt → 0 < n → n + kLockCnt - 1 < modulus64 → is_u64 l → is_u64 r →
  let d := naive_make kLockCnt n in
  let left := Z.min (Z.min l r) (n - 1) in
  let right := Z.min (Z.max l r) (n - 1) in
  let first := left / n_block_size_ d in
  let last := right / n_block_size_ d in
  naive_WriteQuery kLockCnt me throws delta l r func (d, data) =
    (if existsb throws (seqZ first (last - first + 1)) then Some (Thrown, (d, data))
     else Some (Returned tt, (naive_counted d delta, func left right data))) ∧
  naive_CountLocksForRange kLockCnt d l r = Some (last - first + 1) ∧
  1 ≤ last - first + 1 ≤ kLockCnt ∧
  ∀ p, left ≤ p ≤ right → first ≤ p / n_block_size_ d ≤ last.
Proof.
  intros HL Hn Hb Hl Hr d left right first last. unfold is_u64 in *.
  assert (naive_ok kLockCnt d) as Hd by (apply naive_make_ok; lia).
  assert (normalize n l r = (left, right)) as Hnorm by (rewrite normalize_spec by lia; f_equal; lia).
  pose proof (naive_WriteQuery_eq kLockCnt ltac:(lia) me throws delta l r func d data Hd) as Hw.
  change (n_array_size_ d) with n in Hw. rewrite Hnorm in Hw.
  destruct (naive_segment_spec kLockCnt ltac:(lia) d left right Hd) as (Hseg & Hfe & He);
    [lia|change (n_array_size_ d) with n; lia|]. fold first last in Hseg, Hfe, He.
  split; [apply Hw; unfold is_u64; lia|]. split; [|split; [lia|]].
  - unfold naive_CountLocksForRange. change (n_array_size_ d) with n.
    destruct (Z.eqb_spec n 0); [lia|]. rewrite Hnorm, Hseg.
    rewrite u64_sub_small by lia. rewrite u64_add_small by lia. done.
  - intros p Hp. destruct Hd as (_ & Hbs & _). split; apply Z.div_le_mono; lia.
Qed.

Lemma NaiveLock_correct_witness :
  naive_CountLocksForRange 4 (naive_make 4 10) 9 2 = Some 4 ∧
  naive_WriteQuery 4 7 (λ _, false) 5 9 2 (λ l r x, (l, r) :: x) (naive_make 4 10, []) =
    Some (Returned tt, (naive_counted (naive_make 4 10) 5, [(2, 9)])).
Proof.
  split; [vm_compute; reflexivity|].
  apply (NaiveLock_correct 4 10 7 (λ _, false) 5 9 2 (λ l r x, (l, r) :: x) []);
    try lia; by vm_compute.
Defined.

(** For the largest arrays the constructor's [array_size + kLockCnt - 1]
    wraps around: when the sum reaches [2^64] the block size is [0], and every
    [WriteQuery] and [CountLocksForRange] divides by zero (undefined behaviour);
    [DynamicLock]'s formula [1 + (array_size - 1) / kBlocks] has no such case. *)
Theorem NaiveLock_overflow {D : Type} kLockCnt n me throws delta l r (func : Z → Z → D → D) data :
  0 < kLockCnt → kLockCnt < modulus64 → 0 < n < modulus64 → modulus64 ≤ n + kLockCnt - 1 →
  let d := naive_make kLockCnt n in
  n_block_size_ d = 0 ∧
  naive_WriteQuery kLockCnt me throws delta l r func (d, data) = None ∧
  naive_CountLocksForRange kLockCnt d l r = None ∧
  1 ≤ init_block_size kLockCnt n.
Proof.
  intros HL HK Hn Hb d.
  assert (n_block_size_ d = 0) as Hz.
  { unfold d, naive_make; simpl. destruct (Z.eqb_spec n 0); [lia|].
    unfold u64_sub, u64_add, u64. rewrite Zminus_mod_idemp_l.
    assert ((n + kLockCnt - 1) mod modulus64 = n + kLockCnt - 1 - modulus64) as ->.
    { symmetry. apply (Z.mod_unique _ _ 1); lia. }
    apply Z.div_small. lia. }
  assert (∀ p, naive_lock_of kLockCnt d p = None) as Hnone by (intros; unfold naive_lock_of; by rewrite Hz).
  split; [done|]. split_and!.
  - unfold naive_WriteQuery. change (n_array_size_ d) with n. destruct (Z.eqb_spec n 0); [lia|].
    destruct (normalize n l r). unfold naive_segment. by rewrite Hnone.
  - unfold naive_CountLocksForRange. change (n_array_size_ d) with n. destruct (Z.eqb_spec n 0); [lia|].
    destruct (normalize n l r). unfold naive_segment. by rewrite Hnone.
  - apply init_block_size_pos; lia.
Qed.

Lemma NaiveLock_overflow_witness :
  naive_CountLocksForRange 2 (naive_make 2 (modulus64 - 1)) 0 5 = None ∧
  n_block_size_ (naive_make 2 (modulus64 - 1)) = 0.
Proof.
  destruct (NaiveLock_overflow (D:=Z) 2 (modulus64 - 1) 0 (λ _, false) 0 0 5 (λ _ _ x, x) 0)
    as (H1 & _ & H2 & _); [by vm_compute|by vm_compute|by vm_compute|by vm_compute|].
  exact (conj H2 H1).
Defined.
