(* ===== verification/Random.v ===== *)
(** Random computations.

    The genetic partitioner and the workload generators draw from
    [std::uniform_int_distribution] and [std::bernoulli_distribution] over an
    engine. The standard fixes the range of a draw but not the algorithm of the
    distributions, so a source of randomness is an interface: the type of the
    engine's state, the two draws, and their documented range. A computation that
    draws is a state transformer that may also run out of the fuel of its loops;
    [wp] is its total-correctness judgement: with enough fuel it returns, and its
    result satisfies the postcondition. *)
From S2P Require Import Double Prelude.

Class RandomSource := {
  rng : Type;
  uniform_int : Z → Z → rng → Z * rng;
  bernoulli : double → rng → bool * rng;
  uniform_int_range lo hi g : lo ≤ hi → lo ≤ (uniform_int lo hi g).1 ≤ hi
}.

(** The engine after [n] draws from [[lo, hi]]. *)
Fixpoint after_draws `{R : RandomSource} (n : nat) (lo hi : Z) (g : rng) : rng :=
  match n with
  | O => g
  | S n' => after_draws n' lo hi (uniform_int lo hi g).2
  end.

(** Repeating a draw eventually gives every value of its range, which is what the
    rejection loop of [MakeRandomChromosome] needs to end. *)
Class FairSource (R : RandomSource) :=
  uniform_int_fair lo hi v g :
    lo ≤ v ≤ hi → ∃ n, (uniform_int lo hi (after_draws n lo hi g)).1 = v.

Section Random.
  Context `{R : RandomSource}.

Definition rand (A : Type) : Type := nat → rng → option (A * rng).

#[export] Instance rand_ret : MRet rand := λ A a _ g, Some (a, g).
#[export] Instance rand_bind : MBind rand := λ A B k m fuel g,
  match m fuel g with
  | Some (a, g) => k a fuel g
  | None => None
  end.

Definition draw (lo hi : Z) : rand Z := λ _ g, Some (uniform_int lo hi g).
Definition coin (p : double) : rand bool := λ _ g, Some (bernoulli p g).

(** [for (i = lo; i < lo + n; ++i)] *)
Fixpoint rand_for {S : Type} (n : nat) (i : Z) (body : Z → S → rand S) (s : S) : rand S :=
  match n with
  | O => mret s
  | Datatypes.S n' => s ← body i s; rand_for n' (i + 1) body s
  end.

(** [while (cond) body], as many rounds as the fuel allows. *)
Fixpoint rand_while_n {S : Type} (k : nat) (cond : S → bool) (body : S → rand S) (s : S) : rand S :=
  λ fuel g,
  if cond s then
    match k with
    | O => None
    | Datatypes.S k' => (s ← body s; rand_while_n k' cond body s) fuel g
    end
  else Some (s, g).

Definition rand_while {S : Type} (cond : S → bool) (body : S → rand S) (s : S) : rand S :=
  λ fuel g, rand_while_n fuel cond body s fuel g.

(** ** Total correctness *)

Definition wp {A} (m : rand A) (Q : A → Prop) : Prop :=
  ∀ g, ∃ N a g', Q a ∧ ∀ fuel, (N ≤ fuel)%nat → m fuel g = Some (a, g').

Lemma wp_ret {A} (a : A) (Q : A → Prop) : Q a → wp (mret a) Q.
Proof. intros HQ g. by exists O, a, g. Qed.

Lemma wp_bind {A B} (m : rand A) (k : A → rand B) (P : A → Prop) (Q : B → Prop) :
  wp m P → (∀ a, P a → wp (k a) Q) → wp (m ≫= k) Q.
Proof.
  intros Hm Hk g. destruct (Hm g) as (N & a & g' & HP & Hrun).
  destruct (Hk a HP g') as (N' & b & g'' & HQ & Hrun').
  exists (N + N')%nat, b, g''. split; [done|]. intros fuel Hf.
  unfold mbind, rand_bind. rewrite Hrun by lia. apply Hrun'. lia.
Qed.

Lemma wp_mono {A} (m : rand A) (P Q : A → Prop) : wp m P → (∀ a, P a → Q a) → wp m Q.
Proof.
  intros Hm HPQ g. destruct (Hm g) as (N & a & g' & HP & Hrun). exists N, a, g'. auto.
Qed.

(** What holds of every result may be added to the postcondition. *)
Lemma wp_frame {A} (m : rand A) (Q F : A → Prop) :
  wp m Q → (∀ fuel g a g', m fuel g = Some (a, g') → F a) → wp m (λ a, Q a ∧ F a).
Proof.
  intros Hm HF g. destruct (Hm g) as (N & a & g' & HQ & Hrun). exists N, a, g'.
  split; [|done]. split; [done|]. by apply (HF N g a g'), Hrun.
Qed.

(** [m] returns [a] from [g], leaving [g'], with any sufficient fuel. *)
Definition returns {A} (m : rand A) (g : rng) (a : A) (g' : rng) : Prop :=
  ∃ N, ∀ fuel, (N ≤ fuel)%nat → m fuel g = Some (a, g').

Lemma wp_returns {A} (m : rand A) (Q : A → Prop) g a g' : wp m Q → returns m g a g' → Q a.
Proof.
  intros Hm [N HN]. destruct (Hm g) as (N' & b & g'' & HQ & Hrun).
  specialize (HN (N + N')%nat ltac:(lia)). rewrite Hrun in HN by lia. by injection HN as <- _.
Qed.

Lemma wp_draw lo hi : lo ≤ hi → wp (draw lo hi) (λ v, lo ≤ v ≤ hi).
Proof.
  intros Hle g. exists O, (uniform_int lo hi g).1, (uniform_int lo hi g).2.
  split; [by apply uniform_int_range|]. intros. unfold draw. by rewrite <-surjective_pairing.
Qed.

Lemma wp_coin p : wp (coin p) (λ _, True).
Proof.
  intros g. exists O, (bernoulli p g).1, (bernoulli p g).2. split; [done|].
  intros. unfold coin. by rewrite <-surjective_pairing.
Qed.

Lemma wp_for {S} (I : Z → S → Prop) n i (body : Z → S → rand S) s :
  I i s → (∀ j t, i ≤ j < i + Z.of_nat n → I j t → wp (body j t) (I (j + 1))) →
  wp (rand_for n i body s) (I (i + Z.of_nat n)).
Proof.
  revert i s. induction n as [|n IH]; intros i s H0 Hstep; cbn [rand_for].
  - apply wp_ret. by rewrite Z.add_0_r.
  - eapply wp_bind; [apply Hstep; [lia|done]|]. intros t Ht.
    replace (i + Z.of_nat (Datatypes.S n)) with (i + 1 + Z.of_nat n) by lia.
    apply IH; [done|]. intros j u Hj. apply Hstep. lia.
Qed.

(** The loop returns from [s] and [g], for all sufficient fuels and rounds. *)
Definition loop_wp {S} (cond : S → bool) (body : S → rand S) (s : S) (g : rng) (Q : S → Prop) : Prop :=
  ∃ N K r g', Q r ∧ ∀ fuel k, (N ≤ fuel)%nat → (K ≤ k)%nat →
    rand_while_n k cond body s fuel g = Some (r, g').

Lemma loop_wp_stop {S} (cond : S → bool) (body : S → rand S) s g (Q : S → Prop) :
  cond s = false → Q s → loop_wp cond body s g Q.
Proof.
  intros Hc HQ. exists O, O, s, g. split; [done|]. intros fuel [|k] _ _; cbn [rand_while_n]; by rewrite Hc.
Qed.

(** One round: [body] returns [t], from which the loop returns. *)
Lemma loop_wp_round {S} (cond : S → bool) (body : S → rand S) s g t g' N (Q : S → Prop) :
  cond s = true → (∀ fuel, (N ≤ fuel)%nat → body s fuel g = Some (t, g')) →
  loop_wp cond body t g' Q → loop_wp cond body s g Q.
Proof.
  intros Hc Hrun (N' & K & r & g'' & HQ & Hloop). exists (N + N')%nat, (Datatypes.S K), r, g''.
  split; [done|]. intros fuel [|k] Hf Hk; [lia|]. cbn [rand_while_n]. rewrite Hc.
  unfold mbind, rand_bind. rewrite Hrun by lia. apply Hloop; lia.
Qed.

Lemma wp_loop {S} (cond : S → bool) (body : S → rand S) s (Q : S → Prop) :
  (∀ g, loop_wp cond body s g Q) → wp (rand_while cond body s) Q.
Proof.
  intros Hl g. destruct (Hl g) as (N & K & r & g' & HQ & Hloop).
  exists (N + K)%nat, r, g'. split; [done|]. intros fuel Hf. apply Hloop; lia.
Qed.

(** A loop whose rounds decrease a measure. *)
Lemma wp_while {S} (I : S → Prop) (μ : S → nat) (cond : S → bool) (body : S → rand S) s :
  I s → (∀ t, I t → cond t = true → wp (body t) (λ t', I t' ∧ (μ t' < μ t)%nat)) →
  wp (rand_while cond body s) (λ r, I r ∧ cond r = false).
Proof.
  intros H0 Hbody. apply wp_loop.
  cut (∀ n t, (μ t ≤ n)%nat → I t → ∀ g, loop_wp cond body t g (λ r, I r ∧ cond r = false)).
  { intros H g. by apply (H (μ s)). }
  induction n as [|n IH]; intros t Hμ HI g; destruct (cond t) eqn:Hc;
    try (by apply loop_wp_stop); destruct (Hbody t HI Hc g) as (N & t' & g' & [HI' Hlt] & Hrun).
  - lia.
  - eapply loop_wp_round; [done|exact Hrun|]. apply IH; [lia|done].
Qed.

End Random.

(** ** A concrete source

    A counter: each draw is the counter reduced into the range. It satisfies the
    interface and is fair; the witnesses run the development on it. *)

#[export] Instance counter_source : RandomSource.
Proof.
  refine {| rng := Z;
            uniform_int := λ lo hi g, (lo + g mod (hi - lo + 1), g + 1);
            bernoulli := λ _ g, (Z.odd g, g + 1) |}.
  intros lo hi g Hle. simpl. pose proof (Z.mod_pos_bound g (hi - lo + 1) ltac:(lia)). lia.
Defined.

Lemma counter_after_draws n lo hi (g : Z) :
  after_draws (R:=counter_source) n lo hi g = g + Z.of_nat n.
Proof.
  revert g. induction n as [|n IH]; intros g; cbn [after_draws]; [lia|].
  change (uniform_int (RandomSource:=counter_source) lo hi g).2 with (g + 1). rewrite IH. lia.
Qed.

#[export] Instance counter_fair : FairSource counter_source.
Proof.
  intros lo hi v g Hv. exists (Z.to_nat ((v - lo - g) mod (hi - lo + 1))).
  rewrite counter_after_draws. simpl.
  rewrite Z2Nat.id by (apply Z.mod_pos_bound; lia).
  rewrite Z.add_mod_idemp_r by lia. replace (g + (v - lo - g)) with (v - lo) by lia.
  rewrite Z.mod_small by lia. lia.
Qed.
