(* ===== verification/Chromosome.v ===== *)
(** Chromosomes: the cut vectors of the genetic partitioner and its operators.

    The pure part of [genetic/genetic_partitioner.hpp]: the constructors of cut
    vectors (uniform, guided by a profile, load-balanced by dynamic programming,
    random), [RepairInternalCuts], [MoveToward], [Crossover], [Mutate],
    [FindLockForBlock] and the evaluation of a partition on a batch of queries.
    The main results are that every operator yields strictly increasing cuts from
    [0] to [kBlocks], whatever the floating-point profile and the draws are, and
    that the lock found for a block is the one of [RefreshBlockToLock]'s table. *)
From stdpp Require Import sorting.
From S2P Require Import BlockMap Double Random Prelude.

(** [struct Query] of [common/request_workload.hpp]. *)
Record Query := { q_left : Z; q_right : Z; q_target : Z; q_delta : Z }.

#[export] Instance Query_inhabited : Inhabited Query :=
  populate {| q_left := 0; q_right := 0; q_target := 0; q_delta := 0 |}.

Record PartitionMetrics := {
  contention_score : Z;
  avg_mutexes_per_query : double;
  fitness : double
}.

(** [PartitionMetrics{}]. *)
Definition no_metrics : PartitionMetrics :=
  {| contention_score := 0; avg_mutexes_per_query := d_zero; fitness := d_zero |}.

Record Chromosome := { cuts : list Z; metrics : PartitionMetrics }.

#[export] Instance Chromosome_inhabited : Inhabited Chromosome :=
  populate {| cuts := []; metrics := no_metrics |}.

Section Chromosome.
  Variables (kLockCnt kBlocks : Z).
  Context `{R : RandomSource}.

(** ** Constructors *)

Definition MakeUniformChromosome : Chromosome :=
  {| cuts := uniform_cuts kLockCnt kBlocks; metrics := no_metrics |}.

Definition profile_mass (profile : list double) : double := foldl d_add d_zero profile.

(** [prefix[block + 1] = prefix[block] + profile[block]] *)
Definition profile_prefix (profile : list double) : list double :=
  for_range 0 kBlocks (λ block p, p.[block + 1 <- p.[block] +ᵈ profile.[block]])
    (replicate (Z.to_nat (kBlocks + 1)) d_zero).

(** [while (cut < max_cut && prefix[cut] < target) ++cut;] in at most [n] rounds. *)
Fixpoint advance_cut (n : nat) (prefix : list double) (target : double) (max_cut cut : Z) : Z :=
  match n with
  | O => cut
  | S n' => if (cut <? max_cut) && (prefix.[cut] <?ᵈ target)
            then advance_cut n' prefix target max_cut (cut + 1) else cut
  end.

(** One lock of the guided chromosome; the state is [previous_cut] and the cuts. *)
Definition guided_body (prefix : list double) (total_mass : double) (lock_index : Z)
    (st : Z * list Z) : Z * list Z :=
  let target := total_mass *ᵈ d_of_Z lock_index /ᵈ d_of_Z kLockCnt in
  let cut := st.1 + 1 in
  let max_cut := kBlocks - (kLockCnt - lock_index) in
  let cut := advance_cut (Z.to_nat kBlocks) prefix target max_cut cut in
  (cut, st.2.[lock_index <- cut]).

Definition MakeProfileGuidedChromosome (profile : list double) : Chromosome :=
  let total_mass := profile_mass profile in
  if total_mass <=?ᵈ d_zero then MakeUniformChromosome
  else
    let prefix := profile_prefix profile in
    let cuts := (replicate (Z.to_nat (kLockCnt + 1)) 0).[0 <- 0] in
    let '(_, cuts) := for_range 1 kLockCnt (guided_body prefix total_mass) (0, cuts) in
    {| cuts := cuts.[kLockCnt <- kBlocks]; metrics := no_metrics |}.

(** [index(block, locks)] of the flat tables. *)
Definition index (block locks : Z) : Z := block * (kLockCnt + 1) + locks.

Record balance := { dp : list double; split : list Z }.

Definition balance_relax (prefix : list double) (right locks left : Z) (t : balance) : balance :=
  let previous := (dp t).[index left (locks - 1)] in
  if negb (d_isfinite previous) then t
  else
    let weight := prefix.[right] -ᵈ prefix.[left] in
    let candidate := previous +ᵈ weight *ᵈ weight in
    if candidate <?ᵈ (dp t).[index right locks]
    then {| dp := (dp t).[index right locks <- candidate];
            split := (split t).[index right locks <- left] |}
    else t.

Definition balance_tables (prefix : list double) : balance :=
  let columns := kLockCnt + 1 in
  let n := Z.to_nat ((kBlocks + 1) * columns) in
  let t := {| dp := (replicate n d_infinity).[index 0 0 <- d_zero]; split := replicate n 0 |} in
  for_range 1 (kBlocks + 1) (λ right,
    let max_locks := Z.min right kLockCnt in
    for_range 1 (max_locks + 1) (λ locks,
      let min_left := locks - 1 in
      for_range min_left right (balance_relax prefix right locks))) t.

(** The walk back; iteration [i] handles [locks = kLockCnt - i]. *)
Definition balance_back (split : list Z) (i : Z) (st : Z * list Z) : Z * list Z :=
  let locks := kLockCnt - i in
  let left := split.[index st.1 locks] in
  (left, st.2.[locks - 1 <- left]).

Definition MakeLoadBalancedChromosome (profile : list double) : Chromosome :=
  let total_mass := profile_mass profile in
  if total_mass <=?ᵈ d_zero then MakeUniformChromosome
  else
    let t := balance_tables (profile_prefix profile) in
    let cuts := (replicate (Z.to_nat (kLockCnt + 1)) 0).[kLockCnt <- kBlocks] in
    {| cuts := (for_range 0 kLockCnt (balance_back (split t)) (kBlocks, cuts)).2;
       metrics := no_metrics |}.

Definition MakeChromosomeFromInternalCuts (internal : list Z) : Chromosome :=
  {| cuts := 0 :: internal ++ [kBlocks]; metrics := no_metrics |}.

(** One round of the rejection loop: the state is [internal] and [used]. *)
Definition random_body (st : list Z * list bool) : rand (list Z * list bool) :=
  cut ← draw 1 (kBlocks - 1);
  mret (if st.2.[cut] then st else (st.1 ++ [cut], st.2.[cut <- true])).

Definition MakeRandomChromosome : rand Chromosome :=
  st ← rand_while (λ st : list Z * list bool, len st.1 <? kLockCnt - 1) random_body
         ([], replicate (Z.to_nat kBlocks) false);
  mret (MakeChromosomeFromInternalCuts (merge_sort Z.le st.1)).

(** ** Repair and movement *)

(** [for (i = 1; i < count; ++i) internal[i] = max(internal[i], internal[i - 1] + 1);] *)
Definition push_up (internal : list Z) : list Z :=
  for_range 1 (len internal)
    (λ i l, l.[i <- Z.max (l.[i]) (l.[i - 1] +₆₄ 1)]) internal.

(** [for (offset = 0; offset < count; ++offset)]: the upper bounds, from the last cut. *)
Definition cap_down (internal : list Z) : list Z :=
  let count := len internal in
  for_range 0 count (λ offset l,
    let i := count - 1 - offset in
    let upper_bound := kBlocks - (count - i) in
    l.[i <- Z.min (l.[i]) upper_bound]) internal.

Definition RepairInternalCuts (internal : list Z) : list Z :=
  if decide (internal = []) then internal
  else
    let count := len internal in
    let internal := internal.[0 <- clamp (internal.[0]) 1 (kBlocks - count)] in
    push_up (cap_down (push_up internal)).

(** One cut of [MoveToward]. *)
Definition move_cut (max_cut_shift current_cut target_cut : Z) : Z :=
  if current_cut <? target_cut then Z.min (current_cut +₆₄ max_cut_shift) target_cut
  else
    let lower := if max_cut_shift <? current_cut then current_cut - max_cut_shift else 1 in
    Z.max lower target_cut.

Definition MoveToward (max_cut_shift : Z) (from target : Chromosome) : Chromosome :=
  if decide (cuts from = cuts target) then from
  else
    let internal := for_range 1 kLockCnt
      (λ i l, l ++ [move_cut max_cut_shift ((cuts from).[i]) ((cuts target).[i])]) [] in
    MakeChromosomeFromInternalCuts (RepairInternalCuts internal).

Fixpoint find_lock (n : nat) (i : Z) (cuts : list Z) (block : Z) : Z :=
  match n with
  | O => kLockCnt - 1
  | S n' => if (cuts.[i] <=? block) && (block <? cuts.[i + 1]) then i
            else find_lock n' (i + 1) cuts block
  end.

Definition FindLockForBlock (cuts : list Z) (block : Z) : Z :=
  find_lock (Z.to_nat kLockCnt) 0 cuts block.

(** ** Genetic operators *)

Definition Crossover (lhs rhs : Chromosome) : rand Chromosome :=
  internal ← rand_for (Z.to_nat (kLockCnt - 1)) 1 (λ i l,
    pick ← coin (d_lit 1 2);
    mret (l ++ [if (pick : bool) then (cuts lhs).[i] else (cuts rhs).[i]])) [];
  mret (MakeChromosomeFromInternalCuts (RepairInternalCuts (merge_sort Z.le internal))).

(** The cuts between the first and the last one. *)
Definition internal_cuts (c : Chromosome) : list Z := take (length (cuts c) - 2) (drop 1 (cuts c)).

Definition Mutate (chromosome : Chromosome) : rand Chromosome :=
  if kLockCnt <=? 1 then mret chromosome
  else
    let internal := internal_cuts chromosome in
    mutation_count ← draw 2 5;
    internal ← rand_for (Z.to_nat mutation_count) 0 (λ _ l,
      index ← draw 0 (len l - 1);
      shift ← draw (-32) 32;
      let mutated := s32 (l.[index]) + shift in
      mret (l.[index <- clamp mutated 1 (s32 (kBlocks - 1))])) internal;
    mret {| cuts := 0 :: RepairInternalCuts (merge_sort Z.le internal) ++ [kBlocks];
            metrics := metrics chromosome |}.

(** ** Evaluation *)

(** The loop over the queries: [block_hits] and [total_locks]. *)
Definition evaluate_query (block_size : Z) (cuts : list Z) (st : list Z * Z) (query : Query) : list Z * Z :=
  let left_block := PositionToBlock kBlocks block_size (q_left query) in
  let right_block := PositionToBlock kBlocks block_size (q_right query) in
  let block_hits := for_range left_block (right_block + 1) (λ block h, h.[block <- h.[block] +₆₄ 1]) st.1 in
  let first_lock := FindLockForBlock cuts left_block in
  let last_lock := FindLockForBlock cuts right_block in
  (block_hits, st.2 +₆₄ (last_lock -₆₄ first_lock +₆₄ 1)).

(** The load of one lock. *)
Definition lock_load (block_hits cuts : list Z) (lock_index : Z) : Z :=
  for_range (cuts.[lock_index]) (cuts.[lock_index + 1]) (λ block load, load +₆₄ block_hits.[block]) 0.

Definition Evaluate (block_size : Z) (cuts : list Z) (queries : list Query) : PartitionMetrics :=
  if decide (length queries = 0%nat) then no_metrics
  else
    let '(block_hits, total_locks) :=
      foldl (evaluate_query block_size cuts) (replicate (Z.to_nat kBlocks) 0, 0) queries in
    let contention_score := for_range 0 kLockCnt (λ lock_index score,
      let load := lock_load block_hits cuts lock_index in score +₆₄ load *₆₄ load) 0 in
    let avg_mutexes := d_of_Z total_locks /ᵈ d_of_Z (len queries) in
    {| contention_score := contention_score;
       avg_mutexes_per_query := avg_mutexes;
       fitness := d_of_Z contention_score +ᵈ d_of_Z 5000 *ᵈ avg_mutexes |}.

Definition profile_query (block_size : Z) (st : list double * double) (query : Query) :
    list double * double :=
  let left_block := PositionToBlock kBlocks block_size (q_left query) in
  let right_block := PositionToBlock kBlocks block_size (q_right query) in
  for_range left_block (right_block + 1)
    (λ block st, (st.1.[block <- st.1.[block] +ᵈ d_one], st.2 +ᵈ d_one)) st.

Definition BuildBlockProfile (block_size : Z) (queries : list Query) : list double :=
  let '(profile, total_hits) :=
    foldl (profile_query block_size) (replicate (Z.to_nat kBlocks) d_zero, d_zero) queries in
  if total_hits =?ᵈ d_zero then profile else (λ value, value /ᵈ total_hits) <$> profile.

Definition ProfileDistance (lhs rhs : list double) : double :=
  for_range 0 (len lhs) (λ i distance, distance +ᵈ d_abs (lhs.[i] -ᵈ rhs.[i])) d_zero.

Definition PartitionWidths (c : Chromosome) : list Z :=
  for_range 0 kLockCnt (λ i widths, widths ++ [(cuts c).[i + 1] -₆₄ (cuts c).[i]]) [].

Context (HL : 0 < kLockCnt) (HB : kLockCnt ≤ kBlocks).

(** ** Repair always gives valid cuts *)

(** The cuts between [0] and [kBlocks] of a valid chromosome. *)
Definition internal_ok (l : list Z) : Prop :=
  len l = kLockCnt - 1 ∧
  (∀ i, 0 ≤ i < len l → 1 ≤ l.[i] < kBlocks) ∧
  (∀ i, 0 ≤ i → i + 1 < len l → l.[i] < l.[i + 1]).

Lemma internal_get (l : list Z) i :
  0 ≤ i ≤ len l + 1 →
  (0 :: l ++ [kBlocks]).[i] = if i =? 0 then 0 else if i =? len l + 1 then kBlocks else l.[i - 1].
Proof.
  intros Hi. destruct (Z.eqb_spec i 0) as [->|]; [done|]. rewrite get_cons by lia.
  destruct (Z.eqb_spec i (len l + 1)) as [->|].
  - rewrite get_app_r by lia. by replace (len l + 1 - 1 - len l) with 0 by lia.
  - by rewrite get_app_l by lia.
Qed.

Lemma internal_valid l : internal_ok l → cuts_valid kLockCnt kBlocks (0 :: l ++ [kBlocks]).
Proof.
  intros (Hl & Hr & Hs). unfold cuts_valid. rewrite len_cons, len_app.
  change (len [kBlocks]) with 1. split_and!; [lia|done| |].
  - rewrite internal_get by lia. by zbool.
  - intros i Hi. rewrite !internal_get by lia. zbool; subst; try lia.
    + replace (0 + 1 - 1) with 0 by lia. pose proof (Hr 0 ltac:(lia)). lia.
    + pose proof (Hr (i - 1) ltac:(lia)). lia.
    + replace (i + 1 - 1) with (i - 1 + 1) by lia. apply Hs; lia.
Qed.

(** What the upward pass does to a list whose first element is already right. *)
Lemma push_up_spec l B :
  (∀ i, 0 ≤ i < len l → 0 ≤ l.[i] ≤ B) → B + len l < modulus64 →
  let r := push_up l in
  len r = len l ∧ (0 < len l → r.[0] = l.[0]) ∧
  (∀ i, 0 ≤ i → i + 1 < len l → r.[i] < r.[i + 1]) ∧
  (∀ i, 0 ≤ i < len l → l.[i] ≤ r.[i] ≤ B + i).
Proof.
  intros HBd Hov. unfold push_up. destruct (decide (len l < 1)) as [Hemp|Hne].
  { rewrite for_range_empty by lia. split_and!; try done; intros; lia. }
  set (f := λ (i : Z) (t : list Z), _).
  assert (let r := for_range 1 (len l) f l in
    len r = len l ∧ (0 < len l → r.[0] = l.[0]) ∧
    (∀ i, 0 ≤ i → i + 1 < len l → r.[i] < r.[i + 1]) ∧
    (∀ i, 0 ≤ i < len l → l.[i] ≤ r.[i] ≤ B + i) ∧ (∀ i, len l ≤ i → r.[i] = l.[i]))
    as (? & ? & ? & ? & _); [|done].
  apply (for_range_inv (λ b r, len r = len l ∧ (0 < len l → r.[0] = l.[0]) ∧
    (∀ i, 0 ≤ i → i + 1 < b → r.[i] < r.[i + 1]) ∧
    (∀ i, 0 ≤ i < b → l.[i] ≤ r.[i] ≤ B + i) ∧ (∀ i, b ≤ i → r.[i] = l.[i]))); [lia| |].
  - split_and!; try done; intros; try lia.
    replace i with 0 by lia. specialize (HBd 0). lia.
  - intros b r Hb (Hlen & H0 & Hs & Hr & Hrest). unfold f.
    pose proof (Hr (b - 1) ltac:(lia)). pose proof (HBd b ltac:(lia)). pose proof (HBd (b - 1) ltac:(lia)).
    rewrite u64_add_small by lia. rewrite (Hrest b) by lia.
    assert (∀ i, 0 ≤ i → (r.[b <- Z.max (l.[b]) (r.[b - 1] + 1)]).[i] =
      if Z.eqb b i then Z.max (l.[b]) (r.[b - 1] + 1) else r.[i]) as Hg by (intros; apply get_set; lia).
    split_and!.
    + by rewrite len_set.
    + intros _. rewrite Hg by lia. zbool. apply H0. lia.
    + intros i Hi Hi'. rewrite !Hg by lia. zbool; try lia; [|apply Hs; lia].
      replace i with (b - 1) by lia. lia.
    + intros i Hi. rewrite Hg by lia. zbool; [subst; lia|apply Hr; lia].
    + intros i Hi. rewrite Hg by lia. zbool. apply Hrest. lia.
Qed.

(** On a strictly increasing list it does nothing. *)
Lemma push_up_id l :
  (∀ i, 0 ≤ i < len l → 0 ≤ l.[i] < modulus64 - 1) →
  (∀ i, 0 ≤ i → i + 1 < len l → l.[i] < l.[i + 1]) → push_up l = l.
Proof.
  intros Hr Hs. unfold push_up.
  apply (for_range_const (λ r, r = l)); [done|]. intros i r Hi ->.
  pose proof (Hr (i - 1) ltac:(lia)). specialize (Hs (i - 1) ltac:(lia) ltac:(lia)).
  replace (i - 1 + 1) with i in Hs by lia. rewrite u64_add_small by lia.
  rewrite Z.max_l by lia. apply arr_ext; [by rewrite len_set|]. rewrite len_set. intros j Hj.
  rewrite get_set by lia. by zbool; subst.
Qed.

Lemma cap_down_spec l :
  len (cap_down l) = len l ∧
  ∀ i, 0 ≤ i < len l → (cap_down l).[i] = Z.min (l.[i]) (kBlocks - (len l - i)).
Proof.
  unfold cap_down. set (f := λ (o : Z) (t : list Z), _).
  assert (let r := for_range 0 (len l) f l in len r = len l ∧
    (∀ i, 0 ≤ i < len l - len l → r.[i] = l.[i]) ∧
    ∀ i, len l - len l ≤ i < len l → r.[i] = Z.min (l.[i]) (kBlocks - (len l - i))) as (Hl & _ & Hr).
  { apply (for_range_inv (λ b r, len r = len l ∧
      (∀ i, 0 ≤ i < len l - b → r.[i] = l.[i]) ∧
      ∀ i, len l - b ≤ i < len l → r.[i] = Z.min (l.[i]) (kBlocks - (len l - i)))).
    - apply len_nonneg.
    - split_and!; [done|done|intros; lia].
    - intros b r Hb (Hlen & Hlo & Hhi). unfold f. split; [by rewrite len_set|]. split.
      + intros i Hi. rewrite get_set by lia. zbool. apply Hlo. lia.
      + intros i Hi. rewrite get_set by lia. zbool; [subst; by rewrite Hlo by lia|apply Hhi; lia]. }
  split; [done|]. intros i Hi. apply Hr. lia.
Qed.

(** Entries that cannot overflow when the passes increase them. *)
Definition entries_fit (l : list Z) : Prop :=
  ∀ i, 0 ≤ i < len l → 0 ≤ l.[i] ∧ l.[i] + 2 * kBlocks < modulus64.

Lemma RepairInternalCuts_ok l :
  3 * kBlocks < modulus64 → len l = kLockCnt - 1 → entries_fit l → internal_ok (RepairInternalCuts l).
Proof.
  intros Hk Hl Hfit. unfold RepairInternalCuts. case_decide as He.
  { subst l. split_and!; try done; intros; change (len []) with 0 in *; lia. }
  set (c := clamp (l.[0]) 1 (kBlocks - len l)). set (l0 := l.[0 <- c]).
  assert (0 < len l) as Hpos by (destruct l; [done|rewrite len_cons; pose proof (len_nonneg l); lia]).
  pose proof (clamp_range (l.[0]) 1 (kBlocks - len l) ltac:(lia)) as Hc. fold c in Hc.
  assert (len l0 = len l) as Hl0 by apply len_set.
  set (B := modulus64 - 1 - kBlocks).
  assert (∀ i, 0 ≤ i < len l0 → 0 ≤ l0.[i] ≤ B) as HBd.
  { intros i Hi. unfold l0. rewrite get_set by lia. zbool; [lia|]. specialize (Hfit i ltac:(lia)). lia. }
  destruct (push_up_spec l0 B HBd ltac:(lia)) as (Hl1 & H0 & Hs & Hr). set (l1 := push_up l0) in *.
  assert (l0.[0] = c) as Hl00 by (unfold l0; apply get_set_eq; lia). rewrite Hl00 in H0.
  destruct (cap_down_spec l1) as (Hl2 & H2). set (l2 := cap_down l1) in *.
  assert (∀ i, 0 ≤ i < len l1 → 1 + i ≤ l1.[i]) as Hlow.
  { intros i Hi. replace i with (Z.of_nat (Z.to_nat i)) in * by lia.
    induction (Z.to_nat i) as [|n IH]; [change (Z.of_nat 0) with 0; rewrite H0 by lia; lia|].
    specialize (IH ltac:(lia)). specialize (Hs (Z.of_nat n) ltac:(lia) ltac:(lia)).
    replace (Z.of_nat (S n)) with (Z.of_nat n + 1) by lia. lia. }
  assert (∀ i, 0 ≤ i < len l2 → 1 ≤ l2.[i] < kBlocks) as Hrange.
  { intros i Hi. rewrite H2 by lia. specialize (Hlow i ltac:(lia)). lia. }
  assert (∀ i, 0 ≤ i → i + 1 < len l2 → l2.[i] < l2.[i + 1]) as Hinc.
  { intros i Hi Hi'. rewrite !H2 by lia. specialize (Hs i ltac:(lia) ltac:(lia)). lia. }
  rewrite (push_up_id l2); [split_and!; [lia|done|done]| |done].
  intros i Hi. specialize (Hrange i Hi). lia.
Qed.

(** Repair changes nothing in a vector that is already valid. *)
Lemma RepairInternalCuts_id l :
  3 * kBlocks < modulus64 → internal_ok l → RepairInternalCuts l = l.
Proof.
  intros Hk (Hl & Hr & Hs). unfold RepairInternalCuts. case_decide as He; [done|].
  assert (0 < len l) as Hpos by (destruct l; [done|rewrite len_cons; pose proof (len_nonneg l); lia]).
  assert (∀ n i, 0 ≤ i → i + Z.of_nat n < len l → l.[i] + Z.of_nat n ≤ l.[i + Z.of_nat n]) as Hgap.
  { induction n as [|n IH]; intros i Hi Hn; [change (Z.of_nat 0) with 0; rewrite !Z.add_0_r; lia|].
    specialize (IH i Hi ltac:(lia)). specialize (Hs (i + Z.of_nat n) ltac:(lia) ltac:(lia)).
    replace (i + Z.of_nat (S n)) with (i + Z.of_nat n + 1) by lia. lia. }
  assert (∀ i, 0 ≤ i < len l → l.[i] ≤ kBlocks - (len l - i)) as Hcap.
  { intros i Hi. specialize (Hgap (Z.to_nat (len l - 1 - i)) i ltac:(lia) ltac:(lia)).
    replace (i + Z.of_nat (Z.to_nat (len l - 1 - i))) with (len l - 1) in Hgap by lia.
    specialize (Hr (len l - 1) ltac:(lia)). lia. }
  rewrite clamp_id by (specialize (Hr 0 ltac:(lia)); specialize (Hcap 0 ltac:(lia)); lia).
  assert (l.[0 <- l.[0]] = l) as ->.
  { apply arr_ext; [by rewrite len_set|]. rewrite len_set. intros i Hi. rewrite get_set by lia. by zbool; subst. }
  assert (∀ i, 0 ≤ i < len l → 0 ≤ l.[i] < modulus64 - 1) as Hsmall.
  { intros i Hi. specialize (Hr i Hi). lia. }
  rewrite !(push_up_id l) by done.
  destruct (cap_down_spec l) as [Hl2 H2].
  assert (cap_down l = l) as ->; [|by apply push_up_id].
  apply arr_ext; [done|]. intros i Hi. rewrite H2 by lia. specialize (Hcap i ltac:(lia)). lia.
Qed.

(** ** Movement *)

Definition chrom_ok (c : Chromosome) : Prop := cuts_valid kLockCnt kBlocks (cuts c).
Definition chrom_weak (c : Chromosome) : Prop := cuts_weak kLockCnt kBlocks (cuts c).

Lemma chrom_ok_weak c : chrom_ok c → chrom_weak c.
Proof. apply cuts_valid_weak. Qed.

Lemma weak_bounds cuts i : cuts_weak kLockCnt kBlocks cuts → 0 ≤ i ≤ kLockCnt → 0 ≤ cuts.[i] ≤ kBlocks.
Proof.
  intros Hc Hi. pose proof Hc as (_ & H0 & HK & _).
  pose proof (cuts_weak_mono kLockCnt kBlocks cuts 0 i Hc ltac:(lia) ltac:(lia)).
  pose proof (cuts_weak_mono kLockCnt kBlocks cuts i kLockCnt Hc ltac:(lia) ltac:(lia)). lia.
Qed.

Lemma valid_bounds cuts i : cuts_valid kLockCnt kBlocks cuts → 0 < i < kLockCnt → 1 ≤ cuts.[i] < kBlocks.
Proof.
  intros Hc Hi. pose proof Hc as (_ & H0 & HK & _).
  pose proof (cuts_valid_strict kLockCnt kBlocks cuts 0 i Hc ltac:(lia) ltac:(lia)).
  pose proof (cuts_valid_strict kLockCnt kBlocks cuts i kLockCnt Hc ltac:(lia) ltac:(lia)). lia.
Qed.

Context (Hbig : 3 * kBlocks < modulus64).

Lemma repaired_ok l m :
  len l = kLockCnt - 1 → (∀ i, 0 ≤ i < len l → 0 ≤ l.[i] ≤ kBlocks) →
  chrom_ok {| cuts := 0 :: RepairInternalCuts l ++ [kBlocks]; metrics := m |}.
Proof.
  intros Hl Hr. apply internal_valid, RepairInternalCuts_ok; [done|done|].
  intros i Hi. specialize (Hr i Hi). lia.
Qed.

Lemma move_cut_bounds s c t : 0 ≤ c ≤ kBlocks → 0 ≤ t ≤ kBlocks → 1 ≤ s → 0 ≤ move_cut s c t ≤ kBlocks.
Proof.
  intros Hc Ht Hs. unfold move_cut. pose proof (u64_add_range c s) as [? ?]. zbool; lia.
Qed.

(** The cuts [MoveToward] computes before it repairs them. *)
Definition moved_cuts (s : Z) (from target : Chromosome) : list Z :=
  for_range 1 kLockCnt (λ i l, l ++ [move_cut s ((cuts from).[i]) ((cuts target).[i])]) [].

Lemma moved_cuts_spec s from target :
  len (moved_cuts s from target) = kLockCnt - 1 ∧
  ∀ j, 0 ≤ j < kLockCnt - 1 →
    (moved_cuts s from target).[j] = move_cut s ((cuts from).[j + 1]) ((cuts target).[j + 1]).
Proof.
  destruct (for_range_push 1 kLockCnt (λ i, move_cut s ((cuts from).[i]) ((cuts target).[i])))
    as [Hl Hg]; [lia|]. split; [exact Hl|]. intros j Hj.
  replace (j + 1) with (1 + j) by lia. apply Hg. lia.
Qed.

(** The result is always a valid partition, even towards a degenerate target. *)
Lemma MoveToward_ok s from target :
  1 ≤ s → chrom_ok from → chrom_weak target → chrom_ok (MoveToward s from target).
Proof.
  intros Hs Hf Ht. unfold MoveToward. case_decide; [done|].
  fold (moved_cuts s from target). destruct (moved_cuts_spec s from target) as [Hl Hg].
  apply repaired_ok; [done|]. intros i Hi. rewrite Hg by lia.
  apply move_cut_bounds; [..|done]; apply weak_bounds; try lia; [by apply chrom_ok_weak|done].
Qed.

(** Between valid partitions every cut moves towards the target by at most the
    allowed shift, and repair changes nothing. *)
Lemma MoveToward_exact s from target i :
  1 ≤ s → s + kBlocks < modulus64 → chrom_ok from → chrom_ok target → 0 ≤ i ≤ kLockCnt →
  (cuts (MoveToward s from target)).[i] =
    Z.max ((cuts from).[i] - s) (Z.min ((cuts from).[i] + s) ((cuts target).[i])).
Proof.
  intros Hs Hov Hf Ht Hi. unfold MoveToward. case_decide as Heq; [rewrite <-Heq; lia|].
  fold (moved_cuts s from target). destruct (moved_cuts_spec s from target) as [Hl Hg].
  assert (∀ j, 0 < j < kLockCnt → move_cut s ((cuts from).[j]) ((cuts target).[j]) =
    Z.max ((cuts from).[j] - s) (Z.min ((cuts from).[j] + s) ((cuts target).[j]))) as Hmove.
  { intros j Hj. pose proof (valid_bounds _ j Hf Hj). pose proof (valid_bounds _ j Ht Hj).
    unfold move_cut. rewrite u64_add_small by lia. zbool; lia. }
  assert (internal_ok (moved_cuts s from target)) as Hok.
  { split_and!; [done| |].
    - intros j Hj. rewrite Hg, Hmove by lia. pose proof (valid_bounds _ (j + 1) Hf ltac:(lia)).
      pose proof (valid_bounds _ (j + 1) Ht ltac:(lia)). lia.
    - intros j Hj Hj'. rewrite !Hg, !Hmove by lia.
      pose proof (cuts_valid_strict kLockCnt kBlocks _ (j + 1) (j + 1 + 1) Hf ltac:(lia) ltac:(lia)).
      pose proof (cuts_valid_strict kLockCnt kBlocks _ (j + 1) (j + 1 + 1) Ht ltac:(lia) ltac:(lia)). lia. }
  rewrite RepairInternalCuts_id by done. unfold MakeChromosomeFromInternalCuts; simpl.
  rewrite internal_get by lia. pose proof Hf as (_ & Hf0 & HfK & _). pose proof Ht as (_ & Ht0 & HtK & _).
  zbool; subst.
  - rewrite Hf0, Ht0. lia.
  - replace (len (moved_cuts s from target) + 1) with kLockCnt by lia. rewrite HfK, HtK. lia.
  - rewrite Hg by lia. replace (i - 1 + 1) with i by lia. apply Hmove. lia.
Qed.

(** ** The lock of a block *)

Lemma find_lock_spec n i cuts b :
  cuts_weak kLockCnt kBlocks cuts → 0 ≤ b < kBlocks → 0 ≤ i → i + Z.of_nat n = kLockCnt →
  cuts.[i] ≤ b → let r := find_lock n i cuts b in
  0 ≤ r < kLockCnt ∧ cuts.[r] ≤ b < cuts.[r + 1].
Proof.
  intros Hc Hb. revert i. induction n as [|n IH]; intros i Hi Hn Hlo.
  - pose proof Hc as (_ & _ & HK & _). replace i with kLockCnt in * by lia. lia.
  - cbn [find_lock]. destruct (Z.leb_spec (cuts.[i]) b); [|lia]. simpl.
    destruct (Z.ltb_spec b (cuts.[i + 1])); [lia|]. apply IH; lia.
Qed.

Lemma FindLockForBlock_spec cuts b :
  cuts_weak kLockCnt kBlocks cuts → 0 ≤ b < kBlocks →
  let i := FindLockForBlock cuts b in 0 ≤ i < kLockCnt ∧ cuts.[i] ≤ b < cuts.[i + 1].
Proof.
  intros Hc Hb. apply find_lock_spec; try done; try lia. destruct Hc as (_ & -> & _). lia.
Qed.

(** The linear search agrees with the table of [GeneticLock]. *)
Lemma FindLockForBlock_table cuts t b :
  cuts_weak kLockCnt kBlocks cuts → len t = kBlocks → 0 ≤ b < kBlocks →
  FindLockForBlock cuts b = (RefreshBlockToLock kLockCnt kBlocks cuts t).[b].
Proof.
  intros Hc Ht Hb. destruct (FindLockForBlock_spec cuts b Hc Hb).
  destruct (RefreshBlockToLock_exact kLockCnt kBlocks ltac:(lia) ltac:(lia) cuts t b Hc Ht Hb).
  by apply (segment_unique kLockCnt kBlocks cuts _ _ b).
Qed.

(** *** Chromosomes built from a profile *)

Lemma uniform_ok : kLockCnt * kBlocks < modulus64 → chrom_ok MakeUniformChromosome.
Proof. intros. apply uniform_cuts_valid; lia. Qed.

Lemma advance_cut_range n prefix target max_cut cut :
  cut ≤ max_cut → cut ≤ advance_cut n prefix target max_cut cut ≤ max_cut.
Proof.
  revert cut. induction n as [|n IH]; intros cut Hc; simpl; [lia|].
  destruct (Z.ltb_spec cut max_cut); simpl; [|lia].
  destruct (_ <?ᵈ _); [|lia]. specialize (IH (cut + 1) ltac:(lia)). lia.
Qed.

(** Guided cuts are valid for every profile, even one with infinities or NaNs. *)
Lemma MakeProfileGuidedChromosome_ok profile :
  kLockCnt * kBlocks < modulus64 → chrom_ok (MakeProfileGuidedChromosome profile).
Proof.
  intros Hov. unfold MakeProfileGuidedChromosome. destruct (_ <=?ᵈ _); [by apply uniform_ok|].
  set (f := guided_body _ _). set (c0 := (replicate _ 0).[0 <- 0]).
  assert (len c0 = kLockCnt + 1) as Hc0 by (unfold c0; rewrite len_set, len_replicate; lia).
  assert (c0.[0] = 0) as Hc00 by (unfold c0; apply get_set_eq; rewrite len_replicate; lia).
  assert (let st := for_range 1 kLockCnt f (0, c0) in
    len st.2 = kLockCnt + 1 ∧ st.2.[0] = 0 ∧
    st.2.[kLockCnt - 1] = st.1 ∧ (∀ i, 0 ≤ i → i + 1 < kLockCnt → st.2.[i] < st.2.[i + 1]) ∧
    kLockCnt - 1 ≤ st.1 ≤ kBlocks - (kLockCnt - kLockCnt) - 1) as Hloop.
  { destruct (decide (kLockCnt = 1)) as [H1|].
    { rewrite for_range_empty by lia. simpl. replace (kLockCnt - 1) with 0 by lia.
      split_and!; try done; try lia; intros; lia. }
    apply (for_range_inv (λ b st, len st.2 = kLockCnt + 1 ∧ st.2.[0] = 0 ∧ st.2.[b - 1] = st.1 ∧
      (∀ i, 0 ≤ i → i + 1 < b → st.2.[i] < st.2.[i + 1]) ∧
      b - 1 ≤ st.1 ≤ kBlocks - (kLockCnt - b) - 1)); [lia| |].
    - simpl. split_and!; try done; try lia; intros; lia.
    - intros b [prev c] Hb (Hlen & H0 & Hlast & Hs & Hr). unfold f, guided_body; simpl in *.
      match goal with |- context [advance_cut ?n ?p ?t ?m ?c] =>
        pose proof (advance_cut_range n p t m c ltac:(lia)) as Hcut; set (cut := advance_cut n p t m c) in * end.
      assert (∀ i, 0 ≤ i → (c.[b <- cut]).[i] = if Z.eqb b i then cut else c.[i]) as Hg
        by (intros; apply get_set; lia).
      split_and!; [by rewrite len_set| | | |lia|lia].
      + rewrite Hg by lia. by zbool.
      + rewrite Hg by lia. replace (b + 1 - 1) with b by lia. by rewrite Z.eqb_refl.
      + intros i Hi Hi'. rewrite !Hg by lia. zbool; try lia; [|apply Hs; lia].
        replace i with (b - 1) by lia. lia. }
  destruct (for_range 1 kLockCnt f (0, c0)) as [prev c]; simpl in Hloop.
  destruct Hloop as (Hlen & H0 & Hlast & Hs & Hr). unfold chrom_ok, cuts_valid; simpl.
  assert (∀ i, 0 ≤ i → (c.[kLockCnt <- kBlocks]).[i] = if Z.eqb kLockCnt i then kBlocks else c.[i]) as Hg
    by (intros; apply get_set; lia).
  split_and!.
  - by rewrite len_set.
  - rewrite Hg by lia. by zbool.
  - rewrite Hg by lia. by zbool.
  - intros i Hi. rewrite !Hg by lia. zbool; try lia; [|apply Hs; lia].
    replace i with (kLockCnt - 1) by lia. lia.
Qed.

(** *** The load-balanced chromosome *)

(** What the tables always satisfy: entry [(r, k)] of [split] points to the left
    of [r], the entries for one lock point to block [0], and no cell for zero
    locks becomes finite except the first. *)
Definition balance_inv (t : balance) : Prop :=
  len (dp t) = (kBlocks + 1) * (kLockCnt + 1) ∧ len (split t) = (kBlocks + 1) * (kLockCnt + 1) ∧
  (∀ r k, 0 ≤ r ≤ kBlocks → 1 ≤ k ≤ kLockCnt → 0 ≤ (split t).[index r k] ≤ r) ∧
  (∀ r, 0 ≤ r ≤ kBlocks → (split t).[index r 1] = 0) ∧
  (∀ l, 0 < l ≤ kBlocks → (dp t).[index l 0] = d_infinity).

Lemma index_range r k : 0 ≤ r ≤ kBlocks → 0 ≤ k ≤ kLockCnt → 0 ≤ index r k < (kBlocks + 1) * (kLockCnt + 1).
Proof. unfold index. nia. Qed.

Lemma index_inj r k r' k' :
  0 ≤ k ≤ kLockCnt → 0 ≤ k' ≤ kLockCnt → index r k = index r' k' → r = r' ∧ k = k'.
Proof. unfold index. intros. assert (r = r') by nia. nia. Qed.

Lemma balance_relax_inv prefix r k l t :
  0 ≤ l < r → r ≤ kBlocks → 1 ≤ k ≤ kLockCnt → balance_inv t → balance_inv (balance_relax prefix r k l t).
Proof.
  intros Hl Hr Hk (Hd & Hs & Hsplit & Hone & Hinf). unfold balance_relax.
  destruct (d_isfinite _) eqn:Hfin; [|done]. simpl. destruct (_ <?ᵈ _); [|done].
  pose proof (index_range r k ltac:(lia) ltac:(lia)) as Hi.
  unfold balance_inv; simpl. rewrite !len_set.
  assert (∀ r' k', 0 ≤ r' ≤ kBlocks → 0 ≤ k' ≤ kLockCnt →
    (split t).[index r k <- l].[index r' k'] = if decide (r = r' ∧ k = k') then l else (split t).[index r' k']) as Hg.
  { intros r' k' Hr' Hk'. rewrite get_set by (try (pose proof (index_range r' k')); lia).
    destruct (Z.eqb_spec (index r k) (index r' k')) as [He|Hne].
    - apply index_inj in He; [|lia|lia]. by rewrite decide_True.
    - rewrite decide_False; [done|]. intros [-> ->]. done. }
  split_and!; [done|done| | |].
  - intros r' k' Hr' Hk'. rewrite Hg by lia. case_decide; [lia|by apply Hsplit].
  - intros r' Hr'. rewrite Hg by lia. case_decide as He; [|by apply Hone].
    destruct He as [<- ->]. destruct (decide (l = 0)) as [|Hl0]; [done|].
    rewrite Z.sub_diag, Hinf in Hfin by lia. done.
  - intros l' Hl'. pose proof (index_range l' 0 ltac:(lia) ltac:(lia)).
    rewrite get_set_ne; [by apply Hinf|lia|lia|]. intros He. apply index_inj in He; lia.
Qed.

Lemma balance_tables_inv prefix : balance_inv (balance_tables prefix).
Proof.
  unfold balance_tables. apply (for_range_const balance_inv).
  2: { intros r t Hr Ht. apply (for_range_const balance_inv); [done|]. intros k t' Hk Ht'.
       apply (for_range_const balance_inv); [done|]. intros l t'' Hl Ht''.
       apply balance_relax_inv; done || lia. }
  assert (len (replicate (Z.to_nat ((kBlocks + 1) * (kLockCnt + 1))) d_infinity) = (kBlocks + 1) * (kLockCnt + 1))
    as Hlen by (rewrite len_replicate; nia).
  unfold balance_inv; simpl. rewrite len_set, len_replicate. split_and!; [nia|rewrite len_replicate; nia| | |].
  - intros r k Hr Hk. pose proof (index_range r k ltac:(lia) ltac:(lia)). rewrite get_replicate by lia. lia.
  - intros r Hr. pose proof (index_range r 1 ltac:(lia) ltac:(lia)). by rewrite get_replicate by lia.
  - intros l Hl. pose proof (index_range l 0 ltac:(lia) ltac:(lia)). pose proof (index_range 0 0 ltac:(lia) ltac:(lia)).
    rewrite get_set_ne; [by rewrite get_replicate by lia|lia|lia|]. intros He. apply index_inj in He; lia.
Qed.

Lemma MakeLoadBalancedChromosome_weak profile :
  kLockCnt * kBlocks < modulus64 → chrom_weak (MakeLoadBalancedChromosome profile).
Proof.
  intros Hov. unfold MakeLoadBalancedChromosome. destruct (_ <=?ᵈ _).
  { by apply chrom_ok_weak, uniform_ok. }
  destruct (balance_tables_inv (profile_prefix profile)) as (_ & _ & Hsplit & Hone & _).
  set (s := split _) in *. set (c0 := (replicate _ 0).[kLockCnt <- kBlocks]).
  assert (len c0 = kLockCnt + 1) as Hc0 by (unfold c0; rewrite len_set, len_replicate; lia).
  assert (c0.[kLockCnt] = kBlocks) as HcK by (unfold c0; apply get_set_eq; rewrite len_replicate; lia).
  assert (let st := for_range 0 kLockCnt (balance_back s) (kBlocks, c0) in
    len st.2 = kLockCnt + 1 ∧ 0 ≤ st.1 ≤ kBlocks ∧ st.2.[kLockCnt - kLockCnt] = st.1 ∧ st.2.[kLockCnt] = kBlocks ∧
    (kLockCnt - kLockCnt = 0 → st.1 = 0) ∧
    ∀ i, kLockCnt - kLockCnt ≤ i < kLockCnt → st.2.[i] ≤ st.2.[i + 1]) as Hloop.
  { apply (for_range_inv (λ b st, len st.2 = kLockCnt + 1 ∧ 0 ≤ st.1 ≤ kBlocks ∧ st.2.[kLockCnt - b] = st.1 ∧
      st.2.[kLockCnt] = kBlocks ∧ (kLockCnt - b = 0 → st.1 = 0) ∧
      ∀ i, kLockCnt - b ≤ i < kLockCnt → st.2.[i] ≤ st.2.[i + 1])); [lia| |].
    - simpl. rewrite Z.sub_0_r. split_and!; try done; try lia; intros; lia.
    - intros b [cur c] Hb (Hlen & Hcur & Hat & HK & Hz & Hs). unfold balance_back; simpl in *.
      set (left := s.[index cur (kLockCnt - b)]).
      assert (0 ≤ left ≤ cur) as Hleft by (apply Hsplit; lia).
      assert (∀ i, 0 ≤ i → (c.[kLockCnt - b - 1 <- left]).[i] =
        if Z.eqb (kLockCnt - b - 1) i then left else c.[i]) as Hg by (intros; apply get_set; lia).
      split_and!; [by rewrite len_set|lia|lia| | | |].
      + rewrite Hg by lia. by zbool.
      + rewrite Hg by lia. by zbool.
      + intros Hz0. unfold left. replace (kLockCnt - b) with 1 by lia. by apply Hone.
      + intros i Hi. rewrite !Hg by lia. zbool; try lia; [|apply Hs; lia].
        replace (i + 1) with (kLockCnt - b) by lia. lia. }
  destruct (for_range 0 kLockCnt (balance_back s) (kBlocks, c0)) as [cur c]. simpl in Hloop.
  rewrite Z.sub_diag in Hloop. destruct Hloop as (Hlen & _ & H0 & HK & Hz & Hs).
  unfold chrom_weak, cuts_weak; simpl. rewrite H0, (Hz eq_refl). done.
Qed.

(** ** Genetic operators *)

Context (Hint : kBlocks < 2 ^ 31).

Definition in_blocks (x : Z) : Prop := 0 ≤ x ≤ kBlocks.

Lemma repaired_sorted_ok l m :
  len l = kLockCnt - 1 → Forall in_blocks l →
  chrom_ok {| cuts := 0 :: RepairInternalCuts (merge_sort Z.le l) ++ [kBlocks]; metrics := m |}.
Proof.
  intros Hl Hf. pose proof (merge_sort_Permutation Z.le l) as Hp.
  apply repaired_ok.
  - unfold len in *. by rewrite Hp.
  - intros i Hi. apply (get_Forall in_blocks); [|done]. by rewrite Hp.
Qed.

Lemma Crossover_wp lhs rhs : chrom_weak lhs → chrom_weak rhs → wp (Crossover lhs rhs) chrom_ok.
Proof.
  intros Hl Hr. unfold Crossover. eapply wp_bind.
  - apply (wp_for (λ i l, len l = i - 1 ∧ Forall in_blocks l)); [done|].
    intros j t Hj [Ht Hf]. eapply wp_bind; [apply wp_coin|]. intros pick _. apply wp_ret.
    rewrite len_app. change (len [_]) with 1. split; [lia|]. apply Forall_app. split; [done|].
    constructor; [|done]. destruct pick; apply weak_bounds; done || lia.
  - intros l [Hlen Hf]. apply wp_ret, repaired_sorted_ok; [lia|done].
Qed.

Lemma internal_cuts_spec c :
  2 ≤ kLockCnt → chrom_weak c → len (internal_cuts c) = kLockCnt - 1 ∧ Forall in_blocks (internal_cuts c).
Proof.
  intros H2 Hc. pose proof Hc as (Hlen & _). unfold internal_cuts. split.
  - unfold len in *. rewrite length_take, length_drop. lia.
  - apply Forall_take, Forall_drop, Forall_get. intros i Hi. apply weak_bounds; [done|lia].
Qed.

Lemma Mutate_wp c : chrom_ok c → wp (Mutate c) chrom_ok.
Proof.
  intros Hc. unfold Mutate. destruct (Z.leb_spec kLockCnt 1); [by apply wp_ret|].
  destruct (internal_cuts_spec c ltac:(lia) (chrom_ok_weak c Hc)) as [Hl Hf].
  eapply wp_bind; [apply wp_draw; lia|]. intros n Hn. eapply wp_bind.
  - apply (wp_for (λ _ l, len l = kLockCnt - 1 ∧ Forall in_blocks l)); [done|].
    intros j t _ [Ht Htf]. eapply wp_bind; [apply wp_draw; lia|]. intros k Hk.
    eapply wp_bind; [apply wp_draw; lia|]. intros sh Hsh. apply wp_ret.
    split; [by rewrite len_set|]. apply Forall_insert; [done|].
    rewrite (s32_small (kBlocks - 1)) by lia.
    pose proof (clamp_range (s32 (t.[k]) + sh) 1 (kBlocks - 1) ltac:(lia)). unfold in_blocks. lia.
  - intros l [Hlen Hfl]. by apply wp_ret, repaired_sorted_ok.
Qed.

(** *** Random chromosomes *)

Section RandomChromosome.
  Context `{!FairSource R}.

(** The distinct cuts drawn so far, and the array that marks them. *)
Definition draw_inv (st : list Z * list bool) : Prop :=
  NoDup st.1 ∧ Forall (λ x, 1 ≤ x < kBlocks) st.1 ∧ len st.2 = kBlocks ∧ len st.1 ≤ kLockCnt - 1 ∧
  ∀ x, 1 ≤ x < kBlocks → (st.2.[x] = true ↔ x ∈ st.1).

Lemma draw_inv_add st x :
  draw_inv st → 1 ≤ x < kBlocks → st.2.[x] = false → len st.1 < kLockCnt - 1 →
  draw_inv (st.1 ++ [x], st.2.[x <- true]).
Proof.
  intros (Hnd & Hf & Hlen & Hle & Hu) Hx Hfree Hlt. unfold draw_inv; simpl.
  assert (x ∉ st.1) as Hnew by (rewrite <-Hu by done; congruence).
  split_and!.
  - apply NoDup_app. split; [done|]. split; [|apply NoDup_singleton].
    intros y Hy Hy'. apply list_elem_of_singleton in Hy'. congruence.
  - apply Forall_app. split; [done|]. by constructor.
  - by rewrite len_set.
  - rewrite len_app. change (len [x]) with 1. lia.
  - intros y Hy. rewrite get_set by lia. rewrite elem_of_app, list_elem_of_singleton.
    destruct (Z.eqb_spec x y) as [->|Hxy]; [tauto|]. rewrite Hu by done.
    split; [by left|]. intros [?|?]; [done|congruence].
Qed.

(** Some cut is always left to draw. *)
Lemma unused_cut st : draw_inv st → len st.1 < kLockCnt - 1 → ∃ v, 1 ≤ v < kBlocks ∧ st.2.[v] = false.
Proof.
  intros (Hnd & _ & _ & _ & Hu) Hlt.
  destruct (decide (Forall (λ v, v ∈ st.1) (seqZ 1 (kBlocks - 1)))) as [Hall|Hno].
  - exfalso. assert (length (seqZ 1 (kBlocks - 1)) ≤ length st.1)%nat as Hle.
    { apply submseteq_length, NoDup_submseteq; [apply NoDup_seqZ|]. by apply Forall_forall. }
    rewrite length_seqZ in Hle. unfold len in *. lia.
  - apply not_Forall_Exists in Hno; [|intros v; apply _]. apply Exists_exists in Hno as (v & Hv & Hnv).
    apply elem_of_seqZ in Hv. exists v. split; [lia|]. simpl in Hnv.
    destruct (st.2.[v]) eqn:He; [|done]. destruct Hnv. apply Hu; [lia|done].
Qed.

Definition more (st : list Z * list bool) : bool := len st.1 <? kLockCnt - 1.

Lemma random_body_run st fuel g :
  random_body st fuel g =
    let (v, g') := uniform_int 1 (kBlocks - 1) g in
    Some (if st.2.[v] then st else (st.1 ++ [v], st.2.[v <- true]), g').
Proof. unfold random_body, mbind, rand_bind, draw. by destruct (uniform_int _ _ _). Qed.

Definition drawn (st : list Z * list bool) : Prop := draw_inv st ∧ more st = false.

(** By fairness an unused cut is drawn after finitely many rounds. *)
Lemma draw_loop k st g :
  (Z.to_nat (kLockCnt - 1 - len st.1) ≤ k)%nat → draw_inv st → loop_wp more random_body st g drawn.
Proof.
  revert st g. induction k as [|k IHk]; intros st g Hk Hinv;
    (destruct (more st) eqn:Hm; [|by apply loop_wp_stop]); unfold more in Hm; apply Z.ltb_lt in Hm; [lia|].
  destruct (unused_cut st Hinv Hm) as (v & Hv & Hfree).
  destruct (uniform_int_fair 1 (kBlocks - 1) v g ltac:(lia)) as (n & Hn).
  revert g Hn. induction n as [|n IHn]; intros g Hn.
  all: pose proof (uniform_int_range 1 (kBlocks - 1) g ltac:(lia)) as Hw.
  all: set (w := (uniform_int 1 (kBlocks - 1) g).1) in *; set (g' := (uniform_int 1 (kBlocks - 1) g).2).
  all: assert (∀ fuel, (0 ≤ fuel)%nat → random_body st fuel g =
      Some (if st.2.[w] then st else (st.1 ++ [w], st.2.[w <- true]), g')) as Hrun
    by (intros; rewrite random_body_run; unfold w, g'; destruct (uniform_int 1 (kBlocks - 1) g); reflexivity).
  all: destruct (st.2.[w]) eqn:Hst.
  - simpl in Hn. fold w in Hn. congruence.
  - eapply loop_wp_round; [by apply Z.ltb_lt|exact Hrun|].
    apply IHk; [cbn [fst]; rewrite len_app; change (len [w]) with 1; lia|]. apply draw_inv_add; done || lia.
  - eapply loop_wp_round; [by apply Z.ltb_lt|exact Hrun|]. apply IHn. exact Hn.
  - eapply loop_wp_round; [by apply Z.ltb_lt|exact Hrun|].
    apply IHk; [cbn [fst]; rewrite len_app; change (len [w]) with 1; lia|]. apply draw_inv_add; done || lia.
Qed.

Lemma strongly_sorted_lookup {A} (P : A → A → Prop) (l : list A) i j x y :
  StronglySorted P l → (i < j)%nat → l !! i = Some x → l !! j = Some y → P x y.
Proof.
  intros Hs. revert i j. induction Hs as [|a l Hs IH Hf]; intros i j Hij Hx Hy; [done|].
  destruct j as [|j]; [lia|]. destruct i as [|i]; simpl in *.
  - injection Hx as <-. by eapply Forall_lookup_1.
  - apply (IH i j); [lia|done..].
Qed.

Lemma sorted_strict l i j :
  StronglySorted Z.le l → NoDup l → 0 ≤ i < j → j < len l → l.[i] < l.[j].
Proof.
  intros Hs Hnd Hij Hj.
  assert (l.[i] ≤ l.[j]).
  { apply (strongly_sorted_lookup Z.le l (Z.to_nat i) (Z.to_nat j)); [done|lia|apply get_lookup; lia..]. }
  assert (l.[i] ≠ l.[j]); [|lia]. intros He.
  assert (Z.to_nat i = Z.to_nat j); [|lia].
  eapply (NoDup_lookup l _ _ (l.[j])); [done|rewrite <-He|]; apply get_lookup; lia.
Qed.

(** The rejection loop ends, and its cuts, once sorted, are a valid partition. *)
Lemma MakeRandomChromosome_wp : wp MakeRandomChromosome chrom_ok.
Proof.
  unfold MakeRandomChromosome. eapply wp_bind.
  - apply wp_loop. intros g. apply (draw_loop (Z.to_nat (kLockCnt - 1))).
    + unfold len; simpl. lia.
    + split_and!; simpl; [by apply NoDup_nil|done|rewrite len_replicate; lia|unfold len; simpl; lia|].
      intros x Hx. rewrite get_replicate by lia. split; [done|]. intros Hin; by inversion Hin.
  - intros [l used] [(Hnd & Hf & _ & Hle & _) Hm]. apply wp_ret. simpl in *.
    unfold more in Hm; simpl in Hm. apply Z.ltb_ge in Hm.
    pose proof (merge_sort_Permutation Z.le l) as Hp.
    apply internal_valid. split_and!.
    + unfold len in *. rewrite Hp. lia.
    + intros i Hi. apply (get_Forall (λ x, 1 ≤ x < kBlocks)); [|done]. by rewrite Hp.
    + intros i Hi Hi'. apply sorted_strict; [|by rewrite Hp|lia|done].
      apply StronglySorted_merge_sort; [apply _|intros ? ?; lia].
Qed.

End RandomChromosome.

(** ** What [Evaluate] computes *)

(** A query whose ends are in order. *)
Definition query_ok (q : Query) : Prop := 0 ≤ q_left q ≤ q_right q.

Section Evaluate.
  Variable block_size : Z.
  Context (Hbs : 1 ≤ block_size).

  Local Abbreviation block := (PositionToBlock kBlocks block_size).

(** The number of queries that touch a block, the squared loads of the locks and
    the number of mutexes the queries take, as plain sums over the integers. *)
Definition touches (b : Z) (q : Query) : Z :=
  if (block (q_left q) <=? b) && (b <=? block (q_right q)) then 1 else 0.

Definition block_load (queries : list Query) (b : Z) : Z := zsum (touches b <$> queries).

Definition segment_load (cuts : list Z) (queries : list Query) (i : Z) : Z :=
  zsum (block_load queries <$> seqZ (cuts.[i]) (cuts.[i + 1] - cuts.[i])).

Definition contention (cuts : list Z) (queries : list Query) : Z :=
  zsum ((λ i, segment_load cuts queries i * segment_load cuts queries i) <$> seqZ 0 kLockCnt).

Lemma block_bounds q : query_ok q → 0 ≤ block (q_left q) ≤ block (q_right q) ∧ block (q_right q) < kBlocks.
Proof.
  intros Hq. unfold query_ok in Hq.
  pose proof (PositionToBlock_range kBlocks ltac:(lia) block_size (q_left q) Hbs ltac:(lia)).
  pose proof (PositionToBlock_range kBlocks ltac:(lia) block_size (q_right q) Hbs ltac:(lia)).
  pose proof (PositionToBlock_mono kBlocks block_size (q_left q) (q_right q) Hbs ltac:(lia)). lia.
Qed.

(** One query adds one to the blocks it touches. *)
Lemma evaluate_query_hits cuts st q b x :
  query_ok q → len st.1 = kBlocks → 0 ≤ b < kBlocks → st.1.[b] = u64 x →
  len (evaluate_query block_size cuts st q).1 = kBlocks ∧
  (evaluate_query block_size cuts st q).1.[b] = u64 (x + touches b q).
Proof.
  intros Hq Hlen Hb Hx. destruct (block_bounds q Hq) as [Hlr Hr].
  unfold evaluate_query, touches; simpl.
  set (l := block (q_left q)) in *. set (r := block (q_right q)) in *.
  set (f := λ (i : Z) (h : list Z), h.[i <- h.[i] +₆₄ 1]).
  assert (let h := for_range l (r + 1) f st.1 in len h = kBlocks ∧
    ∀ b, 0 ≤ b < kBlocks → h.[b] = if (l <=? b) && (b <? r + 1) then st.1.[b] +₆₄ 1 else st.1.[b]) as [Hl Hg].
  { apply (for_range_inv (λ i h, len h = kBlocks ∧
      ∀ b, 0 ≤ b < kBlocks → h.[b] = if (l <=? b) && (b <? i) then st.1.[b] +₆₄ 1 else st.1.[b])); [lia| |].
    - split; [done|]. intros. by zbool.
    - intros i h Hi [Hh Hbh]. unfold f. split; [by rewrite len_set|].
      intros c Hc. rewrite get_set by lia. rewrite !Hbh by lia. zbool; simpl; congruence || lia. }
  split; [done|]. rewrite Hg by done. replace (b <? r + 1) with (b <=? r) by (zbool; lia).
  destruct ((l <=? b) && (b <=? r)); rewrite Hx; [apply u64_add_r|by rewrite Z.add_0_r].
Qed.

Definition locks_of (cuts : list Z) (q : Query) : Z :=
  FindLockForBlock cuts (block (q_right q)) - FindLockForBlock cuts (block (q_left q)) + 1.

Lemma evaluate_query_total cuts st q y :
  st.2 = u64 y → (evaluate_query block_size cuts st q).2 = u64 (y + locks_of cuts q).
Proof.
  intros Hy. unfold evaluate_query, locks_of; simpl. rewrite Hy. unfold u64_sub.
  rewrite (u64_add_r (_ - _)). apply u64_add_u64.
Qed.

Lemma evaluate_queries cuts queries st b x y :
  Forall query_ok queries → len st.1 = kBlocks → 0 ≤ b < kBlocks → st.1.[b] = u64 x → st.2 = u64 y →
  let st' := foldl (evaluate_query block_size cuts) st queries in
  st'.1.[b] = u64 (x + block_load queries b) ∧ st'.2 = u64 (y + zsum (locks_of cuts <$> queries)).
Proof.
  intros Hq. revert st x y. induction Hq as [|q queries Hq _ IH]; intros st x y Hlen Hb Hx Hy; cbn [foldl].
  - unfold block_load; simpl. by rewrite !Z.add_0_r.
  - destruct (evaluate_query_hits cuts st q b x Hq Hlen Hb Hx) as [Hl Hh].
    destruct (IH (evaluate_query block_size cuts st q) (x + touches b q) (y + locks_of cuts q)) as [-> ->];
      [done..|by apply evaluate_query_total|].
    unfold block_load. rewrite !fmap_cons, !zsum_cons. split; f_equal; lia.
Qed.

Lemma evaluate_start cuts queries b :
  Forall query_ok queries → 0 ≤ b < kBlocks →
  let st := foldl (evaluate_query block_size cuts) (replicate (Z.to_nat kBlocks) 0, 0) queries in
  st.1.[b] = u64 (block_load queries b) ∧ st.2 = u64 (zsum (locks_of cuts <$> queries)).
Proof.
  intros Hq Hb. apply (evaluate_queries cuts queries _ b 0 0); [done| |done| |done].
  - simpl. rewrite len_replicate. lia.
  - simpl. by rewrite get_replicate by lia.
Qed.

Lemma lock_load_spec hits cuts queries i :
  cuts_weak kLockCnt kBlocks cuts → 0 ≤ i < kLockCnt →
  (∀ b, 0 ≤ b < kBlocks → hits.[b] = u64 (block_load queries b)) →
  lock_load hits cuts i = u64 (segment_load cuts queries i).
Proof.
  intros Hc Hi Hh. apply sum_loop.
  - apply (cuts_weak_mono kLockCnt kBlocks); [done|lia|lia].
  - intros b Hb. apply Hh. pose proof (weak_bounds cuts i Hc ltac:(lia)).
    pose proof (weak_bounds cuts (i + 1) Hc ltac:(lia)). lia.
Qed.

Lemma contention_loop cuts queries hits :
  cuts_weak kLockCnt kBlocks cuts → (∀ b, 0 ≤ b < kBlocks → hits.[b] = u64 (block_load queries b)) →
  for_range 0 kLockCnt (λ i score, score +₆₄ lock_load hits cuts i *₆₄ lock_load hits cuts i) 0 =
    u64 (contention cuts queries).
Proof.
  intros Hc Hh. unfold contention. rewrite <-(Z.sub_0_r kLockCnt) at 2. apply sum_loop; [lia|].
  intros i Hi. rewrite (lock_load_spec hits cuts queries) by done. apply u64_mul_u64.
Qed.

(** The mutexes of a query, by the block-to-lock table. *)
Definition mutexes_of (table : list Z) (q : Query) : Z :=
  table.[block (q_right q)] - table.[block (q_left q)] + 1.

Lemma locks_of_table cuts table q :
  cuts_weak kLockCnt kBlocks cuts → len table = kBlocks → query_ok q →
  locks_of cuts q = mutexes_of (RefreshBlockToLock kLockCnt kBlocks cuts table) q.
Proof.
  intros Hc Ht Hq. destruct (block_bounds q Hq) as [H1 H2]. unfold locks_of, mutexes_of.
  by rewrite !(FindLockForBlock_table cuts table) by (done || lia).
Qed.

Lemma locks_of_range cuts q :
  cuts_weak kLockCnt kBlocks cuts → query_ok q → 1 ≤ locks_of cuts q ≤ kLockCnt.
Proof.
  intros Hc Hq. unfold locks_of. destruct (block_bounds q Hq) as [H1 H2].
  destruct (FindLockForBlock_spec cuts (block (q_left q))) as [Hl Hbl]; [done|lia|].
  destruct (FindLockForBlock_spec cuts (block (q_right q))) as [Hr Hbr]; [done|lia|].
  set (i := FindLockForBlock cuts (block (q_left q))) in *.
  set (j := FindLockForBlock cuts (block (q_right q))) in *.
  assert (i ≤ j); [|lia]. destruct (decide (j < i)); [|lia].
  pose proof (cuts_weak_mono kLockCnt kBlocks cuts (j + 1) i Hc ltac:(lia) ltac:(lia)). lia.
Qed.

End Evaluate.

End Chromosome.

(** ** Properties *)

(** [RepairInternalCuts] turns any vector of [kLockCnt - 1] numbers (far
    enough below [2^64]) into the inner cuts of a partition in which every lock
    has at least one block, and leaves a vector that is already one unchanged. *)
Theorem RepairInternalCuts_correct kLockCnt kBlocks l :
  0 < kLockCnt ≤ kBlocks → 3 * kBlocks < modulus64 → len l = kLockCnt - 1 → entries_fit kBlocks l →
  cuts_valid kLockCnt kBlocks (0 :: RepairInternalCuts kBlocks l ++ [kBlocks]) ∧
  (cuts_valid kLockCnt kBlocks (0 :: l ++ [kBlocks]) → RepairInternalCuts kBlocks l = l).
Proof.
  intros HL Hbig Hl Hfit. split.
  - apply internal_valid; [lia..|]. apply RepairInternalCuts_ok; done || lia.
  - intros Hv. apply (RepairInternalCuts_id kLockCnt); [lia|].
    assert (∀ i, 0 ≤ i < len l → l.[i] = (0 :: l ++ [kBlocks]).[i + 1]) as Hg.
    { intros i Hi. rewrite internal_get by lia. zbool. by replace (i + 1 - 1) with i by lia. }
    split_and!; [done| |].
    + intros i Hi. rewrite Hg by lia. apply (valid_bounds kLockCnt); [done|lia].
    + intros i Hi Hi'. rewrite !Hg by lia. apply (cuts_valid_strict kLockCnt kBlocks); [done|lia|lia].
Qed.

Lemma RepairInternalCuts_correct_witness :
  RepairInternalCuts 8 [0; 9; 9; 2] = [1; 5; 6; 7] ∧
  cuts_valid 5 8 (0 :: RepairInternalCuts 8 [0; 9; 9; 2] ++ [8]).
Proof.
  split; [vm_compute; reflexivity|].
  apply (RepairInternalCuts_correct 5 8 [0; 9; 9; 2]); [lia|by vm_compute|done|].
  intros i Hi. change (len [0; 9; 9; 2]) with 4 in Hi.
  assert (i = 0 ∨ i = 1 ∨ i = 2 ∨ i = 3) as [->|[->|[->| ->]]] by lia; by vm_compute.
Defined.

(** [MoveToward] keeps the published partition valid whatever the target
    is (a best partition found by the load balancer may have empty segments);
    towards a valid target each cut moves exactly to the nearest point within
    [max_cut_shift_per_batch] of where it was, so the shift is bounded and the
    target is reached when it is near enough. *)
Theorem MoveToward_correct kLockCnt kBlocks s from target :
  0 < kLockCnt ≤ kBlocks → 3 * kBlocks < modulus64 → 1 ≤ s →
  chrom_ok kLockCnt kBlocks from → chrom_weak kLockCnt kBlocks target →
  chrom_ok kLockCnt kBlocks (MoveToward kLockCnt kBlocks s from target) ∧
  (s + kBlocks < modulus64 → chrom_ok kLockCnt kBlocks target → ∀ i, 0 ≤ i ≤ kLockCnt →
     (cuts (MoveToward kLockCnt kBlocks s from target)).[i] =
       Z.max ((cuts from).[i] - s) (Z.min ((cuts from).[i] + s) ((cuts target).[i]))).
Proof.
  intros HL Hbig Hs Hf Ht. split.
  - apply MoveToward_ok; done || lia.
  - intros Hov Ht' i Hi. apply MoveToward_exact; done || lia.
Qed.

Lemma chrom_example_ok c1 c2 :
  0 < c1 < c2 → c2 < 8 → chrom_ok 3 8 {| cuts := [0; c1; c2; 8]; metrics := no_metrics |}.
Proof.
  intros H1 H2. split_and!; try done. intros i Hi.
  assert (i = 0 ∨ i = 1 ∨ i = 2) as [->|[->| ->]] by lia; simpl; unfold get; simpl; lia.
Qed.

Lemma MoveToward_correct_witness :
  let from := {| cuts := [0; 1; 2; 8]; metrics := no_metrics |} in
  let target := {| cuts := [0; 5; 7; 8]; metrics := no_metrics |} in
  cuts (MoveToward 3 8 2 from target) = [0; 3; 4; 8] ∧ chrom_ok 3 8 (MoveToward 3 8 2 from target).
Proof.
  split; [vm_compute; reflexivity|].
  apply (MoveToward_correct 3 8 2); [lia|by vm_compute|lia|apply chrom_example_ok; lia|].
  apply chrom_ok_weak, chrom_example_ok; lia.
Defined.

(** With the largest shift, [SIZE_MAX] ("no limit"), the addition in
    [MoveToward] wraps around: a cut that should move right to its target moves
    one block to the left instead (when the repair leaves it alone). *)
Theorem MoveToward_wraps c t :
  1 ≤ c < t → t < modulus64 → move_cut size_max c t = c - 1.
Proof.
  intros Hc Ht. unfold move_cut. destruct (Z.ltb_spec c t); [|lia].
  assert (c +₆₄ size_max = c - 1) as ->; [|lia].
  unfold u64_add, u64, size_max. symmetry. apply (Z.mod_unique _ _ 1); lia.
Qed.

Lemma MoveToward_wraps_witness :
  let from := {| cuts := [0; 3; 8]; metrics := no_metrics |} in
  let target := {| cuts := [0; 6; 8]; metrics := no_metrics |} in
  cuts (MoveToward 2 8 size_max from target) = [0; 2; 8] ∧ move_cut size_max 3 6 = 3 - 1.
Proof.
  split; [vm_compute; reflexivity|]. apply (MoveToward_wraps 3 6); unfold modulus64; lia.
Defined.

(** C14. Every constructor and operator of the search returns, and returns a
    partition in which each lock has at least one block: the uniform and the
    profile-guided chromosome for any profile of doubles, random chromosomes
    (the rejection loop ends because the source is fair), [Crossover] of any two
    partitions and [Mutate]; the load-balanced chromosome always has
    non-decreasing cuts from [0] to [kBlocks]. *)
Theorem genetic_operators_valid kLockCnt kBlocks (R : RandomSource) (F : FairSource R) profile lhs rhs c :
  0 < kLockCnt ≤ kBlocks → kLockCnt * kBlocks < modulus64 → kBlocks < 2 ^ 31 →
  chrom_weak kLockCnt kBlocks lhs → chrom_weak kLockCnt kBlocks rhs → chrom_ok kLockCnt kBlocks c →
  chrom_ok kLockCnt kBlocks (MakeUniformChromosome kLockCnt kBlocks) ∧
  chrom_ok kLockCnt kBlocks (MakeProfileGuidedChromosome kLockCnt kBlocks profile) ∧
  chrom_weak kLockCnt kBlocks (MakeLoadBalancedChromosome kLockCnt kBlocks profile) ∧
  wp (MakeRandomChromosome kLockCnt kBlocks) (chrom_ok kLockCnt kBlocks) ∧
  wp (Crossover kLockCnt kBlocks lhs rhs) (chrom_ok kLockCnt kBlocks) ∧
  wp (Mutate kLockCnt kBlocks c) (chrom_ok kLockCnt kBlocks).
Proof.
  intros HL Hov Hi Hl Hr Hc. assert (3 * kBlocks < modulus64) by (unfold modulus64; lia). split_and!.
  - apply uniform_ok; lia.
  - apply MakeProfileGuidedChromosome_ok; lia.
  - apply MakeLoadBalancedChromosome_weak; lia.
  - apply MakeRandomChromosome_wp; done || lia.
  - apply Crossover_wp; done || lia.
  - apply Mutate_wp; done || lia.
Qed.

Lemma genetic_operators_valid_witness :
  let c := {| cuts := [0; 3; 5; 8]; metrics := no_metrics |} in
  (∃ r, Mutate 3 8 c 10%nat 7 = Some (r, 18) ∧ cuts r = [0; 1; 5; 8]) ∧
  cuts (MakeLoadBalancedChromosome 3 8 [d_one; d_one; d_zero; d_zero; d_one; d_one; d_zero; d_zero])
    = [0; 1; 2; 8] ∧
  wp (R:=counter_source) (MakeRandomChromosome 3 8) (chrom_ok 3 8).
Proof.
  split; [eexists; vm_compute; split; reflexivity|]. split; [vm_compute; reflexivity|].
  set (c := {| cuts := [0; 3; 5; 8]; metrics := no_metrics |}).
  assert (chrom_ok 3 8 c) by (apply chrom_example_ok; lia).
  apply (genetic_operators_valid 3 8 counter_source counter_fair [] c c c);
    [lia|by vm_compute|lia|by apply chrom_ok_weak|by apply chrom_ok_weak|done].
Defined.

(** C15. [Evaluate] of no query is [PartitionMetrics{}]. On queries whose ends are
    in order it computes, modulo [2^64], the contention of the specification (the
    sum over the locks of the squared number of block hits in the lock's
    segment); the average number of mutexes is the total, modulo [2^64], of the
    mutexes each query takes, divided by the number of queries, where the mutexes
    of a query are those between the locks that the table [RefreshBlockToLock]
    writes for the same cuts gives to its two end blocks, between [1] and
    [kLockCnt] of them; and the fitness is the contention plus 5000 times that
    average. *)
Theorem Evaluate_correct kLockCnt kBlocks block_size cuts queries table :
  0 < kLockCnt ≤ kBlocks → 1 ≤ block_size →
  cuts_weak kLockCnt kBlocks cuts → Forall query_ok queries → len table = kBlocks →
  let t := RefreshBlockToLock kLockCnt kBlocks cuts table in
  let contention := u64 (contention kLockCnt kBlocks block_size cuts queries) in
  let total := u64 (zsum (mutexes_of kBlocks block_size t <$> queries)) in
  let avg := d_of_Z total /ᵈ d_of_Z (len queries) in
  Evaluate kLockCnt kBlocks block_size cuts queries =
    (if decide (queries = []) then no_metrics
     else {| contention_score := contention; avg_mutexes_per_query := avg;
             fitness := d_of_Z contention +ᵈ d_of_Z 5000 *ᵈ avg |}) ∧
  Forall (λ q, 1 ≤ mutexes_of kBlocks block_size t q ≤ kLockCnt) queries.
Proof.
  intros HL Hbs Hc Hq Ht t. cbv zeta.
  assert (Forall (λ q, locks_of kLockCnt kBlocks block_size cuts q = mutexes_of kBlocks block_size t q)
    queries) as Hm by (eapply Forall_impl; [exact Hq|]; intros q Hqq;
    apply (locks_of_table kLockCnt kBlocks); done || lia).
  split.
  - unfold Evaluate. repeat case_decide; try done; [by destruct queries|by subst|].
    pose proof (λ b Hb, evaluate_start kLockCnt kBlocks ltac:(lia) ltac:(lia) block_size Hbs cuts queries b Hq Hb) as Hh.
    pose proof (proj2 (Hh 0 ltac:(lia))) as Htot.
    destruct (foldl _ _ queries) as [hits total]. simpl in *.
    rewrite (contention_loop kLockCnt kBlocks ltac:(lia) block_size cuts queries hits Hc);
      [|intros b Hb; apply Hh; lia].
    assert (locks_of kLockCnt kBlocks block_size cuts <$> queries =
      mutexes_of kBlocks block_size t <$> queries) as <- by (by apply list_fmap_ext, Forall_lookup).
    by rewrite Htot.
  - apply Forall_forall. intros q Hin. rewrite Forall_forall in Hm, Hq. rewrite <-Hm by done.
    apply locks_of_range; try lia; [done|by apply Hq].
Qed.

Lemma Evaluate_correct_witness :
  let q l r := {| q_left := l; q_right := r; q_target := l; q_delta := 1 |} in
  let queries := [q 0 3; q 2 2; q 7 15] in
  let t := RefreshBlockToLock 3 8 [0; 1; 2; 8] (replicate 8 0) in
  contention_score (Evaluate 3 8 2 [0; 1; 2; 8] queries) = 30 ∧
  mutexes_of 8 2 t <$> queries = [2; 1; 1] ∧
  contention_score (Evaluate 3 8 2 [0; 1; 2; 8] queries) = u64 (contention 3 8 2 [0; 1; 2; 8] queries) ∧
  avg_mutexes_per_query (Evaluate 3 8 2 [0; 1; 2; 8] queries) = d_of_Z 4 /ᵈ d_of_Z 3.
Proof.
  intros q queries t. split; [vm_compute; reflexivity|]. split; [vm_compute; reflexivity|].
  assert (cuts_weak 3 8 [0; 1; 2; 8]) as Hc.
  { apply (chrom_ok_weak 3 8 {| cuts := [0; 1; 2; 8]; metrics := no_metrics |}). apply chrom_example_ok; lia. }
  destruct (Evaluate_correct 3 8 2 [0; 1; 2; 8] queries (replicate 8 0)) as [-> _];
    [lia|lia|done|repeat constructor; simpl; lia|done|].
  split; [reflexivity|vm_compute; reflexivity].
Defined.
