(* ===== verification/GeneticPartitioner.v ===== *)
(** [GeneticPartitioner]: workload components and the genetic search.

    The stateful part of [genetic/genetic_partitioner.hpp]: assigning a batch of
    queries to a workload component, applying a load-balanced partition when it
    is good enough, and otherwise training a population of chromosomes. The
    random engine is threaded by [rand]; [std::sort] on chromosomes, which is not
    stable, is an interface that fixes only what the standard promises. The main
    results are that [ObserveBatch] returns and keeps the published partition
    valid, and that training is elitist: it never remembers a partition worse
    than the one in use. *)
From S2P Require Import BlockMap Double Random Chromosome Prelude.

(** [std::sort] by fitness: a permutation; and when no fitness is a NaN, so that
    [<] is a strict weak order, nothing compares smaller than the first element. *)
Class PopulationSort := {
  sort_population : list Chromosome → list Chromosome;
  sort_population_perm l : sort_population l ≡ₚ l;
  sort_population_front l c c' :
    Forall (λ c, fitness (metrics c) ≠ S754_nan) l →
    head (sort_population l) = Some c → c' ∈ l →
    d_lt (fitness (metrics c')) (fitness (metrics c)) = false
}.

Record WorkloadComponent := {
  centroid : list double;
  partition_centroid : list double;
  queries : list Query;
  best_partition : Chromosome;
  mass : double;
  has_best_partition : bool;
  has_partition_centroid : bool
}.

#[export] Instance WorkloadComponent_inhabited : Inhabited WorkloadComponent :=
  populate {| centroid := []; partition_centroid := []; queries := [];
              best_partition := {| cuts := []; metrics := no_metrics |};
              mass := d_zero; has_best_partition := false; has_partition_centroid := false |}.

(** [WorkloadComponent component;] *)
Definition new_component : WorkloadComponent := inhabitant.

(** The members; the engine [rng_] is the state of [rand]. *)
Record GeneticPartitioner := {
  array_size_ : Z;
  block_size_ : Z;
  history_limit_ : Z;
  population_size_ : Z;
  elite_count_ : Z;
  generation_count_ : Z;
  max_components_ : Z;
  component_query_limit_ : Z;
  component_decay_ : double;
  component_learning_rate_ : double;
  new_component_threshold_ : double;
  max_cut_shift_per_batch_ : Z;
  components_ : list WorkloadComponent;
  active_component_ : Z;
  current_ : Chromosome
}.

Definition kNoComponent : Z := size_max.

Section GeneticPartitioner.
  Variables (kLockCnt kBlocks : Z).
  Context `{R : RandomSource} `{PS : PopulationSort}.

Definition make_partitioner (array_size history_limit population_size elite_count generation_count
    max_components : Z) (component_decay component_learning_rate new_component_threshold : double)
    (max_cut_shift_per_batch : Z) : GeneticPartitioner :=
  {| array_size_ := array_size;
     block_size_ := init_block_size kBlocks array_size;
     history_limit_ := history_limit;
     population_size_ := Z.max population_size 1;
     elite_count_ := Z.max 1 (Z.min elite_count (Z.max population_size 1));
     generation_count_ := generation_count;
     max_components_ := Z.max max_components 1;
     component_query_limit_ := Z.max history_limit 1;
     component_decay_ := d_clamp component_decay d_zero d_one;
     component_learning_rate_ := d_clamp component_learning_rate d_zero d_one;
     new_component_threshold_ := d_max d_zero new_component_threshold;
     max_cut_shift_per_batch_ := Z.max max_cut_shift_per_batch 1;
     components_ := [];
     active_component_ := kNoComponent;
     current_ := MakeUniformChromosome kLockCnt kBlocks |}.

Definition set_components (p : GeneticPartitioner) (l : list WorkloadComponent) : GeneticPartitioner :=
  {| p with components_ := l |}.
Definition set_active (p : GeneticPartitioner) (i : Z) : GeneticPartitioner :=
  {| p with active_component_ := i |}.
Definition set_current (p : GeneticPartitioner) (c : Chromosome) : GeneticPartitioner :=
  {| p with current_ := c |}.

(** The assignment [components_[active_component_] = c]. *)
Definition set_active_component (p : GeneticPartitioner) (c : WorkloadComponent) : GeneticPartitioner :=
  set_components p ((components_ p).[active_component_ p <- c]).

(** [Evaluate] as a method. *)
Definition evaluate (p : GeneticPartitioner) (cuts : list Z) (queries : list Query) : PartitionMetrics :=
  Evaluate kLockCnt kBlocks (block_size_ p) cuts queries.

(** [chromosome.metrics = Evaluate(chromosome.cuts, queries);] *)
Definition with_metrics (p : GeneticPartitioner) (queries : list Query) (c : Chromosome) : Chromosome :=
  {| cuts := cuts c; metrics := evaluate p (cuts c) queries |}.

Definition EvaluateCurrent (p : GeneticPartitioner) (queries : list Query) : PartitionMetrics :=
  evaluate p (cuts (current_ p)) queries.

Definition partitioner_CountLocksForRange (p : GeneticPartitioner) (left right : Z) : Z :=
  if array_size_ p =? 0 then 0
  else
    let (left, right) := normalize (array_size_ p) left right in
    let left_block := PositionToBlock kBlocks (block_size_ p) left in
    let right_block := PositionToBlock kBlocks (block_size_ p) right in
    let first_lock := FindLockForBlock kLockCnt (cuts (current_ p)) left_block in
    let last_lock := FindLockForBlock kLockCnt (cuts (current_ p)) right_block in
    last_lock -₆₄ first_lock +₆₄ 1.

Definition partitioner_PartitionCuts (p : GeneticPartitioner) : list Z := cuts (current_ p).

(** ** Workload components *)

Definition DecayComponentMasses (p : GeneticPartitioner) : GeneticPartitioner :=
  set_components p
    ((λ c : WorkloadComponent, {| c with mass := mass c *ᵈ component_decay_ p |}) <$> components_ p).

(** [while (queries.size() > limit) queries.pop_front();] *)
Fixpoint pop_front_while (limit : Z) (queries : list Query) : list Query :=
  match queries with
  | [] => []
  | _ :: rest => if limit <? len queries then pop_front_while limit rest else queries
  end.

Definition AppendQueries (p : GeneticPartitioner) (component : WorkloadComponent)
    (batch : list Query) : WorkloadComponent :=
  {| component with queries := pop_front_while (component_query_limit_ p) (queries component ++ batch) |}.

Definition ResetComponent (p : GeneticPartitioner) (component : WorkloadComponent)
    (profile : list double) (batch : list Query) : WorkloadComponent :=
  let component := {| component with centroid := profile; partition_centroid := []; queries := [];
                        mass := d_one; has_best_partition := false; has_partition_centroid := false |} in
  AppendQueries p component batch.

Definition UpdateComponent (p : GeneticPartitioner) (component : WorkloadComponent)
    (profile : list double) (batch : list Query) : WorkloadComponent :=
  let rate := component_learning_rate_ p in
  let centroid := for_range 0 kBlocks (λ block c,
      c.[block <- (d_one -ᵈ rate) *ᵈ c.[block] +ᵈ rate *ᵈ profile.[block]]) (centroid component) in
  AppendQueries p {| component with centroid := centroid; mass := mass component +ᵈ d_one |} batch.

Definition weakest_index (components : list WorkloadComponent) : Z :=
  for_range 1 (len components) (λ i weakest,
    if mass (components.[i]) <?ᵈ mass (components.[weakest]) then i else weakest) 0.

Definition ReplaceWeakestComponent (p : GeneticPartitioner) (profile : list double)
    (batch : list Query) : Z * GeneticPartitioner :=
  let i := weakest_index (components_ p) in
  (i, set_components p
        ((components_ p).[i <- ResetComponent p ((components_ p).[i]) profile batch])).

(** [best_distance] and [best_index]. *)
Definition nearest_component (components : list WorkloadComponent) (profile : list double) : double * Z :=
  for_range 1 (len components) (λ i best,
    let distance := ProfileDistance profile (centroid (components.[i])) in
    if distance <?ᵈ best.1 then (distance, i) else best)
    (ProfileDistance profile (centroid (components.[0])), 0).

Definition AssignBatchToComponent (p : GeneticPartitioner) (profile : list double)
    (batch : list Query) : Z * GeneticPartitioner :=
  if decide (length (components_ p) = 0%nat)
  then (0, set_components p [ResetComponent p new_component profile batch])
  else
    let '(best_distance, best_index) := nearest_component (components_ p) profile in
    if best_distance >?ᵈ new_component_threshold_ p
    then
      if len (components_ p) <? max_components_ p
      then
        let components := components_ p ++ [ResetComponent p new_component profile batch] in
        (len components - 1, set_components p components)
      else ReplaceWeakestComponent p profile batch
    else
      (best_index, set_components p
         ((components_ p).[best_index <- UpdateComponent p ((components_ p).[best_index]) profile batch])).

(** [active_component_ < components_.size()] *)
Definition has_active (p : GeneticPartitioner) : bool := active_component_ p <? len (components_ p).

Definition active (p : GeneticPartitioner) : WorkloadComponent := (components_ p).[active_component_ p].

Definition move_toward (p : GeneticPartitioner) (from target : Chromosome) : Chromosome :=
  MoveToward kLockCnt kBlocks (max_cut_shift_per_batch_ p) from target.

Definition ActivateComponent (p : GeneticPartitioner) (component_index : Z) : GeneticPartitioner :=
  if len (components_ p) <=? component_index then p
  else
    let component := (components_ p).[component_index] in
    if has_best_partition component
    then set_current p (move_toward p (current_ p) (best_partition component)) else p.

Definition BuildActiveQueries (p : GeneticPartitioner) : list Query :=
  if has_active p then queries (active p) else [].

(** [RememberBestForActiveComponent] *)
Definition RememberBest (p : GeneticPartitioner) (candidate : Chromosome) (qs : list Query) :
    GeneticPartitioner :=
  if negb (has_active p) then p
  else
    let component := active p in
    let candidate := with_metrics p qs candidate in
    if negb (has_best_partition component)
    then set_active_component p {| component with best_partition := candidate; has_best_partition := true |}
    else
      let best := with_metrics p qs (best_partition component) in
      let best :=
        if fitness (metrics candidate) <=?ᵈ fitness (metrics best) then candidate else best in
      set_active_component p {| component with best_partition := best |}.

(** [component.partition_centroid = component.centroid; has_partition_centroid = true;] *)
Definition mark_centroid (p : GeneticPartitioner) : GeneticPartitioner :=
  let component := active p in
  set_active_component p
    {| component with partition_centroid := centroid component; has_partition_centroid := true |}.

Definition ApplyProfileGuidedPartition (p : GeneticPartitioner) : bool * GeneticPartitioner :=
  if negb (has_active p) then (false, p)
  else
    let component := active p in
    let kPartitionProfileDistanceThreshold := d_lit 8 100 in
    if has_best_partition component && has_partition_centroid component &&
       bool_decide (cuts (current_ p) = cuts (best_partition component)) &&
       (ProfileDistance (centroid component) (partition_centroid component)
          <?ᵈ kPartitionProfileDistanceThreshold)
    then (false, p)
    else
      let qs := BuildActiveQueries p in
      if decide (length qs = 0%nat) then (false, p)
      else
        let start_partition := current_ p in
        let guided := MakeLoadBalancedChromosome kLockCnt kBlocks (centroid component) in
        if decide (cuts guided = cuts start_partition) then (false, mark_centroid p)
        else
          let start_metrics := evaluate p (cuts start_partition) qs in
          let guided := with_metrics p qs guided in
          if fitness (metrics guided) >?ᵈ (fitness start_metrics *ᵈ d_lit 98 100)
          then (false, mark_centroid p)
          else
            let p := RememberBest p guided qs in
            let p := mark_centroid p in
            let p := set_current p (move_toward p start_partition guided) in
            (true, set_current p (with_metrics p qs (current_ p))).

(** ** Training *)

Definition EvaluatePopulation (p : GeneticPartitioner) (population : list Chromosome)
    (qs : list Query) : list Chromosome :=
  with_metrics p qs <$> population.

(** The chromosomes that are seeded without drawing: the best partition of the
    active component, the guided and the uniform one, if there is room and they
    are not there yet. *)
Definition seed_best (p : GeneticPartitioner) (population : list Chromosome) : list Chromosome :=
  if has_active p && has_best_partition (active p) &&
     negb (bool_decide (cuts (best_partition (active p)) = cuts (current_ p))) &&
     (len population <? population_size_ p)
  then population ++ [best_partition (active p)] else population.

Definition seed_guided (p : GeneticPartitioner) (population : list Chromosome) : list Chromosome :=
  if has_active p && (len population <? population_size_ p)
  then
    let guided := MakeProfileGuidedChromosome kLockCnt kBlocks (centroid (active p)) in
    if negb (bool_decide (cuts guided = cuts (current_ p))) &&
       (negb (has_best_partition (active p)) ||
        negb (bool_decide (cuts guided = cuts (best_partition (active p)))))
    then population ++ [guided] else population
  else population.

Definition seed_uniform (p : GeneticPartitioner) (population : list Chromosome) : list Chromosome :=
  if len population <? population_size_ p
  then
    let uniform := MakeUniformChromosome kLockCnt kBlocks in
    let duplicate := existsb (λ c, bool_decide (cuts c = cuts uniform)) population in
    if negb duplicate then population ++ [uniform] else population
  else population.

Definition seed_fixed (p : GeneticPartitioner) : list Chromosome :=
  seed_uniform p (seed_guided p (seed_best p [current_ p])).

(** [Chromosome candidate = current_; Mutate(candidate); population.push_back(candidate);] *)
Definition push_mutated (p : GeneticPartitioner) (population : list Chromosome) : rand (list Chromosome) :=
  candidate ← Mutate kLockCnt kBlocks (current_ p);
  mret (population ++ [candidate]).

Definition push_seed (p : GeneticPartitioner) (population : list Chromosome) : rand (list Chromosome) :=
  if Z.land (len population) 1 =? 0 then push_mutated p population
  else
    candidate ← MakeRandomChromosome kLockCnt kBlocks;
    mret (population ++ [candidate]).

Definition SeedPopulation (p : GeneticPartitioner) : rand (list Chromosome) :=
  population ← rand_while (λ population : list Chromosome, len population <? elite_count_ p)
                 (push_mutated p) (seed_fixed p);
  rand_while (λ population : list Chromosome, len population <? population_size_ p)
    (push_seed p) population.

(** One child: crossover of two elites, and a mutation most of the time. *)
Definition push_child (p : GeneticPartitioner) (qs : list Query) (population : list Chromosome)
    (selectable : Z) (next_generation : list Chromosome) : rand (list Chromosome) :=
  i ← draw 0 (selectable - 1);
  j ← draw 0 (selectable - 1);
  child ← Crossover kLockCnt kBlocks (population.[i]) (population.[j]);
  mutate ← coin (d_lit 85 100);
  child ← (if (mutate : bool) then Mutate kLockCnt kBlocks child else mret child);
  mret (next_generation ++ [with_metrics p qs child]).

Definition next_generation (p : GeneticPartitioner) (qs : list Query)
    (population : list Chromosome) : rand (list Chromosome) :=
  let population := sort_population population in
  let elites := take (Z.to_nat (elite_count_ p)) population in
  let selectable := Z.min (elite_count_ p) (len population) in
  rand_while (λ next : list Chromosome, len next <? population_size_ p)
    (push_child p qs population selectable) elites.

Definition TrainOnActiveComponent (p : GeneticPartitioner) : rand GeneticPartitioner :=
  let qs := BuildActiveQueries p in
  if decide (length qs = 0%nat) then mret p
  else
    let start_partition := current_ p in
    population ← SeedPopulation p;
    population ← rand_for (Z.to_nat (generation_count_ p)) 0 (λ _, next_generation p qs)
                   (EvaluatePopulation p population qs);
    let population := sort_population population in
    let p := RememberBest p (population.[0]) qs in
    if has_active p && has_best_partition (active p)
    then
      let p := set_current p (move_toward p start_partition (best_partition (active p))) in
      mret (set_current p (with_metrics p qs (current_ p)))
    else mret p.

Definition ObserveBatch (p : GeneticPartitioner) (batch : list Query) : rand GeneticPartitioner :=
  if decide (length batch = 0%nat) then mret p
  else
    let profile := BuildBlockProfile kBlocks (block_size_ p) batch in
    let p := DecayComponentMasses p in
    let (i, p) := AssignBatchToComponent p profile batch in
    let p := set_active p i in
    let p := ActivateComponent p (active_component_ p) in
    let (applied, p) := ApplyProfileGuidedPartition p in
    if applied then mret p
    else if generation_count_ p =? 0 then mret p
    else TrainOnActiveComponent p.

(** ** The invariant *)

Context (HL : 0 < kLockCnt ≤ kBlocks) (Hov : kLockCnt * kBlocks < modulus64) (Hint : kBlocks < 2 ^ 31).

Local Abbreviation chrom_ok := (chrom_ok kLockCnt kBlocks).
Local Abbreviation chrom_weak := (chrom_weak kLockCnt kBlocks).

Record component_ok (limit : Z) (c : WorkloadComponent) : Prop := {
  component_centroid : len (centroid c) = kBlocks;
  component_queries : len (queries c) ≤ limit;
  component_best : has_best_partition c = true → chrom_weak (best_partition c)
}.

Record gp_ok (p : GeneticPartitioner) : Prop := {
  gp_current : chrom_ok (current_ p);
  gp_components : Forall (component_ok (component_query_limit_ p)) (components_ p);
  gp_count : len (components_ p) ≤ max_components_ p;
  gp_active : active_component_ p = kNoComponent ∨ 0 ≤ active_component_ p < len (components_ p);
  gp_shift : 1 ≤ max_cut_shift_per_batch_ p;
  gp_limits : 1 ≤ max_components_ p < size_max ∧ 1 ≤ component_query_limit_ p;
  gp_population : 1 ≤ elite_count_ p ≤ population_size_ p
}.

Lemma big_blocks : 3 * kBlocks < modulus64.
Proof. unfold modulus64 in *. lia. Qed.

Lemma make_partitioner_ok n h ps ec gc mc decay rate threshold shift :
  mc < size_max → gp_ok (make_partitioner n h ps ec gc mc decay rate threshold shift).
Proof.
  intros Hmc. split; simpl; try lia.
  - apply uniform_ok; lia.
  - constructor.
  - unfold len; simpl. lia.
  - unfold size_max, modulus64 in *. lia.
Qed.

Lemma move_toward_ok p c : gp_ok p → chrom_weak c → chrom_ok (move_toward p (current_ p) c).
Proof.
  intros Hp Hc. apply MoveToward_ok; [lia|lia|apply big_blocks|apply Hp|apply Hp|done].
Qed.

Lemma has_active_spec p : gp_ok p → has_active p = true → 0 ≤ active_component_ p < len (components_ p).
Proof.
  intros Hp Ha. unfold has_active in Ha. apply Z.ltb_lt in Ha. destruct (gp_active p Hp) as [Hn|]; [|done].
  pose proof (gp_count p Hp). pose proof (gp_limits p Hp). unfold kNoComponent in Hn. lia.
Qed.

Lemma active_ok p : gp_ok p → has_active p = true → component_ok (component_query_limit_ p) (active p).
Proof. intros Hp Ha. unfold active. apply get_Forall; [apply Hp|by apply has_active_spec]. Qed.

Lemma set_current_ok p c : gp_ok p → chrom_ok c → gp_ok (set_current p c).
Proof. intros []. by split. Qed.

Lemma set_active_component_ok p c :
  gp_ok p → component_ok (component_query_limit_ p) c → gp_ok (set_active_component p c).
Proof.
  intros [] Hc. split; simpl; try done.
  - by apply Forall_insert.
  - by rewrite len_set.
  - by rewrite len_set.
Qed.

Lemma with_metrics_cuts p qs c : cuts (with_metrics p qs c) = cuts c.
Proof. done. Qed.

Lemma RememberBest_ok p c qs : gp_ok p → chrom_weak c → gp_ok (RememberBest p c qs).
Proof.
  intros Hp Hc. unfold RememberBest. destruct (has_active p) eqn:Ha; [|done]. simpl.
  destruct (active_ok p Hp Ha) as [H1 H2 H3].
  destruct (has_best_partition (active p)) eqn:Hb; simpl; apply set_active_component_ok; try done; split; try done.
  simpl. intros _. destruct (_ <=?ᵈ _); [done|by apply H3].
Qed.

Lemma has_active_set p c : has_active (set_active_component p c) = has_active p.
Proof. unfold has_active; simpl. by rewrite len_set. Qed.

Lemma RememberBest_active p c qs : has_active (RememberBest p c qs) = has_active p.
Proof.
  unfold RememberBest. destruct (has_active p) eqn:Ha; [|done]. simpl.
  destruct (has_best_partition _); simpl; by rewrite has_active_set.
Qed.

Lemma RememberBest_fields p c qs :
  max_cut_shift_per_batch_ (RememberBest p c qs) = max_cut_shift_per_batch_ p ∧
  block_size_ (RememberBest p c qs) = block_size_ p ∧ current_ (RememberBest p c qs) = current_ p.
Proof.
  unfold RememberBest. destruct (has_active p); [|done]. simpl.
  by destruct (has_best_partition (active p)).
Qed.

Lemma mark_centroid_ok p : gp_ok p → has_active p = true → gp_ok (mark_centroid p).
Proof.
  intros Hp Ha. apply set_active_component_ok; [done|]. destruct (active_ok p Hp Ha). by split.
Qed.

(** *** Batches and components *)

Lemma pop_front_while_spec limit qs :
  0 ≤ limit → len (pop_front_while limit qs) = Z.min limit (len qs) ∧ suffix (pop_front_while limit qs) qs.
Proof.
  intros Hl. induction qs as [|q qs [IH Hs]]; [split; [unfold len; simpl; lia|done]|].
  cbn [pop_front_while]. destruct (Z.ltb_spec limit (len (q :: qs))) as [Hlt|Hge].
  - rewrite len_cons in *. split; [lia|by apply suffix_cons_r].
  - split; [lia|done].
Qed.

Lemma AppendQueries_ok p c batch :
  0 ≤ component_query_limit_ p → len (centroid c) = kBlocks →
  (has_best_partition c = true → chrom_weak (best_partition c)) →
  component_ok (component_query_limit_ p) (AppendQueries p c batch).
Proof.
  intros Hl Hc Hb. split; simpl; [done| |done].
  destruct (pop_front_while_spec (component_query_limit_ p) (queries c ++ batch) Hl) as [-> _]. lia.
Qed.

Lemma BuildBlockProfile_len bs qs : len (BuildBlockProfile kBlocks bs qs) = kBlocks.
Proof.
  unfold BuildBlockProfile.
  assert (len (foldl (profile_query kBlocks bs) (replicate (Z.to_nat kBlocks) d_zero, d_zero) qs).1 = kBlocks) as H.
  { assert (∀ st, len st.1 = kBlocks → len (foldl (profile_query kBlocks bs) st qs).1 = kBlocks) as H.
    { induction qs as [|q qs IH]; intros st Hst; [done|]. apply IH.
      unfold profile_query. apply (for_range_const (λ st : list double * double, len st.1 = kBlocks)); [done|].
      intros i t _ Ht. simpl. by rewrite len_set. }
    apply H. simpl. rewrite len_replicate. lia. }
  destruct (foldl _ _ _) as [profile total]. simpl in H.
  destruct (total =?ᵈ d_zero); [done|]. by rewrite len_fmap.
Qed.

Lemma UpdateComponent_ok p c profile batch :
  0 ≤ component_query_limit_ p → component_ok (component_query_limit_ p) c →
  component_ok (component_query_limit_ p) (UpdateComponent p c profile batch).
Proof.
  intros Hl [Hc _ Hb]. apply AppendQueries_ok; simpl; [done| |done].
  apply (for_range_const (λ l : list double, len l = kBlocks)); [done|]. intros. by rewrite len_set.
Qed.

Lemma weakest_index_range l : 0 < len l → 0 ≤ weakest_index l < len l.
Proof.
  intros Hl. unfold weakest_index. apply (for_range_const (λ w, 0 ≤ w < len l)); [lia|].
  intros i w Hi Hw. destruct (_ <?ᵈ _); lia.
Qed.

Lemma nearest_component_range l profile : 0 < len l → 0 ≤ (nearest_component l profile).2 < len l.
Proof.
  intros Hl. unfold nearest_component.
  apply (for_range_const (λ st : double * Z, 0 ≤ st.2 < len l)); [simpl; lia|].
  intros i st Hi Hst. destruct (_ <?ᵈ _); simpl; lia.
Qed.

(** Replacing the components by well-formed ones and activating one of them. *)
Lemma set_components_ok p l i :
  gp_ok p → Forall (component_ok (component_query_limit_ p)) l → len l ≤ max_components_ p → 0 ≤ i < len l →
  gp_ok (set_active (set_components p l) i).
Proof. intros [] Hf Hl Hi. split; simpl; auto. Qed.

Lemma AssignBatchToComponent_ok p profile batch :
  gp_ok p → len profile = kBlocks →
  let (i, p') := AssignBatchToComponent p profile batch in gp_ok (set_active p' i) ∧ 0 ≤ i < len (components_ p').
Proof.
  intros Hp Hprof. pose proof (gp_limits p Hp) as [Hmax Hlim]. pose proof (gp_components p Hp) as Hf.
  pose proof (gp_count p Hp) as Hcount.
  assert (∀ c, component_ok (component_query_limit_ p) (ResetComponent p c profile batch)) as Hreset
    by (intros; apply AppendQueries_ok; simpl; done || lia).
  unfold AssignBatchToComponent. case_decide as Hemp.
  { split; [|done]. apply set_components_ok; [done|by constructor|unfold len; simpl; lia|done]. }
  assert (0 < len (components_ p)) as Hpos by (unfold len; lia).
  pose proof (nearest_component_range _ profile Hpos) as Hnear.
  destruct (nearest_component _ profile) as [dist best]; simpl in Hnear.
  destruct (dist >?ᵈ _); [destruct (Z.ltb_spec (len (components_ p)) (max_components_ p))|].
  - rewrite len_app. change (len [_]) with 1. split.
    + apply set_components_ok; [done|apply Forall_app; split; [done|by constructor]|..];
        rewrite len_app; change (len [_]) with 1; lia.
    + simpl. rewrite len_app. change (len [_]) with 1. lia.
  - unfold ReplaceWeakestComponent. pose proof (weakest_index_range _ Hpos). split.
    + apply set_components_ok; [done|by apply Forall_insert|by rewrite len_set..].
    + simpl. by rewrite len_set.
  - split; [|simpl; by rewrite len_set].
    apply set_components_ok; [done| |by rewrite len_set..].
    apply Forall_insert; [done|]. apply UpdateComponent_ok; [lia|]. apply get_Forall; [done|lia].
Qed.

Lemma DecayComponentMasses_ok p : gp_ok p → gp_ok (DecayComponentMasses p).
Proof.
  intros []. split; simpl; try done; rewrite ?len_fmap; try done.
  apply Forall_fmap. eapply Forall_impl; [done|]. intros c []. by split.
Qed.

Lemma ActivateComponent_ok p i : gp_ok p → 0 ≤ i → gp_ok (ActivateComponent p i).
Proof.
  intros Hp Hi. unfold ActivateComponent. destruct (Z.leb_spec (len (components_ p)) i); [done|].
  destruct (has_best_partition _) eqn:Hb; [|done]. apply set_current_ok; [done|].
  apply move_toward_ok; [done|].
  by apply (component_best _ _ (get_Forall _ _ i (gp_components p Hp) ltac:(lia))).
Qed.

Lemma load_balanced_weak profile : chrom_weak (MakeLoadBalancedChromosome kLockCnt kBlocks profile).
Proof. apply MakeLoadBalancedChromosome_weak; first [lia|apply big_blocks]. Qed.

Lemma ApplyProfileGuidedPartition_ok p : gp_ok p → gp_ok (ApplyProfileGuidedPartition p).2.
Proof.
  intros Hp. unfold ApplyProfileGuidedPartition. destruct (has_active p) eqn:Ha; [|done]. simpl.
  destruct (_ && _); [done|]. case_decide; [done|].
  case_decide; [by apply mark_centroid_ok|]. destruct (_ >?ᵈ _); [by apply mark_centroid_ok|]. simpl.
  set (guided := with_metrics _ _ _).
  assert (chrom_weak guided) as Hg by apply load_balanced_weak.
  pose proof (RememberBest_ok p guided (BuildActiveQueries p) Hp Hg) as Hp1.
  assert (has_active (RememberBest p guided (BuildActiveQueries p)) = true) as Ha1.
  { by rewrite RememberBest_active. }
  apply set_current_ok; [apply set_current_ok|].
  - by apply mark_centroid_ok.
  - apply MoveToward_ok; [lia|lia|apply big_blocks|apply Hp1|apply Hp|done].
  - apply MoveToward_ok; [lia|lia|apply big_blocks|apply Hp1|apply Hp|done].
Qed.

(** *** Populations *)

Definition population_ok (l : list Chromosome) : Prop := Forall chrom_weak l.

(** A population in the making: it starts with [current_], all its members are
    partitions, and it is not larger than [population_size_]. *)
Definition seeded (p : GeneticPartitioner) (l : list Chromosome) : Prop :=
  population_ok l ∧ len l ≤ population_size_ p ∧ head l = Some (current_ p).

Lemma seeded_add p l c : seeded p l → chrom_weak c → len l < population_size_ p → seeded p (l ++ [c]).
Proof.
  intros (Hf & Hl & Hh) Hc Hlt. split_and!.
  - apply Forall_app. split; [done|by constructor].
  - rewrite len_app. change (len [c]) with 1. lia.
  - by destruct l.
Qed.

Lemma seed_fixed_ok p : gp_ok p → seeded p (seed_fixed p).
Proof.
  intros Hp. pose proof (gp_population p Hp).
  assert (seeded p [current_ p]) as H0.
  { split_and!; [|unfold len; simpl; lia|done]. constructor; [apply chrom_ok_weak, Hp|done]. }
  assert (∀ l, seeded p l → seeded p (seed_best p l)) as H1.
  { intros l Hl. unfold seed_best. destruct (has_active p) eqn:Ha; [|done].
    destruct (has_best_partition _) eqn:Hb; [|done]. destruct (negb _); [|done]. simpl.
    destruct (Z.ltb_spec (len l) (population_size_ p)); [|done].
    apply seeded_add; [done| |done]. by apply (component_best _ _ (active_ok p Hp Ha)). }
  assert (∀ l, seeded p l → seeded p (seed_guided p l)) as H2.
  { intros l Hl. unfold seed_guided. destruct (has_active p); [|done]. simpl.
    destruct (Z.ltb_spec (len l) (population_size_ p)); [|done]. destruct (_ && _); [|done].
    apply seeded_add; [done| |done].
    apply chrom_ok_weak, MakeProfileGuidedChromosome_ok; first [lia|apply big_blocks]. }
  assert (∀ l, seeded p l → seeded p (seed_uniform p l)) as H3.
  { intros l Hl. unfold seed_uniform. destruct (Z.ltb_spec (len l) (population_size_ p)); [|done].
    destruct (negb _); [|done]. apply seeded_add; [done| |done]. apply chrom_ok_weak, uniform_ok; lia. }
  unfold seed_fixed. auto.
Qed.

Context `{!FairSource R}.

Lemma push_mutated_wp p l :
  gp_ok p → seeded p l → len l < population_size_ p →
  wp (push_mutated p l) (λ l', seeded p l' ∧ len l' = len l + 1).
Proof.
  intros Hp Hl Hlt. eapply wp_bind.
  - apply Mutate_wp; [lia|lia|apply big_blocks|done|apply Hp].
  - intros c Hc. apply wp_ret. split; [by apply seeded_add; [|apply chrom_ok_weak|]|].
    rewrite len_app. done.
Qed.

Lemma push_seed_wp p l :
  gp_ok p → seeded p l → len l < population_size_ p →
  wp (push_seed p l) (λ l', seeded p l' ∧ len l' = len l + 1).
Proof.
  intros Hp Hl Hlt. unfold push_seed. destruct (_ =? 0); [by apply push_mutated_wp|].
  eapply wp_bind.
  - apply MakeRandomChromosome_wp; first [lia|apply big_blocks|done].
  - intros c Hc. apply wp_ret. split; [by apply seeded_add; [|apply chrom_ok_weak|]|].
    rewrite len_app. done.
Qed.

(** [SeedPopulation] returns a full population. *)
Lemma SeedPopulation_wp p :
  gp_ok p → wp (SeedPopulation p) (λ l, seeded p l ∧ len l = population_size_ p).
Proof.
  intros Hp. pose proof (gp_population p Hp).
  unfold SeedPopulation. eapply wp_bind.
  - apply (wp_while (seeded p) (λ l, Z.to_nat (population_size_ p - len l))); [by apply seed_fixed_ok|].
    intros l Hl Hc. apply Z.ltb_lt in Hc.
    eapply wp_mono; [apply push_mutated_wp; done || lia|]. simpl. intros l' [H1 H2]. split; [done|lia].
  - intros l [Hl _]. eapply wp_mono; [apply (wp_while (seeded p) (λ l, Z.to_nat (population_size_ p - len l)))|].
    + done.
    + intros t Ht Hc. apply Z.ltb_lt in Hc.
      eapply wp_mono; [by apply push_seed_wp|]. simpl. intros l' [H1 H2]. split; [done|lia].
    + simpl. intros t [Ht Hc]. apply Z.ltb_ge in Hc. destruct Ht as (? & ? & ?). split; [done|lia].
Qed.

(** *** Fitness *)

(** Sizes for which the query count is exact as a double. *)
Definition small_batch (qs : list Query) : Prop := 1 ≤ len qs < 2 ^ 53.

Lemma fitness_not_nan p cuts qs : small_batch qs → fitness (evaluate p cuts qs) ≠ S754_nan.
Proof.
  intros Hqs. apply d_nonneg_not_nan. unfold evaluate, Evaluate.
  case_decide as He; [unfold small_batch, len in Hqs; lia|].
  set (f := evaluate_query _ _ _ _).
  assert (∀ st, 0 ≤ st.2 → 0 ≤ (foldl f st qs).2) as Hf.
  { clear. induction qs as [|q qs IH]; intros st Hst; [done|]. apply IH. apply u64_add_range. }
  specialize (Hf (replicate (Z.to_nat kBlocks) 0, 0) ltac:(done)).
  destruct (foldl f _ qs) as [hits total]. simpl in *.
  apply d_add_nonneg.
  - apply d_of_Z_nonneg, (for_range_const (λ s, 0 ≤ s)); [done|]. intros. apply u64_add_range.
  - destruct (d_of_Z_finite (len qs) Hqs) as (m & e & ->).
    change (d_of_Z 5000) with (S754_finite false 5497558138880000 (-40)).
    by apply d_mul_finite_nonneg, d_div_finite_nonneg, d_of_Z_nonneg.
Qed.

(** *** Generations *)

Definition evaluated (p : GeneticPartitioner) (qs : list Query) (l : list Chromosome) : Prop :=
  Forall (λ c, chrom_weak c ∧ metrics c = evaluate p (cuts c) qs) l.

(** The fitness of a partition on the queries of the training. *)
Definition score (p : GeneticPartitioner) (qs : list Query) (c : Chromosome) : double :=
  fitness (evaluate p (cuts c) qs).

(** [c] is not worse than [start]. *)
Definition as_good (p : GeneticPartitioner) (qs : list Query) (start c : Chromosome) : Prop :=
  (score p qs start <?ᵈ score p qs c) = false.

Definition generation_ok (p : GeneticPartitioner) (qs : list Query) (start : Chromosome)
    (l : list Chromosome) : Prop :=
  evaluated p qs l ∧ len l = population_size_ p ∧ ∃ c, c ∈ l ∧ as_good p qs start c.

Lemma evaluated_perm p qs l l' : l ≡ₚ l' → evaluated p qs l → evaluated p qs l'.
Proof. unfold evaluated. by intros ->. Qed.

Lemma evaluated_not_nan p qs l :
  small_batch qs → evaluated p qs l → Forall (λ c, fitness (metrics c) ≠ S754_nan) l.
Proof.
  intros Hqs He. eapply Forall_impl; [exact He|]. intros c [_ ->]. by apply fitness_not_nan.
Qed.

(** The first chromosome after sorting is as good as every other one. *)
Lemma sorted_front p qs start l :
  small_batch qs → evaluated p qs l → (∃ c, c ∈ l ∧ as_good p qs start c) →
  ∃ h t, sort_population l = h :: t ∧ as_good p qs start h ∧
    chrom_weak h ∧ metrics h = evaluate p (cuts h) qs.
Proof.
  intros Hqs He (c & Hc & Hg). pose proof (sort_population_perm l) as Hperm.
  destruct (sort_population l) as [|h t] eqn:Hs.
  { apply Permutation_nil in Hperm. subst l. by inversion Hc. }
  pose proof (evaluated_perm p qs l (h :: t) (symmetry Hperm) He) as He'.
  pose proof (Forall_inv He') as [Hw Hm].
  pose proof (proj1 (Forall_forall _ _) He c Hc) as [_ Hmc].
  pose proof (sort_population_front l h c (evaluated_not_nan p qs l Hqs He)) as Hf.
  rewrite Hs in Hf. specialize (Hf eq_refl Hc). rewrite Hm, Hmc in Hf.
  exists h, t. split_and!; try done.
  unfold as_good, score in *. eapply d_not_lt_trans; [..|exact Hg|exact Hf]; by apply fitness_not_nan.
Qed.

Lemma push_child_wp p qs population k next :
  evaluated p qs population → 1 ≤ k ≤ len population → evaluated p qs next →
  wp (push_child p qs population k next) (λ l, ∃ c, l = next ++ [c] ∧ evaluated p qs l).
Proof.
  intros Hpop Hk Hnext. unfold push_child.
  assert (∀ i, 0 ≤ i ≤ k - 1 → chrom_weak (population.[i])) as Hget.
  { intros i Hi. apply (get_Forall (λ c, chrom_weak c ∧ metrics c = evaluate p (cuts c) qs)); [done|lia]. }
  eapply wp_bind; [apply wp_draw; lia|]. intros i Hi.
  eapply wp_bind; [apply wp_draw; lia|]. intros j Hj.
  eapply wp_bind; [apply Crossover_wp; first [lia|apply big_blocks|auto]|]. intros child Hc.
  eapply wp_bind; [apply wp_coin|]. intros mutate _.
  eapply (wp_bind _ _ chrom_ok).
  - destruct mutate; [|by apply wp_ret]. apply Mutate_wp; first [lia|apply big_blocks|done].
  - intros c' Hc'. apply wp_ret. exists (with_metrics p qs c'). split; [done|].
    apply Forall_app. split; [done|]. constructor; [|done]. split; [by apply chrom_ok_weak|done].
Qed.

Lemma next_generation_wp p qs start l :
  gp_ok p → small_batch qs → generation_ok p qs start l →
  wp (next_generation p qs l) (generation_ok p qs start).
Proof.
  intros Hp Hqs (He & Hlen & Hbest). pose proof (gp_population p Hp) as Hpop.
  destruct (sorted_front p qs start l Hqs He Hbest) as (h & t & Hs & Hg & Hw & Hm).
  pose proof (evaluated_perm p qs _ _ (symmetry (sort_population_perm l)) He) as He'.
  assert (len (sort_population l) = population_size_ p) as Hlen'.
  { unfold len in *. by rewrite (sort_population_perm l). }
  unfold next_generation. set (sorted := sort_population l) in *.
  set (I := λ next, evaluated p qs next ∧ len next ≤ population_size_ p ∧ h ∈ next).
  eapply wp_mono.
  - apply (wp_while I (λ next, Z.to_nat (population_size_ p - len next))).
    + split_and!.
      * apply Forall_take, He'.
      * unfold len in *. rewrite length_take. lia.
      * rewrite Hs. destruct (Z.to_nat (elite_count_ p)) eqn:He0; [lia|]. simpl. by left.
    + intros next (Hn & Hl & Hh) Hc. apply Z.ltb_lt in Hc.
      eapply wp_mono; [apply push_child_wp; [done|lia|done]|].
      intros l' (c & -> & Hl'). rewrite len_app. change (len [c]) with 1. split; [|lia]. split_and!; [done| |].
      * rewrite len_app. change (len [c]) with 1. lia.
      * apply elem_of_app. by left.
  - intros next ((Hn & Hl & Hh) & Hc). apply Z.ltb_ge in Hc. split_and!; [done|lia|by exists h].
Qed.

(** ** Training *)

(** What remembering a candidate does to the best partition. *)
Lemma RememberBest_best p c qs start :
  small_batch qs → gp_ok p → has_active p = true → chrom_weak c → as_good p qs start c →
  let best := best_partition (active (RememberBest p c qs)) in
  has_best_partition (active (RememberBest p c qs)) = true ∧ as_good p qs start best ∧
  (has_best_partition (active p) = true → as_good p qs (best_partition (active p)) best).
Proof.
  intros Hqs Hp Ha Hc Hg. pose proof (has_active_spec p Hp Ha) as Hi.
  unfold RememberBest. rewrite Ha. simpl.
  assert (∀ x, active (set_active_component p x) = x) as Hset by (intros; by apply get_set_eq).
  destruct (has_best_partition (active p)) eqn:Hb; simpl; rewrite Hset; simpl; [|done].
  split; [done|]. destruct (_ <=?ᵈ _) eqn:Hle.
  - split; [done|]. intros _. apply d_le_not_lt; [by apply fitness_not_nan..|exact Hle].
  - split.
    + unfold as_good, score in *. simpl. apply (d_not_lt_trans _ (fitness (evaluate p (cuts c) qs)));
        [by apply fitness_not_nan..|done|].
      apply d_not_le_not_lt; [by apply fitness_not_nan..|exact Hle].
    + intros _. apply d_lt_irrefl.
Qed.

Lemma EvaluatePopulation_ok p qs l :
  seeded p l → len l = population_size_ p → generation_ok p qs (current_ p) (EvaluatePopulation p l qs).
Proof.
  intros (Hf & _ & Hh) Hl. unfold EvaluatePopulation. split_and!.
  - apply Forall_fmap. eapply Forall_impl; [exact Hf|]. done.
  - by rewrite len_fmap.
  - exists (with_metrics p qs (current_ p)). split; [|apply d_lt_irrefl].
    apply list_elem_of_fmap. exists (current_ p). split; [done|]. destruct l; [done|]. injection Hh as ->. left.
Qed.

(** Training returns; it keeps the invariant, remembers a partition as good as
    the one in use, and moves towards it. *)
Lemma TrainOnActiveComponent_wp p :
  gp_ok p → has_active p = true → small_batch (BuildActiveQueries p) →
  wp (TrainOnActiveComponent p) (λ p', gp_ok p' ∧
    has_best_partition (active p') = true ∧
    as_good p (BuildActiveQueries p) (current_ p) (best_partition (active p')) ∧
    (has_best_partition (active p) = true →
       as_good p (BuildActiveQueries p) (best_partition (active p)) (best_partition (active p'))) ∧
    cuts (current_ p') = cuts (move_toward p (current_ p) (best_partition (active p')))).
Proof.
  intros Hp Ha Hqs. unfold TrainOnActiveComponent. set (qs := BuildActiveQueries p) in *.
  case_decide as He; [unfold small_batch, len in Hqs; lia|].
  eapply wp_bind; [by apply SeedPopulation_wp|]. intros l [Hseed Hlen].
  eapply wp_bind.
  { apply (wp_for (λ _, generation_ok p qs (current_ p))).
    - by apply EvaluatePopulation_ok.
    - intros j t _ Ht. by apply next_generation_wp. }
  intros population (Hev & Hpl & Hbest).
  destruct (sorted_front p qs (current_ p) population Hqs Hev Hbest) as (h & t & -> & Hg & Hw & Hm).
  change ((h :: t).[0]) with h.
  pose proof (RememberBest_ok p h qs Hp Hw) as Hp'.
  destruct (RememberBest_best p h qs (current_ p) Hqs Hp Ha Hw Hg) as (Hb & Hgood & Hkeep).
  rewrite RememberBest_active, Ha, Hb. simpl. apply wp_ret.
  set (p' := RememberBest p h qs) in *.
  assert (chrom_weak (best_partition (active p'))) as Hbw.
  { apply (component_best (component_query_limit_ p')); [|done]. apply active_ok; [done|].
    unfold p'. by rewrite RememberBest_active. }
  assert (max_cut_shift_per_batch_ p' = max_cut_shift_per_batch_ p) as Hshift.
  { apply RememberBest_fields. }
  assert (chrom_ok (move_toward p' (current_ p) (best_partition (active p')))) as Hmv.
  { apply MoveToward_ok; [lia|lia|apply big_blocks|apply Hp'|apply Hp|done]. }
  split_and!; try done.
  - apply set_current_ok; [by apply set_current_ok|done].
  - simpl. unfold move_toward. by rewrite Hshift.
Qed.

(** *** The whole batch *)

Lemma AssignBatch_limit p profile batch :
  component_query_limit_ (AssignBatchToComponent p profile batch).2 = component_query_limit_ p.
Proof.
  unfold AssignBatchToComponent. case_decide; [done|].
  destruct (nearest_component _ _). destruct (_ >?ᵈ _); [by destruct (_ <? _)|done].
Qed.

Lemma ApplyProfile_frame p :
  has_active (ApplyProfileGuidedPartition p).2 = has_active p ∧
  component_query_limit_ (ApplyProfileGuidedPartition p).2 = component_query_limit_ p.
Proof.
  unfold ApplyProfileGuidedPartition. destruct (has_active p) eqn:Ha; [|done]. simpl.
  destruct (_ && _); [done|]. case_decide; [done|].
  assert (∀ p, has_active (mark_centroid p) = has_active p) as Hm by (intros; apply has_active_set).
  case_decide; [split; [cbn [snd]; by rewrite Hm|done]|].
  destruct (_ >?ᵈ _); [split; [cbn [snd]; by rewrite Hm|done]|]. simpl.
  set (q := RememberBest p _ _).
  assert (has_active q = true ∧ component_query_limit_ q = component_query_limit_ p) as [Hq Hl].
  { split; [by unfold q; rewrite RememberBest_active|]. unfold q, RememberBest. rewrite Ha. simpl.
    by destruct (has_best_partition (active p)). }
  split; [|done]. change (has_active (mark_centroid q) = true). by rewrite Hm.
Qed.

Lemma ObserveBatch_wp p batch :
  gp_ok p → component_query_limit_ p < 2 ^ 53 →
  wp (ObserveBatch p batch) (λ p', gp_ok p' ∧ (batch ≠ [] → has_active p' = true)).
Proof.
  intros Hp Hlim. unfold ObserveBatch. case_decide as He.
  { apply wp_ret. split; [done|]. by destruct batch. }
  pose proof (DecayComponentMasses_ok p Hp) as Hd. set (p1 := DecayComponentMasses p) in *.
  assert (component_query_limit_ p1 = component_query_limit_ p) as Hl1 by done.
  pose proof (AssignBatchToComponent_ok p1 (BuildBlockProfile kBlocks (block_size_ p) batch) batch Hd
    (BuildBlockProfile_len _ _)) as Ha.
  pose proof (AssignBatch_limit p1 (BuildBlockProfile kBlocks (block_size_ p) batch) batch) as Hl2.
  destruct (AssignBatchToComponent p1 _ batch) as [i p2]. destruct Ha as [Hp2 Hi]. simpl in Hl2.
  pose proof (ActivateComponent_ok _ i Hp2 ltac:(lia)) as Hp3.
  change (active_component_ (set_active p2 i)) with i. set (p3 := ActivateComponent _ i) in *.
  assert (has_active p3 = true ∧ component_query_limit_ p3 = component_query_limit_ p) as [Ha3 Hl3].
  { unfold p3, ActivateComponent. destruct (_ <=? _); [|destruct (has_best_partition _)];
      (split; [unfold has_active; simpl; lia|simpl; congruence]). }
  pose proof (ApplyProfileGuidedPartition_ok p3 Hp3) as Hp4.
  pose proof (ApplyProfile_frame p3) as [Ha4 Hl4].
  destruct (ApplyProfileGuidedPartition p3) as [applied p4]; simpl in *.
  assert (wp (mret p4) (λ p', gp_ok p' ∧ (batch ≠ [] → has_active p' = true))) as Hret.
  { apply wp_ret. split; [done|]. intros _. congruence. }
  destruct applied; [done|]. destruct (_ =? 0); [done|].
  destruct (decide (length (BuildActiveQueries p4) = 0%nat)) as [Hz|Hnz].
  { unfold TrainOnActiveComponent. rewrite decide_True by done. done. }
  eapply wp_mono; [apply TrainOnActiveComponent_wp; [done|congruence|]|].
  - unfold small_batch. split; [unfold len; lia|].
    unfold BuildActiveQueries. rewrite Ha4, Ha3.
    pose proof (component_queries _ _ (active_ok p4 Hp4 ltac:(congruence))). lia.
  - simpl. intros p' (Hok & Hb & _). split; [done|]. intros _.
    destruct (has_active p') eqn:Hno; [done|]. exfalso.
    (* an inactive index reads the default component, which has no best partition *)
    unfold has_active in Hno. apply Z.ltb_ge in Hno.
    unfold active, get in Hb. rewrite list_lookup_total_alt, lookup_ge_None_2 in Hb; [done|].
    unfold len in Hno. lia.
Qed.

(** *** The settings never change *)

(** The members that the constructor fixes. *)
Definition settings (p : GeneticPartitioner) : GeneticPartitioner :=
  {| p with components_ := []; active_component_ := 0; current_ := inhabitant |}.

Lemma RememberBest_settings p c qs : settings (RememberBest p c qs) = settings p.
Proof.
  unfold RememberBest. destruct (has_active p); [|done]. simpl. by destruct (has_best_partition _).
Qed.

Lemma TrainOnActiveComponent_settings p fuel g p' g' :
  TrainOnActiveComponent p fuel g = Some (p', g') → settings p' = settings p.
Proof.
  unfold TrainOnActiveComponent. case_decide; [by intros [= <- <-]|].
  unfold mbind, rand_bind. destruct (SeedPopulation p fuel g) as [[l g1]|]; [|done].
  destruct (rand_for _ _ _ _ fuel g1) as [[l' g2]|]; [|done].
  destruct (has_active _ && _); intros [= <- _]; apply RememberBest_settings.
Qed.

Lemma ApplyProfile_settings p : settings (ApplyProfileGuidedPartition p).2 = settings p.
Proof.
  unfold ApplyProfileGuidedPartition. destruct (has_active p); [|done]. simpl.
  destruct (_ && _); [done|]. case_decide; [done|]. case_decide; [done|].
  destruct (_ >?ᵈ _); [done|]. simpl. set (q := RememberBest p _ _).
  change (settings q = settings p). apply RememberBest_settings.
Qed.

Lemma AssignBatch_settings p profile batch :
  settings (AssignBatchToComponent p profile batch).2 = settings p.
Proof.
  unfold AssignBatchToComponent. case_decide; [done|].
  destruct (nearest_component _ _). destruct (_ >?ᵈ _); [by destruct (_ <? _)|done].
Qed.

Lemma ObserveBatch_settings p batch fuel g p' g' :
  ObserveBatch p batch fuel g = Some (p', g') → settings p' = settings p.
Proof.
  unfold ObserveBatch. case_decide; [by intros [= <- <-]|].
  pose proof (AssignBatch_settings (DecayComponentMasses p)
    (BuildBlockProfile kBlocks (block_size_ p) batch) batch) as Ha.
  destruct (AssignBatchToComponent _ _ batch) as [i p2]. simpl in Ha.
  change (settings (DecayComponentMasses p)) with (settings p) in Ha.
  set (p3 := ActivateComponent _ _).
  assert (settings p3 = settings p) as Hp3.
  { rewrite <-Ha. unfold p3, ActivateComponent. destruct (_ <=? _); [done|]. by destruct (has_best_partition _). }
  pose proof (ApplyProfile_settings p3) as Hp4. rewrite Hp3 in Hp4.
  destruct (ApplyProfileGuidedPartition p3) as [[] p4]; simpl in *; [by intros [= <- _]|].
  destruct (_ =? 0); [by intros [= <- _]|]. intros ->%TrainOnActiveComponent_settings. done.
Qed.

End GeneticPartitioner.

(** ** A concrete sort: insertion by fitness *)

Fixpoint insert_chromosome (c : Chromosome) (l : list Chromosome) : list Chromosome :=
  match l with
  | [] => [c]
  | c' :: l' => if fitness (metrics c') <?ᵈ fitness (metrics c)
                then c' :: insert_chromosome c l' else c :: l
  end.

Definition insertion_sort (l : list Chromosome) : list Chromosome := foldr insert_chromosome [] l.

Lemma insert_chromosome_perm c l : insert_chromosome c l ≡ₚ c :: l.
Proof.
  induction l as [|c' l IH]; simpl; [done|]. destruct (_ <?ᵈ _); [|done].
  rewrite IH. apply Permutation_swap.
Qed.

Lemma insertion_sort_perm l : insertion_sort l ≡ₚ l.
Proof. induction l as [|c l IH]; simpl; [done|]. by rewrite insert_chromosome_perm, IH. Qed.

Lemma d_lt_asym x y : (x <?ᵈ y) = true → (y <?ᵈ x) = false.
Proof.
  intros H. assert (x ≠ S754_nan) by (by intros ->).
  assert (y ≠ S754_nan) by (intros ->; by destruct x as [[]|[]| |[]]).
  apply not_true_iff_false. rewrite d_lt_key in * by done. unfold key_lt in *. lia.
Qed.

Lemma insertion_sort_front l c c' :
  Forall (λ c, fitness (metrics c) ≠ S754_nan) l → head (insertion_sort l) = Some c → c' ∈ l →
  (fitness (metrics c') <?ᵈ fitness (metrics c)) = false.
Proof.
  intros Hf. revert c c'. induction Hf as [|a l Ha Hf IH]; intros c c' Hh Hc; [by inversion Hc|].
  simpl in Hh. pose proof (insertion_sort_perm l) as Hp.
  destruct (insertion_sort l) as [|y t] eqn:Hs; simpl in Hh.
  { injection Hh as <-. apply Permutation_nil in Hp. subst l.
    apply elem_of_cons in Hc as [->|Hc]; [apply d_lt_irrefl|by inversion Hc]. }
  assert (fitness (metrics y) ≠ S754_nan) as Hy.
  { rewrite <-Hp in Hf. by inversion Hf. }
  specialize (IH y). destruct (fitness (metrics y) <?ᵈ fitness (metrics a)) eqn:Hlt; injection Hh as <-.
  - apply elem_of_cons in Hc as [->|Hc]; [by apply d_lt_asym|by apply IH].
  - apply elem_of_cons in Hc as [->|Hc]; [apply d_lt_irrefl|].
    eapply (d_not_lt_trans _ (fitness (metrics y))); [|done|done|by apply IH|done].
    by apply (proj1 (Forall_forall _ _) Hf).
Qed.

#[export] Instance insertion_population_sort : PopulationSort := {|
  sort_population := insertion_sort;
  sort_population_perm := insertion_sort_perm;
  sort_population_front := insertion_sort_front
|}.

(** ** Properties *)

(** C12. [ObserveBatch] returns for every batch, every profile and all draws of a
    fair source, and keeps the partitioner well formed: the partition in use
    gives every lock at least one block, there are at most [max_components]
    components with at most [history_limit] queries each, every remembered
    partition is usable, and after a non-empty batch the active component
    exists. *)
Theorem ObserveBatch_correct kLockCnt kBlocks (R : RandomSource) (F : FairSource R) (PS : PopulationSort) p batch :
  0 < kLockCnt ≤ kBlocks → kLockCnt * kBlocks < modulus64 → kBlocks < 2 ^ 31 →
  gp_ok kLockCnt kBlocks p → component_query_limit_ p < 2 ^ 53 →
  wp (ObserveBatch kLockCnt kBlocks p batch)
     (λ p', gp_ok kLockCnt kBlocks p' ∧ (batch ≠ [] → has_active p' = true)).
Proof. intros. by apply ObserveBatch_wp. Qed.

Definition example_query (l r : Z) : Query :=
  {| q_left := l; q_right := r; q_target := l; q_delta := 1 |}.

Definition example_partitioner : GeneticPartitioner :=
  make_partitioner 2 8 16 100 4 2 3 2 d_one (d_lit 35 100) (d_lit 55 100) 8.

Lemma example_partitioner_ok : gp_ok 2 8 example_partitioner.
Proof. apply make_partitioner_ok; try lia; by vm_compute. Qed.

Lemma ObserveBatch_correct_witness :
  (∃ p g, ObserveBatch (R:=counter_source) 2 8 example_partitioner
      [example_query 0 1; example_query 0 1; example_query 2 3; example_query 4 5] 50%nat 7 = Some (p, g) ∧
    partitioner_PartitionCuts p = [0; 1; 8]) ∧
  wp (R:=counter_source) (ObserveBatch 2 8 example_partitioner [example_query 0 1])
     (λ p', gp_ok 2 8 p' ∧ ([example_query 0 1] ≠ [] → has_active p' = true)).
Proof.
  split; [eexists _, _; vm_compute; split; reflexivity|].
  apply (ObserveBatch_correct 2 8 counter_source counter_fair insertion_population_sort);
    [lia|by vm_compute|lia|apply example_partitioner_ok|by vm_compute].
Defined.

(** C13. Training is elitist: the genetic search over any number of generations
    returns, the partition it remembers for the active component is not worse
    (in fitness on the component's queries) than the partition in use before the
    training nor than the one remembered before, and the partition in use moves
    towards it. *)
Theorem TrainOnActiveComponent_elitist kLockCnt kBlocks (R : RandomSource) (F : FairSource R)
    (PS : PopulationSort) p :
  0 < kLockCnt ≤ kBlocks → kLockCnt * kBlocks < modulus64 → kBlocks < 2 ^ 31 →
  gp_ok kLockCnt kBlocks p → has_active p = true → small_batch (BuildActiveQueries p) →
  wp (TrainOnActiveComponent kLockCnt kBlocks p) (λ p', gp_ok kLockCnt kBlocks p' ∧
    has_best_partition (active p') = true ∧
    as_good kLockCnt kBlocks p (BuildActiveQueries p) (current_ p) (best_partition (active p')) ∧
    (has_best_partition (active p) = true →
       as_good kLockCnt kBlocks p (BuildActiveQueries p) (best_partition (active p)) (best_partition (active p'))) ∧
    cuts (current_ p') = cuts (move_toward kLockCnt kBlocks p (current_ p) (best_partition (active p')))).
Proof. intros. by apply TrainOnActiveComponent_wp. Qed.

Definition example_batch : list Query :=
  [example_query 0 1; example_query 0 3; example_query 0 1; example_query 2 15].

Definition example_active : GeneticPartitioner :=
  let p := example_partitioner in
  let (i, p) := AssignBatchToComponent 8 p
    (BuildBlockProfile 8 2 example_batch) example_batch in
  set_active p i.

Lemma example_active_ok : gp_ok 2 8 example_active ∧ has_active example_active = true.
Proof.
  assert (0 < 2 ≤ 8) as HL by lia.
  pose proof (AssignBatchToComponent_ok 2 8 example_partitioner
    (BuildBlockProfile 8 2 example_batch) example_batch example_partitioner_ok (BuildBlockProfile_len 2 8 HL _ _)) as H.
  split; [|by vm_compute]. unfold example_active.
  destruct (AssignBatchToComponent _ _ _ _) as [i p]. apply H.
Qed.

Lemma TrainOnActiveComponent_elitist_witness :
  (∃ p g, TrainOnActiveComponent (R:=counter_source) 2 8 example_active 50%nat 7 = Some (p, g) ∧
    cuts (best_partition (active p)) = [0; 3; 8]) ∧
  wp (R:=counter_source) (TrainOnActiveComponent 2 8 example_active) (λ p', gp_ok 2 8 p').
Proof.
  split; [eexists _, _; vm_compute; split; reflexivity|].
  eapply wp_mono.
  - apply (TrainOnActiveComponent_elitist 2 8 counter_source counter_fair insertion_population_sort);
      [lia|by vm_compute|lia|apply example_active_ok|apply example_active_ok|split; by vm_compute].
  - intros p' [Hp' _]. exact Hp'.
Defined.
