(* ===== verification/GeneticLock.v ===== *)
(** [GeneticLock]: the object and its methods.

    The class of [genetic/genetic_lock.hpp] as a record and one definition per
    method, each run by a single thread from start to end; the interleaving of
    several threads is the subject of [GeneticProtocol] and [TrainingThread].
    Training draws random numbers, so the methods that train are computations of
    [rand]. The thread-local sampling counter and sample buffer are arguments,
    like the clock. *)
From S2P Require Import Double BlockMap RangeLock Sampling Random Chromosome GeneticPartitioner Prelude.

(** The members of the class; [training_thread_] records whether the thread is
    joinable. *)
Record GeneticLock := {
  array_size_ : Z;
  block_size_ : Z;
  training_batch_size_ : Z;
  training_sample_rate_ : Z;
  min_training_skew_ : double;
  training_probe_gap_ : Z;
  locks_ : gmap Z nat;
  partitioner_ : GeneticPartitioner;
  current_cuts_ : list Z;
  block_to_lock_ : list Z;
  pending_queries_ : list Query;
  training_enabled_ : bool;
  stop_training_thread_ : bool;
  pause_queries_ : bool;
  partition_epoch_ : Z;
  training_thread_ : bool;
  operation_count_ : Z;
  training_count_ : Z;
  next_training_probe_operation_ : Z;
  total_lock_time_ : Z;
  total_training_time_ : Z
}.

(** Assignments to one member. *)
Definition set_locks_ (d : GeneticLock) (v : gmap Z nat) : GeneticLock := {| d with locks_ := v |}.
Definition set_partitioner_ (d : GeneticLock) (v : GeneticPartitioner) : GeneticLock := {| d with partitioner_ := v |}.
Definition set_current_cuts_ (d : GeneticLock) (v : list Z) : GeneticLock := {| d with current_cuts_ := v |}.
Definition set_block_to_lock_ (d : GeneticLock) (v : list Z) : GeneticLock := {| d with block_to_lock_ := v |}.
Definition set_pending_queries_ (d : GeneticLock) (v : list Query) : GeneticLock := {| d with pending_queries_ := v |}.
Definition set_training_enabled_ (d : GeneticLock) (v : bool) : GeneticLock := {| d with training_enabled_ := v |}.
Definition set_stop_training_thread_ (d : GeneticLock) (v : bool) : GeneticLock := {| d with stop_training_thread_ := v |}.
Definition set_pause_queries_ (d : GeneticLock) (v : bool) : GeneticLock := {| d with pause_queries_ := v |}.
Definition set_partition_epoch_ (d : GeneticLock) (v : Z) : GeneticLock := {| d with partition_epoch_ := v |}.
Definition set_training_thread_ (d : GeneticLock) (v : bool) : GeneticLock := {| d with training_thread_ := v |}.
Definition set_operation_count_ (d : GeneticLock) (v : Z) : GeneticLock := {| d with operation_count_ := v |}.
Definition set_training_count_ (d : GeneticLock) (v : Z) : GeneticLock := {| d with training_count_ := v |}.
Definition set_next_probe (d : GeneticLock) (v : Z) : GeneticLock := {| d with next_training_probe_operation_ := v |}.
Definition set_total_lock_time_ (d : GeneticLock) (v : Z) : GeneticLock := {| d with total_lock_time_ := v |}.
Definition set_total_training_time_ (d : GeneticLock) (v : Z) : GeneticLock := {| d with total_training_time_ := v |}.

Definition kLocalTrainingFlushSize : Z := 64.

(** [LocalTrainingBuffer]: one per thread, for all the objects of the class; an
    object is identified by a number. *)
Record LocalTrainingBuffer := { buffer_owner : option nat; buffer_queries : list Query }.

(** What a thread keeps between its calls: [counter] and [local_buffer]. *)
Record ThreadLocals := { counter : Z; local_buffer : LocalTrainingBuffer }.

(** What a round of [TrainingLoop] does once it holds [pending_mutex_]. *)
Inductive training_step (A : Type) := Waits | Exits | Trains (a : A).
Arguments Waits {A}.
Arguments Exits {A}.
Arguments Trains {A} a.

Section GeneticLock.
  Variables (kLockCnt kBlocks : Z).
  Context `{R : RandomSource} `{PS : PopulationSort}.

(** The constructor. *)
Definition make (array_size training_batch_size history_limit population_size elite_count
    generation_count training_sample_rate : Z) (min_training_skew : double)
    (training_probe_gap : Z) : GeneticLock :=
  let partitioner :=
    make_partitioner kLockCnt kBlocks array_size history_limit population_size elite_count
      generation_count 4 (d_lit 90 100) (d_lit 35 100) (d_lit 55 100) kBlocks in
  let cuts := partitioner_PartitionCuts partitioner in
  {| array_size_ := array_size;
     block_size_ := init_block_size kBlocks array_size;
     training_batch_size_ := Z.max training_batch_size 1;
     training_sample_rate_ := Z.max training_sample_rate 1;
     min_training_skew_ := d_max min_training_skew d_one;
     training_probe_gap_ := training_probe_gap;
     locks_ := ∅;
     partitioner_ := partitioner;
     current_cuts_ := cuts;
     block_to_lock_ := RefreshBlockToLock kLockCnt kBlocks cuts (replicate (Z.to_nat kBlocks) 0);
     pending_queries_ := [];
     training_enabled_ := false;
     stop_training_thread_ := false;
     pause_queries_ := false;
     partition_epoch_ := 0;
     training_thread_ := false;
     operation_count_ := 0;
     training_count_ := 0;
     next_training_probe_operation_ := 0;
     total_lock_time_ := 0;
     total_training_time_ := 0 |}.

(** ** Training samples *)

Definition ShouldSampleTraining (d : GeneticLock) (counter : Z) : bool * Z :=
  if negb (training_enabled_ d) then (false, counter)
  else if operation_count_ d <? next_training_probe_operation_ d then (false, counter)
  else if training_sample_rate_ d <=? 1 then (true, counter)
  else sample_tick (training_sample_rate_ d) counter.

(** [FlushTrainingSamples]; the boolean says whether [training_cv_] is notified. *)
Definition FlushTrainingSamples (d : GeneticLock) (queries : list Query) : bool * GeneticLock :=
  if decide (length queries = 0%nat) then (false, d)
  else
    let d := set_pending_queries_ d (pending_queries_ d ++ queries) in
    (training_batch_size_ d <=? len (pending_queries_ d), d).

Definition EnqueueTrainingSample (this : nat) (d : GeneticLock) (b : LocalTrainingBuffer)
    (query : Query) : bool * GeneticLock * LocalTrainingBuffer :=
  let b := if decide (buffer_owner b = Some this) then b
           else {| buffer_owner := Some this; buffer_queries := [] |} in
  let b := {| b with buffer_queries := buffer_queries b ++ [query] |} in
  if kLocalTrainingFlushSize <=? len (buffer_queries b)
  then let (notified, d) := FlushTrainingSamples d (buffer_queries b) in
       (notified, d, {| b with buffer_queries := [] |})
  else (false, d, b).

(** The sample of a query: its ends as [uint32_t]. *)
Definition training_sample (left right : Z) : Query :=
  {| q_left := u32 left; q_right := u32 right; q_target := u32 left; q_delta := 0 |}.

(** ** Training *)

(** The hits of one query, and the number of hits. *)
Definition skew_query (block_size : Z) (st : list Z * Z) (query : Query) : list Z * Z :=
  let left_block := PositionToBlock kBlocks block_size (q_left query) in
  let right_block := PositionToBlock kBlocks block_size (q_right query) in
  for_range left_block (right_block + 1)
    (λ block st, (st.1.[block <- st.1.[block] +₆₄ 1], st.2 +₆₄ 1)) st.

Definition HasEnoughSkew (block_size : Z) (min_training_skew : double) (batch : list Query) : bool :=
  if decide (length batch = 0%nat) then false
  else
    let '(block_hits, total_hits) :=
      foldl (skew_query block_size) (replicate (Z.to_nat kBlocks) 0, 0) batch in
    if total_hits =? 0 then false
    else
      let max_block := max_element block_hits in
      let average_block := d_of_Z total_hits /ᵈ d_of_Z kBlocks in
      (average_block >?ᵈ d_zero) && ((d_of_Z max_block /ᵈ average_block) >=?ᵈ min_training_skew).

Definition ScheduleNextTrainingProbe (d : GeneticLock) : GeneticLock :=
  if training_probe_gap_ d =? 0 then d
  else set_next_probe d (operation_count_ d +₆₄ training_probe_gap_ d).

(** [publish_partition]. *)
Definition publish_partition (d : GeneticLock) (next_cuts : list Z) : GeneticLock :=
  let d := set_partition_epoch_ d (partition_epoch_ d +₆₄ 1) in
  let d := set_current_cuts_ d next_cuts in
  let d := set_block_to_lock_ d (RefreshBlockToLock kLockCnt kBlocks (current_cuts_ d) (block_to_lock_ d)) in
  set_partition_epoch_ d (partition_epoch_ d +₆₄ 1).

(** The end of [TrainOnBatch] after the publication. *)
Definition finish_training (delta : Z) (d : GeneticLock) : GeneticLock :=
  let d := set_pause_queries_ d false in
  let d := set_total_training_time_ d (total_training_time_ d + delta) in
  set_training_count_ d (training_count_ d +₆₄ 1).

(** [TrainOnBatch] after the partitioner has seen the batch. *)
Definition install_cuts (me : nat) (throws : Z → bool) (delta : Z) (previous_cuts : list Z)
    (d : GeneticLock) : outcome unit * GeneticLock :=
  let next_cuts := partitioner_PartitionCuts (partitioner_ d) in
  if decide (next_cuts = previous_cuts)
  then
    let d := set_total_training_time_ d (total_training_time_ d + delta) in
    (Returned tt, ScheduleNextTrainingProbe d)
  else
    let concurrent_queries := training_enabled_ d in
    if concurrent_queries
    then
      let d := set_pause_queries_ d true in
      match construct me throws 0 (kLockCnt - 1) (locks_ d) with
      | (locks, Thrown) => (Thrown, set_locks_ d locks)
      | (locks, Returned all_locks) =>
          let d := publish_partition (set_locks_ d locks) next_cuts in
          let d := set_locks_ d (destroy all_locks (locks_ d)) in
          (Returned tt, finish_training delta d)
      end
    else (Returned tt, finish_training delta (publish_partition d next_cuts)).

(** [TrainOnBatch], run by thread [me] with [training_mutex_] held; [throws]
    says which [lock()] throws, [delta] is the time the training took. *)
Definition TrainOnBatch (me : nat) (throws : Z → bool) (delta : Z) (d : GeneticLock)
    (batch : list Query) : rand (outcome unit * GeneticLock) :=
  let previous_cuts := current_cuts_ d in
  p ← ObserveBatch kLockCnt kBlocks (partitioner_ d) batch;
  mret (install_cuts me throws delta previous_cuts (set_partitioner_ d p)).

Definition ObserveBatch (me : nat) (throws : Z → bool) (delta : Z) (d : GeneticLock)
    (batch : list Query) : rand (outcome unit * GeneticLock) :=
  if decide (length batch = 0%nat) then mret (Returned tt, d)
  else if HasEnoughSkew (block_size_ d) (min_training_skew_ d) batch then TrainOnBatch me throws delta d batch
  else mret (Returned tt, d).

Definition FlushTraining (me : nat) (throws : Z → bool) (delta : Z) (d : GeneticLock) :
    rand (outcome unit * GeneticLock) :=
  let batch := pending_queries_ d in
  let d := set_pending_queries_ d [] in
  if decide (length batch = 0%nat) then mret (Returned tt, d)
  else ObserveBatch me throws delta d batch.

(** One round of [TrainingLoop]. *)
Definition training_round (me : nat) (throws : Z → bool) (delta : Z) (d : GeneticLock) :
    training_step (rand (outcome unit * GeneticLock)) :=
  if negb (stop_training_thread_ d || (training_batch_size_ d <=? len (pending_queries_ d))) then Waits
  else if stop_training_thread_ d then Exits
  else
    let batch := pending_queries_ d in
    let d := set_pending_queries_ d [] in
    Trains (if negb (HasEnoughSkew (block_size_ d) (min_training_skew_ d) batch)
            then mret (Returned tt, ScheduleNextTrainingProbe d)
            else TrainOnBatch me throws delta d batch).

(** [StartRebuilder] before the new thread runs. *)
Definition StartRebuilder (d : GeneticLock) : GeneticLock :=
  if training_thread_ d then d
  else
    let d := set_stop_training_thread_ d false in
    let d := set_next_probe d (training_probe_gap_ d) in
    let d := set_training_enabled_ d true in
    set_training_thread_ d true.

(** [StopRebuilder], after the training thread has been joined. *)
Definition StopRebuilder (d : GeneticLock) : GeneticLock :=
  let d := set_training_enabled_ d false in
  let d := set_stop_training_thread_ d true in
  let d := if training_thread_ d then set_training_thread_ d false else d in
  set_pending_queries_ d [].

Definition ForceSaveStats (d : GeneticLock) : GeneticLock := d.

Definition SetTrainingEnabled (d : GeneticLock) (enabled : bool) : GeneticLock :=
  set_training_enabled_ d enabled.

(** ** Queries *)

(** The body of [while (true)] in [WriteQuery], after the pause. The
    [std::lock_guard] of the one-mutex case is [construct] on one mutex. *)
Definition attempt {D : Type} (me : nat) (throws : Z → bool) (delta : Z) (func : Z → Z → D → D)
    (left right : Z) (st : GeneticLock * D) : round (GeneticLock * D) :=
  let '(d, data) := st in
  let epoch := partition_epoch_ d in
  if Z.odd epoch then Continue st
  else
    let '(first_lock, last_lock) :=
      FindLocksSegmentUnlocked kBlocks (block_to_lock_ d) (block_size_ d) left right in
    if last_lock <? first_lock then Continue st
    else
      match construct me throws first_lock last_lock (locks_ d) with
      | (locks, Thrown) => Threw (set_locks_ d locks, data)
      | (locks, Returned guard) =>
          let d := set_locks_ d locks in
          let current_epoch := partition_epoch_ d in
          if negb (epoch =? current_epoch) || Z.odd current_epoch
          then Continue (set_locks_ d (destroy guard (locks_ d)), data)
          else
            let d := set_total_lock_time_ d (total_lock_time_ d + delta) in
            let d := set_operation_count_ d (operation_count_ d +₆₄ 1) in
            let data := func left right data in
            Ran (set_locks_ d (destroy guard (locks_ d)), data)
      end.

Fixpoint query_loop {D : Type} (fuel : nat) (me : nat) (throws : Z → bool) (delta : Z)
    (func : Z → Z → D → D) (left right : Z) (st : GeneticLock * D) :
    option (outcome unit * (GeneticLock * D)) :=
  match fuel with
  | O => None
  | S n =>
      if pause_queries_ st.1 then query_loop n me throws delta func left right st
      else match attempt me throws delta func left right st with
           | Ran st' => Some (Returned tt, st')
           | Threw st' => Some (Thrown, st')
           | Continue st' => query_loop n me throws delta func left right st'
           end
  end.

(** What [WriteQuery] does after the locks are released. *)
Definition sample_query (this : nat) (left right : Z) (d : GeneticLock) (tl : ThreadLocals) :
    bool * GeneticLock * ThreadLocals :=
  let '(sample, counter) := ShouldSampleTraining d (counter tl) in
  if sample
  then let '(notified, d, b) := EnqueueTrainingSample this d (local_buffer tl) (training_sample left right) in
       (notified, d, {| counter := counter; local_buffer := b |})
  else (false, d, {| tl with counter := counter |}).

(** [WriteQuery] of the object [this] with at most [fuel] rounds of its two
    loops; [None] if they were not enough. The boolean says whether the training
    thread was notified. *)
Definition WriteQuery {D : Type} (fuel : nat) (this me : nat) (throws : Z → bool) (delta : Z)
    (left right : Z) (func : Z → Z → D → D) (st : GeneticLock * ThreadLocals * D) :
    option (outcome bool * (GeneticLock * ThreadLocals * D)) :=
  let '(d, tl, data) := st in
  if array_size_ d =? 0 then Some (Returned false, st)
  else
    let (left, right) := normalize (array_size_ d) left right in
    match query_loop fuel me throws delta func left right (d, data) with
    | None => None
    | Some (Thrown, (d, data)) => Some (Thrown, (d, tl, data))
    | Some (Returned _, (d, data)) =>
        let '(notified, d, tl) := sample_query this left right d tl in
        Some (Returned notified, (d, tl, data))
    end.

(** [CountLocksForRange] with at most [fuel] rounds. *)
Fixpoint count_loop (fuel : nat) (d : GeneticLock) (left right : Z) : option Z :=
  match fuel with
  | O => None
  | S n =>
      let epoch := partition_epoch_ d in
      if Z.odd epoch then count_loop n d left right
      else
        let '(first_lock, last_lock) :=
          FindLocksSegmentUnlocked kBlocks (block_to_lock_ d) (block_size_ d) left right in
        let current_epoch := partition_epoch_ d in
        if (epoch =? current_epoch) && negb (Z.odd current_epoch) && (first_lock <=? last_lock)
        then Some (last_lock -₆₄ first_lock +₆₄ 1) else count_loop n d left right
  end.

Definition CountLocksForRange (fuel : nat) (d : GeneticLock) (left right : Z) : option Z :=
  if array_size_ d =? 0 then Some 0
  else let (left, right) := normalize (array_size_ d) left right in count_loop fuel d left right.

(** ** Accessors *)

Definition GetTotalLockTimeMs (d : GeneticLock) : double :=
  d_of_Z (total_lock_time_ d) /ᵈ d_of_Z 1000000.

Definition GetAvgLockTimeMs (d : GeneticLock) : double :=
  let operations := operation_count_ d in
  if operations =? 0 then d_zero
  else GetTotalLockTimeMs d /ᵈ d_of_Z operations.

Definition GetAvgTrainingTimeMs (d : GeneticLock) : double :=
  let trainings := training_count_ d in
  if trainings =? 0 then d_zero
  else (d_of_Z (total_training_time_ d) /ᵈ d_of_Z 1000000) /ᵈ d_of_Z trainings.

Definition ResetRuntimeStats (d : GeneticLock) : GeneticLock :=
  let d := set_operation_count_ d 0 in
  let d := set_next_probe d 0 in
  set_total_lock_time_ d 0.

Definition GetRebuildCount (d : GeneticLock) : Z := training_count_ d.
Definition GetTrainingCount (d : GeneticLock) : Z := training_count_ d.
Definition GetOperationCount (d : GeneticLock) : Z := operation_count_ d.

Definition PartitionCuts (d : GeneticLock) : list Z := current_cuts_ d.

End GeneticLock.

(** ** The object invariant *)

Section Lemmas.
  Variables (kLockCnt kBlocks : Z).
  Context (R : RandomSource) (F : FairSource R) (PS : PopulationSort).
  Context (HL : 0 < kLockCnt ≤ kBlocks) (Hov : kLockCnt * kBlocks < modulus64) (Hint : kBlocks < 2 ^ 31).

(** What holds of a [GeneticLock] between two calls. *)
Record gl_ok (d : GeneticLock) : Prop := {
  ok_size : is_u64 (array_size_ d);
  ok_block : block_size_ d = init_block_size kBlocks (array_size_ d);
  ok_table : table_ok kLockCnt kBlocks (block_to_lock_ d);
  ok_cuts : cuts_valid kLockCnt kBlocks (current_cuts_ d);
  ok_match : table_matches kBlocks (block_to_lock_ d) (current_cuts_ d);
  ok_partitioner : gp_ok kLockCnt kBlocks (partitioner_ d);
  ok_limit : component_query_limit_ (partitioner_ d) < 2 ^ 53;
  ok_blocks : GeneticPartitioner.block_size_ (partitioner_ d) = block_size_ d;
  ok_epoch : Z.odd (partition_epoch_ d) = false ∧ is_u64 (partition_epoch_ d);
  ok_rate : 1 ≤ training_sample_rate_ d ∧ 1 ≤ training_batch_size_ d;
  ok_free : locks_ d = ∅
}.

(** The assignments that touch nothing of the invariant. *)
Definition same_core (d d' : GeneticLock) : Prop :=
  array_size_ d' = array_size_ d ∧ block_size_ d' = block_size_ d ∧
  block_to_lock_ d' = block_to_lock_ d ∧ current_cuts_ d' = current_cuts_ d ∧
  partitioner_ d' = partitioner_ d ∧ partition_epoch_ d' = partition_epoch_ d ∧
  training_sample_rate_ d' = training_sample_rate_ d ∧
  training_batch_size_ d' = training_batch_size_ d ∧ locks_ d' = locks_ d.

Lemma same_core_ok d d' : same_core d d' → gl_ok d → gl_ok d'.
Proof.
  intros (H1 & H2 & H3 & H4 & H5 & H6 & H7 & H8 & H9) [].
  split; rewrite ?H1, ?H2, ?H3, ?H4, ?H5, ?H6, ?H7, ?H8, ?H9; done.
Qed.

Lemma genetic_make_ok n batch limit population elite generations rate skew gap :
  is_u64 n → limit < 2 ^ 53 →
  gl_ok (make kLockCnt kBlocks n batch limit population elite generations rate skew gap).
Proof.
  intros Hn Hlim.
  assert (cuts_valid kLockCnt kBlocks (uniform_cuts kLockCnt kBlocks)) as Hc
    by (apply uniform_cuts_valid; lia).
  assert (len (replicate (Z.to_nat kBlocks) 0) = kBlocks) as Hz by (rewrite len_replicate; lia).
  pose proof (cuts_valid_weak kLockCnt kBlocks _ Hc) as Hw.
  split; simpl; try done; try lia.
  - apply RefreshBlockToLock_ok; done || lia.
  - apply refresh_matches; done || lia.
  - by apply make_partitioner_ok.
Qed.

Lemma genetic_segment_range d l r f e :
  gl_ok d → 0 ≤ l ≤ r →
  FindLocksSegmentUnlocked kBlocks (block_to_lock_ d) (block_size_ d) l r = (f, e) →
  0 ≤ f ≤ e ∧ e < kLockCnt.
Proof.
  intros Hd Hlr. apply (FindLocksSegment_range kLockCnt); [lia|apply Hd| |done].
  rewrite (ok_block d Hd). pose proof (ok_size d Hd). apply init_block_size_pos; [lia|].
  unfold is_u64 in *. lia.
Qed.

(** ** Training *)

(** The three ways the installation of new cuts can end. *)
Definition unchanged (delta : Z) (d : GeneticLock) : GeneticLock :=
  ScheduleNextTrainingProbe {| d with total_training_time_ := total_training_time_ d + delta |}.

Definition published (delta : Z) (d : GeneticLock) (cuts : list Z) : GeneticLock :=
  {| d with partition_epoch_ := u64 (partition_epoch_ d + 2);
            current_cuts_ := cuts;
            block_to_lock_ := RefreshBlockToLock kLockCnt kBlocks cuts (block_to_lock_ d);
            pause_queries_ := false;
            total_training_time_ := total_training_time_ d + delta;
            training_count_ := training_count_ d +₆₄ 1 |}.

Lemma install_cuts_eq me throws delta previous d :
  gl_ok d →
  let next := partitioner_PartitionCuts (partitioner_ d) in
  install_cuts kLockCnt kBlocks me throws delta previous d =
    if decide (next = previous) then (Returned tt, unchanged delta d)
    else if training_enabled_ d && existsb throws (seqZ 0 kLockCnt)
    then (Thrown, {| d with pause_queries_ := true |})
    else (Returned tt, published delta d next).
Proof.
  intros Hd next. unfold install_cuts. fold next. case_decide; [done|].
  destruct (training_enabled_ d) eqn:He; simpl.
  - destruct (construct_cases me throws 0 (kLockCnt - 1) (locks_ d)) as (locks' & Hh & ->); [lia| |].
    { rewrite (ok_free d Hd). apply range_free_empty. }
    pose proof (destroy_spec me 0 (kLockCnt - 1) (locks_ d) locks' ltac:(lia)) as Hdes.
    replace (kLockCnt - 1 - 0 + 1) with kLockCnt in * by lia.
    destruct (existsb throws _); [destruct d; simpl in *; by subst|].
    unfold publish_partition, finish_training; simpl.
    rewrite Hdes; [|rewrite (ok_free d Hd); apply range_free_empty|done].
    unfold published. rewrite <-u64_add_twice. by destruct d.
  - unfold publish_partition, finish_training, published. rewrite <-u64_add_twice. by destruct d.
Qed.

Lemma published_ok delta d cuts : gl_ok d → cuts_valid kLockCnt kBlocks cuts → gl_ok (published delta d cuts).
Proof.
  intros [] Hc. pose proof (cuts_valid_weak kLockCnt kBlocks _ Hc) as Hw. split; simpl; try done.
  - apply RefreshBlockToLock_ok; try lia; apply ok_table0.
  - apply refresh_matches; try lia; [done|apply ok_table0].
  - split; [by apply odd_u64_plus_2, ok_epoch0|apply u64_range].
Qed.

Lemma install_cuts_ok me throws delta previous d :
  gl_ok d → gl_ok (install_cuts kLockCnt kBlocks me throws delta previous d).2.
Proof.
  intros Hd. rewrite install_cuts_eq by done. case_decide as Hc; [|clear Hc; destruct (_ && _)].
  - apply (same_core_ok d); [|done]. unfold unchanged, ScheduleNextTrainingProbe; simpl. by destruct (_ =? 0).
  - by apply (same_core_ok d).
  - apply published_ok; [done|apply (gp_current _ _ _ (ok_partitioner d Hd))].
Qed.

(** The partitioner sees the batch: the lock keeps its invariant. *)
Lemma observed_wp d batch :
  gl_ok d →
  wp (GeneticPartitioner.ObserveBatch kLockCnt kBlocks (partitioner_ d) batch)
     (λ p, gl_ok (set_partitioner_ d p)).
Proof.
  intros Hd. eapply wp_mono.
  - apply wp_frame; [apply (ObserveBatch_wp kLockCnt kBlocks HL Hov Hint); apply Hd|].
    intros fuel g p g'. apply ObserveBatch_settings.
  - simpl. intros p [[Hp _] Hs].
    assert (component_query_limit_ p = component_query_limit_ (partitioner_ d)) as Hl.
    { change (component_query_limit_ (settings p) = component_query_limit_ (partitioner_ d)). by rewrite Hs. }
    assert (GeneticPartitioner.block_size_ p = GeneticPartitioner.block_size_ (partitioner_ d)) as Hb.
    { change (GeneticPartitioner.block_size_ (settings p) = GeneticPartitioner.block_size_ (partitioner_ d)).
      by rewrite Hs. }
    destruct Hd. split; simpl; try done; congruence.
Qed.

Lemma TrainOnBatch_wp me throws delta d batch :
  gl_ok d →
  wp (TrainOnBatch kLockCnt kBlocks me throws delta d batch) (λ r, ∃ p,
    gl_ok (set_partitioner_ d p) ∧
    r = install_cuts kLockCnt kBlocks me throws delta (current_cuts_ d) (set_partitioner_ d p)).
Proof.
  intros Hd. unfold TrainOnBatch. eapply wp_bind; [by apply observed_wp|].
  intros p Hp. apply wp_ret. by exists p.
Qed.

Lemma TrainOnBatch_ok me throws delta d batch :
  gl_ok d → wp (TrainOnBatch kLockCnt kBlocks me throws delta d batch) (λ r, gl_ok r.2).
Proof.
  intros Hd. eapply wp_mono; [by apply TrainOnBatch_wp|]. intros r (p & Hp & ->).
  by apply install_cuts_ok.
Qed.

Lemma ObserveBatch_ok me throws delta d batch :
  gl_ok d → wp (ObserveBatch kLockCnt kBlocks me throws delta d batch) (λ r, gl_ok r.2).
Proof.
  intros Hd. unfold ObserveBatch. case_decide; [by apply wp_ret|].
  destruct (HasEnoughSkew _ _ _ _); [by apply TrainOnBatch_ok|by apply wp_ret].
Qed.

Lemma FlushTraining_ok me throws delta d :
  gl_ok d → wp (FlushTraining kLockCnt kBlocks me throws delta d) (λ r, gl_ok r.2).
Proof.
  intros Hd. assert (gl_ok (set_pending_queries_ d [])) by by apply (same_core_ok d).
  unfold FlushTraining. case_decide; [by apply wp_ret|by apply ObserveBatch_ok].
Qed.

Lemma training_round_ok me throws delta d m :
  gl_ok d → training_round kLockCnt kBlocks me throws delta d = Trains m → wp m (λ r, gl_ok r.2).
Proof.
  intros Hd. assert (gl_ok (set_pending_queries_ d [])) by by apply (same_core_ok d).
  unfold training_round. destruct (negb _); [done|]. destruct (stop_training_thread_ d); [done|].
  intros [= <-]. destruct (negb _); [|by apply TrainOnBatch_ok].
  apply wp_ret. apply (same_core_ok (set_pending_queries_ d [])); [|done].
  unfold ScheduleNextTrainingProbe; simpl. by destruct (_ =? 0).
Qed.

(** ** Queries *)

(** The object after a query that ran, before the sampling. *)
Definition counted (d : GeneticLock) (delta : Z) : GeneticLock :=
  {| d with total_lock_time_ := total_lock_time_ d + delta;
            operation_count_ := operation_count_ d +₆₄ 1 |}.

Definition segment (d : GeneticLock) (l r : Z) : Z * Z :=
  FindLocksSegmentUnlocked kBlocks (block_to_lock_ d) (block_size_ d) l r.

(** The indices of the mutexes a query on [l, r] takes. *)
Definition segment_locks (d : GeneticLock) (l r : Z) : list Z :=
  seqZ (segment d l r).1 ((segment d l r).2 - (segment d l r).1 + 1).

Lemma genetic_attempt_eq {D : Type} me throws delta (func : Z → Z → D → D) l r d data :
  gl_ok d → 0 ≤ l ≤ r →
  attempt kBlocks me throws delta func l r (d, data) =
    if existsb throws (segment_locks d l r) then Threw (d, data)
    else Ran (counted d delta, func l r data).
Proof.
  intros Hd Hlr. unfold attempt, segment_locks, segment. rewrite (proj1 (ok_epoch d Hd)).
  destruct (FindLocksSegmentUnlocked _ _ _ l r) as [f e] eqn:Hseg.
  pose proof (genetic_segment_range d l r f e Hd Hlr Hseg). simpl.
  destruct (Z.ltb_spec e f); [lia|].
  assert (range_free f e (locks_ d)) as Hfree by (rewrite (ok_free d Hd); apply range_free_empty).
  destruct (construct_cases me throws f e (locks_ d)) as (locks' & Hh & ->); [lia|done|].
  destruct (existsb throws _); [by destruct d|].
  change (partition_epoch_ (set_locks_ d locks')) with (partition_epoch_ d).
  rewrite Z.eqb_refl, (proj1 (ok_epoch d Hd)). simpl.
  by rewrite (destroy_spec me f e (locks_ d) locks') by done || lia.
Qed.

Lemma genetic_query_loop_eq {D : Type} fuel me throws delta (func : Z → Z → D → D) l r d data :
  gl_ok d → 0 ≤ l ≤ r → pause_queries_ d = false → (1 ≤ fuel)%nat →
  query_loop kBlocks fuel me throws delta func l r (d, data) =
    if existsb throws (segment_locks d l r) then Some (Thrown, (d, data))
    else Some (Returned tt, (counted d delta, func l r data)).
Proof.
  intros Hd Hlr Hp Hf. destruct fuel as [|fuel]; [lia|]. cbn [query_loop fst]. rewrite Hp.
  rewrite genetic_attempt_eq by done. by destruct (existsb _ _).
Qed.

(** While the queries are paused the loop only spins. *)
Lemma genetic_query_loop_paused {D : Type} fuel me throws delta (func : Z → Z → D → D) l r st :
  pause_queries_ st.1 = true → query_loop kBlocks fuel me throws delta func l r st = None.
Proof. intros Hp. induction fuel as [|n IH]; [done|]. cbn [query_loop]. by rewrite Hp. Qed.

(** The samples the thread keeps for the object [this]. *)
Definition local_samples (this : nat) (b : LocalTrainingBuffer) : list Query :=
  if decide (buffer_owner b = Some this) then buffer_queries b else [].

Lemma local_samples_own this qs :
  local_samples this {| buffer_owner := Some this; buffer_queries := qs |} = qs.
Proof. unfold local_samples. by rewrite decide_True. Qed.

(** A sample ends up in the thread's buffer or in the pending queries, after the
    earlier ones; the buffer stays below its limit. *)
Lemma EnqueueTrainingSample_spec this d b q notified d' b' :
  EnqueueTrainingSample this d b q = (notified, d', b') →
  len (local_samples this b) < kLocalTrainingFlushSize →
  pending_queries_ d' ++ local_samples this b' = pending_queries_ d ++ local_samples this b ++ [q] ∧
  len (local_samples this b') < kLocalTrainingFlushSize ∧ same_core d d' ∧
  (notified = true → training_batch_size_ d ≤ len (pending_queries_ d')).
Proof.
  unfold EnqueueTrainingSample, kLocalTrainingFlushSize.
  set (b0 := if decide (buffer_owner b = Some this) then b else _).
  assert (buffer_owner b0 = Some this ∧ buffer_queries b0 = local_samples this b) as [Ho Hq].
  { unfold b0, local_samples. by case_decide. }
  simpl. rewrite Ho, Hq. intros Heq Hlen.
  destruct (Z.leb_spec 64 (len (local_samples this b ++ [q]))).
  - unfold FlushTrainingSamples in Heq. case_decide as Hz; [rewrite length_app in Hz; simpl in Hz; lia|].
    injection Heq as <- <- <-. rewrite local_samples_own, app_nil_r. split_and!; try done.
    intros Hle. by apply Z.leb_le in Hle.
  - injection Heq as <- <- <-. by rewrite local_samples_own.
Qed.

Lemma sample_query_spec this l r d tl notified d' tl' :
  sample_query this l r d tl = (notified, d', tl') →
  len (local_samples this (local_buffer tl)) < kLocalTrainingFlushSize →
  pending_queries_ d' ++ local_samples this (local_buffer tl') =
    pending_queries_ d ++ local_samples this (local_buffer tl) ++
    (if (ShouldSampleTraining d (counter tl)).1 then [training_sample l r] else []) ∧
  len (local_samples this (local_buffer tl')) < kLocalTrainingFlushSize ∧ same_core d d' ∧
  counter tl' = (ShouldSampleTraining d (counter tl)).2 ∧
  (notified = true → training_batch_size_ d ≤ len (pending_queries_ d')).
Proof.
  unfold sample_query. destruct (ShouldSampleTraining d (counter tl)) as [[] c]; intros Heq Hlen.
  - destruct (EnqueueTrainingSample this d (local_buffer tl) _) as [[n d1] b1] eqn:He.
    destruct (EnqueueTrainingSample_spec _ _ _ _ _ _ _ He Hlen) as (H1 & H2 & H3 & H4).
    injection Heq as <- <- <-. by split_and!.
  - injection Heq as <- <- <-. simpl. by rewrite app_nil_r.
Qed.

Lemma sample_query_core this l r d tl notified d' tl' :
  sample_query this l r d tl = (notified, d', tl') → same_core d d'.
Proof.
  unfold sample_query, EnqueueTrainingSample, FlushTrainingSamples.
  destruct (ShouldSampleTraining d (counter tl)) as [[] c]; [|by intros [= <- <- <-]].
  destruct (_ <=? _); [|by intros [= <- <- <-]]. by case_decide; intros [= <- <- <-].
Qed.

(** Of the object, sampling changes only the pending queries. *)
Lemma sample_query_frame this l r d tl notified d' tl' :
  sample_query this l r d tl = (notified, d', tl') →
  d' = set_pending_queries_ d (pending_queries_ d').
Proof.
  unfold sample_query, EnqueueTrainingSample, FlushTrainingSamples.
  destruct (ShouldSampleTraining d (counter tl)) as [[] c]; [|intros [= <- <- <-]; by destruct d].
  destruct (_ <=? _); [|intros [= <- <- <-]; by destruct d].
  case_decide; intros [= <- <- <-]; by destruct d.
Qed.

(** ** Method calls *)

(** Any sequence of calls by one thread at a time. A training call may do
    whatever its draws allow it to do. *)
Inductive method_call : GeneticLock → GeneticLock → Prop :=
  | call_query (D : Type) fuel this me throws delta l r (func : Z → Z → D → D) tl data d out d' tl' data' :
      is_u64 l → is_u64 r →
      WriteQuery kBlocks fuel this me throws delta l r func (d, tl, data) = Some (out, (d', tl', data')) →
      method_call d d'
  | call_ObserveBatch me throws delta batch d g out d' g' :
      returns (ObserveBatch kLockCnt kBlocks me throws delta d batch) g (out, d') g' → method_call d d'
  | call_FlushTraining me throws delta d g out d' g' :
      returns (FlushTraining kLockCnt kBlocks me throws delta d) g (out, d') g' → method_call d d'
  | call_training_round me throws delta d m g out d' g' :
      training_round kLockCnt kBlocks me throws delta d = Trains m →
      returns m g (out, d') g' → method_call d d'
  | call_StartRebuilder d : method_call d (StartRebuilder d)
  | call_StopRebuilder d : method_call d (StopRebuilder d)
  | call_SetTrainingEnabled d enabled : method_call d (SetTrainingEnabled d enabled)
  | call_ResetRuntimeStats d : method_call d (ResetRuntimeStats d).

Lemma genetic_WriteQuery_ok {D : Type} fuel this me throws delta l r (func : Z → Z → D → D) tl data d out d' tl' data' :
  is_u64 l → is_u64 r → gl_ok d →
  WriteQuery kBlocks fuel this me throws delta l r func (d, tl, data) = Some (out, (d', tl', data')) → gl_ok d'.
Proof.
  intros Hl Hr Hd. unfold WriteQuery.
  destruct (Z.eqb_spec (array_size_ d) 0); [by intros [= _ <- _ _]|].
  pose proof (ok_size d Hd). unfold is_u64 in *.
  destruct (normalize (array_size_ d) l r) as [l' r'] eqn:Hn.
  apply normalize_range in Hn; [|lia..].
  destruct fuel as [|fuel]; [done|]. destruct (pause_queries_ d) eqn:Hp.
  - rewrite genetic_query_loop_paused by done. done.
  - rewrite genetic_query_loop_eq by done || lia. destruct (existsb _ _); [by intros [= _ <- _ _]|].
    destruct (sample_query _ _ _ _ _) as [[nt d1] tl1] eqn:Hs. intros [= _ <- _ _].
    apply sample_query_core in Hs. apply (same_core_ok (counted d delta)); [done|].
    by apply (same_core_ok d).
Qed.

Lemma genetic_method_call_ok d d' : gl_ok d → method_call d d' → gl_ok d'.
Proof.
  intros Hd Hc. destruct Hc as [D fuel this me throws delta l r func tl data d out d' tl' data' Hl Hr Hq
    |me throws delta batch d g out d' g' Hr|me throws delta d g out d' g' Hr
    |me throws delta d m g out d' g' Hm Hr|d|d|d enabled|d].
  - exact (genetic_WriteQuery_ok fuel this me throws delta l r func tl data d out d' tl' data' Hl Hr Hd Hq).
  - exact (wp_returns _ _ _ _ _ (ObserveBatch_ok me throws delta d batch Hd) Hr).
  - exact (wp_returns _ _ _ _ _ (FlushTraining_ok me throws delta d Hd) Hr).
  - exact (wp_returns _ _ _ _ _ (training_round_ok me throws delta d m Hd Hm) Hr).
  - unfold StartRebuilder. destruct (training_thread_ d); [done|]. by apply (same_core_ok d).
  - unfold StopRebuilder; simpl. destruct (training_thread_ d); by apply (same_core_ok d).
  - by apply (same_core_ok d).
  - by apply (same_core_ok d).
Qed.

End Lemmas.

(** ** Properties *)

(** C21. [GeneticLock] keeps its invariant: after the constructor and any
    sequence of method calls (queries, [ObserveBatch], [FlushTraining], rounds of
    the training thread, [StartRebuilder], [StopRebuilder], ...), with any batch,
    any draws and any exceptions of [lock()], the published cuts give every mutex
    at least one block, the block-to-lock table is exactly the one of the cuts,
    the partitioner is well formed, the epoch is even and no mutex is left
    locked. *)
Theorem GeneticLock_invariant kLockCnt kBlocks (R : RandomSource) (F : FairSource R) (PS : PopulationSort)
    n batch limit population elite generations rate skew gap d :
  0 < kLockCnt ≤ kBlocks → kLockCnt * kBlocks < modulus64 → kBlocks < 2 ^ 31 →
  is_u64 n → limit < 2 ^ 53 →
  rtc (method_call kLockCnt kBlocks R PS)
    (make kLockCnt kBlocks n batch limit population elite generations rate skew gap) d →
  gl_ok kLockCnt kBlocks d.
Proof.
  intros HL Hov Hint Hn Hlim Hr.
  pose proof (genetic_make_ok kLockCnt kBlocks HL Hov n batch limit population elite generations rate skew gap Hn Hlim) as H0.
  induction Hr as [|d d' d'' Hstep _ IH]; [done|].
  apply IH. exact (genetic_method_call_ok kLockCnt kBlocks R F PS HL Hov Hint _ _ H0 Hstep).
Qed.

(** Two mutexes, eight blocks of two positions; every query is sampled. *)
Definition example_lock : GeneticLock :=
  make 2 8 16 4 100 4 2 3 1 d_one 0.

Lemma example_lock_ok : gl_ok 2 8 example_lock.
Proof. apply genetic_make_ok; try lia; by vm_compute. Qed.

Lemma GeneticLock_invariant_witness :
  let d := StartRebuilder example_lock in training_enabled_ d = true ∧ gl_ok 2 8 d.
Proof.
  split; [reflexivity|].
  apply (GeneticLock_invariant 2 8 counter_source counter_fair insertion_population_sort
    16 4 100 4 2 3 1 d_one 0); [lia|by vm_compute|lia|by vm_compute|lia|].
  eapply rtc_l; [apply call_StartRebuilder|apply rtc_refl].
Defined.


Definition no_locals : ThreadLocals :=
  {| counter := 0; local_buffer := {| buffer_owner := None; buffer_queries := [] |} |}.


(** C23. [TrainOnBatch] returns, and does one of three things. If the partitioner
    proposes the cuts in use, cuts, table and epoch stay and the next training
    probe is scheduled. If a [lock()] throws while all the mutexes are taken,
    cuts, table and epoch stay and no mutex stays locked, but [pause_queries_]
    stays set, so that no later [WriteQuery] returns. Otherwise the cuts of the
    partitioner are published with their table under an epoch two higher,
    queries are let through again and the training is counted. *)
Theorem TrainOnBatch_correct {D : Type} kLockCnt kBlocks (R : RandomSource) (F : FairSource R)
    (PS : PopulationSort) me throws delta d batch :
  0 < kLockCnt ≤ kBlocks → kLockCnt * kBlocks < modulus64 → kBlocks < 2 ^ 31 →
  gl_ok kLockCnt kBlocks d → array_size_ d ≠ 0 →
  wp (TrainOnBatch kLockCnt kBlocks me throws delta d batch) (λ '(out, d'),
    let next := partitioner_PartitionCuts (partitioner_ d') in
    gl_ok kLockCnt kBlocks d' ∧
    if decide (next = current_cuts_ d)
    then out = Returned tt ∧ d' = unchanged delta (set_partitioner_ d (partitioner_ d'))
    else if training_enabled_ d && existsb throws (seqZ 0 kLockCnt)
    then out = Thrown ∧ current_cuts_ d' = current_cuts_ d ∧ block_to_lock_ d' = block_to_lock_ d ∧
      partition_epoch_ d' = partition_epoch_ d ∧
      ∀ fuel this me throws delta l r (func : Z → Z → D → D) tl data,
        WriteQuery kBlocks fuel this me throws delta l r func (d', tl, data) = None
    else out = Returned tt ∧ current_cuts_ d' = next ∧ pause_queries_ d' = false ∧
      partition_epoch_ d' = u64 (partition_epoch_ d + 2) ∧
      block_to_lock_ d' = RefreshBlockToLock kLockCnt kBlocks next (block_to_lock_ d) ∧
      training_count_ d' = training_count_ d +₆₄ 1).
Proof.
  intros HL Hov Hint Hd Hn. eapply wp_mono; [by apply TrainOnBatch_wp|].
  intros [out d'] (p & Hp & Heq).
  pose proof (install_cuts_ok kLockCnt kBlocks HL me throws delta (current_cuts_ d) _ Hp) as Hok.
  rewrite <-Heq in Hok. rewrite (install_cuts_eq kLockCnt kBlocks) in Heq by done.
  assert (partitioner_ d' = p) as Hpd.
  { destruct (decide _); [|destruct (_ && _)]; injection Heq as -> ->; try done.
    unfold unchanged, ScheduleNextTrainingProbe. by destruct (_ =? 0). }
  rewrite Hpd. split; [done|].
  change (partitioner_ (set_partitioner_ d p)) with p in Heq.
  destruct (decide (partitioner_PartitionCuts p = current_cuts_ d)); [by injection Heq as -> ->|].
  change (training_enabled_ (set_partitioner_ d p)) with (training_enabled_ d) in Heq.
  destruct (training_enabled_ d && _); injection Heq as -> ->; [|done].
  split_and!; try done. intros. unfold WriteQuery; simpl.
  destruct (Z.eqb_spec (array_size_ d) 0); [done|].
  destruct (normalize _ _ _). by rewrite genetic_query_loop_paused.
Qed.

Lemma TrainOnBatch_correct_witness :
  (∃ d' g, TrainOnBatch (R:=counter_source) 2 8 1 (λ _, false) 9 example_lock
      [example_query 0 1; example_query 0 1; example_query 2 3; example_query 4 5] 50%nat 7 =
        Some ((Returned tt, d'), g) ∧
    current_cuts_ d' = [0; 1; 8] ∧ block_to_lock_ d' = [0; 1; 1; 1; 1; 1; 1; 1] ∧ partition_epoch_ d' = 2) ∧
  wp (R:=counter_source) (TrainOnBatch 2 8 1 (λ _, false) 9 example_lock [example_query 0 1])
    (λ r, gl_ok 2 8 r.2).
Proof.
  split; [eexists _, _; vm_compute; split; [reflexivity|]; split; [reflexivity|]; split; reflexivity|].
  eapply wp_mono.
  - apply (TrainOnBatch_correct (D:=Z) 2 8 counter_source counter_fair insertion_population_sort);
      [lia|by vm_compute|lia|apply example_lock_ok|done].
  - intros [out d'] [Hok _]. exact Hok.
Defined.
