(* ===== verification/GeneticProtocol.v ===== *)
(** Concurrency of [GeneticLock].

    The queries of [genetic/genetic_lock.hpp] are the threads of
    [QueryProtocol]; this file adds the threads that train ([ObserveBatch],
    [FlushTraining] and the rounds of the training thread, with
    [training_mutex_] and [cuts_mutex_]), [CountLocksForRange], [PartitionCuts] and
    the stores to [training_enabled_], one step per access, in any number and in
    any interleaving.

    [TrainOnBatch] takes all the mutexes for its publication only if it reads
    [training_enabled_] as [true]. The parameter [guarded] selects the
    executions: with [guarded = true] only those in which every publication reads
    [true]; with [guarded = false] all of them. The former are safe, the latter
    are not. *)
From S2P Require Import Double BlockMap Random Chromosome GeneticPartitioner GeneticLock QueryProtocol Prelude.

(** The members the protocol of the queries does not depend on, and [array], the
    data the queries protect. *)
Record Client := {
  training_enabled : bool;
  training_mutex : option nat;
  cuts_mutex : option nat;
  partitioner : GeneticPartitioner;
  current_cuts : list Z;
  training_count : Z;
  operation_count : Z;
  total_lock_time : Z;
  array : gmap Z Z
}.

(** Program counters, by method; [locked] says whether the publication holds the
    mutexes. *)
Inductive gpc :=
  (* SetTrainingEnabled, StartRebuilder, StopRebuilder: the store *)
  | SetEnabled (enabled : bool)
  (* CountLocksForRange *)
  | CountEpoch (l r : Z) | CountLeft (l r e : Z) | CountRight (l r e first : Z)
  | CountCheck (l r e first last : Z) | CountDone (l r first last : Z)
  (* PartitionCuts *)
  | CutsLock | CutsCopy | CutsUnlock
  (* ObserveBatch, TrainingLoop *)
  | TrainSkew (batch : list Query) | TrainLock (batch : list Query)
  (* TrainOnBatch *)
  | PreviousLock (batch : list Query) | PreviousCopy (batch : list Query)
  | PreviousUnlock (batch : list Query) (previous : list Z)
  | TrainObserve (batch : list Query) (previous : list Z)
  | TrainCompare (previous : list Z) | TrainEnabled (next : list Z)
  | PubPause (next : list Z) | PubLock (i : Z) (next : list Z)
  (* publish_partition *)
  | PubOdd (locked : bool) (next : list Z) | PubCutsLock (locked : bool) (next : list Z)
  | PubStore (locked : bool) (next : list Z) | PubRefresh (locked : bool) (block lock_index : Z)
  | PubCutsUnlock (locked : bool) | PubEven (locked : bool)
  (* the end of TrainOnBatch *)
  | PubUnlock (n : Z) | PubUnpause | TrainCount | TrainUnlock.

Section GeneticProtocol.
  Variables (kLockCnt kBlocks array_size : Z) (min_training_skew : double).
  Context (R : RandomSource) (PS : PopulationSort).
  Variable guarded : bool.

Let block_size := init_block_size kBlocks array_size.

(** What a running query does: the accounting, and [func] on its positions. *)
Inductive in_query (l r : Z) : Client → Client → Prop :=
  | query_duration x delta :
      in_query l r x {| x with total_lock_time := total_lock_time x + delta |}
  | query_operation x :
      in_query l r x {| x with operation_count := operation_count x +₆₄ 1 |}
  | query_func x a :
      (∀ p, ¬ (l ≤ p ≤ r) → a !! p = array x !! p) →
      in_query l r x {| x with array := a |}.

(** Steps that read the shared fields and change the client's. *)
Inductive cstep (t : nat) (sh : Shared) : gpc → Client → option gpc → Client → Prop :=
  | c_enabled b x : cstep t sh (SetEnabled b) x None {| x with training_enabled := b |}
  (* CountLocksForRange *)
  | c_epoch_odd l r x : Z.odd (epoch sh) = true →
      cstep t sh (CountEpoch l r) x (Some (CountEpoch l r)) x
  | c_epoch l r x : Z.odd (epoch sh) = false →
      cstep t sh (CountEpoch l r) x (Some (CountLeft l r (epoch sh))) x
  | c_left l r e x :
      cstep t sh (CountLeft l r e) x
        (Some (CountRight l r e ((table sh).[PositionToBlock kBlocks block_size l]))) x
  | c_right l r e first x :
      cstep t sh (CountRight l r e first) x
        (Some (CountCheck l r e first ((table sh).[PositionToBlock kBlocks block_size r]))) x
  | c_check l r e first last x :
      cstep t sh (CountCheck l r e first last) x
        (Some (if (e =? epoch sh) && negb (Z.odd (epoch sh)) && (first <=? last)
               then CountDone l r first last else CountEpoch l r)) x
  | c_done l r first last x : cstep t sh (CountDone l r first last) x None x
  (* PartitionCuts *)
  | cuts_lock x : cuts_mutex x = None →
      cstep t sh CutsLock x (Some CutsCopy) {| x with cuts_mutex := Some t |}
  | cuts_copy x : cstep t sh CutsCopy x (Some CutsUnlock) x
  | cuts_unlock x : cstep t sh CutsUnlock x None {| x with cuts_mutex := None |}
  (* ObserveBatch (the mutex first) and TrainingLoop (the skew first) *)
  | t_skew batch x :
      cstep t sh (TrainSkew batch) x
        (if HasEnoughSkew kBlocks block_size min_training_skew batch
         then Some (TrainLock batch) else None) x
  | t_lock batch x : training_mutex x = None →
      cstep t sh (TrainLock batch) x
        (Some (if HasEnoughSkew kBlocks block_size min_training_skew batch
               then PreviousLock batch else TrainUnlock)) {| x with training_mutex := Some t |}
  | t_previous_lock batch x : cuts_mutex x = None →
      cstep t sh (PreviousLock batch) x (Some (PreviousCopy batch)) {| x with cuts_mutex := Some t |}
  | t_previous_copy batch x :
      cstep t sh (PreviousCopy batch) x (Some (PreviousUnlock batch (current_cuts x))) x
  | t_previous_unlock batch previous x :
      cstep t sh (PreviousUnlock batch previous) x (Some (TrainObserve batch previous))
        {| x with cuts_mutex := None |}
  | t_observe batch previous g p g' x :
      returns (GeneticPartitioner.ObserveBatch kLockCnt kBlocks (partitioner x) batch) g p g' →
      cstep t sh (TrainObserve batch previous) x (Some (TrainCompare previous)) {| x with partitioner := p |}
  | t_compare previous x :
      cstep t sh (TrainCompare previous) x
        (Some (if decide (partitioner_PartitionCuts (partitioner x) = previous) then TrainUnlock
               else TrainEnabled (partitioner_PartitionCuts (partitioner x)))) x
  | t_enabled next x :
      (guarded = true → training_enabled x = true) →
      cstep t sh (TrainEnabled next) x
        (Some (if training_enabled x then PubPause next else PubOdd false next)) x
  | p_cuts_lock k next x : cuts_mutex x = None →
      cstep t sh (PubCutsLock k next) x (Some (PubStore k next)) {| x with cuts_mutex := Some t |}
  | p_store k next x :
      cstep t sh (PubStore k next) x (Some (PubRefresh k 0 0)) {| x with current_cuts := next |}
  | p_refreshed k b li x : kBlocks ≤ b →
      cstep t sh (PubRefresh k b li) x (Some (PubCutsUnlock k)) x
  | p_cuts_unlock k x :
      cstep t sh (PubCutsUnlock k) x (Some (PubEven k)) {| x with cuts_mutex := None |}
  | t_count x :
      cstep t sh TrainCount x (Some TrainUnlock) {| x with training_count := training_count x +₆₄ 1 |}
  | t_unlock x : cstep t sh TrainUnlock x None {| x with training_mutex := None |}.

(** All the steps: those, and the ones that change the shared fields. *)
Inductive gstep (t : nat) : gpc → Shared → Client → option gpc → Shared → Client → Prop :=
  | g_client p sh x p' x' : cstep t sh p x p' x' → gstep t p sh x p' sh x'
  | g_pause next sh x :
      gstep t (PubPause next) sh x (Some (PubLock 0 next)) {| sh with pause := true |} x
  | g_lock i next sh x : i < kLockCnt → owner sh !! i = None →
      gstep t (PubLock i next) sh x (Some (PubLock (i + 1) next))
        {| sh with owner := <[i := t]> (owner sh) |} x
  | g_locked i next sh x : kLockCnt ≤ i →
      gstep t (PubLock i next) sh x (Some (PubOdd true next)) sh x
  | g_odd k next sh x :
      gstep t (PubOdd k next) sh x (Some (PubCutsLock k next)) {| sh with epoch := epoch sh +₆₄ 1 |} x
  | g_refresh k b li sh x : b < kBlocks →
      gstep t (PubRefresh k b li) sh x
        (Some (PubRefresh k (b + 1) (refresh_body kLockCnt (current_cuts x) b (li, table sh)).1))
        {| sh with table := (refresh_body kLockCnt (current_cuts x) b (li, table sh)).2 |} x
  | g_even k sh x :
      gstep t (PubEven k) sh x (Some (if k : bool then PubUnlock kLockCnt else PubUnpause))
        {| sh with epoch := epoch sh +₆₄ 1 |} x
  | g_unlock n sh x : 0 < n →
      gstep t (PubUnlock n) sh x (Some (PubUnlock (n - 1)))
        {| sh with owner := delete (0 + (n - 1)) (owner sh) |} x
  | g_unlocked sh x : gstep t (PubUnlock 0) sh x (Some PubUnpause) sh x
  | g_unpause sh x :
      gstep t PubUnpause sh x (Some TrainCount) {| sh with pause := false |} x.

(** The calls; a batch may be any one. *)
Inductive gcall : gpc → Prop :=
  | call_enabled b : gcall (SetEnabled b)
  | call_count left right l r : is_u64 left → is_u64 right →
      normalize array_size left right = (l, r) → gcall (CountEpoch l r)
  | call_cuts : gcall CutsLock
  | call_observe batch : batch ≠ [] → gcall (TrainLock batch)
  | call_training batch : gcall (TrainSkew batch).

#[export] Instance genetic_methods : Methods (X:=Client) gpc :=
  {| pinit := gcall; pstep := gstep |}.

(** ** The assertion of a publisher *)

Definition p_held (p : gpc) : Z * Z :=
  match p with
  | PubLock i _ => (0, i)
  | PubOdd _ _ | PubCutsLock _ _ | PubStore _ _ | PubRefresh _ _ _ | PubCutsUnlock _ | PubEven _ =>
      (0, kLockCnt)
  | PubUnlock n => (0, n)
  | _ => (0, 0)
  end.

(** The epoch is odd exactly while the table is rewritten. *)
Definition p_odd (p : gpc) : bool :=
  match p with
  | PubCutsLock _ _ | PubStore _ _ | PubRefresh _ _ _ | PubCutsUnlock _ | PubEven _ => true
  | _ => false
  end.

(** No publication without the mutexes. *)
Definition p_locked (p : gpc) : bool :=
  match p with
  | PubOdd k _ | PubCutsLock k _ | PubStore k _ | PubRefresh k _ _ | PubCutsUnlock k | PubEven k => k
  | _ => true
  end.

Definition p_ok (t : nat) (p : gpc) (sh : Shared) : Prop :=
  holds t sh (p_held p) ∧ (0 < (p_held p).2 → Z.odd (epoch sh) = p_odd p) ∧ p_locked p = true ∧
  match p with
  | PubLock i _ => 0 ≤ i ≤ kLockCnt
  | PubUnlock n => 0 ≤ n ≤ kLockCnt
  | PubRefresh _ b li => 0 ≤ b ≤ kBlocks ∧ refresh_inv kLockCnt kBlocks b (li, table sh)
  | PubCutsUnlock _ | PubEven _ => table_ok kLockCnt kBlocks (table sh)
  | CountEpoch l r => 0 ≤ l ≤ r
  | CountLeft l r e => 0 ≤ l ≤ r ∧ Z.odd e = false ∧ e ≤ epoch sh
  | CountRight l r e first =>
      0 ≤ l ≤ r ∧ Z.odd e = false ∧ e ≤ epoch sh ∧
      (e = epoch sh → first = seg_left kBlocks block_size sh l)
  | CountCheck l r e first last =>
      0 ≤ l ≤ r ∧ Z.odd e = false ∧ e ≤ epoch sh ∧
      (e = epoch sh → first = seg_left kBlocks block_size sh l ∧ last = seg_left kBlocks block_size sh r)
  | CountDone l r first last =>
      0 ≤ l ≤ r ∧ ∃ tab, table_ok kLockCnt kBlocks tab ∧
        first = tab.[PositionToBlock kBlocks block_size l] ∧
        last = tab.[PositionToBlock kBlocks block_size r]
  | _ => True
  end.

Context (HL : 0 < kLockCnt) (HB : 0 < kBlocks) (Hn : 0 < array_size < modulus64).
Context (Hguarded : guarded = true).

Local Abbreviation guarantee := (guarantee kLockCnt).
Local Abbreviation shared_ok := (shared_ok kLockCnt kBlocks).

Ltac done_with := split_and!; first [done|lia|tauto].

(** A client step moves between program counters that hold the same mutexes. *)
Lemma genetic_cstep_ok t p sh x p' x' :
  shared_ok sh → p_ok t p sh → cstep t sh p x p' x' →
  match p' with Some q => p_ok t q sh | None => ∀ i, ¬ owns t sh i end.
Proof.
  intros Hsh (Hh & Ho & Hk & Hp) Hstep. destruct Hstep; simpl in *;
    try (destruct (HasEnoughSkew _ _ _ _)); try (destruct (decide _)); try by apply (holds_none t sh 0).
  all: try done_with.
  - destruct (Z.eqb_spec e (epoch sh)) as [He|]; simpl; [|done_with].
    destruct (Z.odd (epoch sh)) eqn:Hodd; simpl; [done_with|].
    destruct (_ <=? _); [|done_with]. split; [done|]. split; [done|]. split; [done|]. split; [tauto|].
    exists (table sh). destruct Hsh as (_ & _ & Ht & _). unfold seg_left in Hp. split_and!; tauto.
  - rewrite H by done. done_with.
  - split; [done|]. split; [done|]. split; [done|]. split; [lia|].
    apply refresh_inv_0; [done|apply (proj1 Hsh)].
  - destruct Hp as (Hb & Hr & Hl & _ & _ & Hle & Hm).
    assert (b = kBlocks) as -> by lia. simpl in *.
    unfold p_ok, table_ok. split_and!; try done.
    intros c Hc. specialize (Hle c Hc). lia.
Qed.

Lemma gstep_ok t p sh x p' sh' x' :
  shared_ok sh → 0 ≤ epoch sh → epoch sh + 1 < modulus64 →
  p_ok t p sh → gstep t p sh x p' sh' x' →
  shared_ok sh' ∧ guarantee t sh sh' ∧
  match p' with Some q => p_ok t q sh' | None => ∀ i, ¬ owns t sh' i end.
Proof.
  intros Hsh H0 H1 Hp Hstep.
  destruct Hstep as [p sh x p' x' Hc|next sh x|i next sh x Hlt Hfree|i next sh x Hge
    |k next sh x|k b li sh x Hb|k sh x|n sh x Hpos|sh x|sh x].
  - split; [done|]. split; [apply guarantee_refl|]. by eapply genetic_cstep_ok.
  - destruct Hp as (Hh & Ho & _). split; [by destruct Hsh|]. split; [apply guarantee_pause|].
    split_and!; [done|simpl; lia|done|lia|lia].
  - destruct Hp as (Hh & Ho & _ & Hi); simpl in *.
    assert (Z.odd (epoch sh) = false) as He by (eapply shared_ok_free_even; [done| |done]; lia).
    split; [by apply shared_ok_owner|]. split; [by apply guarantee_acquire|].
    split_and!; simpl; [|done|done|lia|lia]. apply (holds_acquire t sh 0 i); [done|lia|done].
  - destruct Hp as (Hh & Ho & _ & Hi); simpl in *. assert (i = kLockCnt) as -> by lia.
    split; [done|]. split; [apply guarantee_refl|]. by split_and!.
  - destruct Hp as (Hh & Ho & Hk & _); simpl in *. specialize (Ho HL).
    destruct (epoch_step_ok kLockCnt kBlocks t sh) as (Hs & Hg & Hodd); [done..|by rewrite Ho|].
    split; [done|]. split; [done|]. rewrite Ho in Hodd. by split_and!.
  - destruct Hp as (Hh & Ho & Hk & Hbk & Hinv); simpl in *. specialize (Ho HL).
    pose proof (refresh_body_inv kLockCnt kBlocks HL HB (current_cuts x) b (li, table sh) ltac:(lia) Hinv) as Hinv'.
    destruct Hsh as (Hlen & Hrng & _ & Hall).
    split; [|split].
    + split_and!; simpl; [by rewrite len_set| |by rewrite Ho|done].
      intros c Hc. rewrite get_set by lia. destruct (Z.eqb_spec b c); [apply Hinv'|by apply Hrng].
    + split; [done|]. right. split_and!; [by apply holds_all|by apply holds_all|]. by right.
    + split; [done|]. split; [done|]. split; [done|]. split; [lia|]. exact Hinv'.
  - destruct Hp as (Hh & Ho & Hk & Ht); simpl in *. subst k. specialize (Ho HL).
    destruct (epoch_step_ok kLockCnt kBlocks t sh) as (Hs & Hg & Hodd); [done..|].
    split; [done|]. split; [done|]. rewrite Ho in Hodd. split_and!; done || lia.
  - destruct Hp as (Hh & Ho & _ & Hnr); simpl in *.
    destruct (release_ok kLockCnt kBlocks t sh 0 n) as (Hs & Hg & Hh'); [done|by apply Ho|done|done|].
    split; [done|]. split; [done|]. split_and!; [done|simpl; intros; apply Ho; lia|done|lia|lia].
  - destruct Hp as (Hh & _). split; [done|]. split; [apply guarantee_refl|]. by split_and!.
  - destruct Hp as (Hh & Ho & _). split; [by destruct Hsh|]. split; [apply guarantee_pause|]. by split_and!.
Qed.

Lemma genetic_p_held_first p : (p_held p).1 = 0.
Proof. by destruct p. Qed.

Lemma genetic_p_ok_stable t u p sh sh' :
  t ≠ u → epoch sh + 1 < modulus64 → 0 ≤ epoch sh →
  p_ok t p sh → guarantee u sh sh' → p_ok t p sh'.
Proof.
  intros Hne Hb H0 (Hh & Ho & Hk & Hp) HG.
  pose proof (guarantee_epoch_mono kLockCnt u sh sh' Hb H0 HG) as Hm.
  assert (0 < (p_held p).2 → table sh' = table sh ∧ epoch sh' = epoch sh) as Hfr.
  { intros Hpos. apply (guarantee_frozen kLockCnt t u sh sh' ((p_held p).1)); [done| | |done].
    - rewrite genetic_p_held_first. lia.
    - apply Hh. lia. }
  assert (∀ e, Z.odd e = false → e ≤ epoch sh → e = epoch sh' →
    e = epoch sh ∧ table sh' = table sh) as Hsame.
  { intros. eapply guarantee_same_epoch; eauto. }
  split_and!.
  - by eapply holds_stable.
  - intros Hpos. destruct (Hfr Hpos) as [_ ->]. auto.
  - done.
  - unfold seg_left in *. destruct p; simpl in *; try done; try (by destruct (Hfr HL) as [-> _]); try lia.
    + split_and!; tauto || lia.
    + destruct Hp as (? & ? & ? & Hs). split; [done|]. split; [done|]. split; [lia|].
      intros He. destruct (Hsame e) as [He' ->]; auto.
    + destruct Hp as (? & ? & ? & Hs). split; [done|]. split; [done|]. split; [lia|].
      intros He. destruct (Hsame e) as [He' ->]; auto.
Qed.

#[export] Instance genetic_publisher : Publisher kLockCnt kBlocks (X:=Client) gpc.
Proof.
  refine {| pok := p_ok |}.
  - intros t p sh Hc Hno.
    assert (holds t sh (0, 0)) by by apply holds_none.
    destruct Hc as [b|left right l r ? ? Hnorm| |batch|batch]; split_and!; simpl; try done; try lia.
    all: apply normalize_range in Hnorm; unfold is_u64 in *; lia.
  - intros t p sh x p' sh' x' Hs H0 H1. by apply gstep_ok.
  - intros t u p sh sh'. apply genetic_p_ok_stable.
Defined.

End GeneticProtocol.

Definition gsys : Type := sys (X:=Client) (P:=gpc).

Section Properties.
  Variables (kLockCnt kBlocks array_size : Z) (min_training_skew : double).
  Context (R : RandomSource) (PS : PopulationSort).

Definition gen_step (guarded : bool) : gsys → gsys → Prop :=
  step kBlocks (init_block_size kBlocks array_size) array_size in_query
    (Methods0 := genetic_methods kLockCnt kBlocks array_size min_training_skew R PS guarded).

(** A freshly constructed object. *)
Definition gen_initial (s : gsys) : Prop := initial kLockCnt kBlocks s.

Context (HL : 0 < kLockCnt) (HB : 0 < kBlocks) (Hn : 0 < array_size < modulus64).

(** ** Properties *)

(** C16. Mutual exclusion, if training stays enabled whenever cuts are published:
    in every interleaving of any number of queries, trainings, counts and stores
    to [training_enabled_] in which every publication reads [training_enabled_] as
    [true], two queries that run [func] at the same time work on disjoint
    intervals (executions of fewer than [2^64] steps). *)
Theorem GeneticLock_exclusive n s0 s t1 t2 l1 r1 f1 e1 l2 r2 f2 e2 :
  gen_initial s0 → nsteps (gen_step true) n s0 s → Z.of_nat n < modulus64 → t1 ≠ t2 →
  threads s !! t1 = Some (TQuery (QCrit l1 r1 f1 e1)) →
  threads s !! t2 = Some (TQuery (QCrit l2 r2 f2 e2)) →
  r1 < l2 ∨ r2 < l1.
Proof.
  intros Hi Hs Hb Hne H1 H2.
  eapply (mutual_exclusion kLockCnt kBlocks (init_block_size kBlocks array_size) array_size in_query
    (Publisher0 := genetic_publisher kLockCnt kBlocks array_size min_training_skew R PS true HL HB Hn eq_refl));
    eauto. apply init_block_size_pos; lia.
Qed.

(** [CountLocksForRange] takes no mutex and may run during publications: the
    two table entries it returns from belong to one published table (the epoch
    was even and the same before and after the two loads), so they are the ends
    of a non-empty interval of existing mutexes and the count does not wrap. *)
Theorem genetic_CountLocksForRange_consistent n s0 s t l r f e :
  gen_initial s0 → nsteps (gen_step true) n s0 s → Z.of_nat n < modulus64 → kLockCnt < modulus64 →
  threads s !! t = Some (TPub (CountDone l r f e)) →
  (∃ tab, table_ok kLockCnt kBlocks tab ∧
     FindLocksSegmentUnlocked kBlocks tab (init_block_size kBlocks array_size) l r = (f, e)) ∧
  0 ≤ f ≤ e ∧ e < kLockCnt ∧ 1 ≤ e -₆₄ f +₆₄ 1 ≤ kLockCnt.
Proof.
  intros Hi Hs Hb HK Ht. pose proof (init_block_size_pos kBlocks HB array_size ltac:(lia)) as Hbs.
  pose proof (sys_inv_reachable kLockCnt kBlocks (init_block_size kBlocks array_size) array_size in_query
    (Publisher0 := genetic_publisher kLockCnt kBlocks array_size min_training_skew R PS true HL HB Hn eq_refl)) as Hr.
  destruct (Hr HB Hbs Hn n s0 s Hi Hs Hb) as (_ & _ & Hth).
  specialize (Hth t). rewrite Ht in Hth. destruct Hth as (_ & _ & _ & Hlr & tab & Htab & -> & ->).
  assert (FindLocksSegmentUnlocked kBlocks tab (init_block_size kBlocks array_size) l r =
    (tab.[PositionToBlock kBlocks (init_block_size kBlocks array_size) l],
     tab.[PositionToBlock kBlocks (init_block_size kBlocks array_size) r])) as Hseg by done.
  split; [by exists tab|].
  destruct (FindLocksSegment_range kLockCnt kBlocks HB tab _ l r _ _ Htab Hbs Hlr Hseg).
  rewrite u64_sub_small by lia. rewrite u64_add_small by lia. lia.
Qed.

End Properties.

(** *** Concrete executions: two mutexes, four blocks of two positions, and a
    partitioner that follows the profile of the batch. *)

Definition demo_client : Client :=
  {| training_enabled := false; training_mutex := None; cuts_mutex := None;
     partitioner := make_partitioner 2 4 8 100 4 2 0 4 d_one (d_lit 35 100) (d_lit 55 100) 4;
     current_cuts := [0; 2; 4]; training_count := 0; operation_count := 0; total_lock_time := 0;
     array := ∅ |}.

Definition demo_start : gsys :=
  {| threads := ∅; shared := {| owner := ∅; table := [0; 0; 1; 1]; epoch := 0; pause := false |};
     client := demo_client |}.

(** Sixteen queries on the last two blocks. *)
Definition demo_batch : list Query :=
  replicate 8 (example_query 4 5) ++ replicate 8 (example_query 6 7).

Lemma genetic_demo_initial : gen_initial 2 4 demo_start.
Proof.
  unfold gen_initial, initial, table_ok. split_and!; try done; simpl.
  - intros b Hb. assert (b = 0 ∨ b = 1 ∨ b = 2 ∨ b = 3) as [->|[->|[->| ->]]] by lia; by vm_compute.
  - intros b b' Hb Hb'.
    assert (b = 0 ∨ b = 1 ∨ b = 2 ∨ b = 3) as [->|[->|[->| ->]]] by lia;
    assert (b' = 0 ∨ b' = 1 ∨ b' = 2 ∨ b' = 3) as [->|[->|[->| ->]]] by lia;
      first [by vm_compute|lia].
Qed.

Definition demo_step (guarded : bool) : gsys → gsys → Prop :=
  gen_step 2 4 8 d_one counter_source insertion_population_sort guarded.

(** Run one step of a thread and compute the state reached. *)
Ltac demo_state :=
  match goal with |- nsteps _ _ ?s _ => let s' := eval vm_compute in s in change s with s' end.
Ltac demo_call tid l r :=
  eapply nsteps_l; [eapply step_call with (t := tid) (left := l) (right := r);
    [vm_compute; reflexivity|by vm_compute|by vm_compute|vm_compute; reflexivity]|]; demo_state.
Ltac demo_query tid :=
  eapply nsteps_l; [eapply step_query with (t := tid);
    [vm_compute; reflexivity|solve [econstructor; by vm_compute]]|]; demo_state.
Ltac demo_publish tid pc :=
  eapply nsteps_l; [eapply step_publish with (t := tid) (p := pc); [by vm_compute|]|];
    [first [by apply call_enabled|by apply call_observe|by apply (call_count 8 4 7)]|]; demo_state.
Ltac demo_pub tid :=
  eapply nsteps_l; [eapply step_pub with (t := tid);
    [vm_compute; reflexivity
    |solve [apply g_client; econstructor; by vm_compute
           |apply g_client; eapply t_observe with (g := 0); exists O; intros fuel _; vm_compute; reflexivity
           |econstructor; by vm_compute]]|]; demo_state.

Lemma demo_race :
  ∃ n s, nsteps (demo_step false) n demo_start s ∧ (n < 100)%nat ∧
    threads s !! 1%nat = Some (TQuery (QCrit 4 7 1 1)) ∧
    threads s !! 2%nat = Some (TQuery (QCrit 4 5 0 0)) ∧
    training_enabled (client s) = false.
Proof.
  eexists _, _. unfold demo_step, gen_step. split.
  - demo_call 1%nat 4 7. do 7 demo_query 1%nat.
    demo_publish 3%nat (TrainLock demo_batch).
    do 17 demo_pub 3%nat.
    demo_call 2%nat 4 5. do 7 demo_query 2%nat. apply nsteps_O.
  - split; [lia|]. by vm_compute.
Qed.

Lemma genetic_demo_run :
  ∃ n s, nsteps (demo_step true) n demo_start s ∧ (n < 100)%nat ∧
    threads s !! 1%nat = Some (TQuery (QCrit 0 3 0 0)) ∧
    threads s !! 2%nat = Some (TQuery (QCrit 6 7 1 1)) ∧
    threads s !! 4%nat = Some (TPub (CountDone 4 7 0 1)) ∧ current_cuts (client s) = [0; 3; 4].
Proof.
  eexists _, _. unfold demo_step, gen_step. split.
  - demo_publish 3%nat (SetEnabled true). demo_pub 3%nat.
    demo_publish 3%nat (TrainLock demo_batch). do 26 demo_pub 3%nat.
    demo_call 1%nat 3 0. do 7 demo_query 1%nat.
    demo_call 2%nat 6 9. do 7 demo_query 2%nat.
    demo_publish 4%nat (CountEpoch 4 7). do 4 demo_pub 4%nat. apply nsteps_O.
  - split; [lia|]. by vm_compute.
Qed.

Lemma genetic_two_pos : 0 < 2. Proof. done. Qed.
Lemma genetic_four_pos : 0 < 4. Proof. done. Qed.
Lemma genetic_eight_ok : 0 < 8 < modulus64. Proof. done. Qed.

Lemma GeneticLock_exclusive_witness :
  ∃ n s, nsteps (demo_step true) n demo_start s ∧ current_cuts (client s) = [0; 3; 4] ∧
    threads s !! 1%nat = Some (TQuery (QCrit 0 3 0 0)) ∧
    threads s !! 2%nat = Some (TQuery (QCrit 6 7 1 1)) ∧ (3 < 6 ∨ 7 < 0).
Proof.
  destruct genetic_demo_run as (n & s & Hs & Hn & H1 & H2 & _ & Hc). exists n, s. split_and!; [done..|].
  apply (GeneticLock_exclusive 2 4 8 d_one counter_source insertion_population_sort
    genetic_two_pos genetic_four_pos genetic_eight_ok n demo_start s 1%nat 2%nat 0 3 0 0 6 7 1 1);
    [apply genetic_demo_initial|done|unfold modulus64; lia|done|done|done].
Defined.

Lemma genetic_CountLocksForRange_consistent_witness :
  ∃ n s, nsteps (demo_step true) n demo_start s ∧
    threads s !! 4%nat = Some (TPub (CountDone 4 7 0 1)) ∧ 1 ≤ 1 -₆₄ 0 +₆₄ 1 ≤ 2.
Proof.
  destruct genetic_demo_run as (n & s & Hs & Hn & _ & _ & H3 & _). exists n, s. split; [done|]. split; [done|].
  apply (genetic_CountLocksForRange_consistent 2 4 8 d_one counter_source insertion_population_sort
    genetic_two_pos genetic_four_pos genetic_eight_ok n demo_start s 4%nat 4 7 0 1);
    [apply genetic_demo_initial|done|unfold modulus64; lia|done|done].
Defined.

(** C17. Without that discipline the lock does not exclude: when
    [training_enabled_] is [false] (training was never started, or
    [StopRebuilder] or [SetTrainingEnabled(false)] came first), [TrainOnBatch]
    publishes new cuts without taking the mutexes, and there is an execution of
    one [ObserveBatch] and two queries in which both queries run [func] on the
    positions [4] and [5] at the same time. *)
Theorem GeneticLock_disabled_publication_races :
  ∃ n s, gen_initial 2 4 demo_start ∧
    nsteps (gen_step 2 4 8 d_one counter_source insertion_population_sort false) n demo_start s ∧
    threads s !! 1%nat = Some (TQuery (QCrit 4 7 1 1)) ∧
    threads s !! 2%nat = Some (TQuery (QCrit 4 5 0 0)) ∧ training_enabled (client s) = false.
Proof.
  destruct demo_race as (n & s & Hs & _ & H1 & H2 & H3). exists n, s.
  split; [apply genetic_demo_initial|]. by split_and!.
Qed.
