(* ===== verification/TrainingThread.v ===== *)
(** The training thread of [GeneticLock] and its condition variable.

    [TrainingLoop] of [genetic/genetic_lock.hpp] waits on [training_cv_] for
    enough pending samples; [FlushTrainingSamples], called by the queries, adds
    samples and notifies; [FlushTraining] takes the samples away; [StopRebuilder]
    sets [stop_training_thread_], notifies and joins. One step per access, any
    number of other threads in any interleaving. A wait is modelled as the
    standard describes it: the predicate is evaluated with the mutex held, then
    the mutex is released and the thread blocks in one step; a notification wakes
    the thread only if it is already blocked; a blocked thread may also wake
    spuriously ([training_next] adds these to [training_step]). *)
From stdpp Require Import relations.
From S2P Require Import Chromosome Prelude.

(** [TrainingLoop]: the predicate ([WTest]), the wait, and the training. *)
Inductive wpc :=
  | WLock | WTest | WWait | WSleep | WReacquire | WStop | WSwap
  | WUnlock (batch : list Query) | WTrain (batch : list Query) | WExit | WDone.

(** The other threads: [FlushTrainingSamples], [FlushTraining], [StopRebuilder]. *)
Inductive opc :=
  | FLock (queries : list Query) | FInsert (queries : list Query)
  | FUnlock (should_notify : bool) | FNotify (should_notify : bool)
  | XLock | XSwap | XUnlock (batch : list Query) | XObserve (batch : list Query)
  | SEnabled | SStop | SNotify | SJoin | SLock | SClear | SUnlock.

(** The mutex may be held by the training thread or by another one. *)
Inductive holder := Trainer | Other (t : nat).

(** The members involved, and three histories: the samples flushed so far, the
    samples taken out of the pending ones, and the batches the training thread
    took. *)
Record training := {
  pending_mutex : option holder;
  pending_queries : list Query;
  stop_training_thread : bool;
  training_enabled : bool;
  trainer : wpc;
  others : gmap nat opc;
  flushed : list Query;
  taken : list Query;
  batches : list (list Query)
}.

(** Assignments to one member. *)
Definition set_mutex (s : training) (v : option holder) : training := {| s with pending_mutex := v |}.
Definition set_trainer (s : training) (v : wpc) : training := {| s with trainer := v |}.
Definition set_other (s : training) (t : nat) (o : option opc) : training :=
  {| s with others := partial_alter (λ _, o) t (others s) |}.

(** The pending samples leave the queue. *)
Definition take_pending (s : training) : training :=
  {| s with pending_queries := []; taken := taken s ++ pending_queries s |}.

(** [notify_one]: there is at most one waiter, the training thread. *)
Definition notify (s : training) : training :=
  match trainer s with WSleep => set_trainer s WReacquire | _ => s end.

Section TrainingThread.
  Variable training_batch_size : Z.

(** The predicate of the wait. *)
Definition ready (s : training) : bool :=
  stop_training_thread s || (training_batch_size <=? len (pending_queries s)).

(** Steps of the training thread, spurious wakeups apart. *)
Inductive wstep : training → training → Prop :=
  | w_lock s : trainer s = WLock → pending_mutex s = None →
      wstep s (set_trainer (set_mutex s (Some Trainer)) WTest)
  | w_test s : trainer s = WTest →
      wstep s (set_trainer s (if ready s then WStop else WWait))
  | w_wait s : trainer s = WWait → wstep s (set_trainer (set_mutex s None) WSleep)
  | w_reacquire s : trainer s = WReacquire → pending_mutex s = None →
      wstep s (set_trainer (set_mutex s (Some Trainer)) WTest)
  | w_stop s : trainer s = WStop →
      wstep s (set_trainer s (if stop_training_thread s then WExit else WSwap))
  | w_exit s : trainer s = WExit → wstep s (set_trainer (set_mutex s None) WDone)
  | w_swap s : trainer s = WSwap →
      let s' := {| s with batches := batches s ++ [pending_queries s] |} in
      wstep s (set_trainer (take_pending s') (WUnlock (pending_queries s)))
  | w_unlock s batch : trainer s = WUnlock batch →
      wstep s (set_trainer (set_mutex s None) (WTrain batch))
  | w_train s batch : trainer s = WTrain batch → wstep s (set_trainer s WLock).

(** Steps of another thread. *)
Inductive ostep (t : nat) : training → training → Prop :=
  (* FlushTrainingSamples *)
  | f_lock s qs : others s !! t = Some (FLock qs) → pending_mutex s = None →
      ostep t s (set_other (set_mutex s (Some (Other t))) t (Some (FInsert qs)))
  | f_insert s qs : others s !! t = Some (FInsert qs) →
      let s' := {| s with pending_queries := pending_queries s ++ qs; flushed := flushed s ++ qs |} in
      ostep t s (set_other s' t
        (Some (FUnlock (training_batch_size <=? len (pending_queries s ++ qs)))))
  | f_unlock s n : others s !! t = Some (FUnlock n) →
      ostep t s (set_other (set_mutex s None) t (Some (FNotify n)))
  | f_notify s n : others s !! t = Some (FNotify n) →
      ostep t s (set_other (if n : bool then notify s else s) t None)
  (* FlushTraining *)
  | x_lock s : others s !! t = Some XLock → pending_mutex s = None →
      ostep t s (set_other (set_mutex s (Some (Other t))) t (Some XSwap))
  | x_swap s : others s !! t = Some XSwap →
      ostep t s (set_other (take_pending s) t (Some (XUnlock (pending_queries s))))
  | x_unlock s batch : others s !! t = Some (XUnlock batch) →
      ostep t s (set_other (set_mutex s None) t (Some (XObserve batch)))
  | x_observe s batch : others s !! t = Some (XObserve batch) → ostep t s (set_other s t None)
  (* StopRebuilder *)
  | s_enabled s : others s !! t = Some SEnabled →
      ostep t s (set_other {| s with training_enabled := false |} t (Some SStop))
  | s_stop s : others s !! t = Some SStop →
      ostep t s (set_other {| s with stop_training_thread := true |} t (Some SNotify))
  | s_notify s : others s !! t = Some SNotify → ostep t s (set_other (notify s) t (Some SJoin))
  | s_join s : others s !! t = Some SJoin → trainer s = WDone →
      ostep t s (set_other s t (Some SLock))
  | s_lock s : others s !! t = Some SLock → pending_mutex s = None →
      ostep t s (set_other (set_mutex s (Some (Other t))) t (Some SClear))
  | s_clear s : others s !! t = Some SClear →
      ostep t s (set_other (take_pending s) t (Some SUnlock))
  | s_unlock s : others s !! t = Some SUnlock → ostep t s (set_other (set_mutex s None) t None).

(** Where the calls start: a query flushes only while training is enabled. *)
Inductive ocall (s : training) : opc → Prop :=
  | call_flush qs : qs ≠ [] → training_enabled s = true → ocall s (FLock qs)
  | call_FlushTraining : ocall s XLock
  | call_StopRebuilder : ocall s SEnabled.

Inductive training_move : training → training → Prop :=
  | move_trainer s s' : wstep s s' → training_move s s'
  | move_other t s s' : ostep t s s' → training_move s s'.

Inductive training_step : training → training → Prop :=
  | next_move s s' : training_move s s' → training_step s s'
  | next_call s t o : others s !! t = None → ocall s o → training_step s (set_other s t (Some o)).

(** With the spurious wakeups. *)
Definition training_next (s s' : training) : Prop :=
  training_step s s' ∨ (trainer s = WSleep ∧ s' = set_trainer s WReacquire).

(** [StartRebuilder] has started the thread. *)
Definition training_initial : training :=
  {| pending_mutex := None; pending_queries := []; stop_training_thread := false;
     training_enabled := true; trainer := WLock; others := ∅;
     flushed := []; taken := []; batches := [] |}.

(** ** Invariants *)

(** Inside [pending_mutex_]. *)
Definition trainer_holds (p : wpc) : bool :=
  match p with WTest | WWait | WStop | WSwap | WUnlock _ | WExit => true | _ => false end.

Definition other_holds (o : opc) : bool :=
  match o with FInsert _ | FUnlock _ | XSwap | XUnlock _ | SClear | SUnlock => true | _ => false end.

(** Some thread is about to notify the training thread. *)
Definition notifying (s : training) : Prop :=
  ∃ t, others s !! t = Some (FUnlock true) ∨ others s !! t = Some (FNotify true).

Record training_inv (s : training) : Prop := {
  inv_trainer : trainer_holds (trainer s) = true ↔ pending_mutex s = Some Trainer;
  inv_other t : (∃ o, others s !! t = Some o ∧ other_holds o = true) ↔ pending_mutex s = Some (Other t);
  inv_flow : flushed s = taken s ++ pending_queries s;
  inv_batches : Forall (λ b, training_batch_size ≤ len b) (batches s);
  inv_swap : trainer s = WSwap → training_batch_size ≤ len (pending_queries s);
  inv_stop : trainer s = WStop → stop_training_thread s = true ∨ training_batch_size ≤ len (pending_queries s);
  inv_wait : trainer s = WWait → len (pending_queries s) < training_batch_size;
  inv_sleep : trainer s = WSleep → len (pending_queries s) < training_batch_size ∨ notifying s
}.

Definition holding (s : training) (t : nat) : Prop := ∃ o, others s !! t = Some o ∧ other_holds o = true.

(** How a step of thread [t] treats the mutex: it leaves it, takes it, or gives
    it back. *)
Lemma inv_other_move s s' t o' m :
  (∀ u, holding s u ↔ pending_mutex s = Some (Other u)) →
  others s' = partial_alter (λ _, o') t (others s) → pending_mutex s' = m →
  let after := match o' with Some o => other_holds o | None => false end in
  (m = pending_mutex s ∧ (after = true ↔ holding s t)) ∨
  (pending_mutex s = None ∧ m = Some (Other t) ∧ after = true) ∨
  (holding s t ∧ m = None ∧ after = false) →
  ∀ u, holding s' u ↔ pending_mutex s' = Some (Other u).
Proof.
  intros Hs Ho Hm after Hcase u. rewrite Hm. unfold holding at 1. rewrite Ho.
  assert ((∃ o, o' = Some o ∧ other_holds o = true) ↔ after = true) as Hafter.
  { unfold after. destruct o' as [o|]; split; [by intros (? & [= <-] & ?)|by eauto|by intros (? & ? & ?)|done]. }
  destruct (decide (u = t)) as [->|Hu].
  - rewrite lookup_partial_alter_eq, Hafter.
    destruct Hcase as [[-> Hc]|[(_ & -> & ->)|(_ & -> & ->)]]; [|done..].
    by rewrite <-Hs, Hc.
  - rewrite lookup_partial_alter_ne by done. fold (holding s u).
    destruct Hcase as [[-> _]|[(Hn & -> & _)|(Hh & -> & _)]]; [apply Hs| |].
    + rewrite Hs, Hn. split; congruence.
    + apply Hs in Hh. rewrite Hs, Hh. split; congruence.
Qed.

(** Another thread that starts or goes on notifying keeps the waiters safe. *)
Lemma notifying_other s s' t o' :
  others s' = partial_alter (λ _, o') t (others s) →
  others s !! t ≠ Some (FUnlock true) → others s !! t ≠ Some (FNotify true) →
  notifying s → notifying s'.
Proof.
  intros Ho H1 H2 [u Hu]. exists u. rewrite Ho, lookup_partial_alter_ne; [done|]. intros ->.
  by destruct Hu.
Qed.

Lemma wstep_inv s s' : training_inv s → wstep s s' → training_inv s'.
Proof.
  intros [Ht Ho Hf Hb Hsw Hst Hwt Hsl] Hstep.
  destruct Hstep as [s Hp Hm|s Hp|s Hp|s Hp Hm|s Hp|s Hp|s Hp|s b Hp|s b Hp]; rewrite Hp in *; simpl in *.
  all: try (pose proof (proj1 Ht eq_refl) as Hm).
  2: unfold ready; destruct (stop_training_thread s) eqn:Hstop; simpl;
    [|destruct (Z.leb_spec training_batch_size (len (pending_queries s)))].
  all: try (destruct (stop_training_thread s) eqn:Hstop').
  all: constructor; simpl; try done; try congruence; try tauto; try (split; congruence).
  all: try (intros u; rewrite Ho, Hm; split; congruence).
  all: try (intros _; left; auto; lia); try (intros _; destruct Hst; done || lia).
  all: try (by rewrite app_nil_r).
  all: apply Forall_app; split; [done|]; apply Forall_singleton; auto.
Qed.

Lemma notify_trainer s :
  (trainer s = WSleep ∧ trainer (notify s) = WReacquire) ∨
  (trainer s ≠ WSleep ∧ trainer (notify s) = trainer s).
Proof. unfold notify. destruct (trainer s) eqn:Ht; simpl; auto. Qed.

Lemma notify_others s :
  pending_mutex (notify s) = pending_mutex s ∧ pending_queries (notify s) = pending_queries s ∧
  stop_training_thread (notify s) = stop_training_thread s ∧ others (notify s) = others s ∧
  flushed (notify s) = flushed s ∧ taken (notify s) = taken s ∧ batches (notify s) = batches s.
Proof. unfold notify. by destruct (trainer s). Qed.

(** Another thread owns the mutex: the training thread is outside. *)
Lemma trainer_outside s t : training_inv s → holding s t → trainer_holds (trainer s) = false.
Proof.
  intros Hs Hh. apply (inv_other s Hs) in Hh. destruct (trainer_holds (trainer s)) eqn:He; [|done].
  apply (inv_trainer s Hs) in He. congruence.
Qed.

(** A step of thread [t] that leaves the samples and the training thread alone. *)
Lemma other_quiet s s' t o o' m :
  training_inv s → others s !! t = Some o →
  s' = set_other (set_mutex s m) t o' →
  let after := match o' with Some o => other_holds o | None => false end in
  (m = pending_mutex s ∧ after = other_holds o) ∨
  (pending_mutex s = None ∧ m = Some (Other t) ∧ after = true) ∨
  (other_holds o = true ∧ m = None ∧ after = false) →
  (o = FUnlock true → o' = Some (FNotify true)) → o ≠ FNotify true →
  training_inv s'.
Proof.
  intros Hs Ht -> after Hcase Hun Hno. pose proof Hs as [Htr Ho Hf Hb Hsw Hst Hwt Hsl].
  assert (holding s t ↔ other_holds o = true) as Hhold.
  { split; [intros (? & Ho' & ?); congruence|by exists o]. }
  constructor; simpl; try done.
  - destruct Hcase as [[-> _]|[(Hn & -> & _)|(Hh & -> & _)]]; [done| |].
    + rewrite Htr, Hn. split; congruence.
    + apply Hhold, (trainer_outside s t Hs) in Hh. rewrite Hh. split; congruence.
  - apply (inv_other_move s (set_other (set_mutex s m) t o') t o' m); [apply Ho|done|done|]. fold after.
    destruct Hcase as [[-> ->]|[?|(Hh & -> & Ha)]]; [left; by rewrite Hhold|by right; left|right; right].
    by rewrite Hhold.
  - intros Hsleep. destruct (Hsl Hsleep) as [|[u Hu]]; [by left|right]. exists u. simpl.
    destruct (decide (u = t)) as [->|]; [|by rewrite lookup_partial_alter_ne].
    rewrite lookup_partial_alter_eq. rewrite Ht in Hu. destruct Hu as [[= ->]|[= ->]]; [|done].
    right. by apply Hun.
Qed.

(** The end of a notifying call. *)
Lemma other_notify s t o o' :
  training_inv s → others s !! t = Some o → other_holds o = false →
  match o' with Some o => other_holds o = false | None => True end →
  training_inv (set_other (notify s) t o').
Proof.
  intros [Htr Ho Hf Hb Hsw Hst Hwt Hsl] Ht Hh Hh'.
  destruct (notify_others s) as (Hm & Hq & Hs & Hoth & Hfl & Htk & Hba).
  constructor; simpl; rewrite ?Hm, ?Hq, ?Hs, ?Hfl, ?Htk, ?Hba; try done.
  all: try (destruct (notify_trainer s) as [[Hp ->]|[Hp ->]]; try done).
  - by rewrite <-Htr, Hp.
  - intros u. rewrite <-Hm. revert u. apply (inv_other_move s (set_other (notify s) t o') t o' (pending_mutex s)).
    + apply Ho.
    + simpl. by rewrite Hoth.
    + done.
    + left. split; [done|]. split; [destruct o'; [by rewrite Hh'|done]|].
      intros (? & Ho' & Hx). rewrite Ht in Ho'. injection Ho' as <-. by rewrite Hh in Hx.
Qed.

(** Taking all the pending samples, with the mutex held. *)
Lemma other_take s t o o' :
  training_inv s → others s !! t = Some o → other_holds o = true → other_holds o' = true →
  0 < training_batch_size → (∀ n, o ≠ FUnlock n) →
  training_inv (set_other (take_pending s) t (Some o')).
Proof.
  intros Hs Ht Hh Hh' Hpos Hun. pose proof Hs as [Htr Ho Hf Hb Hsw Hst Hwt Hsl].
  assert (holding s t) as Hhold by by exists o.
  pose proof (trainer_outside s t Hs Hhold) as Hout.
  constructor; simpl; try done.
  - apply (inv_other_move s (set_other (take_pending s) t (Some o')) t (Some o') (pending_mutex s)); [apply Ho|done|done|].
    left. by rewrite Hh'.
  - by rewrite app_nil_r.
  - intros He. by rewrite He in Hout.
  - intros He. by rewrite He in Hout.
  - intros _. left. unfold len; simpl. lia.
Qed.

(** Adding samples, with the mutex held. *)
Lemma other_insert s t qs :
  training_inv s → others s !! t = Some (FInsert qs) →
  let s1 := {| s with pending_queries := pending_queries s ++ qs; flushed := flushed s ++ qs |} in
  training_inv (set_other s1 t (Some (FUnlock (training_batch_size <=? len (pending_queries s ++ qs))))).
Proof.
  intros Hs Ht s1. pose proof Hs as [Htr Ho Hf Hb Hsw Hst Hwt Hsl].
  assert (holding s t) as Hhold by by exists (FInsert qs).
  pose proof (trainer_outside s t Hs Hhold) as Hout.
  set (o' := Some _). constructor; simpl; try done.
  - apply (inv_other_move s (set_other s1 t o') t o' (pending_mutex s)); [apply Ho|done|done|].
    by left.
  - by rewrite Hf, app_assoc.
  - intros He. by rewrite He in Hout.
  - intros He. by rewrite He in Hout.
  - intros He. by rewrite He in Hout.
  - intros _. unfold o'. destruct (Z.leb_spec training_batch_size (len (pending_queries s ++ qs))); [right|by left].
    exists t. left. simpl. by rewrite lookup_partial_alter_eq.
Qed.

Lemma ostep_inv t s s' : 0 < training_batch_size → training_inv s → ostep t s s' → training_inv s'.
Proof.
  intros Hpos Hs Hstep.
  assert (∀ s, s = set_mutex s (pending_mutex s)) as Hid by by intros [].
  destruct Hstep as [s qs Ht Hm|s qs Ht|s n Ht|s n Ht|s Ht Hm|s Ht|s b Ht|s b Ht|s Ht|s Ht|s Ht|s Ht Hd
    |s Ht Hm|s Ht|s Ht].
  - by apply (other_quiet s _ t _ _ _ Hs Ht eq_refl); [right; left| |].
  - by apply other_insert.
  - apply (other_quiet s _ t _ _ _ Hs Ht eq_refl); [by right; right|by intros [= ->]|done].
  - destruct n; [by eapply other_notify|].
    apply (other_quiet s _ t _ None (pending_mutex s) Hs Ht); [by rewrite <-Hid|by left|done|done].
  - by apply (other_quiet s _ t _ _ _ Hs Ht eq_refl); [right; left| |].
  - by eapply other_take.
  - by apply (other_quiet s _ t _ _ _ Hs Ht eq_refl); [right; right| |].
  - apply (other_quiet s _ t _ None (pending_mutex s) Hs Ht); [by rewrite <-Hid|by left|done|done].
  - set (s1 := {| s with training_enabled := false |}).
    apply (other_quiet s1 _ t SEnabled (Some SStop) (pending_mutex s)); [|done|done|by left|done|done].
    by destruct Hs.
  - set (s1 := {| s with stop_training_thread := true |}).
    apply (other_quiet s1 _ t SStop (Some SNotify) (pending_mutex s)); [|done|done|by left|done|done].
    destruct Hs. constructor; try done. by left.
  - by eapply other_notify.
  - apply (other_quiet s _ t _ (Some SLock) (pending_mutex s) Hs Ht); [by rewrite <-Hid|by left|done|done].
  - by apply (other_quiet s _ t _ _ _ Hs Ht eq_refl); [right; left| |].
  - by eapply other_take.
  - by apply (other_quiet s _ t _ _ _ Hs Ht eq_refl); [right; right| |].
Qed.

Lemma training_next_inv s s' : 0 < training_batch_size → training_inv s → training_next s s' → training_inv s'.
Proof.
  intros Hpos Hs [Hstep|[Ht ->]]; [destruct Hstep as [s s' [s1 s2 Hw|t s1 s2 Ho]|s t o Ht Hc]|].
  - by eapply wstep_inv.
  - by eapply ostep_inv.
  - pose proof Hs as [Htr Ho Hf Hb Hsw Hst Hwt Hsl]. constructor; simpl; try done.
    + apply (inv_other_move s (set_other s t (Some o)) t (Some o) (pending_mutex s)); [apply Ho|done|done|].
      left. split; [done|]. split; [by destruct Hc|]. intros (? & Ho' & _). congruence.
    + intros Hsleep. destruct (Hsl Hsleep) as [|Hn]; [by left|right].
      apply (notifying_other s _ t (Some o)); [done|by rewrite Ht..|done].
  - pose proof Hs as [Htr Ho Hf Hb Hsw Hst Hwt Hsl]. constructor; simpl; try done.
    rewrite <-Htr, Ht. done.
Qed.

Lemma training_reachable_inv s :
  0 < training_batch_size → rtc training_next training_initial s → training_inv s.
Proof.
  intros Hpos Hr. assert (training_inv training_initial) as H0.
  { constructor; try done.
    intros t. split; [|done]. intros (o & Ho & _). simpl in Ho. by rewrite lookup_empty in Ho. }
  revert H0. induction Hr as [|s1 s2 s3 Hstep _ IH]; [done|]. intros H1.
  by apply IH, (training_next_inv s1).
Qed.

End TrainingThread.

(** ** Properties *)

(** C18. No sample is lost, duplicated or reordered: in every reachable state the
    samples flushed so far are the samples taken out (trained, handed to
    [ObserveBatch] by [FlushTraining] or cleared by [StopRebuilder]), in order,
    followed by the pending ones; every batch the training thread takes has at
    least [training_batch_size_] samples; and at most one thread is between
    locking and unlocking [pending_mutex_]. *)
Theorem training_samples_conserved training_batch_size s :
  0 < training_batch_size → rtc (training_next training_batch_size) training_initial s →
  flushed s = taken s ++ pending_queries s ∧
  Forall (λ b, training_batch_size ≤ len b) (batches s) ∧
  (∀ t u, holding s t → holding s u → t = u) ∧
  (∀ t, holding s t → trainer_holds (trainer s) = false).
Proof.
  intros Hpos Hr. pose proof (training_reachable_inv _ s Hpos Hr) as Hs.
  split; [apply (inv_flow _ s Hs)|]. split; [apply (inv_batches _ s Hs)|]. split.
  - intros t u Ht Hu. apply (inv_other _ s Hs) in Ht, Hu. congruence.
  - intros t. by apply (trainer_outside training_batch_size).
Qed.

Definition sample (n : Z) : Query := {| q_left := n; q_right := n; q_target := n; q_delta := 0 |}.

(** One step, and the state reached. *)
Ltac training_state :=
  match goal with |- rtc _ ?s _ => let s' := eval vm_compute in s in change s with s' end.
Ltac trainer_step :=
  eapply rtc_l; [left; apply next_move, move_trainer; solve [econstructor; by vm_compute]|]; training_state.
Ltac other_step t :=
  eapply rtc_l; [left; apply next_move, (move_other _ t); solve [econstructor; by vm_compute]|]; training_state.
Ltac other_call t o :=
  eapply rtc_l; [left; apply (next_call _ _ t o); [by vm_compute|by constructor]|]; training_state.

(** The thread sleeps; two flushes reach the batch size; the notification is
    still to come. *)
Lemma training_demo :
  ∃ s, rtc (training_next 2) training_initial s ∧ trainer s = WSleep ∧
    flushed s = [sample 3; sample 4; sample 5] ∧ pending_queries s = [sample 3; sample 4; sample 5] ∧
    others s !! 1%nat = Some (FNotify true).
Proof.
  eexists. split.
  - do 3 trainer_step. other_call 0%nat (FLock [sample 3]). do 4 other_step 0%nat.
    other_call 1%nat (FLock [sample 4; sample 5]). do 3 other_step 1%nat. apply rtc_refl.
  - by vm_compute.
Qed.

Lemma training_samples_conserved_witness :
  ∃ s, rtc (training_next 2) training_initial s ∧ flushed s = [sample 3; sample 4; sample 5] ∧
    flushed s = taken s ++ pending_queries s.
Proof.
  destruct training_demo as (s & Hr & _ & Hf & _). exists s. split; [exact Hr|]. split; [exact Hf|].
  apply (training_samples_conserved 2 s); [lia|exact Hr].
Defined.

(** C19. A flush never loses its wakeup: in every reachable state in which the
    training thread sleeps although a full batch is pending, some query is about
    to notify it, and that notification wakes it. *)
Theorem training_wakeup_not_lost training_batch_size s :
  0 < training_batch_size → rtc (training_next training_batch_size) training_initial s →
  trainer s = WSleep → training_batch_size ≤ len (pending_queries s) →
  ∃ t, others s !! t = Some (FUnlock true) ∨
    (others s !! t = Some (FNotify true) ∧
     ∃ s', ostep training_batch_size t s s' ∧ trainer s' = WReacquire).
Proof.
  intros Hpos Hr Hsleep Hfull. pose proof (training_reachable_inv _ s Hpos Hr) as Hs.
  destruct (inv_sleep _ s Hs Hsleep) as [|[t [Ht|Ht]]]; [lia| |]; exists t; [by left|right].
  split; [done|]. exists (set_other (notify s) t None). split; [by apply (f_notify _ t s true)|].
  simpl. unfold notify. by rewrite Hsleep.
Qed.

Lemma training_wakeup_not_lost_witness :
  ∃ s t, rtc (training_next 2) training_initial s ∧ trainer s = WSleep ∧
    (others s !! t = Some (FUnlock true) ∨
     (others s !! t = Some (FNotify true) ∧ ∃ s', ostep 2 t s s' ∧ trainer s' = WReacquire)).
Proof.
  destruct training_demo as (s & Hr & Hsleep & _ & Hp & _).
  destruct (training_wakeup_not_lost 2 s) as [t Ht]; [lia|exact Hr|exact Hsleep|rewrite Hp; by vm_compute|].
  exists s, t. exact (conj Hr (conj Hsleep Ht)).
Defined.

(** C20. [StopRebuilder] can lose its wakeup: it stores [stop_training_thread_]
    without holding [pending_mutex_], so the store and the notification may fall
    between the training thread's evaluation of the predicate and its wait. Then
    the training thread sleeps with the stop flag set, [StopRebuilder] waits for
    it in [join], and, spurious wakeups apart, no thread can ever move. *)
Theorem StopRebuilder_lost_wakeup :
  ∃ s, rtc (training_step 2) training_initial s ∧
    trainer s = WSleep ∧ stop_training_thread s = true ∧ others s = {[0%nat := SJoin]} ∧
    (∀ s', ¬ training_move 2 s s') ∧ (∀ qs, ¬ ocall s (FLock qs)).
Proof.
  eexists. split.
  - eapply rtc_l; [apply next_move, move_trainer; by constructor|].
    eapply rtc_l; [apply next_move, move_trainer; by constructor|].
    eapply rtc_l; [apply (next_call _ _ 0%nat SEnabled); [done|constructor]|].
    eapply rtc_l; [apply next_move, (move_other _ 0%nat), s_enabled; by vm_compute|].
    eapply rtc_l; [apply next_move, (move_other _ 0%nat), s_stop; by vm_compute|].
    eapply rtc_l; [apply next_move, (move_other _ 0%nat), s_notify; by vm_compute|].
    eapply rtc_l; [apply next_move, move_trainer, w_wait; by vm_compute|]. apply rtc_refl.
  - match goal with |- context [trainer ?s = _] => let s' := eval vm_compute in s in change s with s' end.
    split_and!; try done.
    + intros s' Hm. inversion Hm as [? ? Hw|t ? ? Ho]; [inversion Hw; simpl in *; congruence|].
      clear Hm. subst. destruct (decide (t = 0%nat)) as [->|Hne].
      * inversion Ho as [? ? H|? ? H|? ? H|? ? H|? H|? H|? ? H|? ? H|? H|? H|? H|? H Hd|? H|? H|? H]; subst;
          vm_compute in H; try discriminate H. discriminate Hd.
      * assert (∀ x, (({[0%nat := SJoin]} : gmap nat opc) !! t = Some x) → False) as Hno.
        { intros x. by rewrite lookup_singleton_ne. }
        inversion Ho; subst; by eapply Hno.
    + intros qs Hc. inversion Hc; subst. discriminate.
Qed.
