(* ===== verification/QueryLock.v ===== *)
(** What a lock promises to its clients.

    The three locks are interchangeable in the benchmarks: a client gives
    [WriteQuery] an interval and a function, and the function runs exactly once on
    the clamped and ordered interval. [QueryLock] states this promise for an
    object that is not being rebuilt and whose mutexes do not throw; the three
    classes are instances. [L] is the shared object and [Loc] are the
    [thread_local] variables of the calling thread: the sampling counter of
    [DynamicLock], the counter and the sample buffer of [GeneticLock]. *)
From S2P Require Import BlockMap RangeLock Sampling Random Chromosome GeneticPartitioner.
From S2P Require Import NaiveLock DynamicLock GeneticLock Prelude.

Class QueryLock (L Loc : Type) := {
  lock_size : L → Z;
  lock_operations : L → Z;
  lock_start : L → L;
  lock_stop : L → L;
  lock_write {D : Type} : Z → Z → Z → (Z → Z → D → D) → L * Loc * D → option (L * Loc * D);
  (** The variables of a thread that has made no call. *)
  lock_locals : Loc;
  (** No rebuild is going on and every mutex is free. *)
  lock_idle : L → Prop;
  lock_start_idle d : lock_idle d → lock_idle (lock_start d) ∧ lock_size (lock_start d) = lock_size d;
  lock_stop_idle d : lock_idle d → lock_idle (lock_stop d) ∧ lock_size (lock_stop d) = lock_size d;
  lock_write_once {D : Type} delta l r (func : Z → Z → D → D) d loc data :
    lock_idle d → 0 < lock_size d → is_u64 l → is_u64 r →
    ∃ d' loc', lock_write delta l r func (d, loc, data) =
        Some (d', loc', func (Z.min (Z.min l r) (lock_size d - 1)) (Z.min (Z.max l r) (lock_size d - 1)) data) ∧
      lock_idle d' ∧ lock_size d' = lock_size d ∧ lock_operations d' = lock_operations d +₆₄ 1
}.

(** No mutex throws. *)
Definition no_throw : Z → bool := λ _, false.

(** The end of a call that returned, without its outcome. *)
Definition returned {A B : Type} (r : option (outcome A * B)) : option B :=
  match r with Some (Returned _, b) => Some b | _ => None end.

Section Instances.
  Variables (kLockCnt kBlocks : Z).

(** *** [NaiveLock] *)

#[export] Instance naive_query_lock (HL : 0 < kLockCnt < modulus64) : QueryLock NaiveLock unit.
Proof.
  refine {| lock_size := n_array_size_; lock_operations := n_operation_count_;
            lock_start := naive_StartRebuilder; lock_stop := naive_StopRebuilder;
            lock_write D delta l r func st :=
              let '(d, _, data) := st in
              match returned (naive_WriteQuery kLockCnt 0 no_throw delta l r func (d, data)) with
              | Some (d, data) => Some (d, tt, data)
              | None => None
              end;
            lock_locals := tt;
            lock_idle := naive_ok kLockCnt |}; try done.
  intros D delta l r func d loc data Hd Hn Hl Hr.
  pose proof (naive_WriteQuery_eq kLockCnt HL 0 no_throw delta l r func d data Hd ltac:(lia) Hl Hr) as Hw.
  pose proof (proj1 Hd). unfold is_u64 in *. rewrite normalize_spec, existsb_never in Hw by lia.
  exists (naive_counted d delta), tt. split; [|by destruct Hd as (? & ? & ? & ?)].
  rewrite Hw. simpl. do 3 f_equal; lia.
Defined.

(** *** [DynamicLock] *)

#[export] Instance dynamic_query_lock (HL : 0 < kLockCnt) (HB : 0 < kBlocks) : QueryLock DynamicLock Z.
Proof.
  refine {| lock_size := DynamicLock.array_size_; lock_operations := DynamicLock.operation_count_;
            lock_start := DynamicLock.StartRebuilder; lock_stop := DynamicLock.StopRebuilder;
            lock_write D delta l r func st :=
              returned (DynamicLock.WriteQuery kBlocks 1 0 no_throw delta l r func st);
            lock_locals := 0;
            lock_idle d := dl_ok kLockCnt kBlocks d ∧ DynamicLock.pause_queries_ d = false |}.
  - intros d [Hd Hp]. unfold DynamicLock.StartRebuilder.
    destruct (rebuild_thread_ d); [done|]. split; [|done]. split; [|done]. by destruct Hd.
  - intros d [Hd Hp]. unfold DynamicLock.StopRebuilder.
    destruct (rebuild_thread_ _); (split; [|done]); (split; [|exact Hp]).
    all: by destruct Hd.
  - intros D delta l r func d c data [Hd Hp] Hn Hl Hr.
    pose proof (DynamicLock.ok_size _ _ d Hd). unfold DynamicLock.WriteQuery, is_u64 in *. cbn [fst].
    destruct (Z.eqb_spec (DynamicLock.array_size_ d) 0); [lia|]. rewrite normalize_spec by lia.
    rewrite (DynamicLock.query_loop_eq kLockCnt), existsb_never by done || lia.
    eexists _, _. split; [|split; [split; [by apply DynamicLock.counted_ok|]|]].
    + simpl. do 3 f_equal; lia.
    + unfold DynamicLock.counted. by destruct (ShouldSampleStats d c) as [[] ?].
    + unfold DynamicLock.counted. by destruct (ShouldSampleStats d c) as [[] ?].
Defined.

(** *** [GeneticLock] *)

#[export] Instance genetic_query_lock (this : nat) (HL : 0 < kLockCnt ≤ kBlocks) :
  QueryLock GeneticLock ThreadLocals.
Proof.
  refine {| lock_size := GeneticLock.array_size_; lock_operations := GeneticLock.operation_count_;
            lock_start := GeneticLock.StartRebuilder; lock_stop := GeneticLock.StopRebuilder;
            lock_write D delta l r func st :=
              returned (GeneticLock.WriteQuery kBlocks 1 this 0 no_throw delta l r func st);
            lock_locals := no_locals;
            lock_idle d := gl_ok kLockCnt kBlocks d ∧ GeneticLock.pause_queries_ d = false |}.
  - intros d [Hd Hp]. unfold GeneticLock.StartRebuilder.
    destruct (training_thread_ d); [done|]. split; [|done]. split; [|done]. by apply (same_core_ok _ _ d).
  - intros d [Hd Hp]. unfold GeneticLock.StopRebuilder.
    destruct (training_thread_ _); (split; [|done]); (split; [|exact Hp]).
    all: by apply (same_core_ok _ _ d).
  - intros D delta l r func d tl data [Hd Hp] Hn Hl Hr.
    pose proof (GeneticLock.ok_size _ _ d Hd). unfold GeneticLock.WriteQuery, is_u64 in *.
    destruct (Z.eqb_spec (GeneticLock.array_size_ d) 0); [lia|]. rewrite normalize_spec by lia.
    rewrite (GeneticLock.genetic_query_loop_eq kLockCnt), existsb_never by done || lia.
    destruct (sample_query _ _ _ _ _) as [[nt d'] tl'] eqn:Hs.
    pose proof (sample_query_core _ _ _ _ _ _ _ _ Hs) as Hcore.
    assert (GeneticLock.pause_queries_ d' = false ∧
      GeneticLock.operation_count_ d' = GeneticLock.operation_count_ d +₆₄ 1) as [Hp' Hops].
    { revert Hs. unfold sample_query, EnqueueTrainingSample, FlushTrainingSamples.
      destruct (ShouldSampleTraining _ _) as [[] ?]; [|by intros [= <- <- <-]].
      destruct (_ <=? _); [|by intros [= <- <- <-]]. by case_decide; intros [= <- <- <-]. }
    exists d', tl'. split; [|split; [split; [|done]|split; [apply Hcore|done]]].
    + simpl. do 3 f_equal; lia.
    + apply (same_core_ok _ _ (GeneticLock.counted d delta)); [done|]. by apply (same_core_ok _ _ d).
Defined.

End Instances.
