(* ===== verification/Adapter.v ===== *)
(** The set that the SetBench harness runs on top of a lock
    ([Benchmark-v700/cpp/ds/adaptive_lock/adapter_impl.h]).

    [AdapterImpl] stores the keys of [[key_min, key_max]] in arrays indexed by
    [key - key_min] and runs every operation inside [WriteQuery] of the lock it
    owns. The file is written against the interface [QueryLock]; [LockTraits] adds
    the constructor, with an instance per tag. The lambdas a method passes to
    [WriteQuery] become functions on what they capture: the arrays and one local
    variable. *)
From stdpp Require Import functions.
From S2P Require Import Double BlockMap RangeLock Sampling Chromosome GeneticPartitioner.
From S2P Require Import NaiveLock DynamicLock GeneticLock QueryLock Prelude.

(** ** The constants and the three locks *)

Definition kLockCount : Z := 64.
Definition kBlocks : Z := 1024.
Definition kStatsSampleRate : Z := 64.
Definition kMinSkew : double := d_of_Z 4.
Definition kGeneticProbeGap : Z := 1000000.
Definition kGeneticTrainingBatchSize : Z := 100000.
Definition kGeneticHistoryLimit : Z := 12000.
Definition kGeneticPopulationSize : Z := 24.
Definition kGeneticEliteCount : Z := 4.
Definition kGeneticGenerationCount : Z := 0.

(** [LockTraits<Tag>]: a lock with its constructor. *)
Class LockTraits (L Loc : Type) `{QL : QueryLock L Loc} := {
  Create : Z → L;
  Create_idle n : 0 < n < 2 ^ 63 →
    lock_idle (Create n) ∧ lock_size (Create n) = n ∧ lock_operations (Create n) = 0;
  lock_start_operations (d : L) : lock_operations (lock_start d) = lock_operations d
}.

(** ** The object *)

(** A [V]: a pointer to an entry of [stored_keys_], or a number. *)
Inductive Value :=
  | NullPtr
  | KeyAt (index : Z)
  | Number (z : Z).

(** The members that the closures change. *)
Record Arrays := {
  data_ : list Z;
  present_ : list Z;
  stored_keys_ : list Z;
  range_queries_ : Z
}.

Record AdapterImpl (L : Type) := {
  no_value_ : Value;
  key_min_ : Z;
  key_max_ : Z;
  array_size_ : Z;
  arrays : Arrays;
  thread_checksums_ : list Z;
  lock_ : L
}.
Arguments no_value_ {L}. Arguments key_min_ {L}. Arguments key_max_ {L}. Arguments array_size_ {L}.
Arguments arrays {L}. Arguments thread_checksums_ {L}. Arguments lock_ {L}.

(** The signed subtractions [key_max - key_min + 1] and [key - key_min] are exact:
    the theorems bound the interval. *)
Definition ComputeArraySize (key_min key_max : Z) : Z :=
  if key_max <=? key_min then 1 else u64 (key_max - key_min + 1).

Definition ToIndex {L} (a : AdapterImpl L) (key : Z) : Z :=
  if key <=? key_min_ a then 0
  else if key_max_ a <=? key then array_size_ a -₆₄ 1
  else u64 (key - key_min_ a).

Section Adapter.
  (** [std::is_pointer_v<V>], and otherwise the conversion of a key to [V]. *)
  Variables (value_is_pointer : bool) (to_V : Z → Z).
  Context {L Loc : Type} `{LT : LockTraits L Loc}.

Definition ValueForIndex (s : Arrays) (index : Z) : Value :=
  if value_is_pointer then KeyAt index else Number (to_V (stored_keys_ s).[index]).

Definition AdapterImpl_make (num_threads key_min key_max : Z) (no_value : Value) : AdapterImpl L :=
  let size := ComputeArraySize key_min key_max in
  {| no_value_ := no_value; key_min_ := key_min; key_max_ := key_max; array_size_ := size;
     arrays := {| data_ := replicate (Z.to_nat size) 0; present_ := replicate (Z.to_nat size) 0;
                  stored_keys_ := replicate (Z.to_nat size) key_min; range_queries_ := 0 |};
     thread_checksums_ := replicate (Z.to_nat (Z.max num_threads 1)) 0;
     lock_ := lock_start (Create size) |}.

(** [lock_->WriteQuery(left, right, func)], [func] capturing [arrays] and [local].
    A method takes the object and the calling thread's [thread_local]s. *)
Definition locked {R : Type} (delta : Z) (left right : Z) (func : Z → Z → Arrays * R → Arrays * R)
    (st : AdapterImpl L * Loc) (local : R) : option (R * (AdapterImpl L * Loc)) :=
  let '(a, loc) := st in
  match lock_write delta left right func (lock_ a, loc, (arrays a, local)) with
  | None => None
  | Some (d, loc, (s, local)) =>
      Some (local, ({| no_value_ := no_value_ a; key_min_ := key_min_ a; key_max_ := key_max_ a;
                       array_size_ := array_size_ a; arrays := s;
                       thread_checksums_ := thread_checksums_ a; lock_ := d |}, loc))
  end.

(** [present_[index] = 1; stored_keys_[index] = key; data_[index] = key]. *)
Definition store (index key : Z) (s : Arrays) : Arrays :=
  {| data_ := (data_ s).[index <- u64 key]; present_ := (present_ s).[index <- 1];
     stored_keys_ := (stored_keys_ s).[index <- key]; range_queries_ := range_queries_ s |}.

Definition insert (delta key : Z) (st : AdapterImpl L * Loc) : option (Value * (AdapterImpl L * Loc)) :=
  let index := ToIndex st.1 key in
  locked delta index index (λ _ _ '(s, previous),
    let previous := if (present_ s).[index] =? 0 then previous else ValueForIndex s index in
    (store index key s, previous)) st (no_value_ st.1).

Definition insertIfAbsent (delta key : Z) (st : AdapterImpl L * Loc) : option (Value * (AdapterImpl L * Loc)) :=
  let index := ToIndex st.1 key in
  locked delta index index (λ _ _ '(s, previous),
    if (present_ s).[index] =? 0 then (store index key s, previous)
    else (s, ValueForIndex s index)) st (no_value_ st.1).

Definition erase (delta key : Z) (st : AdapterImpl L * Loc) : option (Value * (AdapterImpl L * Loc)) :=
  let index := ToIndex st.1 key in
  locked delta index index (λ _ _ '(s, previous),
    if (present_ s).[index] =? 0 then (s, previous)
    else
      ({| data_ := (data_ s).[index <- 0]; present_ := (present_ s).[index <- 0];
          stored_keys_ := stored_keys_ s; range_queries_ := range_queries_ s |},
       ValueForIndex s index)) st (no_value_ st.1).

Definition find (delta key : Z) (st : AdapterImpl L * Loc) : option (Value * (AdapterImpl L * Loc)) :=
  let index := ToIndex st.1 key in
  locked delta index index (λ _ _ '(s, value),
    (s, if (present_ s).[index] =? 0 then value else ValueForIndex s index)) st (no_value_ st.1).

Definition contains (delta key : Z) (st : AdapterImpl L * Loc) : option (bool * (AdapterImpl L * Loc)) :=
  let index := ToIndex st.1 key in
  locked delta index index (λ _ _ '(s, _), (s, negb ((present_ s).[index] =? 0))) st false.

(** The closure of [rangeQuery]. *)
Definition range_body (locked_left locked_right : Z) (st : Arrays * Z) : Arrays * Z :=
  let '(s, _) := st in
  let update_index :=
    locked_left +₆₄ range_queries_ s `mod` (locked_right -₆₄ locked_left +₆₄ 1) in
  let data := (data_ s).[update_index <- (data_ s).[update_index] +₆₄ 1] in
  ({| data_ := data; present_ := present_ s; stored_keys_ := stored_keys_ s;
      range_queries_ := range_queries_ s +₆₄ 1 |},
   Z.lxor (Z.lxor data.[locked_left] (u64 (Z.shiftl data.[locked_right] 1))) data.[update_index]).

(** [thread_checksums_[tid] += local_checksum], for a [tid] in range. *)
Definition add_checksum (tid local_checksum : Z) (a : AdapterImpl L) : AdapterImpl L :=
  {| no_value_ := no_value_ a; key_min_ := key_min_ a; key_max_ := key_max_ a;
     array_size_ := array_size_ a; arrays := arrays a;
     thread_checksums_ :=
       if (0 <=? tid) && (tid <? len (thread_checksums_ a))
       then (thread_checksums_ a).[tid <- (thread_checksums_ a).[tid] +₆₄ local_checksum]
       else thread_checksums_ a;
     lock_ := lock_ a |}.

Definition rangeQuery (delta tid lo hi : Z) (st : AdapterImpl L * Loc) :
    option (Z * (AdapterImpl L * Loc)) :=
  let l := ToIndex st.1 lo in
  let r := ToIndex st.1 hi in
  let '(l, r) := if r <? l then (r, l) else (l, r) in
  match locked delta l r range_body st 0 with
  | None => None
  | Some (local_checksum, (a, loc)) => Some (0, (add_checksum tid local_checksum a, loc))
  end.

Definition testEnd (a : AdapterImpl L) : AdapterImpl L :=
  {| no_value_ := no_value_ a; key_min_ := key_min_ a; key_max_ := key_max_ a;
     array_size_ := array_size_ a; arrays := arrays a;
     thread_checksums_ := thread_checksums_ a; lock_ := lock_stop (lock_ a) |}.

(** [printSummary]: what it prints as [_range_queries] and as [_checksum]. *)
Definition printSummary (a : AdapterImpl L) : Z * Z :=
  (lock_operations (lock_ a), foldl Z.lxor 0 (thread_checksums_ a)).

(** ** A sequence of calls *)

Inductive op :=
  | Insert (key : Z)
  | InsertIfAbsent (key : Z)
  | Erase (key : Z)
  | Find (key : Z)
  | Contains (key : Z)
  | RangeQuery (tid lo hi : Z).

Inductive result := RValue (v : Value) | RBool (b : bool) | RInt (z : Z).

Definition apply_op (delta : Z) (o : op) (st : AdapterImpl L * Loc) :
    option (result * (AdapterImpl L * Loc)) :=
  let on_value r := match r with Some (v, st) => Some (RValue v, st) | None => None end in
  match o with
  | Insert key => on_value (insert delta key st)
  | InsertIfAbsent key => on_value (insertIfAbsent delta key st)
  | Erase key => on_value (erase delta key st)
  | Find key => on_value (find delta key st)
  | Contains key => match contains delta key st with Some (b, st) => Some (RBool b, st) | None => None end
  | RangeQuery tid lo hi =>
      match rangeQuery delta tid lo hi st with Some (z, st) => Some (RInt z, st) | None => None end
  end.

(** A call: the thread, the time it waits for the lock, and the operation. *)
Definition call : Type := nat * Z * op.

(** The calls of all threads in the order of their critical sections. *)
Fixpoint run (calls : list call) (a : AdapterImpl L) (locals : nat → Loc) :
    option (list result * AdapterImpl L) :=
  match calls with
  | [] => Some ([], a)
  | (thread, delta, o) :: calls =>
      match apply_op delta o (a, locals thread) with
      | None => None
      | Some (r, (a, loc)) =>
          match run calls a (<[thread := loc]> locals) with
          | None => None | Some (rs, a) => Some (r :: rs, a)
          end
      end
  end.

(** ** The abstract set *)

Section Spec.
  Variables (key_min : Z) (no_value : Value).

(** The value stored for a key that is in the set. *)
Definition value_of (key : Z) : Value :=
  if value_is_pointer then KeyAt (key - key_min) else Number (to_V key).

Definition spec_op (o : op) (keys : gset Z) : result * gset Z :=
  let old key := RValue (if decide (key ∈ keys) then value_of key else no_value) in
  match o with
  | Insert key | InsertIfAbsent key => (old key, {[key]} ∪ keys)
  | Erase key => (old key, keys ∖ {[key]})
  | Find key => (old key, keys)
  | Contains key => (RBool (bool_decide (key ∈ keys)), keys)
  | RangeQuery _ _ _ => (RInt 0, keys)
  end.

Fixpoint spec_run (calls : list call) (keys : gset Z) : list result * gset Z :=
  match calls with
  | [] => ([], keys)
  | (_, _, o) :: calls =>
      let '(r, keys) := spec_op o keys in
      let '(rs, keys) := spec_run calls keys in (r :: rs, keys)
  end.

End Spec.

Definition keys_of (o : op) : list Z :=
  match o with
  | Insert k | InsertIfAbsent k | Erase k | Find k | Contains k => [k]
  | RangeQuery _ _ _ => []
  end.

(** ** Refinement *)

(** The keys of the interval, and the ones outside of it, are stored at valid indices. *)
Record adapter_ok (a : AdapterImpl L) : Prop := {
  ok_interval : key_max_ a - key_min_ a + 1 < 2 ^ 63;
  ok_array_size : array_size_ a = Z.max 1 (key_max_ a - key_min_ a + 1);
  ok_data : len (data_ (arrays a)) = array_size_ a;
  ok_present : len (present_ (arrays a)) = array_size_ a;
  ok_stored : len (stored_keys_ (arrays a)) = array_size_ a;
  ok_idle : lock_idle (lock_ a);
  ok_lock_size : lock_size (lock_ a) = array_size_ a
}.

(** The arrays hold the set [keys]. *)
Definition holds (key_min n : Z) (keys : gset Z) (s : Arrays) : Prop :=
  (∀ i, 0 ≤ i < n → (present_ s).[i] = if decide (key_min + i ∈ keys) then 1 else 0) ∧
  (∀ i, 0 ≤ i < n → key_min + i ∈ keys → (stored_keys_ s).[i] = key_min + i).

Definition represents (a : AdapterImpl L) (keys : gset Z) : Prop :=
  adapter_ok a ∧ holds (key_min_ a) (array_size_ a) keys (arrays a).

Lemma ToIndex_range a key : adapter_ok a → 0 ≤ ToIndex a key < array_size_ a.
Proof.
  intros [H1 H2 _ _ _ _ _]. unfold ToIndex. zbool; word_unfold; rewrite ?Z.mod_small; lia.
Qed.

Lemma ToIndex_in_range a key :
  adapter_ok a → key_min_ a ≤ key ≤ key_max_ a → ToIndex a key = key - key_min_ a.
Proof.
  intros [H1 H2 _ _ _ _ _] Hk. unfold ToIndex. zbool; word_unfold; rewrite ?Z.mod_small; lia.
Qed.

(** What a call of the lock does to the object, when the closure keeps the sizes. *)
Lemma locked_eq {R : Type} delta l r (func : Z → Z → Arrays * R → Arrays * R) a loc local :
  adapter_ok a → 0 ≤ l ≤ r → r < array_size_ a →
  (∀ s' local', func l r (arrays a, local) = (s', local') →
    len (data_ s') = array_size_ a ∧ len (present_ s') = array_size_ a ∧
    len (stored_keys_ s') = array_size_ a) →
  ∃ a' loc', locked delta l r func (a, loc) local = Some ((func l r (arrays a, local)).2, (a', loc')) ∧
    adapter_ok a' ∧ arrays a' = (func l r (arrays a, local)).1 ∧ key_min_ a' = key_min_ a ∧
    key_max_ a' = key_max_ a ∧ array_size_ a' = array_size_ a ∧ no_value_ a' = no_value_ a ∧
    thread_checksums_ a' = thread_checksums_ a ∧
    lock_operations (lock_ a') = lock_operations (lock_ a) +₆₄ 1.
Proof.
  intros Ha Hl Hr Hlen. pose proof (ToIndex_range a (key_min_ a) Ha). destruct Ha.
  destruct (lock_write_once delta l r func (lock_ a) loc (arrays a, local))
    as (d' & loc' & Hw & Hidle & Hsize & Hops);
    [done|lia|unfold is_u64; rewrite modulus64_val; lia..|].
  unfold locked. rewrite Hw, ok_lock_size0. rewrite !Z.min_l, Z.max_r by lia.
  destruct (func l r (arrays a, local)) as [s' local'] eqn:Hf.
  destruct (Hlen s' local' eq_refl) as (? & ? & ?). eexists _, loc'. split; [done|]. simpl.
  split; [|done]. split; simpl; try done; congruence.
Qed.

Lemma holds_lookup kmin n keys s i :
  holds kmin n keys s → 0 ≤ i < n →
  ((present_ s).[i] =? 0) = negb (bool_decide (kmin + i ∈ keys)).
Proof. intros [Hp _] Hi. rewrite Hp by done. case_decide; case_bool_decide; done. Qed.

Lemma holds_value kmin n keys s i :
  holds kmin n keys s → 0 ≤ i < n → kmin + i ∈ keys →
  ValueForIndex s i = value_of kmin (kmin + i).
Proof.
  intros [_ Hs] Hi Hin. unfold ValueForIndex, value_of. rewrite Hs by done.
  destruct value_is_pointer; [|done]. f_equal; lia.
Qed.

Lemma holds_store kmin n keys s i :
  holds kmin n keys s → 0 ≤ i < n → len (present_ s) = n → len (stored_keys_ s) = n →
  holds kmin n ({[kmin + i]} ∪ keys) (store i (kmin + i) s).
Proof.
  intros [Hp Hs] Hi Hn1 Hn2. split; intros j Hj; simpl; rewrite get_set by lia.
  - destruct (Z.eqb_spec i j) as [->|]; [rewrite decide_True by (clear; set_solver); done|].
    rewrite Hp by done. assert (kmin + i ≠ kmin + j) as Hne by lia.
    apply decide_ext. clear -Hne. set_solver.
  - destruct (Z.eqb_spec i j) as [->|]; [done|]. assert (kmin + i ≠ kmin + j) as Hne by lia.
    intros Hin. apply Hs; [done|]. clear -Hne Hin. set_solver.
Qed.

Lemma holds_remove kmin n keys s i data :
  holds kmin n keys s → 0 ≤ i < n → len (present_ s) = n →
  holds kmin n (keys ∖ {[kmin + i]})
    {| data_ := data; present_ := (present_ s).[i <- 0]; stored_keys_ := stored_keys_ s;
       range_queries_ := range_queries_ s |}.
Proof.
  intros [Hp Hs] Hi Hn. split; intros j Hj; simpl; [rewrite get_set by lia|].
  - destruct (Z.eqb_spec i j) as [->|]; [rewrite decide_False by (clear; set_solver); done|].
    rewrite Hp by done. assert (kmin + i ≠ kmin + j) as Hne by lia.
    apply decide_ext. clear -Hne. set_solver.
  - intros Hin. apply Hs; [done|]. clear -Hin. set_solver.
Qed.

Lemma holds_arrays kmin n keys s s' :
  holds kmin n keys s → present_ s' = present_ s → stored_keys_ s' = stored_keys_ s →
  holds kmin n keys s'.
Proof. intros [Hp Hs] H1 H2. split; intros i; rewrite ?H1, ?H2; auto. Qed.

(** What a call leaves unchanged, apart from the count of operations. *)
Definition same_object (a a' : AdapterImpl L) : Prop :=
  key_min_ a' = key_min_ a ∧ key_max_ a' = key_max_ a ∧ no_value_ a' = no_value_ a ∧
  lock_operations (lock_ a') = lock_operations (lock_ a) +₆₄ 1.

(** One call refines one operation of the set. *)
Definition refines (keys : gset Z) (a : AdapterImpl L) (o : op)
    (r : option (result * (AdapterImpl L * Loc))) : Prop :=
  ∃ a' loc', r = Some ((spec_op (key_min_ a) (no_value_ a) o keys).1, (a', loc')) ∧
    represents a' (spec_op (key_min_ a) (no_value_ a) o keys).2 ∧ same_object a a'.

(** The calls on one key: the closure turns the arrays and the local variable as the
    operation turns the set and the result. *)
Lemma point_refines {R : Type} (wrap : R → result) delta key o keys a loc
    (func : Z → Z → Arrays * R → Arrays * R) local :
  represents a keys → key_min_ a ≤ key ≤ key_max_ a →
  (∀ i s, i = ToIndex a key → i = key - key_min_ a → 0 ≤ i < array_size_ a → holds (key_min_ a) (array_size_ a) keys s →
    len (data_ s) = array_size_ a → len (present_ s) = array_size_ a →
    len (stored_keys_ s) = array_size_ a →
    let '(s', local') := func i i (s, local) in
    len (data_ s') = array_size_ a ∧ len (present_ s') = array_size_ a ∧
    len (stored_keys_ s') = array_size_ a ∧
    spec_op (key_min_ a) (no_value_ a) o keys =
      (wrap local', (spec_op (key_min_ a) (no_value_ a) o keys).2) ∧
    holds (key_min_ a) (array_size_ a) (spec_op (key_min_ a) (no_value_ a) o keys).2 s') →
  refines keys a o
    match locked delta (ToIndex a key) (ToIndex a key) func (a, loc) local with
    | Some (v, st) => Some (wrap v, st) | None => None
    end.
Proof.
  intros [Ha Hh] Hk Hf. pose proof (ToIndex_range a key Ha) as Hi.
  specialize (Hf _ (arrays a) eq_refl (ToIndex_in_range a key Ha Hk) Hi Hh
    (ok_data a Ha) (ok_present a Ha) (ok_stored a Ha)).
  destruct (locked_eq delta (ToIndex a key) (ToIndex a key) func a loc local) as
    (a' & loc' & -> & Ha' & Harr & H1 & H2 & H3 & H4 & _ & H5); [done|lia..| |].
  - intros s' local' Heq. rewrite Heq in Hf. tauto.
  - destruct (func _ _ _) as [s' local']. destruct Hf as (_ & _ & _ & Hspec & Hh').
    exists a', loc'. rewrite Hspec. simpl. split; [done|]. split; [|done].
    split; [done|]. rewrite H1, H3, Harr. exact Hh'.
Qed.

Lemma holds_insert_present kmin n keys s k :
  k ∈ keys → holds kmin n keys s → holds kmin n ({[k]} ∪ keys) s.
Proof. intros Hk. by replace ({[k]} ∪ keys) with keys by (clear -Hk; set_solver). Qed.

Lemma holds_erase_absent kmin n keys s k :
  k ∉ keys → holds kmin n keys s → holds kmin n (keys ∖ {[k]}) s.
Proof. intros Hk. by replace (keys ∖ {[k]}) with keys by (clear -Hk; set_solver). Qed.

(** [rangeQuery] locks the interval between the two indices and adds one to one
    position of it; which one is chosen by the count of range queries. *)
Lemma rangeQuery_eq delta tid lo hi a loc :
  adapter_ok a →
  let l := Z.min (ToIndex a lo) (ToIndex a hi) in
  let r := Z.max (ToIndex a lo) (ToIndex a hi) in
  ∃ a' loc', rangeQuery delta tid lo hi (a, loc) = Some (0, (a', loc')) ∧ adapter_ok a' ∧ same_object a a' ∧
    arrays a' = (range_body l r (arrays a, 0)).1 ∧ array_size_ a' = array_size_ a ∧
    thread_checksums_ a' =
      thread_checksums_ (add_checksum tid (range_body l r (arrays a, 0)).2 a).
Proof.
  intros Ha l r. pose proof (ToIndex_range a lo Ha). pose proof (ToIndex_range a hi Ha).
  assert ((if ToIndex a hi <? ToIndex a lo then (ToIndex a hi, ToIndex a lo)
           else (ToIndex a lo, ToIndex a hi)) = (l, r)) as Hlr
    by (unfold l, r; zbool; f_equal; lia).
  unfold rangeQuery. cbn [fst]. rewrite Hlr.
  destruct (locked_eq delta l r range_body a loc 0) as
    (a' & loc' & -> & Ha' & Harr & H1 & H2 & H3 & H4 & H5 & H6); [done|lia..| |].
  - intros s' local'. simpl. intros [= <- _]. simpl. rewrite len_set. by destruct Ha.
  - eexists _, loc'. split; [done|]. unfold add_checksum. simpl. rewrite H5.
    split; [by destruct Ha'|]. by split; [|split].
Qed.

Lemma apply_op_refines delta o keys a loc :
  represents a keys → Forall (λ k, key_min_ a ≤ k ≤ key_max_ a) (keys_of o) →
  refines keys a o (apply_op delta o (a, loc)).
Proof.
  intros Hrep Hk.
  destruct o as [key|key|key|key|key|tid lo hi]; simpl in Hk;
    [rewrite Forall_singleton in Hk..|].
  1-4: apply (point_refines RValue); [exact Hrep|exact Hk|].
  5: apply (point_refines RBool); [exact Hrep|exact Hk|].
  1-5: intros i s Hi Hk' Hrange Hh Hd Hp Hs; cbn [fst]; rewrite <-Hi;
    assert (key = key_min_ a + i) as -> by lia; clear Hi Hk';
    cbn beta iota zeta; rewrite (holds_lookup _ _ _ _ _ Hh Hrange);
    unfold spec_op; case_bool_decide as Hin; cbn [negb fst snd];
    [rewrite ?(holds_value _ _ _ _ _ Hh Hrange Hin), ?decide_True by done
    |rewrite ?decide_False by done].
  1-10: split_and!; rewrite ?len_set; try done; simpl; rewrite ?len_set; try done;
    first [by apply holds_store|by apply holds_remove|by apply holds_insert_present
          |by apply holds_erase_absent].
  destruct Hrep as [Ha Hh].
  destruct (rangeQuery_eq delta tid lo hi a loc Ha) as (a' & loc' & Hr & Ha' & Hsame & Harr & Hn & _).
  exists a', loc'. simpl. rewrite Hr. split; [done|]. split; [|done]. split; [done|].
  destruct Hsame as (-> & _). rewrite Hn. apply (holds_arrays _ _ _ (arrays a)); [done| |];
    by rewrite Harr.
Qed.

Lemma run_refines calls : ∀ keys a locals c,
  represents a keys → lock_operations (lock_ a) = u64 c →
  Forall (λ p : call, Forall (λ k, key_min_ a ≤ k ≤ key_max_ a) (keys_of p.2)) calls →
  ∃ a', run calls a locals = Some ((spec_run (key_min_ a) (no_value_ a) calls keys).1, a') ∧
    represents a' (spec_run (key_min_ a) (no_value_ a) calls keys).2 ∧
    lock_operations (lock_ a') = u64 (c + len calls).
Proof.
  induction calls as [|[[thread delta] o] calls IH]; intros keys a locals c Hrep Hc Hcalls.
  - exists a. rewrite Z.add_0_r. by split.
  - apply Forall_cons in Hcalls as [Ho Hcalls]. simpl in Ho.
    destruct (apply_op_refines delta o keys a (locals thread) Hrep Ho)
      as (a1 & loc & Hr & Hrep1 & H1 & H2 & H3 & H4).
    cbn [run spec_run]. rewrite Hr. destruct (spec_op _ _ o keys) as [r keys1]. simpl in *.
    destruct (IH keys1 a1 (<[thread := loc]> locals) (c + 1) Hrep1) as (a2 & Hr2 & Hrep2 & Hc2).
    + rewrite H4, Hc. apply u64_add_idemp_l.
    + by rewrite H1, H2.
    + rewrite H1, H3 in Hr2, Hrep2. rewrite Hr2. exists a2.
      destruct (spec_run _ _ calls keys1) as [rs keys2]. split; [done|]. split; [done|].
      rewrite Hc2, len_cons. f_equal. lia.
Qed.

Lemma ComputeArraySize_spec key_min key_max :
  key_max - key_min + 1 < 2 ^ 63 →
  ComputeArraySize key_min key_max = Z.max 1 (key_max - key_min + 1).
Proof. intros H. unfold ComputeArraySize. zbool; word_unfold; rewrite ?Z.mod_small; lia. Qed.

Lemma AdapterImpl_make_represents num_threads key_min key_max no_value :
  key_max - key_min + 1 < 2 ^ 63 →
  let a := AdapterImpl_make num_threads key_min key_max no_value in
  represents a ∅ ∧ lock_operations (lock_ a) = u64 0.
Proof.
  intros Hint a. pose proof (ComputeArraySize_spec key_min key_max Hint) as Hsize. unfold a.
  unfold AdapterImpl_make. set (n := ComputeArraySize key_min key_max) in *.
  destruct (Create_idle n) as (Hidle & Hn & Hops); [lia|].
  destruct (lock_start_idle _ Hidle) as [Hidle' Hn']. split.
  - split; [split|split]; simpl; rewrite ?len_replicate; try done; try lia.
    intros i Hi. rewrite get_replicate by lia. done.
  - simpl. by rewrite lock_start_operations.
Qed.

End Adapter.

(** ** The three instances *)

Lemma kLockCount_range : 0 < kLockCount < modulus64.
Proof. by vm_compute. Qed.

Lemma kLockCount_blocks : 0 < kLockCount ≤ kBlocks.
Proof. by vm_compute. Qed.

#[export] Instance naive_adapter_lock : QueryLock NaiveLock unit :=
  naive_query_lock kLockCount kLockCount_range.

#[export] Instance dynamic_adapter_lock : QueryLock DynamicLock Z :=
  dynamic_query_lock kLockCount kBlocks (proj1 kLockCount_range) eq_refl.

#[export] Instance genetic_adapter_lock : QueryLock GeneticLock ThreadLocals :=
  genetic_query_lock kLockCount kBlocks 0 kLockCount_blocks.

#[export] Instance NaiveTag : LockTraits NaiveLock unit.
Proof.
  refine {| Create := naive_make kLockCount |}; [|done].
  intros n Hn. split; [|done].
  apply naive_make_ok; [exact kLockCount_range|lia|]. rewrite modulus64_val. unfold kLockCount. lia.
Defined.

#[export] Instance DynamicTag : LockTraits DynamicLock Z.
Proof.
  refine {| Create n := DynamicLock.make kLockCount kBlocks n kStatsSampleRate d_one kMinSkew |}.
  - intros n Hn. split; [|done]. split; [|done].
    apply DynamicLock.make_ok; [done..|]. unfold is_u64. rewrite modulus64_val. lia.
  - intros d. simpl. unfold DynamicLock.StartRebuilder. by destruct (rebuild_thread_ _).
Defined.

#[export] Instance GeneticTag : LockTraits GeneticLock ThreadLocals.
Proof.
  refine {| Create n :=
    GeneticLock.make kLockCount kBlocks n kGeneticTrainingBatchSize kGeneticHistoryLimit
      kGeneticPopulationSize kGeneticEliteCount kGeneticGenerationCount kStatsSampleRate kMinSkew
      kGeneticProbeGap |}.
  - intros n Hn. split; [|done]. split; [|done].
    apply GeneticLock.genetic_make_ok; [done..| |done]. unfold is_u64. rewrite modulus64_val. lia.
  - intros d. simpl. unfold GeneticLock.StartRebuilder. by destruct (training_thread_ _).
Defined.

(** ** Properties *)

(** C24. [AdapterImpl] on any of the locks is a set of the keys of [[key_min,
    key_max]]: after any sequence of calls of any threads with such keys, started
    from the constructor, every call has returned what the set says (the stored
    key, as a pointer to its entry or as a number, if the key was present,
    [no_value] otherwise) and the arrays represent the set of the abstract
    operations. What [printSummary] prints as [_range_queries] is the number of
    all the calls, not of the range queries. *)
Theorem Adapter_refines_set {L Loc : Type} `{LT : LockTraits L Loc} value_is_pointer to_V num_threads
    key_min key_max no_value calls locals :
  key_max - key_min + 1 < 2 ^ 63 →
  Forall (λ p : call, Forall (λ k, key_min ≤ k ≤ key_max) (keys_of p.2)) calls →
  let spec := spec_run value_is_pointer to_V key_min no_value calls ∅ in
  ∃ a, run value_is_pointer to_V calls (AdapterImpl_make num_threads key_min key_max no_value) locals =
      Some (spec.1, a) ∧
    represents a spec.2 ∧ (printSummary a).1 = u64 (len calls).
Proof.
  intros Hint Hcalls spec.
  destruct (AdapterImpl_make_represents num_threads key_min key_max no_value Hint) as [Hrep Hc].
  exact (run_refines value_is_pointer to_V calls ∅ _ locals 0 Hrep Hc Hcalls).
Qed.

Definition example_calls : list call :=
  [(0%nat, 1, Insert 12); (1%nat, 2, InsertIfAbsent 12); (0%nat, 1, Contains 10);
   (1%nat, 4, RangeQuery 0 10 99); (0%nat, 1, Erase 12); (1%nat, 3, Find 12)].

Lemma Adapter_refines_set_witness :
  ∃ a, run (L := NaiveLock) (Loc := unit) true id example_calls (AdapterImpl_make 2 10 19 NullPtr) (λ _, tt) =
      Some ([RValue NullPtr; RValue (KeyAt 2); RBool false; RInt 0; RValue (KeyAt 2); RValue NullPtr], a) ∧
    represents a ∅ ∧ (printSummary a).1 = 6.
Proof.
  destruct (Adapter_refines_set (L := NaiveLock) true id 2 10 19 NullPtr example_calls (λ _, tt))
    as (a & Hr & Hrep & Hc); [lia|repeat constructor; simpl; lia|].
  exists a. split; [exact Hr|]. split; [exact Hrep|exact Hc].
Defined.
