(* ===== verification/Rng.v ===== *)
(** The deterministic generators of the benchmarks.

    [FastRng] ([benchmarks/adaptive_lock_benchmark.cpp]) is the SplitMix64
    generator, which SetBench also uses to seed its xoshiro256+ generator
    [Random64] ([Benchmark-v700/cpp/common/random_xoshiro256p.h]). Both are
    definitions that run. The theorems: the mixing function and the xoshiro step
    are bijections, with their inverses; from that, the outputs of a [FastRng]
    repeat only after [2^64] draws, and a seeded [Random64] never reaches the
    state that only gives zeros. *)
From S2P Require Import Prelude.

(** ** [FastRng] *)

Definition golden_gamma : Z := 11400714819323198485.
Definition mix_multiplier_1 : Z := 13787848793156543929.
Definition mix_multiplier_2 : Z := 10723151780598845931.

(** [value ^ (value >> k)] *)
Definition xorshift (k value : Z) : Z := Z.lxor value (Z.shiftr value k).

Definition mix (value : Z) : Z :=
  let value := xorshift 30 value *₆₄ mix_multiplier_1 in
  let value := xorshift 27 value *₆₄ mix_multiplier_2 in
  xorshift 31 value.

Record FastRng := { state : Z }.

Definition FastRng_Next (r : FastRng) : Z * FastRng :=
  let s := state r +₆₄ golden_gamma in (mix s, {| state := s |}).

Definition FastRng_Uniform (r : FastRng) (bound : Z) : Z * FastRng :=
  if bound =? 0 then (0, r)
  else let '(v, r) := FastRng_Next r in (v `mod` bound, r).

Definition thread_seed_multiplier : Z := 15111065706836454659.

Definition ThreadSeed (seed thread_index : Z) : Z :=
  Z.lxor seed (thread_seed_multiplier *₆₄ (thread_index +₆₄ 1)).

(** ** [InitSplitMixer] and [Random64] *)

(** One draw of [InitSplitMixer]: the output and the new [s]. *)
Definition InitSplitMixer_next (s : Z) : Z * Z :=
  let s := s +₆₄ golden_gamma in (mix s, s).

Record Random64 := { s0 : Z; s1 : Z; s2 : Z; s3 : Z }.

(** [(x << k) | (x >> (64 - k))] *)
Definition rol64 (x k : Z) : Z := Z.lor (u64 (Z.shiftl x k)) (Z.shiftr x (64 - k)).

Definition max_value : Z := u64 (Z.shiftl 1 53).

Definition setSeed (seed : Z) : Random64 :=
  let '(a, seed) := InitSplitMixer_next seed in
  let '(b, seed) := InitSplitMixer_next seed in
  let '(c, seed) := InitSplitMixer_next seed in
  let '(d, _) := InitSplitMixer_next seed in
  {| s0 := a; s1 := b; s2 := c; s3 := d |}.

Definition Random64_next (r : Random64) : Z * Random64 :=
  let result := s0 r +₆₄ s3 r in
  let t := u64 (Z.shiftl (s1 r) 17) in
  let s2' := Z.lxor (s2 r) (s0 r) in
  let s3' := Z.lxor (s3 r) (s1 r) in
  let s1' := Z.lxor (s1 r) s2' in
  let s0' := Z.lxor (s0 r) s3' in
  let s2' := Z.lxor s2' t in
  let s3' := rol64 s3' 45 in
  (Z.shiftr result 11, {| s0 := s0'; s1 := s1'; s2 := s2'; s3 := s3' |}).

(** [next(n)]; the modulus is not defined for [n = 0]. *)
Definition Random64_next_below (r : Random64) (n : Z) : Z * Random64 :=
  let '(v, r) := Random64_next r in (v `mod` n, r).

(** ** Inverses *)

Definition unxorshift (k value : Z) : Z :=
  Z.lxor (Z.lxor value (Z.shiftr value k)) (Z.shiftr value (2 * k)).

Definition unmix (value : Z) : Z :=
  let value := unxorshift 31 value *₆₄ 3573116690164977347 in
  let value := unxorshift 27 value *₆₄ 10871156337175269513 in
  unxorshift 30 value.

(** The inverse of [x ^ (x << 17)]. *)
Definition unxorshl17 (y : Z) : Z :=
  u64 (Z.lxor (Z.lxor y (Z.shiftl y 17)) (Z.lxor (Z.shiftl y 34) (Z.shiftl y 51))).

Definition Random64_prev (r : Random64) : Random64 :=
  let x3 := rol64 (s3 r) 19 in
  let a := Z.lxor (s0 r) x3 in
  let b := unxorshl17 (Z.lxor (s1 r) (s2 r)) in
  let x2 := Z.lxor (s2 r) (u64 (Z.shiftl b 17)) in
  {| s0 := a; s1 := b; s2 := Z.lxor x2 a; s3 := Z.lxor x3 b |}.

(** ** Bits of words *)

Lemma u64_land z : u64 z = Z.land z (Z.ones 64).
Proof. unfold u64, modulus64. by rewrite Z.land_ones. Qed.

Lemma is_u64_bits z : (∀ n, 64 ≤ n → Z.testbit z n = false) → is_u64 z.
Proof.
  intros Hb. assert (u64 z = z) as <-; [|apply u64_range].
  rewrite u64_land. apply Z.bits_inj'. intros n Hn.
  rewrite Z.land_spec, Z.testbit_ones by lia. destruct (Z.ltb_spec n 64).
  - by rewrite (proj2 (Z.leb_le 0 n)), andb_true_r by lia.
  - by rewrite (Hb n) by lia.
Qed.

Lemma u64_high_bit z n : is_u64 z → 64 ≤ n → Z.testbit z n = false.
Proof.
  intros Hz Hn. rewrite <-(u64_small z Hz), u64_land, Z.land_spec, Z.testbit_ones by lia.
  rewrite (proj2 (Z.ltb_ge n 64)) by lia. by rewrite !andb_false_r.
Qed.

Lemma lxor_u64 a b : is_u64 a → is_u64 b → is_u64 (Z.lxor a b).
Proof.
  intros Ha Hb. apply is_u64_bits. intros n Hn. by rewrite Z.lxor_spec, !u64_high_bit.
Qed.

Lemma shiftr_u64 a k : is_u64 a → 0 ≤ k → is_u64 (Z.shiftr a k).
Proof.
  intros Ha Hk. apply is_u64_bits. intros n Hn. rewrite Z.shiftr_spec by lia. apply u64_high_bit; [done|lia].
Qed.

Lemma rol64_u64 x k : is_u64 x → 0 ≤ k ≤ 64 → is_u64 (rol64 x k).
Proof.
  intros Hx Hk. apply is_u64_bits. intros n Hn. unfold rol64. rewrite Z.lor_spec, Z.shiftr_spec, (u64_high_bit _ n (u64_range _)) by lia.
  apply u64_high_bit; [done|lia].
Qed.

#[export] Hint Resolve lxor_u64 shiftr_u64 rol64_u64 : word.

Lemma shiftr_out x k : is_u64 x → 64 ≤ k → Z.shiftr x k = 0.
Proof.
  intros Hx Hk. apply Z.bits_inj'. intros n Hn. rewrite Z.shiftr_spec, Z.bits_0 by done.
  apply u64_high_bit; [done|lia].
Qed.

(** ** The mixing function is a bijection *)

Lemma lxor_cancel a b : Z.lxor a (Z.lxor a b) = b.
Proof. by rewrite <-Z.lxor_assoc, Z.lxor_nilpotent, Z.lxor_0_l. Qed.

Lemma unxorshift_xorshift k x : is_u64 x → 22 ≤ k → unxorshift k (xorshift k x) = x.
Proof.
  intros Hx Hk. unfold unxorshift, xorshift.
  rewrite !Z.shiftr_lxor, !Z.shiftr_shiftr by lia.
  rewrite (shiftr_out x (k + 2 * k)), Z.lxor_0_r by (done || lia).
  replace (k + k) with (2 * k) by lia.
  by rewrite !Z.lxor_assoc, lxor_cancel, Z.lxor_nilpotent, Z.lxor_0_r.
Qed.

Lemma xorshift_unxorshift k y : is_u64 y → 22 ≤ k → xorshift k (unxorshift k y) = y.
Proof.
  intros Hx Hk. unfold unxorshift, xorshift.
  rewrite !Z.shiftr_lxor, !Z.shiftr_shiftr by lia.
  rewrite (shiftr_out y (2 * k + k)), Z.lxor_0_r by (done || lia).
  replace (k + k) with (2 * k) by lia.
  by rewrite !Z.lxor_assoc, <-(Z.lxor_assoc (Z.shiftr y k)), Z.lxor_nilpotent, Z.lxor_0_r.
Qed.

Lemma mul_inverse a b x : (a * b) mod modulus64 = 1 → is_u64 x → x *₆₄ a *₆₄ b = x.
Proof.
  intros Hab Hx. unfold u64_mul, u64. rewrite Z.mul_mod_idemp_l by done.
  rewrite <-Z.mul_assoc, <-Z.mul_mod_idemp_r, Hab, Z.mul_1_r by done. by apply Z.mod_small.
Qed.

Lemma xorshift_u64 k x : is_u64 x → 0 ≤ k → is_u64 (xorshift k x).
Proof. unfold xorshift. auto with word. Qed.

Lemma unxorshift_u64 k x : is_u64 x → 0 ≤ k → is_u64 (unxorshift k x).
Proof. unfold unxorshift. auto with word zarith. Qed.

Lemma mix_u64 x : is_u64 x → is_u64 (mix x).
Proof. intros Hx. unfold mix. apply xorshift_u64; [apply u64_mul_range|lia]. Qed.

Lemma unmix_mix x : is_u64 x → unmix (mix x) = x.
Proof.
  intros Hx. unfold unmix, mix. rewrite unxorshift_xorshift by (lia || apply u64_mul_range).
  rewrite mul_inverse; [|by vm_compute|apply xorshift_u64; [apply u64_mul_range|lia]].
  rewrite unxorshift_xorshift by (lia || apply u64_mul_range).
  rewrite mul_inverse; [|by vm_compute|by apply xorshift_u64].
  by apply unxorshift_xorshift.
Qed.

Lemma mix_unmix y : is_u64 y → mix (unmix y) = y.
Proof.
  intros Hy. unfold unmix, mix.
  rewrite xorshift_unxorshift by (lia || apply u64_mul_range).
  rewrite mul_inverse; [|by vm_compute|apply unxorshift_u64; [apply u64_mul_range|lia]].
  rewrite xorshift_unxorshift by (lia || apply u64_mul_range).
  rewrite mul_inverse; [|by vm_compute|by apply unxorshift_u64].
  by apply xorshift_unxorshift.
Qed.

(** ** The state sequence of [FastRng] *)

(** The [n]-th output, from 0, and the generator after it. *)
Fixpoint nth_output (r : FastRng) (n : nat) : Z * FastRng :=
  match n with
  | O => FastRng_Next r
  | S n' => nth_output (FastRng_Next r).2 n'
  end.

Lemma nth_output_eq n : ∀ r,
  (nth_output r n).1 = mix (u64 (state r + golden_gamma * (Z.of_nat n + 1))).
Proof.
  induction n as [|n IH]; intros r; cbn [nth_output].
  - unfold FastRng_Next, u64_add. simpl. by do 2 f_equal.
  - rewrite IH. unfold FastRng_Next, u64_add. simpl. rewrite u64_add_idemp_l. do 2 f_equal. lia.
Qed.

(** The increment is odd, so its multiples below [2^64] are different. *)
Lemma gamma_multiples a i j :
  is_u64 i → is_u64 j → u64 (a + golden_gamma * i) = u64 (a + golden_gamma * j) → i = j.
Proof.
  intros Hi Hj Heq.
  assert (∀ k, is_u64 k → u64 ((u64 (a + golden_gamma * k) - a) * 17428512612931826493) = k) as Hinv.
  { intros k Hk. unfold u64. rewrite <-Z.mul_mod_idemp_l, Zminus_mod_idemp_l by done.
    replace (a + golden_gamma * k - a) with (golden_gamma * k) by lia.
    rewrite Z.mul_mod_idemp_l by done.
    replace (golden_gamma * k * 17428512612931826493)
      with (k * (golden_gamma * 17428512612931826493)) by lia.
    rewrite <-Z.mul_mod_idemp_r by done.
    replace ((golden_gamma * 17428512612931826493) `mod` modulus64) with 1 by (by vm_compute).
    rewrite Z.mul_1_r. by apply Z.mod_small. }
  by rewrite <-(Hinv i Hi), <-(Hinv j Hj), Heq.
Qed.

(** ** The xoshiro step is a bijection *)

Lemma u64_bit z n : 0 ≤ n → Z.testbit (u64 z) n = (n <? 64) && Z.testbit z n.
Proof.
  intros Hn. rewrite u64_land, Z.land_spec, Z.testbit_ones by lia.
  rewrite (proj2 (Z.leb_le 0 n)) by lia. apply andb_comm.
Qed.

Lemma rol64_bit x k n :
  is_u64 x → 0 < k < 64 → 0 ≤ n < 64 →
  Z.testbit (rol64 x k) n = Z.testbit x (if n <? k then n + 64 - k else n - k).
Proof.
  intros Hx Hk Hn. unfold rol64.
  rewrite Z.lor_spec, u64_bit, Z.shiftl_spec, Z.shiftr_spec, (proj2 (Z.ltb_lt n 64)) by lia.
  destruct (Z.ltb_spec n k).
  - rewrite (Z.testbit_neg_r x (n - k)) by lia. simpl. f_equal. lia.
  - rewrite (u64_high_bit x (n + (64 - k))), orb_false_r by (done || lia). done.
Qed.

Lemma rol64_rol64 x k : is_u64 x → 0 < k < 64 → rol64 (rol64 x k) (64 - k) = x.
Proof.
  intros Hx Hk. apply Z.bits_inj'. intros n Hn. destruct (Z.lt_ge_cases n 64).
  - rewrite !rol64_bit; try (zbool; lia); [|done|by apply rol64_u64; [|lia]..].
    f_equal. zbool; lia.
  - by rewrite !u64_high_bit by auto with word zarith.
Qed.

Lemma u64_lxor a b : u64 (Z.lxor a b) = Z.lxor (u64 a) (u64 b).
Proof.
  apply Z.bits_inj'. intros n Hn. rewrite Z.lxor_spec, !u64_bit, Z.lxor_spec by done.
  by destruct (n <? 64), (Z.testbit a n), (Z.testbit b n).
Qed.

Lemma shiftl_u64 x k : 0 ≤ k → u64 (Z.shiftl (u64 x) k) = u64 (Z.shiftl x k).
Proof.
  intros Hk. apply Z.bits_inj'. intros n Hn. rewrite !u64_bit, !Z.shiftl_spec by done.
  destruct (Z.ltb_spec n 64); [|done]. destruct (Z.lt_ge_cases n k).
  - by rewrite !(Z.testbit_neg_r _ (n - k)) by lia.
  - rewrite u64_bit, (proj2 (Z.ltb_lt (n - k) 64)) by lia. done.
Qed.

Lemma shiftl_out x k : 64 ≤ k → u64 (Z.shiftl x k) = 0.
Proof.
  intros Hk. apply Z.bits_inj'. intros n Hn. rewrite u64_bit, Z.shiftl_spec, Z.bits_0 by done.
  destruct (Z.ltb_spec n 64); [|done]. by rewrite Z.testbit_neg_r by lia.
Qed.

Lemma unxorshl17_spec x : is_u64 x → unxorshl17 (Z.lxor x (u64 (Z.shiftl x 17))) = x.
Proof.
  intros Hx. unfold unxorshl17. rewrite !Z.shiftl_lxor, !u64_lxor, !shiftl_u64 by lia.
  rewrite u64_u64, (u64_small x) by done. rewrite !Z.shiftl_shiftl by lia.
  rewrite (shiftl_out x (17 + 51)), Z.lxor_0_r by lia.
  change (17 + 17) with 34. change (17 + 34) with 51.
  set (a := u64 (Z.shiftl x 17)). set (b := u64 (Z.shiftl x 34)). set (c := u64 (Z.shiftl x 51)).
  apply Z.bits_inj'. intros n Hn. rewrite !Z.lxor_spec.
  by destruct (Z.testbit x n), (Z.testbit a n), (Z.testbit b n), (Z.testbit c n).
Qed.

Definition words_ok (r : Random64) : Prop :=
  is_u64 (s0 r) ∧ is_u64 (s1 r) ∧ is_u64 (s2 r) ∧ is_u64 (s3 r).

Lemma Random64_next_ok r : words_ok r → words_ok (Random64_next r).2.
Proof.
  intros (H0 & H1 & H2 & H3). unfold words_ok, Random64_next. simpl.
  split_and!; auto with word. apply rol64_u64; [auto with word|lia].
Qed.

Lemma Random64_prev_next r : words_ok r → Random64_prev (Random64_next r).2 = r.
Proof.
  intros (H0 & H1 & H2 & H3). destruct r as [a b c d]. unfold Random64_prev, Random64_next.
  simpl in *. pose proof (rol64_rol64 (Z.lxor d b) 45 ltac:(auto with word) ltac:(lia)) as Hrol.
  change (64 - 45) with 19 in Hrol. rewrite Hrol.
  assert (Z.lxor (Z.lxor a (Z.lxor d b)) (Z.lxor d b) = a) as ->
    by (by rewrite Z.lxor_assoc, Z.lxor_nilpotent, Z.lxor_0_r).
  assert (Z.lxor (Z.lxor b (Z.lxor c a)) (Z.lxor (Z.lxor c a) (u64 (Z.shiftl b 17))) =
          Z.lxor b (u64 (Z.shiftl b 17))) as ->
    by (by rewrite Z.lxor_assoc, lxor_cancel).
  rewrite unxorshl17_spec by done. f_equal.
  - rewrite (Z.lxor_assoc (Z.lxor c a)), Z.lxor_nilpotent, Z.lxor_0_r.
    by rewrite Z.lxor_assoc, Z.lxor_nilpotent, Z.lxor_0_r.
  - by rewrite Z.lxor_assoc, Z.lxor_nilpotent, Z.lxor_0_r.
Qed.

(** The state after [n] draws. *)
Fixpoint after (n : nat) (r : Random64) : Random64 :=
  match n with O => r | S n' => after n' (Random64_next r).2 end.

Definition all_zero (r : Random64) : Prop := s0 r = 0 ∧ s1 r = 0 ∧ s2 r = 0 ∧ s3 r = 0.

Lemma next_all_zero r : words_ok r → all_zero (Random64_next r).2 → all_zero r.
Proof.
  intros Hr (H0 & H1 & H2 & H3). rewrite <-(Random64_prev_next r Hr).
  unfold Random64_prev. by rewrite H0, H1, H2, H3.
Qed.

Lemma after_not_zero n : ∀ r, words_ok r → ¬ all_zero r → words_ok (after n r) ∧ ¬ all_zero (after n r).
Proof.
  induction n as [|n IH]; intros r Hr Hz; [done|]. apply IH; [by apply Random64_next_ok|].
  intros Hz'. by apply Hz, next_all_zero.
Qed.

Lemma setSeed_ok seed : words_ok (setSeed seed) ∧ ¬ all_zero (setSeed seed).
Proof.
  split.
  - unfold words_ok, setSeed. simpl. split_and!; apply mix_u64, u64_add_range.
  - intros (H0 & H1 & _). simpl in H0, H1.
    assert (is_u64 (seed +₆₄ golden_gamma)) as Ha by apply u64_add_range.
    assert (is_u64 (seed +₆₄ golden_gamma +₆₄ golden_gamma)) as Hb by apply u64_add_range.
    rewrite <-H1 in H0. apply (f_equal unmix) in H0. rewrite !unmix_mix in H0 by done.
    revert H0. unfold u64_add. rewrite u64_add_idemp_l.
    replace (seed + golden_gamma) with (seed + golden_gamma * 1) by lia.
    replace (seed + golden_gamma * 1 + golden_gamma) with (seed + golden_gamma * 2) by lia.
    intros Heq. apply gamma_multiples in Heq; [done|by vm_compute..].
Qed.

Lemma Random64_draw_range r : words_ok r → 0 ≤ (Random64_next r).1 < max_value.
Proof.
  intros (H0 & _). simpl. rewrite Z.shiftr_div_pow2 by lia.
  pose proof (u64_add_range (s0 r) (s3 r)) as H. unfold is_u64 in H. rewrite modulus64_val in H.
  change max_value with 9007199254740992.
  split; [apply Z.div_pos; lia|apply Z.div_lt_upper_bound; lia].
Qed.

(** ** Properties *)

(** [FastRng::Next] is invertible: the output determines the state, through an
    executable inverse of the mixing function, every 64-bit word is an output of
    some state, and a generator repeats an output only after [2^64] draws. *)
Theorem FastRng_roundtrip :
  (∀ r, unmix (FastRng_Next r).1 = state (FastRng_Next r).2) ∧
  (∀ v, is_u64 v → mix (unmix v) = v) ∧
  (∀ r i j, is_u64 (Z.of_nat i + 1) → is_u64 (Z.of_nat j + 1) →
    (nth_output r i).1 = (nth_output r j).1 → i = j).
Proof.
  split; [|split].
  - intros r. apply unmix_mix, u64_add_range.
  - exact mix_unmix.
  - intros r i j Hi Hj Heq. rewrite !nth_output_eq in Heq.
    assert (u64 (state r + golden_gamma * (Z.of_nat i + 1)) =
            u64 (state r + golden_gamma * (Z.of_nat j + 1))) as Heq'.
    { rewrite <-(unmix_mix (u64 (state r + golden_gamma * (Z.of_nat i + 1)))) by apply u64_range.
      rewrite Heq. apply unmix_mix, u64_range. }
    apply gamma_multiples in Heq'; [lia|done..].
Qed.

(** A [Random64] seeded with any value never reaches the all-zero state, from
    which it would only give zeros, and every draw is below [max_value], so that
    [next() / (double) max_value] is below one. *)
Theorem Random64_never_stuck seed n :
  let r := after n (setSeed seed) in
  ¬ all_zero r ∧ 0 ≤ (Random64_next r).1 < max_value.
Proof.
  intros r. destruct (setSeed_ok seed) as [Hok Hz].
  destruct (after_not_zero n _ Hok Hz) as [Hok' Hz']. split; [done|]. by apply Random64_draw_range.
Qed.

Lemma FastRng_roundtrip_witness :
  let r := {| state := 12 |} in
  unmix (FastRng_Next r).1 = 12 +₆₄ golden_gamma ∧ mix (unmix 77) = 77 ∧
  ((nth_output r 3).1 = (nth_output r 5).1 → 3%nat = 5%nat).
Proof.
  intros r. destruct FastRng_roundtrip as (H1 & H2 & H3).
  split; [exact (H1 r)|]. split; [by apply H2|]. by apply (H3 r 3%nat 5%nat).
Defined.
