(* ===== verification/Workload.v ===== *)
(** The query generator of the genetic benchmark ([common/request_workload.hpp]).

    [BuildBatch] draws queries of a fixed length, 99 in 100 of them inside the hot
    window of one side of the array and the others inside a cold window. The draws
    are those of [Random]: the engine is a parameter, the distributions promise
    their range. *)
From S2P Require Import Double Random Chromosome Prelude.

Inductive TrafficSide := kLeft | kRight.

#[export] Instance TrafficSide_eq_dec : EqDecision TrafficSide.
Proof. solve_decision. Defined.

(** [WorkloadGenerator] without its engine. *)
Record WorkloadGenerator := {
  wg_array_size_ : Z;
  wg_hot_window_size_ : Z;
  wg_query_length_ : Z
}.

Section Workload.
  Context `{R : RandomSource}.

Definition hot_begin (w : WorkloadGenerator) (side : TrafficSide) : Z :=
  match side with
  | kLeft => 0
  | kRight => wg_array_size_ w -₆₄ wg_hot_window_size_ w
  end.

Definition RandomColdWindowStart (w : WorkloadGenerator) (excluded_hot_begin : Z) : rand Z :=
  if excluded_hot_begin =? 0
  then draw (wg_hot_window_size_ w) (wg_array_size_ w -₆₄ wg_hot_window_size_ w)
  else draw 0 (wg_array_size_ w -₆₄ 2 *₆₄ wg_hot_window_size_ w).

(** The body of the loop of [BuildBatch]. *)
Definition build_query (w : WorkloadGenerator) (hot_begin : Z) : rand Query :=
  hot ← coin (d_lit 99 100);
  range_begin ← (if hot : bool then mret hot_begin else RandomColdWindowStart w hot_begin);
  left ← draw range_begin (range_begin +₆₄ wg_hot_window_size_ w -₆₄ wg_query_length_ w);
  target_offset ← draw 0 (wg_query_length_ w -₆₄ 1);
  delta ← draw 1 7;
  mret {| q_left := u32 left; q_right := u32 (left +₆₄ wg_query_length_ w -₆₄ 1);
          q_target := u32 (left +₆₄ target_offset); q_delta := delta |}.

Definition BuildBatch (w : WorkloadGenerator) (query_count : Z) (side : TrafficSide) :
    rand (list Query) :=
  let hot_begin := hot_begin w side in
  rand_for (Z.to_nat query_count) 0
    (λ _ queries, q ← build_query w hot_begin; mret (queries ++ [q])) [].

(** ** The queries it builds *)

(** The sizes the benchmark uses satisfy this. *)
Definition generator_ok (w : WorkloadGenerator) : Prop :=
  1 ≤ wg_query_length_ w ≤ wg_hot_window_size_ w ∧
  2 * wg_hot_window_size_ w ≤ wg_array_size_ w ≤ modulus32.

(** The query is [query_length_] long, inside the array, its target is inside it, and
    it is inside the hot window or disjoint from it. *)
Definition built_ok (w : WorkloadGenerator) (side : TrafficSide) (q : Query) : Prop :=
  0 ≤ q_left q ∧ q_right q = q_left q + wg_query_length_ w - 1 ∧ q_right q < wg_array_size_ w ∧
  q_left q ≤ q_target q ≤ q_right q ∧ 1 ≤ q_delta q ≤ 7 ∧
  let b := hot_begin w side in
  let e := b + wg_hot_window_size_ w in
  (b ≤ q_left q ∧ q_right q < e ∨ q_right q < b ∨ e ≤ q_left q).

Lemma generator_words w :
  generator_ok w →
  wg_array_size_ w -₆₄ wg_hot_window_size_ w = wg_array_size_ w - wg_hot_window_size_ w ∧
  wg_array_size_ w -₆₄ 2 *₆₄ wg_hot_window_size_ w = wg_array_size_ w - 2 * wg_hot_window_size_ w ∧
  wg_query_length_ w -₆₄ 1 = wg_query_length_ w - 1.
Proof.
  intros [H1 H2]. rewrite modulus32_val in H2.
  rewrite (u64_mul_small 2), !u64_sub_small by (rewrite modulus64_val; lia). done.
Qed.

(** Where a window may start: at the hot window, or clear of it. *)
Definition window_start (w : WorkloadGenerator) (side : TrafficSide) (b : Z) : Prop :=
  0 ≤ b ≤ wg_array_size_ w - wg_hot_window_size_ w ∧
  (b = hot_begin w side ∨ b + wg_hot_window_size_ w ≤ hot_begin w side ∨
   hot_begin w side + wg_hot_window_size_ w ≤ b).

Lemma RandomColdWindowStart_ok w side :
  generator_ok w → wp (RandomColdWindowStart w (hot_begin w side)) (window_start w side).
Proof.
  intros Hw. destruct (generator_words w Hw) as (H1 & H2 & _). destruct Hw as [Hl Ha].
  unfold RandomColdWindowStart, window_start, hot_begin. rewrite H1, H2.
  destruct side; [rewrite Z.eqb_refl|destruct (Z.eqb_spec (wg_array_size_ w - wg_hot_window_size_ w) 0)];
    try lia; (eapply wp_mono; [apply wp_draw; lia|]); intros b Hb; simpl in Hb; lia.
Qed.

Lemma build_query_ok w side :
  generator_ok w → wp (build_query w (hot_begin w side)) (built_ok w side).
Proof.
  intros Hw. destruct (generator_words w Hw) as (H1 & H2 & H3). unfold build_query.
  apply (wp_bind _ _ (λ _, True)); [apply wp_coin|]. intros hot _.
  apply (wp_bind _ _ (window_start w side)).
  { destruct hot; [|by apply RandomColdWindowStart_ok]. apply wp_ret. destruct Hw.
    unfold window_start, hot_begin. rewrite H1. destruct side; lia. }
  intros b [Hb Hs]. destruct Hw as [Hl Ha]. rewrite modulus32_val in Ha.
  assert (b +₆₄ wg_hot_window_size_ w -₆₄ wg_query_length_ w =
          b + wg_hot_window_size_ w - wg_query_length_ w) as ->
    by (rewrite u64_add_small, u64_sub_small; rewrite ?modulus64_val; lia).
  eapply wp_bind; [apply wp_draw; lia|]. intros left Hleft. simpl in Hleft.
  eapply wp_bind; [apply wp_draw; lia|]. intros offset Hoff. simpl in Hoff.
  eapply wp_bind; [apply wp_draw; lia|]. intros delta Hdelta. simpl in Hdelta.
  apply wp_ret. unfold built_ok. cbn [q_left q_right q_target q_delta].
  assert (∀ z, 0 ≤ z < modulus32 → u32 z = z) as Hu32 by (intros; by apply Z.mod_small).
  rewrite H3 in Hoff. rewrite !u64_add_small, u64_sub_small, !Hu32; rewrite ?modulus64_val, ?modulus32_val; lia.
Qed.

Lemma BuildBatch_wp w query_count side :
  generator_ok w → 0 ≤ query_count →
  wp (BuildBatch w query_count side)
    (λ queries, len queries = query_count ∧ Forall (built_ok w side) queries).
Proof.
  intros Hw Hn. unfold BuildBatch.
  eapply wp_mono.
  - apply (wp_for (λ i queries, len queries = i ∧ Forall (built_ok w side) queries)); [done|].
    intros i queries _ [Hlen Hall]. eapply wp_bind; [by apply build_query_ok|].
    intros q Hq. apply wp_ret. rewrite len_app. split; [by rewrite Hlen|].
    by apply Forall_app, conj, Forall_singleton.
  - simpl. intros queries [Hlen Hall]. split; [lia|done].
Qed.

(** ** Property *)

(** [BuildBatch] returns [query_count] queries; each one is [query_length_]
    long and inside the array (the conversions to [uint32_t] lose nothing), its
    target is one of its positions, its delta is between 1 and 7, and the query is
    inside the hot window of the side or disjoint from that window. *)
Theorem BuildBatch_correct w query_count side :
  generator_ok w → 0 ≤ query_count →
  wp (BuildBatch w query_count side)
    (λ queries, len queries = query_count ∧ Forall (built_ok w side) queries).
Proof. apply BuildBatch_wp. Qed.

End Workload.

Lemma BuildBatch_correct_witness :
  wp (BuildBatch (R:=counter_source)
        {| wg_array_size_ := 1048576; wg_hot_window_size_ := 16384; wg_query_length_ := 64 |} 512 kRight)
    (λ queries, len queries = 512 ∧
      Forall (built_ok {| wg_array_size_ := 1048576; wg_hot_window_size_ := 16384;
                          wg_query_length_ := 64 |} kRight) queries).
Proof. apply BuildBatch_correct; [|lia]. by vm_compute. Defined.
