(* ===== verification/Stream.v ===== *)
(** The query streams of the adaptive benchmark
    ([benchmarks/adaptive_lock_benchmark.cpp]).

    A stream is described by a [QueryStreamSpec] and computed one query at a time
    by [MakeStreamQuery]; the hot windows of the scenarios are computed by the
    [Make...WindowBegins] functions. The theorems: every query of a valid
    description is inside the array and inside its window, and the windows of the
    clustered scenarios are disjoint, also after every churn of half of them. *)
From stdpp Require Import sorting.
From S2P Require Import RangeLock Chromosome Workload Rng Prelude.

Definition kLockCount : Z := 64.
Definition kBlocks : Z := 1024.
Definition kBlockSize : Z := 1024.
Definition kArraySize : Z := kBlocks *₆₄ kBlockSize.
Definition kHotWindowSize : Z := kArraySize / kLockCount.
Definition kPointQueryLength : Z := 1.
Definition kRandomRangeMaxLength : Z := 65536.
Definition kClusteredHotWindowSize : Z := kHotWindowSize.
Definition kSmallRangeMaxLength : Z := 8.
Definition kMovingWindowSize : Z := kHotWindowSize.
Definition kMovingWindowStops : Z := 8.

Inductive QueryPattern := kHotWindow | kUniform | kHotWindowRandomRange | kUniformRandomRange.

#[export] Instance QueryPattern_eq_dec : EqDecision QueryPattern.
Proof. solve_decision. Defined.

Record QueryStreamSpec := {
  count : Z;
  pattern : QueryPattern;
  side : TrafficSide;
  query_length : Z;
  seed : Z;
  window_begins : list Z;
  window_size : Z;
  multi_window : bool
}.

(** ** Building descriptions *)

Definition BuildQueries (count : Z) (pattern : QueryPattern) (side : TrafficSide)
    (query_length seed : Z) : QueryStreamSpec :=
  {| count := count; pattern := pattern; side := side; query_length := query_length; seed := seed;
     window_begins := []; window_size := 0; multi_window := false |}.

(** [Thrown] is [std::invalid_argument]. *)
Definition BuildMultiWindowQueries (count : Z) (window_begins : list Z)
    (window_size max_query_length seed : Z) : outcome QueryStreamSpec :=
  if len window_begins =? 0 then Thrown
  else Returned {| count := count; pattern := kHotWindowRandomRange; side := kLeft;
                   query_length := max_query_length; seed := seed; window_begins := window_begins;
                   window_size := window_size; multi_window := true |}.

(** [static_cast<int>((i * 17 + 23) % 1000)] for every position. *)
Definition MakeInitialData : list Z :=
  for_range 0 kArraySize (λ i data, data ++ [(i *₆₄ 17 +₆₄ 23) `mod` 1000]) [].

(** ** Windows *)

Definition MakeClusteredWindowBegins (cluster_count : Z) : outcome (list Z) :=
  if (cluster_count =? 0) || (16 <? cluster_count) then Thrown
  else Returned (for_range 0 cluster_count
    (λ i begins, begins ++ [(2 *₆₄ i +₆₄ 1) *₆₄ kClusteredHotWindowSize]) []).

(** The loop of [MakeClusteredWindowPool]; it runs [kArraySize / step] times. *)
Definition pool_loop (fuel : nat) (st : Z * list Z) : option (Z * list Z) :=
  while_fuel fuel (λ '(begin, _), begin +₆₄ kClusteredHotWindowSize <=? kArraySize)
    (λ '(begin, begins), (begin +₆₄ 2 *₆₄ kClusteredHotWindowSize, begins ++ [begin])) st.

Definition MakeClusteredWindowPool : option (list Z) :=
  snd <$> pool_loop 64 (kClusteredHotWindowSize, []).

(** [while (std::find(active.begin(), active.end(), pool[cursor]) != active.end())
    cursor = (cursor + 1) % pool.size()] *)
Definition find_free (fuel : nat) (pool active : list Z) (cursor : Z) : option Z :=
  while_fuel fuel (λ cursor, bool_decide (pool.[cursor] ∈ active))
    (λ cursor, (cursor +₆₄ 1) `mod` len pool) cursor.

(** The body of the two nested loops. *)
Definition churn_one (pool : list Z) (cluster_count replacements change index : Z)
    (st : list Z * Z) : option (list Z * Z) :=
  let '(active, cursor) := st in
  let slot := (change *₆₄ replacements +₆₄ index) `mod` cluster_count in
  match find_free (length pool) pool active cursor with
  | None => None
  | Some cursor => Some (active.[slot <- pool.[cursor]], (cursor +₆₄ 1) `mod` len pool)
  end.

(** [None] when a loop has not ended with its fuel, [Some Thrown] for an exception. *)
Definition MakeChurnedClusteredWindowBegins (cluster_count change_index : Z) :
    option (outcome (list Z)) :=
  match MakeClusteredWindowBegins cluster_count with
  | Thrown => Some Thrown
  | Returned active =>
      pool ← MakeClusteredWindowPool;
      let replacements := Z.max 1 (cluster_count / 2) in
      '(active, _) ← for_opt 0 change_index (λ change st,
          for_opt 0 replacements (churn_one pool cluster_count replacements change) st)
        (active, cluster_count);
      Some (Returned (merge_sort Z.le active))
  end.

Definition MakeMovingWindowBegins : list Z :=
  let max_begin := kArraySize -₆₄ kMovingWindowSize in
  let begins := for_range 0 kMovingWindowStops
    (λ stop begins, begins ++ [max_begin *₆₄ stop / (kMovingWindowStops -₆₄ 1)]) [] in
  (** [for (stop = kMovingWindowStops - 1; stop-- > 1;)]: from [kMovingWindowStops - 2] to 1. *)
  for_range 0 (kMovingWindowStops -₆₄ 2)
    (λ k begins, let stop := kMovingWindowStops -₆₄ 2 -₆₄ k in
       begins ++ [max_begin *₆₄ stop / (kMovingWindowStops -₆₄ 1)]) begins.

(** ** One query of a stream *)

Definition DeterministicOffset (sequence_index thread_index bound : Z) : Z :=
  if bound =? 0 then 0 else (sequence_index +₆₄ thread_index *₆₄ 131) `mod` bound.

(** [length == 1 ? DeterministicOffset(...) : rng.Uniform(bound - length + 1)] *)
Definition offset_in (rng : FastRng) (sequence_index thread_index bound length : Z) : Z * FastRng :=
  if length =? 1 then (DeterministicOffset sequence_index thread_index bound, rng)
  else FastRng_Uniform rng (bound -₆₄ length +₆₄ 1).

(** [length == 1 ? 0 : rng.Uniform(length)] *)
Definition target_offset (rng : FastRng) (length : Z) : Z * FastRng :=
  if length =? 1 then (0, rng) else FastRng_Uniform rng length.

Definition make_query (left length target delta : Z) : Query :=
  {| q_left := u32 left; q_right := u32 (left +₆₄ length -₆₄ 1); q_target := u32 target;
     q_delta := delta |}.

Definition MakeStreamQuery (rng : FastRng) (spec : QueryStreamSpec) (thread_index sequence_index : Z) :
    Query * FastRng :=
  let length_cap := Z.max 1 (query_length spec) in
  let delta := 1 + (sequence_index +₆₄ thread_index) `mod` 7 in
  if multi_window spec then
    let window_count := len (window_begins spec) in
    let window_index := (sequence_index +₆₄ thread_index) `mod` window_count in
    let window_begin := (window_begins spec).[window_index] in
    let window_size := Z.max 1 (window_size spec) in
    let '(u, rng) := FastRng_Uniform rng (Z.min length_cap window_size) in
    let length := 1 +₆₄ u in
    let '(offset, rng) := offset_in rng sequence_index thread_index window_size length in
    let left := window_begin +₆₄ offset in
    let '(t, rng) := target_offset rng length in
    (make_query left length (left +₆₄ t) delta, rng)
  else
    match pattern spec with
    | kUniform =>
        let length := Z.min length_cap kArraySize in
        let '(begin, rng) := offset_in rng sequence_index thread_index kArraySize length in
        let '(t, rng) := target_offset rng length in
        (make_query begin length (begin +₆₄ t) delta, rng)
    | kUniformRandomRange =>
        let '(u, rng) := FastRng_Uniform rng (Z.min length_cap kArraySize) in
        let length := 1 +₆₄ u in
        let '(begin, rng) := FastRng_Uniform rng (kArraySize -₆₄ length +₆₄ 1) in
        let '(t, rng) := FastRng_Uniform rng length in
        (make_query begin length (begin +₆₄ t) delta, rng)
    | kHotWindow | kHotWindowRandomRange =>
        let hot_begin := match side spec with kLeft => 0 | kRight => kArraySize -₆₄ kHotWindowSize end in
        let '(length, rng) :=
          if decide (pattern spec = kHotWindow) then (Z.min length_cap kHotWindowSize, rng)
          else let '(u, rng) := FastRng_Uniform rng (Z.min length_cap kHotWindowSize) in (1 +₆₄ u, rng) in
        let '(offset, rng) := offset_in rng sequence_index thread_index kHotWindowSize length in
        let left := hot_begin +₆₄ offset in
        let '(t, rng) := target_offset rng length in
        (make_query left length (left +₆₄ t) delta, rng)
    end.

(** ** Every query is inside the array *)

Lemma kArraySize_val : kArraySize = 1048576.
Proof. by vm_compute. Qed.

Lemma kHotWindowSize_val : kHotWindowSize = 16384.
Proof. by vm_compute. Qed.

Lemma Uniform_range rng bound :
  0 < bound → 0 ≤ (FastRng_Uniform rng bound).1 < bound.
Proof.
  intros Hb. unfold FastRng_Uniform. destruct (Z.eqb_spec bound 0); [lia|].
  destruct (FastRng_Next rng) as [v r]. simpl. by apply Z.mod_pos_bound.
Qed.

Lemma offset_in_range rng i t bound length :
  1 ≤ length ≤ bound → is_u64 bound → 0 ≤ (offset_in rng i t bound length).1 ≤ bound - length.
Proof.
  intros Hl Hb. unfold offset_in, DeterministicOffset, is_u64 in *. destruct (Z.eqb_spec length 1).
  - destruct (Z.eqb_spec bound 0); [lia|]. simpl.
    pose proof (Z.mod_pos_bound (i +₆₄ t *₆₄ 131) bound ltac:(lia)). lia.
  - rewrite u64_sub_small, u64_add_small by lia.
    pose proof (Uniform_range rng (bound - length + 1) ltac:(lia)). lia.
Qed.

Lemma target_offset_range rng length : 1 ≤ length → 0 ≤ (target_offset rng length).1 < length.
Proof.
  intros Hl. unfold target_offset. destruct (Z.eqb_spec length 1); [simpl; lia|].
  apply Uniform_range. lia.
Qed.

(** The query lies in [[b, b + w)], is at most [cap] long and its target is inside it. *)
Definition query_within (b w cap : Z) (q : Query) : Prop :=
  b ≤ q_left q ≤ q_right q ∧ q_right q < b + w ∧ q_right q - q_left q < cap ∧
  q_left q ≤ q_target q ≤ q_right q ∧ 1 ≤ q_delta q ≤ 7.

Lemma make_query_within b w cap left length t i :
  0 ≤ b → b + w ≤ kArraySize → 1 ≤ length ≤ cap → b ≤ left → left + length ≤ b + w → 0 ≤ t < length →
  query_within b w cap (make_query left length (left +₆₄ t) (1 + i `mod` 7)).
Proof.
  intros Hb Hw Hl Hleft Hr Ht. rewrite kArraySize_val in Hw. unfold query_within, make_query.
  cbn [q_left q_right q_target q_delta]. pose proof (Z.mod_pos_bound i 7 ltac:(lia)).
  assert (∀ z, 0 ≤ z < 1048576 → u32 z = z) as Hu32
    by (intros; apply Z.mod_small; rewrite modulus32_val; lia).
  rewrite !u64_add_small, u64_sub_small, !Hu32; rewrite ?modulus64_val; lia.
Qed.

(** The window of the [sequence_index]-th query of a thread. *)
Definition stream_window (spec : QueryStreamSpec) (thread_index sequence_index : Z) : Z * Z :=
  if multi_window spec then
    ((window_begins spec).[(sequence_index +₆₄ thread_index) `mod` len (window_begins spec)],
     Z.max 1 (window_size spec))
  else match pattern spec with
       | kUniform | kUniformRandomRange => (0, kArraySize)
       | kHotWindow | kHotWindowRandomRange =>
           (match side spec with kLeft => 0 | kRight => kArraySize - kHotWindowSize end, kHotWindowSize)
       end.

(** The windows are inside the array. *)
Definition spec_ok (spec : QueryStreamSpec) : Prop :=
  multi_window spec = true →
  window_begins spec ≠ [] ∧
  Forall (λ b, 0 ≤ b ∧ b + Z.max 1 (window_size spec) ≤ kArraySize) (window_begins spec).

Lemma stream_window_ok spec t i :
  spec_ok spec → let '(b, w) := stream_window spec t i in 0 ≤ b ∧ 1 ≤ w ∧ b + w ≤ kArraySize.
Proof.
  intros Hok. unfold stream_window. destruct (multi_window spec) eqn:Hm.
  - destruct (Hok Hm) as [Hne Hall]. split; [|split; [lia|]];
      apply (get_Forall _ _ _ Hall); apply Z.mod_pos_bound;
      (destruct (window_begins spec); [done|rewrite len_cons; pose proof (len_nonneg l); lia]).
  - rewrite kHotWindowSize_val, kArraySize_val. destruct (pattern spec), (side spec); lia.
Qed.

Lemma drawn_length rng cap w :
  1 ≤ cap → 1 ≤ w ≤ kArraySize →
  1 ≤ 1 +₆₄ (FastRng_Uniform rng (Z.min cap w)).1 ∧ 1 +₆₄ (FastRng_Uniform rng (Z.min cap w)).1 ≤ w ∧
  1 +₆₄ (FastRng_Uniform rng (Z.min cap w)).1 ≤ cap.
Proof.
  intros Hc Hw. rewrite kArraySize_val in Hw.
  pose proof (Uniform_range rng (Z.min cap w) ltac:(lia)).
  rewrite u64_add_small by (rewrite modulus64_val; lia). lia.
Qed.

(** The offset and the target of a query of a given length in a window. *)
Ltac draw_offset :=
  match goal with |- context [offset_in ?r ?i ?t ?w ?l] =>
    let o := fresh "o" in let r' := fresh "r" in let H := fresh "Ho" in let E := fresh "E" in
    pose proof (offset_in_range r i t w l) as H;
    destruct (offset_in r i t w l) as [o r'] eqn:E; cbn [fst] in H;
    specialize (H ltac:(lia) ltac:(unfold is_u64; rewrite modulus64_val; lia)); clear E
  end.

Ltac draw_target :=
  match goal with |- context [target_offset ?r ?l] =>
    let o := fresh "t" in let r' := fresh "r" in let H := fresh "Ht" in let E := fresh "E" in
    pose proof (target_offset_range r l ltac:(lia)) as H;
    destruct (target_offset r l) as [o r'] eqn:E; cbn [fst] in *; clear E
  end.

(** A query in the window that begins at [b]. *)
Lemma query_at b w cap length o t i :
  0 ≤ b → b + w ≤ kArraySize → 1 ≤ length ≤ cap → 0 ≤ o ≤ w - length → 0 ≤ t < length →
  query_within b w cap (make_query (b +₆₄ o) length (b +₆₄ o +₆₄ t) (1 + i `mod` 7)).
Proof.
  intros Hb Hw Hl Ho Ht. pose proof kArraySize_val.
  rewrite (u64_add_small b) by (rewrite modulus64_val; lia). apply make_query_within; lia.
Qed.

Lemma stream_query_within rng spec thread_index sequence_index :
  spec_ok spec →
  let '(b, w) := stream_window spec thread_index sequence_index in
  0 ≤ b ∧ b + w ≤ kArraySize ∧
  query_within b w (Z.max 1 (query_length spec))
    (MakeStreamQuery rng spec thread_index sequence_index).1.
Proof.
  intros Hok. pose proof (stream_window_ok spec thread_index sequence_index Hok) as Hw.
  pose proof kArraySize_val as HA. pose proof kHotWindowSize_val as HH.
  unfold stream_window, MakeStreamQuery in *. set (cap := Z.max 1 (query_length spec)).
  assert (1 ≤ cap) as Hcap by lia.
  destruct (multi_window spec).
  { split; [lia|]. split; [lia|]. revert Hw. set (w := Z.max 1 (window_size spec)). intros Hw.
    pose proof (drawn_length rng cap w Hcap ltac:(lia)) as (H1 & H2 & H3).
    destruct (FastRng_Uniform rng _) as [u rng1]. cbn [fst] in H1, H2, H3.
    draw_offset. draw_target. apply query_at; lia. }
  replace (kArraySize -₆₄ kHotWindowSize) with (kArraySize - kHotWindowSize) by (by vm_compute).
  destruct (pattern spec) eqn:Hp; (split; [lia|]; split; [lia|]).
  - rewrite decide_True by done. draw_offset. draw_target. apply query_at; lia.
  - draw_offset. draw_target. apply make_query_within; lia.
  - rewrite decide_False by done.
    pose proof (drawn_length rng cap kHotWindowSize Hcap ltac:(lia)) as (H1 & H2 & H3).
    destruct (FastRng_Uniform rng _) as [u rng1]. cbn [fst] in H1, H2, H3.
    draw_offset. draw_target. apply query_at; lia.
  - pose proof (drawn_length rng cap kArraySize Hcap ltac:(lia)) as (H1 & H2 & H3).
    destruct (FastRng_Uniform rng _) as [u rng1]. cbn [fst] in H1, H2, H3.
    rewrite u64_sub_small, u64_add_small by (rewrite modulus64_val; lia).
    pose proof (Uniform_range rng1 (kArraySize - (1 +₆₄ u) + 1) ltac:(lia)) as Ho.
    destruct (FastRng_Uniform rng1 _) as [o rng2]. cbn [fst] in Ho.
    pose proof (Uniform_range rng2 (1 +₆₄ u) ltac:(lia)) as Ht.
    destruct (FastRng_Uniform rng2 _) as [t rng3]. cbn [fst] in Ht.
    apply make_query_within; lia.
Qed.

(** Every query that [MakeStreamQuery] computes from a description whose windows
    are inside the array is itself inside the array: it lies in the window its
    thread and index select (the whole array, the hot window of the side, or one
    of the windows of the description), it is not longer than the longest length
    asked for, its target is one of its positions and its delta is between 1 and
    7. Neither the draws nor the conversions to [uint32_t] can break this. *)
Theorem MakeStreamQuery_correct rng spec thread_index sequence_index :
  spec_ok spec →
  let '(b, w) := stream_window spec thread_index sequence_index in
  0 ≤ b ∧ b + w ≤ kArraySize ∧
  query_within b w (Z.max 1 (query_length spec))
    (MakeStreamQuery rng spec thread_index sequence_index).1.
Proof. apply stream_query_within. Qed.

(** ** The clustered windows *)

(** The windows that may be hot: every second window of the array. *)
Definition window_pool : list Z := (λ i, kClusteredHotWindowSize * (2 * i + 1)) <$> seqZ 0 32.

Lemma pool_eq : MakeClusteredWindowPool = Some window_pool.
Proof. by vm_compute. Qed.

Lemma window_pool_NoDup : NoDup window_pool.
Proof. apply (bool_decide_unpack (NoDup window_pool)). by vm_compute. Qed.

Lemma window_pool_elem x :
  x ∈ window_pool ↔ ∃ i, 0 ≤ i < 32 ∧ x = 16384 * (2 * i + 1).
Proof.
  unfold window_pool. rewrite list_elem_of_fmap. change kClusteredHotWindowSize with 16384.
  setoid_rewrite elem_of_seqZ. split; intros (i & H1 & H2); exists i; [split; [lia|done]..].
Qed.

Lemma window_pool_len : len window_pool = 32.
Proof. by vm_compute. Qed.

Lemma NoDup_insert_fresh (l : list Z) i x : NoDup l → x ∉ l → NoDup (<[i := x]> l).
Proof.
  intros Hl Hx. apply NoDup_alt. intros j k y Hj Hk.
  assert (∀ n, (<[i := x]> l) !! n = Some y → n ≠ i → y ∈ l ∧ l !! n = Some y) as Hold.
  { intros n Hn Hne. rewrite list_lookup_insert_ne in Hn by done.
    split; [by eapply list_elem_of_lookup_2|done]. }
  assert (∀ n, (<[i := x]> l) !! n = Some y → n = i → y = x) as Hnew.
  { intros n Hn ->. apply list_lookup_insert_Some in Hn as [(_ & -> & _)|[? _]]; done. }
  destruct (decide (j = i)) as [Hji|Hji], (decide (k = i)) as [Hki|Hki].
  - congruence.
  - rewrite (Hnew j Hj Hji) in *. by destruct (Hold k Hk Hki).
  - rewrite (Hnew k Hk Hki) in *. by destruct (Hold j Hj Hji).
  - destruct (Hold j Hj Hji), (Hold k Hk Hki). rewrite NoDup_alt in Hl. by eapply Hl.
Qed.

(** A pool that is longer than a list without repetitions has a free element. *)
Lemma free_exists (pool active : list Z) :
  NoDup pool → (length active < length pool)%nat → ∃ i, 0 ≤ i < len pool ∧ pool.[i] ∉ active.
Proof.
  intros Hp Hlen. destruct (decide (Forall (λ x, x ∈ active) pool)) as [Hall|Hnot].
  - rewrite Forall_forall in Hall. pose proof (submseteq_length _ _ (NoDup_submseteq _ _ Hp Hall)). lia.
  - apply not_Forall_Exists in Hnot; [|apply _]. apply Exists_exists in Hnot as (x & Hx & Hfree).
    apply list_elem_of_lookup in Hx as [n Hn]. exists (Z.of_nat n).
    apply lookup_lt_Some in Hn as Hlt. rewrite (lookup_get _ _ _ Hn). unfold len. split; [lia|done].
Qed.

(** The search walks around the pool and so finds a free element. *)
Lemma find_free_ok pool active cursor :
  NoDup pool → (length active < length pool)%nat → len pool < modulus32 → 0 ≤ cursor < len pool →
  ∃ c, find_free (length pool) pool active cursor = Some c ∧ 0 ≤ c < len pool ∧ pool.[c] ∉ active.
Proof.
  intros Hp Hlen H32 Hc. destruct (free_exists pool active Hp Hlen) as (j & Hj & Hfree).
  rewrite modulus32_val in H32. set (n := len pool) in *.
  destruct (while_fuel_total (λ c, Z.to_nat ((j - c) mod n)) (λ c, 0 ≤ c < n) (length pool)
    (λ c, bool_decide (pool.[c] ∈ active)) (λ c, (c +₆₄ 1) mod n) cursor) as (c & Hr & Hc' & Hcond).
  - done.
  - intros t Ht Hin. apply bool_decide_eq_true in Hin.
    assert (j ≠ t) by (intros ->; done).
    rewrite u64_add_small by (rewrite modulus64_val; lia).
    split; [apply Z.mod_pos_bound; lia|].
    assert ((j - (t + 1) mod n) mod n = (j - t) mod n - 1) as ->.
    { rewrite Zminus_mod_idemp_r. replace (j - (t + 1)) with (j - t - 1) by lia.
      destruct (decide (t < j)).
      - rewrite !Z.mod_small by lia. done.
      - rewrite <-(Z.mod_add (j - t - 1) 1 n), <-(Z.mod_add (j - t) 1 n), !Z.mod_small by lia. lia. }
    assert (0 < (j - t) mod n); [|lia].
    pose proof (Z.mod_pos_bound (j - t) n ltac:(lia)).
    assert ((j - t) mod n ≠ 0); [|lia]. intros Hz. apply Z.mod_divide in Hz as [q Hq]; [|lia].
      assert (-1 < q < 1) by (split; apply (Z.mul_lt_mono_pos_r n); lia).
      assert (q = 0) as -> by lia. lia.
  - pose proof (Z.mod_pos_bound (j - cursor) n ltac:(lia)). unfold n, len in *. lia.
  - exists c. split; [exact Hr|]. split; [done|]. by apply bool_decide_eq_false in Hcond.
Qed.

(** The active windows are different windows of the pool, the cursor is inside it. *)
Definition churn_ok (cluster_count : Z) (st : list Z * Z) : Prop :=
  len st.1 = cluster_count ∧ NoDup st.1 ∧ Forall (λ x, x ∈ window_pool) st.1 ∧ 0 ≤ st.2 < 32.

Lemma churn_one_ok cluster_count replacements change index st :
  1 ≤ cluster_count ≤ 16 → churn_ok cluster_count st →
  ∃ st', churn_one window_pool cluster_count replacements change index st = Some st' ∧
    churn_ok cluster_count st'.
Proof.
  intros Hn (Hlen & Hnd & Hall & Hc). destruct st as [active cursor]. cbn [fst snd] in *.
  unfold churn_one. cbv beta iota zeta.
  destruct (find_free_ok window_pool active cursor) as (c & -> & Hc' & Hfree);
    [apply window_pool_NoDup| |by vm_compute|by rewrite window_pool_len|].
  { pose proof window_pool_len. unfold len in *. lia. }
  eexists. split; [done|]. unfold churn_ok. simpl. rewrite len_set. split; [done|].
  rewrite window_pool_len in *. split; [|split].
  - by apply NoDup_insert_fresh.
  - apply Forall_insert; [done|]. apply list_elem_of_lookup. exists (Z.to_nat c).
    apply get_lookup. by rewrite window_pool_len.
  - apply Z.mod_pos_bound. lia.
Qed.

Lemma initial_windows_ok cluster_count :
  1 ≤ cluster_count ≤ 16 →
  ∃ active, MakeClusteredWindowBegins cluster_count = Returned active ∧
    churn_ok cluster_count (active, cluster_count).
Proof.
  intros Hn. unfold MakeClusteredWindowBegins.
  destruct (Z.eqb_spec cluster_count 0); [lia|]. destruct (Z.ltb_spec 16 cluster_count); [lia|].
  simpl. eexists. split; [done|].
  destruct (for_range_push 0 cluster_count
    (λ i, (2 *₆₄ i +₆₄ 1) *₆₄ kClusteredHotWindowSize) ltac:(lia)) as [Hlen Hget].
  rewrite Z.sub_0_r in Hlen, Hget. revert Hlen Hget. set (active := for_range _ _ _ _). intros Hlen Hget.
  assert (∀ j, 0 ≤ j < cluster_count → active.[j] = 16384 * (2 * j + 1)) as Hval.
  { intros j Hj. rewrite Hget by done. change kClusteredHotWindowSize with 16384.
    rewrite (u64_mul_small 2), u64_add_small, u64_mul_small by (rewrite modulus64_val; lia). lia. }
  unfold churn_ok. simpl. split; [done|]. split; [|split; [|lia]].
  - apply NoDup_alt. intros i j x Hi Hj.
    pose proof (lookup_lt_Some _ _ _ Hi). pose proof (lookup_lt_Some _ _ _ Hj). unfold len in Hlen.
    apply lookup_get in Hi, Hj. rewrite Hval in Hi, Hj by lia. lia.
  - apply Forall_get. intros i Hi. rewrite Hlen in Hi. apply window_pool_elem.
    exists i. split; [lia|]. by apply Hval.
Qed.

(** ** Properties of the windows *)

Lemma churned_windows cluster_count change_index :
  0 ≤ cluster_count → 0 ≤ change_index →
  if decide (1 ≤ cluster_count ≤ 16) then
    ∃ begins, MakeChurnedClusteredWindowBegins cluster_count change_index = Some (Returned begins) ∧
      len begins = cluster_count ∧
      (∀ i, 0 ≤ i < cluster_count → 0 ≤ begins.[i] ∧ begins.[i] + kClusteredHotWindowSize ≤ kArraySize) ∧
      (∀ i j, 0 ≤ i < j → j < cluster_count →
        begins.[i] + 2 * kClusteredHotWindowSize ≤ begins.[j])
  else MakeChurnedClusteredWindowBegins cluster_count change_index = Some Thrown.
Proof.
  intros Hc Hi. unfold MakeChurnedClusteredWindowBegins. destruct (decide _) as [Hn|Hn].
  - destruct (initial_windows_ok cluster_count Hn) as (active & -> & Hok). rewrite pool_eq. simpl.
    destruct (for_opt_inv (λ _, churn_ok cluster_count) 0 change_index
      (λ change st, for_opt 0 (Z.max 1 (cluster_count / 2))
         (churn_one window_pool cluster_count (Z.max 1 (cluster_count / 2)) change) st)
      (active, cluster_count) Hi Hok) as ([final cursor] & -> & Hlen & Hnd & Hall & _).
    { intros change st _ Hst.
      apply (for_opt_inv (λ _, churn_ok cluster_count)); [lia|done|].
      intros index t _ Ht. by apply churn_one_ok. }
    simpl in *. exists (merge_sort Z.le final). split; [done|].
    pose proof (merge_sort_Permutation Z.le final) as Hperm.
    pose proof (Sorted_StronglySorted Z.le _ (Sorted_merge_sort Z.le final)) as Hsort.
    set (begins := merge_sort Z.le final) in *.
    assert (NoDup begins) as Hnd' by by rewrite Hperm.
    assert (len begins = cluster_count) as Hlen'
      by (unfold len; by rewrite Hperm).
    assert (∀ i, 0 ≤ i < cluster_count →
      ∃ k, 0 ≤ k < 32 ∧ begins.[i] = 16384 * (2 * k + 1)) as Hval.
    { intros i Hi'. apply window_pool_elem. apply (get_Forall (λ x, x ∈ window_pool)); [|lia].
      by rewrite Hperm. }
    change kClusteredHotWindowSize with 16384. rewrite kArraySize_val.
    split; [done|]. split.
    + intros i Hi'. destruct (Hval i Hi') as (k & Hk & ->). lia.
    + intros i j Hij Hj.
      pose proof (strongly_sorted_lookup Z.le _ (Z.to_nat i) (Z.to_nat j) _ _ Hsort ltac:(lia)
        (get_lookup begins i ltac:(lia))
        (get_lookup begins j ltac:(lia))) as Hle.
      assert (begins.[i] ≠ begins.[j]) as Hne.
      { intros Heq. rewrite NoDup_alt in Hnd'. pose proof (get_lookup begins i ltac:(lia)) as H1.
        rewrite Heq in H1. pose proof (get_lookup begins j ltac:(lia)) as H2.
        specialize (Hnd' _ _ _ H1 H2). lia. }
      destruct (Hval i ltac:(lia)) as (k & Hk & Hki), (Hval j ltac:(lia)) as (m & Hm & Hmj).
      rewrite Hki, Hmj in Hle, Hne |- *. lia.
  - unfold MakeClusteredWindowBegins. destruct (Z.eqb_spec cluster_count 0); [done|].
    destruct (Z.ltb_spec 16 cluster_count); [done|lia].
Qed.

(** For 1 to 16 clusters and any number of changes,
    [MakeChurnedClusteredWindowBegins] ends and returns the beginnings of
    [cluster_count] windows, in increasing order, inside the array, any two of
    them separated by at least the size of a window; for other counts it throws. *)
Theorem MakeChurnedClusteredWindowBegins_correct cluster_count change_index :
  0 ≤ cluster_count → 0 ≤ change_index →
  if decide (1 ≤ cluster_count ≤ 16) then
    ∃ begins, MakeChurnedClusteredWindowBegins cluster_count change_index = Some (Returned begins) ∧
      len begins = cluster_count ∧
      (∀ i, 0 ≤ i < cluster_count → 0 ≤ begins.[i] ∧ begins.[i] + kClusteredHotWindowSize ≤ kArraySize) ∧
      (∀ i j, 0 ≤ i < j → j < cluster_count →
        begins.[i] + 2 * kClusteredHotWindowSize ≤ begins.[j])
  else MakeChurnedClusteredWindowBegins cluster_count change_index = Some Thrown.
Proof. apply churned_windows. Qed.

Lemma MakeChurnedClusteredWindowBegins_correct_witness :
  MakeChurnedClusteredWindowBegins 4 1 = Some (Returned [81920; 114688; 147456; 180224]) ∧
  81920 + 2 * kClusteredHotWindowSize ≤ 147456.
Proof.
  destruct (MakeChurnedClusteredWindowBegins_correct 4 1 ltac:(lia) ltac:(lia))
    as (begins & Heq & _ & _ & Hsep).
  assert (MakeChurnedClusteredWindowBegins 4 1 = Some (Returned [81920; 114688; 147456; 180224])) as Hv
    by (vm_compute; reflexivity).
  split; [exact Hv|]. rewrite Hv in Heq. injection Heq as <-. exact (Hsep 0 2 ltac:(lia) ltac:(lia)).
Defined.

Lemma MakeStreamQuery_correct_witness :
  let q := (MakeStreamQuery {| state := 5 |} (BuildQueries 100 kHotWindowRandomRange kRight 65536 31) 2 9).1 in
  query_within 1032192 16384 65536 q.
Proof.
  destruct (MakeStreamQuery_correct {| state := 5 |}
    (BuildQueries 100 kHotWindowRandomRange kRight 65536 31) 2 9) as (_ & _ & Hq); [done|].
  exact Hq.
Defined.
