(* ===== verification/Phase.v ===== *)
(** One phase of the adaptive benchmark
    ([benchmarks/adaptive_lock_benchmark.cpp], [ExecuteQuery] and [RunPhase]).

    [kThreadCount] threads execute disjoint parts of a query stream on one lock.
    [ExecuteQuery] is one call of [WriteQuery] of the interface [QueryLock]; since
    the locks make calls with overlapping ranges exclusive, a phase is a sequence
    of whole calls, in an order the scheduler picks. The theorem: whatever the
    order, the phase executes every query of the stream once and leaves the same
    data. *)
From S2P Require Import Double Chromosome NaiveLock QueryLock Workload Rng Stream Prelude.

Inductive QueryBody := kRealWork | kLockOnly.

Record WorkerStats := { queries : Z; sum_checksum : Z; update_checksum : Z }.

(** [data[i]] is an [int]; [uint32_t] of it is its value modulo [2^32]. *)
Definition sum_range (data : list Z) (left right : Z) : Z :=
  for_range left (right + 1) (λ i sum, sum +₆₄ u32 data.[i]) 0.

(** The lambda of [ExecuteQuery]. [data[target] += delta] is on [int]: where it would
    overflow, which C++ leaves undefined, the model wraps around. *)
Definition query_body (query : Query) (body : QueryBody) (left right : Z)
    (st : list Z * WorkerStats) : list Z * WorkerStats :=
  let '(data, stats) := st in
  match body with
  | kLockOnly => st
  | kRealWork =>
      let sum := sum_range data left right in
      let data := data.[q_target query <- s32 (data.[q_target query] + q_delta query)] in
      (data, {| queries := queries stats; sum_checksum := sum_checksum stats +₆₄ sum;
                update_checksum := update_checksum stats +₆₄ u32 data.[q_target query] |})
  end.

Section Phase.
  Context {L Loc : Type} `{QL : QueryLock L Loc}.

Definition ExecuteQuery (delta : Z) (query : Query) (body : QueryBody)
    (st : L * Loc * (list Z * WorkerStats)) : option (L * Loc * (list Z * WorkerStats)) :=
  match lock_write delta (q_left query) (q_right query) (query_body query body) st with
  | None => None
  | Some (lock, loc, (data, stats)) =>
      Some (lock, loc, (data, {| queries := queries stats +₆₄ 1; sum_checksum := sum_checksum stats;
                                 update_checksum := update_checksum stats |}))
  end.

(** The local state of [worker(thread_index)]. *)
Record Worker := { w_i : Z; w_rng : FastRng; w_locals : Loc; w_stats : WorkerStats }.

(** The shared state of a phase: the lock, the data, the workers. *)
Record PhaseState := { ph_lock : L; ph_data : list Z; ph_workers : list Worker }.

Section Run.
  Variables (kThreadCount : Z) (spec : QueryStreamSpec) (body : QueryBody).

Definition thread_begin (t : Z) : Z := count spec *₆₄ t / kThreadCount.
Definition thread_end (t : Z) : Z := count spec *₆₄ (t +₆₄ 1) / kThreadCount.

(** A worker past the barrier. *)
Definition start_worker (t : Z) : Worker :=
  {| w_i := thread_begin t; w_rng := {| state := ThreadSeed (seed spec) t |};
     w_locals := lock_locals; w_stats := {| queries := 0; sum_checksum := 0; update_checksum := 0 |} |}.

Definition start_phase (lock : L) (data : list Z) : PhaseState :=
  {| ph_lock := lock; ph_data := data; ph_workers := start_worker <$> seqZ 0 kThreadCount |}.

(** One iteration of the loop of worker [t]; [None] if the worker has finished. *)
Definition worker_step (t : nat) (delta : Z) (st : PhaseState) : option PhaseState :=
  w ← ph_workers st !! t;
  if w_i w <? thread_end (Z.of_nat t) then
    let '(query, rng) := MakeStreamQuery (w_rng w) spec (Z.of_nat t) (w_i w) in
    match ExecuteQuery delta query body (ph_lock st, w_locals w, (ph_data st, w_stats w)) with
    | None => None
    | Some (lock, loc, (data, stats)) =>
        Some {| ph_lock := lock; ph_data := data;
                ph_workers := <[t := {| w_i := w_i w +₆₄ 1; w_rng := rng; w_locals := loc;
                                        w_stats := stats |}]> (ph_workers st) |}
    end
  else None.

(** The order of the calls, each with the time its thread waited for mutexes. *)
Fixpoint run_schedule (schedule : list (nat * Z)) (st : PhaseState) : option PhaseState :=
  match schedule with
  | [] => Some st
  | (t, delta) :: schedule => st ← worker_step t delta st; run_schedule schedule st
  end.

(** Every worker has left its loop. *)
Definition finished (st : PhaseState) : Prop :=
  ∀ t w, ph_workers st !! t = Some w → (w_i w <? thread_end (Z.of_nat t)) = false.

#[export] Instance finished_dec st : Decision (finished st).
Proof.
  refine (cast_if (decide (Forall (λ '(t, w), (w_i w <? thread_end (Z.of_nat t)) = false)
    (imap pair (ph_workers st))))).
  - intros t w Hw. rewrite Forall_lookup in f. apply (f t (t, w)).
    by rewrite list_lookup_imap, Hw.
  - intros Hfin. apply n. apply Forall_lookup. intros t [t' w] Hl.
    rewrite list_lookup_imap in Hl. destruct (ph_workers st !! t) as [w'|] eqn:Hw; [|done].
    simplify_eq/=. by apply Hfin.
Defined.

(** The sums after the joins. *)
Definition phase_result (st : PhaseState) : WorkerStats :=
  foldl (λ result w,
    {| queries := queries result +₆₄ queries (w_stats w);
       sum_checksum := sum_checksum result +₆₄ sum_checksum (w_stats w);
       update_checksum := update_checksum result +₆₄ update_checksum (w_stats w) |})
    {| queries := 0; sum_checksum := 0; update_checksum := 0 |} (ph_workers st).

(** What the scheduler and the clock decide in a phase. *)
Record PhaseRun := { schedule : list (nat * Z); elapsed : double }.

Record PhaseRunStats := { phase_seconds : double; phase_sums : WorkerStats }.

(** [RunPhase]; [None] if the schedule does not let every worker finish. *)
Definition RunPhase (lock : L) (data : list Z) (run : PhaseRun) : option (L * list Z * PhaseRunStats) :=
  st ← run_schedule (schedule run) (start_phase lock data);
  if decide (finished st) then
    Some (ph_lock st, ph_data st, {| phase_seconds := elapsed run; phase_sums := phase_result st |})
  else None.

(** ** The queries a thread executes *)

(** Its first [n] queries and its generator after them. *)
Fixpoint thread_stream (t : Z) (n : nat) : list Query * FastRng :=
  match n with
  | O => ([], {| state := ThreadSeed (seed spec) t |})
  | S n' =>
      let '(qs, rng) := thread_stream t n' in
      let '(q, rng) := MakeStreamQuery rng spec t (thread_begin t + Z.of_nat n') in
      (qs ++ [q], rng)
  end.

Definition thread_queries (t : Z) : list Query :=
  (thread_stream t (Z.to_nat (thread_end t - thread_begin t))).1.

(** What queries add to position [p] of the data. *)
Definition added (p : Z) (qs : list Query) : Z :=
  match body with
  | kLockOnly => 0
  | kRealWork => zsum ((λ q, if q_target q =? p then q_delta q else 0) <$> qs)
  end.

(** ** One query *)

Definition query_ok (q : Query) : Prop := 0 ≤ q_left q ≤ q_target q ∧ q_target q ≤ q_right q < kArraySize.

Lemma ExecuteQuery_eq delta q lock loc data stats :
  lock_idle lock → lock_size lock = kArraySize → query_ok q →
  ∃ lock' loc', ExecuteQuery delta q body (lock, loc, (data, stats)) =
      (let '(data, s) := query_body q body (q_left q) (q_right q) (data, stats) in
       Some (lock', loc', (data, {| queries := queries s +₆₄ 1; sum_checksum := sum_checksum s;
                                    update_checksum := update_checksum s |}))) ∧
    lock_idle lock' ∧ lock_size lock' = kArraySize ∧
    lock_operations lock' = lock_operations lock +₆₄ 1.
Proof.
  intros Hi Hs [Hl Hr]. pose proof kArraySize_val as HA.
  destruct (lock_write_once delta (q_left q) (q_right q) (query_body q body) lock loc (data, stats))
    as (lock' & loc' & Hw & Hi' & Hs' & Ho);
    [done|lia|unfold is_u64; rewrite modulus64_val; lia..|].
  unfold ExecuteQuery. rewrite Hw, Hs. rewrite (Z.min_l (q_left q)), (Z.max_r (q_left q)), !Z.min_l by lia.
  exists lock', loc'. split; [by destruct (query_body _ _ _ _ _)|]. by rewrite <-Hs.
Qed.

(** The data after the body of one query. *)
Lemma query_body_data q l r data stats p :
  0 ≤ q_target q < len data → 0 ≤ p →
  (query_body q body l r (data, stats)).1.[p] =
    if body is kRealWork then
      if q_target q =? p then s32 (data.[p] + q_delta q) else data.[p]
    else data.[p].
Proof.
  intros Ht Hp. unfold query_body. destruct body; [|done]. simpl. rewrite get_set by lia.
  destruct (Z.eqb_spec (q_target q) p) as [<-|]; done.
Qed.

Lemma query_body_len q l r data stats : len (query_body q body l r (data, stats)).1 = len data.
Proof. unfold query_body. destruct body; [simpl; apply len_set|done]. Qed.

Lemma query_body_queries q l r data stats :
  queries (query_body q body l r (data, stats)).2 = queries stats.
Proof. unfold query_body. by destruct body. Qed.

Lemma added_perm p qs qs' : qs ≡ₚ qs' → added p qs = added p qs'.
Proof.
  intros Hp. unfold added. destruct body; [|done].
  induction Hp; rewrite ?fmap_cons, ?zsum_cons in *; try lia; done.
Qed.

Lemma added_cons p q qs :
  added p (q :: qs) =
    (if body is kRealWork then if q_target q =? p then q_delta q else 0 else 0) + added p qs.
Proof. unfold added. by destruct body. Qed.

(** ** The parts of the threads *)

Context (HT : 0 < kThreadCount) (Hcount : 0 ≤ count spec) (Hmul : count spec * kThreadCount < modulus64).
Context (Hspec : spec_ok spec).

Lemma thread_begin_eq t : 0 ≤ t ≤ kThreadCount → thread_begin t = count spec * t / kThreadCount.
Proof. intros Ht. unfold thread_begin. rewrite u64_mul_small by nia. done. Qed.

Lemma thread_bounds t :
  0 ≤ t < kThreadCount →
  thread_end t = thread_begin (t + 1) ∧
  0 ≤ thread_begin t ≤ thread_end t ∧
  thread_end t ≤ count spec.
Proof.
  intros Ht. assert (kThreadCount ≤ modulus64 - 1 ∨ count spec = 0) as HTw by nia.
  assert (thread_end t = count spec * (t + 1) / kThreadCount) as He.
  { unfold thread_end. destruct HTw as [HTw| ->]; [|done].
    rewrite (u64_add_small t 1), u64_mul_small by nia. done. }
  rewrite He, !thread_begin_eq by lia. split; [done|]. split.
  - split; [apply Z.div_pos; nia|apply Z.div_le_mono; nia].
  - apply Z.div_le_upper_bound; nia.
Qed.

Lemma parts_sum (k : nat) :
  Z.of_nat k ≤ kThreadCount →
  zsum ((λ t, thread_end t - thread_begin t) <$> seqZ 0 (Z.of_nat k)) =
    thread_begin (Z.of_nat k).
Proof.
  induction k as [|k IH]; intros Hk.
  - rewrite thread_begin_eq by lia. by rewrite Z.mul_0_r.
  - rewrite Nat2Z.inj_succ in *. rewrite <-Z.add_1_r, zsum_seqZ_snoc, IH by lia.
    rewrite Z.add_0_l. destruct (thread_bounds (Z.of_nat k)) as [-> _]; lia.
Qed.

(** ** The invariant of a phase *)

(** The queries executed when thread [t] has executed [issued !! t] of them. *)
Definition all_issued (issued : list nat) : list Query :=
  concat (imap (λ t n, (thread_stream (Z.of_nat t) n).1) issued).

(** A worker that has executed [n] queries. *)
Definition worker_at (t : nat) (n : nat) (w : Worker) : Prop :=
  Z.of_nat n ≤ thread_end (Z.of_nat t) - thread_begin (Z.of_nat t) ∧
  w_i w = thread_begin (Z.of_nat t) + Z.of_nat n ∧
  w_rng w = (thread_stream (Z.of_nat t) n).2 ∧
  queries (w_stats w) = Z.of_nat n.

Record phase_inv (lock0 : L) (data0 : list Z) (issued : list nat) (st : PhaseState) : Prop := {
  inv_idle : lock_idle (ph_lock st);
  inv_size : lock_size (ph_lock st) = kArraySize;
  inv_ops : lock_operations (ph_lock st) =
              u64 (lock_operations lock0 + zsum (Z.of_nat <$> issued));
  inv_len : len (ph_data st) = kArraySize;
  inv_data p : 0 ≤ p < kArraySize →
    s32 (ph_data st).[p] = s32 (data0.[p] + added p (all_issued issued));
  inv_threads : len issued = kThreadCount ∧ length (ph_workers st) = length issued;
  inv_workers t w n : ph_workers st !! t = Some w → issued !! t = Some n → worker_at t n w
}.

Lemma concat_insert_snoc {A} (ll : list (list A)) t l x :
  ll !! t = Some l → concat (<[t := l ++ [x]]> ll) ≡ₚ x :: concat ll.
Proof.
  revert t. induction ll as [|l0 ll IH]; intros [|t] Ht; simpl in *; simplify_eq.
  - rewrite <-app_assoc. simpl. by rewrite <-Permutation_middle.
  - rewrite (IH t Ht). by rewrite <-Permutation_middle.
Qed.

Lemma imap_insert_eq {A B} (f : nat → A → B) (l : list A) t x :
  imap f (<[t := x]> l) = <[t := f t x]> (imap f l).
Proof.
  apply list_eq. intros k. rewrite list_lookup_imap.
  destruct (decide (t = k)) as [->|Hne].
  - destruct (decide (k < length l)%nat).
    + rewrite !list_lookup_insert_eq by (rewrite ?length_imap; lia). done.
    + rewrite !lookup_ge_None_2; rewrite ?length_insert, ?length_imap; (done || lia).
  - rewrite !list_lookup_insert_ne by done. by rewrite list_lookup_imap.
Qed.

Lemma all_issued_step issued t n q rng :
  issued !! t = Some n →
  MakeStreamQuery (thread_stream (Z.of_nat t) n).2 spec (Z.of_nat t)
    (thread_begin (Z.of_nat t) + Z.of_nat n) = (q, rng) →
  all_issued (<[t := S n]> issued) ≡ₚ q :: all_issued issued ∧
  (thread_stream (Z.of_nat t) (S n)).2 = rng.
Proof.
  intros Ht Hq. cbn [thread_stream]. unfold all_issued. rewrite imap_insert_eq. cbn [thread_stream].
  destruct (thread_stream (Z.of_nat t) n) as [qs r] eqn:Hs. simpl in Hq. rewrite Hq. split; [|done].
  apply concat_insert_snoc. rewrite list_lookup_imap, Ht. simpl. by rewrite Hs.
Qed.

Lemma zsum_insert (l : list nat) t n :
  l !! t = Some n → zsum (Z.of_nat <$> <[t := S n]> l) = zsum (Z.of_nat <$> l) + 1.
Proof.
  revert t. induction l as [|m l IH]; intros [|t] Ht; [done..| |]; simpl in Ht.
  - injection Ht as ->. change (<[0%nat := S n]> (n :: l)) with (S n :: l).
    rewrite !fmap_cons, !zsum_cons. lia.
  - change (<[S t := S n]> (m :: l)) with (m :: <[t := S n]> l).
    rewrite !fmap_cons, !zsum_cons, IH by done. lia.
Qed.

Lemma stream_query_ok t i rng : query_ok (MakeStreamQuery rng spec t i).1.
Proof.
  pose proof (stream_query_within rng spec t i Hspec) as Hw. unfold query_ok.
  destruct (stream_window spec t i) as [b w]. unfold query_within in Hw. lia.
Qed.

(** The data after one more query. *)
Lemma data_step data data0 qs q l r stats p :
  0 ≤ q_target q < len data → 0 ≤ p →
  s32 data.[p] = s32 (data0.[p] + added p qs) →
  s32 (query_body q body l r (data, stats)).1.[p] = s32 (data0.[p] + added p (q :: qs)).
Proof.
  intros Hq Hp Hd. rewrite query_body_data, added_cons by done. destruct body; [|by rewrite Hd].
  destruct (Z.eqb_spec (q_target q) p).
  - rewrite <-(Z.add_0_r (s32 (_ + _))), s32_s32_add, Z.add_0_r, <-s32_s32_add, Hd, s32_s32_add.
    f_equal. lia.
  - by rewrite Hd.
Qed.

(** A worker that has not finished executes its next query. *)
Lemma worker_step_ok lock0 data0 issued st t w n delta :
  phase_inv lock0 data0 issued st → ph_workers st !! t = Some w → issued !! t = Some n →
  w_i w < thread_end (Z.of_nat t) →
  ∃ st', worker_step t delta st = Some st' ∧ phase_inv lock0 data0 (<[t := S n]> issued) st'.
Proof.
  intros [Hidle Hsize Hops Hlen Hdata [HlenT Hlw] Hw] Ht Hn Hlt.
  destruct (Hw t w n Ht Hn) as (Hle & Hi & Hrng & Hq).
  assert (0 ≤ Z.of_nat t < kThreadCount) as HtT
    by (apply lookup_lt_Some in Hn; unfold len in HlenT; lia).
  destruct (thread_bounds (Z.of_nat t) HtT) as (_ & Hb & He).
  assert (count spec < modulus64) as Hc64 by nia.
  unfold worker_step. rewrite Ht. simpl. rewrite (proj2 (Z.ltb_lt _ _) Hlt), Hrng, Hi.
  pose proof (stream_query_ok (Z.of_nat t) (thread_begin (Z.of_nat t) + Z.of_nat n)
    (thread_stream (Z.of_nat t) n).2) as Hqok.
  destruct (MakeStreamQuery _ spec _ _) as [q rng] eqn:Hmk. cbn [fst] in Hqok.
  destruct (all_issued_step issued t n q rng Hn Hmk) as [Hperm Hrng'].
  destruct (ExecuteQuery_eq delta q (ph_lock st) (w_locals w) (ph_data st) (w_stats w) Hidle Hsize Hqok)
    as (lock' & loc' & -> & Hidle' & Hsize' & Hops').
  pose proof (query_body_len q (q_left q) (q_right q) (ph_data st) (w_stats w)) as Hlen'.
  pose proof (query_body_queries q (q_left q) (q_right q) (ph_data st) (w_stats w)) as Hqs.
  pose proof (λ p, data_step (ph_data st) data0 (all_issued issued) q (q_left q) (q_right q)
    (w_stats w) p) as Hds.
  destruct (query_body q body _ _ _) as [data' s] eqn:Hbody. simpl in Hlen', Hqs, Hds.
  eexists. split; [done|]. destruct Hqok as [Hq1 Hq2]. split; simpl.
  - done.
  - done.
  - rewrite Hops', Hops, (zsum_insert _ _ _ Hn), u64_add_r. f_equal. lia.
  - lia.
  - intros p Hp. rewrite (added_perm p _ _ Hperm). apply Hds; [lia|lia|by apply Hdata].
  - unfold len in *. rewrite !length_insert. done.
  - intros t' w' n' Ht' Hn'. destruct (decide (t = t')) as [<-|Hne].
    + rewrite list_lookup_insert_eq in Ht' by (by eapply lookup_lt_Some).
      rewrite list_lookup_insert_eq in Hn' by (by eapply lookup_lt_Some).
      injection Ht' as <-. injection Hn' as <-. unfold worker_at. simpl.
      rewrite Hqs, Hq, u64_add_small, u64_add_small by lia. simpl in Hrng'.
      split; [lia|]. split; [lia|]. split; [done|lia].
    + rewrite list_lookup_insert_ne in Ht' by done. rewrite list_lookup_insert_ne in Hn' by done.
      by apply Hw.
Qed.

Lemma start_phase_inv lock data :
  lock_idle lock → lock_size lock = kArraySize → is_u64 (lock_operations lock) → len data = kArraySize →
  phase_inv lock data (replicate (Z.to_nat kThreadCount) 0%nat) (start_phase lock data).
Proof.
  intros Hi Hs Ho Hl.
  assert (∀ k j, imap (λ t n, (thread_stream (Z.of_nat (j + t)) n).1) (replicate k 0%nat) =
    replicate k []) as Himap.
  { induction k as [|k IH]; intros j; [done|]. simpl. f_equal. rewrite <-(IH (S j)).
    apply imap_ext. intros x y _. unfold compose. by rewrite Nat.add_succ_r. }
  assert (∀ k, concat (replicate k []) = ([] : list Query)) as Hconcat by (induction k; done).
  assert (∀ k, zsum (Z.of_nat <$> replicate k 0%nat) = 0) as Hzero
    by (intros k; induction k as [|k IH]; [done|]; by rewrite replicate_S, fmap_cons, zsum_cons, IH).
  split; simpl; try done.
  - by rewrite Hzero, Z.add_0_r, u64_small.
  - intros p _. unfold all_issued. rewrite (Himap _ 0%nat), Hconcat. unfold added.
    destruct body; by rewrite Z.add_0_r.
  - rewrite len_replicate, length_replicate, length_fmap, length_seqZ. lia.
  - intros t w n Ht Hn. apply lookup_replicate in Hn as [-> Hlt].
    apply list_lookup_fmap_Some in Ht as (z & -> & Hz). apply lookup_seqZ in Hz as [-> Hz].
    rewrite Z.add_0_l. destruct (thread_bounds (Z.of_nat t)) as (_ & ? & _); [lia|].
    unfold worker_at, start_worker. simpl. rewrite Z.add_0_r. split; [lia|done].
Qed.

(** One call of any worker. *)
Lemma worker_step_inv lock0 data0 issued st t delta st' :
  phase_inv lock0 data0 issued st → worker_step t delta st = Some st' →
  ∃ n, issued !! t = Some n ∧ phase_inv lock0 data0 (<[t := S n]> issued) st'.
Proof.
  intros Hinv Hstep. pose proof Hstep as Hstep'. unfold worker_step in Hstep'.
  destruct (ph_workers st !! t) as [w|] eqn:Ht; [|done]. simpl in Hstep'.
  destruct (Z.ltb_spec (w_i w) (thread_end (Z.of_nat t))) as [Hlt|]; [|done]. clear Hstep'.
  destruct (issued !! t) as [n|] eqn:Hn.
  - destruct (worker_step_ok _ _ _ _ t w n delta Hinv Ht Hn Hlt) as (st'' & Hs & Hinv').
    rewrite Hstep in Hs. injection Hs as <-. by exists n.
  - destruct (inv_threads _ _ _ _ Hinv) as [_ Hlw].
    apply lookup_lt_Some in Ht. apply lookup_ge_None in Hn. lia.
Qed.

Lemma run_schedule_inv lock0 data0 schedule : ∀ issued st st',
  phase_inv lock0 data0 issued st → run_schedule schedule st = Some st' →
  ∃ issued', phase_inv lock0 data0 issued' st' ∧
    zsum (Z.of_nat <$> issued') = zsum (Z.of_nat <$> issued) + len schedule.
Proof.
  induction schedule as [|[t delta] schedule IH]; intros issued st st' Hinv Hrun; simpl in Hrun.
  - injection Hrun as <-. exists issued. split; [done|]. unfold len. simpl. lia.
  - destruct (worker_step t delta st) as [st1|] eqn:Hstep; [|done]. simpl in Hrun.
    destruct (worker_step_inv _ _ _ _ _ _ _ Hinv Hstep) as (n & Hn & Hinv1).
    destruct (IH _ _ _ Hinv1 Hrun) as (issued' & Hinv' & Hsum). exists issued'. split; [done|].
    rewrite Hsum, (zsum_insert _ _ _ Hn), len_cons. lia.
Qed.

(** The sums over lists indexed by the thread. *)
Lemma zsum_indexed (R : Z → Z → Prop) (l : list nat) (f : Z → Z) :
  R 0 0 → (∀ a b c d, R a b → R c d → R (a + c) (b + d)) →
  ∀ j, (∀ t n, l !! t = Some n → R (Z.of_nat n) (f (j + Z.of_nat t))) →
  R (zsum (Z.of_nat <$> l)) (zsum (f <$> seqZ j (len l))).
Proof.
  intros H0 Hadd. induction l as [|n l IH]; intros j Hf; [done|].
  rewrite len_cons, Z.add_comm, seqZ_app by (pose proof (len_nonneg l); lia).
  rewrite fmap_app, zsum_app, fmap_cons, zsum_cons. change (seqZ j 1) with [0 + j]. rewrite Z.add_0_l.
  apply Hadd.
  - specialize (Hf 0%nat n eq_refl). rewrite fmap_cons, zsum_cons, Z.add_0_r in *.
    done.
  - apply IH. intros t m Ht. specialize (Hf (S t) m Ht).
    by replace (j + 1 + Z.of_nat t) with (j + Z.of_nat (S t)) by lia.
Qed.

Lemma concat_indexed (l : list nat) (f : Z → list Query) : ∀ j,
  (∀ t n, l !! t = Some n → (thread_stream (Z.of_nat (j + t)) n).1 = f (Z.of_nat (j + t))) →
  imap (λ t n, (thread_stream (Z.of_nat (j + t)) n).1) l = f <$> seqZ (Z.of_nat j) (len l).
Proof.
  induction l as [|n l IH]; intros j Hf; [done|].
  rewrite len_cons, Z.add_comm, seqZ_app by (pose proof (len_nonneg l); lia).
  rewrite fmap_app. change (seqZ (Z.of_nat j) 1) with [0 + Z.of_nat j]. rewrite Z.add_0_l. simpl. f_equal.
  - specialize (Hf 0%nat n eq_refl). by rewrite Nat.add_0_r in *.
  - replace (Z.of_nat j + 1) with (Z.of_nat (S j)) by lia. rewrite <-(IH (S j)).
    + apply imap_ext. intros x y _. unfold compose. by rewrite Nat.add_succ_r.
    + intros t m Ht. specialize (Hf (S t) m Ht). by replace (S j + t)%nat with (j + S t)%nat by lia.
Qed.

Lemma parts_total :
  zsum ((λ t, thread_end t - thread_begin t) <$> seqZ 0 kThreadCount) = count spec.
Proof.
  pose proof (parts_sum (Z.to_nat kThreadCount) ltac:(lia)) as Hsum.
  rewrite Z2Nat.id in Hsum by lia. rewrite Hsum, thread_begin_eq by lia. by apply Z.div_mul; lia.
Qed.

Lemma inv_worker_at lock0 data0 issued st t n :
  phase_inv lock0 data0 issued st → issued !! t = Some n →
  ∃ w, ph_workers st !! t = Some w ∧ worker_at t n w.
Proof.
  intros Hinv Ht. destruct (inv_threads _ _ _ _ Hinv) as [_ Hlw].
  pose proof (lookup_lt_Some _ _ _ Ht).
  destruct (lookup_lt_is_Some_2 (ph_workers st) t ltac:(lia)) as [w Hw].
  exists w. split; [done|]. by apply (inv_workers _ _ _ _ Hinv).
Qed.

Lemma issued_le lock0 data0 issued st :
  phase_inv lock0 data0 issued st → zsum (Z.of_nat <$> issued) ≤ count spec.
Proof.
  intros Hinv. rewrite <-parts_total, <-(proj1 (inv_threads _ _ _ _ Hinv)).
  apply (zsum_indexed Z.le); [lia..|]. intros t n Ht.
  rewrite Z.add_0_l. by destruct (inv_worker_at _ _ _ _ _ _ Hinv Ht) as (w & _ & Hle & _).
Qed.

Lemma sum_queries (ws : list Worker) : ∀ a,
  queries (foldl (λ result w,
    {| queries := queries result +₆₄ queries (w_stats w);
       sum_checksum := sum_checksum result +₆₄ sum_checksum (w_stats w);
       update_checksum := update_checksum result +₆₄ update_checksum (w_stats w) |}) a ws) =
  foldl u64_add (queries a) ((λ w, queries (w_stats w)) <$> ws).
Proof. induction ws as [|w ws IH]; intros a; [done|]. simpl. by rewrite IH. Qed.

(** The sums of the workers count the queries that were executed. *)
Lemma phase_result_queries lock0 data0 issued st :
  phase_inv lock0 data0 issued st →
  queries (phase_result st) = u64 (zsum (Z.of_nat <$> issued)).
Proof.
  intros Hinv. unfold phase_result.
  assert ((λ w, queries (w_stats w)) <$> ph_workers st = Z.of_nat <$> issued) as <-.
  { apply list_eq. intros t. rewrite !list_lookup_fmap. destruct (issued !! t) as [n|] eqn:Ht.
    - destruct (inv_worker_at _ _ _ _ _ _ Hinv Ht) as (w & -> & _ & _ & _ & Hq). simpl. by rewrite Hq.
    - apply lookup_ge_None in Ht. destruct (inv_threads _ _ _ _ Hinv) as [_ Hlw].
      rewrite (lookup_ge_None_2 (ph_workers st)) by lia. done. }
  rewrite <-accumulate_spec. apply (sum_queries _ {| queries := 0; sum_checksum := 0; update_checksum := 0 |}).
Qed.

Lemma not_finished st :
  ¬ finished st → ∃ t w, ph_workers st !! t = Some w ∧ w_i w < thread_end (Z.of_nat t).
Proof.
  intros Hnot.
  destruct (decide (Exists (λ '(t, w), (w_i w <? thread_end (Z.of_nat t)) = true) (imap pair (ph_workers st))))
    as [Hex|Hno].
  - apply Exists_exists in Hex as ([t' w'] & Hin & Hlt). apply list_elem_of_lookup in Hin as [t Ht].
    rewrite list_lookup_imap in Ht. destruct (ph_workers st !! t) as [w|] eqn:Hw; [|done].
    simplify_eq/=. exists t', w'. split; [done|]. by apply Z.ltb_lt.
  - destruct Hnot. intros t w Hw. apply not_true_iff_false. intros Hlt. apply Hno, Exists_exists.
    exists (t, w). split; [|done]. apply list_elem_of_lookup. exists t. by rewrite list_lookup_imap, Hw.
Qed.

(** From any state a scheduler can finish the phase. *)
Lemma phase_completes lock0 data0 (k : nat) : ∀ issued st,
  phase_inv lock0 data0 issued st → (Z.to_nat (count spec - zsum (Z.of_nat <$> issued)) < k)%nat →
  ∃ schedule st', run_schedule schedule st = Some st' ∧ finished st'.
Proof.
  induction k as [|k IH]; intros issued st Hinv Hk; [lia|].
  destruct (decide (finished st)) as [Hfin|Hnot]; [by exists [], st|].
  destruct (not_finished st Hnot) as (t & w & Hw & Hlt).
  destruct (inv_threads _ _ _ _ Hinv) as [_ Hlw]. pose proof (lookup_lt_Some _ _ _ Hw).
  destruct (lookup_lt_is_Some_2 issued t ltac:(lia)) as [n Hn].
  destruct (worker_step_ok _ _ _ _ t w n 0 Hinv Hw Hn Hlt) as (st1 & Hs1 & Hinv1).
  pose proof (zsum_insert _ _ _ Hn) as Hz. pose proof (issued_le _ _ _ _ Hinv1) as Hle1.
  destruct (IH _ _ Hinv1) as (schedule & st' & Hrun & Hfin); [lia|].
  exists ((t, 0) :: schedule), st'. split; [|done]. simpl. by rewrite Hs1.
Qed.

(** When all workers have finished, each has executed all of its part. *)
Lemma finished_issued lock0 data0 issued st :
  phase_inv lock0 data0 issued st → finished st →
  zsum (Z.of_nat <$> issued) = count spec ∧
  all_issued issued = concat (thread_queries <$> seqZ 0 kThreadCount).
Proof.
  intros Hinv Hfin. destruct (inv_threads _ _ _ _ Hinv) as [HlT Hlw].
  assert (∀ t n, issued !! t = Some n →
    Z.of_nat n = thread_end (Z.of_nat t) - thread_begin (Z.of_nat t)) as Hn.
  { intros t n Ht. destruct (inv_worker_at _ _ _ _ _ _ Hinv Ht) as (w & Hw & Hle & Hi & _).
    specialize (Hfin t w Hw). apply Z.ltb_ge in Hfin. lia. }
  split.
  - rewrite (zsum_indexed eq issued (λ t, thread_end t - thread_begin t) eq_refl ltac:(congruence) 0)
      by (intros; by apply Hn).
    rewrite HlT. apply parts_total.
  - unfold all_issued. f_equal. rewrite <-HlT.
    apply (concat_indexed issued thread_queries 0). intros t n Ht. simpl.
    unfold thread_queries. rewrite <-(Hn t n Ht), Nat2Z.id. done.
Qed.

End Run.
End Phase.

Arguments Worker Loc : clear implicits.
Arguments PhaseState L Loc : clear implicits.

(** ** Property *)

Lemma phase_correct {L Loc : Type} `{QL : QueryLock L Loc} kThreadCount spec body lock data
    schedule st :
  0 < kThreadCount → 0 ≤ count spec → count spec * kThreadCount < modulus64 → spec_ok spec →
  lock_idle lock → lock_size lock = kArraySize → is_u64 (lock_operations lock) →
  len data = kArraySize →
  run_schedule kThreadCount spec body schedule (start_phase kThreadCount spec lock data) = Some st →
  len schedule ≤ count spec ∧
  (∀ t w delta, ph_workers st !! t = Some w → w_i w < thread_end kThreadCount spec (Z.of_nat t) →
    is_Some (worker_step kThreadCount spec body t delta st)) ∧
  (finished kThreadCount spec st →
    len schedule = count spec ∧ queries (phase_result st) = count spec ∧
    lock_idle (ph_lock st) ∧ lock_size (ph_lock st) = kArraySize ∧ len (ph_data st) = kArraySize ∧
    lock_operations (ph_lock st) = u64 (lock_operations lock + count spec) ∧
    ∀ p, 0 ≤ p < kArraySize →
      s32 (ph_data st).[p] =
      s32 (data.[p] + added body p (concat (thread_queries kThreadCount spec <$> seqZ 0 kThreadCount)))).
Proof.
  intros HT Hc Hmul Hspec Hi Hs Ho Hl Hrun.
  pose proof (start_phase_inv kThreadCount spec body HT Hc Hmul lock data Hi Hs Ho Hl) as Hinv0.
  destruct (run_schedule_inv kThreadCount spec body HT Hc Hmul Hspec _ _ _ _ _ _ Hinv0 Hrun)
    as (issued & Hinv & Hsum).
  assert (zsum (Z.of_nat <$> replicate (Z.to_nat kThreadCount) 0%nat) = 0) as Hzero
    by (generalize (Z.to_nat kThreadCount); intros k; induction k as [|k IH]; [done|];
        by rewrite replicate_S, fmap_cons, zsum_cons, IH).
  rewrite Hzero, Z.add_0_l in Hsum.
  pose proof (issued_le kThreadCount spec body HT Hc Hmul _ _ _ _ Hinv) as Hle.
  split; [lia|]. split.
  - intros t w delta Hw Hlt. destruct (issued !! t) as [n|] eqn:Hn.
    + destruct (worker_step_ok kThreadCount spec body HT Hc Hmul Hspec _ _ _ _ t w n delta Hinv Hw Hn Hlt)
        as (st' & Hst' & _). by exists st'.
    + apply lookup_ge_None in Hn. apply lookup_lt_Some in Hw.
      destruct (inv_threads _ _ _ _ _ _ _ Hinv). lia.
  - intros Hfin.
    destruct (finished_issued kThreadCount spec body HT Hc Hmul _ _ _ _ Hinv Hfin) as [Htot Hall].
    rewrite (phase_result_queries kThreadCount spec body _ _ _ _ Hinv).
    destruct Hinv as [Hi' Hs' Hops' Hl' Hd' _ _]. rewrite Htot in *. rewrite <-Hall.
    split; [lia|]. split; [apply u64_small; unfold is_u64; nia|]. done.
Qed.

(** The hypotheses of a phase. *)
Record phase_ready {L Loc : Type} `{QL : QueryLock L Loc} (kThreadCount : Z) (spec : QueryStreamSpec)
    (lock : L) (data : list Z) : Prop := {
  ready_threads : 0 < kThreadCount;
  ready_count : 0 ≤ count spec ∧ count spec * kThreadCount < modulus64;
  ready_spec : spec_ok spec;
  ready_idle : lock_idle lock;
  ready_size : lock_size lock = kArraySize;
  ready_ops : is_u64 (lock_operations lock);
  ready_data : len data = kArraySize
}.

(** What a phase leaves. *)
Definition phase_done {L Loc : Type} `{QL : QueryLock L Loc} (kThreadCount : Z) (spec : QueryStreamSpec)
    (body : QueryBody) (lock : L) (data : list Z) (lock' : L) (data' : list Z) (stats : PhaseRunStats) : Prop :=
  queries (phase_sums stats) = count spec ∧
  lock_idle lock' ∧ lock_size lock' = kArraySize ∧ len data' = kArraySize ∧
  lock_operations lock' = u64 (lock_operations lock + count spec) ∧
  ∀ p, 0 ≤ p < kArraySize →
    s32 data'.[p] =
    s32 (data.[p] + added body p (concat (thread_queries kThreadCount spec <$> seqZ 0 kThreadCount))).

Lemma RunPhase_spec {L Loc : Type} `{QL : QueryLock L Loc} kThreadCount spec body lock data :
  phase_ready kThreadCount spec lock data →
  (∃ run, is_Some (RunPhase kThreadCount spec body lock data run)) ∧
  ∀ run lock' data' stats, RunPhase kThreadCount spec body lock data run = Some (lock', data', stats) →
    phase_done kThreadCount spec body lock data lock' data' stats.
Proof.
  intros [HT [Hc Hmul] Hspec Hi Hs Ho Hl]. split.
  - pose proof (start_phase_inv kThreadCount spec body HT Hc Hmul lock data Hi Hs Ho Hl) as Hinv.
    destruct (phase_completes kThreadCount spec body HT Hc Hmul Hspec _ _ _ _ _ Hinv (Nat.lt_succ_diag_r _))
      as (schedule & st & Hrun & Hfin).
    exists {| schedule := schedule; elapsed := d_zero |}. unfold RunPhase. simpl. rewrite Hrun. simpl.
    by rewrite decide_True.
  - intros run lock' data' stats. unfold RunPhase.
    destruct (run_schedule _ _ _ _ _) as [st|] eqn:Hrun; [|done]. simpl.
    destruct (decide _) as [Hfin|]; [|done]. intros [= <- <- <-].
    destruct (phase_correct kThreadCount spec body lock data (schedule run) st HT Hc Hmul Hspec Hi Hs Ho Hl Hrun)
      as (_ & _ & Hend). by destruct (Hend Hfin) as (_ & H).
Qed.

(** C39. [RunPhase] with any number of threads and any order of their calls. It is
    never stuck: after any calls, fewer than [count] or the phase is over, and if a
    worker has not finished, its next call succeeds; some order finishes the phase.
    When the phase has ended, every query of the stream was executed once: the sums
    of the workers and the lock count exactly [count] queries, and the data hold at
    every position the initial value plus the deltas of all queries with that
    target, modulo [2^32]: the data do not depend on the order. *)
Theorem RunPhase_correct {L Loc : Type} `{QL : QueryLock L Loc} kThreadCount spec body lock data :
  phase_ready kThreadCount spec lock data →
  (∀ calls st,
    run_schedule kThreadCount spec body calls (start_phase kThreadCount spec lock data) = Some st →
    len calls ≤ count spec ∧
    (finished kThreadCount spec st ∨
     ∃ t, ∀ delta, is_Some (worker_step kThreadCount spec body t delta st))) ∧
  (∃ run, is_Some (RunPhase kThreadCount spec body lock data run)) ∧
  ∀ run lock' data' stats, RunPhase kThreadCount spec body lock data run = Some (lock', data', stats) →
    phase_done kThreadCount spec body lock data lock' data' stats.
Proof.
  intros Hready. split; [|by apply RunPhase_spec]. destruct Hready as [HT [Hc Hmul] Hspec Hi Hs Ho Hl].
  intros calls st Hrun.
  destruct (phase_correct kThreadCount spec body lock data calls st HT Hc Hmul Hspec Hi Hs Ho Hl Hrun)
    as (Hle & Hstep & _).
  split; [done|]. destruct (decide (finished kThreadCount spec st)) as [Hfin|Hnot]; [by left|right].
  destruct (not_finished kThreadCount spec st Hnot) as (t & w & Hw & Hlt). exists t. intros delta.
  by apply (Hstep t w).
Qed.

(** Two threads on a [NaiveLock], one query each, with the empty body. *)
Definition zero_data : list Z := replicate (Z.to_nat kArraySize) 0.

Lemma RunPhase_correct_witness :
  let QL := naive_query_lock 64 ltac:(by vm_compute) in
  let spec := BuildQueries 2 kUniform kLeft 1 5 in
  let lock := naive_make 64 kArraySize in
  phase_ready 2 spec lock zero_data ∧
  ∃ run lock' data' stats, RunPhase 2 spec kLockOnly lock zero_data run = Some (lock', data', stats) ∧
    queries (phase_sums stats) = 2 ∧ lock_operations lock' = 2.
Proof.
  intros QL spec lock.
  assert (phase_ready 2 spec lock zero_data) as Hready.
  { split; [lia|split; [simpl; lia|by vm_compute]|done| |reflexivity|exact is_u64_0|].
    - apply (naive_make_ok 64); by vm_compute.
    - unfold zero_data. rewrite len_replicate. by vm_compute. }
  split; [done|].
  destruct (RunPhase_correct 2 spec kLockOnly lock zero_data Hready) as (_ & (run & [[lock' data'] stats] & Hrun) & Hend).
  exists run, lock', data', stats. split; [done|].
  destruct (Hend _ _ _ _ Hrun) as (Hq & _ & _ & _ & Ho & _). split; [exact Hq|]. exact Ho.
Defined.
