(* ===== verification/PrintCompat.v ===== *)
(** The formatter of the benchmarks' reports ([common/print_compat.hpp]).

    A replacement for [std::print]: [ParseSpec] reads the specification of a
    placeholder, [FormatValue] renders a value with it, [AppendFormat] replaces
    the placeholders of a format from left to right. A string is a list of
    characters and a position in it is the remaining suffix. The theorems: a
    specification that is printed and parsed is unchanged, and a format that is a
    sequence of texts and placeholders prints the texts and the rendered values,
    also when there are more values or fewer than placeholders. *)
From Stdlib Require Import Ascii String.
From stdpp Require Import pretty.
From S2P Require Import Double Prelude.

Open Scope Z_scope.

Definition str : Type := list ascii.

Definition text (s : string) : str := list_ascii_of_string s.

Definition open_brace : ascii := Ascii.ascii_of_nat 123.
Definition close_brace : ascii := Ascii.ascii_of_nat 125.
Definition colon : ascii := Ascii.ascii_of_nat 58.
Definition less : ascii := Ascii.ascii_of_nat 60.
Definition greater : ascii := Ascii.ascii_of_nat 62.
Definition dot : ascii := Ascii.ascii_of_nat 46.
Definition space : ascii := Ascii.ascii_of_nat 32.
Definition minus : ascii := Ascii.ascii_of_nat 45.

(** The code of a character. *)
Definition code (c : ascii) : Z := Z.of_N (N_of_ascii c).

(** [c >= '0' && c <= '9'] and [static_cast<int>(c - '0')] *)
Definition is_digit (c : ascii) : bool := (48 <=? code c) && (code c <=? 57).
Definition digit_value (c : ascii) : Z := code c - 48.

Record FormatSpec := { width : Z; precision : Z; left_align : bool }.

(** The two loops that read digits into an [int]; where it would overflow, which C++
    leaves undefined, the model wraps around. *)
Fixpoint parse_digits (acc : Z) (s : str) : Z * str :=
  match s with
  | c :: s' => if is_digit c then parse_digits (s32 (acc * 10 + digit_value c)) s' else (acc, s)
  | [] => (acc, s)
  end.

Definition ParseSpec (spec : str) : FormatSpec :=
  match spec with
  | [] => {| width := 0; precision := -1; left_align := false |}
  | c :: rest =>
      let '(align, s) :=
        if decide (c = less) then (true, rest) else if decide (c = greater) then (false, rest)
        else (false, spec) in
      let '(w, s) := parse_digits 0 s in
      let p :=
        match s with
        | c :: rest => if decide (c = dot) then (parse_digits 0 rest).1 else -1
        | [] => -1
        end in
      {| width := w; precision := p; left_align := align |}
  end.

(** The decimal digits of a number; an [int] or [size_t] prints as them. *)
Definition digit_char (d : Z) : ascii := ascii_of_N (Z.to_N (48 + d)).

Fixpoint digits_of (fuel : nat) (z : Z) (acc : str) : str :=
  match fuel with
  | O => acc
  | S fuel' =>
      let acc := digit_char (z mod 10) :: acc in
      if z <? 10 then acc else digits_of fuel' (z / 10) acc
  end.

(** Twenty digits are enough for 64 bits. *)
Definition print_Z (z : Z) : str :=
  if z <? 0 then minus :: digits_of 20 (- z) [] else digits_of 20 z [].

(** A value to print. *)
Inductive Arg := AText (s : str) | AInt (z : Z) | ADouble (d : double).

Section Format.
  (** What [std::ostream] prints for a [double], with the precision of [std::fixed]
      or, for [-1], in the default format. *)
  Variable show_double : Z → double → str.

Definition render (a : Arg) (spec : FormatSpec) : str :=
  match a with
  | AText s => s
  | AInt z => print_Z z
  | ADouble d => show_double (if 0 <=? precision spec then precision spec else -1) d
  end.

(** [std::setw]: padding to the width, on the right when left aligned. *)
Definition FormatValue (a : Arg) (spec : FormatSpec) : str :=
  let s := render a spec in
  let pad := replicate (Z.to_nat (width spec) - length s) space in
  if left_align spec then s ++ pad else pad ++ s.

Fixpoint AppendFormat (fmt : str) (args : list Arg) : str :=
  match args with
  | [] => fmt
  | value :: rest =>
      match list_find (λ c, c = open_brace) fmt with
      | None => fmt
      | Some (opening, _) =>
          match list_find (λ c, c = close_brace) (drop opening fmt) with
          | None => fmt
          | Some (k, _) =>
              let close := (opening + k)%nat in
              let spec :=
                if decide ((opening + 1 < close)%nat ∧ fmt !! (opening + 1)%nat = Some colon)
                then take (close - opening - 2) (drop (opening + 2) fmt) else [] in
              take opening fmt ++ FormatValue value (ParseSpec spec) ++
              AppendFormat (drop (close + 1) fmt) rest
          end
      end
  end.

(** [Print] and [Println] append to the standard output. *)
Definition Print (out : str) (fmt : str) (args : list Arg) : str := out ++ AppendFormat fmt args.

Definition newline : ascii := Ascii.ascii_of_nat 10.

Definition Println (out : str) (fmt : str) (args : list Arg) : str :=
  Print out fmt args ++ [newline].

(** [std::print] and [std::println]; the text printed so far comes last, so that a
    report reads in the order it prints. *)
Definition print (fmt : string) (args : list Arg) (out : str) : str := Print out (text fmt) args.
Definition println (fmt : string) (args : list Arg) (out : str) : str := Println out (text fmt) args.

End Format.

Notation "out ▷ f" := (f out) (at level 62, left associativity, only parsing).

(** The end of a line in a format. *)
Definition nl : string := String newline EmptyString.

(** ** Specifications round trip *)

(** The text of a specification. *)
Definition print_spec (s : FormatSpec) : str :=
  (if left_align s then [less] else []) ++
  (if width s =? 0 then [] else digits_of 20 (width s) []) ++
  (if precision s =? -1 then [] else dot :: digits_of 20 (precision s) []).

Lemma code_digit d : 0 ≤ d < 10 → code (digit_char d) = 48 + d.
Proof.
  intros Hd. unfold code, digit_char. rewrite N_ascii_embedding by lia. lia.
Qed.

Lemma digit_char_digit d : 0 ≤ d < 10 → is_digit (digit_char d) = true ∧ digit_value (digit_char d) = d.
Proof. intros Hd. unfold is_digit, digit_value. rewrite code_digit by done. split; [zbool; lia|lia]. Qed.

Lemma digits_of_app fuel : ∀ z acc, digits_of fuel z acc = digits_of fuel z [] ++ acc.
Proof.
  induction fuel as [|fuel IH]; intros z acc; [done|]. cbn [digits_of].
  destruct (z <? 10); [done|]. rewrite IH, (IH _ [_]), <-app_assoc. done.
Qed.

Lemma parse_digit a d s :
  0 ≤ d < 10 → parse_digits a (digit_char d :: s) = parse_digits (s32 (a * 10 + d)) s.
Proof. intros Hd. cbn [parse_digits]. by destruct (digit_char_digit d Hd) as [-> ->]. Qed.

(** Reading the digits of a number gives the number. *)
Lemma parse_digits_of fuel : ∀ z s,
  0 ≤ z < 2 ^ 31 → z < 10 ^ Z.of_nat fuel → (0 < fuel)%nat →
  parse_digits 0 (digits_of fuel z [] ++ s) = parse_digits z s.
Proof.
  induction fuel as [|fuel IH]; intros z s Hz Hf Hpos; [lia|]. cbn [digits_of].
  pose proof (Z.mod_pos_bound z 10 ltac:(lia)). pose proof (Z.div_mod z 10 ltac:(lia)).
  destruct (Z.ltb_spec z 10).
  - rewrite Z.mod_small by lia. simpl app. rewrite parse_digit, s32_small by lia. done.
  - rewrite digits_of_app, <-app_assoc. simpl app.
    rewrite Nat2Z.inj_succ, Z.pow_succ_r in Hf by lia.
    assert (0 < fuel)%nat by (destruct fuel; [simpl in Hf; lia|lia]).
    assert (0 ≤ z / 10) by (apply Z.div_pos; lia).
    rewrite IH by (try done; lia). rewrite parse_digit, s32_small by lia. f_equal. lia.
Qed.

(** The digits end where the next character is not one. *)
Lemma parse_digits_end z s :
  match s with c :: _ => is_digit c = false | [] => True end → parse_digits z s = (z, s).
Proof. destruct s as [|c s]; [done|]. simpl. by intros ->. Qed.

Lemma parse_number z s :
  0 ≤ z < 2 ^ 31 → match s with c :: _ => is_digit c = false | [] => True end →
  parse_digits 0 ((if z =? 0 then [] else digits_of 20 z []) ++ s) = (z, s).
Proof.
  intros Hz Hs. destruct (Z.eqb_spec z 0) as [->|]; [by apply parse_digits_end|].
  rewrite parse_digits_of by lia. by apply parse_digits_end.
Qed.

Lemma parse_number_digits z s :
  0 ≤ z < 2 ^ 31 → match s with c :: _ => is_digit c = false | [] => True end →
  parse_digits 0 (digits_of 20 z [] ++ s) = (z, s).
Proof. intros Hz Hs. rewrite parse_digits_of by lia. by apply parse_digits_end. Qed.

(** The first digit of a number is a digit. *)
Lemma digits_of_head fuel : ∀ z acc,
  0 ≤ z → (0 < fuel)%nat →
  ∃ d l, digits_of fuel z acc = digit_char d :: l ∧ 0 ≤ d < 10.
Proof.
  induction fuel as [|fuel IH]; intros z acc Hz Hf; [lia|]. cbn [digits_of].
  pose proof (Z.mod_pos_bound z 10 ltac:(lia)). destruct (z <? 10); [by eauto|].
  destruct fuel as [|fuel]; [by eexists _, _|]. apply IH; [apply Z.div_pos; lia|lia].
Qed.

Lemma digits_of_elem fuel : ∀ z acc c,
  0 ≤ z → c ∈ digits_of fuel z acc → c ∈ acc ∨ is_digit c = true.
Proof.
  induction fuel as [|fuel IH]; intros z acc c Hz Hc; [by left|]. cbn [digits_of] in Hc.
  pose proof (digit_char_digit (z mod 10) (Z.mod_pos_bound z 10 ltac:(lia))) as [Hd _].
  assert (c ∈ digit_char (z mod 10) :: acc → c ∈ acc ∨ is_digit c = true) as Hcons
    by (intros [->|Hin]%elem_of_cons; auto).
  destruct (z <? 10); [auto|]. apply IH in Hc as [Hc|Hc]; [auto|by right|apply Z.div_pos; lia].
Qed.

Lemma digit_not d c : 0 ≤ d < 10 → is_digit c = false → digit_char d ≠ c.
Proof. intros Hd Hc <-. by rewrite (proj1 (digit_char_digit d Hd)) in Hc. Qed.

Definition spec_fits (s : FormatSpec) : Prop := 0 ≤ width s < 2 ^ 31 ∧ -1 ≤ precision s < 2 ^ 31.

(** ** Formats *)

(** A format is a first text and then placeholders, each followed by a text. *)
Definition plain (s : str) : Prop := open_brace ∉ s.

#[export] Instance plain_dec s : Decision (plain s).
Proof. unfold plain. apply _. Defined.

#[export] Instance spec_fits_dec s : Decision (spec_fits s).
Proof. unfold spec_fits. apply _. Defined.

Definition placeholder (spec : FormatSpec) : str :=
  open_brace :: colon :: print_spec spec ++ [close_brace].

Definition format (first : str) (parts : list (FormatSpec * str)) : str :=
  first ++ concat ((λ '(spec, s), placeholder spec ++ s) <$> parts).

(** What it prints: placeholders without a value stay as they are. *)
Fixpoint printed (show_double : Z → double → str) (parts : list (FormatSpec * str)) (args : list Arg) : str :=
  match parts, args with
  | [], _ => []
  | (spec, s) :: parts, [] => (placeholder spec ++ s) ++ printed show_double parts []
  | (spec, s) :: parts, a :: args => FormatValue show_double a spec ++ s ++ printed show_double parts args
  end.

Lemma special_not_digit :
  is_digit less = false ∧ is_digit greater = false ∧ is_digit dot = false ∧ is_digit close_brace = false.
Proof. by vm_compute. Qed.

#[local] Arguments digits_of : simpl never.

(** The text after the width. *)
Definition precision_text (s : FormatSpec) : str :=
  if precision s =? -1 then [] else dot :: digits_of 20 (precision s) [].

(** [ParseSpec] after the alignment. *)
Definition parse_rest (align : bool) (s : str) : FormatSpec :=
  let '(w, s) := parse_digits 0 s in
  let p :=
    match s with
    | c :: rest => if decide (c = dot) then (parse_digits 0 rest).1 else -1
    | [] => -1
    end in
  {| width := w; precision := p; left_align := align |}.

Lemma parse_rest_print s :
  spec_fits s →
  parse_rest (left_align s) ((if width s =? 0 then [] else digits_of 20 (width s) []) ++ precision_text s) = s.
Proof.
  intros [Hw Hp]. unfold parse_rest.
  rewrite parse_number; [|done|unfold precision_text; by destruct (_ =? -1)].
  unfold precision_text. destruct s as [w p a]. cbn [width precision left_align] in *. destruct (Z.eqb_spec p (-1)) as [->|]; [done|].
  rewrite decide_True by done. f_equal.
  pose proof (parse_number_digits p [] ltac:(lia) I) as Hn. rewrite app_nil_r in Hn. by rewrite Hn.
Qed.

Lemma ParseSpec_unaligned s :
  match s with c :: _ => c ≠ less ∧ c ≠ greater | [] => True end → ParseSpec s = parse_rest false s.
Proof. destruct s as [|c s]; [done|]. intros [H1 H2]. unfold ParseSpec. by rewrite !decide_False. Qed.

Lemma ParseSpec_print s : spec_fits s → ParseSpec (print_spec s) = s.
Proof.
  intros Hs. pose proof (parse_rest_print s Hs) as Hrest. destruct Hs as [Hw Hp].
  unfold print_spec. change (if precision s =? -1 then _ else _) with (precision_text s).
  destruct special_not_digit as (Hl & Hg & Hd & _). destruct (left_align s) eqn:Ha.
  - etransitivity; [|exact Hrest]. simpl app. unfold ParseSpec. by rewrite decide_True.
  - simpl app. rewrite ParseSpec_unaligned; [done|].
    destruct (width s =? 0); simpl app.
    + unfold precision_text. destruct (_ =? -1); [done|split; by vm_compute].
    + destruct (digits_of_head 20 (width s) [] ltac:(lia) ltac:(lia)) as (d & l & -> & Hd').
      simpl. split; by apply digit_not.
Qed.

Lemma list_find_first (c : ascii) (l r : str) :
  c ∉ l → list_find (λ x, x = c) (l ++ c :: r) = Some (length l, c).
Proof.
  intros Hl. apply list_find_Some. rewrite list_lookup_middle by done. split; [done|]. split; [done|].
  intros j y Hj Hlt ->. rewrite lookup_app_l in Hj by done. by apply Hl, (list_elem_of_lookup_2 _ _ _ Hj).
Qed.

Lemma close_not_in_spec s : spec_fits s → close_brace ∉ print_spec s.
Proof.
  intros [Hw Hp] Hin. destruct special_not_digit as (_ & _ & _ & Hc).
  assert (∀ z, 0 ≤ z → close_brace ∉ digits_of 20 z []) as Hdig.
  { intros z Hz Hin'. apply digits_of_elem in Hin' as [Hin'|Hin']; [by apply not_elem_of_nil in Hin'|congruence|done]. }
  unfold print_spec in Hin. rewrite !elem_of_app in Hin. destruct Hin as [Hin|[Hin|Hin]].
  - destruct (left_align s); [|by apply not_elem_of_nil in Hin].
    by apply elem_of_cons in Hin as [Hin|Hin%not_elem_of_nil].
  - destruct (width s =? 0); [by apply not_elem_of_nil in Hin|]. apply Hdig in Hin; [done|lia].
  - destruct (Z.eqb_spec (precision s) (-1)); [by apply not_elem_of_nil in Hin|].
    apply elem_of_cons in Hin as [Hin|Hin]; [done|]. apply Hdig in Hin; [done|lia].
Qed.

(** One placeholder. *)
Lemma AppendFormat_placeholder show_double first spec r a args :
  plain first → spec_fits spec →
  AppendFormat show_double (first ++ placeholder spec ++ r) (a :: args) =
  first ++ FormatValue show_double a spec ++ AppendFormat show_double r args.
Proof.
  intros Hf Hs. pose proof (close_not_in_spec spec Hs) as Hcl. unfold placeholder.
  set (ps := print_spec spec) in *. cbn [AppendFormat].
  change (first ++ (open_brace :: colon :: ps ++ [close_brace]) ++ r)
    with (first ++ open_brace :: (colon :: ps ++ [close_brace]) ++ r).
  rewrite list_find_first by done. rewrite drop_app_length.
  change (open_brace :: (colon :: ps ++ [close_brace]) ++ r)
    with ((open_brace :: colon :: ps ++ [close_brace]) ++ r).
  replace ((open_brace :: colon :: ps ++ [close_brace]) ++ r)
    with ((open_brace :: colon :: ps) ++ close_brace :: r) by (simpl; by rewrite <-app_assoc).
  rewrite list_find_first.
  2:{ rewrite !elem_of_cons. intros [?|[?|?]]; done. }
  cbn [length]. set (n := length first). set (m := length ps).
  rewrite decide_True.
  2:{ split; [lia|]. unfold n, str. rewrite lookup_app_r by lia.
      by replace (length first + 1 - length first)%nat with 1%nat by lia. }
  unfold n. rewrite take_app_length, drop_app_add.
  replace (length first + S (S m) + 1)%nat with (length first + S (S (m + 1)))%nat by lia.
  rewrite drop_app_add. simpl drop.
  replace (length first + S (S m) - length first - 2)%nat with m by lia.
  unfold m, ps. by rewrite drop_0, take_app_length, drop_app_add, (ParseSpec_print spec Hs).
Qed.

Lemma AppendFormat_plain show_double s args : plain s → AppendFormat show_double s args = s.
Proof.
  intros Hs. destruct args as [|a args]; [done|]. cbn [AppendFormat].
  destruct (list_find _ s) as [[i c]|] eqn:Hf; [|done].
  apply list_find_Some in Hf as (Hi & -> & _). by destruct Hs; eapply list_elem_of_lookup_2.
Qed.

(** ** Property *)

(** [AppendFormat] on a format made of texts without an opening brace and
    placeholders with printed specifications: the placeholders are replaced by
    the values in order, each rendered with exactly the specification that was
    printed; a value too many is ignored, a placeholder without a value is printed
    as it stands. In particular [ParseSpec] inverts the printing of a
    specification. *)
Theorem AppendFormat_correct show_double first parts args :
  plain first → Forall (λ '(spec, s), spec_fits spec ∧ plain s) parts →
  Forall (λ '(spec, _), ParseSpec (print_spec spec) = spec) parts ∧
  AppendFormat show_double (format first parts) args = first ++ printed show_double parts args.
Proof.
  intros Hfirst Hparts. split.
  { eapply Forall_impl; [exact Hparts|]. intros [spec s] [Hspec _]. by apply ParseSpec_print. }
  revert first args Hfirst Hparts. induction parts as [|[spec s] parts IH]; intros first args Hfirst Hparts.
  - unfold format. simpl. rewrite app_nil_r. by apply AppendFormat_plain.
  - apply Forall_cons in Hparts as [[Hspec Hs] Hparts]. destruct args as [|a args].
    + specialize (IH s [] Hs Hparts). cbn [AppendFormat] in *.
      unfold format in *. cbn [fmap list_fmap concat printed]. rewrite <-!app_assoc. f_equal. f_equal. exact IH.
    + unfold format. cbn [fmap list_fmap concat printed]. rewrite <-app_assoc.
      rewrite AppendFormat_placeholder by done. do 2 f_equal. exact (IH s args Hs Hparts).
Qed.

Lemma AppendFormat_correct_witness :
  AppendFormat (λ _ _, []) (text "  a {:<5}: {:>3.2}!") [AText (text "x"); AInt 42] =
    text "  a x    :  42!".
Proof.
  pose (parts := [({| width := 5; precision := -1; left_align := true |}, text ": ");
                  ({| width := 3; precision := 2; left_align := false |}, text "!")]).
  destruct (AppendFormat_correct (λ _ _, []) (text "  a ") parts [AText (text "x"); AInt 42]) as [_ Heq].
  - by apply (bool_decide_unpack (plain (text "  a "))); vm_compute.
  - repeat apply Forall_cons_2; [split..|by apply Forall_nil_2]; first [by apply (bool_decide_unpack (spec_fits _)); vm_compute
                              |by apply (bool_decide_unpack (plain _)); vm_compute].
  - transitivity (AppendFormat (λ _ _, []) (format (text "  a ") parts) [AText (text "x"); AInt 42]).
    + by vm_compute.
    + rewrite Heq. by vm_compute.
Defined.
