(* ===== verification/Scenario.v ===== *)
(** The scenarios of the adaptive benchmark and the settings it reads from the
    environment ([benchmarks/adaptive_lock_benchmark.cpp]).

    The environment is a function from names to texts. [ReadEnvSize] reads with
    [strtoull] of the C library, which is a definition here; the reading of a
    floating-point number, [strtod], is a parameter. Every scenario is a value that
    its [Make...Scenario] function computes. The theorems: settings never make a
    count zero, and all the query streams of all scenarios stay in the array. *)
From Stdlib Require Import Ascii String.
From S2P Require Import Double RangeLock Chromosome Workload Rng Stream PrintCompat Prelude.

Open Scope string_scope.
Open Scope list_scope.
Open Scope Z_scope.

Definition environment : Type := string → option str.

(** ** [strtoull] with base 10 *)

Definition is_space (c : ascii) : bool :=
  let z := code c in (z =? 32) || ((9 <=? z) && (z <=? 13)).

Fixpoint skip_space (s : str) : str :=
  match s with c :: s' => if is_space c then skip_space s' else s | [] => [] end.

(** The value of the leading digits, and whether there was one. *)
Fixpoint read_digits (acc : Z) (s : str) : Z :=
  match s with
  | c :: s' => if is_digit c then read_digits (acc * 10 + digit_value c) s' else acc
  | [] => acc
  end.

(** [None]: no conversion ([end == value]). The result saturates at [ULLONG_MAX]; a
    minus sign negates it in the unsigned type. *)
Definition strtoull (s : str) : option Z :=
  let s := skip_space s in
  let '(negative, s) :=
    match s with
    | c :: rest => if decide (c = PrintCompat.minus) then (true, rest)
                   else if code c =? 43 then (false, rest) else (false, s)
    | [] => (false, s)
    end in
  match s with
  | c :: _ =>
      if is_digit c then
        let v := read_digits 0 s in
        Some (if modulus64 <=? v then size_max else if negative : bool then u64 (- v) else v)
      else None
  | [] => None
  end.

(** The outcome monad of functions that may throw. *)
#[export] Instance outcome_ret : MRet outcome := λ A a, Returned a.
#[export] Instance outcome_bind : MBind outcome := λ A B k m,
  match m with Returned a => k a | Thrown => Thrown end.

Section Env.
  Variables (getenv : environment) (strtod : str → option double).

Definition ReadEnvSize (name : string) (default_value : Z) : Z :=
  match getenv name with
  | None => default_value
  | Some value =>
      match strtoull value with
      | None => default_value
      | Some parsed => if parsed =? 0 then default_value else parsed
      end
  end.

Definition ReadEnvDouble (name : string) (default_value : double) : double :=
  match getenv name with
  | None => default_value
  | Some value =>
      match strtod value with
      | None => default_value
      | Some parsed => if d_lt parsed d_zero then default_value else parsed
      end
  end.

(** [hardware_concurrency()] is 0 when it is not known. *)
Definition BenchmarkThreadCount (hardware_concurrency : Z) : Z :=
  let hardware_threads := Z.max 1 hardware_concurrency in
  match getenv "DYNAMIC_LOCK_THREAD_COUNT" with
  | None => hardware_threads
  | Some value =>
      match strtoull value with
      | None => hardware_threads
      | Some parsed => if parsed =? 0 then hardware_threads else Z.max 1 parsed
      end
  end.

(** *** Settings *)

Definition QueryDivisor : Z := ReadEnvSize "DYNAMIC_LOCK_QUERY_DIVISOR" 1.
Definition QueryMultiplier : Z := ReadEnvSize "DYNAMIC_LOCK_QUERY_MULTIPLIER" 1.
Definition MeasuredQueryMultiplier : Z := ReadEnvSize "DYNAMIC_LOCK_MEASURED_QUERY_MULTIPLIER" 1.

Definition ScaleQueryCount (count : Z) : Z := Z.max 1 (count / QueryDivisor *₆₄ QueryMultiplier).
Definition ScaleMeasuredQueryCount (count : Z) : Z := ScaleQueryCount count *₆₄ MeasuredQueryMultiplier.

Definition kDefaultDynamicRebuildInterval : Z := 10000.
Definition kDefaultDynamicRebuildThreshold : double := d_of_Z 2.
Definition kDefaultDynamicRebuildMinGain : double := d_of_Z 1.
Definition kDefaultDynamicRebuildMinSkew : double := d_of_Z 4.
Definition kDefaultGeneticTrainingBatchSize : Z := 100000.
Definition kDefaultGeneticTrainingSampleRate : Z := 64.
Definition kDefaultGeneticTrainingProbeGap : Z := 1000000.
Definition kDefaultGeneticMinTrainingSkew : double := d_of_Z 4.

Definition DynamicRebuildInterval : Z :=
  ReadEnvSize "DYNAMIC_LOCK_REBUILD_INTERVAL_MS" kDefaultDynamicRebuildInterval.
Definition DynamicRebuildThreshold : double :=
  ReadEnvDouble "DYNAMIC_LOCK_REBUILD_THRESHOLD" kDefaultDynamicRebuildThreshold.
Definition DynamicRebuildMinGain : double :=
  ReadEnvDouble "DYNAMIC_LOCK_REBUILD_MIN_GAIN" kDefaultDynamicRebuildMinGain.
Definition DynamicRebuildMinSkew : double :=
  ReadEnvDouble "DYNAMIC_LOCK_REBUILD_MIN_SKEW" kDefaultDynamicRebuildMinSkew.
Definition GeneticTrainingBatchSize : Z :=
  ReadEnvSize "DYNAMIC_LOCK_GENETIC_TRAINING_BATCH" kDefaultGeneticTrainingBatchSize.
Definition GeneticTrainingSampleRate : Z :=
  ReadEnvSize "DYNAMIC_LOCK_GENETIC_TRAINING_SAMPLE_RATE" kDefaultGeneticTrainingSampleRate.
Definition GeneticTrainingProbeGap : Z :=
  ReadEnvSize "DYNAMIC_LOCK_GENETIC_PROBE_GAP" kDefaultGeneticTrainingProbeGap.
Definition GeneticMinTrainingSkew : double :=
  ReadEnvDouble "DYNAMIC_LOCK_GENETIC_MIN_SKEW" kDefaultGeneticMinTrainingSkew.
Definition DynamicStatsSampleRate : Z := ReadEnvSize "DYNAMIC_LOCK_STATS_SAMPLE_RATE" 64.

(** A switch that is on unless the variable is ["0"]; and one that is off unless set. *)
Definition RunGeneticEnabled : bool :=
  match getenv "DYNAMIC_LOCK_RUN_GENETIC" with
  | None => true
  | Some value => negb (bool_decide (value = text "0"))
  end.

Definition DebugPartitionsEnabled : bool :=
  match getenv "DYNAMIC_LOCK_DEBUG_PARTITIONS" with
  | None => false
  | Some value => negb (bool_decide (value = text "0"))
  end.

Definition MovingWindowAdaptSecondsPerStop : double :=
  let seconds_per_direction := ReadEnvDouble "DYNAMIC_LOCK_MOVING_SECONDS_PER_DIRECTION" d_zero in
  if seconds_per_direction <=?ᵈ d_zero then d_zero
  else seconds_per_direction /ᵈ d_of_Z kMovingWindowStops.

(** ** Scenarios *)

Record PhaseInput := { phase_name : str; phase_queries : QueryStreamSpec }.

Record TimedPhaseInput := {
  timed_name : str;
  adapt_queries : QueryStreamSpec;
  measure_queries : QueryStreamSpec;
  adapt_seconds : double
}.

Record ScenarioInput := {
  scenario_name : str;
  description : str;
  setup_phases : list PhaseInput;
  measured_phase : PhaseInput;
  timed_phases : list TimedPhaseInput;
  debug_window_begins : list Z
}.

Definition kWarmupQueries : Z := 6400000.
Definition kAdaptQueries : Z := 19200000.
Definition kMeasuredQueries : Z := 120000000.
Definition kRandomRangeWarmupQueries : Z := 1600000.
Definition kRandomRangeAdaptQueries : Z := 4800000.
Definition kRandomRangeMeasuredQueries : Z := 4000000.
Definition kMovingWindowWarmupQueries : Z := 12800000.
Definition kMovingWindowAdaptQueriesPerStop : Z := 19200000.
Definition kMovingWindowMeasuredQueriesPerStop : Z := 70000000.
Definition kChurnChanges : Z := 5.
Definition kChurnAdaptQueries : Z := 9600000.
Definition kChurnMeasuredQueries : Z := 20000000.

Definition phase (name : string) (queries : QueryStreamSpec) : PhaseInput :=
  {| phase_name := text name; phase_queries := queries |}.

(** A phase whose queries may not be built. *)
Definition phase_of (name : string) (queries : outcome QueryStreamSpec) : outcome PhaseInput :=
  match queries with Returned q => Returned (phase name q) | Thrown => Thrown end.

(** [{}]: a phase without queries. *)
Definition no_phase : PhaseInput :=
  phase "" (BuildQueries 0 kUniform kLeft 1 0).

(** The [i]-th phase of [BuildMovingWindowPhases]. *)
Definition moving_phase (seed : Z) (begins : list Z) (seconds : double) (i : Z) :
    outcome TimedPhaseInput :=
  adapt ← BuildMultiWindowQueries (ScaleQueryCount kMovingWindowAdaptQueriesPerStop) [begins.[i]]
            kMovingWindowSize kSmallRangeMaxLength (seed +₆₄ 2 *₆₄ i);
  measure ← BuildMultiWindowQueries (ScaleMeasuredQueryCount kMovingWindowMeasuredQueriesPerStop)
              [begins.[i]] kMovingWindowSize kSmallRangeMaxLength (seed +₆₄ 2 *₆₄ i +₆₄ 1);
  mret {| timed_name := text "window stop " ++ print_Z i; adapt_queries := adapt;
          measure_queries := measure; adapt_seconds := seconds |}.

Definition BuildMovingWindowPhases (seed : Z) : outcome (list TimedPhaseInput) :=
  let begins := MakeMovingWindowBegins in
  for_range 0 (len begins)
    (λ i phases, phases ← phases;
       p ← moving_phase seed begins MovingWindowAdaptSecondsPerStop i; mret (phases ++ [p]))
    (mret []).

Definition MakeShiftScenario : ScenarioInput :=
  {| scenario_name := text "shift_hotspot_point";
     description := text "right warmup, then left hotspot; final queries are point updates";
     setup_phases :=
       [phase "warmup right hotspot"
          (BuildQueries (ScaleQueryCount kWarmupQueries) kHotWindow kRight kPointQueryLength 11);
        phase "adapt left hotspot"
          (BuildQueries (ScaleQueryCount kAdaptQueries) kHotWindow kLeft kPointQueryLength 12)];
     measured_phase := phase "measure left hotspot"
       (BuildQueries (ScaleMeasuredQueryCount kMeasuredQueries) kHotWindow kLeft kPointQueryLength 13);
     timed_phases := []; debug_window_begins := [] |}.

Definition MakeClusteredWindowsScenario (cluster_count seed_base : Z) : outcome ScenarioInput :=
  window_begins ← MakeClusteredWindowBegins cluster_count;
  let queries n seed := BuildMultiWindowQueries n window_begins kClusteredHotWindowSize
                          kPointQueryLength seed in
  warmup ← phase_of "warmup clustered small windows" (queries (ScaleQueryCount kWarmupQueries) seed_base);
  adapt ← phase_of "adapt clustered small windows"
            (queries (ScaleQueryCount kAdaptQueries) (seed_base +₆₄ 1));
  measure ← phase_of "measure clustered small windows"
              (queries (ScaleMeasuredQueryCount kMeasuredQueries) (seed_base +₆₄ 2));
  mret {| scenario_name := text "clustered_" ++ print_Z cluster_count ++ text "_hot_windows";
          description := print_Z cluster_count ++ text " " ++ print_Z kClusteredHotWindowSize ++
            text "-element hot windows; final requests are point updates";
          setup_phases := [warmup; adapt]; measured_phase := measure;
          timed_phases := []; debug_window_begins := window_begins |}.

(** [Some]: the loops of the window functions end. *)
Definition churn_windows (cluster_count change : Z) : outcome (list Z) :=
  default Thrown (MakeChurnedClusteredWindowBegins cluster_count change).

(** The phase after a change in [MakeClusteredChurnScenario]. *)
Definition churn_phase (cluster_count seed_base change : Z) : outcome TimedPhaseInput :=
  window_begins ← churn_windows cluster_count change;
  adapt ← BuildMultiWindowQueries (ScaleQueryCount kChurnAdaptQueries) window_begins
            kClusteredHotWindowSize kPointQueryLength (seed_base +₆₄ 10 *₆₄ change);
  measure ← BuildMultiWindowQueries (ScaleMeasuredQueryCount kChurnMeasuredQueries) window_begins
              kClusteredHotWindowSize kPointQueryLength (seed_base +₆₄ 10 *₆₄ change +₆₄ 1);
  mret {| timed_name := text "churn change " ++ print_Z change; adapt_queries := adapt;
          measure_queries := measure; adapt_seconds := d_zero |}.

Definition MakeClusteredChurnScenario (cluster_count seed_base : Z) : outcome ScenarioInput :=
  phases ← for_range 1 (kChurnChanges + 1)
    (λ change phases, phases ← phases; p ← churn_phase cluster_count seed_base change; mret (phases ++ [p]))
    (mret []);
  window_begins ← churn_windows cluster_count 0;
  warmup ← phase_of "warmup initial clustered windows"
    (BuildMultiWindowQueries (ScaleQueryCount kWarmupQueries) window_begins kClusteredHotWindowSize
       kPointQueryLength seed_base);
  mret {| scenario_name := text "clustered_churn_" ++ print_Z cluster_count ++ text "_hot_windows";
          description := print_Z cluster_count ++
            text " compact hot windows; five phases replace half of the active windows before measuring point requests";
          setup_phases := [warmup]; measured_phase := no_phase; timed_phases := phases;
          debug_window_begins := [] |}.

Definition MakeMovingWindowScenario : outcome ScenarioInput :=
  warmup ← phase_of "warmup first moving window"
    (BuildMultiWindowQueries (ScaleQueryCount kMovingWindowWarmupQueries) [0] kMovingWindowSize
       kSmallRangeMaxLength 61);
  phases ← BuildMovingWindowPhases 62;
  mret {| scenario_name := text "moving_small_window";
          description := print_Z kMovingWindowSize ++
            text "-element hot window moves left-to-right and back; each stop runs long enough for online repartitioning attempts";
          setup_phases := [warmup]; measured_phase := no_phase; timed_phases := phases;
          debug_window_begins := [] |}.

Definition MakeRandomScenario : ScenarioInput :=
  {| scenario_name := text "random_uniform_point";
     description := text "uniform random point updates over the whole array";
     setup_phases := [phase "warmup uniform random"
       (BuildQueries (ScaleQueryCount kWarmupQueries) kUniform kLeft kPointQueryLength 21)];
     measured_phase := phase "measure uniform random"
       (BuildQueries (ScaleMeasuredQueryCount kMeasuredQueries) kUniform kLeft kPointQueryLength 22);
     timed_phases := []; debug_window_begins := [] |}.

Definition MakeShiftRandomRangeScenario : ScenarioInput :=
  {| scenario_name := text "shift_hotspot_random_ranges";
     description := text "right warmup, then left hotspot; final ranges have random length";
     setup_phases :=
       [phase "warmup right hotspot random ranges"
          (BuildQueries (ScaleQueryCount kRandomRangeWarmupQueries) kHotWindowRandomRange kRight
             kRandomRangeMaxLength 31);
        phase "adapt left hotspot random ranges"
          (BuildQueries (ScaleQueryCount kRandomRangeAdaptQueries) kHotWindowRandomRange kLeft
             kRandomRangeMaxLength 32)];
     measured_phase := phase "measure left hotspot random ranges"
       (BuildQueries (ScaleMeasuredQueryCount kRandomRangeMeasuredQueries) kHotWindowRandomRange kLeft
          kRandomRangeMaxLength 33);
     timed_phases := []; debug_window_begins := [] |}.

Definition MakeRandomRangeScenario : ScenarioInput :=
  {| scenario_name := text "random_uniform_ranges";
     description := text "uniform random ranges over the whole array; range length is random";
     setup_phases := [phase "warmup uniform random ranges"
       (BuildQueries (ScaleQueryCount kRandomRangeWarmupQueries) kUniformRandomRange kLeft
          kRandomRangeMaxLength 41)];
     measured_phase := phase "measure uniform random ranges"
       (BuildQueries (ScaleMeasuredQueryCount kRandomRangeMeasuredQueries) kUniformRandomRange kLeft
          kRandomRangeMaxLength 42);
     timed_phases := []; debug_window_begins := [] |}.

(** The scenarios that [main] builds; an exception leaves [main]. *)
Definition scenarios : outcome (list ScenarioInput) :=
  clustered_2 ← MakeClusteredWindowsScenario 2 51;
  clustered_4 ← MakeClusteredWindowsScenario 4 61;
  churn_2 ← MakeClusteredChurnScenario 2 71;
  churn_4 ← MakeClusteredChurnScenario 4 91;
  moving ← MakeMovingWindowScenario;
  mret [MakeShiftScenario; clustered_2; clustered_4; churn_2; churn_4; moving; MakeRandomScenario;
        MakeShiftRandomRangeScenario; MakeRandomRangeScenario].

Definition ShouldRunScenario (scenario : ScenarioInput) : bool :=
  match getenv "DYNAMIC_LOCK_SCENARIO" with
  | None => true
  | Some filter => bool_decide (scenario_name scenario = filter)
  end.

End Env.

(** ** Settings are usable *)

Section Correct.
  Variables (getenv : environment) (strtod : str → option double).

Lemma read_digits_nonneg s : ∀ acc, 0 ≤ acc → 0 ≤ read_digits acc s.
Proof.
  induction s as [|c s IH]; intros acc Ha; [done|]. cbn [read_digits].
  destruct (is_digit c) eqn:Hc; [|done]. apply IH. unfold is_digit in Hc.
  apply andb_true_iff in Hc as [H1%Z.leb_le _]. unfold digit_value. lia.
Qed.

Lemma strtoull_range s v : strtoull s = Some v → is_u64 v.
Proof.
  unfold strtoull. intros H. destruct (match skip_space s with [] => _ | _ :: _ => _ end) as [negative r].
  destruct r as [|c r]; [done|]. pose proof (read_digits_nonneg (c :: r) 0 ltac:(lia)) as Hd.
  revert H Hd. generalize (read_digits 0 (c :: r)). intros d. destruct (is_digit c); [|done].
  intros [= <-] Hd. destruct (Z.leb_spec modulus64 d).
  - unfold is_u64, size_max. rewrite modulus64_val. lia.
  - destruct negative; [apply u64_range|]. unfold is_u64. lia.
Qed.

Lemma ReadEnvSize_range name default_value :
  is_u64 default_value → 1 ≤ default_value → is_u64 (ReadEnvSize getenv name default_value) ∧
  1 ≤ ReadEnvSize getenv name default_value.
Proof.
  intros Hd H1. unfold ReadEnvSize. destruct (getenv name) as [value|]; [|done].
  destruct (strtoull value) as [v|] eqn:Hv; [|done]. apply strtoull_range in Hv.
  destruct (Z.eqb_spec v 0); [done|]. destruct Hv. unfold is_u64. lia.
Qed.

Lemma ScaleQueryCount_range count :
  is_u64 (ScaleQueryCount getenv count) ∧ 1 ≤ ScaleQueryCount getenv count.
Proof.
  unfold ScaleQueryCount. pose proof (u64_mul_range (count / QueryDivisor getenv) (QueryMultiplier getenv)) as H.
  unfold is_u64 in *. rewrite modulus64_val in *. lia.
Qed.

(** ** The streams of the scenarios *)

Definition all_streams (s : ScenarioInput) : list QueryStreamSpec :=
  (phase_queries <$> setup_phases s) ++ [phase_queries (measured_phase s)] ++
  concat ((λ p, [adapt_queries p; measure_queries p]) <$> timed_phases s).

(** The count fits and the windows are in the array. *)
Definition stream_ok (q : QueryStreamSpec) : Prop := is_u64 (count q) ∧ spec_ok q.

Definition scenario_ok (s : ScenarioInput) : Prop := Forall stream_ok (all_streams s).

(** A computation that does not throw. *)
Definition gives {A} (m : outcome A) (P : A → Prop) : Prop := ∃ a, m = Returned a ∧ P a.

Lemma gives_bind {A B} (m : outcome A) (k : A → outcome B) P Q :
  gives m P → (∀ a, P a → gives (k a) Q) → gives (m ≫= k) Q.
Proof. intros (a & -> & Ha) Hk. by apply Hk. Qed.

Lemma gives_ret {A} (a : A) (P : A → Prop) : P a → gives (mret a) P.
Proof. by exists a. Qed.

(** A loop that collects the results of its rounds. *)
Lemma gives_for {A} (f : Z → outcome A) lo hi (P : A → Prop) :
  lo ≤ hi → (∀ i, lo ≤ i < hi → gives (f i) P) →
  gives (for_range lo hi (λ i l, l ← l; p ← f i; mret (l ++ [p])) (mret [])) (Forall P).
Proof.
  intros Hle Hf. apply (for_range_inv (λ _ m, gives m (Forall P))); [done|by apply gives_ret|].
  intros i m Hi Hm. eapply gives_bind; [exact Hm|]. intros l Hl. eapply gives_bind; [by apply Hf|].
  intros p Hp. apply gives_ret, Forall_app. by split; [|apply Forall_singleton].
Qed.

Lemma BuildQueries_ok n pattern side len seed :
  is_u64 n → stream_ok (BuildQueries n pattern side len seed).
Proof. by split. Qed.

Definition windows_ok (begins : list Z) : Prop :=
  begins ≠ [] ∧ Forall (λ b, 0 ≤ b ∧ b + kClusteredHotWindowSize ≤ kArraySize) begins.

Lemma BuildMultiWindowQueries_ok n begins len seed :
  is_u64 n → windows_ok begins →
  gives (BuildMultiWindowQueries n begins kClusteredHotWindowSize len seed) stream_ok.
Proof.
  intros Hn [Hne Hall]. unfold BuildMultiWindowQueries.
  destruct (Z.eqb_spec (Prelude.len begins) 0) as [Hz|].
  { destruct begins; [done|]. rewrite len_cons in Hz. pose proof (len_nonneg begins). lia. }
  eexists. split; [done|]. split; [done|]. intros _. by split.
Qed.

Lemma phase_of_ok name q : gives q stream_ok → gives (phase_of name q) (λ p, stream_ok (phase_queries p)).
Proof. intros (a & -> & Ha). by eexists. Qed.

Lemma windows_of_bounds begins n :
  1 ≤ n → len begins = n →
  (∀ i, 0 ≤ i < n → 0 ≤ begins.[i] ∧ begins.[i] + kClusteredHotWindowSize ≤ kArraySize) →
  windows_ok begins.
Proof.
  intros Hn Hlen Hall. split.
  - intros ->. unfold len in Hlen. simpl in Hlen. lia.
  - apply Forall_get. intros i Hi. apply Hall. lia.
Qed.

Lemma churn_windows_ok cluster_count change :
  1 ≤ cluster_count ≤ 16 → 0 ≤ change → gives (churn_windows cluster_count change) windows_ok.
Proof.
  intros Hc Hch. pose proof (churned_windows cluster_count change ltac:(lia) Hch) as H.
  rewrite decide_True in H by done. destruct H as (begins & Heq & Hlen & Hall & _).
  unfold churn_windows. rewrite Heq. exists begins. split; [done|].
  apply (windows_of_bounds _ cluster_count); [lia|done|done].
Qed.

Lemma initial_windows_gives cluster_count :
  1 ≤ cluster_count ≤ 16 → gives (MakeClusteredWindowBegins cluster_count) windows_ok.
Proof.
  intros Hc. destruct (initial_windows_ok cluster_count Hc) as (active & -> & Hlen & _ & Hall & _).
  exists active. split; [done|]. simpl in *. apply (windows_of_bounds _ cluster_count); [lia|done|].
  intros i Hi. pose proof (get_Forall _ _ i Hall ltac:(lia)) as Hin. simpl in Hin.
  apply window_pool_elem in Hin as (k & Hk & ->). change kClusteredHotWindowSize with 16384.
  rewrite kArraySize_val. lia.
Qed.

Lemma moving_windows_ok i :
  0 ≤ i < len MakeMovingWindowBegins → windows_ok [MakeMovingWindowBegins.[i]].
Proof.
  intros Hi. split; [done|]. apply Forall_singleton.
  assert (Forall (λ b, 0 ≤ b ∧ b + kClusteredHotWindowSize ≤ kArraySize) MakeMovingWindowBegins) as Hall
    by (apply (bool_decide_unpack (Forall (λ b, 0 ≤ b ∧ b + kClusteredHotWindowSize ≤ kArraySize)
          MakeMovingWindowBegins)); by vm_compute).
  by apply (get_Forall _ _ i Hall).
Qed.

Lemma scaled_ok n : is_u64 (ScaleQueryCount getenv n).
Proof. apply ScaleQueryCount_range. Qed.

Lemma measured_ok n : is_u64 (ScaleMeasuredQueryCount getenv n).
Proof. apply u64_mul_range. Qed.

#[local] Hint Resolve scaled_ok measured_ok : core.

(** The two streams of a timed phase. *)
Definition timed_ok (p : TimedPhaseInput) : Prop := stream_ok (adapt_queries p) ∧ stream_ok (measure_queries p).

Lemma moving_phase_ok seed seconds i :
  0 ≤ i < len MakeMovingWindowBegins →
  gives (moving_phase getenv seed MakeMovingWindowBegins seconds i) timed_ok.
Proof.
  intros Hi. pose proof (moving_windows_ok i Hi). unfold moving_phase.
  eapply gives_bind; [by apply BuildMultiWindowQueries_ok|]. intros a Ha.
  eapply gives_bind; [by apply BuildMultiWindowQueries_ok|]. intros m Hm. by apply gives_ret.
Qed.

Lemma churn_phase_ok cluster_count seed_base change :
  1 ≤ cluster_count ≤ 16 → 0 ≤ change → gives (churn_phase getenv cluster_count seed_base change) timed_ok.
Proof.
  intros Hc Hch. unfold churn_phase. eapply gives_bind; [by apply churn_windows_ok|]. intros w Hw.
  eapply gives_bind; [by apply BuildMultiWindowQueries_ok|]. intros a Ha.
  eapply gives_bind; [by apply BuildMultiWindowQueries_ok|]. intros m Hm. by apply gives_ret.
Qed.

Lemma timed_streams phases :
  Forall timed_ok phases →
  Forall stream_ok (concat ((λ p, [adapt_queries p; measure_queries p]) <$> phases)).
Proof.
  intros Hall. induction Hall as [|p phases [Ha Hm] _ IH]; [done|]. simpl. by repeat apply Forall_cons_2.
Qed.

Lemma scenario_ok_of name descr setup measured timed debug :
  Forall (λ p, stream_ok (phase_queries p)) setup → stream_ok (phase_queries measured) →
  Forall timed_ok timed →
  scenario_ok {| scenario_name := name; description := descr; setup_phases := setup;
                 measured_phase := measured; timed_phases := timed; debug_window_begins := debug |}.
Proof.
  intros Hs Hm Ht. apply Forall_app. split; [by apply Forall_fmap|]. apply Forall_app.
  split; [by apply Forall_singleton|by apply timed_streams].
Qed.

(** A scenario without windows. *)
Lemma simple_scenario_ok s :
  Forall (λ p, stream_ok (phase_queries p)) (setup_phases s) ∧ stream_ok (phase_queries (measured_phase s)) ∧
  timed_phases s = [] → scenario_ok s.
Proof. destruct s. intros (Hs & Hm & Ht). simpl in *. subst. by apply scenario_ok_of. Qed.

Ltac simple_streams :=
  split; [repeat (apply Forall_cons_2; [by apply BuildQueries_ok|]); apply Forall_nil_2
         |split; [by apply BuildQueries_ok|done]].

Lemma clustered_ok cluster_count seed_base :
  1 ≤ cluster_count ≤ 16 → gives (MakeClusteredWindowsScenario getenv cluster_count seed_base) scenario_ok.
Proof.
  intros Hc. unfold MakeClusteredWindowsScenario.
  eapply gives_bind; [by apply initial_windows_gives|]. intros w Hw.
  eapply gives_bind; [by apply phase_of_ok, BuildMultiWindowQueries_ok|]. intros p1 H1.
  eapply gives_bind; [by apply phase_of_ok, BuildMultiWindowQueries_ok|]. intros p2 H2.
  eapply gives_bind; [by apply phase_of_ok, BuildMultiWindowQueries_ok|]. intros p3 H3.
  apply gives_ret, scenario_ok_of; [by repeat apply Forall_cons_2|done|done].
Qed.

Lemma churn_ok cluster_count seed_base :
  1 ≤ cluster_count ≤ 16 → gives (MakeClusteredChurnScenario getenv cluster_count seed_base) scenario_ok.
Proof.
  intros Hc. unfold MakeClusteredChurnScenario.
  eapply gives_bind; [apply (gives_for (churn_phase getenv cluster_count seed_base) 1 (kChurnChanges + 1))|].
  { by vm_compute. }
  { intros i Hi. apply churn_phase_ok; [done|lia]. }
  intros phases Hp. eapply gives_bind; [by apply churn_windows_ok|]. intros w Hw.
  eapply gives_bind; [by apply phase_of_ok, BuildMultiWindowQueries_ok|]. intros p1 H1.
  apply gives_ret, scenario_ok_of; [by repeat apply Forall_cons_2| |done]. by apply BuildQueries_ok.
Qed.

Lemma moving_ok : gives (MakeMovingWindowScenario getenv strtod) scenario_ok.
Proof.
  unfold MakeMovingWindowScenario.
  eapply gives_bind; [apply phase_of_ok, (BuildMultiWindowQueries_ok _ [0]); [done|]|].
  { split; [done|]. by apply Forall_singleton. }
  intros p1 H1. eapply gives_bind.
  { apply (gives_for (moving_phase getenv 62 MakeMovingWindowBegins (MovingWindowAdaptSecondsPerStop getenv strtod))
      0 (len MakeMovingWindowBegins)); [apply len_nonneg|]. intros i Hi. by apply moving_phase_ok. }
  intros phases Hp.
  apply gives_ret, scenario_ok_of; [by repeat apply Forall_cons_2| |done]. by apply BuildQueries_ok.
Qed.

(** C40. Whatever the environment says, [main] builds its nine scenarios without an
    exception, and every query stream of every phase of every scenario has a count
    that fits in 64 bits and windows inside the array, so that all its queries are
    inside the array. *)
Theorem scenarios_correct :
  ∃ l, scenarios getenv strtod = Returned l ∧ len l = 9 ∧
    ∀ s q rng t i, s ∈ l → q ∈ all_streams s →
      let query := (MakeStreamQuery rng q t i).1 in
      is_u64 (count q) ∧ 0 ≤ q_left query ≤ q_right query ∧ q_right query < kArraySize.
Proof.
  assert (gives (scenarios getenv strtod) (λ l, len l = 9 ∧ Forall scenario_ok l)) as (l & Heq & Hlen & Hall).
  { unfold scenarios.
    eapply gives_bind; [by apply clustered_ok|]. intros c2 Hc2.
    eapply gives_bind; [by apply clustered_ok|]. intros c4 Hc4.
    eapply gives_bind; [by apply churn_ok|]. intros h2 Hh2.
    eapply gives_bind; [by apply churn_ok|]. intros h4 Hh4.
    eapply gives_bind; [by apply moving_ok|]. intros m Hm. apply gives_ret. split; [done|].
    do 9 (apply Forall_cons_2; [first [assumption|apply simple_scenario_ok; simple_streams]|]).
    apply Forall_nil_2. }
  exists l. split; [done|]. split; [done|]. intros s q rng t i Hs Hq.
  rewrite Forall_forall in Hall. specialize (Hall s Hs). unfold scenario_ok in Hall.
  rewrite Forall_forall in Hall. destruct (Hall q Hq) as [Hcount Hok]. split; [done|].
  pose proof (stream_query_within rng q t i Hok) as Hw. destruct (stream_window q t i) as [b w].
  unfold query_within in Hw. lia.
Qed.

End Correct.
