(* ===== verification/BenchRun.v ===== *)
(** Running a scenario of the adaptive benchmark on a lock
    ([benchmarks/adaptive_lock_benchmark.cpp], [RunWorkload] and
    [RunImplementation]).

    [BenchLock] extends [QueryLock] by the other methods that the benchmark calls
    through its template parameter, with an instance per lock. What the scheduler
    and the clock decide is an input: one [PhaseRun] per executed phase, and one
    answer per comparison of the clock with a deadline. The rebuilder works between
    the calls; the model of a phase leaves it out, which [DynamicProtocol] and
    [GeneticProtocol] justify. The theorem: the reported counts are the numbers of
    queries that were executed, and the final data are those of all the streams. *)
From S2P Require Import Double BlockMap RangeLock Chromosome GeneticPartitioner NaiveLock DynamicLock GeneticLock.
From S2P Require Import QueryLock Workload Rng Stream Phase PrintCompat Scenario Prelude.

Class BenchLock (L Loc : Type) `{QL : QueryLock L Loc} := {
  lock_CountLocksForRange : L → Z → Z → option Z;
  lock_ResetRuntimeStats : L → L;
  lock_GetTotalLockTimeMs : L → double;
  lock_GetRebuildCount : L → Z;
  (** [requires { lock.PartitionCuts(); }] *)
  lock_PartitionCuts : option (L → list Z);
  reset_idle d : lock_idle d →
    lock_idle (lock_ResetRuntimeStats d) ∧ lock_size (lock_ResetRuntimeStats d) = lock_size d ∧
    lock_operations (lock_ResetRuntimeStats d) = 0;
  start_operations d : lock_operations (lock_start d) = lock_operations d;
  stop_operations d : lock_operations (lock_stop d) = lock_operations d;
  count_defined d l r :
    lock_idle d → 0 < lock_size d → is_u64 l → is_u64 r →
    ∃ c, lock_CountLocksForRange d l r = Some c ∧ 1 ≤ c
}.

#[export] Instance naive_bench_lock kLockCnt (HL : 0 < kLockCnt < modulus64) :
  @BenchLock NaiveLock unit (naive_query_lock kLockCnt HL).
Proof.
  refine {| lock_CountLocksForRange := naive_CountLocksForRange kLockCnt;
            lock_ResetRuntimeStats := naive_ResetRuntimeStats;
            lock_GetTotalLockTimeMs := naive_GetTotalLockTimeMs;
            lock_GetRebuildCount := naive_GetRebuildCount;
            lock_PartitionCuts := None |}; try done.
  intros d l r Hd Hn Hl Hr. simpl in *. unfold naive_CountLocksForRange, is_u64 in *.
  pose proof (proj1 Hd) as Hsize. unfold is_u64 in Hsize.
  destruct (Z.eqb_spec (n_array_size_ d) 0); [lia|]. rewrite normalize_spec by lia.
  set (left := Z.min _ (Z.min _ _)). set (right := Z.max _ _).
  destruct (naive_segment_spec kLockCnt HL d left right Hd) as (-> & Hfe & He); [lia..|].
  rewrite u64_sub_small, u64_add_small by lia. eexists. split; [done|]. lia.
Defined.

Section Instances.
  Variables (kLockCnt kBlocks : Z).

#[export] Instance dynamic_bench_lock (HL : 0 < kLockCnt) (HB : 0 < kBlocks) (Hmax : kLockCnt < modulus64) :
  @BenchLock DynamicLock Z (dynamic_query_lock kLockCnt kBlocks HL HB).
Proof.
  refine {| lock_CountLocksForRange d l r := Some (DynamicLock.CountLocksForRange kBlocks d l r);
            lock_ResetRuntimeStats := DynamicLock.ResetRuntimeStats;
            lock_GetTotalLockTimeMs := DynamicLock.GetTotalLockTimeMs;
            lock_GetRebuildCount := DynamicLock.GetRebuildCount;
            lock_PartitionCuts := Some DynamicLock.PartitionCuts |}.
  - intros d [Hd Hp]. split; [|done]. split; [|done]. by destruct Hd.
  - intros d. simpl. unfold DynamicLock.StartRebuilder. by destruct (rebuild_thread_ _).
  - intros d. simpl. unfold DynamicLock.StopRebuilder. by destruct (rebuild_thread_ _).
  - intros d l r [Hd Hp] Hn Hl Hr. simpl in *. eexists. split; [done|].
    pose proof (DynamicLock.ok_size _ _ d Hd). unfold DynamicLock.CountLocksForRange, is_u64 in *.
    destruct (Z.eqb_spec (DynamicLock.array_size_ d) 0); [lia|]. rewrite normalize_spec by lia.
    destruct (FindLocksSegmentUnlocked _ _ _ _ _) as [f e] eqn:Hseg.
    apply (DynamicLock.segment_range kLockCnt kBlocks HB d) in Hseg; [|done|lia].
    rewrite u64_sub_small, u64_add_small by lia. lia.
Defined.

#[export] Instance genetic_bench_lock (this : nat) (HL : 0 < kLockCnt ≤ kBlocks) (Hmax : kLockCnt < modulus64) :
  @BenchLock GeneticLock ThreadLocals (genetic_query_lock kLockCnt kBlocks this HL).
Proof.
  refine {| lock_CountLocksForRange := GeneticLock.CountLocksForRange kBlocks 1;
            lock_ResetRuntimeStats := GeneticLock.ResetRuntimeStats;
            lock_GetTotalLockTimeMs := GeneticLock.GetTotalLockTimeMs;
            lock_GetRebuildCount := GeneticLock.GetRebuildCount;
            lock_PartitionCuts := Some GeneticLock.PartitionCuts |}.
  - intros d [Hd Hp]. split; [|done]. split; [|done]. by apply (same_core_ok _ _ d).
  - intros d. simpl. unfold GeneticLock.StartRebuilder. by destruct (training_thread_ _).
  - intros d. simpl. unfold GeneticLock.StopRebuilder. by destruct (training_thread_ _).
  - intros d l r [Hd Hp] Hn Hl Hr. cbn [lock_size genetic_query_lock] in Hn.
    pose proof (GeneticLock.ok_size _ _ d Hd). destruct (GeneticLock.ok_epoch _ _ d Hd) as [Hodd _].
    unfold GeneticLock.CountLocksForRange, is_u64 in *.
    destruct (Z.eqb_spec (GeneticLock.array_size_ d) 0); [lia|]. rewrite normalize_spec by lia.
    cbn [count_loop]. rewrite Hodd.
    destruct (FindLocksSegmentUnlocked _ _ _ _ _) as [f e] eqn:Hseg.
    apply (GeneticLock.genetic_segment_range kLockCnt kBlocks HL d) in Hseg; [|done|lia].
    rewrite Z.eqb_refl, (proj2 (Z.leb_le f e)) by lia. simpl.
    rewrite u64_sub_small, u64_add_small by lia. eexists. split; [done|]. lia.
Defined.

End Instances.

(** ** One workload *)

Record WorkloadRunStats := {
  total_seconds : double;
  setup_seconds : double;
  measured_seconds : double;
  total_queries : Z;
  measured_queries : Z;
  lock_total_ms : double;
  mutex_query_sum : double
}.

Record MeasurementStats := { m_seconds : double; m_queries : Z; m_mutex_query_sum : double }.

Section Workload.
  Context {L Loc : Type} `{BL : BenchLock L Loc}.
  Variables (kThreadCount : Z).

(** The sum of [CountLocksForRange] over the first queries of a stream. *)
Definition kMaxSamples : Z := 100000.

Definition count_mutexes (lock : L) (spec : QueryStreamSpec) (samples : Z) : option (FastRng * Z) :=
  for_opt 0 samples
    (λ i '(rng, total_mutexes),
       let '(query, rng) := MakeStreamQuery rng spec 0 i in
       c ← lock_CountLocksForRange lock (q_left query) (q_right query);
       Some (rng, total_mutexes +₆₄ c))
    ({| state := ThreadSeed (seed spec) 2779096485 |}, 0).

Definition AverageMutexesForQueries (lock : L) (spec : QueryStreamSpec) : option double :=
  if count spec =? 0 then Some d_zero
  else
    let samples := Z.min kMaxSamples (count spec) in
    '(_, total_mutexes) ← count_mutexes lock spec samples;
    Some (d_of_Z total_mutexes /ᵈ d_of_Z samples).

Definition RunWorkloadPhase (lock : L) (data : list Z) (spec : QueryStreamSpec) (body : QueryBody)
    (run : PhaseRun) : option (L * list Z * MeasurementStats) :=
  '(lock, data, measured) ← RunPhase kThreadCount spec body lock data run;
  average ← AverageMutexesForQueries lock spec;
  Some (lock, data, {| m_seconds := phase_seconds measured; m_queries := queries (phase_sums measured);
                       m_mutex_query_sum := average *ᵈ d_of_Z (queries (phase_sums measured)) |}).

(** The variables of [RunWorkload], the runs and the answers of the clock to come. *)
Record Running := {
  r_lock : L;
  r_data : list Z;
  r_total : WorkloadRunStats;
  r_runs : list PhaseRun;
  r_before_deadline : list bool
}.

(** The lambda [run_phase]. *)
Definition add_phase (stats : MeasurementStats) (measured : bool) (total : WorkloadRunStats) : WorkloadRunStats :=
  {| total_seconds := total_seconds total;
     setup_seconds := if measured then setup_seconds total else setup_seconds total +ᵈ m_seconds stats;
     measured_seconds := if measured then measured_seconds total +ᵈ m_seconds stats else measured_seconds total;
     total_queries := total_queries total +₆₄ m_queries stats;
     measured_queries :=
       if measured then measured_queries total +₆₄ m_queries stats else measured_queries total;
     lock_total_ms := lock_total_ms total;
     mutex_query_sum := mutex_query_sum total +ᵈ m_mutex_query_sum stats |}.

Definition run_phase (body : QueryBody) (spec : QueryStreamSpec) (measured : bool) (r : Running) :
    option Running :=
  match r_runs r with
  | [] => None
  | run :: runs =>
      '(lock, data, stats) ← RunWorkloadPhase (r_lock r) (r_data r) spec body run;
      Some {| r_lock := lock; r_data := data; r_total := add_phase stats measured (r_total r);
              r_runs := runs; r_before_deadline := r_before_deadline r |}
  end.

(** [do run_phase(adapt_queries); while (now < deadline)], each comparison taking an
    answer. *)
Fixpoint adapt_loop (fuel : nat) (body : QueryBody) (spec : QueryStreamSpec) (r : Running) : option Running :=
  match fuel with
  | O => None
  | S fuel' =>
      r ← run_phase body spec false r;
      match r_before_deadline r with
      | [] => None
      | again :: answers =>
          let r := {| r_lock := r_lock r; r_data := r_data r; r_total := r_total r; r_runs := r_runs r;
                      r_before_deadline := answers |} in
          if again : bool then adapt_loop fuel' body spec r else Some r
      end
  end.

Definition timed_phase (body : QueryBody) (p : TimedPhaseInput) (r : Running) : option Running :=
  r ← (if adapt_seconds p <=?ᵈ d_zero then run_phase body (adapt_queries p) false r
       else adapt_loop (length (r_before_deadline r)) body (adapt_queries p) r);
  run_phase body (measure_queries p) true r.

Definition no_stats : WorkloadRunStats :=
  {| total_seconds := d_zero; setup_seconds := d_zero; measured_seconds := d_zero; total_queries := 0;
     measured_queries := 0; lock_total_ms := d_zero; mutex_query_sum := d_zero |}.

(** The phases in order; [total] is the time of the whole run. *)
Definition RunWorkload (lock : L) (data : list Z) (scenario : ScenarioInput) (body : QueryBody)
    (runs : list PhaseRun) (before_deadline : list bool) (total : double) :
    option (L * list Z * WorkloadRunStats) :=
  let lock := lock_start (lock_ResetRuntimeStats lock) in
  let r := {| r_lock := lock; r_data := data; r_total := no_stats; r_runs := runs;
              r_before_deadline := before_deadline |} in
  r ← foldl (λ r p, r ← r; run_phase body (phase_queries p) false r) (Some r) (setup_phases scenario);
  r ← foldl (λ r p, r ← r; timed_phase body p r) (Some r) (timed_phases scenario);
  r ← (if count (phase_queries (measured_phase scenario)) =? 0 then Some r
       else run_phase body (phase_queries (measured_phase scenario)) true r);
  let lock := lock_stop (r_lock r) in
  let t := r_total r in
  Some (lock, r_data r,
    {| total_seconds := total; setup_seconds := setup_seconds t; measured_seconds := measured_seconds t;
       total_queries := total_queries t; measured_queries := measured_queries t;
       lock_total_ms := lock_GetTotalLockTimeMs lock; mutex_query_sum := mutex_query_sum t |}).

(** ** One implementation *)

Record ImplementationResult := {
  i_name : str;
  i_total_seconds : double;
  i_setup_seconds : double;
  i_measured_seconds : double;
  lock_only_total_seconds : double;
  avg_lock_us : double;
  lock_only_avg_lock_us : double;
  measured_lock_total_seconds : double;
  avg_mutexes_per_query : double;
  left_hot_locks : Z;
  right_hot_locks : Z;
  reconfigurations : Z;
  i_total_queries : Z;
  lock_only_queries : Z;
  partition_cuts : list Z;
  debug_window_locks : list Z
}.

Definition GetPartitionCuts (lock : L) : list Z :=
  match lock_PartitionCuts with Some cuts => cuts lock | None => [] end.

(** [total_queries == 0 ? 0.0 : ms * 1000.0 / total_queries] *)
Definition average_us (t : WorkloadRunStats) : double :=
  if total_queries t =? 0 then d_zero
  else lock_total_ms t *ᵈ d_of_Z 1000 /ᵈ d_of_Z (total_queries t).

(** What the environment decides in one [RunWorkload]. *)
Record WorkloadRun := { wr_runs : list PhaseRun; wr_before_deadline : list bool; wr_total : double }.

Definition RunImplementation (name : str) (scenario : ScenarioInput) (factory : L) (factory2 : L)
    (run run2 : WorkloadRun) : option ImplementationResult :=
  '(lock, _, measured) ← RunWorkload factory MakeInitialData scenario kRealWork (wr_runs run)
                           (wr_before_deadline run) (wr_total run);
  left ← lock_CountLocksForRange lock 0 (kHotWindowSize -₆₄ 1);
  right ← lock_CountLocksForRange lock (kArraySize -₆₄ kHotWindowSize) (kArraySize -₆₄ 1);
  windows ← mapM (λ b, lock_CountLocksForRange lock b (b +₆₄ kClusteredHotWindowSize -₆₄ 1))
              (debug_window_begins scenario);
  '(_, _, only) ← RunWorkload factory2 MakeInitialData scenario kLockOnly (wr_runs run2)
                    (wr_before_deadline run2) (wr_total run2);
  Some {| i_name := name;
          i_total_seconds := total_seconds measured;
          i_setup_seconds := setup_seconds measured;
          i_measured_seconds := measured_seconds measured;
          lock_only_total_seconds := total_seconds only;
          avg_lock_us := average_us measured;
          lock_only_avg_lock_us := average_us only;
          measured_lock_total_seconds := lock_total_ms measured /ᵈ d_of_Z 1000;
          avg_mutexes_per_query :=
            if total_queries measured =? 0 then d_zero
            else mutex_query_sum measured /ᵈ d_of_Z (total_queries measured);
          left_hot_locks := left;
          right_hot_locks := right;
          reconfigurations := lock_GetRebuildCount lock;
          i_total_queries := total_queries measured;
          lock_only_queries := total_queries only;
          partition_cuts := GetPartitionCuts lock;
          debug_window_locks := windows |}.

(** ** What was executed *)

(** Executed phases, with whether they were measured. *)
Definition executed : Type := list (QueryStreamSpec * bool).

Definition all_counts (ex : executed) : Z := zsum ((λ e, count e.1) <$> ex).
Definition measured_counts (ex : executed) : Z := zsum ((λ e, if e.2 : bool then count e.1 else 0) <$> ex).

Definition all_added (body : QueryBody) (p : Z) (ex : executed) : Z :=
  zsum ((λ e, added body p (concat (thread_queries kThreadCount e.1 <$> seqZ 0 kThreadCount))) <$> ex).

(** An executed scenario: the setup phases, the timed phases, their first part
    repeated while there is time, and the measured phase unless it is empty. *)
Definition executed_timed (p : TimedPhaseInput) (ex : executed) : Prop :=
  ∃ k, (1 ≤ k)%nat ∧ ((adapt_seconds p <=?ᵈ d_zero) = true → k = 1%nat) ∧
    ex = replicate k (adapt_queries p, false) ++ [(measure_queries p, true)].

Definition measured_part (scenario : ScenarioInput) : executed :=
  if count (phase_queries (measured_phase scenario)) =? 0 then []
  else [(phase_queries (measured_phase scenario), true)].

Definition executed_scenario (scenario : ScenarioInput) (ex : executed) : Prop :=
  ∃ ts, Forall2 executed_timed (timed_phases scenario) ts ∧
    ex = ((λ p, (phase_queries p, false)) <$> setup_phases scenario) ++ concat ts ++ measured_part scenario.

Definition stream_ready (q : QueryStreamSpec) : Prop :=
  0 ≤ count q ∧ count q * kThreadCount < modulus64 ∧ spec_ok q.

Section Correct.
  Variables (body : QueryBody) (data0 : list Z).
  Context (HT : 0 < kThreadCount).

(** The state after the phases [ex]. *)
Record ran (ex : executed) (r : Running) : Prop := {
  ran_idle : lock_idle (r_lock r);
  ran_size : lock_size (r_lock r) = kArraySize;
  ran_ops : lock_operations (r_lock r) = u64 (all_counts ex);
  ran_len : len (r_data r) = kArraySize;
  ran_data p : 0 ≤ p < kArraySize → s32 (r_data r).[p] = s32 (data0.[p] + all_added body p ex);
  ran_total : total_queries (r_total r) = u64 (all_counts ex);
  ran_measured : measured_queries (r_total r) = u64 (measured_counts ex)
}.

Lemma ran_ready ex r q : ran ex r → stream_ready q → phase_ready kThreadCount q (r_lock r) (r_data r).
Proof.
  intros [] (H1 & H2 & H3). split; try done. rewrite ran_ops0. apply u64_range.
Qed.

Lemma all_counts_snoc ex q m : all_counts (ex ++ [(q, m)]) = all_counts ex + count q.
Proof. unfold all_counts. rewrite fmap_app, zsum_app. simpl. lia. Qed.

Lemma measured_counts_snoc ex q m :
  measured_counts (ex ++ [(q, m)]) = measured_counts ex + (if m : bool then count q else 0).
Proof. unfold measured_counts. rewrite fmap_app, zsum_app. simpl. lia. Qed.

Lemma all_added_snoc p ex q m :
  all_added body p (ex ++ [(q, m)]) =
  all_added body p ex + added body p (concat (thread_queries kThreadCount q <$> seqZ 0 kThreadCount)).
Proof. unfold all_added. rewrite fmap_app, zsum_app. simpl. lia. Qed.

Lemma s32_congr a b c : s32 a = s32 b → s32 (a + c) = s32 (b + c).
Proof. intros H. by rewrite <-(s32_s32_add a), H, s32_s32_add. Qed.

Lemma run_phase_ran ex r q m r' :
  ran ex r → stream_ready q → run_phase body q m r = Some r' → ran (ex ++ [(q, m)]) r'.
Proof.
  intros Hran Hq Hrun. unfold run_phase, RunWorkloadPhase in Hrun.
  destruct (r_runs r) as [|run runs]; [done|].
  destruct (RunPhase kThreadCount q body (r_lock r) (r_data r) run) as [[[lock' data'] stats]|] eqn:Hph; [|done].
  simpl in Hrun. destruct (AverageMutexesForQueries lock' q) as [avg|]; [|done]. injection Hrun as <-.
  destruct (RunPhase_spec _ _ body _ _ (ran_ready ex r q Hran Hq)) as [_ Hdone].
  destruct (Hdone _ _ _ _ Hph) as (Hqs & Hi & Hs & Hl & Ho & Hd). destruct Hran.
  split; simpl; try done.
  - rewrite Ho, ran_ops0, u64_add_idemp_l, all_counts_snoc. done.
  - intros p Hp. rewrite Hd, all_added_snoc by done.
    rewrite <-s32_s32_add, ran_data0, s32_s32_add by done. f_equal. lia.
  - rewrite Hqs, ran_total0, u64_add_r, all_counts_snoc. done.
  - rewrite measured_counts_snoc. destruct m; [by rewrite Hqs, ran_measured0, u64_add_r|].
    by rewrite Z.add_0_r.
Qed.

Lemma adapt_loop_ran fuel : ∀ ex r q r',
  ran ex r → stream_ready q → adapt_loop fuel body q r = Some r' →
  ∃ k, (1 ≤ k)%nat ∧ ran (ex ++ replicate k (q, false)) r'.
Proof.
  induction fuel as [|fuel IH]; intros ex r q r' Hran Hq Hrun; [done|]. cbn [adapt_loop] in Hrun.
  destruct (run_phase body q false r) as [r1|] eqn:H1; [|done]. simpl in Hrun.
  pose proof (run_phase_ran _ _ _ _ _ Hran Hq H1) as Hran1.
  destruct (r_before_deadline r1) as [|again answers]; [done|].
  set (r2 := {| r_lock := r_lock r1; r_data := r_data r1; r_total := r_total r1; r_runs := r_runs r1;
                r_before_deadline := answers |}) in *.
  assert (ran (ex ++ [(q, false)]) r2) as Hran2 by (by destruct Hran1).
  destruct again.
  - destruct (IH _ _ _ _ Hran2 Hq Hrun) as (k & Hk & Hran'). exists (S k). split; [lia|].
    by rewrite <-app_assoc in Hran'.
  - injection Hrun as <-. by exists 1%nat.
Qed.

Lemma timed_phase_ran ex r p r' :
  ran ex r → stream_ready (adapt_queries p) → stream_ready (measure_queries p) →
  timed_phase body p r = Some r' → ∃ t, executed_timed p t ∧ ran (ex ++ t) r'.
Proof.
  intros Hran Ha Hm Hrun. unfold timed_phase in Hrun.
  destruct (adapt_seconds p <=?ᵈ d_zero) eqn:Hs.
  - destruct (run_phase body (adapt_queries p) false r) as [r1|] eqn:H1; [|done]. simpl in Hrun.
    pose proof (run_phase_ran _ _ _ _ _ (run_phase_ran _ _ _ _ _ Hran Ha H1) Hm Hrun) as Hran'.
    rewrite <-app_assoc in Hran'. eexists. split; [|exact Hran']. by exists 1%nat.
  - destruct (adapt_loop _ body (adapt_queries p) r) as [r1|] eqn:H1; [|done]. simpl in Hrun.
    destruct (adapt_loop_ran _ _ _ _ _ Hran Ha H1) as (k & Hk & Hran1).
    pose proof (run_phase_ran _ _ _ _ _ Hran1 Hm Hrun) as Hran'. rewrite <-app_assoc in Hran'.
    eexists. split; [|exact Hran']. exists k. by rewrite Hs.
Qed.

Lemma setup_ran ps : ∀ ex r r',
  ran ex r → Forall (λ p, stream_ready (phase_queries p)) ps →
  foldl (λ r p, r ← r; run_phase body (phase_queries p) false r) (Some r) ps = Some r' →
  ran (ex ++ ((λ p, (phase_queries p, false)) <$> ps)) r'.
Proof.
  induction ps as [|p ps IH]; intros ex r r' Hran Hps Hrun; simpl in Hrun.
  - injection Hrun as <-. by rewrite app_nil_r.
  - apply Forall_cons in Hps as [Hp Hps].
    destruct (run_phase body (phase_queries p) false r) as [r1|] eqn:H1.
    + specialize (IH _ _ _ (run_phase_ran _ _ _ _ _ Hran Hp H1) Hps Hrun). by rewrite <-app_assoc in IH.
    + exfalso. clear -Hrun. induction ps; [done|]. auto.
Qed.

Lemma timed_ran ps : ∀ ex r r',
  ran ex r → Forall (λ p, stream_ready (adapt_queries p) ∧ stream_ready (measure_queries p)) ps →
  foldl (λ r p, r ← r; timed_phase body p r) (Some r) ps = Some r' →
  ∃ ts, Forall2 executed_timed ps ts ∧ ran (ex ++ concat ts) r'.
Proof.
  induction ps as [|p ps IH]; intros ex r r' Hran Hps Hrun; simpl in Hrun.
  - injection Hrun as <-. exists []. simpl. by rewrite app_nil_r.
  - apply Forall_cons in Hps as [[Ha Hm] Hps]. destruct (timed_phase body p r) as [r1|] eqn:H1.
    + destruct (timed_phase_ran _ _ _ _ Hran Ha Hm H1) as (t & Ht & Hran1).
      destruct (IH _ _ _ Hran1 Hps Hrun) as (ts & Hts & Hran'). exists (t :: ts). simpl.
      rewrite <-app_assoc in Hran'. split; [by constructor|done].
    + exfalso. clear -Hrun. induction ps; [done|]. auto.
Qed.

(** *** Some runs finish the workload *)

Definition set_runs (r : Running) (runs : list PhaseRun) : Running :=
  {| r_lock := r_lock r; r_data := r_data r; r_total := r_total r; r_runs := runs;
     r_before_deadline := r_before_deadline r |}.

Lemma AverageMutexes_defined lock q :
  lock_idle lock → lock_size lock = kArraySize → spec_ok q → 0 ≤ count q →
  is_Some (AverageMutexesForQueries lock q).
Proof.
  intros Hi Hs Hok Hc. unfold AverageMutexesForQueries. destruct (count q =? 0); [done|].
  unfold count_mutexes.
  edestruct (for_opt_inv (λ (_ : Z) (_ : FastRng * Z), True) 0 (Z.min kMaxSamples (count q)))
    as ([rng total] & -> & _); [unfold kMaxSamples; lia|done| |done].
  intros i [rng total] _ _. cbv beta iota.
  pose proof (stream_query_within rng q 0 i Hok) as Hw. destruct (stream_window q 0 i) as [b w].
  destruct (MakeStreamQuery rng q 0 i) as [query rng']. destruct Hw as (Hb & Hbw & Hw).
  unfold query_within in Hw. cbn [fst] in Hw. rewrite kArraySize_val in *.
  destruct (count_defined lock (q_left query) (q_right query)) as (c & -> & _);
    [done|lia|unfold is_u64; rewrite modulus64_val; lia..|]. by eexists.
Qed.

Lemma run_phase_exists ex r q m :
  ran ex r → stream_ready q →
  ∃ run r1, ran (ex ++ [(q, m)]) r1 ∧
    ∀ rest, run_phase body q m (set_runs r (run :: rest)) = Some (set_runs r1 rest).
Proof.
  intros Hran Hq. pose proof (ran_ready ex r q Hran Hq) as Hready.
  destruct (RunPhase_spec _ _ body _ _ Hready) as [[run [[[lock' data'] stats] Hrun]] Hdone].
  destruct (Hdone _ _ _ _ Hrun) as (_ & Hi & Hs & _). destruct Hq as (Hc & Hm & Hok).
  destruct (AverageMutexes_defined lock' q Hi Hs Hok Hc) as [avg Havg].
  pose (stats' := {| m_seconds := phase_seconds stats; m_queries := queries (phase_sums stats);
                     m_mutex_query_sum := avg *ᵈ d_of_Z (queries (phase_sums stats)) |}).
  assert (∀ rest, run_phase body q m (set_runs r (run :: rest)) =
    Some (set_runs {| r_lock := lock'; r_data := data'; r_total := add_phase stats' m (r_total r);
      r_runs := []; r_before_deadline := r_before_deadline r |} rest)) as Heq.
  { intros rest. unfold run_phase, RunWorkloadPhase. simpl. rewrite Hrun. simpl. by rewrite Havg. }
  eexists run, _. split; [|exact Heq]. specialize (Heq []).
  apply (run_phase_ran ex (set_runs r [run]) q m); [by destruct Hran|done|done].
Qed.

Lemma timed_phase_exists ex r p :
  (adapt_seconds p <=?ᵈ d_zero) = true →
  ran ex r → stream_ready (adapt_queries p) → stream_ready (measure_queries p) →
  ∃ runs r1 ex', ran ex' r1 ∧
    ∀ rest, timed_phase body p (set_runs r (runs ++ rest)) = Some (set_runs r1 rest).
Proof.
  intros Hs Hran Ha Hm. destruct (run_phase_exists _ _ _ false Hran Ha) as (run & r1 & Hran1 & H1).
  destruct (run_phase_exists _ _ _ true Hran1 Hm) as (run2 & r2 & Hran2 & H2).
  exists [run; run2], r2. eexists. split; [exact Hran2|]. intros rest. unfold timed_phase. rewrite Hs.
  simpl app. rewrite H1. simpl. apply H2.
Qed.

(** Phases one after the other, each with runs that finish it. *)
Lemma phases_exist {A} (f : A → Running → option Running) (ps : list A) : ∀ ex r,
  ran ex r →
  (∀ p ex r, p ∈ ps → ran ex r → ∃ runs r1 ex', ran ex' r1 ∧
    ∀ rest, f p (set_runs r (runs ++ rest)) = Some (set_runs r1 rest)) →
  ∃ runs r1 ex', ran ex' r1 ∧ ∀ rest,
    foldl (λ r p, r ← r; f p r) (Some (set_runs r (runs ++ rest))) ps = Some (set_runs r1 rest).
Proof.
  induction ps as [|p ps IH]; intros ex r Hran Hf.
  - exists [], r, ex. by split.
  - destruct (Hf p ex r) as (runs & r1 & ex1 & Hran1 & H1); [by left|done|].
    destruct (IH ex1 r1 Hran1) as (runs2 & r2 & ex2 & Hran2 & H2).
    { intros q ex' r' Hq. apply Hf. by right. }
    exists (runs ++ runs2), r2, ex2. split; [done|]. intros rest. simpl. rewrite <-app_assoc, H1. apply H2.
Qed.

(** [RunWorkload] before its first phase. *)
Definition start_running (lock : L) (runs : list PhaseRun) (answers : list bool) : Running :=
  {| r_lock := lock_start (lock_ResetRuntimeStats lock); r_data := data0; r_total := no_stats;
     r_runs := runs; r_before_deadline := answers |}.

Lemma start_ran lock runs answers :
  lock_idle lock → lock_size lock = kArraySize → len data0 = kArraySize → ran [] (start_running lock runs answers).
Proof.
  intros Hi Hs Hl. destruct (reset_idle lock Hi) as (Hi0 & Hs0 & Ho0).
  destruct (lock_start_idle _ Hi0) as [Hi1 Hs1]. split; simpl; try done.
  - by rewrite Hs1, Hs0.
  - by rewrite start_operations, Ho0.
  - intros p _. by rewrite Z.add_0_r.
Qed.

(** The streams of the three parts of a scenario. *)
Definition parts_ready (scenario : ScenarioInput) : Prop :=
  Forall (λ p, stream_ready (phase_queries p)) (setup_phases scenario) ∧
  stream_ready (phase_queries (measured_phase scenario)) ∧
  Forall (λ p, stream_ready (adapt_queries p) ∧ stream_ready (measure_queries p)) (timed_phases scenario).

Lemma all_streams_ready scenario : Forall stream_ready (all_streams scenario) → parts_ready scenario.
Proof.
  unfold all_streams, parts_ready. rewrite !Forall_app. intros (Hsetup & Hmeas & Htimed).
  rewrite Forall_fmap in Hsetup. rewrite Forall_singleton in Hmeas. split_and!; [done..|].
  clear -Htimed. induction (timed_phases scenario) as [|p ps IH]; [done|]. simpl in Htimed.
  rewrite !Forall_cons in Htimed. destruct Htimed as (Ha & Hm & Hps). constructor; auto.
Qed.

Lemma RunWorkload_ran lock scenario runs answers total lock' data' stats :
  lock_idle lock → lock_size lock = kArraySize → len data0 = kArraySize → parts_ready scenario →
  RunWorkload lock data0 scenario body runs answers total = Some (lock', data', stats) →
  ∃ ex r, executed_scenario scenario ex ∧ ran ex r ∧ lock' = lock_stop (r_lock r) ∧ data' = r_data r ∧
    total_queries stats = total_queries (r_total r) ∧ measured_queries stats = measured_queries (r_total r).
Proof.
  intros Hi Hs Hl (Hsetup & Hmeas & Htimed) Hrun. unfold RunWorkload in Hrun. cbv zeta in Hrun.
  pose proof (start_ran lock runs answers Hi Hs Hl) as Hran0. fold (start_running lock runs answers) in Hrun.
  destruct (foldl _ (Some (start_running lock runs answers)) (setup_phases scenario)) as [r1|] eqn:H1; [|done].
  simpl in Hrun. destruct (foldl _ (Some r1) (timed_phases scenario)) as [r2|] eqn:H2; [|done]. simpl in Hrun.
  pose proof (setup_ran _ _ _ _ Hran0 Hsetup H1) as Hran1.
  destruct (timed_ran _ _ _ _ Hran1 Htimed H2) as (ts & Hts & Hran2).
  assert (∃ r3, (if count (phase_queries (measured_phase scenario)) =? 0 then Some r2
    else run_phase body (phase_queries (measured_phase scenario)) true r2) = Some r3 ∧
    ran ((((λ p, (phase_queries p, false)) <$> setup_phases scenario) ++ concat ts) ++
      measured_part scenario) r3) as (r3 & H3 & Hran3).
  { unfold measured_part. destruct (_ =? 0); [exists r2; by rewrite app_nil_r|].
    destruct (run_phase _ _ _ r2) as [r3|] eqn:H3; [|done]. exists r3. split; [done|].
    by apply (run_phase_ran _ r2). }
  rewrite H3 in Hrun. simpl in Hrun. injection Hrun as <- <- <-. rewrite <-app_assoc in Hran3.
  eexists _, r3. split; [by exists ts|]. done.
Qed.

Lemma RunWorkload_exists lock scenario answers total :
  lock_idle lock → lock_size lock = kArraySize → len data0 = kArraySize → parts_ready scenario →
  Forall (λ p, (adapt_seconds p <=?ᵈ d_zero) = true) (timed_phases scenario) →
  ∃ runs, is_Some (RunWorkload lock data0 scenario body runs answers total).
Proof.
  intros Hi Hs Hl (Hsetup & Hmeas & Htimed) Hno.
  destruct (phases_exist (λ p, run_phase body (phase_queries p) false) (setup_phases scenario) [] _
    (start_ran lock [] answers Hi Hs Hl)) as (runs1 & r1 & ex1 & Hran1 & H1).
  { intros p ex r Hp Hran. rewrite Forall_forall in Hsetup.
    destruct (run_phase_exists ex r _ false Hran (Hsetup p Hp)) as (run & r1 & H & H'). exists [run], r1. by eexists. }
  destruct (phases_exist (λ p, timed_phase body p) (timed_phases scenario) ex1 _ Hran1)
    as (runs2 & r2 & ex2 & Hran2 & H2).
  { intros p ex r Hp Hran. rewrite Forall_forall in Htimed, Hno. destruct (Htimed p Hp).
    by apply (timed_phase_exists ex); auto. }
  destruct (run_phase_exists ex2 r2 _ true Hran2 Hmeas) as (run & r3 & _ & H3).
  exists (runs1 ++ runs2 ++ [run]). unfold RunWorkload. cbv zeta. specialize (H1 (runs2 ++ [run])).
  unfold set_runs at 1, start_running in H1. cbn [r_lock r_data r_total r_before_deadline] in H1.
  rewrite H1. cbn [mbind option_bind]. rewrite H2. cbn [mbind option_bind].
  destruct (_ =? 0); [by eexists|]. rewrite H3. by eexists.
Qed.

End Correct.

End Workload.

(** ** Property *)

(** [RunWorkload] on an idle lock, on any of the three implementations, for a
    scenario whose streams are in the array: whenever the run ends, the phases it
    executed are those of the scenario (a timed phase repeated while the clock
    allows), [total_queries] and [measured_queries] are the numbers of queries of
    these phases, the lock has counted the same number, and the data are the
    initial data plus the deltas of all executed queries, modulo [2^32], or
    unchanged with the empty body. If no phase has a time limit, some schedule ends
    the run. *)
Theorem RunWorkload_correct {L Loc : Type} `{BL : BenchLock L Loc} kThreadCount lock data scenario body :
  0 < kThreadCount → lock_idle lock → lock_size lock = kArraySize → len data = kArraySize →
  Forall (stream_ready kThreadCount) (all_streams scenario) →
  (∀ runs answers total lock' data' stats,
    RunWorkload kThreadCount lock data scenario body runs answers total = Some (lock', data', stats) →
    ∃ ex, executed_scenario scenario ex ∧
      total_queries stats = u64 (all_counts ex) ∧ measured_queries stats = u64 (measured_counts ex) ∧
      lock_operations lock' = total_queries stats ∧ lock_idle lock' ∧
      ∀ p, 0 ≤ p < kArraySize → s32 data'.[p] = s32 (data.[p] + all_added kThreadCount body p ex)) ∧
  (Forall (λ p, (adapt_seconds p <=?ᵈ d_zero) = true) (timed_phases scenario) →
    ∀ answers total, ∃ runs, is_Some (RunWorkload kThreadCount lock data scenario body runs answers total)).
Proof.
  intros HT Hi Hs Hl Hall%all_streams_ready. split.
  - intros runs answers total lock' data' stats Hrun.
    destruct (RunWorkload_ran kThreadCount body data HT lock scenario _ _ _ _ _ _ Hi Hs Hl Hall Hrun)
      as (ex & r & Hex & [] & -> & -> & Ht & Hm).
    exists ex. split; [done|]. rewrite Ht, Hm, stop_operations.
    destruct (lock_stop_idle (r_lock r) ran_idle0) as [? _]. split_and!; done || congruence.
  - intros Hno answers total. by apply RunWorkload_exists.
Qed.

Lemma RunWorkload_correct_witness :
  let HL : 0 < 64 < modulus64 := ltac:(by vm_compute) in
  let QL := naive_query_lock 64 HL in
  let BL := naive_bench_lock 64 HL in
  let setup := BuildQueries 3 kUniform kLeft 1 5 in
  let measured := BuildQueries 2 kUniform kRight 7 9 in
  let scenario := {| scenario_name := []; description := []; debug_window_begins := [];
                     setup_phases := [{| phase_name := []; phase_queries := setup |}]; timed_phases := [];
                     measured_phase := {| phase_name := []; phase_queries := measured |} |} in
  ∃ runs lock data stats,
    RunWorkload 2 (naive_make 64 kArraySize) zero_data scenario kLockOnly runs [] d_zero =
      Some (lock, data, stats) ∧
    total_queries stats = 5 ∧ measured_queries stats = 2.
Proof.
  intros HL QL BL setup measured scenario.
  destruct (RunWorkload_correct 2 (naive_make 64 kArraySize) zero_data scenario kLockOnly) as [Hend Hrun].
  - lia.
  - apply (naive_make_ok 64); by vm_compute.
  - reflexivity.
  - unfold zero_data. rewrite len_replicate. by vm_compute.
  - repeat constructor; by vm_compute.
  - destruct (Hrun ltac:(constructor) [] d_zero) as [runs [[[lock data] stats] H]].
    exists runs, lock, data, stats. split; [exact H|].
    destruct (Hend _ _ _ _ _ _ H) as (ex & (ts & Hts & ->) & Ht & Hm & _).
    inversion Hts; subst. split; [exact Ht|exact Hm].
Defined.
