(* ===== verification/Threads.v ===== *)
(** Threads that call [WriteQuery] of one lock.

    The demonstration programs start threads that make a fixed sequence of calls
    each and join them. A pool is the shared lock, the data that the functions of
    the calls change, and per thread the calls it has not made yet. A schedule
    says which thread makes the next call; by [QueryLock], a call runs its function
    once on the clamped interval. The results: any schedule that lets every thread
    finish has run the functions of all calls, in an order that is a permutation
    of the threads' calls, and such a schedule exists. *)
From S2P Require Import QueryLock Prelude.

Section Parts.
  Context {A : Type}.

(** [size * thread_index / thread_count], with [size_t] arithmetic. *)
Definition part_begin (threads size t : Z) : Z := (size *₆₄ t) / threads.

(** The part of thread [t] of a list that the threads share out. *)
Definition part (threads : Z) (l : list A) (t : Z) : list A :=
  take (Z.to_nat (part_begin threads (len l) (t +₆₄ 1) - part_begin threads (len l) t))
    (drop (Z.to_nat (part_begin threads (len l) t)) l).

Lemma part_begin_eq threads size t :
  0 ≤ size → 0 ≤ t ≤ threads → size * threads < modulus64 →
  part_begin threads size t = size * t / threads.
Proof. intros. unfold part_begin. by rewrite u64_mul_small by nia. Qed.

Lemma parts_prefix threads (l : list A) (k : nat) :
  0 < threads < modulus64 → len l * threads < modulus64 → Z.of_nat k ≤ threads →
  concat (part threads l <$> seqZ 0 (Z.of_nat k)) = take (Z.to_nat (len l * Z.of_nat k / threads)) l.
Proof.
  intros HT Hm. pose proof (len_nonneg l). induction k as [|k IH]; intros Hk.
  - by rewrite Z.mul_0_r.
  - rewrite Nat2Z.inj_succ, <-Z.add_1_r, seqZ_app by lia. rewrite fmap_app, concat_app, IH by lia.
    simpl. rewrite app_nil_r. unfold part.
    rewrite !Z.add_0_l, u64_add_small by lia.
    rewrite !part_begin_eq by lia.
    assert (0 ≤ len l * Z.of_nat k / threads) by (apply Z.div_pos; nia).
    assert (len l * Z.of_nat k / threads ≤ len l * (Z.of_nat k + 1) / threads) by (apply Z.div_le_mono; nia).
    rewrite take_take_drop. f_equal. lia.
Qed.

(** Every element is in the part of exactly one thread. *)
Lemma parts_concat threads (l : list A) :
  0 < threads < modulus64 → len l * threads < modulus64 →
  concat (part threads l <$> seqZ 0 threads) = l.
Proof.
  intros HT Hm. pose proof (parts_prefix threads l (Z.to_nat threads)) as Hp.
  rewrite Z2Nat.id in Hp by lia. rewrite Hp, Z.div_mul by lia. apply take_ge. unfold len. lia.
Qed.

End Parts.

Section Threads.
  Context {L Loc D : Type} `{QL : QueryLock L Loc}.

Record Call := { c_left : Z; c_right : Z; c_func : Z → Z → D → D }.

(** The calls to make, the [thread_local] variables, the number of calls made. *)
Record Thread := { th_calls : list Call; th_locals : Loc; th_done : Z }.

Record Pool := { p_lock : L; p_data : D; p_threads : list Thread }.

(** The threads as they are started. *)
Definition spawn (calls : list Call) : Thread :=
  {| th_calls := calls; th_locals := lock_locals; th_done := 0 |}.

Definition start_pool (lock : L) (data : D) (programs : list (list Call)) : Pool :=
  {| p_lock := lock; p_data := data; p_threads := spawn <$> programs |}.

(** The next call of thread [t], which waits [delta] nanoseconds for its mutexes. *)
Definition call_step (t : nat) (delta : Z) (st : Pool) : option Pool :=
  th ← p_threads st !! t;
  match th_calls th with
  | [] => None
  | c :: rest =>
      '(lock, loc, data) ← lock_write delta (c_left c) (c_right c) (c_func c)
                             (p_lock st, th_locals th, p_data st);
      Some {| p_lock := lock; p_data := data;
              p_threads := <[t := {| th_calls := rest; th_locals := loc; th_done := th_done th +₆₄ 1 |}]>
                             (p_threads st) |}
  end.

Fixpoint run_calls (schedule : list (nat * Z)) (st : Pool) : option Pool :=
  match schedule with
  | [] => Some st
  | (t, delta) :: schedule => st ← call_step t delta st; run_calls schedule st
  end.

(** Every thread has finished, so the joins return. *)
Definition joined (st : Pool) : bool :=
  forallb (λ th, match th_calls th with [] => true | _ => false end) (p_threads st).

(** ** What the calls did *)

(** The call on a lock of [n] positions. *)
Definition effect (n : Z) (data : D) (c : Call) : D :=
  c_func c (Z.min (Z.min (c_left c) (c_right c)) (n - 1)) (Z.min (Z.max (c_left c) (c_right c)) (n - 1)) data.

Definition call_ok (c : Call) : Prop := is_u64 (c_left c) ∧ is_u64 (c_right c).

Definition remaining (st : Pool) : list Call := concat (th_calls <$> p_threads st).

(** The number of calls of each thread, made or not. *)
Definition totals (st : Pool) : list Z := (λ th, u64 (th_done th + len (th_calls th))) <$> p_threads st.

Record pool_ok (st : Pool) : Prop := {
  pool_idle : lock_idle (p_lock st);
  pool_size : 0 < lock_size (p_lock st);
  pool_calls : Forall call_ok (concat (th_calls <$> p_threads st));
  pool_done : Forall (λ th, is_u64 (th_done th)) (p_threads st)
}.

(** From [st] to [st'], the calls [trace] were made in this order. *)
Record made (st st' : Pool) (trace : list Call) : Prop := {
  made_ok : pool_ok st';
  made_perm : remaining st ≡ₚ trace ++ remaining st';
  made_size : lock_size (p_lock st') = lock_size (p_lock st);
  made_ops : u64 (lock_operations (p_lock st')) = u64 (lock_operations (p_lock st) + len trace);
  made_data : p_data st' = foldl (effect (lock_size (p_lock st))) (p_data st) trace;
  made_totals : totals st' = totals st
}.

Lemma remaining_insert (st : Pool) t th c rest th' lock data :
  p_threads st !! t = Some th → th_calls th = c :: rest → th_calls th' = rest →
  remaining st ≡ₚ c :: remaining {| p_lock := lock; p_data := data; p_threads := <[t := th']> (p_threads st) |}.
Proof.
  intros Ht Hc Hr. unfold remaining; simpl. rewrite list_fmap_insert, Hr.
  assert ((th_calls <$> p_threads st) !! t = Some (c :: rest)) as Hl by (rewrite list_lookup_fmap, Ht; simpl; congruence).
  rewrite insert_take_drop by (by apply lookup_lt_Some in Hl).
  rewrite <-(take_drop_middle _ _ _ Hl) at 1. rewrite !concat_app. simpl. apply Permutation_sym, Permutation_middle.
Qed.

Lemma call_step_made t delta st th c rest :
  pool_ok st → p_threads st !! t = Some th → th_calls th = c :: rest →
  ∃ st', call_step t delta st = Some st' ∧ made st st' [c].
Proof.
  intros [Hi Hs Hok Hd] Ht Hc.
  assert (call_ok c) as [Hl Hr].
  { rewrite Forall_concat, Forall_fmap in Hok. apply (Forall_lookup_1 _ _ _ _ Hok) in Ht.
    simpl in Ht. rewrite Hc in Ht. by apply Forall_cons in Ht as [? _]. }
  destruct (lock_write_once delta (c_left c) (c_right c) (c_func c) (p_lock st) (th_locals th) (p_data st))
    as (lock & loc & Hw & Hi' & Hs' & Ho); [done..|].
  unfold call_step. rewrite Ht. simpl. rewrite Hc, Hw. simpl. eexists. split; [done|].
  set (th' := {| th_calls := rest; th_locals := loc; th_done := th_done th +₆₄ 1 |}).
  pose proof (remaining_insert st t th c rest th' lock (effect (lock_size (p_lock st)) (p_data st) c) Ht Hc eq_refl) as Hp.
  split; cbn [p_lock p_data p_threads].
  - split; cbn [p_lock p_data p_threads]; [done|lia| |].
    + rewrite Hp in Hok. by apply Forall_cons in Hok as [_ ?].
    + apply Forall_insert; [done|]. apply u64_add_range.
  - done.
  - done.
  - rewrite Ho. unfold u64_add. by rewrite u64_u64.
  - done.
  - unfold totals. cbn [p_threads]. rewrite list_fmap_insert. apply list_insert_id.
    rewrite list_lookup_fmap, Ht. simpl. f_equal. rewrite Hc, len_cons. unfold u64_add.
    rewrite u64_add_idemp_l. f_equal. lia.
Qed.

Lemma made_trans st1 st2 st3 tr1 tr2 : made st1 st2 tr1 → made st2 st3 tr2 → made st1 st3 (tr1 ++ tr2).
Proof.
  intros [H1 H2 H3 H4 H5 H6] [K1 K2 K3 K4 K5 K6]. split.
  - done.
  - by rewrite H2, K2, app_assoc.
  - congruence.
  - rewrite K4, len_app, <-u64_add_idemp_l, H4, u64_add_idemp_l. f_equal. lia.
  - rewrite K5, H3, H5. by rewrite foldl_app.
  - congruence.
Qed.

Lemma made_refl st : pool_ok st → made st st [].
Proof. intros Hok. split; try done. f_equal. unfold len; simpl. lia. Qed.

Lemma run_calls_made schedule : ∀ st st',
  pool_ok st → run_calls schedule st = Some st' → ∃ trace, made st st' trace.
Proof.
  induction schedule as [|[t delta] schedule IH]; intros st st' Hok Hrun; simpl in Hrun.
  - injection Hrun as <-. exists []. by apply made_refl.
  - destruct (call_step t delta st) as [st1|] eqn:Hstep; [|done]. simpl in Hrun.
    destruct (p_threads st !! t) as [th|] eqn:Ht; [|by unfold call_step in Hstep; rewrite Ht in Hstep].
    destruct (th_calls th) as [|c rest] eqn:Hc.
    { unfold call_step in Hstep. rewrite Ht in Hstep. simpl in Hstep. by rewrite Hc in Hstep. }
    destruct (call_step_made t delta st th c rest Hok Ht Hc) as (? & Heq & Hmade). simplify_eq.
    destruct (IH _ _ (made_ok _ _ _ Hmade) Hrun) as [trace Htrace].
    exists ([c] ++ trace). by eapply made_trans.
Qed.

Lemma joined_remaining st : joined st = true ↔ remaining st = [].
Proof.
  unfold joined, remaining. induction (p_threads st) as [|th l IH]; [done|]. simpl.
  destruct (th_calls th); simpl; [apply IH|]. done.
Qed.

Lemma not_joined st :
  joined st = false → ∃ t th c rest, p_threads st !! t = Some th ∧ th_calls th = c :: rest.
Proof.
  unfold joined. induction (p_threads st) as [|th l IH]; [done|]. simpl.
  destruct (th_calls th) as [|c rest] eqn:Hc; simpl; intros Hj.
  - destruct (IH Hj) as (t & th' & c & rest & Ht & ?). by exists (S t), th', c, rest.
  - by exists O, th, c, rest.
Qed.

(** Some schedule lets every thread finish. *)
Lemma run_calls_joins n : ∀ st,
  pool_ok st → length (remaining st) = n →
  ∃ schedule st', run_calls schedule st = Some st' ∧ joined st' = true.
Proof.
  induction n as [|n IH]; intros st Hok Hn.
  - exists [], st. split; [done|]. apply joined_remaining. by apply nil_length_inv.
  - destruct (joined st) eqn:Hj; [by exists [], st|]. apply not_joined in Hj as (t & th & c & rest & Ht & Hc).
    destruct (call_step_made t 0 st th c rest Hok Ht Hc) as (st1 & Hstep & Hmade).
    destruct (IH st1) as (schedule & st' & Hrun & Hj).
    + apply Hmade.
    + pose proof (made_perm _ _ _ Hmade) as Hp. apply Permutation_length in Hp. simpl in Hp. lia.
    + exists ((t, 0) :: schedule), st'. split; [|done]. simpl. by rewrite Hstep.
Qed.

Lemma start_pool_ok lock data programs :
  lock_idle lock → 0 < lock_size lock → Forall (Forall call_ok) programs →
  pool_ok (start_pool lock data programs) ∧
  remaining (start_pool lock data programs) = concat programs ∧
  totals (start_pool lock data programs) = (λ p, u64 (len p)) <$> programs.
Proof.
  intros Hi Hs Hc. unfold remaining, totals; simpl.
  rewrite <-!list_fmap_compose. change (th_calls ∘ spawn) with (λ c : list Call, c). rewrite list_fmap_id.
  split; [|done]. split; simpl; [done|done| |].
  - unfold remaining; simpl. rewrite <-list_fmap_compose. change (th_calls ∘ spawn) with (λ c : list Call, c).
    rewrite list_fmap_id. by apply Forall_concat.
  - apply Forall_fmap. apply Forall_true. intros p. apply is_u64_0.
Qed.

(** A program of threads, from its start to its joins. *)
Lemma pool_runs lock data programs :
  lock_idle lock → 0 < lock_size lock → Forall (Forall call_ok) programs →
  (∀ schedule st, run_calls schedule (start_pool lock data programs) = Some st → joined st = true →
    ∃ trace, trace ≡ₚ concat programs ∧
      p_data st = foldl (effect (lock_size lock)) data trace ∧
      lock_idle (p_lock st) ∧ lock_size (p_lock st) = lock_size lock ∧
      u64 (lock_operations (p_lock st)) = u64 (lock_operations lock + len (concat programs)) ∧
      th_done <$> p_threads st = (λ p, u64 (len p)) <$> programs) ∧
  ∃ schedule st, run_calls schedule (start_pool lock data programs) = Some st ∧ joined st = true.
Proof.
  intros Hi Hs Hc. destruct (start_pool_ok lock data programs Hi Hs Hc) as (Hok & Hrem & Htot). split.
  - intros schedule st Hrun Hj. apply run_calls_made in Hrun as [trace [H1 H2 H3 H4 H5 H6]]; [|done].
    rewrite (proj1 (joined_remaining st) Hj), app_nil_r, Hrem in H2. exists trace.
    split; [done|]. split; [done|]. split; [apply H1|]. split; [done|]. split.
    + rewrite H4. unfold len. by rewrite (Permutation_length H2).
    + rewrite <-Htot, <-H6. unfold totals. destruct H1 as [_ _ _ Hd].
      unfold joined in Hj. revert Hj Hd. clear. induction (p_threads st) as [|th l IH]; [done|].
      cbn [forallb]. rewrite Forall_cons. intros Hj [H1 H2]. apply andb_prop in Hj as [Hth Hl]. rewrite !fmap_cons, IH by done.
      f_equal. destruct (th_calls th); [|done]. by rewrite Z.add_0_r, u64_small.
  - by eapply run_calls_joins.
Qed.

End Threads.
