(* ===== verification/Example.v ===== *)
(** The example program ([example/main.cpp]).

    Eight threads increment every element of an array under a [DynamicLock], a
    query per element, and [main] throws unless every element has been incremented
    by every thread. The theorem: in every interleaving the elements but the last
    are incremented by all threads, and the last one by none, because its query
    [[n-1, n]] is clamped to [[n-1, n-1]] while the function treats its arguments
    as a half-open interval. So [main] throws. *)
From S2P Require Import Double BlockMap RangeLock DynamicLock QueryLock Threads Prelude.

Definition kLockSize : Z := Z.shiftl 1 20.
Definition kLocks : Z := 64.
Definition kThreadCnt : Z := 8.

(** The lambda [AddOneToPoint]; its parameters are of type [int]. *)
Definition AddOneToPoint (left right : Z) (data : list Z) : list Z :=
  for_range (s32 left) (s32 right) (λ idx data, data.[idx <- s32 (data.[idx] + 1)]) data.

(** What each thread does. *)
Definition thread_calls : list (Call (D:=list Z)) :=
  (λ i, {| c_left := u64 i; c_right := u64 (i + 1); c_func := AddOneToPoint |}) <$> seqZ 0 kLockSize.

Lemma kLocks_pos : 0 < kLocks.
Proof. done. Qed.

Lemma blocks_pos : 0 < source_kBlocks.
Proof. done. Qed.

#[export] Instance example_lock : QueryLock DynamicLock Z :=
  dynamic_query_lock kLocks source_kBlocks kLocks_pos blocks_pos.

(** The data, and the lock with the constructor's default arguments. *)
Definition initial_data : list Z := replicate (Z.to_nat kLockSize) 0.

Definition initial_lock : DynamicLock :=
  DynamicLock.make kLocks source_kBlocks kLockSize 1 d_one (d_of_Z 4).

Definition start_main : Pool :=
  start_pool initial_lock initial_data (replicate (Z.to_nat kThreadCnt) thread_calls).

(** [main] for an order of the calls; [None] if not all threads finish in it. *)
Definition main (schedule : list (nat * Z)) : option (outcome (list Z)) :=
  st ← run_calls schedule start_main;
  if joined st then
    Some (if forallb (λ value, value =? kThreadCnt) (p_data st) then Returned (p_data st) else Thrown)
  else None.

(** ** What one call adds *)

Lemma kLockSize_val : kLockSize = 1048576.
Proof. done. Qed.

Definition thread_call (i : Z) : Call :=
  {| c_left := u64 i; c_right := u64 (i + 1); c_func := AddOneToPoint |}.

(** The query of the last element adds nothing. *)
Lemma effect_call i data :
  0 ≤ i < kLockSize →
  effect kLockSize data (thread_call i) =
    if i <? kLockSize - 1 then data.[i <- s32 (data.[i] + 1)] else data.
Proof.
  rewrite kLockSize_val. intros Hi. unfold effect, thread_call, AddOneToPoint; cbn [c_left c_right c_func].
  rewrite !(u64_small _) by (unfold is_u64; rewrite modulus64_val; lia).
  rewrite Z.min_l, Z.max_r by lia. rewrite (Z.min_l i) by lia.
  rewrite !s32_small by lia. destruct (Z.ltb_spec i (1048576 - 1)).
  - rewrite Z.min_l, for_range_first, for_range_empty by lia. done.
  - rewrite for_range_empty by lia. done.
Qed.

(** Whether the call of index [i] adds to element [p]. *)
Definition hits (p i : Z) : Z := if (i =? p) && (p <? kLockSize - 1) then 1 else 0.

Lemma effects_get (indices : list Z) : ∀ data p,
  Forall (λ i, 0 ≤ i < kLockSize) indices → 0 ≤ p < kLockSize → len data = kLockSize →
  let data' := foldl (effect kLockSize) data (thread_call <$> indices) in
  len data' = kLockSize ∧ s32 (data'.[p]) = s32 (data.[p] + zsum (hits p <$> indices)).
Proof.
  induction indices as [|i indices IH]; intros data p Hall Hp Hl; cbn [foldl fmap list_fmap].
  { split; [done|]. unfold zsum; simpl. by rewrite Z.add_0_r. }
  apply Forall_cons in Hall as [Hi Hall]. rewrite effect_call by done.
  set (data1 := if i <? kLockSize - 1 then _ else data).
  assert (len data1 = kLockSize) as Hl1 by (unfold data1; destruct (_ <? _); [by rewrite len_set|done]).
  destruct (IH data1 p Hall Hp Hl1) as [H1 H2]. split; [done|]. rewrite H2, zsum_cons.
  assert (s32 (data1.[p]) = s32 (data.[p] + hits p i)) as Hd.
  { unfold data1, hits. destruct (Z.ltb_spec i (kLockSize - 1)), (Z.eqb_spec i p) as [<-|Hne]; simpl;
      rewrite ?Z.add_0_r; try done.
    - rewrite get_set_eq by lia. rewrite (proj2 (Z.ltb_lt _ _)) by lia.
      pose proof (s32_s32_add (data.[i] + 1) 0) as Hs. by rewrite !Z.add_0_r in Hs.
    - by rewrite get_set_ne by lia.
    - by rewrite (proj2 (Z.ltb_ge _ _)), Z.add_0_r by lia. }
  rewrite <-s32_s32_add, Hd, s32_s32_add. f_equal. lia.
Qed.

(** All calls of all threads, as indices. *)
Definition all_indices : list Z := concat (replicate (Z.to_nat kThreadCnt) (seqZ 0 kLockSize)).

Lemma concat_thread_calls k :
  concat (replicate k thread_calls) = thread_call <$> concat (replicate k (seqZ 0 kLockSize)).
Proof. induction k as [|k IH]; [done|]. cbn [replicate concat]. by rewrite fmap_app, IH. Qed.

Lemma all_calls_indices :
  concat (replicate (Z.to_nat kThreadCnt) thread_calls) = thread_call <$> all_indices.
Proof. exact (concat_thread_calls _). Qed.

Lemma all_indices_hits p :
  0 ≤ p < kLockSize →
  zsum (hits p <$> all_indices) = if p <? kLockSize - 1 then kThreadCnt else 0.
Proof.
  intros Hp. unfold all_indices.
  assert (zsum (hits p <$> seqZ 0 kLockSize) = if p <? kLockSize - 1 then 1 else 0) as Hone.
  { pose proof (zsum_indicator 0 (Z.to_nat kLockSize) p) as Hi. rewrite Z2Nat.id in Hi by done.
    rewrite (proj2 (Z.leb_le 0 p)), (proj2 (Z.ltb_lt p _)) in Hi by lia. cbn [andb] in Hi.
    destruct (p <? kLockSize - 1) eqn:Hlt.
    - rewrite <-Hi. apply zsum_map_ext. intros i _. unfold hits. by rewrite Hlt, andb_true_r.
    - rewrite (zsum_map_ext _ (λ _, 0)) by (intros i _; unfold hits; by rewrite Hlt, andb_false_r).
      clear. induction (seqZ 0 kLockSize) as [|i l IH]; [done|]. by rewrite fmap_cons, zsum_cons. }
  assert (∀ k, zsum (hits p <$> concat (replicate k (seqZ 0 kLockSize))) =
    Z.of_nat k * (if p <? kLockSize - 1 then 1 else 0)) as Hk.
  { induction k as [|k IH]; [done|]. cbn [replicate concat]. rewrite fmap_app, zsum_app, Hone, IH. lia. }
  rewrite Hk, Z2Nat.id by done. destruct (p <? _); lia.
Qed.

Lemma all_indices_range : Forall (λ i, 0 ≤ i < kLockSize) all_indices.
Proof.
  apply Forall_concat, Forall_replicate. apply Forall_forall. intros i Hi. by apply elem_of_seqZ in Hi.
Qed.

(** ** All the calls *)

Lemma initial_lock_ok : lock_idle initial_lock ∧ lock_size initial_lock = kLockSize.
Proof.
  split; [|done]. split; [|done]. apply DynamicLock.make_ok; [done..|]. unfold is_u64. by rewrite modulus64_val.
Qed.

Lemma initial_data_ok : len initial_data = kLockSize ∧ ∀ p, 0 ≤ p < kLockSize → initial_data.[p] = 0.
Proof.
  unfold initial_data. rewrite len_replicate, Z2Nat.id by done. split; [done|]. intros p Hp.
  apply get_replicate. by rewrite Z2Nat.id.
Qed.

Lemma thread_calls_ok : Forall (Forall call_ok) (replicate (Z.to_nat kThreadCnt) thread_calls).
Proof. apply Forall_replicate, Forall_fmap, Forall_true. intros i. split; apply u64_range. Qed.

Lemma Permutation_fmap_inv {A B} (f : A → B) l k : l ≡ₚ f <$> k → ∃ k', l = f <$> k' ∧ k ≡ₚ k'.
Proof. apply Permutation_map_inv. Qed.

(** The data after all calls, in any order. *)
Lemma calls_data (trace : list Call) data p :
  trace ≡ₚ concat (replicate (Z.to_nat kThreadCnt) thread_calls) →
  len data = kLockSize → (∀ p, 0 ≤ p < kLockSize → data.[p] = 0) → 0 ≤ p < kLockSize →
  let data' := foldl (effect kLockSize) data trace in
  len data' = kLockSize ∧ s32 (data'.[p]) = if p <? kLockSize - 1 then kThreadCnt else 0.
Proof.
  intros Hperm Hlen Hzero Hp. rewrite all_calls_indices in Hperm.
  apply Permutation_fmap_inv in Hperm as (indices & -> & Hperm).
  destruct (effects_get indices data p) as [Hlen' Hv]; [|done..|].
  { rewrite <-Hperm. apply all_indices_range. }
  split; [exact Hlen'|]. rewrite Hzero, <-(zsum_perm _ _ (fmap_Permutation (hits p) _ _ Hperm)) in Hv by done.
  rewrite all_indices_hits in Hv by done. rewrite Z.add_0_l in Hv. etrans; [exact Hv|]. by destruct (p <? _).
Qed.

Lemma main_result schedule st :
  run_calls schedule start_main = Some st → joined st = true → len (p_data st) = kLockSize →
  s32 ((p_data st).[kLockSize - 1]) = 0 → main schedule = Some Thrown.
Proof.
  intros Hrun Hj Hlen Hlast. unfold main. rewrite Hrun. cbn [mbind option_bind]. rewrite Hj.
  destruct (forallb _ (p_data st)) eqn:Hfor; [|done]. exfalso. rewrite forallb_forall in Hfor.
  assert ((p_data st).[kLockSize - 1] = kThreadCnt) as Heq; [|by rewrite Heq in Hlast].
  apply Z.eqb_eq, Hfor, list_elem_of_In. eapply list_elem_of_lookup_2, get_lookup.
  rewrite Hlen, kLockSize_val. lia.
Qed.

(** ** Property *)

(** In every order of the calls in which all threads finish, all elements but
    the last one are incremented once by every thread, the last element is not
    incremented at all, and [main] throws ["Incorrect result"]; and such an order
    exists. *)
Theorem main_throws :
  (∀ schedule st, run_calls schedule start_main = Some st → joined st = true →
    (∀ p, 0 ≤ p < kLockSize → s32 ((p_data st).[p]) = if p <? kLockSize - 1 then kThreadCnt else 0) ∧
    main schedule = Some Thrown) ∧
  ∃ schedule, main schedule = Some Thrown.
Proof.
  destruct initial_lock_ok as [Hidle Hsize]. destruct initial_data_ok as [Hlen Hzero].
  assert (0 < lock_size initial_lock) as Hpos by by rewrite Hsize.
  destruct (pool_runs initial_lock initial_data (replicate (Z.to_nat kThreadCnt) thread_calls)
    Hidle Hpos thread_calls_ok) as [Hend Hex].
  assert (∀ schedule st, run_calls schedule start_main = Some st → joined st = true →
    (∀ p, 0 ≤ p < kLockSize → s32 ((p_data st).[p]) = if p <? kLockSize - 1 then kThreadCnt else 0) ∧
    main schedule = Some Thrown) as Hall.
  { intros schedule st Hrun Hj. destruct (Hend schedule st Hrun Hj) as (trace & Hperm & Hdata & _).
    rewrite Hsize in Hdata.
    assert (0 ≤ kLockSize - 1 < kLockSize) as Hr by (rewrite kLockSize_val; lia).
    split; [intros p Hp; rewrite Hdata; by apply calls_data|].
    destruct (calls_data trace initial_data _ Hperm Hlen Hzero Hr) as [H1 H2].
    rewrite <-Hdata, Z.ltb_irrefl in *. by eapply main_result. }
  split; [done|]. destruct Hex as (schedule & st & Hrun & Hj). exists schedule. by eapply Hall.
Qed.
