(* ===== verification/Report.v ===== *)
(** The reports of the adaptive benchmark ([benchmarks/adaptive_lock_benchmark.cpp],
    [RunScenarioResults], [PrintScenario], [PrintPartitionDebug],
    [PrintPointSpinComparison] and their helpers).

    A report appends to the text printed so far. [FindResult] may throw; the
    theorem is that the comparison of mutexes and spinlocks never does on what
    [RunScenarioResults] returns. *)
From Stdlib Require Import Ascii String.
From S2P Require Import Double BlockMap RangeLock NaiveLock DynamicLock GeneticLock Random Chromosome GeneticPartitioner.
From S2P Require Import QueryLock Workload Stream Phase PrintCompat Scenario BenchRun Prelude.

Open Scope string_scope.
Open Scope list_scope.
Open Scope Z_scope.

Section Report.
  Variables (show_double : Z → double → str) (getenv : environment) (strtod : str → option double).

Local Abbreviation print := (print show_double).
Local Abbreviation println := (println show_double).

(** ** Partitions *)

(** A vector with separators. *)
Definition PrintSizeVector (values : list Z) (out : str) : str :=
  out ▷ print "[" [] ▷
  for_range 0 (len values) (λ i out,
    (if i =? 0 then out else out ▷ print ", " []) ▷ print "{}" [AInt (values.[i])]) ▷
  print "]" [].

Definition CutsToWidths (cuts : list Z) : list Z :=
  if len cuts <? 2 then []
  else for_range 1 (len cuts) (λ i widths, widths ++ [cuts.[i] -₆₄ cuts.[i - 1]]) [].

Definition PrintPartitionDebug (scenario : ScenarioInput) (result : ImplementationResult) (out : str) : str :=
  if decide (partition_cuts result = [] ∧ debug_window_locks result = []) then out
  else
    let out := out ▷ println "  {} partition debug:" [AText (i_name result)] in
    let out :=
      if decide (partition_cuts result = []) then out
      else out ▷ print "    cuts: " [] ▷ PrintSizeVector (partition_cuts result) ▷ println "" [] ▷
           print "    widths: " [] ▷ PrintSizeVector (CutsToWidths (partition_cuts result)) ▷ println "" [] in
    if decide (debug_window_begins scenario = []) then out
    else out ▷ print "    hot window begins: " [] ▷ PrintSizeVector (debug_window_begins scenario) ▷
         println "" [] ▷ print "    locks per hot window: " [] ▷
         PrintSizeVector (debug_window_locks result) ▷ println "" [].

(** ** A scenario *)

(** [x > 0.0 ? baseline / x : 0.0] *)
Definition SafeSpeedup (baseline_seconds measured_seconds : double) : double :=
  if measured_seconds >?ᵈ d_zero then baseline_seconds /ᵈ measured_seconds else d_zero.

(** [timed_adapt_queries], [measured_queries] and [timed_adapt_seconds] *)
Definition scenario_sums (scenario : ScenarioInput) : Z * Z * double :=
  foldl (λ '(adapt, measured, seconds) phase,
           (adapt +₆₄ count (adapt_queries phase), measured +₆₄ count (measure_queries phase),
            seconds +ᵈ adapt_seconds phase))
    (0, count (phase_queries (measured_phase scenario)), d_zero) (timed_phases scenario).

Definition print_setup (scenario : ScenarioInput) (out : str) : str :=
  let counts := (λ p, count (phase_queries p)) <$> setup_phases scenario in
  for_range 0 (len counts) (λ i out,
    (if i =? 0 then out else out ▷ print " + " []) ▷ print "{}" [AInt (counts.[i])]) out.

Definition print_result (baseline result : ImplementationResult) (out : str) : str :=
  out ▷ println ("  {:<10}{:>8.3f}{:>8.3f}{:>8.3f}{:>11.3f}{:>13.3f}" ++
                 "{:>8.3f}{:>13.2f}{:>12.3f}{:>11.2f}{:>5}/{:>2}{:>10}")%string
    [AText (i_name result); ADouble (i_total_seconds result);
     ADouble (SafeSpeedup (i_total_seconds baseline) (i_total_seconds result));
     ADouble (i_setup_seconds result); ADouble (i_measured_seconds result);
     ADouble (lock_only_total_seconds result);
     ADouble (SafeSpeedup (lock_only_total_seconds baseline) (lock_only_total_seconds result));
     ADouble (avg_lock_us result); ADouble (measured_lock_total_seconds result);
     ADouble (avg_mutexes_per_query result); AInt (left_hot_locks result); AInt (right_hot_locks result);
     AInt (reconfigurations result)].

(** [results.front()] is undefined without results. *)
Definition PrintScenario (scenario : ScenarioInput) (results : list ImplementationResult) (out : str) :
    option str :=
  match results with
  | [] => None
  | baseline :: _ =>
      let '(timed_adapt_queries, measured_queries, timed_adapt_seconds) := scenario_sums scenario in
      let out := out ▷ println "scenario: {}" [AText (scenario_name scenario)] ▷
                 println "  {}" [AText (description scenario)] ▷ print "  setup queries: " [] ▷
                 print_setup scenario in
      let out :=
        if timed_adapt_queries =? 0 then out
        else
          let out := out ▷ print " + {} timed adapt" [AInt timed_adapt_queries] in
          if timed_adapt_seconds >?ᵈ d_zero
          then out ▷ print " (time-capped to {:.1f}s total across timed phases)" [ADouble timed_adapt_seconds]
          else out in
      let out := out ▷ print (", measured queries: {}" ++ nl ++ nl)%string [AInt measured_queries] in
      let out :=
        if decide (timed_phases scenario = []) then out
        else out ▷ println ("  timed scenario: adapt and measure phases run continuously; " ++
                            "online rebuild/training is included in total_s" ++ nl)%string [] in
      let out := out ▷ println ("  impl       total_s total_x  setup_s measured_s  lock_only_s" ++
                                "  lock_x  avg_lock_us  lock_sum_s  avg_mutex  hot(L/R)" ++
                                "  rebuild/train")%string [] in
      let out := foldl (λ out result, print_result baseline result out) out results in
      let out :=
        if DebugPartitionsEnabled getenv
        then foldl (λ out result, PrintPartitionDebug scenario result out) (out ▷ println "" []) results
        else out in
      Some (out ▷ println "" [])
  end.

(** ** Finding results *)

Definition FindResult (results : list ImplementationResult) (name : str) : outcome ImplementationResult :=
  match list_find (λ result, i_name result = name) results with
  | Some (_, result) => Returned result
  | None => Thrown
  end.

Definition HasResult (results : list ImplementationResult) (name : str) : bool :=
  existsb (λ result, bool_decide (i_name result = name)) results.

(** One iteration of the loop of [PrintPointSpinComparison]. *)
Definition compare_one (spin_naive : ImplementationResult) (mutex_results spin_results : list ImplementationResult)
    (name : str) (out : str) : outcome str :=
  if negb (HasResult spin_results name) || negb (HasResult mutex_results name) then Returned out
  else
    spin_result ← FindResult spin_results name;
    mutex_result ← FindResult mutex_results name;
    mret (out ▷ println ("  {:<10}{:>12.3f}{:>8.3f}{:>18.3f}{:>13.3f}{:>14.3f}{:>19.3f}" ++
                         "{:>20.3f}{:>20.3f}")%string
      [AText name; ADouble (i_total_seconds spin_result);
       ADouble (SafeSpeedup (i_total_seconds spin_naive) (i_total_seconds spin_result));
       ADouble (lock_only_total_seconds spin_result);
       ADouble (SafeSpeedup (lock_only_total_seconds spin_naive) (lock_only_total_seconds spin_result));
       ADouble (i_total_seconds mutex_result); ADouble (lock_only_total_seconds mutex_result);
       ADouble (SafeSpeedup (i_total_seconds mutex_result) (i_total_seconds spin_result));
       ADouble (SafeSpeedup (lock_only_total_seconds mutex_result) (lock_only_total_seconds spin_result))]).

Definition PrintPointSpinComparison (scenario : ScenarioInput)
    (mutex_results spin_results : list ImplementationResult) (out : str) : outcome str :=
  spin_naive ← FindResult spin_results (text "naive");
  let out := out ▷ println "point lock primitive comparison: {}" [AText (scenario_name scenario)] ▷
    print ("  spin naive baseline: total_s={:.3f}, lock_only_s={:.3f}" ++ nl ++ nl)%string
      [ADouble (i_total_seconds spin_naive); ADouble (lock_only_total_seconds spin_naive)] ▷
    println ("  impl       spin_total_s  spin_x  spin_lock_only_s  spin_lock_x" ++
             "  mutex_total_s  mutex_lock_only_s  spin_vs_mutex_total" ++
             "  spin_vs_mutex_lock")%string [] in
  out ← compare_one spin_naive mutex_results spin_results (text "dynamic") out;
  out ← compare_one spin_naive mutex_results spin_results (text "genetic") out;
  mret (out ▷ println "" []).

(** ** The implementations of a scenario *)

Section Run.
  Variable kThreadCount : Z.

Definition kGeneticHistoryLimit : Z := 12000.
Definition kGeneticPopulationSize : Z := 24.
Definition kGeneticEliteCount : Z := 4.
Definition kGeneticGenerationCount : Z := 0.

Lemma scenario_kLockCount_range : 0 < kLockCount < modulus64.
Proof. by vm_compute. Qed.

Lemma scenario_kLockCount_blocks : 0 < kLockCount ≤ kBlocks.
Proof. by vm_compute. Qed.

#[export] Instance naive_scenario_query : QueryLock NaiveLock unit := naive_query_lock kLockCount scenario_kLockCount_range.
#[export] Instance naive_scenario_lock : BenchLock NaiveLock unit := naive_bench_lock kLockCount scenario_kLockCount_range.
#[export] Instance dynamic_scenario_query : QueryLock DynamicLock Z :=
  dynamic_query_lock kLockCount source_kBlocks (proj1 scenario_kLockCount_range) eq_refl.
#[export] Instance dynamic_scenario_lock : BenchLock DynamicLock Z :=
  dynamic_bench_lock kLockCount source_kBlocks (proj1 scenario_kLockCount_range) eq_refl (proj2 scenario_kLockCount_range).
#[export] Instance genetic_scenario_query : QueryLock GeneticLock ThreadLocals :=
  genetic_query_lock kLockCount kBlocks 0 scenario_kLockCount_blocks.
#[export] Instance genetic_scenario_lock : BenchLock GeneticLock ThreadLocals :=
  genetic_bench_lock kLockCount kBlocks 0 scenario_kLockCount_blocks (proj2 scenario_kLockCount_range).

Definition dynamic_factory : DynamicLock :=
  DynamicLock.make kLockCount source_kBlocks kArraySize (DynamicStatsSampleRate getenv)
    (DynamicRebuildMinGain getenv strtod) (DynamicRebuildMinSkew getenv strtod).

(** The seed, incremented at each call, is that of the engine. *)
Definition genetic_factory : GeneticLock :=
  GeneticLock.make kLockCount kBlocks kArraySize (GeneticTrainingBatchSize getenv) kGeneticHistoryLimit
    kGeneticPopulationSize kGeneticEliteCount kGeneticGenerationCount (GeneticTrainingSampleRate getenv)
    (GeneticMinTrainingSkew getenv strtod) (GeneticTrainingProbeGap getenv).

(** Two runs, decided by the environment, per implementation. *)
Definition RunScenarioResults (scenario : ScenarioInput) (naive dynamic genetic : WorkloadRun * WorkloadRun) :
    option (list ImplementationResult) :=
  n ← RunImplementation kThreadCount (text "naive") scenario (naive_make kLockCount kArraySize)
        (naive_make kLockCount kArraySize) naive.1 naive.2;
  d ← RunImplementation kThreadCount (text "dynamic") scenario dynamic_factory dynamic_factory dynamic.1 dynamic.2;
  if RunGeneticEnabled getenv then
    g ← RunImplementation kThreadCount (text "genetic") scenario genetic_factory genetic_factory
          genetic.1 genetic.2;
    Some [n; d; g]
  else Some [n; d].

(** Runs and prints. *)
Definition RunScenario (scenario : ScenarioInput) (naive dynamic genetic : WorkloadRun * WorkloadRun) (out : str) :
    option (list ImplementationResult * str) :=
  results ← RunScenarioResults scenario naive dynamic genetic;
  out ← PrintScenario scenario results out;
  Some (results, out).

End Run.

End Report.

(** ** Widths *)

(** The widths of a valid partition are the numbers of blocks of its locks. *)
Lemma CutsToWidths_spec kLockCnt kB cuts :
  1 ≤ kLockCnt → kB < modulus64 → cuts_valid kLockCnt kB cuts →
  len (CutsToWidths cuts) = kLockCnt ∧
  ∀ i, 0 ≤ i < kLockCnt → (CutsToWidths cuts).[i] = cuts.[i + 1] - cuts.[i] ∧ 1 ≤ (CutsToWidths cuts).[i].
Proof.
  intros HL HB Hv. pose proof (cuts_valid_weak _ _ _ Hv) as Hw. destruct (Hv) as (Hl & H0 & HK & Hs).
  unfold CutsToWidths. rewrite (proj2 (Z.ltb_ge _ _)) by lia.
  destruct (for_range_push 1 (len cuts) (λ i, cuts.[i] -₆₄ cuts.[i - 1]) ltac:(lia)) as [Hlen Hget].
  split; [lia|]. intros i Hi. rewrite Hget by lia. replace (1 + i - 1) with i by lia.
  rewrite (Z.add_comm 1 i). specialize (Hs i Hi).
  pose proof (cuts_weak_mono _ _ _ 0 i Hw ltac:(lia) ltac:(lia)).
  pose proof (cuts_weak_mono _ _ _ (i + 1) kLockCnt Hw ltac:(lia) ltac:(lia)).
  rewrite u64_sub_small by lia. lia.
Qed.

(** ** The reports return *)

Section Correct.
  Variables (show_double : Z → double → str) (getenv : environment) (strtod : str → option double).

Lemma RunImplementation_name {L Loc : Type} `{BL : BenchLock L Loc} T name scenario f f2 run run2 r :
  RunImplementation T name scenario f f2 run run2 = Some r → i_name r = name.
Proof.
  unfold RunImplementation. destruct (RunWorkload _ f _ _ _ _ _ _) as [[[? ?] ?]|]; [|done]. simpl.
  destruct (lock_CountLocksForRange _ 0 _); [|done]. simpl.
  destruct (lock_CountLocksForRange _ _ _); [|done]. simpl.
  destruct (mapM _ _); [|done]. simpl.
  destruct (RunWorkload _ f2 _ _ _ _ _ _) as [[[? ?] ?]|]; [|done]. simpl. by intros [= <-].
Qed.

(** The names of the results. *)
Definition result_names (results : list ImplementationResult) : Prop :=
  i_name <$> results = [text "naive"; text "dynamic"; text "genetic"] ∨
  i_name <$> results = [text "naive"; text "dynamic"].

Lemma RunScenarioResults_names T scenario n d g results :
  RunScenarioResults getenv strtod T scenario n d g = Some results → result_names results.
Proof.
  unfold RunScenarioResults, result_names.
  destruct (RunImplementation _ (text "naive") _ _ _ _ _) as [rn|] eqn:Hn; [|done].
  cbn [mbind option_bind].
  destruct (RunImplementation _ (text "dynamic") _ _ _ _ _) as [rd|] eqn:Hd; [|done].
  cbn [mbind option_bind].
  apply RunImplementation_name in Hn, Hd. destruct (RunGeneticEnabled getenv).
  - destruct (RunImplementation _ (text "genetic") _ _ _ _ _) as [rg|] eqn:Hg; [|done].
    apply RunImplementation_name in Hg. intros [= <-]. left. rewrite !fmap_cons. by rewrite Hn, Hd, Hg.
  - intros [= <-]. right. rewrite !fmap_cons. by rewrite Hn, Hd.
Qed.

Lemma FindResult_has results name :
  HasResult results name = true → ∃ r, FindResult results name = Returned r ∧ i_name r = name.
Proof.
  unfold HasResult, FindResult. intros (r & Hr & Hb)%existsb_exists. apply bool_decide_eq_true in Hb.
  apply list_elem_of_In in Hr.
  destruct (list_find_elem_of (λ r, i_name r = name) results r Hr Hb) as [[i r'] Hf].
  rewrite Hf. exists r'. split; [done|]. by apply list_find_Some in Hf as (_ & ? & _).
Qed.

Lemma compare_one_returns naive mutex_results spin_results name out :
  ∃ out', compare_one show_double naive mutex_results spin_results name out = Returned out'.
Proof.
  unfold compare_one. destruct (HasResult spin_results name) eqn:Hs; [|by eexists].
  destruct (HasResult mutex_results name) eqn:Hm; [|by eexists]. simpl.
  destruct (FindResult_has _ _ Hs) as (rs & -> & _), (FindResult_has _ _ Hm) as (rm & -> & _). by eexists.
Qed.

Lemma PrintPointSpinComparison_gives scenario mutex_results spin_results out :
  result_names spin_results →
  ∃ out', PrintPointSpinComparison show_double scenario mutex_results spin_results out = Returned out'.
Proof.
  intros Hnames. unfold PrintPointSpinComparison.
  destruct (FindResult_has spin_results (text "naive")) as (r & -> & _).
  { unfold HasResult. destruct spin_results as [|r l]; [by destruct Hnames|]. simpl.
    assert (i_name r = text "naive") as -> by (destruct Hnames as [H|H]; apply (f_equal head) in H; by injection H).
    by rewrite bool_decide_eq_true_2. }
  cbn [mbind outcome_bind].
  match goal with |- context [compare_one _ _ _ _ (text "dynamic") ?o] =>
    destruct (compare_one_returns r mutex_results spin_results (text "dynamic") o) as [o1 ->] end.
  cbn [mbind outcome_bind].
  destruct (compare_one_returns r mutex_results spin_results (text "genetic") o1) as [o2 ->]. by eexists.
Qed.

End Correct.

(** ** Property *)

(** The reports of [main] return on whatever its runs return: the results of
    [RunScenarioResults] are never empty, so [PrintScenario] has a first result to
    compare with, and they contain ["naive"], so that [FindResult] in
    [PrintPointSpinComparison] does not throw, even when the genetic lock was not
    run with one of the two primitives. *)
Theorem reports_return show_double getenv getenv' strtod T scenario
    n d g n' d' g' mutex_results spin_results out :
  RunScenarioResults getenv strtod T scenario n d g = Some mutex_results →
  RunScenarioResults getenv' strtod T scenario n' d' g' = Some spin_results →
  (∃ out', PrintScenario show_double getenv scenario mutex_results out = Some out') ∧
  ∃ out', PrintPointSpinComparison show_double scenario mutex_results spin_results out = Returned out'.
Proof.
  intros Hm%RunScenarioResults_names Hs%RunScenarioResults_names. split.
  - destruct mutex_results as [|r l]; [by destruct Hm|]. unfold PrintScenario.
    destruct (scenario_sums scenario) as [[? ?] ?]. by eexists.
  - by apply PrintPointSpinComparison_gives.
Qed.

(** A scenario without queries, with the genetic lock switched off. *)
Definition empty_scenario : ScenarioInput :=
  {| scenario_name := text "empty"; description := []; setup_phases := []; measured_phase := no_phase;
     timed_phases := []; debug_window_begins := [] |}.

Definition no_run : WorkloadRun := {| wr_runs := []; wr_before_deadline := []; wr_total := d_zero |}.

Lemma reports_return_witness :
  ∃ results out,
    RunScenarioResults (λ _, Some (text "0")) (λ _, None) 1
      empty_scenario (no_run, no_run) (no_run, no_run) (no_run, no_run) = Some results ∧
    PrintPointSpinComparison (λ _ _, []) empty_scenario results results [] = Returned out.
Proof.
  assert (∃ results, RunScenarioResults (λ _, Some (text "0"))
    (λ _, None) 1 empty_scenario (no_run, no_run) (no_run, no_run) (no_run, no_run) = Some results)
    as [results H] by (eexists; reflexivity).
  destruct (reports_return (λ _ _, []) _ _ _ _ _ _ _ _ _ _ _ _ _ [] H H) as [_ [out Hout]].
  exists results, out. split; [exact H|exact Hout].
Defined.
