(* ===== verification/GeneticTests.v ===== *)
(** The self-tests of the genetic benchmark ([benchmarks/genetic_lock_benchmark.cpp],
    [RunImprovementTest], [RunShiftTest] and [RunRecallTest]).

    A test feeds batches of a [WorkloadGenerator] to a [GeneticPartitioner] and
    records what the partition in use does with them. Generator and partitioner
    have an engine each, so a test is a computation over two engines. Whether a
    test passes depends on the draws; the theorem says what holds for all of them:
    the tests end, and their snapshots are those of partitions that give every lock
    a block. *)
From Stdlib Require Import Ascii String.
From S2P Require Import BlockMap Double Random Chromosome GeneticPartitioner Workload PrintCompat Prelude.

Open Scope string_scope.
Open Scope list_scope.
Open Scope Z_scope.

Definition kLockCount : Z := 64.
Definition kBlocks : Z := 1024.
Definition kArraySize : Z := 1024 * 1024.
Definition kHotWindowSize : Z := kArraySize / kLockCount.
Definition kQueryLength : Z := 64.
Definition kBatchSize : Z := 512.
Definition kEpochsPerSide : Z := 4.
Definition kRecallWarmupEpochs : Z := 3.
Definition kRecallReturnEpochs : Z := 3.
Definition kPopulationSize : Z := 24.
Definition kEliteCount : Z := 4.
Definition kGenerationCount : Z := 18.

Record Snapshot := {
  s_label : str;
  s_metrics : PartitionMetrics;
  s_left_hot_locks : Z;
  s_right_hot_locks : Z
}.

#[export] Instance Snapshot_inhabited : Inhabited Snapshot :=
  populate {| s_label := []; s_metrics := no_metrics; s_left_hot_locks := 0; s_right_hot_locks := 0 |}.

Record ImprovementTestResult := {
  initial_metrics : PartitionMetrics;
  final_metrics : PartitionMetrics;
  left_hot_locks : Z;
  right_hot_locks : Z;
  improvement_passed : bool
}.

(** [ShiftTestResult] and [RecallTestResult] *)
Record TimelineResult := { timeline : list Snapshot; passed : bool }.

(** ** Computations over two engines *)

Section Bench.
  Context `{R : RandomSource}.

Definition bench (A : Type) : Type := nat → rng * rng → option (A * (rng * rng)).

#[export] Instance bench_ret : MRet bench := λ A a _ s, Some (a, s).
#[export] Instance bench_bind : MBind bench := λ A B k m fuel s,
  match m fuel s with Some (a, s) => k a fuel s | None => None end.

(** A draw of the generator, and one of the partitioner. *)
Definition with_generator {A} (m : rand A) : bench A := λ fuel s,
  match m fuel s.1 with Some (a, g) => Some (a, (g, s.2)) | None => None end.
Definition with_optimizer {A} (m : rand A) : bench A := λ fuel s,
  match m fuel s.2 with Some (a, g) => Some (a, (s.1, g)) | None => None end.

(** [for (epoch = 0; epoch < n; ++epoch)] *)
Fixpoint bench_for {S : Type} (n : nat) (i : Z) (body : Z → S → bench S) (s : S) : bench S :=
  match n with
  | O => mret s
  | Datatypes.S n' => s ← body i s; bench_for n' (i + 1) body s
  end.

(** Total correctness, as [wp]. *)
Definition bwp {A} (m : bench A) (Q : A → Prop) : Prop :=
  ∀ s, ∃ N a s', Q a ∧ ∀ fuel, (N ≤ fuel)%nat → m fuel s = Some (a, s').

Lemma bwp_ret {A} (a : A) (Q : A → Prop) : Q a → bwp (mret a) Q.
Proof. intros HQ s. by exists O, a, s. Qed.

Lemma bwp_bind {A B} (m : bench A) (k : A → bench B) (P : A → Prop) (Q : B → Prop) :
  bwp m P → (∀ a, P a → bwp (k a) Q) → bwp (m ≫= k) Q.
Proof.
  intros Hm Hk s. destruct (Hm s) as (N & a & s' & HP & Hrun).
  destruct (Hk a HP s') as (N' & b & s'' & HQ & Hrun'). exists (N + N')%nat, b, s''.
  split; [done|]. intros fuel Hf. unfold mbind, bench_bind. rewrite Hrun by lia. apply Hrun'. lia.
Qed.

Lemma bwp_generator {A} (m : rand A) (Q : A → Prop) : wp m Q → bwp (with_generator m) Q.
Proof.
  intros Hm s. destruct (Hm s.1) as (N & a & g & HQ & Hrun). exists N, a, (g, s.2).
  split; [done|]. intros fuel Hf. unfold with_generator. by rewrite Hrun.
Qed.

Lemma bwp_optimizer {A} (m : rand A) (Q : A → Prop) : wp m Q → bwp (with_optimizer m) Q.
Proof.
  intros Hm s. destruct (Hm s.2) as (N & a & g & HQ & Hrun). exists N, a, (s.1, g).
  split; [done|]. intros fuel Hf. unfold with_optimizer. by rewrite Hrun.
Qed.

Lemma bwp_for {S} (I : Z → S → Prop) n i (body : Z → S → bench S) s :
  I i s → (∀ j t, i ≤ j < i + Z.of_nat n → I j t → bwp (body j t) (I (j + 1))) →
  bwp (bench_for n i body s) (I (i + Z.of_nat n)).
Proof.
  revert i s. induction n as [|n IH]; intros i s H0 Hstep; cbn [bench_for].
  - apply bwp_ret. by rewrite Z.add_0_r.
  - eapply bwp_bind; [apply Hstep; [lia|done]|]. intros t Ht.
    replace (i + Z.of_nat (Datatypes.S n)) with (i + 1 + Z.of_nat n) by lia.
    apply IH; [done|]. intros j u Hj. apply Hstep. lia.
Qed.

End Bench.

Section Tests.
  Context `{R : RandomSource} `{PS : PopulationSort}.

Definition generator : WorkloadGenerator :=
  {| wg_array_size_ := kArraySize; wg_hot_window_size_ := kHotWindowSize; wg_query_length_ := kQueryLength |}.

(** [optimizer(kArraySize, seed, history_limit, kPopulationSize, kEliteCount,
    kGenerationCount)], with the default arguments of the constructor. *)
Definition make_optimizer (history_limit : Z) : GeneticPartitioner :=
  make_partitioner kLockCount kBlocks kArraySize history_limit kPopulationSize kEliteCount kGenerationCount
    4 (d_lit 90 100) (d_lit 35 100) (d_lit 55 100) kBlocks.

Definition count_left (optimizer : GeneticPartitioner) : Z :=
  partitioner_CountLocksForRange kLockCount kBlocks optimizer 0 (kHotWindowSize -₆₄ 1).
Definition count_right (optimizer : GeneticPartitioner) : Z :=
  partitioner_CountLocksForRange kLockCount kBlocks optimizer (kArraySize -₆₄ kHotWindowSize) (kArraySize -₆₄ 1).

Definition CaptureSnapshot (optimizer : GeneticPartitioner) (batch : list Query) (label : str) : Snapshot :=
  {| s_label := label; s_metrics := EvaluateCurrent kLockCount kBlocks optimizer batch;
     s_left_hot_locks := count_left optimizer; s_right_hot_locks := count_right optimizer |}.

Definition build (side : TrafficSide) : bench (list Query) :=
  with_generator (BuildBatch generator kBatchSize side).

Definition observe (optimizer : GeneticPartitioner) (batch : list Query) : bench GeneticPartitioner :=
  with_optimizer (ObserveBatch kLockCount kBlocks optimizer batch).

(** An epoch without a snapshot, and one with a snapshot. *)
Definition train (side : TrafficSide) (_ : Z) (optimizer : GeneticPartitioner) : bench GeneticPartitioner :=
  batch ← build side; observe optimizer batch.

Definition epoch (side : TrafficSide) (name : string) (i : Z) (st : GeneticPartitioner * list Snapshot) :
    bench (GeneticPartitioner * list Snapshot) :=
  batch ← build side;
  optimizer ← observe st.1 batch;
  mret (optimizer, st.2 ++ [CaptureSnapshot optimizer batch (text name ++ print_Z (i + 1))]).

Definition RunImprovementTest : bench ImprovementTestResult :=
  let optimizer := make_optimizer 5000 in
  probe ← build kLeft;
  let initial := EvaluateCurrent kLockCount kBlocks optimizer probe in
  optimizer ← bench_for (Z.to_nat kEpochsPerSide) 0 (train kLeft) optimizer;
  let final := EvaluateCurrent kLockCount kBlocks optimizer probe in
  mret {| initial_metrics := initial; final_metrics := final; left_hot_locks := count_left optimizer;
          right_hot_locks := count_right optimizer;
          improvement_passed :=
            (fitness final <?ᵈ fitness initial) && (count_right optimizer <? count_left optimizer) |}.

Definition left_hotter (s : Snapshot) : bool := s_right_hot_locks s <? s_left_hot_locks s.
Definition right_hotter (s : Snapshot) : bool := s_left_hot_locks s <? s_right_hot_locks s.

(** [timeline.back()] *)
Definition back (timeline : list Snapshot) : Snapshot := timeline.[len timeline - 1].

Definition RunShiftTest : bench TimelineResult :=
  let optimizer := make_optimizer 5000 in
  st ← bench_for (Z.to_nat kEpochsPerSide) 0 (epoch kLeft "left epoch ") (optimizer, []);
  let after_left := back st.2 in
  st ← bench_for (Z.to_nat kEpochsPerSide) 0 (epoch kRight "right epoch ") st;
  let after_right := back st.2 in
  mret {| timeline := st.2; passed := left_hotter after_left && right_hotter after_right |}.

Definition RunRecallTest : bench TimelineResult :=
  let optimizer := make_optimizer 10000 in
  optimizer ← bench_for (Z.to_nat kRecallWarmupEpochs) 0 (train kLeft) optimizer;
  left_probe ← build kLeft;
  let timeline := [CaptureSnapshot optimizer left_probe (text "after left warmup")] in
  optimizer ← bench_for (Z.to_nat kRecallWarmupEpochs) 0 (train kRight) optimizer;
  right_probe ← build kRight;
  let timeline := timeline ++ [CaptureSnapshot optimizer right_probe (text "after right warmup")] in
  st ← bench_for (Z.to_nat kRecallReturnEpochs) 0 (epoch kLeft "left recall epoch ") (optimizer, timeline);
  mret {| timeline := st.2;
          passed := left_hotter (st.2.[0]) && right_hotter (st.2.[1]) && left_hotter (back st.2) |}.

End Tests.

(** ** What holds of every run *)

Lemma cuts_valid_gap kLockCnt kB cuts i j :
  cuts_valid kLockCnt kB cuts → 0 ≤ i ≤ j → j ≤ kLockCnt → cuts.[i] + (j - i) ≤ cuts.[j].
Proof.
  intros Hv [Hi Hij] Hj. replace j with (i + Z.of_nat (Z.to_nat (j - i))) in * by lia.
  generalize dependent (Z.to_nat (j - i)). intros n _ Hn.
  induction n as [|n IH]; [rewrite !Z.add_0_r; lia|]. specialize (IH ltac:(lia)).
  destruct Hv as (_ & _ & _ & Hs). specialize (Hs (i + Z.of_nat n) ltac:(lia)).
  replace (i + Z.of_nat (Datatypes.S n)) with (i + Z.of_nat n + 1) by lia. lia.
Qed.

(** A range is under at least one lock and under at most as many as it has blocks. *)
Lemma CountLocks_bounds kLockCnt kB p l r :
  0 < kLockCnt ≤ kB → kLockCnt < modulus64 → chrom_ok kLockCnt kB (current_ p) →
  1 ≤ block_size_ p → 0 ≤ l ≤ r → r < array_size_ p < modulus64 →
  1 ≤ partitioner_CountLocksForRange kLockCnt kB p l r ≤
    PositionToBlock kB (block_size_ p) r - PositionToBlock kB (block_size_ p) l + 1.
Proof.
  intros HL Hw Hc Hb Hlr Hr. unfold partitioner_CountLocksForRange.
  destruct (Z.eqb_spec (array_size_ p) 0); [lia|]. rewrite normalize_spec by lia.
  rewrite (Z.min_l l), (Z.min_l r), Z.min_l, Z.max_r by lia.
  pose proof (PositionToBlock_range kB ltac:(lia) (block_size_ p) l Hb ltac:(lia)) as H1.
  pose proof (PositionToBlock_range kB ltac:(lia) (block_size_ p) r Hb ltac:(lia)) as H2.
  pose proof (PositionToBlock_mono kB (block_size_ p) l r Hb Hlr) as H3.
  set (bl := PositionToBlock _ _ l) in *. set (br := PositionToBlock _ _ r) in *.
  pose proof (chrom_ok_weak kLockCnt kB (current_ p) Hc) as Hc'.
  destruct (FindLockForBlock_spec kLockCnt kB ltac:(lia) (cuts (current_ p)) bl Hc' H1) as [Hf1 Hf2].
  destruct (FindLockForBlock_spec kLockCnt kB ltac:(lia) (cuts (current_ p)) br Hc' H2) as [He1 He2].
  set (f := FindLockForBlock _ _ bl) in *. set (e := FindLockForBlock _ _ br) in *.
  assert (f ≤ e) as Hfe.
  { destruct (Z.le_gt_cases f e); [done|]. exfalso.
    pose proof (cuts_weak_mono kLockCnt kB (cuts (current_ p)) (e + 1) f Hc' ltac:(lia) ltac:(lia)). lia. }
  rewrite u64_sub_small, u64_add_small by lia. split; [lia|].
  destruct (Z.eq_dec f e) as [->|Hne]; [lia|].
  pose proof (cuts_valid_gap kLockCnt kB (cuts (current_ p)) (f + 1) e Hc ltac:(lia) ltac:(lia)). lia.
Qed.

Section Correct.
  Context `{R : RandomSource} {F : FairSource R} `{PS : PopulationSort}.

Record optimizer_ok (p : GeneticPartitioner) : Prop := {
  opt_ok : gp_ok kLockCount kBlocks p;
  opt_array : array_size_ p = kArraySize;
  opt_block : block_size_ p = 1024;
  opt_limit : component_query_limit_ p < 2 ^ 53
}.

(** A snapshot: each hot window, 16 blocks wide, is under 1 to 16 locks, and the
    metrics are those of a valid partition on a batch of generated queries. *)
Definition snapshot_ok (s : Snapshot) : Prop :=
  1 ≤ s_left_hot_locks s ≤ 16 ∧ 1 ≤ s_right_hot_locks s ≤ 16 ∧
  ∃ cuts side batch, cuts_valid kLockCount kBlocks cuts ∧
    len batch = kBatchSize ∧ Forall (built_ok generator side) batch ∧
    s_metrics s = Evaluate kLockCount kBlocks 1024 cuts batch.

Definition batch_ok (side : TrafficSide) (batch : list Query) : Prop :=
  len batch = kBatchSize ∧ Forall (built_ok generator side) batch.

Lemma make_optimizer_ok h : h < 2 ^ 53 → optimizer_ok (make_optimizer h).
Proof.
  intros Hh. split; [|done|by vm_compute|simpl; lia]. apply make_partitioner_ok; [done..|by vm_compute].
Qed.

Lemma hot_locks_ok p :
  optimizer_ok p → 1 ≤ count_left p ≤ 16 ∧ 1 ≤ count_right p ≤ 16.
Proof.
  intros [Hok Ha Hb _]. pose proof (gp_current _ _ _ Hok) as Hc. unfold count_left, count_right.
  change (kHotWindowSize -₆₄ 1) with 16383. change (kArraySize -₆₄ kHotWindowSize) with 1032192.
  change (kArraySize -₆₄ 1) with 1048575. change kArraySize with 1048576 in Ha.
  pose proof (CountLocks_bounds kLockCount kBlocks p 0 16383) as H1.
  pose proof (CountLocks_bounds kLockCount kBlocks p 1032192 1048575) as H2.
  rewrite Hb, Ha in H1, H2. unfold kLockCount, kBlocks in *. rewrite modulus64_val in *.
  unfold PositionToBlock in *. split; [apply H1|apply H2]; done || lia.
Qed.

Lemma CaptureSnapshot_ok p side batch label :
  optimizer_ok p → batch_ok side batch → snapshot_ok (CaptureSnapshot p batch label).
Proof.
  intros Hp [Hlen Hall]. destruct (hot_locks_ok p Hp) as [H1 H2]. split; [done|]. split; [done|].
  exists (cuts (current_ p)), side, batch. split; [apply (gp_current _ _ _ (opt_ok p Hp))|].
  split; [done|]. split; [done|]. simpl. unfold EvaluateCurrent, evaluate. by rewrite (opt_block p Hp).
Qed.

Lemma build_ok side : bwp (build side) (batch_ok side).
Proof. apply bwp_generator, BuildBatch_wp; [by vm_compute|done]. Qed.

Lemma observe_ok p batch : optimizer_ok p → bwp (observe p batch) optimizer_ok.
Proof.
  intros [Hok Ha Hb Hl]. apply bwp_optimizer. eapply wp_mono.
  - apply wp_frame; [by apply (ObserveBatch_wp kLockCount kBlocks)|].
    intros fuel g p' g'. apply ObserveBatch_settings.
  - intros p' [[Hok' _] Hs]. pose proof (f_equal array_size_ Hs) as H1.
    pose proof (f_equal block_size_ Hs) as H2. pose proof (f_equal component_query_limit_ Hs) as H3.
    simpl in H1, H2, H3. split; [done|congruence..].
Qed.

Lemma train_ok side i p : optimizer_ok p → bwp (train side i p) optimizer_ok.
Proof. intros Hp. eapply bwp_bind; [apply build_ok|]. intros batch _. by apply observe_ok. Qed.

(** The partitioner and [n] snapshots so far. *)
Definition epochs_ok (n : Z) (st : GeneticPartitioner * list Snapshot) : Prop :=
  optimizer_ok st.1 ∧ len st.2 = n ∧ Forall snapshot_ok st.2.

Lemma epoch_ok side name i n st : epochs_ok n st → bwp (epoch side name i st) (epochs_ok (n + 1)).
Proof.
  intros (Hp & Hn & Hall). unfold epoch. eapply bwp_bind; [apply build_ok|]. intros batch Hb.
  eapply bwp_bind; [by apply observe_ok|]. intros p Hp'. apply bwp_ret.
  split; [done|]. simpl. rewrite len_app, Hn. split; [done|]. apply Forall_app, conj, Forall_singleton; [done|].
  by eapply CaptureSnapshot_ok.
Qed.

Lemma epochs_loop side name (k : nat) n st :
  epochs_ok n st → bwp (bench_for k 0 (epoch side name) st) (epochs_ok (n + Z.of_nat k)).
Proof.
  intros H0. apply (bwp_for (λ i, epochs_ok (n + i))); [by rewrite Z.add_0_r|].
  intros j t _ Ht. rewrite Z.add_assoc. by apply epoch_ok.
Qed.

Lemma train_loop side k p : optimizer_ok p → bwp (bench_for k 0 (train side) p) optimizer_ok.
Proof. intros H0. apply (bwp_for (λ _, optimizer_ok)); [done|]. intros j t _. apply train_ok. Qed.

End Correct.

(** ** Property *)

(** For all draws of fair engines the three tests end. [RunImprovementTest]
    finds each hot window, which is 16 blocks wide, under 1 to 16 locks;
    [RunShiftTest] takes eight snapshots and [RunRecallTest] five, so that the
    snapshots it compares exist, and every snapshot is that of a partition that
    gives every lock a block, evaluated on a batch of 512 queries in the array. *)
Theorem genetic_tests_end `{R : RandomSource} {F : FairSource R} `{PS : PopulationSort} :
  bwp RunImprovementTest (λ r, 1 ≤ left_hot_locks r ≤ 16 ∧ 1 ≤ right_hot_locks r ≤ 16) ∧
  bwp RunShiftTest (λ r, len (timeline r) = 8 ∧ Forall snapshot_ok (timeline r)) ∧
  bwp RunRecallTest (λ r, len (timeline r) = 5 ∧ Forall snapshot_ok (timeline r)).
Proof.
  split; [|split].
  - eapply bwp_bind; [apply build_ok|]. intros probe _.
    eapply bwp_bind; [by apply train_loop, make_optimizer_ok|]. intros p Hp. apply bwp_ret.
    by apply hot_locks_ok.
  - eapply bwp_bind; [apply (epochs_loop kLeft _ _ 0); split; [by apply make_optimizer_ok|by split]|].
    intros st Hst. eapply bwp_bind; [by apply epochs_loop|]. intros st' (_ & Hn & Hall). by apply bwp_ret.
  - eapply bwp_bind; [by apply train_loop, make_optimizer_ok|]. intros p Hp.
    eapply bwp_bind; [apply build_ok|]. intros batch1 Hb1.
    eapply bwp_bind; [by apply train_loop|]. intros p' Hp'.
    eapply bwp_bind; [apply build_ok|]. intros batch2 Hb2.
    eapply bwp_bind.
    + apply (epochs_loop kLeft _ _ 2). split; [done|]. split; [done|]. apply Forall_app. split.
      all: apply Forall_singleton; by eapply CaptureSnapshot_ok.
    + intros st (_ & Hn & Hall). by apply bwp_ret.
Qed.

Lemma genetic_tests_end_witness :
  bwp (R:=counter_source) (RunRecallTest (PS:=insertion_population_sort))
    (λ r, len (timeline r) = 5 ∧ Forall snapshot_ok (timeline r)).
Proof.
  exact (proj2 (proj2 (genetic_tests_end (R:=counter_source) (F:=counter_fair) (PS:=insertion_population_sort)))).
Defined.
