(* ===== verification/GeneticBench.v ===== *)
(** The lock benchmarks of the genetic benchmark
    ([benchmarks/genetic_lock_benchmark.cpp], [RunOnlineLockBenchmark] and
    [RunPureLockBenchmark]).

    A benchmark shares the queries of each phase among [kThreadCount] threads that
    call [WriteQuery] with an empty function ([Threads]), and reports counts and
    averages. The order of the calls and the measured times are inputs, and the
    training thread is left out, as in [BenchRun]. The theorem: every order in
    which the threads finish reports the number of queries that were asked for. *)
From Stdlib Require Import Ascii String.
From S2P Require Import BlockMap RangeLock Double Random Chromosome GeneticPartitioner NaiveLock GeneticLock.
From S2P Require Import QueryLock Workload PrintCompat BenchRun Threads GeneticTests Prelude.

Open Scope string_scope.
Open Scope list_scope.
Open Scope Z_scope.

Definition kOnlineTrainingBatchSize : Z := 2048.
Definition kOnlinePhaseQueries : Z := 480000.
Definition kPureLockQueries : Z := 9000000.
Definition kPretrainBatches : Z := 8.

(** [kThreadCount = max(1u, hardware_concurrency())] *)
Definition thread_count (hardware_concurrency : Z) : Z := Z.max 1 hardware_concurrency.

Record LockBenchmarkPhase := { phase_name : str; phase_queries : list Query }.

Record LockBenchmarkRun := {
  run_name : str;
  seconds : double;
  run_queries : Z;
  avg_lock_ms : double;
  run_avg_mutexes : double;
  trainings : Z;
  avg_training_ms : double;
  run_left_hot_locks : Z;
  run_right_hot_locks : Z
}.

Record LockBenchmarkComparison := {
  title : str;
  naive_run : LockBenchmarkRun;
  genetic_run : LockBenchmarkRun
}.

(** The methods that only this benchmark calls; the last two exist in some locks
    only ([requires]). *)
Class BenchStats (L : Type) := {
  lock_GetAvgLockTimeMs : L → double;
  lock_GetTrainingCount : option (L → Z);
  lock_GetAvgTrainingTimeMs : option (L → double)
}.

#[export] Instance naive_bench_stats : BenchStats NaiveLock :=
  {| lock_GetAvgLockTimeMs := naive_GetAvgLockTimeMs; lock_GetTrainingCount := None;
     lock_GetAvgTrainingTimeMs := None |}.

#[export] Instance genetic_bench_stats : BenchStats GeneticLock :=
  {| lock_GetAvgLockTimeMs := GeneticLock.GetAvgLockTimeMs;
     lock_GetTrainingCount := Some GeneticLock.GetTrainingCount;
     lock_GetAvgTrainingTimeMs := Some GeneticLock.GetAvgTrainingTimeMs |}.

Section Benchmark.
  Context {L Loc : Type} `{BL : BenchLock L Loc} `{BS : BenchStats L}.
  Variables (kThreadCount : Z).

(** [lock.WriteQuery(query.left, query.right, [](size_t, size_t) {})] *)
Definition lock_only (query : Query) : Call :=
  {| c_left := q_left query; c_right := q_right query; c_func := λ _ _ (data : unit), data |}.

(** [None] if not all threads finish in the schedule. *)
Definition RunLockOnlyQueries (lock : L) (queries : list Query) (schedule : list (nat * Z)) : option (L * Z) :=
  let programs := (λ t, lock_only <$> part kThreadCount queries t) <$> seqZ 0 kThreadCount in
  st ← run_calls schedule (start_pool lock tt programs);
  if joined st then Some (p_lock st, foldl u64_add 0 (th_done <$> p_threads st)) else None.

Definition AverageLocksForQueries (lock : L) (queries : list Query) : option double :=
  if decide (length queries = 0%nat) then Some d_zero
  else
    total ← foldl (λ total q, total ← total;
                     c ← lock_CountLocksForRange lock (q_left q) (q_right q); Some (total +₆₄ c))
              (Some 0) queries;
    Some (d_of_Z total /ᵈ d_of_Z (len queries)).

Definition GetAverageMutexes (lock : L) (queries : list Query) : option double :=
  AverageLocksForQueries lock queries.

Definition GetTrainingCount (lock : L) : Z :=
  match lock_GetTrainingCount with Some f => f lock | None => lock_GetRebuildCount lock end.

Definition GetAverageTrainingMs (lock : L) : double :=
  match lock_GetAvgTrainingTimeMs with Some f => f lock | None => d_zero end.

(** The phases in order, one schedule each. *)
Fixpoint run_phases (phases : list LockBenchmarkPhase) (schedules : list (list (nat * Z))) (lock : L)
    (queries : Z) : option (L * Z) :=
  match phases, schedules with
  | [], _ => Some (lock, queries)
  | phase :: phases, schedule :: schedules =>
      '(lock, n) ← RunLockOnlyQueries lock (phase_queries phase) schedule;
      run_phases phases schedules lock (queries +₆₄ n)
  | _, [] => None
  end.

Definition RunPhasedLockBenchmark (name : str) (lock : L) (phases : list LockBenchmarkPhase)
    (enable_training : bool) (schedules : list (list (nat * Z))) (elapsed : double) :
    option (L * LockBenchmarkRun) :=
  let lock := if enable_training then lock_start lock else lock_stop lock in
  let all_queries := concat (phase_queries <$> phases) in
  '(lock, queries) ← run_phases phases schedules lock 0;
  let lock := lock_stop lock in
  average ← GetAverageMutexes lock all_queries;
  left ← lock_CountLocksForRange lock 0 (kHotWindowSize -₆₄ 1);
  right ← lock_CountLocksForRange lock (kArraySize -₆₄ kHotWindowSize) (kArraySize -₆₄ 1);
  Some (lock, {| run_name := name; seconds := elapsed; run_queries := queries;
                 avg_lock_ms := lock_GetAvgLockTimeMs lock; run_avg_mutexes := average;
                 trainings := GetTrainingCount lock; avg_training_ms := GetAverageTrainingMs lock;
                 run_left_hot_locks := left; run_right_hot_locks := right |}).

(** ** What a benchmark reports *)

Definition query_words (q : Query) : Prop := is_u64 (q_left q) ∧ is_u64 (q_right q).

Definition bench_idle (lock : L) : Prop := lock_idle lock ∧ lock_size lock = kArraySize.

Lemma foldl_done (l : list Z) : foldl u64_add 0 ((λ n, u64 n) <$> l) = u64 (zsum l).
Proof.
  change 0 with (u64 0) at 1. rewrite foldl_u64_add, Z.add_0_l. unfold u64.
  induction l as [|n l IH]; [done|]. rewrite fmap_cons, !zsum_cons.
  rewrite Zplus_mod, IH, <-Zplus_mod, Zplus_mod_idemp_l. done.
Qed.

Lemma zsum_len_concat {A} (l : list (list A)) : zsum (len <$> l) = len (concat l).
Proof. induction l as [|x l IH]; [done|]. rewrite fmap_cons, zsum_cons, IH. simpl. by rewrite len_app. Qed.

Lemma concat_fmap_fmap {A B} (f : A → B) (l : list (list A)) : concat ((λ x : list A, f <$> x) <$> l) = f <$> concat l.
Proof. induction l as [|x l IH]; [done|]. rewrite fmap_cons. simpl. by rewrite fmap_app, IH. Qed.

Section Correct.
  Context (HT : 0 < kThreadCount < modulus64).

Lemma RunLockOnlyQueries_spec lock queries :
  bench_idle lock → len queries * kThreadCount < modulus64 → Forall query_words queries →
  (∀ schedule lock' n, RunLockOnlyQueries lock queries schedule = Some (lock', n) →
     n = len queries ∧ bench_idle lock') ∧
  ∃ schedule, is_Some (RunLockOnlyQueries lock queries schedule).
Proof.
  intros [Hi Hs] Hm Hq. pose proof (len_nonneg queries) as Hn.
  set (programs := (λ t, lock_only <$> part kThreadCount queries t) <$> seqZ 0 kThreadCount).
  assert (concat programs = lock_only <$> queries) as Hprog.
  { unfold programs. rewrite <-(parts_concat kThreadCount queries) at 1 by done.
    rewrite <-concat_fmap_fmap, <-list_fmap_compose. done. }
  destruct (pool_runs lock tt programs Hi) as [Hend Hex].
  { by rewrite Hs. }
  { unfold programs. apply Forall_fmap, Forall_forall. intros t Ht. simpl. apply Forall_fmap.
    unfold part. by apply Forall_take, Forall_drop. }
  split.
  - intros schedule lock' n. unfold RunLockOnlyQueries. fold programs.
    destruct (run_calls _ _) as [st|] eqn:Hrun; [|done]. simpl.
    destruct (joined st) eqn:Hj; [|done]. intros [= <- <-].
    destruct (Hend schedule st Hrun Hj) as (_ & _ & _ & Hi' & Hs' & _ & Hd).
    split; [|split; [done|congruence]]. rewrite Hd.
    change (λ p : list Call, u64 (len p)) with (u64 ∘ @len (Call (D:=unit))).
    rewrite list_fmap_compose, foldl_done, zsum_len_concat, Hprog, len_fmap. apply u64_small.
    unfold is_u64. nia.
  - destruct Hex as (schedule & st & Hrun & Hj). exists schedule. unfold RunLockOnlyQueries. fold programs.
    rewrite Hrun. simpl. rewrite Hj. by eexists.
Qed.

Definition phases_ok (phases : list LockBenchmarkPhase) : Prop :=
  Forall (λ p, len (phase_queries p) * kThreadCount < modulus64 ∧ Forall query_words (phase_queries p)) phases.

Lemma run_phases_spec phases : ∀ lock n0,
  bench_idle lock → phases_ok phases →
  (∀ schedules lock' n, run_phases phases schedules lock (u64 n0) = Some (lock', n) →
     n = u64 (n0 + len (concat (phase_queries <$> phases))) ∧ bench_idle lock') ∧
  ∃ schedules, is_Some (run_phases phases schedules lock (u64 n0)).
Proof.
  induction phases as [|phase phases IH]; intros lock n0 Hl Hok.
  - split; [|by exists []]. intros schedules lock' n [= <- <-]. split; [|done]. f_equal.
    unfold len; simpl. lia.
  - apply Forall_cons in Hok as [[Hm Hq] Hok].
    destruct (RunLockOnlyQueries_spec lock _ Hl Hm Hq) as [Hend [schedule Hex]]. split.
    + intros [|s schedules] lock' n; cbn [run_phases]; [done|].
      destruct (RunLockOnlyQueries lock _ s) as [[lock1 n1]|] eqn:Hrun; [|done]. cbn [mbind option_bind]. intros Hrest.
      destruct (Hend _ _ _ Hrun) as [-> Hl1]. rewrite u64_add_r in Hrest.
      destruct (proj1 (IH lock1 _ Hl1 Hok) _ _ _ Hrest) as [-> ?]. split; [|done].
      rewrite fmap_cons. simpl. rewrite len_app. f_equal. lia.
    + destruct Hex as [[lock1 n1] Hrun]. destruct (Hend _ _ _ Hrun) as [-> Hl1].
      destruct (proj2 (IH lock1 (n0 + len (phase_queries phase)) Hl1 Hok)) as [schedules Hs].
      exists (schedule :: schedules). cbn [run_phases]. rewrite Hrun. cbn [mbind option_bind]. by rewrite u64_add_r.
Qed.

Lemma count_exists lock l r :
  bench_idle lock → is_u64 l → is_u64 r → is_Some (lock_CountLocksForRange lock l r).
Proof.
  intros [Hi Hs] Hl Hr. destruct (count_defined lock l r) as (c & -> & _); [done|by rewrite Hs|done..].
Qed.

Lemma AverageLocks_defined lock queries :
  bench_idle lock → Forall query_words queries → is_Some (AverageLocksForQueries lock queries).
Proof.
  intros [Hi Hs] Hq. unfold AverageLocksForQueries. case_decide; [by eexists|].
  assert (∀ total, is_Some (foldl (λ total q, total ← total;
    c ← lock_CountLocksForRange lock (q_left q) (q_right q); Some (total +₆₄ c)) (Some total) queries)) as Hf.
  { clear -Hq Hi Hs BL. induction Hq as [|q l [Hl Hr] _ IH]; intros total; [by eexists|]. simpl.
    destruct (count_defined lock (q_left q) (q_right q)) as (c & -> & _); [done|by rewrite Hs|done..|]. apply IH. }
  destruct (Hf 0) as [total ->]. by eexists.
Qed.

Lemma RunPhased_spec name lock phases enable_training elapsed :
  bench_idle lock → phases_ok phases →
  (∀ schedules lock' r, RunPhasedLockBenchmark name lock phases enable_training schedules elapsed = Some (lock', r) →
     run_queries r = u64 (len (concat (phase_queries <$> phases)))) ∧
  ∃ schedules, is_Some (RunPhasedLockBenchmark name lock phases enable_training schedules elapsed).
Proof.
  intros [Hi Hs] Hok. unfold RunPhasedLockBenchmark.
  set (lock0 := if enable_training then lock_start lock else lock_stop lock).
  assert (bench_idle lock0) as Hl0.
  { unfold lock0, bench_idle. destruct enable_training.
    - destruct (lock_start_idle lock Hi) as [? ->]. done.
    - destruct (lock_stop_idle lock Hi) as [? ->]. done. }
  destruct (run_phases_spec phases lock0 0 Hl0 Hok) as [Hend [schedules Hex]]. change (u64 0) with 0 in *.
  assert (∀ schedules lock1 n, run_phases phases schedules lock0 0 = Some (lock1, n) →
    n = u64 (len (concat (phase_queries <$> phases))) ∧
    is_Some (GetAverageMutexes (lock_stop lock1) (concat (phase_queries <$> phases))) ∧
    is_Some (lock_CountLocksForRange (lock_stop lock1) 0 (kHotWindowSize -₆₄ 1)) ∧
    is_Some (lock_CountLocksForRange (lock_stop lock1) (kArraySize -₆₄ kHotWindowSize) (kArraySize -₆₄ 1))) as Hrun.
  { intros schedules' lock1 n Hr. destruct (Hend _ _ _ Hr) as [-> [Hi1 Hs1]]. split; [done|].
    destruct (lock_stop_idle lock1 Hi1) as [Hi2 Hs2].
    assert (bench_idle (lock_stop lock1)) as Hl2 by (split; [done|congruence]). split.
    - apply AverageLocks_defined; [done|]. apply Forall_concat, Forall_fmap. eapply Forall_impl; [exact Hok|].
      by intros p [_ ?].
    - split; apply count_exists; done || apply u64_sub_range. }
  split.
  - intros schedules' lock' r. destruct (run_phases _ schedules' _ _) as [[lock1 n]|] eqn:Hr; [|done].
    destruct (Hrun _ _ _ Hr) as (-> & [a Ha] & [b Hb] & [c Hc]).
    cbn [mbind option_bind]. rewrite Ha. cbn [mbind option_bind]. rewrite Hb. cbn [mbind option_bind].
    rewrite Hc. cbn [mbind option_bind]. by intros [= <- <-].
  - exists schedules. destruct Hex as [[lock1 n] Hr]. rewrite Hr.
    destruct (Hrun _ _ _ Hr) as (_ & [a Ha] & [b Hb] & [c Hc]).
    cbn [mbind option_bind]. rewrite Ha. cbn [mbind option_bind]. rewrite Hb. cbn [mbind option_bind].
    rewrite Hc. cbn [mbind option_bind]. by eexists.
Qed.

End Correct.

End Benchmark.

(** ** The benchmarks *)

Section Benchmarks.
  Context `{R : RandomSource} `{PS : PopulationSort}.
  (** [std::mt19937_64] seeded. *)
  Variable engine : Z → rng.
  Variable kThreadCount : Z.

Definition BuildSideQueries (fuel : nat) (count : Z) (side : TrafficSide) (seed : Z) : option (list Query) :=
  fst <$> BuildBatch generator count side fuel (engine seed).

(** [GeneticBenchmarkLock(kArraySize, seed, kOnlineTrainingBatchSize, 12000,
    kPopulationSize, kEliteCount, kGenerationCount)], with the default arguments *)
Definition make_genetic : GeneticLock :=
  GeneticLock.make kLockCount kBlocks kArraySize kOnlineTrainingBatchSize 12000 kPopulationSize kEliteCount
    kGenerationCount 64 (d_of_Z 4) 5000000.

(** The engines are those of the local generator and of the partitioner of the lock;
    [delta] are the times the trainings take; the mutexes do not throw. *)
Definition PretrainGeneticLock (lock : GeneticLock) (side : TrafficSide) (delta : Z → Z) : bench GeneticLock :=
  lock ← bench_for (Z.to_nat kPretrainBatches) 0
    (λ batch lock,
       queries ← with_generator (BuildBatch generator kOnlineTrainingBatchSize side);
       r ← with_optimizer (GeneticLock.ObserveBatch kLockCount kBlocks 0 no_throw (delta batch) lock queries);
       mret r.2) lock;
  mret (GeneticLock.ResetRuntimeStats lock).

(** The two locks as [BenchLock]s. *)
Lemma benchmark_kLockCount_range : 0 < kLockCount < modulus64.
Proof. by vm_compute. Qed.

Lemma benchmark_kLockCount_blocks : 0 < kLockCount ≤ kBlocks.
Proof. by vm_compute. Qed.

#[export] Instance naive_benchmark_query : QueryLock NaiveLock unit := naive_query_lock kLockCount benchmark_kLockCount_range.
#[export] Instance naive_benchmark_lock : BenchLock NaiveLock unit := naive_bench_lock kLockCount benchmark_kLockCount_range.
#[export] Instance genetic_benchmark_query : QueryLock GeneticLock ThreadLocals :=
  genetic_query_lock kLockCount kBlocks 0 benchmark_kLockCount_blocks.
#[export] Instance genetic_benchmark_lock : BenchLock GeneticLock ThreadLocals :=
  genetic_bench_lock kLockCount kBlocks 0 benchmark_kLockCount_blocks (proj2 benchmark_kLockCount_range).

(** What scheduler and clock decide in one [RunPhasedLockBenchmark]. *)
Record PhasedRun := { pr_schedules : list (list (nat * Z)); pr_elapsed : double }.

Definition compare (title : string) (genetic : GeneticLock) (phases : list LockBenchmarkPhase)
    (enable_training : bool) (run run2 : PhasedRun) : option LockBenchmarkComparison :=
  '(_, n) ← RunPhasedLockBenchmark kThreadCount (text "naive fixed partitions") (naive_make kLockCount kArraySize)
              phases enable_training (pr_schedules run) (pr_elapsed run);
  '(_, g) ← RunPhasedLockBenchmark kThreadCount (text "genetic adaptive partitions") genetic
              phases enable_training (pr_schedules run2) (pr_elapsed run2);
  Some {| title := text title; naive_run := n; genetic_run := g |}.

Definition RunOnlineLockBenchmark (fuel : nat) (run run2 : PhasedRun) : option LockBenchmarkComparison :=
  left ← BuildSideQueries fuel kOnlinePhaseQueries kLeft 101;
  right ← BuildSideQueries fuel kOnlinePhaseQueries kRight 102;
  recall ← BuildSideQueries fuel kOnlinePhaseQueries kLeft 103;
  compare "online total time, including genetic training" make_genetic
    [{| phase_name := text "online left mode"; phase_queries := left |};
     {| phase_name := text "online right mode"; phase_queries := right |};
     {| phase_name := text "online left recall"; phase_queries := recall |}] true run run2.

Definition RunPureLockBenchmark (fuel : nat) (delta : Z → Z) (run run2 : PhasedRun) :
    option LockBenchmarkComparison :=
  left ← BuildSideQueries fuel kPureLockQueries kLeft 301;
  '(genetic, _) ← PretrainGeneticLock make_genetic kLeft delta fuel (engine 303, engine 302);
  compare "pure lock/unlock time after offline pretraining" genetic
    [{| phase_name := text "left hot lock/unlock probe"; phase_queries := left |}] false run run2.

(** ** Generated queries and pretraining *)

Lemma BuildSideQueries_spec count side seed :
  0 ≤ count → ∃ N queries, len queries = count ∧ Forall query_words queries ∧
    ∀ fuel, (N ≤ fuel)%nat → BuildSideQueries fuel count side seed = Some queries.
Proof.
  intros Hc. destruct (BuildBatch_wp generator count side ltac:(by vm_compute) Hc (engine seed))
    as (N & qs & g & [Hlen Hall] & Hrun).
  exists N, qs. split; [done|]. split.
  - eapply Forall_impl; [exact Hall|]. intros q (H1 & H2 & H3 & _). unfold query_words, is_u64.
    change (wg_array_size_ generator) with 1048576 in H3. change (wg_query_length_ generator) with 64 in H2.
    rewrite modulus64_val. lia.
  - intros fuel Hf. unfold BuildSideQueries. by rewrite Hrun.
Qed.

Context {F : FairSource R}.

Definition genetic_ready (d : GeneticLock) : Prop :=
  gl_ok kLockCount kBlocks d ∧ GeneticLock.pause_queries_ d = false ∧ GeneticLock.array_size_ d = kArraySize.

Lemma install_cuts_ready delta previous d :
  genetic_ready d → genetic_ready (install_cuts kLockCount kBlocks 0 no_throw delta previous d).2.
Proof.
  intros (Hd & Hp & Ha). split; [by apply install_cuts_ok|].
  rewrite install_cuts_eq by done. unfold no_throw. rewrite existsb_never, andb_false_r.
  case_decide; [|by split]. unfold unchanged, ScheduleNextTrainingProbe; simpl. destruct (_ =? 0); by split.
Qed.

Lemma ObserveBatch_ready delta d queries :
  genetic_ready d →
  wp (GeneticLock.ObserveBatch kLockCount kBlocks 0 no_throw delta d queries) (λ r, genetic_ready r.2).
Proof.
  intros Hd. unfold GeneticLock.ObserveBatch. case_decide; [by apply wp_ret|].
  destruct (HasEnoughSkew _ _ _ _); [|by apply wp_ret].
  eapply wp_mono; [apply (TrainOnBatch_wp kLockCount kBlocks); done || apply Hd|].
  intros r (p & Hp & ->). apply install_cuts_ready. destruct Hd as (_ & ? & ?). by split.
Qed.

Lemma PretrainGeneticLock_ready lock side delta :
  genetic_ready lock → bwp (PretrainGeneticLock lock side delta) genetic_ready.
Proof.
  intros Hl. unfold PretrainGeneticLock. eapply bwp_bind.
  - apply (bwp_for (λ _, genetic_ready)); [done|]. intros i d _ Hd.
    eapply bwp_bind; [apply bwp_generator, BuildBatch_wp; [by vm_compute|done]|]. intros queries _.
    eapply bwp_bind; [by apply bwp_optimizer, ObserveBatch_ready|]. intros r Hr. by apply bwp_ret.
  - intros d (Hd & Hp & Ha). apply bwp_ret. split; [|done]. by apply (same_core_ok _ _ d).
Qed.

Lemma make_genetic_ready : genetic_ready make_genetic.
Proof. split; [|done]. apply GeneticLock.genetic_make_ok; [done..| |done]. unfold is_u64. by rewrite modulus64_val. Qed.

(** ** Comparisons *)

Context (HT : 0 < kThreadCount < modulus32).

Lemma naive_idle : bench_idle (naive_make kLockCount kArraySize).
Proof. split; [|done]. apply naive_make_ok; by vm_compute. Qed.

Lemma genetic_idle d : genetic_ready d → bench_idle d.
Proof. intros (H1 & H2 & H3). split; [split; [exact H1|exact H2]|exact H3]. Qed.

(** Phases with [counts] queries. *)
Definition phase_counts (counts : list Z) (phases : list LockBenchmarkPhase) : Prop :=
  Forall2 (λ n p, 0 ≤ n < 2 ^ 24 ∧ len (phase_queries p) = n ∧ Forall query_words (phase_queries p)) counts phases.

Lemma compare_spec title genetic counts phases enable_training e1 e2 :
  genetic_ready genetic → phase_counts counts phases → zsum counts < modulus64 →
  (∀ run run2 c, compare title genetic phases enable_training run run2 = Some c →
     run_queries (naive_run c) = zsum counts ∧ run_queries (genetic_run c) = zsum counts) ∧
  ∃ s1 s2, is_Some (compare title genetic phases enable_training
    {| pr_schedules := s1; pr_elapsed := e1 |} {| pr_schedules := s2; pr_elapsed := e2 |}).
Proof.
  intros Hg Hph Hsum. assert (0 < kThreadCount < modulus64) as HT' by (rewrite modulus64_val; rewrite modulus32_val in HT; lia).
  assert (phases_ok kThreadCount phases ∧ len (concat (phase_queries <$> phases)) = zsum counts ∧ 0 ≤ zsum counts)
    as (Hok & Hlen & Hpos).
  { clear Hsum. rewrite modulus32_val in HT. unfold phases_ok. rewrite modulus64_val.
    induction Hph as [|n p counts phases (Hn & Hp & Hq) _ (IH1 & IH2 & IH3)]; [by split|]. split; [|split].
    - constructor; [split; [nia|done]|done].
    - rewrite fmap_cons, zsum_cons. simpl. rewrite len_app. lia.
    - rewrite zsum_cons. lia. }
  assert (u64 (len (concat (phase_queries <$> phases))) = zsum counts) as Hu by (rewrite Hlen; by apply u64_small).
  unfold compare. split.
  - intros run run2 c.
    destruct (RunPhasedLockBenchmark _ _ (naive_make _ _) _ _ _ _) as [[n1 rn]|] eqn:H1; [|done].
    destruct (RunPhasedLockBenchmark _ _ genetic _ _ _ _) as [[g1 rg]|] eqn:H2; [|done].
    cbn [mbind option_bind]. intros [= <-]. simpl.
    apply (proj1 (RunPhased_spec kThreadCount HT' _ _ _ _ _ naive_idle Hok)) in H1.
    apply (proj1 (RunPhased_spec kThreadCount HT' _ _ _ _ _ (genetic_idle _ Hg) Hok)) in H2.
    rewrite H1, H2, Hu. done.
  - destruct (RunPhased_spec kThreadCount HT' (text "naive fixed partitions") _ phases enable_training e1 naive_idle Hok)
      as [_ [s1 Hs1]].
    destruct (RunPhased_spec kThreadCount HT' (text "genetic adaptive partitions") genetic phases enable_training e2
      (genetic_idle _ Hg) Hok) as [_ [s2 Hs2]].
    exists s1, s2. cbn [pr_schedules pr_elapsed]. destruct Hs1 as [[n1 rn] ->], Hs2 as [[g1 rg] ->]. by eexists.
Qed.

Lemma benchmarks_count delta :
  ∃ N, ∀ fuel, (N ≤ fuel)%nat →
    (∀ run run2 c, RunOnlineLockBenchmark fuel run run2 = Some c →
       run_queries (naive_run c) = 1440000 ∧ run_queries (genetic_run c) = 1440000) ∧
    (∀ run run2 c, RunPureLockBenchmark fuel delta run run2 = Some c →
       run_queries (naive_run c) = 9000000 ∧ run_queries (genetic_run c) = 9000000) ∧
    ∀ e1 e2, ∃ s1 s2 s3 s4,
      is_Some (RunOnlineLockBenchmark fuel {| pr_schedules := s1; pr_elapsed := e1 |}
                                           {| pr_schedules := s2; pr_elapsed := e2 |}) ∧
      is_Some (RunPureLockBenchmark fuel delta {| pr_schedules := s3; pr_elapsed := e1 |}
                                               {| pr_schedules := s4; pr_elapsed := e2 |}).
Proof.
  destruct (BuildSideQueries_spec kOnlinePhaseQueries kLeft 101 ltac:(done)) as (N1 & q1 & Hl1 & Hw1 & H1).
  destruct (BuildSideQueries_spec kOnlinePhaseQueries kRight 102 ltac:(done)) as (N2 & q2 & Hl2 & Hw2 & H2).
  destruct (BuildSideQueries_spec kOnlinePhaseQueries kLeft 103 ltac:(done)) as (N3 & q3 & Hl3 & Hw3 & H3).
  destruct (BuildSideQueries_spec kPureLockQueries kLeft 301 ltac:(done)) as (N4 & q4 & Hl4 & Hw4 & H4).
  destruct (PretrainGeneticLock_ready make_genetic kLeft delta make_genetic_ready (engine 303, engine 302))
    as (N5 & d & s & Hd & H5).
  exists (N1 + N2 + N3 + N4 + N5)%nat. intros fuel Hf. unfold RunOnlineLockBenchmark, RunPureLockBenchmark.
  rewrite H1, H2, H3, H4, H5 by lia. cbn [mbind option_bind].
  set (online := [_; _; _]). set (pure := [_]).
  assert (phase_counts [480000; 480000; 480000] online) as Hon by (repeat constructor; done).
  assert (phase_counts [9000000] pure) as Hpure by (repeat constructor; done).
  pose proof (λ e1 e2, compare_spec "online total time, including genetic training" make_genetic _ online true e1 e2
    make_genetic_ready Hon ltac:(done)) as Ho.
  pose proof (λ e1 e2, compare_spec "pure lock/unlock time after offline pretraining" d _ pure false e1 e2
    Hd Hpure ltac:(done)) as Hp.
  split; [exact (proj1 (Ho d_zero d_zero))|]. split; [exact (proj1 (Hp d_zero d_zero))|]. intros e1 e2.
  destruct (Ho e1 e2) as [_ (s1 & s2 & ?)], (Hp e1 e2) as [_ (s3 & s4 & ?)]. by exists s1, s2, s3, s4.
Qed.

End Benchmarks.

(** ** Property *)

(** The two lock benchmarks return, with any number of threads below [2^32] and
    any seeding of the engines: some order of the calls lets all threads finish,
    and in every such order both locks report that all generated queries were
    executed, 3 * 480000 in the online benchmark and 9000000 in the benchmark after
    pretraining. *)
Theorem lock_benchmarks_count `{R : RandomSource} {F : FairSource R} `{PS : PopulationSort} engine kThreadCount delta :
  0 < kThreadCount < modulus32 →
  ∃ N, ∀ fuel, (N ≤ fuel)%nat →
    (∀ run run2 c, RunOnlineLockBenchmark engine kThreadCount fuel run run2 = Some c →
       run_queries (naive_run c) = 1440000 ∧ run_queries (genetic_run c) = 1440000) ∧
    (∀ run run2 c, RunPureLockBenchmark engine kThreadCount fuel delta run run2 = Some c →
       run_queries (naive_run c) = 9000000 ∧ run_queries (genetic_run c) = 9000000) ∧
    ∀ e1 e2, ∃ s1 s2 s3 s4,
      is_Some (RunOnlineLockBenchmark engine kThreadCount fuel {| pr_schedules := s1; pr_elapsed := e1 |}
                                                               {| pr_schedules := s2; pr_elapsed := e2 |}) ∧
      is_Some (RunPureLockBenchmark engine kThreadCount fuel delta {| pr_schedules := s3; pr_elapsed := e1 |}
                                                                   {| pr_schedules := s4; pr_elapsed := e2 |}).
Proof. intros. by apply benchmarks_count. Qed.

Lemma lock_benchmarks_count_witness :
  ∃ fuel run run2 c,
    RunPureLockBenchmark (R:=counter_source) (λ seed, seed) 4 fuel (λ _, 0) run run2 = Some c ∧
    run_queries (genetic_run c) = 9000000.
Proof.
  destruct (lock_benchmarks_count (R:=counter_source) (λ seed, seed) 4 (λ _, 0) ltac:(done)) as [N HN].
  destruct (HN N ltac:(lia)) as (_ & Hp & Hex). destruct (Hex d_zero d_zero) as (s1 & s2 & s3 & s4 & _ & [c Hc]).
  eexists N, _, _, c. split; [exact Hc|]. exact (proj2 (Hp _ _ _ Hc)).
Defined.
