(* ===== verification/GeneticReport.v ===== *)
(** The reports of the genetic benchmark ([benchmarks/genetic_lock_benchmark.cpp],
    [PrintImprovementTest], [PrintShiftTimeline], [PrintRecallTest],
    [PrintLockBenchmark] and the end of [main]).

    [main] prints the reports of the three tests and the two benchmarks and
    returns 0 if all tests passed, which the last line says, too. *)
From Stdlib Require Import Ascii String.
From S2P Require Import Double Chromosome PrintCompat GeneticTests GeneticBench Prelude.

Open Scope string_scope.
Open Scope list_scope.
Open Scope Z_scope.

Section Report.
  Variable show_double : Z → double → str.

Local Abbreviation print := (print show_double).
Local Abbreviation println := (println show_double).

Definition PrintMetrics (metrics : PartitionMetrics) (out : str) : str :=
  out ▷ print "fitness {:.0f}, contention {}, avg mutexes/query {:.2f}"
    [ADouble (fitness metrics); AInt (contention_score metrics); ADouble (avg_mutexes_per_query metrics)].

(** [passed ? "OK" : "FAILED"] *)
Definition verdict (passed : bool) : Arg := AText (text (if passed then "OK" else "FAILED")).

Definition print_result (passed : bool) (out : str) : str :=
  out ▷ print ("  result: {}" ++ nl ++ nl)%string [verdict passed].

Definition PrintImprovementTest (result : ImprovementTestResult) (out : str) : str :=
  out ▷ println "improvement test" [] ▷
  print "  before: " [] ▷ PrintMetrics (initial_metrics result) ▷ println "" [] ▷
  print "  after:  " [] ▷ PrintMetrics (final_metrics result) ▷ println "" [] ▷
  println "  hot locks after training: left {}, right {}"
    [AInt (left_hot_locks result); AInt (right_hot_locks result)] ▷
  print_result (improvement_passed result).

Definition print_snapshot (snapshot : Snapshot) (out : str) : str :=
  out ▷ print "  {}: " [AText (s_label snapshot)] ▷ PrintMetrics (s_metrics snapshot) ▷
  println ", hot locks left {}, right {}"
    [AInt (s_left_hot_locks snapshot); AInt (s_right_hot_locks snapshot)].

Definition PrintShiftTimeline (result : TimelineResult) (out : str) : str :=
  foldl (λ out snapshot, print_snapshot snapshot out) (out ▷ println "shift test" []) (timeline result) ▷
  print_result (passed result).

Definition PrintRecallTest (result : TimelineResult) (out : str) : str :=
  foldl (λ out snapshot, print_snapshot snapshot out) (out ▷ println "recall test" []) (timeline result) ▷
  print_result (passed result).

(** [seconds > 0.0 ? x / seconds : 0.0] *)
Definition per (x seconds : double) : double := if seconds >?ᵈ d_zero then x /ᵈ seconds else d_zero.

Definition PrintLockBenchmarkRun (run : LockBenchmarkRun) (out : str) : str :=
  let qps := per (d_of_Z (run_queries run)) (seconds run) in
  let out := out ▷ print ("  {}: {:.3f} s, {:.0f} qps, avg mutexes/query {:.2f}, " ++
                          "avg lock wait {:.4f} ms")%string
    [AText (run_name run); ADouble (seconds run); ADouble qps; ADouble (run_avg_mutexes run);
     ADouble (avg_lock_ms run)] in
  let out :=
    if 0 <? trainings run
    then out ▷ print ", trainings {}, avg train {:.2f} ms" [AInt (trainings run); ADouble (avg_training_ms run)]
    else out in
  out ▷ println ", hot locks left {}, right {}" [AInt (run_left_hot_locks run); AInt (run_right_hot_locks run)].

Definition PrintLockBenchmark (comparison : LockBenchmarkComparison) (out : str) : str :=
  let naive_qps := per (d_of_Z (run_queries (naive_run comparison))) (seconds (naive_run comparison)) in
  let genetic_qps := per (d_of_Z (run_queries (genetic_run comparison))) (seconds (genetic_run comparison)) in
  let speedup := per genetic_qps naive_qps in
  let wall_time_ratio := per (seconds (naive_run comparison)) (seconds (genetic_run comparison)) in
  out ▷ println "{}" [AText (title comparison)] ▷
  PrintLockBenchmarkRun (naive_run comparison) ▷ PrintLockBenchmarkRun (genetic_run comparison) ▷
  println "  qps ratio genetic/naive: {:.3f}x" [ADouble speedup] ▷
  print ("  wall-time ratio naive/genetic: {:.3f}x" ++ nl ++ nl)%string [ADouble wall_time_ratio].

(** The end of [main], after the configuration: the reports, and the exit code. *)
Definition report (improvement : ImprovementTestResult) (shift recall : TimelineResult)
    (online pure : LockBenchmarkComparison) (out : str) : str * Z :=
  let out := out ▷ PrintImprovementTest improvement ▷ PrintShiftTimeline shift ▷ PrintRecallTest recall ▷
             PrintLockBenchmark online ▷ PrintLockBenchmark pure in
  let all_passed := improvement_passed improvement && passed shift && passed recall in
  (out ▷ println "summary" [] ▷ println "  overall: {}" [verdict all_passed], if all_passed then 0 else 1).

Lemma overall_line b out :
  println "  overall: {}" [verdict b] out =
    out ++ text "  overall: " ++ text (if b then "OK" else "FAILED") ++ [newline].
Proof. unfold PrintCompat.println, Println, Print. rewrite <-app_assoc. by destruct b. Qed.

(** The report ends with the verdict that the exit code tells. *)
Lemma report_verdict improvement shift recall online pure out :
  ∃ printed, (report improvement shift recall online pure out).1 =
    printed ++ text "  overall: " ++
    text (if (report improvement shift recall online pure out).2 =? 0 then "OK" else "FAILED") ++ [newline].
Proof.
  eexists. unfold report. cbn [fst snd]. rewrite overall_line. by destruct (_ && _).
Qed.

End Report.
