(* ===== verification/Fraction.v ===== *)
(** A fraction of a size, [(size_t)(range * fraction)].

    The workload builders of SetBench compute the sizes of hot sets and the begins
    of windows this way. The product is rounded to the nearest [double] and then
    truncated; the theorem of this file is that for a range below [2^53] and a
    fraction between 0 and 1 the result is at most the range. *)
From S2P Require Import Double Prelude.

(** [static_cast<size_t>(range * fraction)]. *)
Definition scale (range : Z) (fraction : double) : option Z := d_to_size (d_of_Z range *ᵈ fraction).

(** ** Shifting right *)

Lemma shr_1_step m b1 b2 :
  0 ≤ m → ∃ s, shr_1 (Build_shr_record m b1 b2) = Build_shr_record (m / 2) (Z.odd m) s ∧ s = b1 || b2.
Proof.
  intros Hm. exists (b1 || b2). split; [|done].
  assert (shr_m (shr_1 (Build_shr_record m b1 b2)) = Z.div2 m) as Hd by (by destruct m as [|[]|]).
  rewrite Z.div2_div in Hd. rewrite <-Hd. by destruct m as [|[]|].
Qed.

(** After [n] shifts the mantissa is the quotient, and a bit that was shifted out
    is remembered only if there was one. *)
Definition shifted (m : Z) (n : Z) (r : shr_record) : Prop :=
  shr_m r = m / 2 ^ n ∧ (shr_r r || shr_s r = true → m mod 2 ^ n ≠ 0).

Lemma shifted_1 m n r : 0 ≤ m → 0 ≤ n → shifted m n r → shifted m (n + 1) (shr_1 r).
Proof.
  intros Hm Hn [Hq Hs]. destruct r as [q b1 b2]; simpl in Hq, Hs.
  assert (0 ≤ q) by (rewrite Hq; apply Z.div_pos; lia).
  destruct (shr_1_step q b1 b2) as (s & -> & Hs'); [done|].
  unfold shifted. rewrite Z.pow_add_r by lia. change (2 ^ 1) with 2. split; simpl.
  - by rewrite Hq, Z.div_div by lia.
  - intros Hor. rewrite Z.rem_mul_r by lia. pose proof (Z.mod_pos_bound m (2 ^ n) ltac:(lia)).
    rewrite <-Hq, Zmod_odd. destruct (Z.odd q); [lia|]. simpl in Hor. subst s. apply Hs in Hor. lia.
Qed.

Lemma shifted_iter p : ∀ m n r, 0 ≤ m → 0 ≤ n → shifted m n r →
  shifted m (n + Zpos p) (SpecFloat.iter_pos shr_1 p r).
Proof.
  induction p as [p IH|p IH|]; intros m n r Hm Hn Hr; cbn [SpecFloat.iter_pos].
  - replace (n + Zpos p~1) with (n + 1 + Zpos p + Zpos p) by lia.
    apply IH; [done|lia|]. apply IH; [done|lia|]. by apply shifted_1.
  - replace (n + Zpos p~0) with (n + Zpos p + Zpos p) by lia. by apply IH; [|lia|apply IH].
  - by apply shifted_1.
Qed.

Lemma shr_spec m e n :
  0 ≤ m → ∃ r, shr (shr_record_of_loc m loc_Exact) e n = (r, e + Z.max 0 n) ∧ shifted m (Z.max 0 n) r.
Proof.
  intros Hm. assert (shifted m 0 (shr_record_of_loc m loc_Exact)) as H0.
  { split; simpl; [|done]. by rewrite Z.div_1_r. }
  unfold shr. destruct n as [|p|p].
  - rewrite Z.add_0_r. by eexists.
  - rewrite Z.max_r by lia. eexists. split; [done|]. apply (shifted_iter p m 0); [done|lia|done].
  - rewrite Z.max_l, Z.add_0_r by lia. by eexists.
Qed.

(** ** Rounding does not exceed a bound that is a number *)

Lemma rounded_bound m n r M :
  0 ≤ m → 0 ≤ n → shifted m n r → m ≤ M * 2 ^ n →
  0 ≤ round_nearest_even (shr_m r) (loc_of_shr_record r) ≤ M.
Proof.
  intros Hm Hn [Hq Hs] Hle. assert (0 < 2 ^ n) by lia.
  assert (shr_m r ≤ M) by (rewrite Hq; apply Z.div_le_upper_bound; lia).
  assert (0 ≤ shr_m r) by (rewrite Hq; apply Z.div_pos; lia).
  assert (shr_r r || shr_s r = true → shr_m r < M) as Hlt.
  { intros Hor. apply Hs in Hor. rewrite Hq. apply Z.div_lt_upper_bound; [lia|].
    destruct (decide (m = M * 2 ^ n)) as [->|]; [|lia]. by rewrite Z.mod_mul in Hor by lia. }
  destruct r as [q [] []]; simpl in *; try specialize (Hlt eq_refl); try lia.
  destruct (Z.even q); lia.
Qed.

Lemma Zdigits2_bound m n : 0 ≤ m < 2 ^ n → 0 ≤ n → Zdigits2 m ≤ n.
Proof. intros Hm Hn. destruct m as [|p|p]; [simpl; lia| |lia]. apply digits2_bound; lia. Qed.

(** A product [m * 2^e] of at most [N], where [N] is an integer below [2^53]. *)
Lemma fexp_small m e N :
  0 ≤ m → 0 ≤ N < 2 ^ 53 → e ≤ 0 → m ≤ N * 2 ^ (- e) → fexp d_prec d_emax (Zdigits2 m + e) ≤ 0.
Proof.
  intros Hm HN He Hle. assert (Zdigits2 m ≤ 53 - e).
  { apply Zdigits2_bound; [|lia]. unfold Z.sub. rewrite Z.pow_add_r by lia.
    assert (0 < 2 ^ (- e)) by lia. nia. }
  unfold fexp, emin, d_prec, d_emax. lia.
Qed.

Lemma round_aux_bound m e N :
  0 ≤ m → 0 ≤ N < 2 ^ 53 → e ≤ 0 → m ≤ N * 2 ^ (- e) →
  ∃ m' e', binary_round_aux d_prec d_emax false m e loc_Exact =
      (match m' with Z0 => S754_zero false | Zpos p => S754_finite false p e' | _ => S754_nan end) ∧
    0 ≤ m' ∧ e' ≤ 0 ∧ m' ≤ N * 2 ^ (- e').
Proof.
  intros Hm HN He Hle. unfold binary_round_aux, shr_fexp.
  pose proof (fexp_small m e N Hm HN He Hle) as Hf. set (n := fexp _ _ _ - e).
  destruct (shr_spec m e n Hm) as (r & -> & Hr).
  assert (e + Z.max 0 n ≤ 0) as He1 by lia. set (e1 := e + Z.max 0 n) in *.
  destruct (rounded_bound m (Z.max 0 n) r (N * 2 ^ (- e1))) as [Hq0 Hq]; [done|lia|done| |].
  { rewrite <-Z.mul_assoc, <-Z.pow_add_r by lia.
    by replace (- e1 + Z.max 0 n) with (- e) by lia. }
  set (q := round_nearest_even _ _) in *.
  pose proof (fexp_small q e1 N Hq0 HN He1 Hq) as Hf2. set (n2 := fexp _ _ (Zdigits2 q + e1) - e1).
  destruct (shr_spec q e1 n2 Hq0) as (r2 & -> & Hr2). destruct Hr2 as [Hm2 _]. rewrite Hm2.
  assert (0 ≤ q / 2 ^ Z.max 0 n2) by (apply Z.div_pos; lia).
  exists (q / 2 ^ Z.max 0 n2), (e1 + Z.max 0 n2). split; [|split; [done|split; [lia|]]].
  - destruct (q / _) as [|p|p]; [done| |lia].
    destruct (Z.leb_spec (e1 + Z.max 0 n2) (d_emax - d_prec)); [done|unfold d_emax, d_prec in *; lia].
  - apply Z.div_le_upper_bound; [lia|]. rewrite (Z.mul_comm (2 ^ _)), <-Z.mul_assoc, <-Z.pow_add_r by lia.
    by replace (- (e1 + Z.max 0 n2) + Z.max 0 n2) with (- e1) by lia.
Qed.

Lemma d_to_size_bound m e N :
  0 ≤ m → 0 ≤ N < 2 ^ 53 → e ≤ 0 → m ≤ N * 2 ^ (- e) →
  ∃ v, d_to_size (match m with Z0 => S754_zero false | Zpos p => S754_finite false p e | _ => S754_nan end) =
      Some v ∧ 0 ≤ v ≤ N.
Proof.
  intros Hm HN He Hle. destruct m as [|p|p]; [by exists 0; split; [|lia]| |lia]. simpl.
  rewrite Z.shiftl_div_pow2 by lia.
  assert (0 ≤ Zpos p / 2 ^ (- e) ≤ N).
  { split; [apply Z.div_pos; lia|]. apply Z.div_le_upper_bound; lia. }
  exists (Zpos p / 2 ^ (- e)). unfold modulus64. zbool; simpl; [by split|lia..].
Qed.

(** ** The operands *)

(** An integer below [2^53] is exact. *)
Lemma d_of_Z_exact z : 1 ≤ z < 2 ^ 53 →
  ∃ m e, d_of_Z z = S754_finite false m e ∧ e ≤ 0 ∧ Zpos m = z * 2 ^ (- e).
Proof.
  intros Hz. destruct z as [|p|p]; [lia| |lia].
  assert (∃ mz ez, shl_align p 0 (fexp d_prec d_emax (Zpos (digits2_pos p) + 0)) = (mz, ez) ∧
    ez ≤ 0 ∧ Zpos mz = Zpos p * 2 ^ (- ez) ∧ fexp d_prec d_emax (Zpos (digits2_pos mz) + ez) = ez) as
    (mz & ez & Hal & Hez & Hmz & Hcan).
  { pose proof (digits2_bound p 53 ltac:(lia) ltac:(lia)) as Hd. unfold shl_align, fexp, emin, d_prec, d_emax.
    set (dg := Zpos (digits2_pos p)) in *. assert (0 < dg) by done.
    rewrite Z.max_l, Z.sub_0_r by lia.
    destruct (dg + 0 - 53) as [|q|q] eqn:Hq; [|lia|].
    - exists p, 0. split_and!; [done|lia|simpl; lia|]. fold dg. lia.
    - exists (Pos.iter xO p q), (Zneg q). rewrite digits2_iter. fold dg. split_and!; [done|lia| |lia].
      change (- Zneg q) with (Zpos q). rewrite <-Z.shiftl_mul_pow2 by lia.
      clear. unfold Z.shiftl. induction q as [|q IH] using Pos.peano_ind; [simpl; lia|].
      rewrite !Pos.iter_succ. lia. }
  exists mz, ez. split; [|done]. unfold d_of_Z, binary_normalize, binary_round. rewrite Hal.
  assert (∀ l, shr_fexp d_prec d_emax (Zpos mz) ez l = (shr_record_of_loc (Zpos mz) l, ez)) as Hs
    by (intros l; unfold shr_fexp; cbn [Zdigits2]; by rewrite Hcan, Z.sub_diag).
  unfold binary_round_aux. rewrite Hs. simpl. rewrite Hs. simpl.
  destruct (Z.leb_spec ez (d_emax - d_prec)); [done|unfold d_emax, d_prec in *; lia].
Qed.

(** A [double] in [[0, 1]]; JSON and literals give valid numbers. *)
Definition is_fraction (f : double) : Prop :=
  valid_binary d_prec d_emax f = true ∧ (d_zero <=?ᵈ f) = true ∧ (f <=?ᵈ d_one) = true.

Lemma d_le_finite m e m' e' :
  (S754_finite false m e <=?ᵈ S754_finite false m' e') = true → e ≤ e' ∧ (e = e' → Zpos m ≤ Zpos m').
Proof.
  rewrite d_le_key by done. unfold key_lt. simpl. intros H. lia.
Qed.

Lemma fraction_finite m e : is_fraction (S754_finite false m e) → e ≤ 0 ∧ Zpos m ≤ 2 ^ (- e).
Proof.
  intros (Hv & _ & Hle). simpl in Hv. apply andb_prop in Hv as [Hc _]. apply Z.eqb_eq in Hc.
  assert (e ≤ -52 ∧ (e = -52 → Zpos m ≤ 2 ^ 52)) as [He Hm].
  { apply (d_le_finite m e 4503599627370496 (-52)). exact Hle. }
  split; [lia|]. destruct (decide (e = -52)) as [->|]; [by apply Hm|].
  assert (Zpos (digits2_pos m) ≤ 53) as Hd by (unfold fexp, emin, d_prec, d_emax in Hc; lia).
  assert (∀ p, Zpos p < 2 ^ Zpos (digits2_pos p)) as Hlt.
  { clear. induction p as [p IH|p IH|]; cbn [digits2_pos]; [| |done].
    all: rewrite Pos2Z.inj_succ, Z.pow_succ_r by lia; lia. }
  specialize (Hlt m). pose proof (Z.pow_le_mono_r 2 _ _ ltac:(lia) Hd).
  pose proof (Z.pow_le_mono_r 2 53 (- e) ltac:(lia) ltac:(lia)). lia.
Qed.

Lemma scale_bound range f :
  0 ≤ range < 2 ^ 53 → is_fraction f → ∃ v, scale range f = Some v ∧ 0 ≤ v ≤ range.
Proof.
  intros Hr Hf. pose proof Hf as (_ & Hge & Hle). unfold scale, d_mul.
  destruct (decide (range = 0)) as [->|Hpos].
  { change (d_of_Z 0) with (S754_zero false).
    destruct f as [s|[]| |s m e]; try done; by exists 0; split; [|lia]. }
  destruct (d_of_Z_exact range ltac:(lia)) as (mr & er & -> & Her & Hmr).
  destruct f as [s|[]| |[] m e]; try done; [by exists 0; split; [|lia]|].
  destruct (fraction_finite m e Hf) as [He Hm]. cbn [SFmul xorb].
  destruct (round_aux_bound (Zpos (mr * m)) (er + e) range) as (m' & e' & -> & Hm' & He' & Hle'); [lia..| |].
  - rewrite Pos2Z.inj_mul, Hmr. replace (- (er + e)) with (- er + - e) by lia. rewrite Z.pow_add_r by lia.
    assert (0 < 2 ^ (- er)) by lia. nia.
  - apply d_to_size_bound; done.
Qed.

(** [std::clamp(fraction, 0.0, 1.0)] of a number is a fraction. *)
Lemma clamp_fraction f :
  valid_binary d_prec d_emax f = true → f ≠ S754_nan → is_fraction (d_clamp f d_zero d_one).
Proof.
  intros Hv Hn. unfold d_clamp.
  destruct (f <?ᵈ d_zero) eqn:H0; [by vm_compute|].
  destruct (d_one <?ᵈ f) eqn:H1; [by vm_compute|]. split; [done|].
  rewrite !d_le_key by done. apply not_true_iff_false in H0, H1. by rewrite d_lt_key in H0, H1.
Qed.
