(* ===== verification/Distributions.v ===== *)
(** Distributions and data maps of the SetBench microbenchmark
    ([Benchmark-v700/cpp/microbench/workloads/distributions] and [data_maps]).

    A generator of arguments draws an index from a [Distribution] and maps it to a
    key with a [DataMap]. The objects of a thread share its [Random64]; a
    computation is therefore a function of the generator's own state and of the
    [Random64], and it ends in a value, in [setbench_error] (which exits), in
    undefined behaviour, or it runs out of the fuel given to the loops that reject a
    draw. The theorems: uniform and skewed-uniform distributions built for a range
    stay below it, a Zipf distribution need not ([zipf_exceeds]), and data maps turn
    the indices below the range into the keys [1 .. range]. *)
From S2P Require Import Double Fraction Rng Prelude.

(** ** Computations *)

Inductive res (A : Type) :=
  | Ok (a : A)
  | SetbenchError
  | Undefined
  | OutOfFuel.
Arguments Ok {A} a.
Arguments SetbenchError {A}.
Arguments Undefined {A}.
Arguments OutOfFuel {A}.

Definition res_bind {A B} (r : res A) (f : A → res B) : res B :=
  match r with
  | Ok a => f a
  | SetbenchError => SetbenchError | Undefined => Undefined | OutOfFuel => OutOfFuel
  end.

(** [G] is the state of the generator. *)
Definition prog (G A : Type) : Type := G * Random64 → res (A * (G * Random64)).

#[export] Instance prog_ret G : MRet (prog G) := λ A a st, Ok (a, st).
#[export] Instance prog_bind G : MBind (prog G) := λ A B f p st,
  match p st with
  | Ok (a, st) => f a st
  | SetbenchError => SetbenchError
  | Undefined => Undefined
  | OutOfFuel => OutOfFuel
  end.

Definition setbench_error {G A} : prog G A := λ _, SetbenchError.
Definition undefined {G A} : prog G A := λ _, Undefined.
Definition get_gen {G} : prog G G := λ st, Ok (st.1, st).
Definition put_gen {G} (g : G) : prog G () := λ st, Ok ((), (g, st.2)).

Definition of_option {G A} (o : option A) : prog G A :=
  match o with Some a => mret a | None => undefined end.

(** An array read; outside of the array it is undefined. *)
Definition at_index {G A} (l : list A) (i : Z) : prog G A := of_option (l !! Z.to_nat i).

Definition rng_next {G} : prog G Z := λ st, let '(v, r) := Random64_next st.2 in Ok (v, (st.1, r)).

(** [rng_.next(n)]: the remainder is undefined for [n = 0]. *)
Definition rng_next_below {G} (n : Z) : prog G Z :=
  if n =? 0 then undefined else v ← rng_next; mret (v `mod` n).

(** ** Distributions *)

(** [(double)rng_.next() / (double)rng_.max_value] of a drawn [v]. *)
Definition unit_of (v : Z) : double := d_of_Z v /ᵈ d_of_Z max_value.

Inductive Distribution :=
  | UniformDistribution (range_ : Z)
  | ZipfDistribution (last_range_ : Z) (area_ alpha_ : double)
  | SkewedUniformDistribution (hot_distribution_ cold_distribution_ : Distribution)
      (hot_prob_ : double) (hot_set_length_ : Z).

Inductive DistributionBuilder :=
  | UniformDistributionBuilder
  | ZipfianDistributionBuilder (alpha : double)
  | SkewedUniformDistributionBuilder (hotSize hotRatio : double)
      (hotDistBuilder coldDistBuilder : DistributionBuilder).

(** [get_hot_length]; [None] where the conversion to [size_t] is undefined. *)
Definition get_hot_length (hotSize : double) (range : Z) : option Z := scale range hotSize.

Definition get_cold_length (hotSize : double) (range : Z) : option Z :=
  h ← get_hot_length hotSize range; Some (range -₆₄ h).

Section Distributions.
  (** Rounds given to a rejecting loop. *)
  Variable fuel : nat.
  (** [log], [exp] and [pow] of [cmath]. *)
  Variables (log exp : double → double) (pow : double → double → double).
  (** What the memory of a new [ZipfDistribution] held: its constructor reads
      [last_range_] before any assignment. *)
  Variables (fresh_last_range : Z) (fresh_area : double).

(** [(z == 0) || (z == 1)] *)
Definition rejected (v : Z) : bool := (unit_of v =?ᵈ d_zero) || (unit_of v =?ᵈ d_one).

(** [do { z = next / max; } while ((z == 0) || (z == 1))]. *)
Fixpoint next_unit {G} (n : nat) : prog G double :=
  match n with
  | O => λ _, OutOfFuel
  | S n' =>
      v ← rng_next;
      if rejected v then next_unit n' else mret (unit_of v)
  end.

(** [zipf_value] for a drawn [z]. *)
Definition zipf_value (area_ alpha_ z : double) : option Z :=
  let s := area_ *ᵈ z in
  d_to_size (if alpha_ =?ᵈ d_one then exp s
             else pow (s *ᵈ (d_one -ᵈ alpha_) +ᵈ d_one) (d_one /ᵈ (d_one -ᵈ alpha_))).

Fixpoint dist_next {G} (d : Distribution) : prog G Z :=
  match d with
  | UniformDistribution range_ => rng_next_below range_
  | ZipfDistribution _ area_ alpha_ =>
      z ← next_unit fuel;
      k ← of_option (zipf_value area_ alpha_ z);
      mret (k -₆₄ 1)
  | SkewedUniformDistribution hot cold hot_prob_ hot_set_length_ =>
      z ← next_unit fuel;
      if z <?ᵈ hot_prob_ then dist_next hot
      else v ← dist_next cold; mret (hot_set_length_ +₆₄ v)
  end.

(** [set_range] of the mutable distributions. *)
Definition set_range (range : Z) (d : Distribution) : Distribution :=
  match d with
  | UniformDistribution _ => UniformDistribution range
  | ZipfDistribution last_range_ area_ alpha_ =>
      if last_range_ =? range then d
      else
        let n := d_of_Z (range +₆₄ 1) in
        ZipfDistribution range
          (if alpha_ =?ᵈ d_one then log n
           else (pow n (d_one -ᵈ alpha_) -ᵈ d_one) /ᵈ (d_one -ᵈ alpha_)) alpha_
  | SkewedUniformDistribution _ _ _ _ => d
  end.

Definition ZipfDistribution_make (alpha : double) (range : Z) : Distribution :=
  set_range range (ZipfDistribution fresh_last_range fresh_area alpha).

(** [build(rng, range)]. *)
Fixpoint build_dist (b : DistributionBuilder) (range : Z) : option Distribution :=
  match b with
  | UniformDistributionBuilder => Some (UniformDistribution range)
  | ZipfianDistributionBuilder alpha => Some (ZipfDistribution_make alpha range)
  | SkewedUniformDistributionBuilder hotSize hotRatio hotDistBuilder coldDistBuilder =>
      h ← get_hot_length hotSize range;
      hot ← build_dist hotDistBuilder h;
      c ← get_cold_length hotSize range;
      cold ← build_dist coldDistBuilder c;
      Some (SkewedUniformDistribution hot cold hotRatio h)
  end.

(** ** Data maps *)

(** The array of an [ArrayDataMap] is null if its builder was not initialised. *)
Inductive DataMap :=
  | IdDataMap
  | ArrayDataMap (data_ : option (list Z)).

Definition dm_get {G} (m : DataMap) (index : Z) : prog G Z :=
  match m with
  | IdDataMap => mret (s64 (index +₆₄ 1))
  | ArrayDataMap None => undefined
  | ArrayDataMap (Some data_) => at_index data_ index
  end.

Inductive DataMapBuilder :=
  | IdDataMapBuilder
  | ArrayDataMapBuilder (data_ : option (list Z)).

(** [std::shuffle] with an engine seeded from [std::random_device]. *)
Variable shuffle : list Z → list Z.

Definition dm_init (range : Z) (b : DataMapBuilder) : DataMapBuilder :=
  match b with
  | IdDataMapBuilder => IdDataMapBuilder
  | ArrayDataMapBuilder _ =>
      let data_ := for_range 0 range (λ i data_, data_.[i <- i + 1]) (replicate (Z.to_nat range) 0) in
      ArrayDataMapBuilder (Some (shuffle data_))
  end.

Definition dm_build (b : DataMapBuilder) : DataMap :=
  match b with
  | IdDataMapBuilder => IdDataMap
  | ArrayDataMapBuilder data_ => ArrayDataMap data_
  end.

(** ** A logic of computations *)

(** [fuel] draws in a row, at some point of the sequence, are all rejected. *)
Definition rejects (r : Random64) : Prop :=
  ∃ n, ∀ i, (i < fuel)%nat → rejected (Random64_next (after (n + i) r)).1 = true.

(** The computation returns with [Q], unless [fuel] draws in a row are rejected. The
    generator has then made some number of draws. *)
Definition spec {G A} (p : prog G A) (g : G) (r : Random64) (Q : A → G → Prop) : Prop :=
  match p (g, r) with
  | Ok (a, (g', r')) => Q a g' ∧ ∃ k, r' = after k r
  | OutOfFuel => rejects r
  | SetbenchError | Undefined => False
  end.

Lemma after_ok k : ∀ r, words_ok r → words_ok (after k r).
Proof. induction k as [|k IH]; intros r Hr; [done|]. by apply IH, Random64_next_ok. Qed.

Lemma after_add j : ∀ k r, after (j + k) r = after k (after j r).
Proof. induction j as [|j IH]; intros k r; [done|]. apply IH. Qed.

Lemma spec_ret {G A} (a : A) (g : G) r (Q : A → G → Prop) : Q a g → spec (mret a) g r Q.
Proof. intros HQ. split; [done|]. by exists 0%nat. Qed.

Lemma spec_bind_eq {G A B} (p : prog G A) (f : A → prog G B) g r Q R :
  words_ok r → spec p g r Q →
  (∀ a g' r', p (g, r) = Ok (a, (g', r')) → words_ok r' → Q a g' → spec (f a) g' r' R) → spec (p ≫= f) g r R.
Proof.
  unfold spec, mbind, prog_bind. intros Hr Hp Hf.
  destruct (p (g, r)) as [[a [g1 r1]]| | |]; try done. destruct Hp as [HQ [k ->]].
  specialize (Hf a g1 (after k r) eq_refl (after_ok k r Hr) HQ).
  destruct (f a (g1, after k r)) as [[b [g2 r2]]| | |]; try done.
  - destruct Hf as [HR [j ->]]. split; [done|]. exists (k + j)%nat. by rewrite after_add.
  - destruct Hf as [n Hn]. exists (k + n)%nat. intros i Hi. rewrite <-Nat.add_assoc, after_add. by apply Hn.
Qed.

Lemma spec_bind {G A B} (p : prog G A) (f : A → prog G B) g r Q R :
  words_ok r → spec p g r Q →
  (∀ a g' r', words_ok r' → Q a g' → spec (f a) g' r' R) → spec (p ≫= f) g r R.
Proof. intros Hr Hp Hf. apply spec_bind_eq with Q; [done..|]. intros a g' r' _. apply Hf. Qed.

Lemma spec_mono {G A} (p : prog G A) g r (Q R : A → G → Prop) :
  spec p g r Q → (∀ a g', Q a g' → R a g') → spec p g r R.
Proof.
  unfold spec. destruct (p (g, r)) as [[a [g1 r1]]| | |]; try done.
  intros [HQ Hk] HR. split; [by apply HR|done].
Qed.

Lemma spec_get {G} (g : G) r (Q : G → G → Prop) : Q g g → spec get_gen g r Q.
Proof. intros HQ. split; [done|]. by exists 0%nat. Qed.

Lemma spec_put {G} (g g' : G) r (Q : () → G → Prop) : Q () g' → spec (put_gen g') g r Q.
Proof. intros HQ. split; [done|]. by exists 0%nat. Qed.

Lemma spec_at {G A} (l : list A) i x (g : G) r (Q : A → G → Prop) :
  l !! Z.to_nat i = Some x → Q x g → spec (at_index l i) g r Q.
Proof. intros Hl HQ. unfold at_index. rewrite Hl. by apply spec_ret. Qed.

Lemma spec_rng_next {G} (g : G) r (Q : Z → G → Prop) :
  words_ok r → (∀ v, 0 ≤ v < max_value → Q v g) → spec rng_next g r Q.
Proof.
  intros Hr HQ. unfold spec, rng_next. cbn [fst snd].
  pose proof (Random64_draw_range r Hr) as Hv. destruct (Random64_next r) as [v r'] eqn:Hn.
  split; [by apply HQ|]. exists 1%nat. cbn [after]. by rewrite Hn.
Qed.

Lemma spec_rng_next_below {G} n (g : G) r (Q : Z → G → Prop) :
  words_ok r → 0 < n → (∀ v, 0 ≤ v < n → Q v g) → spec (rng_next_below n) g r Q.
Proof.
  intros Hr Hn HQ. unfold rng_next_below. destruct (Z.eqb_spec n 0); [lia|].
  apply spec_bind with (λ v g', g' = g); [done|by apply spec_rng_next|].
  intros v g' r' _ ->. apply spec_ret, HQ, Z.mod_pos_bound. lia.
Qed.

(** The loop needs more rounds than it has only if it rejects that many draws. *)
Lemma spec_next_unit {G} (g : G) r (Q : double → G → Prop) :
  words_ok r → (∀ v, 0 ≤ v < max_value → Q (unit_of v) g) → spec (next_unit fuel) g r Q.
Proof.
  intros Hr HQ. assert (∀ n k, (k + n = fuel)%nat →
    (∀ i, (i < k)%nat → rejected (Random64_next (after i r)).1 = true) →
    match next_unit n (g, after k r) with
    | Ok (a, (g', r')) => Q a g' ∧ ∃ k, r' = after k r
    | OutOfFuel => rejects r
    | _ => False
    end) as Hloop; [|apply (Hloop fuel 0%nat); [done|lia]].
  induction n as [|n IH]; intros k Hk Hrej; cbn [next_unit].
  - exists 0%nat. intros i Hi. apply Hrej. lia.
  - unfold mbind, prog_bind, rng_next. cbn [fst snd].
    pose proof (Random64_draw_range _ (after_ok k r Hr)) as Hv.
    assert ((Random64_next (after k r)).2 = after (S k) r) as Hn
      by (by rewrite <-Nat.add_1_r, after_add).
    destruct (Random64_next (after k r)) as [v r'] eqn:Hd. cbn [snd] in Hn. subst r'.
    destruct (rejected v) eqn:Hrv.
    + apply (IH (S k)); [lia|]. intros i Hi. destruct (decide (i = k)) as [->|]; [by rewrite Hd|].
      apply Hrej. lia.
    + split; [by apply HQ|]. by exists (S k).
Qed.

(** ** Distributions stay in their range *)

(** [d] has been built for indices below [n]. A Zipf distribution has no such bound:
    rounded, its largest draw can be the range itself ([zipf_exceeds]). *)
Fixpoint dist_below (n : Z) (d : Distribution) : Prop :=
  match d with
  | UniformDistribution range_ => 0 < range_ ≤ n
  | ZipfDistribution _ _ _ => False
  | SkewedUniformDistribution hot cold _ hot_set_length_ =>
      dist_below n hot ∧ 0 ≤ hot_set_length_ ∧ dist_below (n - hot_set_length_) cold
  end.

Lemma dist_next_below {G} d : ∀ n (g : G) r (Q : Z → G → Prop),
  n ≤ modulus64 → dist_below n d → words_ok r → (∀ v, 0 ≤ v < n → Q v g) → spec (dist_next d) g r Q.
Proof.
  induction d as [range_| |hot IHh cold IHc p h]; intros n g r Q Hn Hd Hr HQ; simpl in Hd; [|done|];
    cbn [dist_next].
  - apply spec_rng_next_below; [done|lia|]. intros v Hv. apply HQ. lia.
  - destruct Hd as (Hhot & Hh & Hcold).
    apply spec_bind with (λ z g', g' = g); [done|by apply spec_next_unit|].
    intros z g' r' Hr' ->. destruct (_ <?ᵈ _); [by apply (IHh n)|].
    apply spec_bind with (λ v g', 0 ≤ v < n - h ∧ g' = g); [done| |].
    { by apply (IHc (n - h)); [lia|..]. }
    intros v g' r'' _ [Hv ->]. apply spec_ret, HQ. rewrite u64_add_small; lia.
Qed.

(** A Zipf distribution built for 24 indices ([alpha] is 1/2) can draw the index 24,
    although [pow] is exact: the largest unit below one is lost when 1 is added, and
    the draw is [pow(5, 2) - 1]. *)
Lemma zipf_exceeds :
  fresh_last_range ≠ 24 → pow (d_of_Z 25) (d_lit 1 2) = d_of_Z 5 → pow (d_of_Z 5) (d_of_Z 2) = d_of_Z 25 →
  let v := max_value - 1 in
  rejected v = false ∧
  ∃ area, ZipfDistribution_make (d_lit 1 2) 24 = ZipfDistribution 24 area (d_lit 1 2) ∧
    zipf_value area (d_lit 1 2) (unit_of v) = Some (24 + 1).
Proof.
  intros Hl H25 H5 v. split; [by vm_compute|]. unfold ZipfDistribution_make, set_range.
  destruct (Z.eqb_spec fresh_last_range 24); [done|].
  assert (d_lit 1 2 =?ᵈ d_one = false) as -> by by vm_compute.
  assert (d_of_Z (24 +₆₄ 1) = d_of_Z 25) as -> by by vm_compute.
  assert (d_one -ᵈ d_lit 1 2 = d_lit 1 2) as Hhalf by by vm_compute. rewrite Hhalf, H25.
  eexists. split; [done|]. unfold zipf_value.
  assert (d_lit 1 2 =?ᵈ d_one = false) as -> by by vm_compute. rewrite Hhalf.
  assert ((((d_of_Z 5 -ᵈ d_one) /ᵈ d_lit 1 2) *ᵈ unit_of v) *ᵈ d_lit 1 2 +ᵈ d_one = d_of_Z 5) as -> by by vm_compute.
  assert (d_one /ᵈ d_lit 1 2 = d_of_Z 2) as -> by by vm_compute. rewrite H5. by vm_compute.
Qed.

(** What a builder must be given: uniform parts, none of them empty. *)
Fixpoint builder_ok (range : Z) (b : DistributionBuilder) : Prop :=
  match b with
  | UniformDistributionBuilder => 0 < range
  | ZipfianDistributionBuilder _ => False
  | SkewedUniformDistributionBuilder hotSize _ hot cold =>
      is_fraction hotSize ∧
      ∀ h, get_hot_length hotSize range = Some h → builder_ok h hot ∧ builder_ok (range - h) cold
  end.

Lemma dist_below_mono d : ∀ n m, n ≤ m → dist_below n d → dist_below m d.
Proof.
  induction d as [| |hot IHh cold IHc p h]; intros n m Hle; simpl; [lia|done|].
  intros (? & ? & ?). split_and!; [by apply (IHh n)|done|apply (IHc (n - h)); [lia|done]].
Qed.

Lemma build_dist_below b : ∀ range, 0 ≤ range < 2 ^ 53 → builder_ok range b →
  ∃ d, build_dist b range = Some d ∧ dist_below range d.
Proof.
  induction b as [| |hs hr hot IHh cold IHc]; intros range Hr Hb; simpl in Hb; [|done|];
    cbn [build_dist].
  - eexists. split; [done|]. simpl. lia.
  - destruct Hb as [Hf Hb]. destruct (scale_bound range hs Hr Hf) as (h & Hh & Hle).
    destruct (Hb h Hh) as [Hhot Hcold]. unfold get_cold_length.
    change (get_hot_length hs range) with (scale range hs) in *. rewrite Hh. simpl.
    destruct (IHh h ltac:(lia) Hhot) as (dh & -> & Hdh). simpl.
    rewrite u64_sub_small by (rewrite modulus64_val; lia).
    destruct (IHc (range - h) ltac:(lia) Hcold) as (dc & -> & Hdc). simpl.
    eexists. split; [done|]. simpl. split_and!; [apply (dist_below_mono _ h); [lia|done]|lia|done].
Qed.

(** ** Data maps *)

Context (shuffle_perm : ∀ l, shuffle l ≡ₚ l).

(** The keys of the indices below [n] are [1 .. n]. *)
Definition dm_ok (n : Z) (m : DataMap) : Prop :=
  match m with
  | IdDataMap => n < 2 ^ 63
  | ArrayDataMap data_ => ∃ l, data_ = Some l ∧ l ≡ₚ seqZ 1 n
  end.

Lemma dm_get_ok {G} m n i (g : G) r (Q : Z → G → Prop) :
  dm_ok n m → 0 ≤ i < n → (∀ k, 1 ≤ k ≤ n → Q k g) → spec (dm_get m i) g r Q.
Proof.
  intros Hm Hi HQ. destruct m as [|data_]; simpl in *.
  - apply spec_ret, HQ. rewrite u64_add_small by (rewrite modulus64_val; lia).
    unfold s64. rewrite modulus64_val, Z.mod_small; lia.
  - destruct Hm as (l & -> & Hl). assert (len l = n) as Hlen.
    { unfold len. rewrite (Permutation_length Hl), length_seqZ. lia. }
    apply (spec_at l i (l.[i])); [apply get_lookup; lia|]. apply HQ.
    assert (l.[i] ∈ l) as Hin by (eapply list_elem_of_lookup_2, get_lookup; lia).
    revert Hin. generalize (l.[i]). intros k Hin. rewrite Hl, elem_of_seqZ in Hin. lia.
Qed.

Lemma init_loop range :
  0 ≤ range →
  for_range 0 range (λ i data_, data_.[i <- i + 1]) (replicate (Z.to_nat range) 0) = seqZ 1 range.
Proof.
  intros Hr.
  pose proof (for_range_inv (λ i data_, len data_ = range ∧ ∀ j, 0 ≤ j < i → data_.[j] = j + 1) 0 range
    (λ i data_, data_.[i <- i + 1]) (replicate (Z.to_nat range) 0) Hr) as Hinv.
  destruct Hinv as [Hlen Hget].
  - split; [rewrite len_replicate; lia|lia].
  - intros i l Hi [Hl Hj]. split; [by rewrite len_set|]. intros j Hj'. rewrite get_set by lia.
    destruct (Z.eqb_spec i j) as [->|]; [done|]. apply Hj. lia.
  - apply arr_ext; [rewrite len_seqZ; lia|]. intros i Hi. rewrite Hget, get_seqZ by lia. lia.
Qed.

Lemma dm_build_ok n b : 0 ≤ n < 2 ^ 63 → dm_ok n (dm_build (dm_init n b)).
Proof.
  intros Hn. destruct b; simpl; [lia|]. eexists. split; [done|]. by rewrite init_loop, shuffle_perm by lia.
Qed.

End Distributions.
