(* ===== verification/Args.v ===== *)
(** The generators of arguments of the SetBench microbenchmark
    ([Benchmark-v700/cpp/microbench/workloads/args_generators]).

    A thread loop asks its [ArgsGenerator] for the key or the interval of its next
    operation. [ArgsGenerator] is the class of the four methods, and every generator
    is an instance. A builder is a record with its [init] and its [build]; the
    setters, which assign one field, and the JSON conversions are left out. *)
From S2P Require Import Double Fraction Rng Distributions Prelude.

Inductive oper := OGet | OInsert | ORemove | ORange.

#[export] Instance oper_eq_dec : EqDecision oper.
Proof. solve_decision. Defined.

Class ArgsGenerator (G : Type) := {
  next_get : prog G Z;
  next_insert : prog G Z;
  next_remove : prog G Z;
  next_range : prog G (Z * Z)
}.

(** [if (left > right) std::swap(left, right); return {left, right};] *)
Definition ordered (left right : Z) : Z * Z := if right <? left then (right, left) else (left, right).

(** ** The objects *)

Inductive NullArgsGenerator := NullArgs.

Record DefaultArgsGenerator := { def_distribution_ : Distribution; def_data_ : DataMap }.

Record RangeQueryArgsGenerator := {
  rq_distribution_ : Distribution;
  rq_data_ : DataMap;
  rq_interval_ : Z
}.

Record MovingWindowRangeArgsGenerator := {
  mw_data_map_ : DataMap;
  mw_window_begins_ : list Z;
  mw_window_size_ : Z;
  mw_interval_ : Z;
  mw_stage_duration_ : Z;
  mw_stage_index_ : Z;
  mw_stage_operation_ : Z
}.

Record SkewedSetsArgsGenerator := {
  ss_range_ : Z;
  ss_write_set_begins_ : Z;
  ss_read_dist_ : Distribution;
  ss_write_dist_ : Distribution;
  ss_data_map_ : DataMap
}.

Record SkewedInsertArgsGenerator := {
  si_skewed_length_ : Z;
  si_inserted_number_ : Z;
  si_distribution_ : Distribution;
  si_data_map_ : DataMap
}.

Record CreakersAndWavePrefillArgsGenerator := {
  cp_data_map_ : DataMap;
  cp_wave_begin_ : Z;
  cp_prefill_length_ : Z
}.

Record TemporarySkewedArgsGenerator := {
  ts_time_ : Z;
  ts_pointer_ : Z;
  ts_is_relax_time_ : bool;
  ts_hot_dists_ : list Distribution;
  ts_relax_dist_ : Distribution;
  ts_data_map_ : DataMap;
  ts_hot_times_ : list Z;
  ts_relax_times_ : list Z;
  ts_set_begins_ : list Z;
  ts_set_number_ : Z;
  ts_range_ : Z
}.

(** ** Their methods *)

#[export] Instance null_args : ArgsGenerator NullArgsGenerator := {|
  next_get := setbench_error; next_insert := setbench_error;
  next_remove := setbench_error; next_range := setbench_error
|}.

Section Generators.
  Variables (fuel : nat) (exp : double → double) (pow : double → double → double).

  #[local] Abbreviation dist_next := (dist_next fuel exp pow).

Definition default_next : prog DefaultArgsGenerator Z :=
  g ← get_gen; index ← dist_next (def_distribution_ g); dm_get (def_data_ g) index.

#[export] Instance default_args : ArgsGenerator DefaultArgsGenerator := {|
  next_get := default_next;
  next_insert := default_next;
  next_remove := default_next;
  next_range := left ← default_next; right ← default_next; mret (ordered left right)
|}.

#[export] Instance range_query_args : ArgsGenerator RangeQueryArgsGenerator := {|
  next_get := setbench_error;
  next_insert := setbench_error;
  next_remove := setbench_error;
  next_range :=
    g ← get_gen;
    index ← dist_next (rq_distribution_ g);
    left ← dm_get (rq_data_ g) index;
    right ← dm_get (rq_data_ g) (index +₆₄ rq_interval_ g);
    mret (ordered left right)
|}.

Definition MovingWindow_make (data_map : DataMap) (window_begins : list Z)
    (window_size interval stage_duration : Z) : MovingWindowRangeArgsGenerator :=
  {| mw_data_map_ := data_map; mw_window_begins_ := window_begins;
     mw_window_size_ := Z.max window_size (interval +₆₄ 1); mw_interval_ := interval;
     mw_stage_duration_ := Z.max stage_duration 1; mw_stage_index_ := 0; mw_stage_operation_ := 0 |}.

Definition at_stage (index operation : Z) (g : MovingWindowRangeArgsGenerator) :=
  {| mw_data_map_ := mw_data_map_ g; mw_window_begins_ := mw_window_begins_ g;
     mw_window_size_ := mw_window_size_ g; mw_interval_ := mw_interval_ g;
     mw_stage_duration_ := mw_stage_duration_ g;
     mw_stage_index_ := index; mw_stage_operation_ := operation |}.

(** The number of windows is positive; the remainder of [0] would be undefined. *)
Definition advance_stage (g : MovingWindowRangeArgsGenerator) : MovingWindowRangeArgsGenerator :=
  let operation := mw_stage_operation_ g +₆₄ 1 in
  if operation <? mw_stage_duration_ g then at_stage (mw_stage_index_ g) operation g
  else at_stage ((mw_stage_index_ g +₆₄ 1) `mod` len (mw_window_begins_ g)) 0 g.

#[export] Instance moving_window_args : ArgsGenerator MovingWindowRangeArgsGenerator := {|
  next_get := setbench_error;
  next_insert := setbench_error;
  next_remove := setbench_error;
  next_range :=
    g ← get_gen;
    let offset_range := Z.max (mw_window_size_ g -₆₄ mw_interval_ g) 1 in
    begin ← at_index (mw_window_begins_ g) (mw_stage_index_ g);
    offset ← rng_next_below offset_range;
    let left_index := begin +₆₄ offset in
    let right_index := left_index +₆₄ mw_interval_ g in
    _ ← put_gen (advance_stage g);
    left ← dm_get (mw_data_map_ g) left_index;
    right ← dm_get (mw_data_map_ g) right_index;
    mret (ordered left right)
|}.

Definition skewed_sets_get : prog SkewedSetsArgsGenerator Z :=
  g ← get_gen; index ← dist_next (ss_read_dist_ g); dm_get (ss_data_map_ g) index.

Definition skewed_sets_write : prog SkewedSetsArgsGenerator Z :=
  g ← get_gen;
  v ← dist_next (ss_write_dist_ g);
  let index := ss_write_set_begins_ g +₆₄ v in
  let index := if ss_range_ g <=? index then index -₆₄ ss_range_ g else index in
  dm_get (ss_data_map_ g) index.

#[export] Instance skewed_sets_args : ArgsGenerator SkewedSetsArgsGenerator := {|
  next_get := skewed_sets_get;
  next_insert := skewed_sets_write;
  next_remove := skewed_sets_write;
  next_range := left ← skewed_sets_get; right ← skewed_sets_get; mret (ordered left right)
|}.

#[export] Instance skewed_insert_args : ArgsGenerator SkewedInsertArgsGenerator := {|
  next_get := setbench_error;
  next_insert :=
    g ← get_gen;
    if si_inserted_number_ g <? si_skewed_length_ g then
      _ ← put_gen {| si_skewed_length_ := si_skewed_length_ g;
                     si_inserted_number_ := si_inserted_number_ g +₆₄ 1;
                     si_distribution_ := si_distribution_ g; si_data_map_ := si_data_map_ g |};
      dm_get (si_data_map_ g) (si_inserted_number_ g)
    else
      v ← dist_next (si_distribution_ g);
      dm_get (si_data_map_ g) (si_skewed_length_ g +₆₄ v);
  next_remove := setbench_error;
  next_range := setbench_error
|}.

#[export] Instance creakers_prefill_args : ArgsGenerator CreakersAndWavePrefillArgsGenerator := {|
  next_get := setbench_error;
  next_insert :=
    g ← get_gen;
    offset ← rng_next_below (cp_prefill_length_ g);
    dm_get (cp_data_map_ g) (cp_wave_begin_ g +₆₄ offset);
  next_remove := setbench_error;
  next_range := setbench_error
|}.

Definition at_time (time pointer : Z) (relax : bool) (g : TemporarySkewedArgsGenerator) :=
  {| ts_time_ := time; ts_pointer_ := pointer; ts_is_relax_time_ := relax;
     ts_hot_dists_ := ts_hot_dists_ g; ts_relax_dist_ := ts_relax_dist_ g;
     ts_data_map_ := ts_data_map_ g; ts_hot_times_ := ts_hot_times_ g;
     ts_relax_times_ := ts_relax_times_ g; ts_set_begins_ := ts_set_begins_ g;
     ts_set_number_ := ts_set_number_ g; ts_range_ := ts_range_ g |}.

(** [time_ >= hot_times_[pointer_]] converts the [int64_t] to [size_t]. *)
Definition update_pointer : prog TemporarySkewedArgsGenerator () :=
  g ← get_gen;
  g ← (if ts_is_relax_time_ g then
         t ← at_index (ts_relax_times_ g) (ts_pointer_ g);
         if u64 t <=? ts_time_ g then
           let pointer := ts_pointer_ g +₆₄ 1 in
           mret (at_time 0 (if ts_set_number_ g <=? pointer then 0 else pointer) false g)
         else mret g
       else
         t ← at_index (ts_hot_times_ g) (ts_pointer_ g);
         if u64 t <=? ts_time_ g then mret (at_time 0 (ts_pointer_ g) true g) else mret g);
  put_gen (at_time (ts_time_ g +₆₄ 1) (ts_pointer_ g) (ts_is_relax_time_ g) g).

Definition temporary_next : prog TemporarySkewedArgsGenerator Z :=
  _ ← update_pointer;
  g ← get_gen;
  if ts_is_relax_time_ g then
    index ← dist_next (ts_relax_dist_ g); dm_get (ts_data_map_ g) index
  else
    begin ← at_index (ts_set_begins_ g) (ts_pointer_ g);
    hot ← at_index (ts_hot_dists_ g) (ts_pointer_ g);
    v ← dist_next hot;
    let index := begin +₆₄ v in
    let index := if ts_range_ g <=? index then index -₆₄ ts_range_ g else index in
    dm_get (ts_data_map_ g) index.

#[export] Instance temporary_skewed_args : ArgsGenerator TemporarySkewedArgsGenerator := {|
  next_get := temporary_next;
  next_insert := temporary_next;
  next_remove := temporary_next;
  next_range :=
    g ← get_gen;
    _ ← put_gen (at_time (ts_time_ g -₆₄ 1) (ts_pointer_ g) (ts_is_relax_time_ g) g);
    left ← temporary_next;
    right ← temporary_next;
    mret (ordered left right)
|}.

End Generators.

(** ** The builders *)

Record DefaultArgsGeneratorBuilder := {
  db_range_ : Z;
  distributionBuilder : DistributionBuilder;
  dataMapBuilder : DataMapBuilder
}.

Record RangeQueryArgsGeneratorBuilder := {
  rb_range_ : Z;
  rb_interval_ : Z;
  rb_distributionBuilder : DistributionBuilder;
  rb_dataMapBuilder : DataMapBuilder
}.

Record MovingWindowRangeArgsGeneratorBuilder := {
  mb_range_ : Z;
  mb_window_size_ : Z;
  mb_interval_ : Z;
  mb_stage_duration_ : Z;
  mb_window_begin_fractions_ : list double;
  mb_window_begins_ : list Z;
  mb_data_map_builder_ : DataMapBuilder
}.

(** A pointer to a [SkewedUniformDistributionBuilder]. *)
Record SkewedBuilder := {
  sk_hotSize : double;
  sk_hotRatio : double;
  sk_hotDistBuilder : DistributionBuilder;
  sk_coldDistBuilder : DistributionBuilder
}.

Definition skewed (b : SkewedBuilder) : DistributionBuilder :=
  SkewedUniformDistributionBuilder (sk_hotSize b) (sk_hotRatio b) (sk_hotDistBuilder b) (sk_coldDistBuilder b).

#[export] Instance skewed_builder_inhabited : Inhabited SkewedBuilder :=
  populate {| sk_hotSize := d_zero; sk_hotRatio := d_zero;
              sk_hotDistBuilder := UniformDistributionBuilder;
              sk_coldDistBuilder := UniformDistributionBuilder |}.

Record SkewedSetsArgsGeneratorBuilder := {
  sb_range_ : Z;
  sb_read_dist_builder_ : SkewedBuilder;
  sb_write_dist_builder_ : SkewedBuilder;
  sb_data_map_builder_ : DataMapBuilder;
  sb_intersection_ : double;
  sb_write_set_begins_ : Z
}.

Record SkewedInsertArgsGeneratorBuilder := {
  ib_range_ : Z;
  ib_dist_builder_ : DistributionBuilder;
  ib_data_map_builder_ : DataMapBuilder;
  ib_skewed_size_ : double;
  ib_skewed_length_ : Z
}.

Record CreakersAndWavePrefillArgsGeneratorBuilder := {
  pb_wave_begin_ : Z;
  pb_prefill_length_ : Z;
  pb_creakers_size_ : double;
  pb_wave_size_ : double;
  pb_data_map_builder_ : DataMapBuilder
}.

Record TemporarySkewedArgsGeneratorBuilder := {
  tb_range_ : Z;
  tb_set_number_ : Z;
  tb_hot_dist_builders_ : list SkewedBuilder;
  tb_relax_dist_builder_ : DistributionBuilder;
  tb_hot_times_ : list Z;
  tb_relax_times_ : list Z;
  tb_default_hot_time_ : Z;
  tb_default_relax_time_ : Z;
  tb_manual_setting_set_begins_ : bool;
  tb_set_begins_ : list double;
  tb_set_begin_indexes_ : list Z;
  tb_data_map_builder_ : DataMapBuilder
}.

Section Builders.
  Variables (log : double → double) (pow : double → double → double).
  Variables (fresh_last_range : Z) (fresh_area : double).

  #[local] Abbreviation build_dist := (build_dist log pow fresh_last_range fresh_area).

(** *** [init] *)

Definition default_init (range : Z) (b : DefaultArgsGeneratorBuilder) : DefaultArgsGeneratorBuilder :=
  {| db_range_ := range; distributionBuilder := distributionBuilder b; dataMapBuilder := dataMapBuilder b |}.

Definition range_query_init (range : Z) (b : RangeQueryArgsGeneratorBuilder) :
    RangeQueryArgsGeneratorBuilder :=
  {| rb_range_ := range; rb_interval_ := rb_interval_ b;
     rb_distributionBuilder := rb_distributionBuilder b; rb_dataMapBuilder := rb_dataMapBuilder b |}.

(** One round of the loop over [window_begin_fractions_]. *)
Definition window_begin (max_begin : Z) (fraction : double) : option Z :=
  scale max_begin (d_clamp fraction d_zero d_one).

Definition moving_window_init (range : Z) (b : MovingWindowRangeArgsGeneratorBuilder) :
    option MovingWindowRangeArgsGeneratorBuilder :=
  let range_ := Z.max range 1 in
  let window_size_ := Z.min (Z.max (mb_window_size_ b) (mb_interval_ b +₆₄ 1)) range_ in
  let max_begin := range_ -₆₄ window_size_ in
  begins ← mapM (window_begin max_begin) (mb_window_begin_fractions_ b);
  Some {| mb_range_ := range_; mb_window_size_ := window_size_; mb_interval_ := mb_interval_ b;
          mb_stage_duration_ := mb_stage_duration_ b;
          mb_window_begin_fractions_ := mb_window_begin_fractions_ b;
          mb_window_begins_ := if begins is [] then [0] else begins;
          mb_data_map_builder_ := mb_data_map_builder_ b |}.

(** The difference of a [size_t] and a [double], converted back to [size_t]. *)
Definition skewed_sets_init (range : Z) (b : SkewedSetsArgsGeneratorBuilder) :
    option SkewedSetsArgsGeneratorBuilder :=
  h ← get_hot_length (sk_hotSize (sb_read_dist_builder_ b)) range;
  begins ← d_to_size (d_of_Z h -ᵈ d_of_Z range *ᵈ sb_intersection_ b);
  Some {| sb_range_ := range; sb_read_dist_builder_ := sb_read_dist_builder_ b;
          sb_write_dist_builder_ := sb_write_dist_builder_ b;
          sb_data_map_builder_ := sb_data_map_builder_ b; sb_intersection_ := sb_intersection_ b;
          sb_write_set_begins_ := begins |}.

Definition skewed_insert_init (range : Z) (b : SkewedInsertArgsGeneratorBuilder) :
    option SkewedInsertArgsGeneratorBuilder :=
  l ← scale range (ib_skewed_size_ b);
  Some {| ib_range_ := range; ib_dist_builder_ := ib_dist_builder_ b;
          ib_data_map_builder_ := ib_data_map_builder_ b; ib_skewed_size_ := ib_skewed_size_ b;
          ib_skewed_length_ := l |}.

Definition creakers_prefill_init (range : Z) (b : CreakersAndWavePrefillArgsGeneratorBuilder) :
    option CreakersAndWavePrefillArgsGeneratorBuilder :=
  l ← d_to_size (d_of_Z range *ᵈ pb_creakers_size_ b +ᵈ d_of_Z range *ᵈ pb_wave_size_ b);
  Some {| pb_wave_begin_ := range -₆₄ l; pb_prefill_length_ := l;
          pb_creakers_size_ := pb_creakers_size_ b; pb_wave_size_ := pb_wave_size_ b;
          pb_data_map_builder_ := pb_data_map_builder_ b |}.

(** [times[i] == -1] means the default. *)
Definition default_times (n default : Z) (times : list Z) : list Z :=
  for_range 0 n (λ i times, if times.[i] =? -1 then times.[i <- default] else times) times.

Definition set_begins (range : Z) (b : TemporarySkewedArgsGeneratorBuilder) : option (list Z) :=
  if tb_manual_setting_set_begins_ b then
    for_opt 0 (tb_set_number_ b)
      (λ i l, v ← scale range (tb_set_begins_ b).[i]; Some (l ++ [v])) []
  else
    '(l, _) ← for_opt 0 (tb_set_number_ b)
      (λ i '(l, cur_index),
         h ← get_hot_length (sk_hotSize (tb_hot_dist_builders_ b).[i]) range;
         Some (l ++ [cur_index], cur_index +₆₄ h)) ([], 0);
    Some l.

Definition temporary_skewed_init (range : Z) (b : TemporarySkewedArgsGeneratorBuilder) :
    option TemporarySkewedArgsGeneratorBuilder :=
  begins ← set_begins range b;
  Some {| tb_range_ := range; tb_set_number_ := tb_set_number_ b;
          tb_hot_dist_builders_ := tb_hot_dist_builders_ b;
          tb_relax_dist_builder_ := tb_relax_dist_builder_ b;
          tb_hot_times_ := default_times (tb_set_number_ b) (tb_default_hot_time_ b) (tb_hot_times_ b);
          tb_relax_times_ :=
            default_times (tb_set_number_ b) (tb_default_relax_time_ b) (tb_relax_times_ b);
          tb_default_hot_time_ := tb_default_hot_time_ b;
          tb_default_relax_time_ := tb_default_relax_time_ b;
          tb_manual_setting_set_begins_ := tb_manual_setting_set_begins_ b;
          tb_set_begins_ := tb_set_begins_ b; tb_set_begin_indexes_ := begins;
          tb_data_map_builder_ := tb_data_map_builder_ b |}.

(** *** [build] *)

Definition default_build (b : DefaultArgsGeneratorBuilder) : option DefaultArgsGenerator :=
  d ← build_dist (distributionBuilder b) (db_range_ b);
  Some {| def_distribution_ := d; def_data_ := dm_build (dataMapBuilder b) |}.

Definition range_query_build (b : RangeQueryArgsGeneratorBuilder) : option RangeQueryArgsGenerator :=
  let start_range := if rb_interval_ b <? rb_range_ b then rb_range_ b -₆₄ rb_interval_ b else 1 in
  d ← build_dist (rb_distributionBuilder b) start_range;
  Some {| rq_distribution_ := d; rq_data_ := dm_build (rb_dataMapBuilder b);
          rq_interval_ := rb_interval_ b |}.

Definition moving_window_build (b : MovingWindowRangeArgsGeneratorBuilder) :
    MovingWindowRangeArgsGenerator :=
  MovingWindow_make (dm_build (mb_data_map_builder_ b)) (mb_window_begins_ b) (mb_window_size_ b)
    (mb_interval_ b) (mb_stage_duration_ b).

Definition skewed_sets_build (b : SkewedSetsArgsGeneratorBuilder) : option SkewedSetsArgsGenerator :=
  rd ← build_dist (skewed (sb_read_dist_builder_ b)) (sb_range_ b);
  wd ← build_dist (skewed (sb_write_dist_builder_ b)) (sb_range_ b);
  Some {| ss_range_ := sb_range_ b; ss_write_set_begins_ := sb_write_set_begins_ b;
          ss_read_dist_ := rd; ss_write_dist_ := wd; ss_data_map_ := dm_build (sb_data_map_builder_ b) |}.

Definition skewed_insert_build (b : SkewedInsertArgsGeneratorBuilder) : option SkewedInsertArgsGenerator :=
  d ← build_dist (ib_dist_builder_ b) (ib_range_ b -₆₄ ib_skewed_length_ b);
  Some {| si_skewed_length_ := ib_skewed_length_ b; si_inserted_number_ := 0;
          si_distribution_ := d; si_data_map_ := dm_build (ib_data_map_builder_ b) |}.

Definition creakers_prefill_build (b : CreakersAndWavePrefillArgsGeneratorBuilder) :
    CreakersAndWavePrefillArgsGenerator :=
  {| cp_data_map_ := dm_build (pb_data_map_builder_ b); cp_wave_begin_ := pb_wave_begin_ b;
     cp_prefill_length_ := pb_prefill_length_ b |}.

Definition temporary_skewed_build (b : TemporarySkewedArgsGeneratorBuilder) :
    option TemporarySkewedArgsGenerator :=
  hot_dists ← for_opt 0 (tb_set_number_ b)
    (λ i l, d ← build_dist (skewed (tb_hot_dist_builders_ b).[i]) (tb_range_ b); Some (l ++ [d])) [];
  relax ← build_dist (tb_relax_dist_builder_ b) (tb_range_ b);
  Some {| ts_time_ := 0; ts_pointer_ := 0; ts_is_relax_time_ := false; ts_hot_dists_ := hot_dists;
          ts_relax_dist_ := relax; ts_data_map_ := dm_build (tb_data_map_builder_ b);
          ts_hot_times_ := tb_hot_times_ b; ts_relax_times_ := tb_relax_times_ b;
          ts_set_begins_ := tb_set_begin_indexes_ b; ts_set_number_ := tb_set_number_ b;
          ts_range_ := tb_range_ b |}.

End Builders.
