(* ===== verification/ArgsLaws.v ===== *)
(** What the generators of arguments promise.

    [ArgsGeneratorOk] is what a thread loop may rely on: with the operations that a
    generator supports it returns keys of [[1, n]], where [n] is the range of the
    benchmark. Every generator of [Args] is an instance; its good states have uniform or
    skewed-uniform distributions. A lemma per builder shows that [init] and [build] give
    a generator in a good state. The moving window has in addition an exact schedule. *)
From S2P Require Import Double Fraction Rng Distributions Args Prelude.

(** ** What a generator promises *)

Section Laws.
  Variables (fuel : nat) (exp : double → double) (pow : double → double → double).

  #[local] Abbreviation spec := (spec fuel).

(** [gen_ok n ops g]: [g] supports the operations [ops] on the keys [[1, n]]. It stays
    so, and a method of [ops] returns such keys unless [fuel] draws in a row are
    rejected by a loop that rejects draws. *)
Class ArgsGeneratorOk (G : Type) `{ArgsGenerator G} := {
  gen_ok : Z → (oper → bool) → G → Prop;
  next_get_ok n ops g r : gen_ok n ops g → ops OGet = true → words_ok r →
    spec next_get g r (λ k g', 1 ≤ k ≤ n ∧ gen_ok n ops g');
  next_insert_ok n ops g r : gen_ok n ops g → ops OInsert = true → words_ok r →
    spec next_insert g r (λ k g', 1 ≤ k ≤ n ∧ gen_ok n ops g');
  next_remove_ok n ops g r : gen_ok n ops g → ops ORemove = true → words_ok r →
    spec next_remove g r (λ k g', 1 ≤ k ≤ n ∧ gen_ok n ops g');
  next_range_ok n ops g r : gen_ok n ops g → ops ORange = true → words_ok r →
    spec next_range g r (λ p g', 1 ≤ p.1 ≤ p.2 ∧ p.2 ≤ n ∧ gen_ok n ops g')
}.

(** Operations that a generator of inserts, or of ranges, supports. *)
Definition only (o : oper) (ops : oper → bool) : Prop := ∀ o', ops o' = true → o' = o.

Lemma only_not o ops o' (P : Prop) : only o ops → ops o' = true → o' ≠ o → P.
Proof. intros Ho Ho' Hne. by apply Ho in Ho'. Qed.

Lemma ordered_ok n l h : 1 ≤ l ≤ n → 1 ≤ h ≤ n → 1 ≤ (ordered l h).1 ≤ (ordered l h).2 ∧ (ordered l h).2 ≤ n.
Proof. intros Hl Hh. unfold ordered. zbool; simpl; lia. Qed.

(** Two keys in a row, in order. *)
Lemma spec_pair {G} (next : prog G Z) n (I : G → Prop) g r :
  words_ok r → I g →
  (∀ g r, words_ok r → I g → spec next g r (λ k g', 1 ≤ k ≤ n ∧ I g')) →
  spec (left ← next; right ← next; mret (ordered left right)) g r
    (λ p g', 1 ≤ p.1 ≤ p.2 ∧ p.2 ≤ n ∧ I g').
Proof.
  intros Hr Hg Hnext. eapply spec_bind; [done|by apply Hnext|]. intros l g1 r1 Hr1 [Hl Hg1].
  eapply spec_bind; [done|by apply Hnext|]. intros h g2 r2 Hr2 [Hh Hg2]. cbn beta.
  apply spec_ret. pose proof (ordered_ok n l h Hl Hh). tauto.
Qed.

(** The two keys of an interval of indices. *)
Lemma spec_interval {G} m n i j (g : G) r (I : G → Prop) :
  words_ok r → dm_ok n m → 0 ≤ i < n → 0 ≤ j < n → I g →
  spec (left ← dm_get m i; right ← dm_get m j; mret (ordered left right)) g r
    (λ p g', 1 ≤ p.1 ≤ p.2 ∧ p.2 ≤ n ∧ I g').
Proof.
  intros Hr Hm Hi Hj HI.
  eapply (spec_bind _ _ _ _ _ (λ k g', 1 ≤ k ≤ n ∧ g' = g)); [done|by apply (dm_get_ok _ m n)|].
  intros l g1 r1 Hr1 [Hl ->].
  eapply (spec_bind _ _ _ _ _ (λ k g', 1 ≤ k ≤ n ∧ g' = g)); [done|by apply (dm_get_ok _ m n)|].
  intros h g2 r2 Hr2 [Hh ->]. cbn beta. apply spec_ret. pose proof (ordered_ok n l h Hl Hh). tauto.
Qed.

(** A draw, then the key of its index. *)
Lemma spec_key {G} d n m (f : Z → Z) b (g : G) r (I : G → Prop) :
  words_ok r → I g → dm_ok n m → b ≤ modulus64 → dist_below b d → (∀ v, 0 ≤ v < b → 0 ≤ f v < n) →
  spec (v ← dist_next fuel exp pow d; dm_get m (f v)) g r (λ k g', 1 ≤ k ≤ n ∧ I g').
Proof.
  intros Hr Hg Hm Hb Hd Hf.
  eapply (spec_bind _ _ _ _ _ (λ v g', 0 ≤ v < b ∧ g' = g)); [done| |].
  - by apply (dist_next_below fuel exp pow d b).
  - intros v g' r' Hr' [Hv ->]. apply (dm_get_ok _ m n); auto.
Qed.

Ltac open_gen g := apply spec_bind with (λ g' h, g' = h ∧ h = g);
  [done|by apply spec_get|]; intros ? ? r1 Hr1 [-> ->]; cbn beta zeta.

(** *** [DefaultArgsGenerator] *)

Definition default_ok (n : Z) (ops : oper → bool) (g : DefaultArgsGenerator) : Prop :=
  n < 2 ^ 63 ∧ dist_below n (def_distribution_ g) ∧ dm_ok n (def_data_ g).

Lemma default_next_ok n ops g r : default_ok n ops g → words_ok r →
  spec (default_next fuel exp pow) g r (λ k g', 1 ≤ k ≤ n ∧ default_ok n ops g').
Proof.
  intros Hg Hr. pose proof Hg as (Hn & Hd & Hm). unfold default_next. open_gen g.
  apply (spec_key _ _ _ (λ v, v) n); try done. unfold modulus64. lia.
Qed.

#[export] Instance default_args_ok :
  @ArgsGeneratorOk DefaultArgsGenerator (default_args fuel exp pow).
Proof.
  refine {| gen_ok := default_ok |}; intros n ops g r Hg _ Hr; try by apply default_next_ok.
  apply spec_pair; [done..|]. intros. by apply default_next_ok.
Defined.

(** *** [RangeQueryArgsGenerator] *)

Definition range_query_ok (n : Z) (ops : oper → bool) (g : RangeQueryArgsGenerator) : Prop :=
  only ORange ops ∧ n < 2 ^ 63 ∧ 0 ≤ rq_interval_ g ∧
  dist_below (n - rq_interval_ g) (rq_distribution_ g) ∧ dm_ok n (rq_data_ g).

#[export] Instance range_query_args_ok :
  @ArgsGeneratorOk RangeQueryArgsGenerator (range_query_args fuel exp pow).
Proof.
  refine {| gen_ok := range_query_ok |}; intros n ops g r Hg Ho Hr;
    pose proof Hg as (Honly & Hn & Hi & Hd & Hm); try by (apply Honly in Ho; discriminate Ho).
  open_gen g.
  eapply (spec_bind _ _ _ _ _ (λ v g', 0 ≤ v < n - rq_interval_ g ∧ g' = g)); [done| |].
  - apply (dist_next_below fuel exp pow _ (n - rq_interval_ g)); try done. unfold modulus64. lia.
  - intros v g' r' Hr' [Hv ->]. cbn beta.
    apply spec_interval; [done|done|lia| |done].
    rewrite u64_add_small by (rewrite modulus64_val; lia). lia.
Defined.

(** *** [MovingWindowRangeArgsGenerator] *)

Definition moving_window_ok (n : Z) (ops : oper → bool) (g : MovingWindowRangeArgsGenerator) : Prop :=
  only ORange ops ∧ n < 2 ^ 63 ∧ 0 ≤ mw_interval_ g < mw_window_size_ g ∧ mw_window_size_ g ≤ n ∧
  Forall (λ b, 0 ≤ b ≤ n - mw_window_size_ g) (mw_window_begins_ g) ∧
  0 ≤ mw_stage_index_ g < len (mw_window_begins_ g) ∧ dm_ok n (mw_data_map_ g).

Lemma advance_stage_ok n ops g : moving_window_ok n ops g → moving_window_ok n ops (advance_stage g).
Proof.
  intros (Ho & Hn & Hi & Hw & Hb & Hs & Hm). unfold advance_stage, moving_window_ok.
  destruct (_ <? _); simpl; split_and!; try done; try lia.
  all: apply Z.mod_pos_bound; lia.
Qed.

#[export] Instance moving_window_args_ok : ArgsGeneratorOk MovingWindowRangeArgsGenerator.
Proof.
  refine {| gen_ok := moving_window_ok |}; intros n ops g r Hg Ho Hr;
    pose proof Hg as (Honly & Hn & Hi & Hw & Hb & Hs & Hm); try by (apply Honly in Ho; discriminate Ho).
  open_gen g.
  apply spec_bind with (λ b g', 0 ≤ b ≤ n - mw_window_size_ g ∧ g' = g); [done| |].
  { apply (spec_at _ _ _ ((mw_window_begins_ g).[mw_stage_index_ g])); [by apply get_lookup|].
    split; [|done]. by apply (get_Forall (λ b, 0 ≤ b ≤ n - mw_window_size_ g)). }
  intros b g' r2 Hr2 [Hb' ->]. cbn beta.
  rewrite u64_sub_small by (rewrite modulus64_val; lia). rewrite Z.max_l by lia.
  apply spec_bind with (λ v g', 0 ≤ v < mw_window_size_ g - mw_interval_ g ∧ g' = g); [done| |].
  { apply spec_rng_next_below; [done|lia|done]. }
  intros v g' r3 Hr3 [Hv ->]. cbn beta zeta.
  apply spec_bind with (λ _ g', g' = advance_stage g); [done|by apply spec_put|].
  intros _ g' r4 Hr4 ->. cbn beta.
  rewrite (u64_add_small b v) by (rewrite modulus64_val; lia).
  apply spec_interval; [done|exact Hm|lia| |by apply advance_stage_ok].
  rewrite u64_add_small by (rewrite modulus64_val; lia). lia.
Defined.

(** *** [SkewedSetsArgsGenerator] *)

Definition skewed_sets_ok (n : Z) (ops : oper → bool) (g : SkewedSetsArgsGenerator) : Prop :=
  n < 2 ^ 63 ∧ ss_range_ g = n ∧ 0 ≤ ss_write_set_begins_ g ≤ n ∧
  dist_below n (ss_read_dist_ g) ∧ dist_below n (ss_write_dist_ g) ∧ dm_ok n (ss_data_map_ g).

(** An index that starts in the range and wraps around at its end. *)
Lemma wrap_index n b v : n < 2 ^ 63 → 0 ≤ b ≤ n → 0 ≤ v < n →
  0 ≤ (let index := b +₆₄ v in if n <=? index then index -₆₄ n else index) < n.
Proof. intros Hn Hb Hv. cbv zeta. rewrite u64_add_small by (rewrite modulus64_val; lia).
  zbool; [rewrite u64_sub_small by (rewrite modulus64_val; lia)|]; lia. Qed.

Lemma skewed_sets_get_ok n ops g r : skewed_sets_ok n ops g → words_ok r →
  spec (skewed_sets_get fuel exp pow) g r (λ k g', 1 ≤ k ≤ n ∧ skewed_sets_ok n ops g').
Proof.
  intros Hg Hr. pose proof Hg as (Hn & _ & _ & Hd & _ & Hm). unfold skewed_sets_get. open_gen g.
  apply (spec_key _ _ _ (λ v, v) n); try done. unfold modulus64. lia.
Qed.

Lemma skewed_sets_write_ok n ops g r : skewed_sets_ok n ops g → words_ok r →
  spec (skewed_sets_write fuel exp pow) g r (λ k g', 1 ≤ k ≤ n ∧ skewed_sets_ok n ops g').
Proof.
  intros Hg Hr. pose proof Hg as (Hn & Hrange & Hb & _ & Hd & Hm). unfold skewed_sets_write. open_gen g.
  apply (spec_key _ _ _ (λ v, let index := ss_write_set_begins_ g +₆₄ v in
    if ss_range_ g <=? index then index -₆₄ ss_range_ g else index) n); try done; [unfold modulus64; lia|].
  intros v Hv. rewrite Hrange. by apply wrap_index.
Qed.

#[export] Instance skewed_sets_args_ok :
  @ArgsGeneratorOk SkewedSetsArgsGenerator (skewed_sets_args fuel exp pow).
Proof.
  refine {| gen_ok := skewed_sets_ok |}; intros n ops g r Hg _ Hr;
    [by apply skewed_sets_get_ok|by apply skewed_sets_write_ok..|].
  apply spec_pair; [done..|]. intros. by apply skewed_sets_get_ok.
Defined.

(** *** [SkewedInsertArgsGenerator] *)

Definition skewed_insert_ok (n : Z) (ops : oper → bool) (g : SkewedInsertArgsGenerator) : Prop :=
  only OInsert ops ∧ n < 2 ^ 63 ∧ 0 ≤ si_inserted_number_ g ∧ 0 ≤ si_skewed_length_ g ≤ n ∧
  dist_below (n - si_skewed_length_ g) (si_distribution_ g) ∧ dm_ok n (si_data_map_ g).

#[export] Instance skewed_insert_args_ok :
  @ArgsGeneratorOk SkewedInsertArgsGenerator (skewed_insert_args fuel exp pow).
Proof.
  refine {| gen_ok := skewed_insert_ok |}; intros n ops g r Hg Ho Hr;
    pose proof Hg as (Honly & Hn & Hi & Hl & Hd & Hm); try by (apply Honly in Ho; discriminate Ho).
  open_gen g. destruct (Z.ltb_spec (si_inserted_number_ g) (si_skewed_length_ g)).
  - apply spec_bind with (λ _ g', g' = {| si_skewed_length_ := si_skewed_length_ g;
      si_inserted_number_ := si_inserted_number_ g +₆₄ 1; si_distribution_ := si_distribution_ g;
      si_data_map_ := si_data_map_ g |}); [done|by apply spec_put|].
    intros _ g' r2 Hr2 ->. apply (dm_get_ok _ _ n); [done|lia|]. intros k Hk. split; [done|].
    unfold skewed_insert_ok. simpl. split_and!; try done; try lia.
    rewrite u64_add_small; rewrite ?modulus64_val; lia.
  - apply (spec_key _ _ _ (λ v, si_skewed_length_ g +₆₄ v) (n - si_skewed_length_ g)); try done.
    + unfold modulus64. lia.
    + intros v Hv. rewrite u64_add_small; rewrite ?modulus64_val; lia.
Defined.

(** *** [CreakersAndWavePrefillArgsGenerator] *)

Definition creakers_prefill_ok (n : Z) (ops : oper → bool) (g : CreakersAndWavePrefillArgsGenerator) : Prop :=
  only OInsert ops ∧ n < 2 ^ 63 ∧ 0 ≤ cp_wave_begin_ g ∧ 0 < cp_prefill_length_ g ∧
  cp_wave_begin_ g + cp_prefill_length_ g ≤ n ∧ dm_ok n (cp_data_map_ g).

#[export] Instance creakers_prefill_args_ok : ArgsGeneratorOk CreakersAndWavePrefillArgsGenerator.
Proof.
  refine {| gen_ok := creakers_prefill_ok |}; intros n ops g r Hg Ho Hr;
    pose proof Hg as (Honly & Hn & Hb & Hl & Hle & Hm); try by (apply Honly in Ho; discriminate Ho).
  open_gen g.
  apply spec_bind with (λ v g', 0 ≤ v < cp_prefill_length_ g ∧ g' = g); [done| |].
  { apply spec_rng_next_below; [done|lia|done]. }
  intros v g' r2 Hr2 [Hv ->]. apply (dm_get_ok _ _ n); [done| |done].
  rewrite u64_add_small; rewrite ?modulus64_val; lia.
Defined.

(** *** [TemporarySkewedArgsGenerator] *)

Definition temporary_ok (n : Z) (ops : oper → bool) (g : TemporarySkewedArgsGenerator) : Prop :=
  n < 2 ^ 63 ∧ ts_range_ g = n ∧ 0 ≤ ts_pointer_ g < ts_set_number_ g ∧ ts_set_number_ g < modulus64 ∧
  len (ts_hot_times_ g) = ts_set_number_ g ∧ len (ts_relax_times_ g) = ts_set_number_ g ∧
  len (ts_set_begins_ g) = ts_set_number_ g ∧ length (ts_hot_dists_ g) = Z.to_nat (ts_set_number_ g) ∧
  Forall (λ b, 0 ≤ b ≤ n) (ts_set_begins_ g) ∧ Forall (dist_below n) (ts_hot_dists_ g) ∧
  dist_below n (ts_relax_dist_ g) ∧ dm_ok n (ts_data_map_ g).

Lemma at_time_ok n ops g t p b :
  temporary_ok n ops g → 0 ≤ p < ts_set_number_ g → temporary_ok n ops (at_time t p b g).
Proof. unfold temporary_ok. simpl. tauto. Qed.

Lemma update_pointer_ok n ops g r : temporary_ok n ops g → words_ok r →
  spec update_pointer g r (λ _ g', temporary_ok n ops g').
Proof.
  intros Hg Hr. pose proof Hg as (Hn & _ & Hp & Hsn & Hh & Hrl & _). unfold update_pointer. open_gen g.
  apply spec_bind with (λ h _, temporary_ok n ops h); [done| |].
  2: { intros h g' r2 Hr2 Hh'. apply spec_put, at_time_ok; [done|]. apply Hh'. }
  destruct (ts_is_relax_time_ g).
  - apply spec_bind with (λ _ g', g' = g); [done| |].
    { by apply (spec_at _ _ _ ((ts_relax_times_ g).[ts_pointer_ g])); [apply get_lookup; lia|]. }
    intros t g' r2 Hr2 ->. destruct (_ <=? _); apply spec_ret; [|done]. cbn zeta.
    apply at_time_ok; [done|]. rewrite u64_add_small by lia. zbool; lia.
  - apply spec_bind with (λ _ g', g' = g); [done| |].
    { by apply (spec_at _ _ _ ((ts_hot_times_ g).[ts_pointer_ g])); [apply get_lookup; lia|]. }
    intros t g' r2 Hr2 ->. destruct (_ <=? _); apply spec_ret; [|done]. by apply at_time_ok.
Qed.

Lemma temporary_next_ok n ops g r : temporary_ok n ops g → words_ok r →
  spec (temporary_next fuel exp pow) g r (λ k g', 1 ≤ k ≤ n ∧ temporary_ok n ops g').
Proof.
  intros Hg Hr. unfold temporary_next.
  eapply spec_bind; [done|by apply update_pointer_ok|]. clear g Hg. cbn beta.
  intros _ g r0 Hr0 Hg. pose proof Hg as (Hn & Hrange & Hp & Hsn & _ & _ & Hb & Hh & Hbs & Hds & Hrd & Hm).
  open_gen g. destruct (ts_is_relax_time_ g).
  { apply (spec_key _ _ _ (λ v, v) n); try done. unfold modulus64. lia. }
  apply spec_bind with (λ b g', 0 ≤ b ≤ n ∧ g' = g); [done| |].
  { apply (spec_at _ _ _ ((ts_set_begins_ g).[ts_pointer_ g])); [apply get_lookup; lia|].
    split; [|done]. apply (get_Forall (λ b, 0 ≤ b ≤ n)); [done|lia]. }
  intros b g' r2 Hr2 [Hb' ->].
  destruct (ts_hot_dists_ g !! Z.to_nat (ts_pointer_ g)) as [hot|] eqn:Hhot;
    [|apply lookup_ge_None in Hhot; lia].
  apply spec_bind with (λ d g', d = hot ∧ g' = g); [done|by apply (spec_at _ _ _ hot)|].
  intros d g' r3 Hr3 [-> ->].
  apply (spec_key _ _ _ (λ v, let index := b +₆₄ v in
    if ts_range_ g <=? index then index -₆₄ ts_range_ g else index) n); try done.
  - unfold modulus64. lia.
  - rewrite Forall_lookup in Hds. by eapply Hds.
  - intros v Hv. rewrite Hrange. by apply wrap_index.
Qed.

#[export] Instance temporary_skewed_args_ok :
  @ArgsGeneratorOk TemporarySkewedArgsGenerator (temporary_skewed_args fuel exp pow).
Proof.
  refine {| gen_ok := temporary_ok |}; intros n ops g r Hg _ Hr; try by apply temporary_next_ok.
  open_gen g. apply spec_bind with (λ _ g', temporary_ok n ops g'); [done| |].
  { apply spec_put, at_time_ok; [done|]. apply Hg. }
  intros _ g' r2 Hr2 Hg'. apply spec_pair; [done..|]. intros. by apply temporary_next_ok.
Defined.

(** *** Sequences of calls *)

(** A call; a key is the interval of itself. *)
Definition call {G} `{ArgsGenerator G} (o : oper) : prog G (Z * Z) :=
  match o with
  | OGet => k ← next_get; mret (k, k)
  | OInsert => k ← next_insert; mret (k, k)
  | ORemove => k ← next_remove; mret (k, k)
  | ORange => next_range
  end.

(** The calls of a thread. *)
Fixpoint run_opers {G} `{ArgsGenerator G} (os : list oper) : prog G (list (Z * Z)) :=
  match os with
  | [] => mret []
  | o :: os => p ← call o; ps ← run_opers os; mret (p :: ps)
  end.

Definition in_keys (n : Z) (p : Z * Z) : Prop := 1 ≤ p.1 ≤ p.2 ∧ p.2 ≤ n.

(** A key of a method as the result of a call. *)
Lemma spec_call_key {G} n (I : G → Prop) (next : prog G Z) g r : words_ok r →
  spec next g r (λ k g', 1 ≤ k ≤ n ∧ I g') →
  spec (k ← next; mret (k, k)) g r (λ p g', in_keys n p ∧ I g').
Proof.
  intros Hr Hnext. eapply spec_bind; [done|exact Hnext|]. intros k g' r' _ [Hk Hg'].
  apply spec_ret. split; [|done]. unfold in_keys. simpl. lia.
Qed.

Lemma call_ok {G} `{ArgsGeneratorOk G} n ops o g r :
  gen_ok n ops g → ops o = true → words_ok r → spec (call o) g r (λ p g', in_keys n p ∧ gen_ok n ops g').
Proof.
  intros Hg Ho Hr. destruct o; cbn [call]; [by apply spec_call_key, next_get_ok
    |by apply spec_call_key, next_insert_ok|by apply spec_call_key, next_remove_ok|].
  eapply spec_mono; [by apply (next_range_ok n ops)|]. intros p g' (Hp1 & Hp2 & Hg'). by split.
Qed.

Lemma run_opers_inv {G} `{ArgsGeneratorOk G} n ops os : ∀ g r,
  gen_ok n ops g → Forall (λ o, ops o = true) os → words_ok r →
  spec (run_opers os) g r (λ ps g', length ps = length os ∧ Forall (in_keys n) ps ∧ gen_ok n ops g').
Proof.
  induction os as [|o os IH]; intros g r Hg Hos Hr; [by apply spec_ret|].
  apply Forall_cons in Hos as [Ho Hos]. cbn [run_opers].
  eapply spec_bind; [done|by apply call_ok|]. intros p g1 r1 Hr1 [Hp Hg1].
  eapply spec_bind; [done|by apply IH|]. intros ps g2 r2 _ (Hlen & Hps & Hg2). apply spec_ret.
  simpl. split_and!; [by rewrite Hlen|by constructor|done].
Qed.

Lemma run_opers_ok {G} `{ArgsGeneratorOk G} n ops os g r :
  gen_ok n ops g → Forall (λ o, ops o = true) os → words_ok r →
  spec (run_opers os) g r (λ ps _, length ps = length os ∧ Forall (in_keys n) ps).
Proof. intros. eapply spec_mono; [by eapply run_opers_inv|]. intros ps g' (? & ? & _). by split. Qed.

(** *** What the builders give *)

Section Built.
  Variables (log : double → double) (fresh_last_range : Z) (fresh_area : double).

  #[local] Abbreviation build_dist := (build_dist log pow fresh_last_range fresh_area).

(** The generator exists and answers any sequence of supported calls with keys of
    [[1, n]], unless a loop rejects [fuel] draws in a row. *)
Definition serves {G} `{ArgsGenerator G} (n : Z) (ops : oper → bool) (built : option G) : Prop :=
  ∃ g, built = Some g ∧ ∀ os r, Forall (λ o, ops o = true) os → words_ok r →
    spec (run_opers os) g r (λ ps _, length ps = length os ∧ Forall (in_keys n) ps).

Lemma serves_intro {G} `{ArgsGeneratorOk G} n ops (built : option G) g :
  built = Some g → gen_ok n ops g → serves n ops built.
Proof. intros Hb Hg. exists g. split; [done|]. intros. by eapply run_opers_ok. Qed.

Definition all_opers (o : oper) : bool := true.
Definition one_oper (o o' : oper) : bool := bool_decide (o = o').

Lemma one_only o : only o (one_oper o).
Proof. intros o' Ho. unfold one_oper in Ho. by apply bool_decide_eq_true in Ho. Qed.

Lemma default_builds n b :
  0 ≤ n < 2 ^ 53 → builder_ok n (distributionBuilder b) → dm_ok n (dm_build (dataMapBuilder b)) →
  ∃ g, default_build log pow fresh_last_range fresh_area (default_init n b) = Some g ∧
    default_ok n all_opers g.
Proof.
  intros Hn Hb Hm. unfold default_build. simpl.
  destruct (build_dist_below log pow fresh_last_range fresh_area _ _ Hn Hb) as (d & -> & Hd).
  eexists. split; [done|]. unfold default_ok. simpl. split_and!; [lia|done|done].
Qed.

Lemma range_query_builds n b :
  0 ≤ n < 2 ^ 53 → 0 ≤ rb_interval_ b < n →
  builder_ok (n - rb_interval_ b) (rb_distributionBuilder b) → dm_ok n (dm_build (rb_dataMapBuilder b)) →
  ∃ g, range_query_build log pow fresh_last_range fresh_area (range_query_init n b) = Some g ∧
    range_query_ok n (one_oper ORange) g.
Proof.
  intros Hn Hi Hb Hm. unfold range_query_build. simpl. rewrite (proj2 (Z.ltb_lt _ _)) by lia.
  rewrite u64_sub_small by (rewrite modulus64_val; lia).
  destruct (build_dist_below log pow fresh_last_range fresh_area (rb_distributionBuilder b)
    (n - rb_interval_ b)) as (d & -> & Hd); [lia|done|].
  eexists. split; [done|]. unfold range_query_ok. simpl. split_and!; [apply one_only|lia|lia|done|done].
Qed.

(** Fractions that JSON can give. *)
Definition fractions_ok (l : list double) : Prop :=
  Forall (λ f, valid_binary d_prec d_emax f = true ∧ f ≠ S754_nan) l.

Lemma window_begins_ok max_begin l :
  0 ≤ max_begin < 2 ^ 53 → fractions_ok l →
  ∃ begins, mapM (window_begin max_begin) l = Some begins ∧ length begins = length l ∧
    Forall (λ b, 0 ≤ b ≤ max_begin) begins.
Proof.
  intros Hm. induction 1 as [|f l [Hv Hf] _ IH]; [by exists []|].
  destruct IH as (bs & Hbs & Hlen & HF).
  destruct (scale_bound max_begin (d_clamp f d_zero d_one) Hm (clamp_fraction f Hv Hf)) as (v & Hs & Hle).
  exists (v :: bs). change (window_begin max_begin f = Some v) in Hs. simpl. rewrite Hs. simpl. rewrite Hbs. simpl.
  split; [done|]. split; [by rewrite Hlen|by constructor].
Qed.

Lemma moving_window_builds n b :
  0 < n < 2 ^ 53 → 0 ≤ mb_interval_ b < n → fractions_ok (mb_window_begin_fractions_ b) →
  dm_ok n (dm_build (mb_data_map_builder_ b)) →
  ∃ b', moving_window_init n b = Some b' ∧
    moving_window_ok n (one_oper ORange) (moving_window_build b') ∧
    mw_window_size_ (moving_window_build b') = Z.min (Z.max (mb_window_size_ b) (mb_interval_ b + 1)) n ∧
    len (mb_window_begins_ b') = Z.max 1 (len (mb_window_begin_fractions_ b)).
Proof.
  intros Hn Hi Hf Hm. unfold moving_window_init. rewrite (Z.max_l n 1) by lia.
  rewrite (u64_add_small (mb_interval_ b)) by (rewrite modulus64_val; lia).
  set (ws := Z.min _ n). assert (mb_interval_ b + 1 ≤ ws ≤ n) as Hws by lia.
  rewrite u64_sub_small by (rewrite modulus64_val; lia).
  destruct (window_begins_ok (n - ws) _ ltac:(lia) Hf) as (bs & -> & Hlen & Hbs). simpl.
  eexists. split; [done|]. unfold moving_window_ok, moving_window_build, MovingWindow_make. simpl.
  rewrite (u64_add_small (mb_interval_ b)) by (rewrite modulus64_val; lia).
  rewrite (Z.max_l ws) by lia. unfold len. rewrite <-Hlen.
  destruct bs as [|v bs]; simpl; split_and!; try lia; try done; try apply one_only.
  constructor; [lia|constructor].
Qed.

Lemma skewed_insert_builds n b :
  0 < n < 2 ^ 53 → is_fraction (ib_skewed_size_ b) →
  (∀ l, scale n (ib_skewed_size_ b) = Some l → builder_ok (n - l) (ib_dist_builder_ b)) →
  dm_ok n (dm_build (ib_data_map_builder_ b)) →
  ∃ g, (skewed_insert_init n b ≫= skewed_insert_build log pow fresh_last_range fresh_area) = Some g ∧
    skewed_insert_ok n (one_oper OInsert) g.
Proof.
  intros Hn Hf Hb Hm. unfold skewed_insert_init, skewed_insert_build.
  destruct (scale_bound n _ ltac:(lia) Hf) as (l & Hl & Hle). rewrite Hl. simpl.
  rewrite u64_sub_small by (rewrite modulus64_val; lia).
  destruct (build_dist_below log pow fresh_last_range fresh_area (ib_dist_builder_ b) (n - l))
    as (d & -> & Hd); [lia|by apply Hb|].
  eexists. split; [done|]. unfold skewed_insert_ok. simpl.
  split_and!; [apply one_only|lia..|done|done].
Qed.

Lemma skewed_sets_builds n b begins :
  0 < n < 2 ^ 53 → sb_write_set_begins_ <$> skewed_sets_init n b = Some begins → begins ≤ n →
  builder_ok n (skewed (sb_read_dist_builder_ b)) → builder_ok n (skewed (sb_write_dist_builder_ b)) →
  dm_ok n (dm_build (sb_data_map_builder_ b)) →
  ∃ g, (skewed_sets_init n b ≫= skewed_sets_build log pow fresh_last_range fresh_area) = Some g ∧
    skewed_sets_ok n all_opers g.
Proof.
  intros Hn Hinit Hle Hr Hw Hm. unfold skewed_sets_init in *.
  destruct (get_hot_length _ n) as [h|]; [|done]. simpl in Hinit |- *.
  destruct (d_to_size _) as [v|] eqn:Hv; [|done]. simpl in Hinit |- *. injection Hinit as ->.
  assert (0 ≤ begins) by (revert Hv; unfold d_to_size; destruct (_ -ᵈ _); repeat case_match; intros; simplify_eq; lia).
  unfold skewed_sets_build. simpl sb_read_dist_builder_. simpl sb_write_dist_builder_. simpl sb_range_.
  destruct (build_dist_below log pow fresh_last_range fresh_area (skewed (sb_read_dist_builder_ b)) n
    ltac:(lia) Hr) as (rd & -> & Hrd).
  destruct (build_dist_below log pow fresh_last_range fresh_area (skewed (sb_write_dist_builder_ b)) n
    ltac:(lia) Hw) as (wd & -> & Hwd).
  eexists. split; [done|]. unfold skewed_sets_ok. simpl. split_and!; [lia|done|lia|lia|done..].
Qed.

Lemma creakers_prefill_builds n b l :
  n < 2 ^ 53 → pb_prefill_length_ <$> creakers_prefill_init n b = Some l → 0 < l ≤ n →
  dm_ok n (dm_build (pb_data_map_builder_ b)) →
  ∃ g, creakers_prefill_build <$> creakers_prefill_init n b = Some g ∧
    creakers_prefill_ok n (one_oper OInsert) g.
Proof.
  intros Hn Hinit Hl Hm. unfold creakers_prefill_init in *.
  destruct (d_to_size _) as [v|]; [|done]. simpl in Hinit |- *. injection Hinit as ->.
  eexists. split; [done|]. unfold creakers_prefill_ok. simpl.
  rewrite u64_sub_small by (rewrite modulus64_val; lia). split_and!; [apply one_only|lia..|done].
Qed.

Lemma default_times_len n default times : len (default_times n default times) = len times.
Proof.
  unfold default_times. apply (for_range_const (λ l, len l = len times)); [done|].
  intros i l _ Hl. destruct (_ =? _); [by rewrite len_set|done].
Qed.

Lemma push_loop {A} n (f : Z → option A) (P : A → Prop) :
  0 ≤ n → (∀ i, 0 ≤ i < n → ∃ a, f i = Some a ∧ P a) →
  ∃ l, for_opt 0 n (λ i l, a ← f i; Some (l ++ [a])) [] = Some l ∧ len l = n ∧ Forall P l.
Proof.
  intros Hn Hf. apply (for_opt_inv (λ i l, len l = i ∧ Forall P l)); [done|done|].
  intros i l Hi [Hl HP]. destruct (Hf i Hi) as (a & -> & Ha). eexists. split; [done|]. split.
  - rewrite len_app. unfold len in *. simpl. lia.
  - apply Forall_app. split; [done|by constructor].
Qed.

(** The begins of the hot sets when they are set by hand. *)
Lemma temporary_set_begins_ok n b :
  0 ≤ n < 2 ^ 53 → tb_manual_setting_set_begins_ b = true → 0 ≤ tb_set_number_ b →
  len (tb_set_begins_ b) = tb_set_number_ b → Forall is_fraction (tb_set_begins_ b) →
  ∃ l, set_begins n b = Some l ∧ len l = tb_set_number_ b ∧ Forall (λ b, 0 ≤ b ≤ n) l.
Proof.
  intros Hn Hman Hs Hlen Hf. unfold set_begins. rewrite Hman. apply push_loop; [done|].
  intros i Hi. apply scale_bound; [done|]. apply (get_Forall is_fraction); [done|lia].
Qed.

Lemma temporary_skewed_builds n b l :
  0 < n < 2 ^ 53 → 0 < tb_set_number_ b < modulus64 → set_begins n b = Some l →
  len l = tb_set_number_ b → Forall (λ b, 0 ≤ b ≤ n) l →
  len (tb_hot_times_ b) = tb_set_number_ b → len (tb_relax_times_ b) = tb_set_number_ b →
  (∀ i, 0 ≤ i < tb_set_number_ b → builder_ok n (skewed (tb_hot_dist_builders_ b).[i])) →
  builder_ok n (tb_relax_dist_builder_ b) → dm_ok n (dm_build (tb_data_map_builder_ b)) →
  ∃ g, (temporary_skewed_init n b ≫= temporary_skewed_build log pow fresh_last_range fresh_area) = Some g ∧
    temporary_ok n all_opers g.
Proof.
  intros Hn Hs Hl Hlen HF Hh Hr Hhot Hrelax Hm. unfold temporary_skewed_init. rewrite Hl. simpl.
  unfold temporary_skewed_build. cbn [tb_set_number_ tb_hot_dist_builders_ tb_range_ tb_relax_dist_builder_
    tb_data_map_builder_ tb_hot_times_ tb_relax_times_ tb_set_begin_indexes_].
  destruct (push_loop (tb_set_number_ b) (λ i, build_dist (skewed (tb_hot_dist_builders_ b).[i]) n)
    (dist_below n)) as (ds & -> & Hds & HFd); [lia| |].
  { intros i Hi. apply build_dist_below; [lia|by apply Hhot]. }
  destruct (build_dist_below log pow fresh_last_range fresh_area _ n ltac:(lia) Hrelax) as (rd & -> & Hrd).
  simpl. eexists. split; [done|]. unfold temporary_ok. simpl. rewrite !default_times_len.
  unfold len in *. split_and!; try done; lia.
Qed.

End Built.

End Laws.

(** ** The schedule of the moving window *)

Section MovingWindow.
  Variables (n : Z) (g : MovingWindowRangeArgsGenerator).
  Context (Hok : moving_window_ok n (one_oper ORange) g) (Hid : mw_data_map_ g = IdDataMap).
  Context (Hdur : 1 ≤ mw_stage_duration_ g < modulus64) (Hlen : len (mw_window_begins_ g) < modulus64).

(** The generator after [k] queries. *)
Definition stage (k : nat) : MovingWindowRangeArgsGenerator :=
  at_stage ((Z.of_nat k / mw_stage_duration_ g) `mod` len (mw_window_begins_ g))
    (Z.of_nat k `mod` mw_stage_duration_ g) g.

Lemma advance_stage_stage k : advance_stage (stage k) = stage (S k).
Proof.
  destruct Hok as (_ & _ & _ & _ & _ & Hs & _). set (d := mw_stage_duration_ g) in *.
  set (m := len (mw_window_begins_ g)) in *.
  pose proof (Z.mod_pos_bound (Z.of_nat k) d ltac:(lia)).
  pose proof (Z.mod_pos_bound (Z.of_nat k / d) m ltac:(lia)).
  unfold advance_stage, stage. cbn [mw_stage_operation_ mw_stage_duration_ mw_stage_index_ mw_window_begins_ at_stage].
  fold d m. rewrite (u64_add_small (Z.of_nat k `mod` d)) by lia.
  pose proof (Z.div_mod (Z.of_nat k) d ltac:(lia)) as Hk.
  destruct (Z.ltb_spec (Z.of_nat k `mod` d + 1) d).
  - assert (Z.of_nat (S k) / d = Z.of_nat k / d ∧ Z.of_nat (S k) mod d = Z.of_nat k mod d + 1) as [-> ->]; [|done].
    split; symmetry; [apply Z.div_unique with (Z.of_nat k mod d + 1)|
      apply Z.mod_unique with (Z.of_nat k / d)]; lia.
  - assert (Z.of_nat (S k) / d = Z.of_nat k / d + 1 ∧ Z.of_nat (S k) mod d = 0) as [-> ->].
    { split; symmetry; [apply Z.div_unique with 0|apply Z.mod_unique with (Z.of_nat k / d + 1)]; lia. }
    rewrite u64_add_small by lia. by rewrite Z.add_mod_idemp_l by lia.
Qed.

Lemma stage_ok k : moving_window_ok n (one_oper ORange) (stage k).
Proof.
  destruct Hok as (Ho & Hn & Hi & Hw & Hb & Hs & Hm). unfold moving_window_ok, stage. simpl.
  split_and!; try done; try lia. all: apply Z.mod_pos_bound; lia.
Qed.

(** Window number [k / duration], cyclically. *)
Definition window (k : nat) : Z :=
  (mw_window_begins_ g).[(Z.of_nat k / mw_stage_duration_ g) `mod` len (mw_window_begins_ g)].

Lemma moving_next_eq k r v r' :
  Random64_next r = (v, r') →
  let o := v `mod` (mw_window_size_ g - mw_interval_ g) in
  next_range (stage k, r) = Ok ((window k + o + 1, window k + o + 1 + mw_interval_ g), (stage (S k), r')) ∧
  0 ≤ o < mw_window_size_ g - mw_interval_ g.
Proof.
  intros Hv o. pose proof (stage_ok k) as (_ & Hn & Hi & Hw & Hb & Hs & _). simpl in Hi, Hw, Hb, Hs.
  pose proof (Z.mod_pos_bound v (mw_window_size_ g - mw_interval_ g) ltac:(lia)) as Ho.
  fold o in Ho. split; [|done]. cbn [next_range moving_window_args].
  unfold mbind, prog_bind, get_gen, put_gen, at_index, of_option, mret, prog_ret. cbn [fst snd].
  pose proof (get_lookup _ _ Hs) as Hget. cbn [stage at_stage mw_window_begins_ mw_stage_index_ mw_window_size_ mw_interval_ mw_data_map_].
  rewrite Hget, u64_sub_small by (rewrite modulus64_val; lia). rewrite Z.max_l by lia.
  unfold rng_next_below, rng_next, mbind, prog_bind, mret, prog_ret.
  destruct (Z.eqb_spec (mw_window_size_ g - mw_interval_ g) 0); [lia|]. cbn [fst snd]. rewrite Hv.
  pose proof (get_Forall _ _ _ Hb Hs) as Hwin. fold (window k) in *. cbn beta in Hwin. fold o.
  rewrite !u64_add_small by (rewrite modulus64_val, ?u64_add_small; rewrite ?modulus64_val; lia).
  unfold dm_get. rewrite Hid. unfold mret, prog_ret.
  rewrite !u64_add_small by (rewrite modulus64_val; lia).
  unfold s64. rewrite modulus64_val, !Z.mod_small by lia. rewrite <-advance_stage_stage.
  unfold ordered. zbool; do 3 f_equal; lia.
Qed.

Lemma moving_runs k : ∀ j r,
  ∃ ps r', run_opers (replicate k ORange) (stage j, r) = Ok (ps, (stage (j + k), r')) ∧
    length ps = k ∧
    ∀ i p, ps !! i = Some p → ∃ o, 0 ≤ o < mw_window_size_ g - mw_interval_ g ∧
      p = (window (j + i) + o + 1, window (j + i) + o + 1 + mw_interval_ g).
Proof.
  induction k as [|k IH]; intros j r.
  - exists [], r. rewrite Nat.add_0_r. by split.
  - destruct (Random64_next r) as [v r1] eqn:Hv. destruct (moving_next_eq j r v r1 Hv) as [Hnext Ho].
    destruct (IH (S j) r1) as (ps & r' & Hrun & Hlps & Hps).
    eexists (_ :: ps), r'. split.
    + cbn [replicate run_opers call]. unfold mbind at 1, prog_bind at 1. rewrite Hnext.
      unfold mbind, prog_bind. rewrite Hrun. unfold mret, prog_ret. do 4 f_equal. lia.
    + split; [by simpl; rewrite Hlps|]. intros [|i] p Hp; simpl in Hp.
      * injection Hp as <-. rewrite Nat.add_0_r. eauto.
      * replace (j + S i)%nat with (S j + i)%nat by lia. by apply Hps.
Qed.

End MovingWindow.

(** ** Properties *)

(** C35. What the builders of generators give. For a range [n] of 1 to [2^53 - 1] keys,
    [init] and [build] of the builders below give a generator that answers any sequence
    of its operations with keys of [[1, n]] (an interval has its ends in order),
    whatever the draws: no array is read out of its bounds, no remainder of 0 is taken,
    no [setbench_error] is reached, and the only run that does not return is one with
    [fuel] draws in a row that the loops of the skewed distributions reject. The
    distributions must be uniform, or skewed with a hot size between 0 and 1 and with
    uniform parts at any depth, none of them over an empty range (a Zipf distribution
    is left out, because its draw can be outside of its range), and the data map must
    have the keys [1 .. n]. The builders:
    the default one; range queries, of an interval below [n]; the moving window, of an
    interval below [n] and begins that are not NaNs; skewed sets, whose write set
    begins within the range; skewed inserts, whose size is a fraction; the prefill of
    creakers and wave, of a length of 1 to [n]; and the temporary skewed one, with at
    least one set, and a begin within the range, two times and a distribution for each. *)
Theorem args_builders_correct fuel log exp pow last area n :
  0 < n < 2 ^ 53 →
  (∀ b, builder_ok n (distributionBuilder b) → dm_ok n (dm_build (dataMapBuilder b)) →
    serves fuel (H := default_args fuel exp pow) n all_opers
      (default_build log pow last area (default_init n b))) ∧
  (∀ b, 0 ≤ rb_interval_ b < n → builder_ok (n - rb_interval_ b) (rb_distributionBuilder b) →
    dm_ok n (dm_build (rb_dataMapBuilder b)) →
    serves fuel (H := range_query_args fuel exp pow) n (one_oper ORange)
      (range_query_build log pow last area (range_query_init n b))) ∧
  (∀ b, 0 ≤ mb_interval_ b < n → fractions_ok (mb_window_begin_fractions_ b) →
    dm_ok n (dm_build (mb_data_map_builder_ b)) →
    serves fuel n (one_oper ORange) (moving_window_build <$> moving_window_init n b)) ∧
  (∀ b begins, sb_write_set_begins_ <$> skewed_sets_init n b = Some begins → begins ≤ n →
    builder_ok n (skewed (sb_read_dist_builder_ b)) → builder_ok n (skewed (sb_write_dist_builder_ b)) →
    dm_ok n (dm_build (sb_data_map_builder_ b)) →
    serves fuel (H := skewed_sets_args fuel exp pow) n all_opers
      (skewed_sets_init n b ≫= skewed_sets_build log pow last area)) ∧
  (∀ b, is_fraction (ib_skewed_size_ b) →
    (∀ l, scale n (ib_skewed_size_ b) = Some l → builder_ok (n - l) (ib_dist_builder_ b)) →
    dm_ok n (dm_build (ib_data_map_builder_ b)) →
    serves fuel (H := skewed_insert_args fuel exp pow) n (one_oper OInsert)
      (skewed_insert_init n b ≫= skewed_insert_build log pow last area)) ∧
  (∀ b l, pb_prefill_length_ <$> creakers_prefill_init n b = Some l → 0 < l ≤ n →
    dm_ok n (dm_build (pb_data_map_builder_ b)) →
    serves fuel n (one_oper OInsert) (creakers_prefill_build <$> creakers_prefill_init n b)) ∧
  (∀ b l, 0 < tb_set_number_ b < modulus64 → set_begins n b = Some l →
    len l = tb_set_number_ b → Forall (λ b, 0 ≤ b ≤ n) l →
    len (tb_hot_times_ b) = tb_set_number_ b → len (tb_relax_times_ b) = tb_set_number_ b →
    (∀ i, 0 ≤ i < tb_set_number_ b → builder_ok n (skewed (tb_hot_dist_builders_ b).[i])) →
    builder_ok n (tb_relax_dist_builder_ b) → dm_ok n (dm_build (tb_data_map_builder_ b)) →
    serves fuel (H := temporary_skewed_args fuel exp pow) n all_opers
      (temporary_skewed_init n b ≫= temporary_skewed_build log pow last area)).
Proof.
  intros Hn. split_and!.
  - intros b Hb Hm. destruct (default_builds pow log last area n b) as (g & Hg & Hok); [lia|done..|].
    by eapply (@serves_intro fuel _ _ (default_args_ok fuel exp pow)).
  - intros b Hi Hb Hm.
    destruct (range_query_builds pow log last area n b) as (g & Hg & Hok); [lia|done..|].
    by eapply (@serves_intro fuel _ _ (range_query_args_ok fuel exp pow)).
  - intros b Hi Hf Hm. destruct (moving_window_builds n b) as (b' & Hb & Hok & _); [done..|].
    rewrite Hb. by eapply (@serves_intro fuel _ _ (moving_window_args_ok fuel)).
  - intros b begins Hi Hle Hr Hw Hm.
    destruct (skewed_sets_builds pow log last area n b begins) as (g & Hg & Hok); [done..|].
    by eapply (@serves_intro fuel _ _ (skewed_sets_args_ok fuel exp pow)).
  - intros b Hf Hb Hm.
    destruct (skewed_insert_builds pow log last area n b) as (g & Hg & Hok); [done..|].
    by eapply (@serves_intro fuel _ _ (skewed_insert_args_ok fuel exp pow)).
  - intros b l Hi Hl Hm. destruct (creakers_prefill_builds n b l) as (g & Hg & Hok); [lia|done..|].
    by eapply (@serves_intro fuel _ _ (creakers_prefill_args_ok fuel)).
  - intros b l Hs Hl Hlen HF Hh Hr Hhot Hrelax Hm.
    destruct (temporary_skewed_builds pow log last area n b l) as (g & Hg & Hok); [done..|].
    by eapply (@serves_intro fuel _ _ (temporary_skewed_args_ok fuel exp pow)).
Qed.

(** The moving window of the range queries: [init] and [build] of
    [MovingWindowRangeArgsGeneratorBuilder] for a range above [interval] give
    windows inside of the range, and for any number of queries the [i]-th query is
    an interval of exactly [interval + 1] keys inside of window number
    [i / stage_duration], counted cyclically. *)
Theorem moving_window_correct n b :
  0 < n < 2 ^ 53 → 0 ≤ mb_interval_ b < n → fractions_ok (mb_window_begin_fractions_ b) →
  mb_data_map_builder_ b = IdDataMapBuilder → 0 ≤ mb_stage_duration_ b < modulus64 →
  len (mb_window_begin_fractions_ b) < modulus64 →
  let size := Z.min (Z.max (mb_window_size_ b) (mb_interval_ b + 1)) n in
  ∃ b', moving_window_init n b = Some b' ∧
    len (mb_window_begins_ b') = Z.max 1 (len (mb_window_begin_fractions_ b)) ∧
    Forall (λ w, 0 ≤ w ≤ n - size) (mb_window_begins_ b') ∧
    ∀ k r, ∃ ps g' r', run_opers (replicate k ORange) (moving_window_build b', r) = Ok (ps, (g', r')) ∧
      length ps = k ∧
      ∀ i p, ps !! i = Some p → ∃ o, 0 ≤ o < size - mb_interval_ b ∧
        let w := (mb_window_begins_ b').[(Z.of_nat i / Z.max (mb_stage_duration_ b) 1)
                                          `mod` len (mb_window_begins_ b')] in
        p = (w + o + 1, w + o + 1 + mb_interval_ b).
Proof.
  intros Hn Hi Hf Hid Hd Hl size.
  destruct (moving_window_builds n b) as (b' & Hinit & Hok & Hsize & Hlen); [done..|by rewrite Hid; simpl; lia|].
  exists b'. split; [done|]. split; [done|].
  assert (mw_data_map_ (moving_window_build b') = IdDataMap ∧
    mw_window_begins_ (moving_window_build b') = mb_window_begins_ b' ∧
    mw_interval_ (moving_window_build b') = mb_interval_ b ∧
    mw_stage_duration_ (moving_window_build b') = Z.max (mb_stage_duration_ b) 1) as (H1 & H2 & H3 & H4).
  { unfold moving_window_init in Hinit. destruct (mapM _ _) as [bs|]; [|done]. simpl in Hinit.
    injection Hinit as <-. simpl. by rewrite Hid. }
  pose proof Hok as (_ & _ & _ & _ & Hb & _). rewrite Hsize, H2 in Hb. split; [exact Hb|].
  intros k r. destruct (moving_runs n (moving_window_build b') Hok H1) with (k := k) (j := 0%nat) (r := r)
    as (ps & r' & Hrun & Hps & Hall).
  { rewrite H4. unfold modulus64 in *. lia. }
  { rewrite H2, Hlen. unfold modulus64 in *. lia. }
  exists ps, (stage (moving_window_build b') k), r'. split; [|split; [done|]].
  - assert (stage (moving_window_build b') 0 = moving_window_build b') as Hstart; [|by rewrite <-Hstart at 1].
    unfold stage. change (Z.of_nat 0) with 0. rewrite Z.div_0_l, !Z.mod_0_l by (rewrite ?H2, ?H4; lia). done.
  - intros i p Hp. destruct (Hall i p Hp) as (o & Ho & ->). exists o. rewrite Hsize, H3 in Ho.
    split; [exact Ho|]. unfold window. rewrite H2, H3, H4. done.
Qed.

Definition example_default : DefaultArgsGeneratorBuilder := {|
  db_range_ := 0;
  distributionBuilder := SkewedUniformDistributionBuilder (d_lit 1 5) (d_lit 4 5)
    UniformDistributionBuilder UniformDistributionBuilder;
  dataMapBuilder := dm_init (@rev Z) 100 (ArrayDataMapBuilder None)
|}.

Lemma args_builders_correct_witness :
  0 < 100 < 2 ^ 53 ∧
  serves 8 (H := default_args 8 id (λ x _, x)) 100 all_opers
    (default_build id (λ x _, x) 0 d_zero (default_init 100 example_default)).
Proof.
  split; [lia|].
  refine (proj1 (args_builders_correct 8 id id (λ x _, x) 0 d_zero 100 _) example_default _ _); [lia| |].
  - split; [by vm_compute|]. intros h Hh. vm_compute in Hh. injection Hh as <-. simpl. lia.
  - apply dm_build_ok; [intros l; symmetry; apply Permutation_rev|lia].
Defined.

Definition example_window : MovingWindowRangeArgsGeneratorBuilder := {|
  mb_range_ := 1; mb_window_size_ := 100; mb_interval_ := 9; mb_stage_duration_ := 2;
  mb_window_begin_fractions_ := [d_zero; d_lit 1 2]; mb_window_begins_ := [];
  mb_data_map_builder_ := IdDataMapBuilder
|}.

Lemma moving_window_correct_witness :
  ∃ b', moving_window_init 1000 example_window = Some b' ∧ mb_window_begins_ b' = [0; 450] ∧
    ∃ ps g' r', run_opers (replicate 3 ORange) (moving_window_build b', setSeed 7) = Ok (ps, (g', r')) ∧
      ∃ p, ps !! 2%nat = Some p ∧ 451 ≤ p.1 ∧ p.2 ≤ 550.
Proof.
  destruct (moving_window_correct 1000 example_window) as (b' & Hi & _ & _ & Hruns); [lia|simpl; lia| |done|simpl..|].
  - repeat constructor; by vm_compute.
  - unfold modulus64. lia.
  - by vm_compute.
  - exists b'. split; [done|]. assert (mb_window_begins_ b' = [0; 450]) as Hb.
    { vm_compute in Hi. injection Hi as <-. done. }
    split; [done|]. destruct (Hruns 3%nat (setSeed 7)) as (ps & g' & r' & Hrun & Hlen & Hall).
    exists ps, g', r'. split; [done|]. destruct ps as [|? [|? [|p ps]]]; try discriminate Hlen.
    exists p. split; [done|]. destruct (Hall 2%nat p eq_refl) as (o & Ho & ->).
    rewrite Hb. simpl in Ho |- *. unfold get. simpl. lia.
Defined.

(** ** Configurations outside of the theorems *)

(** An [interval] as large as the range is not clamped: the query ends after the
    last key of the range. *)
Lemma moving_window_interval_too_large :
  ∃ b', moving_window_init 10 {| mb_range_ := 1; mb_window_size_ := 1; mb_interval_ := 10;
      mb_stage_duration_ := 1; mb_window_begin_fractions_ := []; mb_window_begins_ := [];
      mb_data_map_builder_ := IdDataMapBuilder |} = Some b' ∧
    ∃ st, next_range (moving_window_build b', setSeed 7) = Ok ((1, 11), st).
Proof. eexists. split; [done|]. eexists. by vm_compute. Qed.

(** [--time_] wraps around before the first call, and the comparison with the first
    hot time is then true: an interval asked first skips the first hot phase. *)
Lemma temporary_first_range_relaxes fuel exp pow g r t :
  ts_time_ g = 0 → ts_pointer_ g = 0 → ts_is_relax_time_ g = false → ts_hot_times_ g !! 0%nat = Some t →
  let g' := at_time (0 -₆₄ 1) 0 false g in
  next_range (ArgsGenerator := temporary_skewed_args fuel exp pow) (g, r) =
    (left ← temporary_next fuel exp pow; right ← temporary_next fuel exp pow; mret (ordered left right)) (g', r) ∧
  ∃ h, update_pointer (g', r) = Ok ((), (h, r)) ∧ ts_is_relax_time_ h = true.
Proof.
  intros H0 Hp Hrel Ht g'. split.
  { simpl. unfold get_gen, put_gen, mbind, prog_bind. simpl. by rewrite H0, Hp, Hrel. }
  unfold update_pointer, get_gen, put_gen, at_index, of_option, mbind, prog_bind, mret, prog_ret.
  simpl. change (Z.to_nat 0) with 0%nat. rewrite Ht. simpl. assert ((u64 t <=? 0 -₆₄ 1) = true) as ->.
  { pose proof (u64_range t). unfold is_u64 in *. apply Z.leb_le.
    change (0 -₆₄ 1) with (modulus64 - 1). lia. }
  by eexists.
Qed.
