(* ===== verification/ThreadLoops.v ===== *)
(** The thread loops of the SetBench microbenchmark and its check sum
    ([Benchmark-v700/cpp/microbench/workloads/thread_loops], [stop_condition],
    [parameters.h] and [run] of [main.cpp]).

    A thread repeats [step] until its stop condition holds; a step draws an
    operation, asks its generator for a key and calls the data structure, and
    counts what it did in the thread's statistics. The threads share the data
    structure and the stop condition; a run is a sequence of their turns, each with
    at most one call. The file is written against two interfaces: [ArgsGeneratorOk]
    for the generators and [SetAdapter] for the data structure, which the adapter of
    the adaptive locks implements. The theorems: the sums kept after the prefill and
    the warm-up and the sum printed after the test are those of the keys in the set,
    and a stage that is limited by an [OperationCounter] ends after exactly that many
    operations. *)
From S2P Require Import Double Rng Distributions Args ArgsLaws Adapter Prelude.

#[export] Instance value_eq_dec : EqDecision Value.
Proof. solve_decision. Defined.

(** ** The data structure *)

(** The part of a [ds_adapter] that the thread loops use; [None] when a call exits or
    is undefined. A call has the number of its thread and the time it waits for locks; [ds_holds n d keys]: [d] holds the set
    [keys] and is ready for the keys [[1, n]]. *)
Class SetAdapter (D : Type) := {
  getNoValue : Value;
  ds_insertIfAbsent : nat → Z → Z → D → option (Value * D);
  ds_erase : nat → Z → Z → D → option (Value * D);
  ds_find : nat → Z → Z → D → option (Value * D);
  ds_contains : nat → Z → Z → D → option (bool * D);
  (** The keys it has put into [rqResultKeys]. *)
  ds_rangeQuery : nat → Z → Z → Z → D → option (list Z * D);
  (** [false] when [rangeQuery] is [setbench_error]. *)
  ds_ranges : bool;
  ds_holds : Z → D → gset Z → Prop;
  ds_insert_law n d keys t delta key : ds_holds n d keys → 1 ≤ key ≤ n →
    ∃ v d', ds_insertIfAbsent t delta key d = Some (v, d') ∧ (v = getNoValue ↔ key ∉ keys) ∧
      ds_holds n d' ({[key]} ∪ keys);
  ds_erase_law n d keys t delta key : ds_holds n d keys → 1 ≤ key ≤ n →
    ∃ v d', ds_erase t delta key d = Some (v, d') ∧ (v = getNoValue ↔ key ∉ keys) ∧
      ds_holds n d' (keys ∖ {[key]});
  ds_find_law n d keys t delta key : ds_holds n d keys → 1 ≤ key ≤ n →
    ∃ v d', ds_find t delta key d = Some (v, d') ∧ (v = getNoValue ↔ key ∉ keys) ∧ ds_holds n d' keys;
  ds_contains_law n d keys t delta key : ds_holds n d keys → 1 ≤ key ≤ n →
    ∃ d', ds_contains t delta key d = Some (bool_decide (key ∈ keys), d') ∧ ds_holds n d' keys;
  ds_range_law n d keys t delta l r : ds_ranges = true → ds_holds n d keys → 1 ≤ l ≤ r → r ≤ n →
    ∃ ks d', ds_rangeQuery t delta l r d = Some (ks, d') ∧ ds_holds n d' keys
}.

(** ** The statistics of a thread *)

(** [long long] counters. A count cannot overflow, [key_checksum] may. *)
Record Stats := {
  key_checksum : Z;
  num_successful_inserts : Z;
  num_fail_inserts : Z;
  num_inserts : Z;
  num_successful_removes : Z;
  num_fail_removes : Z;
  num_removes : Z;
  num_successful_searches : Z;
  num_fail_searches : Z;
  num_searches : Z;
  num_rq : Z;
  num_operations : Z
}.

Definition no_stats : Stats := {|
  key_checksum := 0; num_successful_inserts := 0; num_fail_inserts := 0; num_inserts := 0;
  num_successful_removes := 0; num_fail_removes := 0; num_removes := 0;
  num_successful_searches := 0; num_fail_searches := 0; num_searches := 0;
  num_rq := 0; num_operations := 0
|}.

(** [GSTATS_ADD(threadId, ...)] of one insert, remove, search or range query. *)
Definition count_insert (success : bool) (key : Z) (s : Stats) : Stats :=
  let s :=
    if success then
      {| s with key_checksum := s64 (key_checksum s + key);
                num_successful_inserts := num_successful_inserts s + 1 |}
    else {| s with num_fail_inserts := num_fail_inserts s + 1 |} in
  {| s with num_inserts := num_inserts s + 1; num_operations := num_operations s + 1 |}.

Definition count_remove (success : bool) (key : Z) (s : Stats) : Stats :=
  let s :=
    if success then
      {| s with key_checksum := s64 (key_checksum s - key);
                num_successful_removes := num_successful_removes s + 1 |}
    else {| s with num_fail_removes := num_fail_removes s + 1 |} in
  {| s with num_removes := num_removes s + 1; num_operations := num_operations s + 1 |}.

Definition count_search (success : bool) (s : Stats) : Stats :=
  let s :=
    if success then {| s with num_successful_searches := num_successful_searches s + 1 |}
    else {| s with num_fail_searches := num_fail_searches s + 1 |} in
  {| s with num_searches := num_searches s + 1; num_operations := num_operations s + 1 |}.

Definition count_rq (s : Stats) : Stats :=
  {| s with num_rq := num_rq s + 1; num_operations := num_operations s + 1 |}.

(** The members of [ThreadLoop] that its [execute_] methods change. *)
Record Local := { garbage : Z; rq_cnt : Z; stats : Stats }.

Definition add_garbage (z : Z) (l : Local) : Local := {| l with garbage := s64 (garbage l + z) |}.
Definition set_stats (f : Stats → Stats) (l : Local) : Local := {| l with stats := f (stats l) |}.

Section Execute.
  Context {D : Type} `{SetAdapter D}.
  Implicit Types (st : D * Local).

Definition execute_insert (t : nat) (delta key : Z) st : option (Value * (D * Local)) :=
  '(value, d) ← ds_insertIfAbsent t delta key st.1;
  Some (value, (d, set_stats (count_insert (bool_decide (value = getNoValue)) key) st.2)).

Definition execute_remove (t : nat) (delta key : Z) st : option (Value * (D * Local)) :=
  '(value, d) ← ds_erase t delta key st.1;
  Some (value, (d, set_stats (count_remove (bool_decide (value ≠ getNoValue)) key) st.2)).

Definition execute_get (t : nat) (delta key : Z) st : option (Value * (D * Local)) :=
  '(value, d) ← ds_find t delta key st.1;
  let l := if bool_decide (value ≠ getNoValue) then add_garbage key st.2 else st.2 in
  Some (value, (d, set_stats (count_search (bool_decide (value ≠ getNoValue))) l)).

Definition execute_contains (t : nat) (delta key : Z) st : option (bool * (D * Local)) :=
  '(value, d) ← ds_contains t delta key st.1;
  let l : Local := if (value : bool) then add_garbage key st.2 else st.2 in
  Some (value, (d, set_stats (count_search value) l)).

Definition execute_range_query (t : nat) (delta leftKey rightKey : Z) st : option (D * Local) :=
  let l := st.2 in
  let l := {| l with rq_cnt := s32 (rq_cnt l + 1) |} in
  '(rqResultKeys, d) ← ds_rangeQuery t delta leftKey rightKey st.1;
  let rqcnt := len rqResultKeys in
  let l := if rqcnt =? 0 then l else add_garbage (rqResultKeys.[0] + rqResultKeys.[rqcnt - 1]) l in
  Some (d, set_stats count_rq l).

End Execute.

(** ** The loops *)

(** [cdf_[0]], [cdf_[1]] and [cdf_[2]]. *)
Record Cdf := { cdf0 : double; cdf1 : double; cdf2 : double }.

Record RatioThreadLoopParameters := { INS_RATIO : double; REM_RATIO : double; RQ_RATIO : double }.

Definition make_cdf (p : RatioThreadLoopParameters) : Cdf :=
  {| cdf0 := INS_RATIO p; cdf1 := INS_RATIO p +ᵈ REM_RATIO p;
     cdf2 := INS_RATIO p +ᵈ REM_RATIO p +ᵈ RQ_RATIO p |}.

Record TemporaryOperationThreadLoop := {
  to_cdf_ : list Cdf;
  to_time_ : Z;
  to_pointer_ : Z;
  to_stages_number_ : Z;
  to_stages_durations_ : list Z
}.

Inductive Loop :=
  | DefaultThreadLoop (cdf_ : Cdf)
  | TemporaryLoop (l : TemporaryOperationThreadLoop)
  | PrefillInsertThreadLoop (number_of_attempts_ : Z).

Definition TemporaryOperationThreadLoop_make (stages_number : Z) (durations : list Z)
    (ratios : list RatioThreadLoopParameters) : TemporaryOperationThreadLoop :=
  {| to_cdf_ := make_cdf <$> ratios; to_time_ := 0; to_pointer_ := 0;
     to_stages_number_ := stages_number; to_stages_durations_ := durations |}.

Definition update_stage {G} (l : TemporaryOperationThreadLoop) : prog G TemporaryOperationThreadLoop :=
  d ← at_index (to_stages_durations_ l) (to_pointer_ l);
  let l :=
    if d <=? to_time_ l then
      let pointer := to_pointer_ l +₆₄ 1 in
      {| l with to_time_ := 0; to_pointer_ := if to_stages_number_ l <=? pointer then 0 else pointer |}
    else l in
  mret {| l with to_time_ := to_time_ l +₆₄ 1 |}.

(** What a step asks of the data structure. *)
Inductive Call :=
  | CallInsert (key : Z)
  | CallRemove (key : Z)
  | CallRange (left right : Z)
  | CallGet (key : Z).

(** The chain of comparisons of [step]. *)
Definition pick (cdf : Cdf) (op : double) : oper :=
  if op <?ᵈ cdf0 cdf then OInsert
  else if op <?ᵈ cdf1 cdf then ORemove
  else if op <?ᵈ cdf2 cdf then ORange
  else OGet.

(** A step has retried an insert [attempts] times, or is about to ask the stop
    condition, or the thread has left its loop. *)
Inductive Phase :=
  | Checking
  | Retrying (counter : Z)
  | Stopped.

#[export] Instance phase_eq_dec : EqDecision Phase.
Proof. solve_decision. Defined.

(** [counters_] is null until [start]. *)
Inductive StopCondition :=
  | OperationCounter (common_operation_limit_ : Z) (counters_ : list Z)
  | Timer (stop_ : bool).

(** The loop of [OperationCounter::start]: the quotient and the remainder, of type
    [size_t], are converted to [int64_t]. *)
Definition counter_start (common_operation_limit_ num_threads : Z) : list Z :=
  let operation_limit := s64 (common_operation_limit_ / num_threads) in
  let remainder := s64 (common_operation_limit_ `mod` num_threads) in
  (for_range 0 num_threads
     (λ i '(counters_, remainder),
        let remainder := s64 (remainder - 1) in
        (counters_.[i <- s64 (operation_limit + (if 0 <=? remainder then 1 else 0))], remainder))
     (replicate (Z.to_nat num_threads) 0, remainder)).1.

(** A share of [2^63] or more is not an [int64_t]: here the one thread stops at once. *)
Example counter_start_wraps : counter_start (2 ^ 64 - 1) 1 = [-1].
Proof. reflexivity. Qed.

(** [start(num_threads)]; the counter divides by the number of threads. *)
Definition stop_start (num_threads : Z) (s : StopCondition) : res StopCondition :=
  match s with
  | OperationCounter limit _ =>
      if num_threads =? 0 then Undefined
      else Ok (OperationCounter limit (counter_start limit num_threads))
  | Timer _ => Ok (Timer false)
  end.

(** [is_stopped(id)]. *)
Definition is_stopped (t : nat) (s : StopCondition) : bool * StopCondition :=
  match s with
  | OperationCounter limit counters_ =>
      let c := s64 (counters_.[Z.of_nat t] - 1) in
      (c <? 0, OperationCounter limit counters_.[Z.of_nat t <- c])
  | Timer stop_ => (stop_, s)
  end.

(** [GET_FUNC] is [execute_contains] with [REDIS] and [execute_get] otherwise. *)
Section Loops.
  Context {G : Type} `{AG : ArgsGenerator G}.
  Context {D : Type} `{DS : SetAdapter D}.
  Variable redis : bool.

Record Thread := {
  th_loop : Loop;
  th_gen : G;
  th_rng : Random64;
  th_local : Local;
  th_phase : Phase;
  th_warnings : Z
}.

Record World := { w_ds : D; w_stop : StopCondition; w_threads : list Thread }.

Definition next_call (cdf : Cdf) : prog G Call :=
  v ← rng_next;
  match pick cdf (unit_of v) with
  | OInsert => key ← next_insert; mret (CallInsert key)
  | ORemove => key ← next_remove; mret (CallRemove key)
  | ORange => keys ← next_range; mret (CallRange keys.1 keys.2)
  | OGet => key ← next_get; mret (CallGet key)
  end.

(** The part of [step] before the call. *)
Definition choose_call (l : Loop) : prog G (Call * Loop) :=
  match l with
  | DefaultThreadLoop cdf_ => c ← next_call cdf_; mret (c, l)
  | TemporaryLoop lt =>
      lt ← update_stage lt;
      cdf_ ← at_index (to_cdf_ lt) (to_pointer_ lt);
      c ← next_call cdf_; mret (c, TemporaryLoop lt)
  | PrefillInsertThreadLoop _ => key ← next_insert; mret (CallInsert key, l)
  end.

(** The call, and the value it returned. *)
Definition execute (t : nat) (delta : Z) (c : Call) (st : D * Local) : option (Value * (D * Local)) :=
  match c with
  | CallInsert key => execute_insert t delta key st
  | CallRemove key => execute_remove t delta key st
  | CallRange l r => st ← execute_range_query t delta l r st; Some (getNoValue, st)
  | CallGet key =>
      if redis then '(_, st) ← execute_contains t delta key st; Some (getNoValue, st)
      else execute_get t delta key st
  end.

(** The condition of the [do ... while] of [PrefillInsertThreadLoop::step] and the
    warning after it; the other loops make one call per step. *)
Definition after_call (l : Loop) (counter : Z) (value : Value) : Phase * Z :=
  match l with
  | PrefillInsertThreadLoop number_of_attempts_ =>
      let counter := counter +₆₄ 1 in
      if bool_decide (value ≠ getNoValue) then
        if counter <? number_of_attempts_ then (Retrying counter, 0) else (Checking, 1)
      else (Checking, 0)
  | _ => (Checking, 0)
  end.

Definition attempt (t : nat) (delta counter : Z) (th : Thread) (w : World) : res World :=
  match choose_call (th_loop th) (th_gen th, th_rng th) with
  | Ok ((c, l), (g, r)) =>
      match execute t delta c (w_ds w, th_local th) with
      | None => Undefined
      | Some (value, (d, loc)) =>
          let '(phase, warnings) := after_call l counter value in
          Ok {| w_ds := d; w_stop := w_stop w;
                w_threads := <[t := {| th_loop := l; th_gen := g; th_rng := r; th_local := loc;
                                       th_phase := phase; th_warnings := th_warnings th + warnings |}]>
                               (w_threads w) |}
      end
  | SetbenchError => SetbenchError
  | Undefined => Undefined
  | OutOfFuel => OutOfFuel
  end.

(** One turn of thread [t]; a thread that has left its loop does nothing. *)
Definition turn (t : nat) (delta : Z) (w : World) : res World :=
  match w_threads w !! t with
  | None => Ok w
  | Some th =>
      match th_phase th with
      | Stopped => Ok w
      | Retrying counter => attempt t delta counter th w
      | Checking =>
          let '(stopped, s) := is_stopped t (w_stop w) in
          let w := {| w with w_stop := s |} in
          if stopped then Ok {| w with w_threads := <[t := {| th with th_phase := Stopped |}]> (w_threads w) |}
          else attempt t delta 0 th w
      end
  end.

(** What the scheduler and the clock decide. *)
Inductive event :=
  | Turn (t : nat) (delta : Z)
  | TimerFires.

Definition event_step (e : event) (w : World) : res World :=
  match e with
  | Turn t delta => turn t delta w
  | TimerFires =>
      match w_stop w with
      | Timer _ => Ok {| w with w_stop := Timer true |}
      | _ => Ok w
      end
  end.

Fixpoint run_events (es : list event) (w : World) : res World :=
  match es with
  | [] => Ok w
  | e :: es =>
      match event_step e w with
      | Ok w => run_events es w
      | r => r
      end
  end.

Definition all_stopped (w : World) : Prop := Forall (λ th, th_phase th = Stopped) (w_threads w).

#[export] Instance all_stopped_dec w : Decision (all_stopped w).
Proof. unfold all_stopped. apply _. Defined.

(** ** Stages *)

(** The numbers of the builders of [get_workload], thread by thread; [None] when it
    reads after the last of them. *)
Definition get_workload (quantities : list Z) (num_threads : Z) : option (list Z) :=
  '(_, _, workload) ← for_opt 0 num_threads
    (λ _ '(i, cur_quantity, workload),
       q ← quantities !! Z.to_nat i;
       let '(i, cur_quantity) := if q <=? cur_quantity then (i + 1, 0) else (i, cur_quantity) in
       _ ← quantities !! Z.to_nat i;
       Some (i, cur_quantity + 1, workload ++ [i])) (0, 0, []);
  Some workload.

(** The [Parameters] of the prefill, the warm-up or the test: the loops of the threads
    with their generators, the stop condition, and what the scheduler does. *)
Record Stage := { sg_threads : list (Loop * G); sg_stop : StopCondition; sg_events : list event }.

(** What [globals_t] keeps between the stages. *)
Record Globals := { g_ds : D; g_rngs : list Random64; curKeySum : Z; curSize : Z }.

Definition start_thread (p : Loop * G) (r : Random64) : Thread :=
  {| th_loop := p.1; th_gen := p.2; th_rng := r;
     th_local := {| garbage := 0; rq_cnt := 0; stats := no_stats |};
     th_phase := Checking; th_warnings := 0 |}.

(** The threads before their first step; [stop] is the started stop condition. The
    statistics are zero at first and [GSTATS_CLEAR_ALL] follows the other stages. *)
Definition start_stage (st : Stage) (stop : StopCondition) (b : Globals) : World :=
  {| w_ds := g_ds b; w_stop := stop; w_threads := zip_with start_thread (sg_threads st) (g_rngs b) |}.

(** [execute]: a schedule that ends before the threads have is out of fuel. *)
Definition execute_stage (st : Stage) (b : Globals) : res World :=
  res_bind (stop_start (len (sg_threads st)) (sg_stop st)) (λ stop,
  res_bind (run_events (sg_events st) (start_stage st stop b)) (λ w,
  if decide (all_stopped w) then Ok w else OutOfFuel)).

(** The data structure and the generators of random numbers after [execute]. *)
Definition after_stage (w : World) (b : Globals) : Globals :=
  {| b with g_ds := w_ds w;
            g_rngs := (th_rng <$> w_threads w) ++ drop (length (w_threads w)) (g_rngs b) |}.

(** [GSTATS_OBJECT_NAME.get_sum] *)
Definition get_sum (f : Stats → Z) (w : World) : Z := s64 (zsum ((λ th, f (stats (th_local th))) <$> w_threads w)).

(** What [run] adds up after the prefill and after the warm-up. *)
Definition add_sums (w : World) (b : Globals) : Globals :=
  {| b with curKeySum := s64 (curKeySum b + get_sum key_checksum w);
            curSize := s64 (curSize b +
              (get_sum num_successful_inserts w - get_sum num_successful_removes w)) |}.

(** The prefill and the warm-up of [run]: skipped without threads. *)
Definition filling_stage (st : Stage) (b : Globals) : res Globals :=
  if sg_threads st is [] then Ok b
  else res_bind (execute_stage st b) (λ w, Ok (add_sums w (after_stage w b))).

Definition fill_stages (prefill warmUp : Stage) (b : Globals) : res Globals :=
  res_bind (filling_stage prefill b) (filling_stage warmUp).

(** [run]: the test is always executed; its threads' statistics stay. *)
Definition run (prefill warmUp test : Stage) (b : Globals) : res (World * Globals) :=
  res_bind (fill_stages prefill warmUp b) (λ b,
  res_bind (execute_stage test b) (λ w, Ok (w, after_stage w b))).

(** [threads_key_sum] of [print_output]. *)
Definition threads_final_keysum (p : World * Globals) : Z := s64 (get_sum key_checksum p.1 + curKeySum p.2).

End Loops.

Arguments Thread G : clear implicits.
Arguments World G D : clear implicits.
Arguments Stage G : clear implicits.
Arguments Globals D : clear implicits.
