(* ===== verification/Checksum.v ===== *)
(** The check sum of the SetBench microbenchmark.

    Every call that changes the set changes the statistics of its thread by the same
    amount. This file shows it for one call, for one turn of a thread and for a
    whole run of [ThreadLoops], and that the adapter of the adaptive locks is a data
    structure these theorems apply to. *)
From S2P Require Import Double Rng Distributions Args ArgsLaws QueryLock Adapter NaiveLock ThreadLoops Prelude.

(** ** Sums of keys, and 64-bit sums *)

Definition key_sum (keys : gset Z) : Z := zsum (elements keys).
Definition key_count (keys : gset Z) : Z := Z.of_nat (size keys).

Lemma key_sum_insert k keys : k ∉ keys → key_sum ({[k]} ∪ keys) = key_sum keys + k.
Proof.
  intros Hk. unfold key_sum. rewrite (zsum_perm _ _ (elements_union_singleton keys k Hk)), zsum_cons. lia.
Qed.

Lemma key_count_insert k keys : k ∉ keys → key_count ({[k]} ∪ keys) = key_count keys + 1.
Proof. intros Hk. unfold key_count. rewrite size_union, size_singleton by (clear -Hk; set_solver). lia. Qed.

Lemma key_remove k keys : k ∈ keys →
  key_sum (keys ∖ {[k]}) = key_sum keys - k ∧ key_count (keys ∖ {[k]}) = key_count keys - 1.
Proof.
  intros Hk. pose proof (union_difference_singleton_L k keys Hk) as Heq.
  assert (k ∉ keys ∖ {[k]}) as Hn by (rewrite elem_of_difference, elem_of_singleton; tauto).
  pose proof (key_sum_insert k _ Hn) as H1. pose proof (key_count_insert k _ Hn) as H2.
  rewrite <-Heq in H1, H2. lia.
Qed.

Lemma u64_s64 z : u64 (s64 z) = u64 z.
Proof.
  unfold u64, s64. rewrite Zminus_mod_idemp_l. f_equal. lia.
Qed.

Lemma s64_u64 a b : u64 a = u64 b → s64 a = s64 b.
Proof.
  unfold u64, s64. intros Heq. f_equal. by rewrite <-(Zplus_mod_idemp_l a), Heq, Zplus_mod_idemp_l.
Qed.

Lemma u64_plus a a' b b' : u64 a = u64 a' → u64 b = u64 b' → u64 (a + b) = u64 (a' + b').
Proof. unfold u64. intros Ha Hb. by rewrite Zplus_mod, Ha, Hb, <-Zplus_mod. Qed.

Lemma u64_minus a a' b b' : u64 a = u64 a' → u64 b = u64 b' → u64 (a - b) = u64 (a' - b').
Proof. unfold u64. intros Ha Hb. by rewrite Zminus_mod, Ha, Hb, <-Zminus_mod. Qed.

Lemma u64_diff a b d : u64 a = u64 (b + d) → u64 (a - b) = u64 d.
Proof.
  unfold u64. intros Heq. rewrite <-Zminus_mod_idemp_l, Heq, Zminus_mod_idemp_l. f_equal. lia.
Qed.

Section Checksum.
  Variable fuel : nat.
  Context {G : Type} `{AGO : ArgsGeneratorOk fuel G}.
  Context {D : Type} `{DS : SetAdapter D}.
  Variables (redis : bool) (n : Z).

(** ** One call *)

Definition stats_ok (s : Stats) : Prop :=
  0 ≤ num_successful_inserts s ∧ 0 ≤ num_fail_inserts s ∧ 0 ≤ num_successful_removes s ∧
  0 ≤ num_fail_removes s ∧ 0 ≤ num_successful_searches s ∧ 0 ≤ num_fail_searches s ∧ 0 ≤ num_rq s ∧
  num_inserts s = num_successful_inserts s + num_fail_inserts s ∧
  num_removes s = num_successful_removes s + num_fail_removes s ∧
  num_searches s = num_successful_searches s + num_fail_searches s ∧
  num_operations s = num_inserts s + num_removes s + num_searches s + num_rq s.

Definition call_ok (c : Call) : Prop :=
  match c with
  | CallInsert k | CallRemove k | CallGet k => 1 ≤ k ≤ n
  | CallRange l r => ds_ranges = true ∧ 1 ≤ l ≤ r ∧ r ≤ n
  end.

(** The data structure supports the operations. *)
Definition ranges_ok (ops : oper → bool) : Prop := ops ORange = true → ds_ranges = true.

(** The statistics changed as the set did. *)
Definition counted (c : Call) (v : Value) (s s' : Stats) (keys keys' : gset Z) : Prop :=
  u64 (key_checksum s') = u64 (key_checksum s + (key_sum keys' - key_sum keys)) ∧
  num_successful_inserts s' - num_successful_removes s' =
    num_successful_inserts s - num_successful_removes s + (key_count keys' - key_count keys) ∧
  num_operations s' = num_operations s + 1 ∧ (stats_ok s → stats_ok s') ∧
  match c with
  | CallInsert _ => num_successful_inserts s' =
      num_successful_inserts s + if bool_decide (v = getNoValue) then 1 else 0
  | _ => True
  end.

Lemma counted_same c v s s' keys :
  match c with CallInsert _ => False | _ => True end →
  key_checksum s' = key_checksum s → num_successful_inserts s' = num_successful_inserts s →
  num_successful_removes s' = num_successful_removes s → num_operations s' = num_operations s + 1 →
  (stats_ok s → stats_ok s') → counted c v s s' keys keys.
Proof.
  intros Hc H1 H2 H3 H4 H5. unfold counted. rewrite H1, H2, H3, H4. split_and!; try done.
  - f_equal. lia.
  - lia.
  - by destruct c.
Qed.

Lemma execute_insert_counted t delta k d l keys :
  ds_holds n d keys → 1 ≤ k ≤ n → ∃ v d' l', execute_insert t delta k (d, l) = Some (v, (d', l')) ∧
    ds_holds n d' ({[k]} ∪ keys) ∧ counted (CallInsert k) v (stats l) (stats l') keys ({[k]} ∪ keys).
Proof.
  intros Hd Hk. destruct (ds_insert_law n d keys t delta k Hd Hk) as (v & d' & Hcall & Hv & Hd').
  unfold execute_insert. cbn [fst snd]. rewrite Hcall. simpl. eexists v, d', _. split; [done|]. split; [done|].
  unfold counted, stats_ok. case_bool_decide as Hn; simpl; unfold count_insert; simpl.
  - apply Hv in Hn. rewrite key_sum_insert, key_count_insert by done.
    split_and!; try lia. rewrite u64_s64. f_equal. lia.
  - assert (k ∈ keys) as Hin by (destruct (decide (k ∈ keys)); [done|destruct Hn; by apply Hv]).
    rewrite (subseteq_union_1_L {[k]} keys) by (by apply singleton_subseteq_l). split_and!; try lia. f_equal. lia.
Qed.

Lemma execute_remove_counted t delta k d l keys :
  ds_holds n d keys → 1 ≤ k ≤ n → ∃ v d' l', execute_remove t delta k (d, l) = Some (v, (d', l')) ∧
    ds_holds n d' (keys ∖ {[k]}) ∧ counted (CallRemove k) v (stats l) (stats l') keys (keys ∖ {[k]}).
Proof.
  intros Hd Hk. destruct (ds_erase_law n d keys t delta k Hd Hk) as (v & d' & Hcall & Hv & Hd').
  unfold execute_remove. cbn [fst snd]. rewrite Hcall. simpl. eexists v, d', _. split; [done|]. split; [done|].
  unfold counted, stats_ok. case_bool_decide as Hn; simpl; unfold count_remove; simpl.
  - assert (k ∈ keys) as Hin by (destruct (decide (k ∈ keys)); [done|destruct Hn; by apply Hv]).
    destruct (key_remove k keys Hin) as [-> ->]. split_and!; try lia. rewrite u64_s64. f_equal. lia.
  - assert (k ∉ keys) as Hin by (apply Hv; by destruct (decide (v = getNoValue))).
    rewrite (difference_disjoint_L keys {[k]}) by (by apply disjoint_singleton_r). split_and!; try lia. f_equal. lia.
Qed.

Lemma stats_search b s : stats_ok s → stats_ok (count_search b s).
Proof. unfold stats_ok, count_search. destruct b; simpl; lia. Qed.

Lemma execute_counted t delta c d l keys :
  ds_holds n d keys → call_ok c → ∃ v d' l' keys', execute redis t delta c (d, l) = Some (v, (d', l')) ∧
    ds_holds n d' keys' ∧ counted c v (stats l) (stats l') keys keys'.
Proof.
  intros Hd Hc. destruct c as [k|k|lo hi|k]; simpl in Hc; cbn [execute].
  - destruct (execute_insert_counted t delta k d l keys Hd Hc) as (v & d' & l' & H1 & H2 & H3). eauto 10.
  - destruct (execute_remove_counted t delta k d l keys Hd Hc) as (v & d' & l' & H1 & H2 & H3). eauto 10.
  - destruct Hc as [Hr Hc]. destruct (ds_range_law n d keys t delta lo hi Hr Hd) as (ks & d' & Hcall & Hd'); [lia..|].
    unfold execute_range_query. cbn [fst snd]. rewrite Hcall. simpl.
    eexists _, d', _, keys. split; [done|]. split; [done|].
    apply counted_same; [done|..]; destruct (_ =? 0); simpl; try done; unfold stats_ok; simpl; lia.
  - destruct redis.
    + destruct (ds_contains_law n d keys t delta k Hd Hc) as (d' & Hcall & Hd').
      unfold execute_contains. cbn [fst snd]. rewrite Hcall. simpl.
      eexists _, d', _, keys. split; [done|]. split; [done|].
      apply counted_same; try done; destruct (bool_decide _); simpl; try done; apply stats_search.
    + destruct (ds_find_law n d keys t delta k Hd Hc) as (v & d' & Hcall & Hv & Hd').
      unfold execute_get. cbn [fst snd]. rewrite Hcall. simpl.
      eexists _, d', _, keys. split; [done|]. split; [done|].
      apply counted_same; try done; destruct (bool_decide _); simpl; try done; apply stats_search.
Qed.

(** ** One turn of a thread *)

Definition cdf_ok (ops : oper → bool) (cdf : Cdf) : Prop :=
  ∀ v, 0 ≤ v < max_value → ops (pick cdf (unit_of v)) = true.

(** The loop only picks operations that its generator supports. *)
Definition loop_ok (ops : oper → bool) (l : Loop) : Prop :=
  match l with
  | DefaultThreadLoop cdf_ => cdf_ok ops cdf_
  | TemporaryLoop lt =>
      0 ≤ to_pointer_ lt < to_stages_number_ lt ∧ to_stages_number_ lt < modulus64 ∧
      length (to_cdf_ lt) = Z.to_nat (to_stages_number_ lt) ∧
      len (to_stages_durations_ lt) = to_stages_number_ lt ∧ Forall (cdf_ok ops) (to_cdf_ lt)
  | PrefillInsertThreadLoop a => ops OInsert = true ∧ is_u64 a
  end.

(** What never changes of a loop. *)
Definition attempts_of (l : Loop) : option Z :=
  match l with PrefillInsertThreadLoop a => Some a | _ => None end.

#[local] Abbreviation spec := (spec fuel).
#[local] Abbreviation gen_ok := (gen_ok fuel).

Lemma next_call_ok ops cdf g r :
  gen_ok n ops g → ranges_ok ops → cdf_ok ops cdf → words_ok r →
  spec (next_call cdf) g r (λ c g', call_ok c ∧ gen_ok n ops g').
Proof.
  intros Hg Hro Hcdf Hr. unfold next_call.
  apply spec_bind with (λ v g', 0 ≤ v < max_value ∧ g' = g); [done|by apply spec_rng_next|].
  intros v g' r' Hr' [Hv ->]. cbn beta. specialize (Hcdf v Hv).
  assert (∀ (next : prog G Z) (C : Z → Call), spec next g r' (λ k g', 1 ≤ k ≤ n ∧ gen_ok n ops g') →
    (∀ k, 1 ≤ k ≤ n → call_ok (C k)) →
    spec (k ← next; mret (C k)) g r' (λ c g', call_ok c ∧ gen_ok n ops g')) as Hkey.
  { intros next C Hnext HC. eapply spec_bind; [done|exact Hnext|]. intros k g' r2 _ [Hk Hg'].
    apply spec_ret. auto. }
  destruct (pick cdf (unit_of v)).
  - apply (Hkey _ CallGet); [by apply next_get_ok|done].
  - apply (Hkey _ CallInsert); [by apply next_insert_ok|done].
  - apply (Hkey _ CallRemove); [by apply next_remove_ok|done].
  - eapply spec_bind; [done|by apply (next_range_ok fuel n ops)|]. intros p g' r2 _ (H1 & H2 & Hg').
    apply spec_ret. simpl. split; [split; [by apply Hro|tauto]|done].
Qed.

Lemma update_stage_ok ops lt (g : G) r :
  loop_ok ops (TemporaryLoop lt) → words_ok r →
  spec (update_stage lt) g r (λ lt' g', loop_ok ops (TemporaryLoop lt') ∧ g' = g).
Proof.
  intros (Hp & Hs & Hl1 & Hl2 & HF) Hr. unfold update_stage.
  apply spec_bind with (λ _ g', g' = g); [done| |].
  { apply (spec_at _ _ _ ((to_stages_durations_ lt).[to_pointer_ lt])); [apply get_lookup; lia|done]. }
  intros d g' r' _ ->. apply spec_ret. split; [|done].
  destruct (_ <=? _); simpl; split_and!; try done; try lia.
  all: rewrite u64_add_small by lia; zbool; lia.
Qed.

Lemma choose_call_ok ops l g r :
  gen_ok n ops g → ranges_ok ops → loop_ok ops l → words_ok r →
  spec (choose_call l) g r (λ p g', call_ok p.1 ∧ loop_ok ops p.2 ∧ attempts_of p.2 = attempts_of l ∧
    (attempts_of l ≠ None → ∃ k, p.1 = CallInsert k) ∧ gen_ok n ops g').
Proof.
  intros Hg Hro Hl Hr. destruct l as [cdf|lt|a]; cbn [choose_call].
  - eapply spec_bind; [done|by eapply next_call_ok|]. intros c g' r' _ [Hc Hg']. by apply spec_ret.
  - eapply spec_bind; [done|by apply (update_stage_ok ops)|]. intros lt' g' r' Hr' [Hl' ->].
    pose proof Hl' as (Hp & _ & Hlen & _ & HF).
    destruct (to_cdf_ lt' !! Z.to_nat (to_pointer_ lt')) as [cdf|] eqn:Hcdf; [|apply lookup_ge_None in Hcdf; lia].
    apply spec_bind with (λ c g', c = cdf ∧ g' = g); [done|by apply (spec_at _ _ _ cdf)|].
    intros c g' r2 Hr2 [-> ->]. rewrite Forall_lookup in HF.
    eapply spec_bind; [done|eapply next_call_ok; [done|exact Hro|by eapply HF|done]|].
    intros call g' r3 _ [Hc Hg']. by apply spec_ret.
  - destruct Hl as [Ho Ha]. eapply spec_bind; [done|by apply (next_insert_ok fuel n ops)|].
    intros k g' r' _ [Hk Hg']. apply spec_ret. simpl. split; [exact Hk|]. do 2 (split; [done|]). split; [intros _; by exists k|done].
Qed.

(** A retry is one of the attempts. *)
Definition phase_ok (th : Thread G) : Prop :=
  match th_phase th with
  | Retrying c => ∃ a, attempts_of (th_loop th) = Some a ∧ 0 ≤ c < a ∧ a < modulus64
  | _ => True
  end.

Definition thread_ok (th : Thread G) : Prop :=
  words_ok (th_rng th) ∧ phase_ok th ∧ stats_ok (stats (th_local th)) ∧
  ∃ ops, gen_ok n ops (th_gen th) ∧ ranges_ok ops ∧ loop_ok ops (th_loop th).

(** The steps a thread has completed: its operations, or the keys it has inserted
    and the warnings that it could not. *)
Definition completed (th : Thread G) : Z :=
  match th_loop th with
  | PrefillInsertThreadLoop _ => num_successful_inserts (stats (th_local th)) + th_warnings th
  | _ => num_operations (stats (th_local th))
  end.

(** The sums over the threads agree with the set. *)
Definition world_ok (keys0 : gset Z) (w : World G D) : Prop :=
  Forall thread_ok (w_threads w) ∧
  ∃ keys, ds_holds n (w_ds w) keys ∧
    u64 (zsum ((λ th, key_checksum (stats (th_local th))) <$> w_threads w)) =
      u64 (key_sum keys - key_sum keys0) ∧
    zsum ((λ th, num_successful_inserts (stats (th_local th)) - num_successful_removes (stats (th_local th)))
          <$> w_threads w) = key_count keys - key_count keys0.

(** What a call changes for its thread. *)
Definition advanced (counter : Z) (th th' : Thread G) : Prop :=
  attempts_of (th_loop th') = attempts_of (th_loop th) ∧
  match th_phase th' with
  | Checking => completed th' = completed th + 1
  | Retrying c => completed th' = completed th ∧ c = counter +₆₄ 1 ∧
      ∃ a, attempts_of (th_loop th) = Some a ∧ c < a
  | Stopped => False
  end.

Lemma after_call_advanced counter c v l l' phase warn g g' r r' loc loc' p wn keys keys' :
  after_call l' counter v = (phase, warn) → attempts_of l' = attempts_of l →
  (attempts_of l ≠ None → ∃ k, c = CallInsert k) → counted c v (stats loc) (stats loc') keys keys' →
  advanced counter
    {| th_loop := l; th_gen := g; th_rng := r; th_local := loc; th_phase := p; th_warnings := wn |}
    {| th_loop := l'; th_gen := g'; th_rng := r'; th_local := loc'; th_phase := phase;
       th_warnings := wn + warn |}.
Proof.
  intros Hafter Hsame Hins (_ & _ & Hop & _ & Hsucc). unfold advanced, completed. simpl. split; [done|].
  destruct l as [?|?|a], l' as [?|?|a']; simpl in *; simplify_eq; simpl; try done.
  destruct (Hins ltac:(done)) as [k ->].
  destruct (decide (v = getNoValue)); [rewrite bool_decide_false in Hafter by tauto
    |rewrite bool_decide_true in Hafter by done].
  - injection Hafter as <- <-. rewrite bool_decide_true in Hsucc by done. lia.
  - rewrite bool_decide_false in Hsucc by done. destruct (Z.ltb_spec (counter +₆₄ 1) a).
    + injection Hafter as <- <-. split; [lia|]. split; [done|]. by exists a.
    + injection Hafter as <- <-. lia.
Qed.

Lemma advanced_phase ops counter th th' :
  loop_ok ops (th_loop th') → advanced counter th th' → phase_ok th'.
Proof.
  unfold advanced, phase_ok. intros Hl [Hsame Hph]. destruct (th_phase th'); [done| |done].
  destruct Hph as (_ & -> & a & Ha & Hlt). exists a. rewrite Hsame. split; [done|].
  split; [split; [apply (u64_range (counter + 1))|done]|]. rewrite <-Hsame in Ha.
  destruct (th_loop th'); try done. simpl in Ha. injection Ha as ->. apply Hl.
Qed.

Lemma attempt_ok keys0 t delta counter th w :
  world_ok keys0 w → w_threads w !! t = Some th →
  match attempt redis t delta counter th w with
  | Ok w' => world_ok keys0 w' ∧ w_stop w' = w_stop w ∧
      ∃ th', w_threads w' = <[t := th']> (w_threads w) ∧ advanced counter th th' ∧
        ∃ k, th_rng th' = after k (th_rng th)
  | OutOfFuel => rejects fuel (th_rng th)
  | SetbenchError | Undefined => False
  end.
Proof.
  intros (Hths & keys & Hds & Hsum & Hcount) Ht. unfold attempt.
  pose proof (proj1 (Forall_lookup _ _) Hths t th Ht) as (Hr & _ & Hst & ops & Hg & Hro & Hl).
  pose proof (choose_call_ok ops (th_loop th) (th_gen th) (th_rng th) Hg Hro Hl Hr) as Hc. unfold Distributions.spec in Hc.
  destruct (choose_call (th_loop th) (th_gen th, th_rng th)) as [[[c l] [g r]]| | |]; try done. simpl in Hc.
  destruct Hc as ((Hc & Hl' & Hsame & Hins & Hg') & k & ->).
  destruct (execute_counted t delta c (w_ds w) (th_local th) keys Hds Hc) as
    (v & d' & loc' & keys' & -> & Hds' & Hcounted).
  destruct (after_call l counter v) as [phase warn] eqn:Hafter. cbn [w_threads w_ds w_stop].
  set (th' := {| th_loop := l |}).
  assert (advanced counter th th') as Hadv.
  { destruct th as [lp gn rg lc ph wn]. simpl in *. by eapply after_call_advanced. }
  split; [|split; [done|exists th'; split; [done|split; [done|by exists k]]]].
  pose proof Hcounted as (Hsum' & Hcount' & Hop & Hst' & _). split; cbn [w_threads w_ds].
  - apply Forall_insert; [done|]. unfold thread_ok.
    split; [by apply after_ok|]. split; [by apply (advanced_phase ops counter th)|].
    split; [by apply Hst'|]. by exists ops.
  - exists keys'. split; [done|]. rewrite !(zsum_fmap_insert _ _ _ th _ Ht). simpl. split.
    + replace (key_sum keys' - key_sum keys0)
        with (key_sum keys - key_sum keys0 + (key_sum keys' - key_sum keys)) by lia.
      apply u64_plus; [done|]. by apply u64_diff.
    + lia.
Qed.

(** What a turn does to the phase of its thread. *)
Definition turned (t : nat) (w w' : World G D) : Prop :=
  ∃ th th', w_threads w !! t = Some th ∧ w_threads w' = <[t := th']> (w_threads w) ∧
    (∃ k, th_rng th' = after k (th_rng th)) ∧
    match th_phase th with
    | Stopped => w' = w ∧ th' = th
    | Retrying c => w_stop w' = w_stop w ∧ advanced c th th'
    | Checking => w_stop w' = (is_stopped t (w_stop w)).2 ∧
        if (is_stopped t (w_stop w)).1 then th' = {| th with th_phase := Stopped |} else advanced 0 th th'
    end.

Lemma turn_ok keys0 t delta th w :
  world_ok keys0 w → w_threads w !! t = Some th →
  match turn redis t delta w with
  | Ok w' => world_ok keys0 w' ∧ turned t w w'
  | OutOfFuel => rejects fuel (th_rng th)
  | SetbenchError | Undefined => False
  end.
Proof.
  intros Hw Ht. unfold turn, turned. rewrite Ht. destruct (th_phase th) as [|c|] eqn:Hph.
  - pose proof Hw as (Hths & keys & Hds & Hsum & Hcount).
    destruct (is_stopped t (w_stop w)) as [stopped s] eqn:Hs. destruct stopped.
    + split; [split; cbn [w_threads w_ds]|].
      * apply Forall_insert; [done|]. destruct (proj1 (Forall_lookup _ _) Hths t th Ht) as (? & _ & ?).
        by split; [|split].
      * exists keys. split; [done|]. rewrite !(zsum_fmap_insert _ _ _ th _ Ht). simpl.
        by rewrite !Z.sub_diag, !Z.add_0_r.
      * exists th, {| th with th_phase := Stopped |}. rewrite Hph. split_and!; try done. by exists 0%nat.
    + pose proof (attempt_ok keys0 t delta 0 th {| w with w_stop := s |}) as Ha. cbn [w_threads w_ds w_stop] in Ha.
      specialize (Ha ltac:(by split; [done|exists keys]) Ht).
      destruct (attempt _ _ _ _ _ _) as [w'| | |]; try done.
      destruct Ha as (Hw' & Hstop & th' & Hins & Hadv & Hk). split; [done|]. exists th, th'. by rewrite Hph.
  - pose proof (attempt_ok keys0 t delta c th w Hw Ht) as Ha.
    destruct (attempt _ _ _ _ _ _) as [w'| | |]; try done.
    destruct Ha as (Hw' & Hstop & th' & Hins & Hadv & Hk). split; [done|]. exists th, th'. by rewrite Hph.
  - split; [done|]. exists th, th. rewrite Hph. split_and!; try done; [by rewrite list_insert_id|by exists 0%nat].
Qed.

(** ** A whole run *)

(** The threads have made draws from the sequences they started with. *)
Definition draws_from (rs : list Random64) (w : World G D) : Prop :=
  Forall2 (λ r th, ∃ k, th_rng th = after k r) rs (w_threads w).

Lemma rejects_after k r : rejects fuel (after k r) → rejects fuel r.
Proof.
  intros [m Hm]. exists (k + m)%nat. intros i Hi. rewrite <-Nat.add_assoc, after_add. by apply Hm.
Qed.

Lemma draws_from_turn rs t w w' : draws_from rs w → turned t w w' → draws_from rs w'.
Proof.
  unfold draws_from. intros HF (th & th' & Ht & -> & [k Hk] & _).
  destruct (Forall2_lookup_r _ _ _ _ _ HF Ht) as (r & Hr & [j Hj]).
  rewrite <-(list_insert_id rs t r Hr). apply Forall2_insert; [done|].
  exists (j + k)%nat. by rewrite Hk, Hj, after_add.
Qed.

(** A property of the worlds that holds after a run if the turns and the timer keep
    it. *)
Lemma run_events_ok keys0 rs (I : World G D → list event → Prop) es w :
  (∀ e es w w', I w (e :: es) → world_ok keys0 w → event_step redis e w = Ok w' →
     match e with
     | Turn t _ => turned t w w' ∨ w_threads w !! t = None ∧ w' = w
     | TimerFires => w_ds w' = w_ds w ∧ w_threads w' = w_threads w
     end → I w' es) →
  world_ok keys0 w → draws_from rs w → I w es →
  match run_events redis es w with
  | Ok w' => world_ok keys0 w' ∧ draws_from rs w' ∧ I w' []
  | OutOfFuel => Exists (rejects fuel) rs
  | SetbenchError | Undefined => False
  end.
Proof.
  intros Hstep. revert w. induction es as [|e es IH]; intros w Hw Hd HI; [done|]. cbn [run_events].
  specialize (Hstep e es w). destruct e as [t delta|]; cbn [event_step] in *.
  - destruct (w_threads w !! t) as [th|] eqn:Ht.
    + pose proof (turn_ok keys0 t delta th w Hw Ht) as Hturn. destruct (turn redis t delta w) as [w'| | |]; try done.
      * destruct Hturn as [Hw' Htd]. apply IH; [done|by eapply draws_from_turn|by apply (Hstep w'); auto].
      * destruct (Forall2_lookup_r _ _ _ _ _ Hd Ht) as (r & Hr & [j Hj]). apply Exists_exists. exists r.
        split; [by apply list_elem_of_lookup_2 in Hr|]. rewrite Hj in Hturn. by eapply rejects_after.
    + unfold turn in *. rewrite Ht in *. apply IH; [done..|]. by apply (Hstep w); auto.
  - destruct (w_stop w); apply IH; try done; by eapply Hstep.
Qed.

(** *** An operation counter *)

(** The calls a step of the loop makes at most. *)
Definition tries (l : Loop) : Z :=
  match attempts_of l with Some a => Z.max 1 a | None => 1 end.

(** What the thread has done and may still do, with [c] left on its counter. *)
Definition count_ok (limit c : Z) (th : Thread G) : Prop :=
  match th_phase th with
  | Checking => c + completed th = limit ∧ 0 ≤ c < 2 ^ 63
  | Retrying _ => c + completed th + 1 = limit ∧ 0 ≤ c < 2 ^ 63
  | Stopped => completed th = limit
  end.

(** The turns it takes at most before it stops. *)
Definition turns_left (c : Z) (th : Thread G) : Z :=
  match th_phase th with
  | Checking => 1 + c * tries (th_loop th)
  | Retrying k => 1 + c * tries (th_loop th) + (tries (th_loop th) - k)
  | Stopped => 0
  end.

Fixpoint turns_of (t : nat) (es : list event) : Z :=
  match es with
  | [] => 0
  | Turn t' _ :: es => (if decide (t = t') then 1 else 0) + turns_of t es
  | TimerFires :: es => turns_of t es
  end.

Lemma completed_stop th : completed {| th with th_phase := Stopped |} = completed th.
Proof. done. Qed.

Lemma turned_count limit c th th' (stopped : bool) :
  phase_ok th → count_ok limit c th → (stopped = true ↔ c - 1 < 0) →
  match th_phase th with
  | Stopped => th' = th
  | Retrying k => advanced k th th'
  | Checking => if stopped then th' = {| th with th_phase := Stopped |} else advanced 0 th th'
  end →
  let c' := if decide (th_phase th = Checking) then c - 1 else c in
  count_ok limit c' th' ∧ (th_phase th' = Stopped ∨ turns_left c' th' + 1 ≤ turns_left c th).
Proof.
  unfold phase_ok, count_ok, turns_left. intros Hp Hc Hst Hstep.
  destruct (th_phase th) as [|k|] eqn:Hph; simpl.
  - destruct stopped.
    + subst th'. simpl. rewrite completed_stop. split; [lia|by left].
    + unfold advanced in Hstep. destruct Hstep as [Hsame Hstep]. unfold tries. rewrite Hsame.
      destruct (th_phase th') as [|k'|]; [| |done].
      * split; [lia|right]. destruct (attempts_of (th_loop th)); nia.
      * destruct Hstep as (H1 & -> & a & Ha & Hlt). rewrite Ha. change (0 +₆₄ 1) with 1 in *. split; [lia|right; nia].
  - unfold advanced in Hstep. destruct Hstep as [Hsame Hstep]. unfold tries. rewrite Hsame.
    destruct Hp as (a & Ha & Hk). rewrite Ha. destruct (th_phase th') as [|k'|]; [| |done].
    + split; [lia|right]. lia.
    + destruct Hstep as (H1 & -> & a' & Ha' & Hlt). rewrite Ha in Ha'. injection Ha' as <-.
      split; [lia|right]. rewrite u64_add_small by lia. lia.
  - subst th'. rewrite Hph. simpl. split; [done|by left].
Qed.

Definition counts_ok (limits : list Z) (w : World G D) (es : list event) : Prop :=
  ∃ l cs, w_stop w = OperationCounter l cs ∧ length cs = length (w_threads w) ∧
    length limits = length (w_threads w) ∧
    ∀ t th c limit, w_threads w !! t = Some th → cs !! t = Some c → limits !! t = Some limit →
      count_ok limit c th ∧ (th_phase th = Stopped ∨ turns_left c th ≤ turns_of t es).

Lemma turned_counts limits keys0 t delta es w w' :
  counts_ok limits w (Turn t delta :: es) → world_ok keys0 w → turned t w w' → counts_ok limits w' es.
Proof.
  intros (l & cs & Hstop & Hcs & Hlim & Hall) Hw (th & th' & Ht & Hthreads & _ & Hstep).
  pose proof (lookup_lt_Some _ _ _ Ht) as Hlt.
  destruct (cs !! t) as [c|] eqn:Hc; [|apply lookup_ge_None in Hc; lia].
  destruct (limits !! t) as [limit|] eqn:Hl; [|apply lookup_ge_None in Hl; lia].
  destruct (Hall t th c limit Ht Hc Hl) as [Hcount Hleft]. cbn [turns_of] in Hleft.
  rewrite decide_True in Hleft by done. rewrite Hstop in Hstep. unfold is_stopped in Hstep. cbn [fst snd] in Hstep.
  rewrite (lookup_get cs t c Hc) in Hstep.
  assert (th_phase th = Checking → s64 (c - 1) = c - 1) as Hdec.
  { unfold count_ok in Hcount. intros Hph. rewrite Hph in Hcount. apply s64_small. lia. }
  pose proof (proj1 (Forall_lookup _ _) (proj1 Hw) t th Ht) as (_ & Hphase & _).
  destruct (turned_count limit c th th' (c - 1 <? 0) Hphase Hcount (Z.ltb_lt _ _)) as [Hcount' Hleft'].
  { destruct (th_phase th); [|tauto..]. rewrite Hdec in Hstep by done. tauto. }
  set (c' := if decide (th_phase th = Checking) then c - 1 else c) in *.
  exists l, (<[t:=c']> cs). rewrite Hthreads, !length_insert. split; [|split_and!; try done].
  { subst c'. destruct (th_phase th); destruct Hstep as [Hs _]; rewrite ?Hs; simpl.
    - unfold set. by rewrite Nat2Z.id, Hdec.
    - by rewrite list_insert_id.
    - by rewrite Hstop, list_insert_id. }
  intros t2 th2 c2 limit2 H1 H2 H3. destruct (decide (t = t2)) as [<-|Hne].
  - rewrite list_lookup_insert_eq in H1 by lia. rewrite list_lookup_insert_eq in H2 by lia.
    simplify_eq. split; [done|].
    destruct Hleft' as [?|Hleft']; [by left|]. destruct Hleft as [Hs|Hleft]; [|right; lia].
    rewrite Hs in Hstep. destruct Hstep as [_ ->]. by left.
  - rewrite list_lookup_insert_ne in H1 by done. rewrite list_lookup_insert_ne in H2 by done. destruct (Hall t2 th2 c2 limit2 H1 H2 H3) as [? Hl2].
    cbn [turns_of] in Hl2. rewrite decide_False in Hl2 by done. auto.
Qed.

Lemma event_counts limits keys0 e es w w' :
  counts_ok limits w (e :: es) → world_ok keys0 w → event_step redis e w = Ok w' →
  match e with
  | Turn t _ => turned t w w' ∨ w_threads w !! t = None ∧ w' = w
  | TimerFires => w_ds w' = w_ds w ∧ w_threads w' = w_threads w
  end → counts_ok limits w' es.
Proof.
  intros Hc Hw He Hstep. destruct e as [t delta|].
  - destruct Hstep as [Hturned|[Hnone ->]]; [by eapply turned_counts|].
    destruct Hc as (l & cs & Hs & H1 & H2 & Hall). exists l, cs. split_and!; try done.
    intros t2 th2 c2 limit2 Ht2 Hc2 Hl2. destruct (Hall t2 th2 c2 limit2 Ht2 Hc2 Hl2) as [? Hl].
    split; [done|]. cbn [turns_of] in Hl. rewrite decide_False in Hl by congruence. exact Hl.
  - destruct Hc as (l & cs & Hs & Hrest). unfold event_step in He. rewrite Hs in He. injection He as <-.
    by exists l, cs.
Qed.

Lemma counts_end limits keys0 w :
  counts_ok limits w [] → world_ok keys0 w →
  all_stopped w ∧ completed <$> w_threads w = limits.
Proof.
  intros (l & cs & Hs & H1 & H2 & Hall) Hw.
  assert (∀ t th, w_threads w !! t = Some th →
    th_phase th = Stopped ∧ limits !! t = Some (completed th)) as Hend.
  { intros t th Ht. pose proof (lookup_lt_Some _ _ _ Ht) as Hlt.
    destruct (cs !! t) as [c|] eqn:Hc; [|apply lookup_ge_None in Hc; lia].
    destruct (limits !! t) as [limit|] eqn:Hl; [|apply lookup_ge_None in Hl; lia].
    destruct (Hall t th c limit Ht Hc Hl) as [Hcount Hleft].
    pose proof (proj1 (Forall_lookup _ _) (proj1 Hw) t th Ht) as (_ & Hphase & _).
    unfold count_ok, phase_ok, turns_left, tries in *. simpl in Hleft. destruct (th_phase th) as [|k|] eqn:Hph.
    - destruct Hleft as [|Hleft]; [done|]. destruct (attempts_of (th_loop th)); nia.
    - destruct Hleft as [|Hleft]; [done|]. destruct Hphase as (a & Ha & Hk). rewrite Ha in Hleft. nia.
    - by rewrite Hcount. }
  split.
  - apply Forall_lookup. intros t th Ht. by apply Hend in Ht as [? _].
  - apply list_eq. intros t. rewrite list_lookup_fmap.
    destruct (w_threads w !! t) as [th|] eqn:Ht; simpl.
    + by destruct (Hend t th Ht) as [_ ->].
    + apply lookup_ge_None in Ht. symmetry. apply lookup_ge_None. lia.
Qed.

(** [OperationCounter::start] splits the limit: the first threads get the remainder. *)
Definition share (limit num i : Z) : Z := limit / num + (if i <? limit `mod` num then 1 else 0).

Lemma counter_start_spec limit num : 0 ≤ limit < 2 ^ 63 → 0 < num < 2 ^ 31 →
  counter_start limit num = share limit num <$> seqZ 0 num.
Proof.
  intros Hl Hn. unfold counter_start.
  pose proof (Z.mod_pos_bound limit num ltac:(lia)) as Hm.
  pose proof (Z.div_pos limit num ltac:(lia) ltac:(lia)) as Hq.
  pose proof (Z.div_mod limit num ltac:(lia)) as Hdiv.
  assert (limit / num ≤ limit ∧ (0 < limit mod num → limit / num < limit)) as [Hq1 Hq2] by nia.
  rewrite (s64_small (limit / num)), (s64_small (limit mod num)) by lia.
  match goal with |- (for_range _ _ ?b ?s).1 = _ => set (body := b); set (start := s) end.
  assert (len (for_range 0 num body start).1 = num ∧ (for_range 0 num body start).2 = limit mod num - num ∧
    ∀ i, 0 ≤ i < num → (for_range 0 num body start).1.[i] = share limit num i) as (H1 & _ & H3).
  { apply (for_range_inv (λ k s, len s.1 = num ∧ s.2 = limit mod num - k ∧
      ∀ i, 0 ≤ i < k → s.1.[i] = share limit num i)); [lia| |].
    - unfold start. cbn [fst snd]. rewrite len_replicate. split_and!; lia.
    - intros k [cs rem] Hk (H1 & H2 & H3). cbn [fst snd] in *. unfold body. cbn beta iota zeta. cbn [fst snd].
      rewrite (s64_small (rem - 1)) by lia. rewrite len_set. split_and!; [lia..|].
      intros i Hi. rewrite get_set by lia. destruct (Z.eqb_spec k i) as [<-|]; [|apply H3; lia].
      unfold share. rewrite s64_small by (zbool; lia). zbool; lia. }
  apply arr_ext; [|intros i Hi; rewrite H3 by lia].
  - rewrite H1, len_fmap, len_seqZ; lia.
  - rewrite get_fmap by (rewrite len_seqZ; lia). by rewrite get_seqZ by lia.
Qed.

Lemma zsum_shares limit num : 0 < num → zsum (share limit num <$> seqZ 0 num) = limit.
Proof.
  intros Hn. pose proof (Z.mod_pos_bound limit num Hn) as Hm. pose proof (Z.div_mod limit num ltac:(lia)) as Hdiv.
  assert (∀ k, 0 ≤ k → zsum (share limit num <$> seqZ 0 k) = k * (limit / num) + Z.min k (limit mod num)) as Hk.
  { apply natlike_ind; [change (seqZ 0 0) with (@nil Z); change (zsum (_ <$> [])) with 0; lia|]. intros k Hk IH. change (Z.succ k) with (k + 1).
    rewrite zsum_seqZ_snoc, IH by lia. unfold share. zbool; lia. }
  rewrite Hk by lia. lia.
Qed.

(** ** Stages *)

Definition stage_ok (rngs : nat) (st : Stage G) : Prop :=
  (length (sg_threads st) ≤ rngs)%nat ∧
  Forall (λ p, ∃ ops, gen_ok n ops p.2 ∧ ranges_ok ops ∧ loop_ok ops p.1) (sg_threads st).

(** The stage is limited by an [OperationCounter] whose limit is an [int64_t], and the
    scheduler gives every thread the turns for its share of [limit]. *)
Definition fair (limit : Z) (st : Stage G) : Prop :=
  let num := len (sg_threads st) in
  0 ≤ limit < 2 ^ 63 ∧ num < 2 ^ 31 ∧ (∃ cs, sg_stop st = OperationCounter limit cs) ∧
  ∀ t p, sg_threads st !! t = Some p →
    1 + (limit / num + 1) * tries p.1 ≤ turns_of t (sg_events st).

(** [start] divides by the number of the threads when it starts a counter. *)
Definition startable (st : Stage G) : Prop :=
  sg_threads st ≠ [] ∨ ∃ stop, sg_stop st = Timer stop.

Lemma threads_pos (st : Stage G) : sg_threads st ≠ [] → 0 < len (sg_threads st).
Proof. unfold len. destruct (sg_threads st); simpl; [done|lia]. Qed.

Lemma startable_starts st : startable st →
  ∃ stop, stop_start (len (sg_threads st)) (sg_stop st) = Ok stop ∧
    ∀ limit, sg_threads st ≠ [] → fair limit st →
      stop = OperationCounter limit (share limit (len (sg_threads st)) <$> seqZ 0 (len (sg_threads st))).
Proof.
  unfold startable, fair. intros Hs. destruct (sg_stop st) as [limit cs|stop].
  - destruct Hs as [Hne|[? ?]]; [|done]. pose proof (threads_pos st Hne). cbn [stop_start].
    destruct (Z.eqb_spec (len (sg_threads st)) 0); [lia|]. eexists. split; [done|].
    intros l _ (Hl & Hnum & [cs' [= -> _]] & _). by rewrite counter_start_spec by lia.
  - eexists. split; [done|]. by intros l _ (_ & _ & [cs ?] & _).
Qed.

Lemma start_lookup (st : Stage G) stop (b : Globals D) t th :
  w_threads (start_stage st stop b) !! t = Some th →
  ∃ p r, sg_threads st !! t = Some p ∧ g_rngs b !! t = Some r ∧ th = start_thread p r.
Proof.
  unfold start_stage. cbn [w_threads]. rewrite lookup_zip_with. intros Ht.
  destruct (sg_threads st !! t) as [p|]; [|done]. destruct (g_rngs b !! t) as [r|]; [|done].
  simpl in Ht. injection Ht as <-. eauto.
Qed.

Lemma start_threads_length (st : Stage G) stop (b : Globals D) :
  stage_ok (length (g_rngs b)) st → length (w_threads (start_stage st stop b)) = length (sg_threads st).
Proof. intros [Hl _]. unfold start_stage. cbn [w_threads]. rewrite length_zip_with. lia. Qed.

Lemma zsum_start (f : Thread G → Z) (st : Stage G) stop (b : Globals D) :
  (∀ p r, f (start_thread p r) = 0) → zsum (f <$> w_threads (start_stage st stop b)) = 0.
Proof.
  intros Hf. unfold start_stage. cbn [w_threads]. generalize (sg_threads st) (g_rngs b).
  intros ps. induction ps as [|p ps IH]; intros [|r rs]; [done..|].
  cbn [zip_with fmap list_fmap]. by rewrite zsum_cons, Hf, IH.
Qed.

Lemma start_world st stop b keys :
  ds_holds n (g_ds b) keys → Forall words_ok (g_rngs b) → stage_ok (length (g_rngs b)) st →
  world_ok keys (start_stage st stop b) ∧
  draws_from (take (length (sg_threads st)) (g_rngs b)) (start_stage st stop b).
Proof.
  intros Hds Hr Hst. pose proof (start_threads_length st stop b Hst) as Hlen. destruct Hst as [Hl Hths].
  split; [split|].
  - apply Forall_lookup. intros t th Ht. apply start_lookup in Ht as (p & r & Hp & Hrt & ->).
    rewrite Forall_lookup in Hr. rewrite Forall_lookup in Hths.
    specialize (Hr t r Hrt). by repeat (split; [done|]); apply (Hths t).
  - exists keys. split; [done|]. rewrite !zsum_start by done. by rewrite !Z.sub_diag.
  - apply Forall2_same_length_lookup_2; [rewrite length_take; lia|].
    intros t r th Hrt Ht. apply start_lookup in Ht as (p & r' & _ & Hrt' & ->).
    apply lookup_take_Some in Hrt as [Hrt _]. rewrite Hrt in Hrt'. injection Hrt' as <-. by exists 0%nat.
Qed.

Lemma share_bounds limit num i : 0 ≤ limit → 0 < num → 0 ≤ i →
  0 ≤ share limit num i ≤ limit / num + 1 ∧ share limit num i ≤ limit.
Proof.
  intros Hl Hn Hi. unfold share. pose proof (Z.mod_pos_bound limit num Hn). pose proof (Z.div_pos limit num Hl Hn).
  pose proof (Z.div_mod limit num ltac:(lia)). zbool; nia.
Qed.

Lemma start_counts st b limit : stage_ok (length (g_rngs b)) st → sg_threads st ≠ [] → fair limit st →
  let num := len (sg_threads st) in let cs := share limit num <$> seqZ 0 num in
  counts_ok cs (start_stage st (OperationCounter limit cs) b) (sg_events st).
Proof.
  intros Hst Hne (Hl & _ & _ & Hturns) num cs. pose proof (start_threads_length st (OperationCounter limit cs) b Hst) as Hlen.
  pose proof (threads_pos st Hne) as Hpos.
  assert (length cs = length (sg_threads st)) as Hclen by (unfold cs, num, len; rewrite length_fmap, length_seqZ; lia).
  exists limit, cs. split; [done|]. split; [lia|]. split; [lia|].
  intros t th c c' Ht Hc Hc'. rewrite Hc in Hc'. injection Hc' as <-.
  apply start_lookup in Ht as (p & r & Hp & _ & ->). specialize (Hturns t p Hp).
  apply list_lookup_fmap_Some in Hc as (i & -> & Hi). apply lookup_seqZ in Hi.
  pose proof (share_bounds limit num i ltac:(lia) Hpos ltac:(lia)) as Hbound.
  assert (completed (start_thread p r) = 0) as Hzero by (unfold completed; simpl; by destruct p.1).
  unfold count_ok, turns_left. cbn [th_phase th_loop start_thread]. rewrite Hzero.
  split; [lia|right]. assert (0 < tries p.1) by (unfold tries; destruct (attempts_of p.1); lia). fold num in Hturns. nia.
Qed.

(** Without threads nothing can happen. *)
Lemma run_no_threads es (w : World G D) : w_threads w = [] → ∃ w', run_events redis es w = Ok w' ∧ w_threads w' = [].
Proof.
  revert w. induction es as [|e es IH]; intros w Hw; [by exists w|]. cbn [run_events]. destruct e as [t delta|]; simpl.
  - unfold turn. rewrite Hw. by apply IH.
  - destruct (w_stop w); by apply IH.
Qed.

Definition fair_or_empty (st : Stage G) : Prop := sg_threads st = [] ∨ ∃ limit, fair limit st.

(** One stage: the threads' sums are those of the set; with a counter the stage
    ends and every thread has completed its share. *)
Lemma execute_stage_ok st b keys :
  ds_holds n (g_ds b) keys → Forall words_ok (g_rngs b) → stage_ok (length (g_rngs b)) st → startable st →
  match execute_stage redis st b with
  | Ok w => world_ok keys w ∧ draws_from (take (length (sg_threads st)) (g_rngs b)) w ∧ all_stopped w ∧
      ∀ limit, sg_threads st ≠ [] → fair limit st →
        completed <$> w_threads w = share limit (len (sg_threads st)) <$> seqZ 0 (len (sg_threads st))
  | OutOfFuel => fair_or_empty st → Exists (rejects fuel) (take (length (sg_threads st)) (g_rngs b))
  | SetbenchError | Undefined => False
  end.
Proof.
  intros Hds Hr Hst Hs. destruct (startable_starts st Hs) as (stop & Hstop & Hcounter).
  unfold execute_stage. rewrite Hstop. simpl. destruct (start_world st stop b keys Hds Hr Hst) as [Hw Hd].
  pose proof (run_events_ok keys _ (λ _ _, True) (sg_events st) _ ltac:(done) Hw Hd I) as Hrun.
  assert (∀ limit, sg_threads st ≠ [] → fair limit st →
    match run_events redis (sg_events st) (start_stage st stop b) with
    | Ok w => all_stopped w ∧
        completed <$> w_threads w = share limit (len (sg_threads st)) <$> seqZ 0 (len (sg_threads st))
    | _ => True end) as Hfair.
  { intros limit Hne Hf. rewrite (Hcounter limit Hne Hf) in *.
    pose proof (run_events_ok keys _ (counts_ok _) (sg_events st) _
      (λ e es w w', event_counts _ keys e es w w') Hw Hd (start_counts st b limit Hst Hne Hf)) as Hc.
    destruct (run_events redis _ _) as [w| | |]; try done. destruct Hc as (Hw' & _ & Hc).
    by apply (counts_end _ keys). }
  assert (sg_threads st = [] → match run_events redis (sg_events st) (start_stage st stop b) with
    | Ok w => all_stopped w | _ => True end) as Hempty.
  { intros Hnil. destruct (run_no_threads (sg_events st) (start_stage st stop b)) as (w & -> & Hnone).
    - unfold start_stage. by rewrite Hnil.
    - unfold all_stopped. by rewrite Hnone. }
  destruct (run_events redis _ _) as [w| | |]; simpl; try done.
  destruct Hrun as (? & ? & _). case_decide as Hall.
  - split_and!; [done..|]. intros. by apply Hfair.
  - destruct (decide (sg_threads st = [])) as [Hnil|Hne]; [by destruct Hall; apply Hempty|].
    intros [?|[limit Hlimit]]; [done|]. destruct Hall. by apply (Hfair limit).
Qed.

Definition globals_ok (rs : list Random64) (b : Globals D) : Prop :=
  (∃ keys, ds_holds n (g_ds b) keys ∧ curKeySum b = s64 (key_sum keys) ∧ curSize b = s64 (key_count keys)) ∧
  Forall2 (λ r0 r, ∃ k, r = after k r0) rs (g_rngs b).

Lemma get_sum_u64 f (w : World G D) : u64 (get_sum f w) = u64 (zsum ((λ th, f (stats (th_local th))) <$> w_threads w)).
Proof. apply u64_s64. Qed.

Lemma zsum_minus {A} (f g : A → Z) l : zsum ((λ x, f x - g x) <$> l) = zsum (f <$> l) - zsum (g <$> l).
Proof. induction l as [|x l IH]; [done|]. rewrite !fmap_cons, !zsum_cons, IH. lia. Qed.

Lemma draws_trans rs rs' (ths : list (Thread G)) :
  Forall2 (λ r0 r, ∃ k, r = after k r0) rs rs' → Forall2 (λ r th, ∃ k, th_rng th = after k r) rs' ths →
  Forall2 (λ r0 r, ∃ k, r = after k r0) rs (th_rng <$> ths).
Proof.
  intros H1. revert ths. induction H1 as [|r0 r rs rs' [k ->] _ IH]; intros ths Hd.
  - apply Forall2_nil_inv_l in Hd as ->. constructor.
  - apply Forall2_cons_inv_l in Hd as (th & ths' & [j Hj] & Hd & ->). constructor; [|by apply IH].
    exists (k + j)%nat. by rewrite Hj, after_add.
Qed.

(** The generators of random numbers, and so the sums, are those of the run so far. *)
Lemma globals_words rs b : Forall words_ok rs → globals_ok rs b → Forall words_ok (g_rngs b).
Proof.
  intros Hrs [_ Hdraws]. eapply Forall2_Forall_r; [exact Hdraws|]. eapply Forall_impl; [exact Hrs|].
  intros r Hr ? [k ->]. by apply after_ok.
Qed.

Lemma globals_rejects rs k b : globals_ok rs b → Exists (rejects fuel) (take k (g_rngs b)) → Exists (rejects fuel) rs.
Proof.
  intros [_ Hdraws] Hrun. apply Exists_exists in Hrun as (r & Hr & Hrej).
  apply list_elem_of_lookup in Hr as [t Hr]. apply lookup_take_Some in Hr as [Hr _].
  destruct (Forall2_lookup_r _ _ _ _ _ Hdraws Hr) as (r0 & Hr0 & [j ->]).
  apply Exists_exists. exists r0. split; [by apply list_elem_of_lookup_2 in Hr0|by eapply rejects_after].
Qed.

(** The sums of a stage, added to those of the set before it. *)
Lemma stage_sums keys keys' (w : World G D) :
  u64 (zsum ((λ th, key_checksum (stats (th_local th))) <$> w_threads w)) = u64 (key_sum keys' - key_sum keys) →
  zsum ((λ th, num_successful_inserts (stats (th_local th)) - num_successful_removes (stats (th_local th)))
        <$> w_threads w) = key_count keys' - key_count keys →
  s64 (s64 (key_sum keys) + get_sum key_checksum w) = s64 (key_sum keys') ∧
  s64 (s64 (key_count keys) + (get_sum num_successful_inserts w - get_sum num_successful_removes w)) =
    s64 (key_count keys').
Proof.
  intros Hk Hc. split; apply s64_u64.
  - transitivity (u64 (key_sum keys + (key_sum keys' - key_sum keys))); [|f_equal; lia].
    apply u64_plus; [apply u64_s64|by rewrite get_sum_u64].
  - transitivity (u64 (key_count keys + (key_count keys' - key_count keys))); [|f_equal; lia].
    apply u64_plus; [apply u64_s64|]. rewrite <-Hc, zsum_minus. apply u64_minus; apply get_sum_u64.
Qed.

Lemma after_stage_draws rs st b w :
  Forall2 (λ r0 r, ∃ k, r = after k r0) rs (g_rngs b) → stage_ok (length (g_rngs b)) st →
  draws_from (take (length (sg_threads st)) (g_rngs b)) w →
  Forall2 (λ r0 r, ∃ k, r = after k r0) rs (g_rngs (after_stage w b)).
Proof.
  intros Hr [Hl _] Hd. pose proof (Forall2_length _ _ _ Hd) as Hlen. rewrite length_take in Hlen.
  replace (length (sg_threads st)) with (length (w_threads w)) in Hd by lia.
  unfold after_stage. cbn [g_rngs]. rewrite <-(take_drop (length (w_threads w)) (g_rngs b)) in Hr.
  apply Forall2_app_inv_r in Hr as (r1 & r2 & H1 & H2 & ->). apply Forall2_app; [|done].
  by eapply draws_trans.
Qed.

Lemma start_globals_ok d rngs :
  ds_holds n d ∅ → globals_ok rngs {| g_ds := d; g_rngs := rngs; curKeySum := 0; curSize := 0 |}.
Proof.
  intros Hd. split; [by exists ∅|]. apply Forall2_same_length_lookup_2; [done|].
  intros i x y Hx Hy. exists 0%nat. cbn [g_rngs] in Hy. simpl. congruence.
Qed.

Lemma filling_stage_ok rs st b :
  Forall words_ok rs → globals_ok rs b → stage_ok (length rs) st →
  match filling_stage redis st b with
  | Ok b' => globals_ok rs b'
  | OutOfFuel => fair_or_empty st → Exists (rejects fuel) rs
  | SetbenchError | Undefined => False
  end.
Proof.
  intros Hrs Hb Hst. destruct (decide (sg_threads st = [])) as [Hnil|Hne].
  { unfold filling_stage. by rewrite Hnil. }
  pose proof Hb as ((keys & Hds & Hsum & Hsize) & Hdraws). rewrite (Forall2_length _ _ _ Hdraws) in Hst.
  pose proof (execute_stage_ok st b keys Hds (globals_words rs b Hrs Hb) Hst (or_introl Hne)) as Hrun.
  assert (filling_stage redis st b =
    res_bind (execute_stage redis st b) (λ w, Ok (add_sums w (after_stage w b)))) as ->
    by (unfold filling_stage; by destruct (sg_threads st)).
  destruct (execute_stage redis st b) as [w| | |]; simpl; try done.
  - destruct Hrun as ((_ & keys' & Hds' & Hk & Hc) & Hd & _).
    destruct (stage_sums keys keys' w Hk Hc) as [H1 H2]. split; [|by eapply after_stage_draws].
    exists keys'. cbn [add_sums after_stage g_ds curKeySum curSize]. by rewrite Hsum, Hsize.
  - intros Hf. by eapply globals_rejects, Hrun.
Qed.

Lemma fill_stages_ok rs prefill warmUp b :
  Forall words_ok rs → globals_ok rs b → Forall (stage_ok (length rs)) [prefill; warmUp] →
  match fill_stages redis prefill warmUp b with
  | Ok b' => globals_ok rs b'
  | OutOfFuel => Forall fair_or_empty [prefill; warmUp] → Exists (rejects fuel) rs
  | SetbenchError | Undefined => False
  end.
Proof.
  intros Hrs Hb Hst. apply Forall_cons in Hst as [H1 [H2 _]%Forall_cons]. unfold fill_stages.
  pose proof (filling_stage_ok rs prefill b Hrs Hb H1) as Hp.
  destruct (filling_stage redis prefill b) as [b1| | |]; simpl; try done.
  - pose proof (filling_stage_ok rs warmUp b1 Hrs Hp H2) as Hq.
    destruct (filling_stage redis warmUp b1); try done.
    intros Hf. apply Hq. by apply Forall_cons in Hf as [_ [? _]%Forall_cons].
  - intros Hf. apply Hp. by apply Forall_cons in Hf as [? _].
Qed.

(** The whole run: the sums at the start of the test and the printed one. *)
Definition run_ok (rs : list Random64) (b1 : Globals D) (p : World G D * Globals D) : Prop :=
  globals_ok rs b1 ∧ curKeySum p.2 = curKeySum b1 ∧ curSize p.2 = curSize b1 ∧
  ∃ keys, ds_holds n (g_ds p.2) keys ∧ threads_final_keysum p = s64 (key_sum keys).

Lemma run_stages_ok rs prefill warmUp test b :
  Forall words_ok rs → globals_ok rs b → Forall (stage_ok (length rs)) [prefill; warmUp; test] → startable test →
  match run redis prefill warmUp test b with
  | Ok p => ∃ b1, fill_stages redis prefill warmUp b = Ok b1 ∧ run_ok rs b1 p
  | OutOfFuel => Forall fair_or_empty [prefill; warmUp; test] → Exists (rejects fuel) rs
  | SetbenchError | Undefined => False
  end.
Proof.
  intros Hrs Hb Hst Hs. change [prefill; warmUp; test] with ([prefill; warmUp] ++ [test]) in *.
  apply (Forall_app (stage_ok (length rs))) in Hst as [Hst [Ht _]%Forall_cons]. unfold run.
  pose proof (fill_stages_ok rs prefill warmUp b Hrs Hb Hst) as Hf.
  destruct (fill_stages redis prefill warmUp b) as [b1| | |]; simpl; try done.
  2: { intros HF. apply Hf. by apply (Forall_app fair_or_empty [prefill; warmUp]) in HF as [? _]. }
  pose proof Hf as ((keys & Hds & Hsum & Hsize) & Hdraws). rewrite (Forall2_length _ _ _ Hdraws) in Ht.
  pose proof (execute_stage_ok test b1 keys Hds (globals_words rs b1 Hrs Hf) Ht Hs) as Hrun.
  destruct (execute_stage redis test b1) as [w| | |]; simpl; try done.
  - destruct Hrun as ((_ & keys' & Hds' & Hk & Hc) & _). exists b1. split; [done|].
    split_and!; try done. exists keys'. split; [done|].
    unfold threads_final_keysum. cbn [fst snd after_stage curKeySum]. rewrite Hsum, Z.add_comm.
    by apply stage_sums.
  - intros HF. eapply globals_rejects; [done|]. apply Hrun.
    by apply (Forall_app fair_or_empty [prefill; warmUp]) in HF as [_ [? _]%Forall_cons].
Qed.

End Checksum.

(** ** The adapter of the adaptive locks *)

(** [globals_t] makes the adapter with [KEY_MIN = 0], [KEY_MAX = range + 1] and the
    null pointer as [NO_VALUE]; every thread has its [thread_local]s. *)
Section AdapterSet.
  Context {L Loc : Type} `{LT : LockTraits L Loc}.

  #[local] Abbreviation D := (AdapterImpl L * (nat → Loc))%type.

Definition adapter_call {R} (t : nat) (call : AdapterImpl L * Loc → option (R * (AdapterImpl L * Loc))) (d : D) :
    option (R * D) :=
  '(v, (a, loc)) ← call (d.1, d.2 t); Some (v, (a, <[t := loc]> d.2)).

Definition adapter_holds (n : Z) (d : D) (keys : gset Z) : Prop :=
  represents d.1 keys ∧ key_min_ d.1 = 0 ∧ key_max_ d.1 = n + 1 ∧ no_value_ d.1 = NullPtr.

(** The operation of [Adapter] behind a call. *)
Lemma adapter_call_step {R : Type} (wrap : R → result) call n t delta o (d : D) keys :
  apply_op true id delta o (d.1, d.2 t) =
    match call (d.1, d.2 t) with Some (v, st) => Some (wrap v, st) | None => None end →
  adapter_holds n d keys → Forall (λ k, 1 ≤ k ≤ n) (keys_of o) →
  ∃ v d', adapter_call t call d = Some (v, d') ∧ wrap v = (spec_op true id 0 NullPtr o keys).1 ∧
    adapter_holds n d' (spec_op true id 0 NullPtr o keys).2.
Proof.
  intros Hcall (Hrep & Hmin & Hmax & Hno) Ho.
  destruct (apply_op_refines true id delta o keys d.1 (d.2 t) Hrep) as (a & loc & Hr & Hrep' & H1 & H2 & H3 & _).
  { eapply Forall_impl; [exact Ho|]. intros k Hk. simpl in Hk. lia. }
  rewrite Hmin, Hno in Hr, Hrep'. rewrite Hcall in Hr. unfold adapter_call.
  destruct (call (d.1, d.2 t)) as [[v st]|]; [|done]. injection Hr as Hv ->. simpl.
  eexists _, _. split; [done|]. split; [done|]. split; [done|]. simpl. by rewrite H1, H2, H3.
Qed.

Lemma value_is_null v k (keys : gset Z) :
  RValue v = RValue (if decide (k ∈ keys) then value_of true id 0 k else NullPtr) → v = NullPtr ↔ k ∉ keys.
Proof. intros [= ->]. case_decide; unfold value_of; split; done. Qed.

#[export] Instance adapter_set : SetAdapter D.
Proof.
  refine {| getNoValue := NullPtr;
    ds_insertIfAbsent t delta key := adapter_call t (insertIfAbsent true id delta key);
    ds_erase t delta key := adapter_call t (erase true id delta key);
    ds_find t delta key := adapter_call t (Adapter.find true id delta key);
    ds_contains t delta key := adapter_call t (contains delta key);
    ds_rangeQuery t delta l r d :=
      '(_, d) ← adapter_call t (rangeQuery delta (Z.of_nat t) l r) d; Some ([], d);
    ds_ranges := true;
    ds_holds := adapter_holds |}.
  1-3: intros n d keys t delta key Hd Hk; apply (Forall_singleton (λ k, 1 ≤ k ≤ n)) in Hk.
  - destruct (adapter_call_step RValue _ n t delta (InsertIfAbsent key) d keys eq_refl Hd Hk)
      as (v & d' & -> & Hv & Hd'). exists v, d'. split; [done|]. split; [by apply value_is_null|done].
  - destruct (adapter_call_step RValue _ n t delta (Erase key) d keys eq_refl Hd Hk)
      as (v & d' & -> & Hv & Hd'). exists v, d'. split; [done|]. split; [by apply value_is_null|done].
  - destruct (adapter_call_step RValue _ n t delta (Find key) d keys eq_refl Hd Hk)
      as (v & d' & -> & Hv & Hd'). exists v, d'. split; [done|]. split; [by apply value_is_null|done].
  - intros n d keys t delta key Hd Hk. apply (Forall_singleton (λ k, 1 ≤ k ≤ n)) in Hk.
    destruct (adapter_call_step RBool _ n t delta (Contains key) d keys eq_refl Hd Hk)
      as (v & d' & -> & [= ->] & Hd'). by exists d'.
  - intros n d keys t delta l r _ Hd _ _.
    destruct (adapter_call_step RInt _ n t delta (RangeQuery (Z.of_nat t) l r) d keys eq_refl Hd (Forall_nil_2 _))
      as (v & d' & -> & _ & Hd'). by exists [], d'.
Defined.

Lemma adapter_make_holds num_threads n (locals : nat → Loc) : n < 2 ^ 62 →
  adapter_holds n (AdapterImpl_make num_threads 0 (n + 1) NullPtr, locals) ∅.
Proof.
  intros Hn. split; [|done]. apply (AdapterImpl_make_represents num_threads 0 (n + 1) NullPtr). lia.
Qed.

End AdapterSet.
(** ** Properties *)

(** C25. The check sum of the microbenchmark, for any generators and any data structure
    that keep their promises: whatever operations the threads draw, however their
    turns and the timer interleave, [curKeySum] and [curSize] after the prefill and
    the warm-up are the sum and the number of the keys that are then in the data
    structure, and the [threads_final_keysum] printed after the test is the sum of
    the keys that are in it at the end (all as 64-bit integers); no call is ever
    refused and no array is read out of its range. Only a test without threads but
    with an [OperationCounter] is excluded, which divides by zero. When the stages
    are limited by [OperationCounter]s the run ends, for every schedule that gives
    each thread the turns for its share, unless a distribution rejects [fuel] draws
    of a thread in a row. *)
Theorem run_stages_key_sum {G D : Type} fuel redis n `{ArgsGeneratorOk fuel G} `{SetAdapter D}
    prefill warmUp test d rngs :
  ds_holds n d ∅ → Forall words_ok rngs →
  Forall (stage_ok fuel n (length rngs)) [prefill; warmUp; test] → startable test →
  let b0 := {| g_ds := d; g_rngs := rngs; curKeySum := 0; curSize := 0 |} in
  match run redis prefill warmUp test b0 with
  | Ok (w, b) =>
      (∃ b1 keys1, fill_stages redis prefill warmUp b0 = Ok b1 ∧ ds_holds n (g_ds b1) keys1 ∧
         curKeySum b = s64 (key_sum keys1) ∧ curSize b = s64 (key_count keys1)) ∧
      ∃ keys, ds_holds n (g_ds b) keys ∧ threads_final_keysum (w, b) = s64 (key_sum keys)
  | OutOfFuel => Forall fair_or_empty [prefill; warmUp; test] → Exists (rejects fuel) rngs
  | SetbenchError | Undefined => False
  end.
Proof.
  intros Hd Hr Hst Ht b0. pose proof (start_globals_ok n d rngs Hd) as Hb.
  pose proof (run_stages_ok fuel redis n rngs prefill warmUp test _ Hr Hb Hst Ht) as Hrun. fold b0 in Hrun.
  destruct (run _ _ _ _ _) as [[w b]| | |]; try done.
  destruct Hrun as (b1 & Hf & [(keys1 & Hds & Hk & Hc) _] & Hk' & Hc' & Hend). cbn [snd] in *.
  split; [exists b1, keys1; by rewrite Hk', Hc'|done].
Qed.

(** C26. A stage with an [OperationCounter] whose limit fits [int64_t]: [start] splits
    the limit among the threads, the remainder to the first ones; whatever the
    interleaving, each thread stops after exactly its share of steps (operations, or
    keys that a prefill has inserted and warnings that it could not), and together
    they have completed the limit: no step is lost or counted twice and the loops
    terminate, for every schedule that gives each thread the turns for its share. *)
Theorem operation_counter_exact {G D : Type} fuel redis n `{ArgsGeneratorOk fuel G} `{SetAdapter D}
    limit st (b : Globals D) keys :
  ds_holds n (g_ds b) keys → Forall words_ok (g_rngs b) → stage_ok fuel n (length (g_rngs b)) st →
  sg_threads st ≠ [] → fair limit st →
  let num := len (sg_threads st) in
  match execute_stage redis st b with
  | Ok w => all_stopped w ∧
      completed <$> w_threads w =
        (λ i, limit / num + if i <? limit `mod` num then 1 else 0) <$> seqZ 0 num ∧
      zsum (completed <$> w_threads w) = limit
  | OutOfFuel => Exists (rejects fuel) (g_rngs b)
  | SetbenchError | Undefined => False
  end.
Proof.
  intros Hd Hr Hst Hne Hf num.
  pose proof (execute_stage_ok fuel redis n st b keys Hd Hr Hst (or_introl Hne)) as Hrun.
  destruct (execute_stage _ _ _) as [w| | |]; try done.
  - destruct Hrun as (_ & _ & Hall & Hshares). specialize (Hshares limit Hne Hf). split; [done|].
    split; [exact Hshares|]. rewrite Hshares. by apply zsum_shares, threads_pos.
  - rewrite <-(take_drop (length (sg_threads st)) (g_rngs b)). apply Exists_app. left.
    apply Hrun. right. by exists limit.
Qed.

(** *** A run on the naive lock *)

Definition example_ratios : Cdf := make_cdf
  {| INS_RATIO := d_lit 3 10; REM_RATIO := d_lit 2 10; RQ_RATIO := d_lit 1 10 |}.

Definition example_generator : DefaultArgsGenerator :=
  {| def_distribution_ := UniformDistribution 9; def_data_ := IdDataMap |}.

(** A prefill of three keys by one thread, no warm-up, then seven operations of two
    threads. *)
Definition example_prefill : Stage DefaultArgsGenerator :=
  {| sg_threads := [(PrefillInsertThreadLoop 5, example_generator)];
     sg_stop := OperationCounter 3 []; sg_events := replicate 21 (Turn 0 1) |}.

Definition example_no_stage : Stage DefaultArgsGenerator :=
  {| sg_threads := []; sg_stop := Timer true; sg_events := [] |}.

Definition example_test : Stage DefaultArgsGenerator :=
  {| sg_threads := [(DefaultThreadLoop example_ratios, example_generator);
                    (DefaultThreadLoop example_ratios, example_generator)];
     sg_stop := OperationCounter 7 [];
     sg_events := (λ i, Turn (i `mod` 2) (Z.of_nat i)) <$> seq 0 10 |}.

Definition example_globals : Globals (AdapterImpl NaiveLock * (nat → unit)) :=
  {| g_ds := (AdapterImpl_make 2 0 10 NullPtr, λ _, tt); g_rngs := [setSeed 5; setSeed 6];
     curKeySum := 0; curSize := 0 |}.

Lemma example_generator_ok : default_ok 9 all_opers example_generator.
Proof. by repeat split. Qed.

Lemma example_stages_ok : Forall (stage_ok (AGO := default_args_ok 8 id (λ x _, x)) 8 9 2)
  [example_prefill; example_no_stage; example_test].
Proof.
  repeat constructor; simpl; try lia; exists all_opers; (split; [apply example_generator_ok|]); (split; [done|]); by split || done.
Qed.

Lemma example_words : Forall words_ok [setSeed 5; setSeed 6].
Proof. repeat constructor; by vm_compute. Qed.

Lemma run_stages_key_sum_witness :
  ∃ w b keys, run (AG := default_args 8 id (λ x _, x)) (DS := adapter_set) false
      example_prefill example_no_stage example_test example_globals = Ok (w, b) ∧
    curSize b = 3 ∧ represents (g_ds b).1 keys ∧ 23 = s64 (key_sum keys).
Proof.
  pose proof (run_stages_key_sum 8 false 9 (H0 := default_args_ok 8 id (λ x _, x)) (H1 := adapter_set)
    example_prefill example_no_stage example_test (g_ds example_globals) (g_rngs example_globals)) as Hrun.
  specialize (Hrun (adapter_make_holds 2 9 (λ _, tt) ltac:(lia)) example_words example_stages_ok
    ltac:(by left)).
  assert (match run (AG := default_args 8 id (λ x _, x)) (DS := adapter_set) false
    example_prefill example_no_stage example_test example_globals with
    Ok p => (threads_final_keysum p, curSize p.2) = (23, 3) | _ => False end) as Hb by by vm_compute.
  cbv zeta in Hrun. change {| g_ds := g_ds example_globals; g_rngs := _; curKeySum := 0; curSize := 0 |}
    with example_globals in Hrun.
  destruct (run _ _ _ _ example_globals) as [[w b]| | |]; try done.
  destruct Hrun as (_ & keys & Hds & Hsum). exists w, b, keys. injection Hb as Hb1 Hb2.
  split; [done|]. split; [exact Hb2|]. split; [apply Hds|]. by rewrite <-Hb1.
Defined.

Lemma operation_counter_exact_witness :
  ∃ w, execute_stage (AG := default_args 8 id (λ x _, x)) (DS := adapter_set) false
      example_test example_globals = Ok w ∧
    all_stopped w ∧ completed <$> w_threads w = [4; 3].
Proof.
  pose proof (operation_counter_exact 8 false 9 (H0 := default_args_ok 8 id (λ x _, x)) (H1 := adapter_set)
    7 example_test example_globals ∅ (adapter_make_holds 2 9 (λ _, tt) ltac:(lia)) example_words
    (proj1 (Forall_lookup _ _) example_stages_ok 2%nat _ eq_refl)) as Hrun.
  assert (match execute_stage (AG := default_args 8 id (λ x _, x)) (DS := adapter_set) false
    example_test example_globals with Ok _ => True | _ => False end) as Hw by by vm_compute.
  cbv zeta in Hrun.
  destruct (execute_stage _ _ _) as [w| | |]; try done. exists w. split; [done|].
  destruct Hrun as (Hall & Hshares & _); [done| |by split].
  split; [lia|]. split; [done|]. split; [by exists []|].
  intros [|[|t]] p Hp; [injection Hp as <-; by vm_compute..|done].
Defined.
