(* ===== verification/Json.v ===== *)
(** The interface of the JSON library.

    The microbenchmark reads and writes its parameters with [nlohmann::json], which is
    not part of the repository. [JsonLib] states what the conversions of [Config] use
    of it, and [json] is a small library that implements it. *)
From Stdlib Require Import Ascii String.
From S2P Require Import Double Distributions Prelude.

#[export] Instance string_eq_dec : EqDecision string := string_dec.

(** The value of a key. *)
Fixpoint find_key {A} (k : string) (l : list (string * A)) : option A :=
  match l with
  | [] => None
  | (k', v) :: l => if decide (k = k') then Some v else find_key k l
  end.

Definition is_s64 (z : Z) : Prop := - 2 ^ 63 ≤ z < 2 ^ 63.

(** [json_object l] is a value after the assignments [j[k] = v] of [l], of different
    keys, and null without any. [at_key] is [operator[]] of a constant value, which
    must have the key, as [contains] tells. The [as_] functions are [get<T>()] and
    fail for a value of another type. [items] are what a loop over a value visits. *)
Class JsonLib (J : Type) := {
  json_object : list (string * J) → J;
  json_array : list J → J;
  json_bool : bool → J;
  json_size : Z → J;
  json_int : Z → J;
  json_double : double → J;
  json_string : string → J;
  at_key : string → J → option J;
  as_bool : J → option bool;
  as_size : J → option Z;
  as_int : J → option Z;
  as_double : J → option double;
  as_string : J → option string;
  items : J → list J;
  is_array : J → bool;
  is_number_integer : J → bool;
  at_key_object k l : NoDup l.*1 → at_key k (json_object l) = find_key k l;
  as_bool_bool b : as_bool (json_bool b) = Some b;
  as_size_size z : is_u64 z → as_size (json_size z) = Some z;
  as_int_int z : is_s64 z → as_int (json_int z) = Some z;
  as_double_double d : as_double (json_double d) = Some d;
  as_string_string s : as_string (json_string s) = Some s;
  items_array l : items (json_array l) = l;
  is_array_array l : is_array (json_array l) = true;
  is_number_integer_size z : is_number_integer (json_size z) = true
}.

(** ** An implementation *)

Inductive json :=
  | JNull
  | JBool (b : bool)
  | JInteger (z : Z)
  | JDouble (d : double)
  | JString (s : string)
  | JArray (l : list json)
  | JObject (l : list (string * json)).

#[export] Instance json_lib : JsonLib json.
Proof.
  refine {|
    json_object l := match l with [] => JNull | _ => JObject l end;
    json_array := JArray;
    json_bool := JBool;
    json_size := JInteger;
    json_int := JInteger;
    json_double := JDouble;
    json_string := JString;
    at_key k j := match j with JObject l => find_key k l | _ => None end;
    as_bool j := match j with JBool b => Some b | _ => None end;
    as_size j := match j with JInteger z => Some (u64 z) | _ => None end;
    as_int j := match j with JInteger z => Some (s64 z) | _ => None end;
    as_double j := match j with JDouble d => Some d | JInteger z => Some (d_of_Z z) | _ => None end;
    as_string j := match j with JString s => Some s | _ => None end;
    items j := match j with JArray l => l | JObject l => l.*2 | JNull => [] | _ => [j] end;
    is_array j := match j with JArray _ => true | _ => false end;
    is_number_integer j := match j with JInteger _ => true | _ => false end
  |}; try done.
  - by intros k [|p l].
  - intros z Hz. by rewrite u64_small.
  - intros z Hz. unfold s64, is_s64 in *. rewrite modulus64_val, Z.mod_small by lia. f_equal. lia.
Defined.

(** ** Operations of vectors and strings *)

(** [j[k].push_back(v)] of every [v]: without any the key does not appear. *)
Definition pushed {J} `{JsonLib J} (k : string) (l : list J) : list (string * J) :=
  match l with [] => [] | _ => [(k, json_array l)] end.

(** [std::copy] of [src] over the array [dst]; [None] when it writes behind it. *)
Definition copy_over {A} (src dst : list A) : option (list A) :=
  if decide (length src ≤ length dst)%nat then Some (src ++ drop (length src) dst) else None.

Lemma copy_over_same {A} (src dst : list A) : length src = length dst → copy_over src dst = Some src.
Proof.
  intros Hl. unfold copy_over. rewrite decide_True by lia.
  by rewrite drop_ge, app_nil_r by lia.
Qed.
