(* ===== verification/Pins.v ===== *)
(** The pin patterns of the microbenchmark
    ([Benchmark-v700/cpp/microbench/workloads/parameters.h], [parse_binding]).

    A pattern says to which processor each thread is bound: [3] one thread to
    processor 3, [2-5] four threads, [~4] four threads that are not bound, [~.] one.
    [parse_binding] reads it from an [istringstream]; a stream is the list of the
    characters that are left. The theorem: a list of such items, printed and parsed,
    is the list of the processors. *)
From Stdlib Require Import Ascii String.
From S2P Require Import Double Prelude PrintCompat.

Definition tilde : ascii := Ascii.ascii_of_nat 126.
Definition comma : ascii := Ascii.ascii_of_nat 44.
Definition plus_sign : ascii := Ascii.ascii_of_nat 43.

Definition is_space (c : ascii) : bool := (code c =? 32) || ((9 <=? code c) && (code c <=? 13)).

Fixpoint skip_space (s : str) : str :=
  match s with
  | c :: s' => if is_space c then skip_space s' else s
  | [] => []
  end.

(** The digits of a number, and what follows them. *)
Fixpoint read_digits (acc : Z) (s : str) : Z * str :=
  match s with
  | c :: s' => if is_digit c then read_digits (acc * 10 + digit_value c) s' else (acc, s)
  | [] => (acc, s)
  end.

(** [iss >> num]: [None] when it fails, without a digit or for a number that is no
    [int]. *)
Definition read_int (s : str) : option (Z * str) :=
  let s := skip_space s in
  let '(sign, s) :=
    match s with
    | c :: s' => if decide (c = minus) then (-1, s') else if decide (c = plus_sign) then (1, s') else (1, s)
    | [] => (1, s)
    end in
  match s with
  | c :: _ =>
      if is_digit c then
        let '(v, s) := read_digits 0 s in
        let v := sign * v in
        if (- 2 ^ 31 <=? v) && (v <? 2 ^ 31) then Some (v, s) else None
      else None
  | [] => None
  end.

(** The loop of [parse_binding]: [None] is a negative count, which [insert] refuses,
    or an interval up to the last [int], whose loop overflows. It reads a character
    per round, so that the length of the pattern is fuel enough. *)
Fixpoint binding_loop (fuel : nat) (s : str) (result_pin : list Z) : option (list Z) :=
  match fuel with
  | O => Some result_pin
  | S fuel =>
      match skip_space s with
      | [] => Some result_pin
      | c :: s =>
          if decide (c = tilde) then
            if decide (head s = Some dot) then binding_loop fuel s (result_pin ++ [-1])
            else
              match read_int s with
              | Some (num, s) =>
                  if num <? 0 then None
                  else binding_loop fuel s (result_pin ++ replicate (Z.to_nat num) (-1))
              | None => Some result_pin
              end
          else if is_digit c then
            match read_int (c :: s) with
            | Some (num, s) =>
                match s with
                | next :: s' =>
                    if decide (next = minus) then
                      match read_int s' with
                      | Some (end_, s') =>
                          if (end_ =? 2 ^ 31 - 1) && (num <=? end_) then None
                          else binding_loop fuel s' (result_pin ++ seqZ num (end_ - num + 1))
                      | None => Some result_pin
                      end
                    else binding_loop fuel s (result_pin ++ [num])
                | [] => Some (result_pin ++ [num])
                end
            | None => Some result_pin
            end
          else binding_loop fuel s result_pin
      end
  end.

Definition parse_binding (pin_pattern : str) : option (list Z) :=
  binding_loop (length pin_pattern) pin_pattern [].

(** ** Patterns *)

Inductive Pin :=
  | PinOne (n : Z)
  | PinInterval (first last : Z)
  | PinFree (n : Z)
  | PinUnbound.

Definition pin_text (p : Pin) : str :=
  match p with
  | PinOne n => print_Z n
  | PinInterval a b => print_Z a ++ [minus] ++ print_Z b
  | PinFree n => tilde :: print_Z n
  | PinUnbound => [tilde; dot]
  end.

Definition pins_of (p : Pin) : list Z :=
  match p with
  | PinOne n => [n]
  | PinInterval a b => seqZ a (b - a + 1)
  | PinFree n => replicate (Z.to_nat n) (-1)
  | PinUnbound => [-1]
  end.

Definition pin_ok (p : Pin) : Prop :=
  match p with
  | PinOne n | PinFree n => 0 ≤ n < 2 ^ 31
  | PinInterval a b => 0 ≤ a < 2 ^ 31 ∧ 0 ≤ b < 2 ^ 31 - 1
  | PinUnbound => True
  end.

Definition pattern (l : list Pin) : str := concat ((λ p, comma :: pin_text p) <$> l).

(** *** Numbers *)

Lemma read_digit a d s : 0 ≤ d < 10 → read_digits a (digit_char d :: s) = read_digits (a * 10 + d) s.
Proof. intros Hd. cbn [read_digits]. by destruct (digit_char_digit d Hd) as [-> ->]. Qed.

Lemma read_digits_of fuel : ∀ z s,
  0 ≤ z → z < 10 ^ Z.of_nat fuel → (0 < fuel)%nat →
  read_digits 0 (digits_of fuel z [] ++ s) = read_digits z s.
Proof.
  induction fuel as [|fuel IH]; intros z s Hz Hf Hpos; [lia|]. cbn [digits_of].
  pose proof (Z.mod_pos_bound z 10 ltac:(lia)). pose proof (Z.div_mod z 10 ltac:(lia)).
  destruct (Z.ltb_spec z 10).
  - rewrite Z.mod_small by lia. simpl app. by rewrite read_digit by lia.
  - rewrite digits_of_app, <-app_assoc. simpl app.
    rewrite Nat2Z.inj_succ, Z.pow_succ_r in Hf by lia.
    assert (0 < fuel)%nat by (destruct fuel; [simpl in Hf; lia|lia]).
    assert (0 ≤ z / 10) by (apply Z.div_pos; lia).
    rewrite IH by (try done; lia). rewrite read_digit by lia. f_equal. lia.
Qed.

(** The rest begins with no digit. *)
Definition ends_number (s : str) : Prop := match s with c :: _ => is_digit c = false | [] => True end.

Lemma digit_not_space c : is_digit c = true → is_space c = false ∧ c ≠ minus ∧ c ≠ plus_sign ∧ c ≠ tilde.
Proof.
  intros Hc. unfold is_digit, is_space in *. apply andb_true_iff in Hc as [H1%Z.leb_le H2%Z.leb_le].
  split; [zbool; lia|]. split_and!; intros ->; by vm_compute in H1, H2.
Qed.

Lemma print_Z_digits z : 0 ≤ z → print_Z z = digits_of 20 z [].
Proof. intros Hz. unfold print_Z. by destruct (Z.ltb_spec z 0); [lia|]. Qed.

Lemma print_Z_head z : 0 ≤ z → ∃ c s, print_Z z = c :: s ∧ is_digit c = true.
Proof.
  intros Hz. rewrite print_Z_digits by done.
  destruct (digits_of_head 20 z [] Hz ltac:(lia)) as (d & l & -> & Hd). exists (digit_char d), l.
  split; [done|apply digit_char_digit; lia].
Qed.

Lemma read_int_print z s : 0 ≤ z < 2 ^ 31 → ends_number s → read_int (print_Z z ++ s) = Some (z, s).
Proof.
  intros Hz Hs. pose proof (print_Z_head z ltac:(lia)) as (c & r & Hp & Hc).
  destruct (digit_not_space c Hc) as (H1 & H2 & H3 & _).
  unfold read_int. rewrite Hp. cbn [app skip_space]. rewrite H1. rewrite !decide_False by done.
  rewrite Hc. rewrite app_comm_cons, <-Hp, print_Z_digits, read_digits_of by lia.
  assert (read_digits z s = (z, s)) as -> by (destruct s; [done|]; cbn [read_digits]; by rewrite Hs).
  rewrite Z.mul_1_l. zbool; simpl; lia || done.
Qed.

(** *** One item *)

Definition ends_item (s : str) : Prop := match s with c :: _ => c = comma | [] => True end.

Lemma ends_item_number s : ends_item s → ends_number s ∧ head s ≠ Some minus ∧ head s ≠ Some dot.
Proof. destruct s as [|c s]; [by intros _|]. intros ->. by split_and!. Qed.

Lemma binding_digit fuel z s acc :
  0 ≤ z < 2 ^ 31 → ends_number s →
  binding_loop (S fuel) (print_Z z ++ s) acc =
    match s with
    | next :: s' =>
        if decide (next = minus) then
          match read_int s' with
          | Some (end_, s') =>
              if (end_ =? 2 ^ 31 - 1) && (z <=? end_) then None
              else binding_loop fuel s' (acc ++ seqZ z (end_ - z + 1))
          | None => Some acc
          end
        else binding_loop fuel s (acc ++ [z])
    | [] => Some (acc ++ [z])
    end.
Proof.
  intros Hz Hs. pose proof (print_Z_head z ltac:(lia)) as (c & r & Hp & Hc).
  destruct (digit_not_space c Hc) as (H1 & _ & _ & H4).
  cbn [binding_loop]. rewrite Hp. cbn [app skip_space]. rewrite H1, decide_False, Hc by done.
  by rewrite app_comm_cons, <-Hp, read_int_print by done.
Qed.

Lemma binding_nil fuel acc : binding_loop fuel [] acc = Some acc.
Proof. by destruct fuel. Qed.

(** The rounds that an item takes. *)
Definition rounds (p : Pin) : nat := if p is PinUnbound then 2 else 1.

Lemma binding_pin fuel p s acc :
  pin_ok p → ends_item s →
  binding_loop (rounds p + fuel) (pin_text p ++ s) acc = binding_loop fuel s (acc ++ pins_of p).
Proof.
  intros Hp Hs. destruct (ends_item_number s Hs) as (Hn & Hm & Hd).
  destruct p as [n|a b|n|]; simpl in Hp; cbn [pin_text pins_of rounds Nat.add].
  - rewrite binding_digit by done. destruct s as [|c s]; [by rewrite binding_nil|].
    rewrite decide_False by (intros ->; by apply Hm). done.
  - rewrite <-!app_assoc. rewrite binding_digit by (simpl; tauto). cbn [app].
    rewrite decide_True, read_int_print by (done || lia). zbool; simpl; lia || done.
  - cbn [app]. cbn [binding_loop]. change (skip_space (tilde :: print_Z n ++ s)) with (tilde :: print_Z n ++ s).
    cbn iota beta. rewrite decide_True by done.
    pose proof (print_Z_head n ltac:(lia)) as (c & r & Hc & Hdig).
    rewrite decide_False by (rewrite Hc; simpl; intros [= ->]; by vm_compute in Hdig).
    rewrite read_int_print by done. zbool; lia || done.
  - cbn [app]. cbn [binding_loop]. change (skip_space (tilde :: dot :: s)) with (tilde :: dot :: s).
    cbn iota beta. rewrite !decide_True by done.
    change (skip_space (dot :: s)) with (dot :: s). cbn iota beta. by rewrite decide_False by done.
Qed.

Lemma pattern_ends l : ends_item (pattern l).
Proof. by destruct l. Qed.

Lemma rounds_length p : pin_ok p → (rounds p ≤ length (pin_text p))%nat.
Proof.
  intros Hp. destruct p as [n|a b|n|]; simpl in *; try lia.
  - destruct (print_Z_head n ltac:(lia)) as (c & r & -> & _). simpl. lia.
  - rewrite length_app. simpl. lia.
Qed.

(** A pattern with a comma before every item. *)
Lemma binding_pattern l : ∀ fuel acc,
  Forall pin_ok l → (length (pattern l) ≤ fuel)%nat →
  binding_loop fuel (pattern l) acc = Some (acc ++ concat (pins_of <$> l)).
Proof.
  induction l as [|p l IH]; intros fuel acc Hl Hf; [rewrite binding_nil; cbn; by rewrite app_nil_r|].
  apply Forall_cons in Hl as [Hp Hl]. change (pattern (p :: l)) with (comma :: pin_text p ++ pattern l) in *.
  cbn [length] in Hf. rewrite length_app in Hf. pose proof (rounds_length p Hp).
  destruct fuel as [|fuel]; [lia|]. cbn [binding_loop].
  change (skip_space (comma :: pin_text p ++ pattern l)) with (comma :: pin_text p ++ pattern l). cbn iota beta.
  rewrite decide_False by done. change (is_digit comma) with false. cbn iota.
  replace fuel with (rounds p + (fuel - rounds p))%nat by lia.
  rewrite binding_pin by (done || apply pattern_ends). rewrite IH by (done || lia).
  cbn [fmap list_fmap concat]. by rewrite app_assoc.
Qed.

(** [parse_binding] reads back every pin pattern: a list of single processors,
    intervals and unbound threads, printed with commas between them, is parsed as the
    list of the processors, one per thread. *)
Theorem parse_binding_roundtrip p l :
  Forall pin_ok (p :: l) →
  parse_binding (pin_text p ++ pattern l) = Some (concat (pins_of <$> p :: l)).
Proof.
  intros Hl. apply Forall_cons in Hl as [Hp Hl]. unfold parse_binding.
  pose proof (rounds_length p Hp). rewrite length_app.
  replace (length (pin_text p) + length (pattern l))%nat
    with (rounds p + (length (pin_text p) - rounds p + length (pattern l)))%nat by lia.
  rewrite binding_pin by (done || apply pattern_ends). by rewrite binding_pattern by (done || lia).
Qed.

Lemma parse_binding_roundtrip_witness :
  parse_binding (text "0,4-6,~2,~.") = Some [0; 4; 5; 6; -1; -1; -1].
Proof.
  refine (parse_binding_roundtrip (PinOne 0) [PinInterval 4 6; PinFree 2; PinUnbound] _).
  repeat constructor; simpl; lia.
Defined.
