(* ===== verification/Config.v ===== *)
(** The configuration of the microbenchmark
    ([Benchmark-v700/cpp/microbench/workloads]: [bench_parameters.h], [parameters.h],
    the builders and the [..._json_convector.h] files).

    The parameters of a run are read from JSON and written to JSON. A builder is a
    value with the members that its [to_json] writes. Data maps are shared: a builder
    holds a pointer, JSON names the data map by its [id], and a registry of the
    parsed ones makes equal ids the same object. A data map is therefore an object
    with its own [id]. [conf] computations change the registry and the counter of
    ids. A missing key, a value of the wrong type and a failing [dynamic_cast] are
    [Undefined]: the library asserts or throws, and the code dereferences the null
    pointer. The nesting of a JSON value bounds the recursion, as fuel. *)
From Stdlib Require Import Ascii String.
From S2P Require Import Double PrintCompat Distributions Args ThreadLoops Json Pins Prelude.

#[local] Open Scope string_scope.
#[local] Open Scope list_scope.
#[local] Open Scope Z_scope.

(** ** Data maps *)

Inductive DataMapClass := IdDataMapClass | ArrayDataMapClass.

#[export] Instance data_map_class_eq_dec : EqDecision DataMapClass.
Proof. solve_decision. Defined.

(** A [DataMapBuilder]: its own [id] tells the objects apart. *)
Record DataMapRef := { dm_id : Z; dm_class : DataMapClass }.

(** [DataMapBuilder::id_counter] and [data_map_builders]. *)
Record Names := { id_counter : Z; data_map_builders : gmap Z DataMapRef }.

Definition conf (A : Type) : Type := Names → res (A * Names).

#[export] Instance conf_ret : MRet conf := λ A a st, Ok (a, st).
#[export] Instance conf_bind : MBind conf := λ A B f p st,
  match p st with
  | Ok (a, st) => f a st
  | SetbenchError => SetbenchError
  | Undefined => Undefined
  | OutOfFuel => OutOfFuel
  end.

Definition conf_error {A} : conf A := λ _, SetbenchError.
Definition no_fuel {A} : conf A := λ _, OutOfFuel.
Definition need {A} (o : option A) : conf A := match o with Some a => mret a | None => λ _, Undefined end.

(** [n] data maps are made by the initialisers of the members of a new builder. *)
Definition new_maps (n : Z) : conf () := λ st, Ok ((), {| st with id_counter := id_counter st +₆₄ n |}).

(** ** Builders *)

Definition as_skewed (b : DistributionBuilder) : option SkewedBuilder :=
  match b with
  | SkewedUniformDistributionBuilder hotSize hotRatio hot cold =>
      Some {| sk_hotSize := hotSize; sk_hotRatio := hotRatio; sk_hotDistBuilder := hot; sk_coldDistBuilder := cold |}
  | _ => None
  end.

Definition as_mutable (b : DistributionBuilder) : option DistributionBuilder :=
  match b with SkewedUniformDistributionBuilder _ _ _ _ => None | _ => Some b end.

Record TemporarySkewedMembers := {
  tc_set_number_ : Z;
  tc_default_hot_time_ : Z;
  tc_default_relax_time_ : Z;
  tc_hot_dist_builders_ : list SkewedBuilder;
  tc_hot_times_ : list Z;
  tc_relax_times_ : list Z;
  tc_manual_setting_set_begins_ : bool;
  (** No memory when the begins are not set by hand. *)
  tc_set_begins_ : list double;
  tc_relax_dist_builder_ : DistributionBuilder;
  tc_data_map_builder_ : DataMapRef
}.

Inductive ArgsBuilder :=
  | CDefault (distributionBuilder : DistributionBuilder) (dataMapBuilder : DataMapRef)
  | CSkewedSets (read_dist_builder_ write_dist_builder_ : SkewedBuilder) (intersection_ : double)
      (data_map_builder_ : DataMapRef)
  | CTemporarySkewed (b : TemporarySkewedMembers)
  | CCreakersAndWave (creakers_ratio_ creakers_size_ wave_size_ : double)
      (creakers_dist_builder_ wave_dist_builder_ : DistributionBuilder) (data_map_builder_ : DataMapRef)
  | CCreakersAndWavePrefill (creakers_size_ wave_size_ : double) (data_map_builder_ : DataMapRef)
  | CLeafsHandshake (read_dist_builder_ insert_dist_builder_ remove_dist_builder_ : DistributionBuilder)
      (read_data_map_builder_ remove_data_map_builder_ : DataMapRef)
  | CSkewedInsert (dist_builder_ : DistributionBuilder) (skewed_size_ : double) (data_map_builder_ : DataMapRef)
  | CGeneralized (args_generator_builders_ : list (list string * ArgsBuilder))
  | CNull
  | CRangeQuery (interval_ : Z) (distributionBuilder : DistributionBuilder) (dataMapBuilder : DataMapRef)
  | CMovingWindow (window_size_ interval_ stage_duration_ : Z) (window_begin_fractions_ : list double)
      (data_map_builder_ : DataMapRef).

Inductive LoopBuilder :=
  | CDefaultLoop (parameters : RatioThreadLoopParameters) (argsGeneratorBuilder : ArgsBuilder)
  | CTemporaryLoop (stagesNumber : Z) (stagesDurations : list Z) (ratios : list RatioThreadLoopParameters)
      (argsGeneratorBuilder : ArgsBuilder)
  | CPrefillInsertLoop (numberOfAttempts : Z) (argsGeneratorBuilder : ArgsBuilder).

Inductive Stop := CTimer (workTime : Z) | COperationCounter (common_operation_limit_ : Z).

Record ThreadLoopSettings := {
  threadLoopBuilder : LoopBuilder;
  quantity : Z;
  pinPattern : string
}.

Record Parameters := {
  num_threads_ : Z;
  pin_ : list Z;
  stopCondition : Stop;
  threadLoopBuilders : list ThreadLoopSettings
}.

Record BenchParameters := { range : Z; test : Parameters; prefill : Parameters; warmUp : Parameters }.

(** [resize(n, v)] *)
Definition resize {A} (n : Z) (v : A) (l : list A) : list A :=
  take (Z.to_nat n) l ++ replicate (Z.to_nat n - length l) v.

(** [None]: [parse_binding] fails, or finds no processor and the index is taken
    modulo zero. *)
Definition add_thread_loop_builder (s : ThreadLoopSettings) (p : Parameters) : option Parameters :=
  let num_threads := num_threads_ p +₆₄ quantity s in
  pin ← (if decide (pinPattern s = "") then Some (resize num_threads (-1) (pin_ p))
         else
           cur_pin ← parse_binding (text (pinPattern s));
           if (len cur_pin =? 0) && (0 <? quantity s) then None
           else Some (pin_ p ++ ((λ i, cur_pin.[i `mod` len cur_pin]) <$> seqZ 0 (quantity s))));
  Some {| num_threads_ := num_threads; pin_ := pin; stopCondition := stopCondition p;
          threadLoopBuilders := threadLoopBuilders p ++ [s] |}.

(** [Parameters()] *)
Definition new_parameters : Parameters :=
  {| num_threads_ := 0; pin_ := []; stopCondition := CTimer 5000; threadLoopBuilders := [] |}.

Definition set_stop_condition (s : Stop) (p : Parameters) : Parameters := {| p with stopCondition := s |}.

Definition get_total_threads (b : BenchParameters) : Z :=
  num_threads_ (prefill b) +₆₄ num_threads_ (warmUp b) +₆₄ num_threads_ (test b).

Definition get_max_threads (b : BenchParameters) : Z :=
  Z.max (num_threads_ (prefill b)) (Z.max (num_threads_ (warmUp b)) (num_threads_ (test b))).

(** [OPER_TYPES] *)
Definition OPER_TYPES : list string := ["get"; "insert"; "rangeQuery"; "remove"].

(** The loop of [GeneralizedArgsGeneratorBuilder::add_args_generator_builder] over
    the operations: the ones that are left undeclared. *)
Fixpoint declare (opers : list string) (undec_oper_types_ : list string) : res (list string) :=
  match opers with
  | [] => Ok undec_oper_types_
  | oper_type :: opers =>
      if decide (oper_type ∉ OPER_TYPES) then SetbenchError
      else if decide (oper_type ∉ undec_oper_types_) then SetbenchError
      else declare opers (filter (λ o, o ≠ oper_type) undec_oper_types_)
  end.

(** ** To JSON *)

Section ToJson.
  Context {J : Type} `{JsonLib J}.

Definition data_map_to_json (m : DataMapRef) : J :=
  json_object
    [("ClassName", json_string match dm_class m with
                               | IdDataMapClass => "IdDataMapBuilder"
                               | ArrayDataMapClass => "ArrayDataMapBuilder"
                               end);
     ("id", json_size (dm_id m))].

Definition uniform_to_json : J := json_object [("ClassName", json_string "UniformDistributionBuilder")].

Definition zipfian_to_json (alpha : double) : J :=
  json_object [("ClassName", json_string "ZipfianDistributionBuilder"); ("alpha", json_double alpha)].

Definition skewed_uniform_to_json (hotSize hotRatio : double) (hot cold : J) : J :=
  json_object
    [("ClassName", json_string "SkewedUniformDistributionBuilder");
     ("hotSize", json_double hotSize); ("hotRatio", json_double hotRatio);
     ("hotDistBuilder", hot); ("coldDistBuilder", cold)].

Fixpoint dist_to_json (b : DistributionBuilder) : J :=
  match b with
  | UniformDistributionBuilder => uniform_to_json
  | ZipfianDistributionBuilder alpha => zipfian_to_json alpha
  | SkewedUniformDistributionBuilder hotSize hotRatio hot cold =>
      skewed_uniform_to_json hotSize hotRatio (dist_to_json hot) (dist_to_json cold)
  end.

Definition skewed_to_json (b : SkewedBuilder) : J := dist_to_json (skewed b).

Definition temporary_skewed_to_json (b : TemporarySkewedMembers) : J :=
  json_object
    ([("ClassName", json_string "TemporarySkewedArgsGeneratorBuilder");
      ("setNumber", json_size (tc_set_number_ b));
      ("defaultHotTime", json_int (tc_default_hot_time_ b));
      ("defaultRelaxTime", json_int (tc_default_relax_time_ b))] ++
     pushed "hotDistBuilders" (skewed_to_json <$> tc_hot_dist_builders_ b) ++
     pushed "hotTimes" (json_int <$> tc_hot_times_ b) ++
     pushed "relaxTimes" (json_int <$> tc_relax_times_ b) ++
     (if tc_manual_setting_set_begins_ b then pushed "setBegins" (json_double <$> tc_set_begins_ b) else []) ++
     [("relaxDistBuilder", dist_to_json (tc_relax_dist_builder_ b));
      ("dataMapBuilder", data_map_to_json (tc_data_map_builder_ b));
      ("manualSettingSetBegins", json_bool (tc_manual_setting_set_begins_ b))]).

Definition default_to_json (dist : DistributionBuilder) (m : DataMapRef) : J :=
  json_object
    [("ClassName", json_string "DefaultArgsGeneratorBuilder");
     ("distributionBuilder", dist_to_json dist); ("dataMapBuilder", data_map_to_json m)].

Definition skewed_sets_to_json (read write : SkewedBuilder) (intersection : double) (m : DataMapRef) : J :=
  json_object
    [("ClassName", json_string "SkewedSetsArgsGeneratorBuilder");
     ("readDistBuilder", skewed_to_json read); ("writeDistBuilder", skewed_to_json write);
     ("intersection", json_double intersection); ("dataMapBuilder", data_map_to_json m)].

Definition creakers_to_json (ratio size wave : double)
    (creakers_dist wave_dist : DistributionBuilder) (m : DataMapRef) : J :=
  json_object
    [("ClassName", json_string "CreakersAndWaveArgsGeneratorBuilder");
     ("creakersRatio", json_double ratio); ("creakersSize", json_double size);
     ("waveSize", json_double wave); ("creakersDistBuilder", dist_to_json creakers_dist);
     ("waveDistBuilder", dist_to_json wave_dist); ("dataMapBuilder", data_map_to_json m)].

Definition creakers_prefill_to_json (size wave : double) (m : DataMapRef) : J :=
  json_object
    [("ClassName", json_string "CreakersAndWavePrefillArgsGeneratorBuilder");
     ("creakersSize", json_double size); ("waveSize", json_double wave);
     ("dataMapBuilder", data_map_to_json m)].

Definition leafs_to_json (read insert remove : DistributionBuilder) (read_m remove_m : DataMapRef) : J :=
  json_object
    [("ClassName", json_string "LeafsHandshakeArgsGeneratorBuilder");
     ("readDistBuilder", dist_to_json read); ("insertDistBuilder", dist_to_json insert);
     ("removeDistBuilder", dist_to_json remove); ("readDataMapBuilder", data_map_to_json read_m);
     ("removeDataMapBuilder", data_map_to_json remove_m)].

Definition skewed_insert_to_json (dist : DistributionBuilder) (size : double) (m : DataMapRef) : J :=
  json_object
    [("ClassName", json_string "SkewedInsertArgsGeneratorBuilder");
     ("distributionBuilder", dist_to_json dist); ("skewedSize", json_double size);
     ("dataMapBuilder", data_map_to_json m)].

Definition null_to_json : J :=
  json_object
    [("ClassName", json_string "NullArgsGeneratorBuilder")].

Definition range_query_to_json (interval : Z) (dist : DistributionBuilder) (m : DataMapRef) : J :=
  json_object
    [("ClassName", json_string "RangeQueryArgsGeneratorBuilder");
     ("interval", json_size interval); ("distributionBuilder", dist_to_json dist);
     ("dataMapBuilder", data_map_to_json m)].

Definition moving_window_to_json (window_size interval duration : Z) (fractions : list double)
    (m : DataMapRef) : J :=
  json_object
    [("ClassName", json_string "MovingWindowRangeArgsGeneratorBuilder");
     ("windowSize", json_size window_size); ("interval", json_size interval);
     ("stageDuration", json_size duration);
     ("windowBeginFractions", json_array (json_double <$> fractions));
     ("dataMapBuilder", data_map_to_json m)].

Definition generalized_to_json (builders : list (list string * J)) : J :=
  json_object
    [("ClassName", json_string "GeneralizedArgsGeneratorBuilder");
     ("builders", json_array
       (map (λ p, json_object [("opers", json_array (json_string <$> p.1)); ("argsGeneratorBuilder", p.2)]) builders))].

Fixpoint args_to_json (b : ArgsBuilder) : J :=
  match b with
  | CDefault dist m => default_to_json dist m
  | CSkewedSets read write intersection m => skewed_sets_to_json read write intersection m
  | CTemporarySkewed b => temporary_skewed_to_json b
  | CCreakersAndWave ratio size wave creakers_dist wave_dist m =>
      creakers_to_json ratio size wave creakers_dist wave_dist m
  | CCreakersAndWavePrefill size wave m => creakers_prefill_to_json size wave m
  | CLeafsHandshake read insert remove read_m remove_m => leafs_to_json read insert remove read_m remove_m
  | CSkewedInsert dist size m => skewed_insert_to_json dist size m
  | CGeneralized builders => generalized_to_json (map (λ p, (p.1, args_to_json p.2)) builders)
  | CNull => null_to_json
  | CRangeQuery interval dist m => range_query_to_json interval dist m
  | CMovingWindow window_size interval duration fractions m =>
      moving_window_to_json window_size interval duration fractions m
  end.

Definition ratios_to_json (p : RatioThreadLoopParameters) : J :=
  json_object [("insertRatio", json_double (INS_RATIO p)); ("removeRatio", json_double (REM_RATIO p));
               ("rqRatio", json_double (RQ_RATIO p))].

Definition default_loop_to_json (parameters : RatioThreadLoopParameters) (args : ArgsBuilder) : J :=
  json_object [("ClassName", json_string "DefaultThreadLoopBuilder");
               ("parameters", ratios_to_json parameters); ("argsGeneratorBuilder", args_to_json args)].

Definition temporary_loop_to_json (stagesNumber : Z) (durations : list Z) (ratios : list RatioThreadLoopParameters)
    (args : ArgsBuilder) : J :=
  json_object
    ([("ClassName", json_string "TemporaryOperationsThreadLoopBuilder");
      ("stagesNumber", json_size stagesNumber)] ++
     pushed "ratios" (ratios_to_json <$> ratios) ++ pushed "stagesDurations" (json_size <$> durations) ++
     [("argsGeneratorBuilder", args_to_json args)]).

Definition prefill_loop_to_json (attempts : Z) (args : ArgsBuilder) : J :=
  json_object [("ClassName", json_string "PrefillInsertThreadLoopBuilder");
               ("numberOfAttempts", json_size attempts); ("argsGeneratorBuilder", args_to_json args)].

Definition loop_to_json (b : LoopBuilder) : J :=
  match b with
  | CDefaultLoop parameters args => default_loop_to_json parameters args
  | CTemporaryLoop stagesNumber durations ratios args => temporary_loop_to_json stagesNumber durations ratios args
  | CPrefillInsertLoop attempts args => prefill_loop_to_json attempts args
  end.

Definition timer_to_json (workTime : Z) : J :=
  json_object [("ClassName", json_string "Timer"); ("workTime", json_size workTime)].

Definition operation_counter_to_json (limit : Z) : J :=
  json_object [("ClassName", json_string "OperationCounter"); ("commonOperationLimit", json_size limit)].

Definition stop_to_json (s : Stop) : J :=
  match s with
  | CTimer workTime => timer_to_json workTime
  | COperationCounter limit => operation_counter_to_json limit
  end.

Definition settings_to_json (s : ThreadLoopSettings) : J :=
  json_object
    ([("quantity", json_size (quantity s)); ("threadLoopBuilder", loop_to_json (threadLoopBuilder s))] ++
     if decide (pinPattern s = "") then [] else [("pin", json_string (pinPattern s))]).

Definition parameters_to_json (p : Parameters) : J :=
  json_object
    ([("numThreads", json_size (num_threads_ p)); ("stopCondition", stop_to_json (stopCondition p))] ++
     pushed "threadLoopBuilders" (settings_to_json <$> threadLoopBuilders p)).

Definition bench_to_json (b : BenchParameters) : J :=
  json_object [("range", json_size (range b)); ("test", parameters_to_json (test b));
               ("prefill", parameters_to_json (prefill b)); ("warmUp", parameters_to_json (warmUp b))].

End ToJson.

(** ** From JSON *)

Section FromJson.
  Context {J : Type} `{JsonLib J}.

(** [j[k]], and its value as a type. *)
Definition key (k : string) (j : J) : conf J := need (at_key k j).
Definition member {A} (k : string) (as_ : J → option A) (j : J) : conf A := j ← key k j; need (as_ j).
Definition contains (k : string) (j : J) : bool := bool_decide (is_Some (at_key k j)).
Definition is_class (s s' : string) : bool := bool_decide (s = s').

Definition zipfian_from_json (j : J) : conf DistributionBuilder :=
  alpha ← member "alpha" as_double j; mret (ZipfianDistributionBuilder alpha).

Definition skewed_uniform_from_json (from_json : J → conf DistributionBuilder) (j : J) : conf DistributionBuilder :=
  hotSize ← member "hotSize" as_double j;
  hotRatio ← member "hotRatio" as_double j;
  hot ← key "hotDistBuilder" j ≫= from_json;
  cold ← key "coldDistBuilder" j ≫= from_json;
  mret (SkewedUniformDistributionBuilder hotSize hotRatio hot cold).

Fixpoint get_distribution_from_json (fuel : nat) (j : J) : conf DistributionBuilder :=
  match fuel with
  | O => no_fuel
  | S fuel =>
      class_name ← member "ClassName" as_string j;
      if is_class class_name "UniformDistributionBuilder" then mret UniformDistributionBuilder
      else if is_class class_name "ZipfianDistributionBuilder" then zipfian_from_json j
      else if is_class class_name "SkewedUniformDistributionBuilder" then
        skewed_uniform_from_json (get_distribution_from_json fuel) j
      else conf_error
  end.

Definition get_skewed_from_json (fuel : nat) (j : J) : conf SkewedBuilder :=
  b ← get_distribution_from_json fuel j; need (as_skewed b).

Definition get_mutable_distribution_from_json (fuel : nat) (j : J) : conf DistributionBuilder :=
  b ← get_distribution_from_json fuel j; need (as_mutable b).

(** The [id] of a JSON data map, when it has one. *)
Definition json_id (j : J) : option Z :=
  i ← at_key "id" j; if is_number_integer i then as_size i else None.

(** [new IdDataMapBuilder()], [new ArrayDataMapBuilder()] *)
Definition new_data_map (c : DataMapClass) : conf DataMapRef := λ st,
  Ok ({| dm_id := id_counter st; dm_class := c |}, {| st with id_counter := id_counter st +₆₄ 1 |}).

(** [data_map_builders.insert], which keeps an entry that is there, and the counter
    behind the id. *)
Definition register (id : Z) (m : DataMapRef) : conf () := λ st,
  Ok ((), {| id_counter := Z.max (id_counter st) (id +₆₄ 1);
             data_map_builders := match data_map_builders st !! id with
                                  | Some _ => data_map_builders st
                                  | None => <[id := m]> (data_map_builders st)
                                  end |}).

Definition get_data_map_from_json (j : J) : conf DataMapRef := λ st,
  match i ← json_id j; data_map_builders st !! i with
  | Some m => Ok (m, st)
  | None =>
      (class_name ← member "ClassName" as_string j;
       m ← (if is_class class_name "IdDataMapBuilder" then new_data_map IdDataMapClass
            else if is_class class_name "ArrayDataMapBuilder" then new_data_map ArrayDataMapClass
            else if is_class class_name "HashDataMapBuilder" then λ _, Undefined
            else conf_error);
       _ ← register (default (dm_id m) (json_id j)) m;
       mret m) st
  end.

(** The values of an array. *)
Definition values {A} (as_ : J → option A) (j : J) : conf (list A) := need (mapM as_ (items j)).

Definition temporary_skewed_from_json (fuel : nat) (j : J) : conf TemporarySkewedMembers :=
  manual ← member "manualSettingSetBegins" as_bool j;
  default_hot ← member "defaultHotTime" as_int j;
  default_relax ← member "defaultRelaxTime" as_int j;
  set_number ← member "setNumber" as_size j;
  let n := Z.to_nat set_number in
  hot ← key "hotTimes" j ≫= values as_int;
  hot ← need (copy_over hot (replicate n default_hot));
  relax ← key "relaxTimes" j ≫= values as_int;
  relax ← need (copy_over relax (replicate n default_relax));
  begins ← (if manual : bool then
              begins ← key "setBegins" j ≫= values as_double;
              need (copy_over begins (replicate n d_zero))
            else mret []);
  relax_dist ← key "relaxDistBuilder" j ≫= get_distribution_from_json fuel;
  m ← key "dataMapBuilder" j ≫= get_data_map_from_json;
  dists ← (l ← key "hotDistBuilders" j; mapM (get_skewed_from_json fuel) (items l));
  dists ← need (copy_over dists (replicate n inhabitant));
  mret {| tc_set_number_ := set_number; tc_default_hot_time_ := default_hot;
          tc_default_relax_time_ := default_relax; tc_hot_dist_builders_ := dists;
          tc_hot_times_ := hot; tc_relax_times_ := relax; tc_manual_setting_set_begins_ := manual;
          tc_set_begins_ := begins; tc_relax_dist_builder_ := relax_dist; tc_data_map_builder_ := m |}.

(** An element of ["builders"], with the operations that are still undeclared. *)
Definition generalized_item (from_json : J → conf ArgsBuilder) (item : J)
    (st : list string * list (list string * ArgsBuilder)) :
    conf (list string * list (list string * ArgsBuilder)) :=
  if negb (contains "opers" item) || negb (contains "argsGeneratorBuilder" item) then conf_error
  else
    opers ← key "opers" item ≫= values as_string;
    b ← key "argsGeneratorBuilder" item ≫= from_json;
    match declare opers st.1 with
    | Ok undec => mret (undec, st.2 ++ [(opers, b)])
    | _ => conf_error
    end.

Fixpoint generalized_items (from_json : J → conf ArgsBuilder) (l : list J)
    (st : list string * list (list string * ArgsBuilder)) :
    conf (list string * list (list string * ArgsBuilder)) :=
  match l with
  | [] => mret st
  | item :: l => st ← generalized_item from_json item st; generalized_items from_json l st
  end.

Definition generalized_from_json (from_json : J → conf ArgsBuilder) (j : J) : conf ArgsBuilder :=
  if negb (contains "builders" j) then conf_error
  else
    l ← key "builders" j;
    if negb (is_array l) then conf_error
    else st ← generalized_items from_json (items l) (OPER_TYPES, []); mret (CGeneralized st.2).

(** A nested distribution and a nested data map. *)
Definition dist_key (fuel : nat) (k : string) (j : J) : conf DistributionBuilder :=
  key k j ≫= get_distribution_from_json fuel.
Definition skewed_key (fuel : nat) (k : string) (j : J) : conf SkewedBuilder :=
  key k j ≫= get_skewed_from_json fuel.
Definition mutable_key (fuel : nat) (k : string) (j : J) : conf DistributionBuilder :=
  key k j ≫= get_mutable_distribution_from_json fuel.
Definition data_map_key (k : string) (j : J) : conf DataMapRef := key k j ≫= get_data_map_from_json.

Definition default_from_json (fuel : nat) (j : J) : conf ArgsBuilder :=
  d ← dist_key fuel "distributionBuilder" j; m ← data_map_key "dataMapBuilder" j; mret (CDefault d m).

Definition skewed_sets_from_json (fuel : nat) (j : J) : conf ArgsBuilder :=
  read ← skewed_key fuel "readDistBuilder" j;
  write ← skewed_key fuel "writeDistBuilder" j;
  intersection ← member "intersection" as_double j;
  m ← data_map_key "dataMapBuilder" j;
  mret (CSkewedSets read write intersection m).

Definition creakers_from_json (fuel : nat) (j : J) : conf ArgsBuilder :=
  ratio ← member "creakersRatio" as_double j;
  size ← member "creakersSize" as_double j;
  wave ← member "waveSize" as_double j;
  creakers_dist ← dist_key fuel "creakersDistBuilder" j;
  wave_dist ← mutable_key fuel "waveDistBuilder" j;
  m ← data_map_key "dataMapBuilder" j;
  mret (CCreakersAndWave ratio size wave creakers_dist wave_dist m).

Definition creakers_prefill_from_json (j : J) : conf ArgsBuilder :=
  size ← member "creakersSize" as_double j;
  wave ← member "waveSize" as_double j;
  m ← data_map_key "dataMapBuilder" j;
  mret (CCreakersAndWavePrefill size wave m).

Definition leafs_from_json (fuel : nat) (j : J) : conf ArgsBuilder :=
  read ← dist_key fuel "readDistBuilder" j;
  insert ← mutable_key fuel "insertDistBuilder" j;
  remove ← dist_key fuel "removeDistBuilder" j;
  read_m ← data_map_key "readDataMapBuilder" j;
  remove_m ← data_map_key "removeDataMapBuilder" j;
  mret (CLeafsHandshake read insert remove read_m remove_m).

Definition skewed_insert_from_json (fuel : nat) (j : J) : conf ArgsBuilder :=
  d ← dist_key fuel "distributionBuilder" j;
  size ← member "skewedSize" as_double j;
  m ← data_map_key "dataMapBuilder" j;
  mret (CSkewedInsert d size m).

Definition range_query_from_json (fuel : nat) (j : J) : conf ArgsBuilder :=
  interval ← member "interval" as_size j;
  d ← dist_key fuel "distributionBuilder" j;
  m ← data_map_key "dataMapBuilder" j;
  mret (CRangeQuery interval d m).

Definition moving_window_from_json (j : J) : conf ArgsBuilder :=
  window_size ← member "windowSize" as_size j;
  interval ← member "interval" as_size j;
  duration ← member "stageDuration" as_size j;
  fractions ← key "windowBeginFractions" j ≫= values as_double;
  m ← data_map_key "dataMapBuilder" j;
  mret (CMovingWindow window_size interval duration fractions m).

(** The constructor makes the default data maps, then [from_json] replaces them. *)
Fixpoint get_args_generator_from_json (fuel : nat) (j : J) : conf ArgsBuilder :=
  match fuel with
  | O => no_fuel
  | S fuel =>
      class_name ← member "ClassName" as_string j;
      if is_class class_name "DefaultArgsGeneratorBuilder" then _ ← new_maps 1; default_from_json fuel j
      else if is_class class_name "SkewedSetsArgsGeneratorBuilder" then _ ← new_maps 1; skewed_sets_from_json fuel j
      else if is_class class_name "TemporarySkewedArgsGeneratorBuilder" then
        _ ← new_maps 1; b ← temporary_skewed_from_json fuel j; mret (CTemporarySkewed b)
      else if is_class class_name "CreakersAndWaveArgsGeneratorBuilder" then _ ← new_maps 1; creakers_from_json fuel j
      else if is_class class_name "CreakersAndWavePrefillArgsGeneratorBuilder" then
        _ ← new_maps 1; creakers_prefill_from_json j
      else if is_class class_name "LeafsHandshakeArgsGeneratorBuilder" then _ ← new_maps 2; leafs_from_json fuel j
      else if is_class class_name "SkewedInsertArgsGeneratorBuilder" then _ ← new_maps 1; skewed_insert_from_json fuel j
      else if is_class class_name "GeneralizedArgsGeneratorBuilder" then
        generalized_from_json (get_args_generator_from_json fuel) j
      else if is_class class_name "NullArgsGeneratorBuilder" then mret CNull
      else if is_class class_name "RangeQueryArgsGeneratorBuilder" then _ ← new_maps 1; range_query_from_json fuel j
      else if is_class class_name "MovingWindowRangeArgsGeneratorBuilder" then _ ← new_maps 1; moving_window_from_json j
      else conf_error
  end.

Definition ratios_from_json (j : J) : conf RatioThreadLoopParameters :=
  ins ← member "insertRatio" as_double j;
  rem ← member "removeRatio" as_double j;
  rq ← (if contains "rqRatio" j then member "rqRatio" as_double j else mret d_zero);
  mret {| INS_RATIO := ins; REM_RATIO := rem; RQ_RATIO := rq |}.

(** The memory for the durations is not initialised: all of them must be given. *)
Definition temporary_loop_from_json (fuel : nat) (j : J) : conf LoopBuilder :=
  stagesNumber ← member "stagesNumber" as_size j;
  let n := Z.to_nat stagesNumber in
  durations ← key "stagesDurations" j ≫= values as_size;
  durations ← need (if decide (length durations = n) then Some durations else None);
  ratios ← (l ← key "ratios" j; mapM ratios_from_json (items l));
  ratios ← need (copy_over ratios
    (replicate n {| INS_RATIO := d_zero; REM_RATIO := d_zero; RQ_RATIO := d_zero |}));
  args ← key "argsGeneratorBuilder" j ≫= get_args_generator_from_json fuel;
  mret (CTemporaryLoop stagesNumber durations ratios args).

(** [10e+6] *)
Definition default_attempts : Z := 10000000.

Definition default_loop_from_json (fuel : nat) (j : J) : conf LoopBuilder :=
  parameters ← key "parameters" j ≫= ratios_from_json;
  args ← key "argsGeneratorBuilder" j ≫= get_args_generator_from_json fuel;
  mret (CDefaultLoop parameters args).

Definition prefill_loop_from_json (fuel : nat) (j : J) : conf LoopBuilder :=
  attempts ← (if contains "numberOfAttempts" j then member "numberOfAttempts" as_size j
              else mret default_attempts);
  args ← key "argsGeneratorBuilder" j ≫= get_args_generator_from_json fuel;
  mret (CPrefillInsertLoop attempts args).

Definition get_thread_loop_from_json (fuel : nat) (j : J) : conf LoopBuilder :=
  class_name ← member "ClassName" as_string j;
  if is_class class_name "DefaultThreadLoopBuilder" then _ ← new_maps 1; default_loop_from_json fuel j
  else if is_class class_name "TemporaryOperationsThreadLoopBuilder" then
    _ ← new_maps 1; temporary_loop_from_json fuel j
  else if is_class class_name "PrefillInsertThreadLoopBuilder" then _ ← new_maps 1; prefill_loop_from_json fuel j
  else conf_error.

Definition timer_from_json (j : J) : conf Stop := workTime ← member "workTime" as_size j; mret (CTimer workTime).

Definition operation_counter_from_json (j : J) : conf Stop :=
  limit ← member "commonOperationLimit" as_size j; mret (COperationCounter limit).

Definition get_stop_condition_from_json (j : J) : conf Stop :=
  class_name ← member "ClassName" as_string j;
  if is_class class_name "Timer" then timer_from_json j
  else if is_class class_name "OperationCounter" then operation_counter_from_json j
  else conf_error.

(** [ThreadLoopSettings(const nlohmann::json&)] *)
Definition settings_from_json (fuel : nat) (j : J) : conf ThreadLoopSettings :=
  quantity ← member "quantity" as_size j;
  pin ← (if contains "pin" j then member "pin" as_string j else mret "");
  b ← key "threadLoopBuilder" j ≫= get_thread_loop_from_json fuel;
  mret {| threadLoopBuilder := b; quantity := quantity; pinPattern := pin |}.

Fixpoint add_all (fuel : nat) (l : list J) (p : Parameters) : conf Parameters :=
  match l with
  | [] => mret p
  | j :: l => s ← settings_from_json fuel j; p ← need (add_thread_loop_builder s p); add_all fuel l p
  end.

Definition parameters_from_json (fuel : nat) (j : J) : conf Parameters :=
  stop ← key "stopCondition" j ≫= get_stop_condition_from_json;
  let p := set_stop_condition stop new_parameters in
  if contains "threadLoopBuilders" j then l ← key "threadLoopBuilders" j; add_all fuel (items l) p
  else mret p.

Definition bench_from_json (fuel : nat) (j : J) : conf BenchParameters :=
  range ← member "range" as_size j;
  test ← key "test" j ≫= parameters_from_json fuel;
  prefill ← key "prefill" j ≫= parameters_from_json fuel;
  warmUp ← key "warmUp" j ≫= parameters_from_json fuel;
  mret {| range := range; test := test; prefill := prefill; warmUp := warmUp |}.

End FromJson.
