(* ===== verification/ConfigLaws.v ===== *)
(** JSON round trips of the configuration.

    The parameters of a run that are written to JSON and read again are the same, and
    the data maps are shared in the same way: the ids of the new objects differ, but
    two builders have the same object afterwards exactly if they had before. [cspec]
    is a logic of the reading computations: it follows the registry of data maps. *)
From Stdlib Require Import Ascii String.
From S2P Require Import Double PrintCompat Distributions Args ThreadLoops Json Pins Config Prelude.

#[local] Open Scope string_scope.
#[local] Open Scope list_scope.
#[local] Open Scope Z_scope.

(** ** The data maps of a configuration *)

(** [maps b] are the data maps that [b] points to; [rename f b] is [b] with others. *)
Class HasMaps (A : Type) := {
  maps : A → list DataMapRef;
  rename : (DataMapRef → DataMapRef) → A → A;
  rename_ext f g b : (∀ m, m ∈ maps b → f m = g m) → rename f b = rename g b
}.

#[export] Instance map_maps : HasMaps DataMapRef.
Proof. refine {| maps m := [m]; rename f m := f m |}. intros f g b Hfg. apply Hfg. by left. Defined.

Fixpoint args_maps (b : ArgsBuilder) : list DataMapRef :=
  match b with
  | CDefault _ m | CSkewedSets _ _ _ m | CCreakersAndWave _ _ _ _ _ m | CCreakersAndWavePrefill _ _ m
  | CSkewedInsert _ _ m | CRangeQuery _ _ m | CMovingWindow _ _ _ _ m => [m]
  | CTemporarySkewed b => [tc_data_map_builder_ b]
  | CLeafsHandshake _ _ _ m m' => [m; m']
  | CGeneralized l => concat (map (λ p, args_maps p.2) l)
  | CNull => []
  end.

Fixpoint rename_args (f : DataMapRef → DataMapRef) (b : ArgsBuilder) : ArgsBuilder :=
  match b with
  | CDefault d m => CDefault d (f m)
  | CSkewedSets r w i m => CSkewedSets r w i (f m)
  | CTemporarySkewed b => CTemporarySkewed {| b with tc_data_map_builder_ := f (tc_data_map_builder_ b) |}
  | CCreakersAndWave a b c d e m => CCreakersAndWave a b c d e (f m)
  | CCreakersAndWavePrefill a b m => CCreakersAndWavePrefill a b (f m)
  | CLeafsHandshake a b c m m' => CLeafsHandshake a b c (f m) (f m')
  | CSkewedInsert d s m => CSkewedInsert d s (f m)
  | CGeneralized l => CGeneralized (map (λ p, (p.1, rename_args f p.2)) l)
  | CNull => CNull
  | CRangeQuery i d m => CRangeQuery i d (f m)
  | CMovingWindow a b c d m => CMovingWindow a b c d (f m)
  end.

Lemma rename_args_ext f g : ∀ b, (∀ m, m ∈ args_maps b → f m = g m) → rename_args f b = rename_args g b.
Proof.
  fix IH 1. intros b Hfg. destruct b as [d m|r w i m|b|a b c d e m|a b m|a b c m m'|d s m|l| |i d m|a b c d m];
    simpl in *; try (f_equal; apply Hfg; by left || (right; left)); try done.
  - by rewrite (Hfg (tc_data_map_builder_ b) ltac:(by left)).
  - f_equal. induction l as [|[o b] l IHl]; [done|]. simpl in *. f_equal.
    + f_equal. apply IH. intros m Hm. apply Hfg, elem_of_app. by left.
    + apply IHl. intros m Hm. apply Hfg, elem_of_app. by right.
Qed.

#[export] Instance args_builder_maps : HasMaps ArgsBuilder :=
  {| maps := args_maps; rename := rename_args; rename_ext := rename_args_ext |}.

#[export] Instance list_maps {A} `{HasMaps A} : HasMaps (list A).
Proof.
  refine {| maps l := concat (maps <$> l); rename f l := rename f <$> l |}.
  intros f g l. induction l as [|b l IH]; intros Hfg; [done|]. simpl in *. f_equal.
  - apply rename_ext. intros m Hm. apply Hfg, elem_of_app. by left.
  - apply IH. intros m Hm. apply Hfg, elem_of_app. by right.
Defined.

Definition loop_args (b : LoopBuilder) : ArgsBuilder :=
  match b with CDefaultLoop _ a | CTemporaryLoop _ _ _ a | CPrefillInsertLoop _ a => a end.

Definition with_args (f : ArgsBuilder → ArgsBuilder) (b : LoopBuilder) : LoopBuilder :=
  match b with
  | CDefaultLoop p a => CDefaultLoop p (f a)
  | CTemporaryLoop n d r a => CTemporaryLoop n d r (f a)
  | CPrefillInsertLoop n a => CPrefillInsertLoop n (f a)
  end.

#[export] Instance loop_maps : HasMaps LoopBuilder.
Proof.
  refine {| maps b := maps (loop_args b); rename f := with_args (rename f) |}.
  intros f g b Hfg. destruct b; simpl in *; f_equal; by apply rename_args_ext.
Defined.

#[export] Instance settings_maps : HasMaps ThreadLoopSettings.
Proof.
  refine {| maps s := maps (threadLoopBuilder s);
            rename f s := {| s with threadLoopBuilder := rename f (threadLoopBuilder s) |} |}.
  intros f g b Hfg. by rewrite (rename_ext f g (threadLoopBuilder b) Hfg).
Defined.

#[export] Instance parameters_maps : HasMaps Parameters.
Proof.
  refine {| maps p := maps (threadLoopBuilders p);
            rename f p := {| p with threadLoopBuilders := rename f (threadLoopBuilders p) |} |}.
  intros f g b Hfg. by rewrite (rename_ext f g (threadLoopBuilders b) Hfg).
Defined.

#[export] Instance bench_maps : HasMaps BenchParameters.
Proof.
  refine {| maps b := maps (test b) ++ maps (prefill b) ++ maps (warmUp b);
            rename f b := {| range := range b; test := rename f (test b); prefill := rename f (prefill b);
                             warmUp := rename f (warmUp b) |} |}.
  intros f g b Hfg. rewrite (rename_ext f g (test b)), (rename_ext f g (prefill b)), (rename_ext f g (warmUp b));
    [done|..]; intros m Hm; apply Hfg; rewrite !elem_of_app; tauto.
Defined.

(** ** A logic of the reading computations *)

Section Laws.
  Context {J : Type} `{JsonLib J}.
  (** The class of the data map of each id. *)
  Variable class_of : Z → DataMapClass.

Definition names_ok (st : Names) : Prop :=
  0 ≤ id_counter st ∧
  (∀ i m, data_map_builders st !! i = Some m → dm_class m = class_of i ∧ dm_id m < id_counter st) ∧
  (∀ i i' m m', data_map_builders st !! i = Some m → data_map_builders st !! i' = Some m' →
     dm_id m = dm_id m' → i = i').

(** An id from JSON is less than [2^63], and so the counter passes that only by the
    objects that are made. *)
Definition level (st : Names) : Z := Z.max (id_counter st) (2 ^ 63).

(** [p] returns, has made at most [n] data maps, keeps what is registered, and its
    result satisfies [Q] with the registry. *)
Definition cspec {A} (p : conf A) (st : Names) (n : Z) (Q : A → gmap Z DataMapRef → Prop) : Prop :=
  names_ok st → level st + n < modulus64 →
  ∃ x st', p st = Ok (x, st') ∧ names_ok st' ∧ data_map_builders st ⊆ data_map_builders st' ∧
    level st' ≤ level st + n ∧ Q x (data_map_builders st').

Lemma cspec_ret {A} (a : A) st (Q : A → gmap Z DataMapRef → Prop) :
  Q a (data_map_builders st) → cspec (mret a) st 0 Q.
Proof. intros HQ Hst Hn. exists a, st. split_and!; [done..|lia|done]. Qed.

Lemma cspec_bind {A B} (p : conf A) (f : A → conf B) st n m Q R :
  0 ≤ m → cspec p st n Q →
  (∀ x st', data_map_builders st ⊆ data_map_builders st' → Q x (data_map_builders st') →
     cspec (f x) st' m R) →
  cspec (p ≫= f) st (n + m) R.
Proof.
  intros Hm Hp Hf Hst Hn. destruct (Hp Hst ltac:(lia)) as (x & st1 & Hp1 & Hst1 & Hsub1 & Hl1 & HQ).
  destruct (Hf x st1 Hsub1 HQ Hst1 ltac:(lia)) as (y & st2 & Hp2 & Hst2 & Hsub2 & Hl2 & HR).
  exists y, st2. unfold mbind, conf_bind. rewrite Hp1. split_and!; try done; [by etransitivity|lia].
Qed.

Lemma cspec_weaken {A} (p : conf A) st n m (Q R : A → gmap Z DataMapRef → Prop) :
  cspec p st n Q → n ≤ m → (∀ x ρ, Q x ρ → R x ρ) → cspec p st m R.
Proof.
  intros Hp Hnm HQR Hst Hm. destruct (Hp Hst ltac:(lia)) as (x & st' & ? & ? & ? & ? & ?).
  exists x, st'. split_and!; try done; [lia|auto].
Qed.

(** A computation that does not touch the registry. *)
Lemma cspec_pure {A B} (p : conf A) a (f : A → conf B) st n R :
  p st = Ok (a, st) → cspec (f a) st n R → cspec (p ≫= f) st n R.
Proof. intros Hp Hf Hst Hn. unfold mbind, conf_bind. rewrite Hp. by apply Hf. Qed.

Lemma cspec_assoc {A B C} (p : conf A) (g : A → conf B) (f : B → conf C) st n R :
  cspec (p ≫= λ a, g a ≫= f) st n R → cspec ((p ≫= g) ≫= f) st n R.
Proof.
  unfold cspec, mbind, conf_bind. intros Hp Hst Hn. specialize (Hp Hst Hn). by destruct (p st) as [[a st']| | |].
Qed.

(** The keys of an object are different. *)
Fixpoint distinct (l : list string) : bool :=
  match l with [] => true | k :: l => negb (existsb (String.eqb k) l) && distinct l end.

Lemma distinct_NoDup l : distinct l = true → NoDup l.
Proof.
  induction l as [|k l IH]; [constructor|]. simpl. intros [Hk Hl]%andb_true_iff. constructor; [|by apply IH].
  intros Hin. apply negb_true_iff in Hk. apply not_true_iff_false in Hk. apply Hk, existsb_exists.
  exists k. by rewrite String.eqb_refl, <-list_elem_of_In.
Qed.

Lemma key_object k (l : list (string * J)) v st :
  distinct l.*1 = true → find_key k l = Some v → key k (json_object l) st = Ok (v, st).
Proof. intros Hl Hk. unfold key. by rewrite at_key_object, Hk by by apply distinct_NoDup. Qed.

Lemma member_object {A} k (as_ : J → option A) (l : list (string * J)) v a st :
  distinct l.*1 = true → find_key k l = Some v → as_ v = Some a → member k as_ (json_object l) st = Ok (a, st).
Proof.
  intros Hl Hk Ha. unfold member, mbind, conf_bind. by rewrite (key_object k l v), Ha.
Qed.

Lemma contains_object k (l : list (string * J)) :
  distinct l.*1 = true → contains k (json_object l) = bool_decide (is_Some (find_key k l)).
Proof. intros Hl. unfold contains. by rewrite at_key_object by by apply distinct_NoDup. Qed.

Lemma mapM_fmap {A} (as_ : J → option A) (to : A → J) l :
  Forall (λ a, as_ (to a) = Some a) l → mapM as_ (to <$> l) = Some l.
Proof. induction 1 as [|a l Ha _ IH]; [done|]. cbn [fmap list_fmap mapM]. by rewrite Ha, IH. Qed.

Lemma values_array {A} (as_ : J → option A) (to : A → J) l st :
  Forall (λ a, as_ (to a) = Some a) l → values as_ (json_array (to <$> l)) st = Ok (l, st).
Proof. intros Hl. unfold values. by rewrite items_array, mapM_fmap. Qed.

Lemma cspec_key {B} k (l : list (string * J)) v (f : J → conf B) st n R :
  distinct l.*1 = true → find_key k l = Some v → cspec (f v) st n R → cspec (key k (json_object l) ≫= f) st n R.
Proof. intros Hl Hk. apply cspec_pure. by apply key_object. Qed.

Lemma cspec_key_then {B C} k (l : list (string * J)) v (g : J → conf B) (f : B → conf C) st n R :
  distinct l.*1 = true → find_key k l = Some v → cspec (g v ≫= f) st n R →
  cspec ((key k (json_object l) ≫= g) ≫= f) st n R.
Proof. intros Hl Hk Hf. apply cspec_assoc, (cspec_key k l v); done. Qed.

Lemma cspec_member {A B} k (as_ : J → option A) (l : list (string * J)) v a (f : A → conf B) st n R :
  distinct l.*1 = true → find_key k l = Some v → as_ v = Some a → cspec (f a) st n R →
  cspec (member k as_ (json_object l) ≫= f) st n R.
Proof. intros Hl Hk Ha. apply cspec_pure. by eapply member_object. Qed.

Lemma cspec_new_maps {B} k (f : () → conf B) st n R :
  0 ≤ k → 0 ≤ n →
  (∀ st', data_map_builders st' = data_map_builders st → cspec (f ()) st' n R) →
  cspec (new_maps k ≫= f) st (k + n) R.
Proof.
  intros Hk Hn Hf. apply cspec_bind with (λ _ ρ, ρ = data_map_builders st); [done| |].
  - intros Hst Hl. unfold level in Hl. destruct Hst as (H0 & Hreg & Hinj).
    assert (id_counter st +₆₄ k = id_counter st + k) as Heq by (rewrite u64_add_small; lia).
    eexists (), _. split; [done|]. unfold level. cbn [id_counter data_map_builders]. rewrite Heq.
    split; [|split; [done|split; [lia|done]]]. split; [simpl; lia|]. split; [|done].
    intros i m Hm. simpl. destruct (Hreg i m Hm). split; [done|lia].
  - intros [] st' _ Heq. by apply Hf.
Qed.

(** ** Data maps and distributions *)

Definition map_ok (m : DataMapRef) : Prop := dm_class m = class_of (dm_id m) ∧ 0 ≤ dm_id m < 2 ^ 63.

Lemma json_id_data_map m : map_ok m → json_id (data_map_to_json m) = Some (dm_id m).
Proof.
  intros [_ Hid]. unfold json_id.
  assert (at_key "id" (data_map_to_json m) = Some (json_size (dm_id m))) as ->.
  { unfold data_map_to_json. by rewrite at_key_object by by apply distinct_NoDup. }
  cbn. rewrite is_number_integer_size. apply as_size_size. unfold is_u64. rewrite modulus64_val. lia.
Qed.

Ltac classes := repeat match goal with |- context [is_class ?a ?b] =>
  let v := eval vm_compute in (is_class a b) in change (is_class a b) with v end; cbn iota.

Lemma bind_ok {A B} (p : conf A) (f : A → conf B) st a st' : p st = Ok (a, st') → (p ≫= f) st = f a st'.
Proof. intros Hp. unfold mbind, conf_bind. by rewrite Hp. Qed.

(** A new data map is registered under its id. *)
Lemma register_ok m st :
  map_ok m → data_map_builders st !! dm_id m = None → names_ok st → level st + 1 < modulus64 →
  let x := {| dm_id := id_counter st; dm_class := dm_class m |} in
  let st' := {| id_counter := Z.max (id_counter st +₆₄ 1) (dm_id m +₆₄ 1);
                data_map_builders := <[dm_id m := x]> (data_map_builders st) |} in
  names_ok st' ∧ data_map_builders st ⊆ data_map_builders st' ∧ level st' ≤ level st + 1.
Proof.
  intros [Hc Hid] Hnone (H0 & Hreg & Hinj) Hl x st'. unfold level in *.
  assert (id_counter st +₆₄ 1 = id_counter st + 1) as Hn by (apply u64_add_small; lia).
  assert (dm_id m +₆₄ 1 = dm_id m + 1) as Hn' by (apply u64_add_small; rewrite modulus64_val; lia).
  unfold st'. rewrite Hn, Hn'. cbn [id_counter data_map_builders].
  split; [|split; [by apply insert_subseteq|lia]]. split; [simpl; lia|]. cbn [id_counter data_map_builders]. split.
  - intros i m' Hm'. apply lookup_insert_Some in Hm' as [[<- <-]|[_ Hm']]; [simpl; split; [done|lia]|].
    destruct (Hreg i m' Hm'). split; [done|lia].
  - intros i i' m1 m2 H1 H2 Heq. apply lookup_insert_Some in H1 as [[<- <-]|[Hi H1]];
      apply lookup_insert_Some in H2 as [[<- <-]|[Hi' H2]]; try done; [..|by eapply Hinj].
    + destruct (Hreg _ _ H2). simpl in Heq. lia.
    + destruct (Hreg _ _ H1). simpl in Heq. lia.
Qed.

(** Equal ids are the same object. *)
Lemma data_map_spec m st :
  map_ok m → cspec (get_data_map_from_json (data_map_to_json m)) st 1 (λ x ρ, ρ !! dm_id m = Some x).
Proof.
  intros Hm Hst Hl. unfold get_data_map_from_json. rewrite json_id_data_map by done. cbn [mbind option_bind].
  destruct (data_map_builders st !! dm_id m) as [x|] eqn:Hx.
  { exists x, st. split_and!; try done. lia. }
  erewrite bind_ok by (eapply member_object; [done..|apply as_string_string]). cbn beta.
  pose proof (register_ok m st Hm Hx Hst Hl) as (H1 & H2 & H3).
  exists {| dm_id := id_counter st; dm_class := dm_class m |},
    {| id_counter := Z.max (id_counter st +₆₄ 1) (dm_id m +₆₄ 1);
       data_map_builders := <[dm_id m := {| dm_id := id_counter st; dm_class := dm_class m |}]>
                              (data_map_builders st) |}. split.
  { destruct (dm_class m); classes; unfold new_data_map, register, mbind, conf_bind; cbn; by rewrite Hx. }
  split_and!; [exact H1|exact H2|exact H3|by apply lookup_insert_eq].
Qed.

Fixpoint dist_depth (b : DistributionBuilder) : nat :=
  S match b with
    | SkewedUniformDistributionBuilder _ _ hot cold => Nat.max (dist_depth hot) (dist_depth cold)
    | _ => 0
    end.

Lemma dist_roundtrip fuel : ∀ b st,
  (dist_depth b ≤ fuel)%nat → get_distribution_from_json fuel (dist_to_json b) st = Ok (b, st).
Proof.
  induction fuel as [|fuel IH]; intros b st Hf; [destruct b; simpl in Hf; lia|]. cbn [get_distribution_from_json].
  destruct b as [|alpha|hs hr hot cold]; cbn [dist_to_json];
    unfold uniform_to_json, zipfian_to_json, skewed_uniform_to_json, zipfian_from_json, skewed_uniform_from_json;
    (erewrite bind_ok by (eapply member_object; [done..|apply as_string_string])); cbn beta; classes.
  - done.
  - by erewrite bind_ok by (eapply member_object; [done..|apply as_double_double]).
  - simpl in Hf. do 2 (erewrite bind_ok by (eapply member_object; [done..|apply as_double_double]); cbn beta).
    erewrite bind_ok by (erewrite bind_ok by (eapply key_object; done); apply IH; lia). cbn beta.
    by erewrite bind_ok by (erewrite bind_ok by (eapply key_object; done); apply IH; lia).
Qed.

Definition skewed_depth (b : SkewedBuilder) : nat := dist_depth (skewed b).

Lemma skewed_roundtrip fuel b st :
  (skewed_depth b ≤ fuel)%nat → get_skewed_from_json fuel (skewed_to_json b) st = Ok (b, st).
Proof.
  intros Hf. unfold get_skewed_from_json, skewed_to_json. erewrite bind_ok by by apply dist_roundtrip.
  by destruct b.
Qed.

Lemma mutable_roundtrip fuel b st :
  (dist_depth b ≤ fuel)%nat → as_mutable b = Some b →
  get_mutable_distribution_from_json fuel (dist_to_json b) st = Ok (b, st).
Proof.
  intros Hf Hb. unfold get_mutable_distribution_from_json. erewrite bind_ok by by apply dist_roundtrip.
  by rewrite Hb.
Qed.

(** ** Generators of arguments *)

Definition ren (ρ : gmap Z DataMapRef) (m : DataMapRef) : DataMapRef := default m (ρ !! dm_id m).
Definition known (ρ : gmap Z DataMapRef) (m : DataMapRef) : Prop := is_Some (ρ !! dm_id m).

(** [x] is [b] with the registered data maps. *)
Definition named {A} `{HasMaps A} (b x : A) (ρ : gmap Z DataMapRef) : Prop :=
  x = rename (ren ρ) b ∧ Forall (known ρ) (maps b).

Lemma ren_mono ρ ρ' m : ρ ⊆ ρ' → known ρ m → ren ρ m = ren ρ' m.
Proof. intros Hsub [x Hx]. unfold ren. by rewrite Hx, (lookup_weaken _ _ _ _ Hx Hsub). Qed.

Lemma named_mono {A} `{HasMaps A} (b x : A) ρ ρ' : ρ ⊆ ρ' → named b x ρ → named b x ρ'.
Proof.
  intros Hsub [-> Hk]. split.
  - apply rename_ext. intros m Hm. apply ren_mono; [done|]. by eapply Forall_forall in Hk.
  - eapply Forall_impl; [exact Hk|]. intros m [x Hx]. exists x. by eapply lookup_weaken.
Qed.

Lemma ren_lookup ρ m x : ρ !! dm_id m = Some x → ren ρ m = x ∧ known ρ m.
Proof. intros Hx. unfold ren, known. by rewrite Hx. Qed.

Definition temporary_ok (b : TemporarySkewedMembers) : Prop :=
  let n := Z.to_nat (tc_set_number_ b) in
  0 < tc_set_number_ b ∧ is_u64 (tc_set_number_ b) ∧
  is_s64 (tc_default_hot_time_ b) ∧ is_s64 (tc_default_relax_time_ b) ∧
  length (tc_hot_dist_builders_ b) = n ∧ length (tc_hot_times_ b) = n ∧ length (tc_relax_times_ b) = n ∧
  Forall is_s64 (tc_hot_times_ b) ∧ Forall is_s64 (tc_relax_times_ b) ∧
  (if tc_manual_setting_set_begins_ b then length (tc_set_begins_ b) = n else tc_set_begins_ b = []) ∧
  map_ok (tc_data_map_builder_ b).

(** The operations of all builders are declared, each once. *)
Fixpoint declare_all {A} (l : list (list string * A)) (undec : list string) : res (list string) :=
  match l with
  | [] => Ok undec
  | (opers, _) :: l => match declare opers undec with Ok undec => declare_all l undec | r => r end
  end.

Fixpoint args_ok (b : ArgsBuilder) : Prop :=
  match b with
  | CDefault _ m | CSkewedSets _ _ _ m | CCreakersAndWavePrefill _ _ m | CSkewedInsert _ _ m => map_ok m
  | CTemporarySkewed b => temporary_ok b
  | CCreakersAndWave _ _ _ _ wave m => as_mutable wave = Some wave ∧ map_ok m
  | CLeafsHandshake _ insert _ m m' => as_mutable insert = Some insert ∧ map_ok m ∧ map_ok m'
  | CGeneralized l =>
      (∃ undec, declare_all l OPER_TYPES = Ok undec) ∧ foldr (λ p P, args_ok p.2 ∧ P) True l
  | CNull => True
  | CRangeQuery i _ m => is_u64 i ∧ map_ok m
  | CMovingWindow a b c _ m => is_u64 a ∧ is_u64 b ∧ is_u64 c ∧ map_ok m
  end.

Definition max_of {A} (f : A → nat) (l : list A) : nat := foldr (λ a n, Nat.max (f a) n) 0%nat l.

Lemma max_of_elem {A} (f : A → nat) l a : a ∈ l → (f a ≤ max_of f l)%nat.
Proof. induction 1 as [a l|a b l _ IH]; simpl; lia. Qed.

Fixpoint args_depth (b : ArgsBuilder) : nat :=
  S match b with
    | CDefault d _ | CSkewedInsert d _ _ | CRangeQuery _ d _ => dist_depth d
    | CSkewedSets r w _ _ => Nat.max (skewed_depth r) (skewed_depth w)
    | CTemporarySkewed b =>
        Nat.max (dist_depth (tc_relax_dist_builder_ b)) (max_of skewed_depth (tc_hot_dist_builders_ b))
    | CCreakersAndWave _ _ _ d d' _ => Nat.max (dist_depth d) (dist_depth d')
    | CLeafsHandshake d d' d'' _ _ => Nat.max (dist_depth d) (Nat.max (dist_depth d') (dist_depth d''))
    | CGeneralized l => foldr (λ p n, Nat.max (args_depth p.2) n) 0%nat l
    | CCreakersAndWavePrefill _ _ _ | CNull | CMovingWindow _ _ _ _ _ => 0%nat
    end.

(** The data maps that reading a builder makes at most. *)
Fixpoint args_news (b : ArgsBuilder) : Z :=
  match b with
  | CLeafsHandshake _ _ _ _ _ => 4
  | CGeneralized l => foldr (λ p n, args_news p.2 + n) 0 l
  | CNull => 0
  | _ => 2
  end.

Lemma args_news_pos : ∀ b, 0 ≤ args_news b.
Proof.
  fix IH 1. intros [d m|r w i m|b|a b c d e m|a b m|a b c m m'|d s m|l| |i d m|a b c d m]; simpl; try lia.
  induction l as [|[o b] l IHl]; simpl; [lia|]. specialize (IH b). lia.
Qed.

(** *** Steps *)

Lemma cspec_dist {B} fuel d (f : DistributionBuilder → conf B) k (l : list (string * J)) st n R :
  distinct l.*1 = true → find_key k l = Some (dist_to_json d) → (dist_depth d ≤ fuel)%nat →
  cspec (f d) st n R →
  cspec ((key k (json_object l) ≫= get_distribution_from_json fuel) ≫= f) st n R.
Proof.
  intros Hl Hk Hd Hf. eapply cspec_key_then; [done..|]. eapply cspec_pure; [by apply dist_roundtrip|done].
Qed.

Lemma cspec_skewed {B} fuel d (f : SkewedBuilder → conf B) k (l : list (string * J)) st n R :
  distinct l.*1 = true → find_key k l = Some (skewed_to_json d) → (skewed_depth d ≤ fuel)%nat →
  cspec (f d) st n R →
  cspec ((key k (json_object l) ≫= get_skewed_from_json fuel) ≫= f) st n R.
Proof.
  intros Hl Hk Hd Hf. eapply cspec_key_then; [done..|]. eapply cspec_pure; [by apply skewed_roundtrip|done].
Qed.

Lemma cspec_mutable {B} fuel d (f : DistributionBuilder → conf B) k (l : list (string * J)) st n R :
  distinct l.*1 = true → find_key k l = Some (dist_to_json d) → (dist_depth d ≤ fuel)%nat →
  as_mutable d = Some d → cspec (f d) st n R →
  cspec ((key k (json_object l) ≫= get_mutable_distribution_from_json fuel) ≫= f) st n R.
Proof.
  intros Hl Hk Hd Hm Hf. eapply cspec_key_then; [done..|]. eapply cspec_pure; [by apply mutable_roundtrip|done].
Qed.

Lemma cspec_data_map {B} m (f : DataMapRef → conf B) k (l : list (string * J)) st n R :
  distinct l.*1 = true → find_key k l = Some (data_map_to_json m) → map_ok m → 0 ≤ n →
  (∀ x st', data_map_builders st' !! dm_id m = Some x → data_map_builders st ⊆ data_map_builders st' →
     cspec (f x) st' n R) →
  cspec ((key k (json_object l) ≫= get_data_map_from_json) ≫= f) st (1 + n) R.
Proof.
  intros Hl Hk Hm Hn Hf. eapply cspec_key_then; [done..|].
  eapply cspec_bind; [done|by apply data_map_spec|]. intros x st' Hsub Hx. by apply Hf.
Qed.

Lemma cspec_values {A B} (as_ : J → option A) (to : A → J) v (f : list A → conf B) k
    (l : list (string * J)) st n R :
  distinct l.*1 = true → find_key k l = Some (json_array (to <$> v)) → Forall (λ a, as_ (to a) = Some a) v →
  cspec (f v) st n R → cspec ((key k (json_object l) ≫= values as_) ≫= f) st n R.
Proof.
  intros Hl Hk Hv Hf. eapply cspec_key_then; [done..|]. eapply cspec_pure; [by apply values_array|done].
Qed.

Lemma cspec_need {A B} (o : option A) a (f : A → conf B) st n R :
  o = Some a → cspec (f a) st n R → cspec (need o ≫= f) st n R.
Proof. intros ->. by apply cspec_pure. Qed.

Create HintDb json.
#[local] Hint Resolve as_bool_bool as_double_double as_string_string as_size_size as_int_int : json.

(** One step of a computation that reads an object. *)
Ltac jstep := first
  [ eapply cspec_member; [done|done|first [by auto with json|apply as_size_size; tauto]|]
  | eapply cspec_values; [done|done|by (eapply Forall_impl; [eassumption|]; by auto with json)|]
  | eapply cspec_values; [done|done|by (apply Forall_true; auto with json)|]
  | eapply cspec_dist; [done|done|lia|]
  | eapply cspec_skewed; [done|done|lia|]
  | eapply cspec_mutable; [done|done|lia|tauto|]
  | eapply cspec_need; [done|]
  | eapply cspec_data_map; [done|done|by tauto|lia|] ]; cbn beta.

Lemma pushed_cons {A} k (to : A → J) l :
  (0 < length l)%nat → pushed k (to <$> l) = [(k, json_array (to <$> l))].
Proof. destruct l; [simpl; lia|done]. Qed.

Lemma mapM_pure {A} (p : J → conf A) (to : A → J) l st :
  Forall (λ a, p (to a) st = Ok (a, st)) l → mapM p (to <$> l) st = Ok (l, st).
Proof.
  induction 1 as [|a l Ha _ IH]; [done|]. cbn [fmap list_fmap mapM].
  erewrite bind_ok by exact Ha. by erewrite bind_ok by exact IH.
Qed.

Lemma hot_dists_pure fuel l st :
  (max_of skewed_depth l ≤ fuel)%nat →
  (mapM (get_skewed_from_json fuel) (items (json_array (skewed_to_json <$> l)))) st = Ok (l, st).
Proof.
  intros Hf. rewrite items_array. apply mapM_pure, Forall_forall. intros b Hb. apply skewed_roundtrip.
  pose proof (max_of_elem skewed_depth l b Hb). lia.
Qed.

Lemma temporary_spec fuel b st :
  temporary_ok b → (dist_depth (tc_relax_dist_builder_ b) ≤ fuel)%nat →
  (max_of skewed_depth (tc_hot_dist_builders_ b) ≤ fuel)%nat →
  cspec (temporary_skewed_from_json fuel (temporary_skewed_to_json b)) st 1
    (λ x ρ, x = {| b with tc_data_map_builder_ := ren ρ (tc_data_map_builder_ b) |} ∧
       known ρ (tc_data_map_builder_ b)).
Proof.
  intros (Hpos & Hn & Hdh & Hdr & H1 & H2 & H3 & Hh & Hr & Hb & Hm) Hrelax Hhot.
  destruct b as [n dh dr dists hot relax manual begins rd m]; cbn in *.
  unfold temporary_skewed_from_json, temporary_skewed_to_json. cbn.
  rewrite !pushed_cons by lia.
  destruct manual; [rewrite pushed_cons by lia|subst begins]; cbn [app].
  all: do 4 jstep; jstep; eapply cspec_need; [apply copy_over_same; by rewrite length_replicate|]; cbn beta;
    jstep; (eapply cspec_need; [apply copy_over_same; by rewrite length_replicate|]); cbn beta iota.
  - apply cspec_assoc. jstep. cbn iota.
    eapply cspec_pure; [by rewrite copy_over_same by by rewrite length_replicate|]. jstep.
    eapply cspec_data_map with (n := 0); [done|done|done|lia|]. intros x st' Hx _.
    eapply cspec_key_then; [done|done|]. cbn beta. eapply cspec_pure; [by apply hot_dists_pure|].
    eapply cspec_need; [apply copy_over_same; by rewrite length_replicate|].
    apply cspec_ret. by destruct (ren_lookup _ _ _ Hx) as [-> ?].
  - eapply cspec_pure; [done|]. jstep.
    eapply cspec_data_map with (n := 0); [done|done|done|lia|]. intros x st' Hx _.
    eapply cspec_key_then; [done|done|]. cbn beta. eapply cspec_pure; [by apply hot_dists_pure|].
    eapply cspec_need; [apply copy_over_same; by rewrite length_replicate|].
    apply cspec_ret. by destruct (ren_lookup _ _ _ Hx) as [-> ?].
Qed.

Lemma temporary_class b st : temporary_ok b →
  member "ClassName" as_string (temporary_skewed_to_json b) st = Ok ("TemporarySkewedArgsGeneratorBuilder", st).
Proof.
  intros (Hpos & _ & _ & _ & H1 & H2 & H3 & _ & _ & Hb & _). unfold temporary_skewed_to_json.
  rewrite !pushed_cons by lia.
  destruct (tc_manual_setting_set_begins_ b); [rewrite pushed_cons by lia|]; cbn [app];
    (eapply member_object; [done|done|apply as_string_string]).
Qed.

Definition item_to_json (p : list string * ArgsBuilder) : J :=
  json_object [("opers", json_array (json_string <$> p.1)); ("argsGeneratorBuilder", args_to_json p.2)].

(** One item of a generalized builder. *)
Lemma item_spec fuel opers b undec undec' bs st :
  declare opers undec = Ok undec' → 
  (∀ st, cspec (get_args_generator_from_json fuel (args_to_json b)) st (args_news b) (named b)) →
  cspec (generalized_item (get_args_generator_from_json fuel) (item_to_json (opers, b)) (undec, bs)) st
    (args_news b) (λ x ρ, ∃ b', x = (undec', bs ++ [(opers, b')]) ∧ named b b' ρ).
Proof.
  intros Hd Hb. unfold generalized_item, item_to_json. rewrite !contains_object by done. cbn [find_key fst snd].
  rewrite !bool_decide_true by done. cbn [negb orb].
  eapply cspec_values; [done|done|by (apply Forall_true; auto with json)|]. cbn beta.
  eapply cspec_key_then; [done|done|]. rewrite <-(Z.add_0_r (args_news b)).
  eapply cspec_bind; [done|apply Hb|]. intros b' st' _ Hb'. cbn beta. cbn [fst]. rewrite Hd.
  apply cspec_ret. by exists b'.
Qed.

(** Names of the items of a generalized builder. *)
Definition named_items (l bs : list (list string * ArgsBuilder)) (ρ : gmap Z DataMapRef) : Prop :=
  Forall2 (λ p q, p.1 = q.1 ∧ named p.2 q.2 ρ) l bs.

Lemma named_items_mono l bs ρ ρ' : ρ ⊆ ρ' → named_items l bs ρ → named_items l bs ρ'.
Proof.
  intros Hsub Hl. eapply Forall2_impl; [exact Hl|]. intros p q [? ?]. split; [done|by eapply named_mono].
Qed.

Lemma items_spec fuel l : ∀ done_ undec undec' bs st,
  declare_all l undec = Ok undec' → named_items done_ bs (data_map_builders st) →
  Forall (λ p, ∀ st, cspec (get_args_generator_from_json fuel (args_to_json p.2)) st (args_news p.2) (named p.2)) l →
  cspec (generalized_items (get_args_generator_from_json fuel) (item_to_json <$> l) (undec, bs)) st
    (foldr (λ p n, args_news p.2 + n) 0 l) (λ x ρ, named_items (done_ ++ l) x.2 ρ).
Proof.
  induction l as [|[opers b] l IH]; intros done_ undec undec' bs st Hd Hbs Hl.
  - apply cspec_ret. by rewrite app_nil_r.
  - cbn [declare_all] in Hd. destruct (declare opers undec) as [undec1| | |] eqn:Hd1; try done.
    apply Forall_cons in Hl as [Hb Hl]. cbn [fmap list_fmap generalized_items foldr snd] in Hb |- *.
    eapply cspec_bind; [|by eapply item_spec|].
    { clear. induction l as [|p l IHl]; simpl; [lia|]. pose proof (args_news_pos p.2). lia. }
    intros x st' Hsub (b' & -> & Hb'). cbn beta.
    eapply cspec_weaken; [eapply (IH (done_ ++ [(opers, b)])); [exact Hd| |done]|lia|].
    + apply Forall2_app; [by eapply named_items_mono|]. constructor; [by split|constructor].
    + intros x ρ Hx. by rewrite <-app_assoc in Hx.
Qed.

Lemma named_items_generalized l bs ρ :
  named_items l bs ρ → named (CGeneralized l) (CGeneralized bs) ρ.
Proof.
  intros Hl. unfold named. cbn [rename maps args_builder_maps rename_args args_maps].
  induction Hl as [|[o b] [o' b'] l bs [Ho [Hb Hk]] _ [IH IHk]]; [done|]. simpl in *. subst o' b'.
  injection IH as ->. split; [done|]. by apply Forall_app.
Qed.

#[local] Ltac unfold_args :=
  unfold default_to_json, skewed_sets_to_json, creakers_to_json, creakers_prefill_to_json, leafs_to_json,
    skewed_insert_to_json, null_to_json, range_query_to_json, moving_window_to_json, generalized_to_json,
    default_from_json, skewed_sets_from_json, creakers_from_json, creakers_prefill_from_json, leafs_from_json,
    skewed_insert_from_json, range_query_from_json, moving_window_from_json,
    dist_key, skewed_key, mutable_key, data_map_key.

(** Reading what a builder of generators has written. *)
Lemma args_spec fuel : ∀ b st,
  (args_depth b ≤ fuel)%nat → args_ok b →
  cspec (get_args_generator_from_json fuel (args_to_json b)) st (args_news b) (named b).
Proof.
  induction fuel as [|fuel IH]; intros b st Hf Hok; [destruct b; simpl in Hf; lia|].
  cbn [get_args_generator_from_json]. cbv zeta. unfold named.
  assert (∀ m x ρ, ρ !! dm_id m = Some x → ren ρ m = x ∧ Forall (known ρ) [m]) as Hone.
  { intros m x ρ Hx. destruct (ren_lookup _ _ _ Hx). split; [done|by repeat constructor]. }
  destruct b as [d m|r w i m|b|a b c d e m|a b m|a b c m m'|d s m|l| |i d m|a b c d m];
    cbn [args_to_json args_news args_depth args_ok] in *; unfold_args;
    (eapply cspec_pure; [first [by apply temporary_class|eapply member_object; [done|done|apply as_string_string]]|]);
    cbn beta; classes.
  all: try (eapply (cspec_new_maps 1 _ _ 1); [lia|lia|]; intros st1 _).
  all: try (repeat jstep; eapply cspec_data_map with (n := 0); [done|done|tauto|lia|]; intros x st' Hx _;
    apply cspec_ret; cbn [rename maps args_builder_maps rename_args args_maps];
    by destruct (Hone _ _ _ Hx) as [-> ?]).
  - rewrite <-(Z.add_0_r 1). eapply cspec_bind; [done|apply temporary_spec; [done|lia..]|].
    intros x st' _ [-> Hk]. apply cspec_ret. split; [done|]. by repeat constructor.
  - eapply (cspec_new_maps 2 _ _ 2); [lia|lia|]. intros st1 _. repeat jstep.
    eapply cspec_data_map with (n := 1); [done|done|tauto|lia|]. intros x st2 Hx _.
    eapply cspec_data_map with (n := 0); [done|done|tauto|lia|]. intros x' st3 Hx' Hsub.
    apply cspec_ret. cbn [rename maps args_builder_maps rename_args args_maps].
    pose proof (lookup_weaken _ _ _ _ Hx Hsub) as Hx3.
    destruct (ren_lookup _ _ _ Hx3) as [-> ?], (ren_lookup _ _ _ Hx') as [-> ?]. by repeat constructor.
  - unfold generalized_from_json. rewrite contains_object by done. cbn iota.
    eapply cspec_key; [done|done|]. cbn beta. rewrite is_array_array, items_array, map_map. cbn [negb].
    change (map _ l) with (item_to_json <$> l).
    destruct Hok as [[undec Hd] Hall]. rewrite <-(Z.add_0_r (foldr _ 0 l)).
    eapply cspec_bind; [done|eapply (items_spec fuel l []); [exact Hd|constructor|]|].
    + clear Hd Hone. revert Hall Hf. induction l as [|[o b] l IHl]; intros Hall Hf; [done|]. simpl in Hall, Hf.
      constructor; [intros st'; apply IH; [simpl; lia|tauto]|apply IHl; [tauto|simpl; lia]].
    + intros x st' _ Hx. apply cspec_ret. by apply named_items_generalized.
  - apply cspec_ret. by split.
Qed.

(** ** Thread loops and parameters *)

Definition loop_ok (b : LoopBuilder) : Prop :=
  args_ok (loop_args b) ∧
  match b with
  | CDefaultLoop _ _ => True
  | CTemporaryLoop n d r _ =>
      0 < n ∧ is_u64 n ∧ length d = Z.to_nat n ∧ length r = Z.to_nat n ∧ Forall is_u64 d
  | CPrefillInsertLoop n _ => is_u64 n
  end.

Definition loop_depth (b : LoopBuilder) : nat := args_depth (loop_args b).
Definition loop_news (b : LoopBuilder) : Z := 1 + args_news (loop_args b).

Lemma ratios_roundtrip p st : ratios_from_json (ratios_to_json p) st = Ok (p, st).
Proof.
  unfold ratios_from_json, ratios_to_json. rewrite contains_object by done.
  do 2 (erewrite bind_ok by (eapply member_object; [done..|apply as_double_double]); cbn beta).
  erewrite bind_ok by (cbn iota; eapply member_object; [done..|apply as_double_double]). by destruct p.
Qed.

Lemma cspec_args {B} fuel b (g : ArgsBuilder → B) k (l : list (string * J)) st (R : B → gmap Z DataMapRef → Prop) :
  distinct l.*1 = true → find_key k l = Some (args_to_json b) → (args_depth b ≤ fuel)%nat → args_ok b →
  (∀ x ρ, named b x ρ → R (g x) ρ) →
  cspec ((key k (json_object l) ≫= get_args_generator_from_json fuel) ≫= λ x, mret (g x)) st (args_news b) R.
Proof.
  intros Hl Hk Hd Hok HR. eapply cspec_key_then; [done..|]. rewrite <-(Z.add_0_r (args_news b)).
  eapply cspec_bind; [done|by apply args_spec|]. intros x st' _ Hx. apply cspec_ret. by apply HR.
Qed.

Lemma named_loop b (f : ArgsBuilder → LoopBuilder) x ρ :
  (∀ a, loop_args (f a) = a) → (∀ g a, with_args g (f a) = f (g a)) → named b x ρ → named (f b) (f x) ρ.
Proof.
  intros H1 H2 [-> Hk]. unfold named. cbn [rename maps loop_maps]. by rewrite H1, H2.
Qed.

Lemma loop_spec fuel b st :
  (loop_depth b ≤ fuel)%nat → loop_ok b →
  cspec (get_thread_loop_from_json fuel (loop_to_json b)) st (loop_news b) (named b).
Proof.
  intros Hf [Hok Hb]. unfold get_thread_loop_from_json, loop_news, loop_depth in *.
  pose proof (args_news_pos (loop_args b)). destruct b as [p a|n d r a|n a]; cbn [loop_to_json loop_args] in *;
    unfold default_loop_to_json, temporary_loop_to_json, prefill_loop_to_json, default_loop_from_json,
      temporary_loop_from_json, prefill_loop_from_json.
  - jstep. classes. apply cspec_new_maps; [lia|lia|]. intros st1 _.
    eapply cspec_pure; [erewrite bind_ok by (eapply key_object; done); apply ratios_roundtrip|].
    apply cspec_args with (b := a); try done. intros x ρ. by apply (named_loop a (CDefaultLoop p)).
  - destruct Hb as (Hpos & Hn & Hd & Hr & Hds). rewrite !pushed_cons by lia. cbn [app].
    jstep. classes. apply cspec_new_maps; [lia|lia|]. intros st1 _. jstep.
    eapply cspec_values; [done|done|by (eapply Forall_impl; [exact Hds|]; auto with json)|].
    rewrite decide_True by done. eapply cspec_need; [done|].
    eapply cspec_pure; [erewrite bind_ok by (eapply key_object; done); rewrite items_array; apply mapM_pure|].
    { apply Forall_true. intros q. apply ratios_roundtrip. }
    eapply cspec_need; [apply copy_over_same; by rewrite length_replicate|].
    apply cspec_args with (b := a); try done. intros x ρ. by apply (named_loop a (CTemporaryLoop n d r)).
  - jstep. classes. apply cspec_new_maps; [lia|lia|]. intros st1 _. rewrite contains_object by done. cbn iota.
    jstep. apply cspec_args with (b := a); try done. intros x ρ. by apply (named_loop a (CPrefillInsertLoop n)).
Qed.

Definition stop_ok (s : Stop) : Prop := match s with CTimer n | COperationCounter n => is_u64 n end.

Lemma stop_roundtrip s st : stop_ok s → get_stop_condition_from_json (stop_to_json s) st = Ok (s, st).
Proof.
  intros Hs. unfold get_stop_condition_from_json. destruct s; cbn [stop_to_json];
    unfold timer_to_json, operation_counter_to_json, timer_from_json, operation_counter_from_json;
    (erewrite bind_ok by (eapply member_object; [done..|apply as_string_string])); cbn beta; classes;
    by erewrite bind_ok by (eapply member_object; [done..|by apply as_size_size]).
Qed.

Definition settings_ok (s : ThreadLoopSettings) : Prop := loop_ok (threadLoopBuilder s) ∧ is_u64 (quantity s).

Lemma settings_spec fuel s st :
  (loop_depth (threadLoopBuilder s) ≤ fuel)%nat → settings_ok s →
  cspec (settings_from_json fuel (settings_to_json s)) st (loop_news (threadLoopBuilder s)) (named s).
Proof.
  intros Hf [Hb Hq]. destruct s as [b q pin]. cbn in *. unfold settings_from_json, settings_to_json. cbn.
  rewrite <-(Z.add_0_r (loop_news b)).
  assert (∀ l, cspec (get_thread_loop_from_json fuel (loop_to_json b) ≫=
      λ b, mret {| threadLoopBuilder := b; quantity := q; pinPattern := pin |}) l (loop_news b + 0)
    (named {| threadLoopBuilder := b; quantity := q; pinPattern := pin |})) as Hend.
  { intros l. eapply cspec_bind; [done|by apply loop_spec|]. intros x st' _ [-> Hk]. by apply cspec_ret. }
  destruct (decide (pin = "")) as [->|Hpin]; cbn [app]; jstep; rewrite contains_object by done; cbn iota.
  - eapply cspec_pure; [done|]. eapply cspec_key_then; [done|done|]. apply Hend.
  - jstep. eapply cspec_key_then; [done|done|]. apply Hend.
Qed.

(** Adding renamed settings gives renamed parameters. *)
Lemma add_named s s' p q p' ρ :
  named s s' ρ → named p q ρ → add_thread_loop_builder s p = Some p' →
  ∃ q', add_thread_loop_builder s' q = Some q' ∧ named p' q' ρ.
Proof.
  intros [-> Hs] [-> Hp] Hadd. unfold add_thread_loop_builder in *.
  cbn [rename settings_maps parameters_maps pinPattern quantity num_threads_ pin_ stopCondition threadLoopBuilders] in *.
  destruct (if decide _ then _ else _) as [pin|]; [|done]. simpl in Hadd |- *. injection Hadd as <-.
  eexists. split; [done|]. split.
  - cbn. f_equal. by rewrite fmap_app.
  - cbn. rewrite fmap_app, concat_app. cbn. rewrite app_nil_r. by apply Forall_app.
Qed.

Fixpoint add_settings (l : list ThreadLoopSettings) (p : Parameters) : option Parameters :=
  match l with
  | [] => Some p
  | s :: l => p ← add_thread_loop_builder s p; add_settings l p
  end.

Definition settings_news (l : list ThreadLoopSettings) : Z :=
  foldr (λ s n, loop_news (threadLoopBuilder s) + n) 0 l.

Lemma settings_news_pos l : 0 ≤ settings_news l.
Proof.
  induction l as [|s l IH]; simpl; [lia|]. unfold loop_news. pose proof (args_news_pos (loop_args (threadLoopBuilder s))). lia.
Qed.

Lemma add_all_spec fuel l : ∀ p p' q st,
  Forall (λ s, (loop_depth (threadLoopBuilder s) ≤ fuel)%nat ∧ settings_ok s) l →
  add_settings l p = Some p' → named p q (data_map_builders st) →
  cspec (add_all fuel (settings_to_json <$> l) q) st (settings_news l) (named p').
Proof.
  induction l as [|s l IH]; intros p p' q st Hl Hadd Hq.
  - injection Hadd as <-. by apply cspec_ret.
  - apply Forall_cons in Hl as [[Hd Hs] Hl]. cbn [add_settings] in Hadd.
    destruct (add_thread_loop_builder s p) as [p1|] eqn:Hp1; [|done]. simpl in Hadd.
    cbn [fmap list_fmap add_all settings_news foldr]. fold (settings_news l).
    eapply cspec_bind; [apply settings_news_pos|by apply settings_spec|]. intros s' st' Hsub Hs'. cbn beta.
    destruct (add_named s s' p q p1 (data_map_builders st')) as (q1 & Hq1 & Hn1); [done|by eapply named_mono|done|].
    eapply cspec_need; [exact Hq1|]. by eapply IH.
Qed.

(** The parameters are the result of [add_thread_loop_builder]. *)
Definition parameters_ok (p : Parameters) : Prop :=
  is_u64 (num_threads_ p) ∧ stop_ok (stopCondition p) ∧ Forall settings_ok (threadLoopBuilders p) ∧
  add_settings (threadLoopBuilders p) (set_stop_condition (stopCondition p) new_parameters) = Some p.

Definition parameters_depth (p : Parameters) : nat :=
  max_of (λ s, loop_depth (threadLoopBuilder s)) (threadLoopBuilders p).

Lemma parameters_spec fuel p st :
  (parameters_depth p ≤ fuel)%nat → parameters_ok p →
  cspec (parameters_from_json fuel (parameters_to_json p)) st (settings_news (threadLoopBuilders p)) (named p).
Proof.
  intros Hf (Hn & Hs & Hl & Hadd). unfold parameters_from_json, parameters_to_json.
  destruct (decide (threadLoopBuilders p = [])) as [Hnil|Hne].
  - rewrite Hnil in *. cbn. eapply cspec_pure.
    { erewrite bind_ok by (eapply key_object; done). by apply stop_roundtrip. }
    cbv zeta. rewrite contains_object by done. cbn iota. injection Hadd as <-. by apply cspec_ret.
  - rewrite pushed_cons by (destruct (threadLoopBuilders p); simpl; [done|lia]). cbn [app]. eapply cspec_pure.
    { erewrite bind_ok by (eapply key_object; done). by apply stop_roundtrip. }
    cbv zeta. rewrite contains_object by done. cbn iota. eapply cspec_key; [done|done|]. cbn beta.
    rewrite items_array. eapply add_all_spec; [|exact Hadd|by split].
    apply Forall_forall. intros s Hin. rewrite Forall_forall in Hl. split; [|by apply Hl].
    pose proof (max_of_elem (λ s, loop_depth (threadLoopBuilder s)) _ s Hin). unfold parameters_depth in Hf. simpl in *. lia.
Qed.

(** ** A whole configuration *)

Definition bench_ok (b : BenchParameters) : Prop :=
  is_u64 (range b) ∧ parameters_ok (test b) ∧ parameters_ok (prefill b) ∧ parameters_ok (warmUp b).

Definition bench_depth (b : BenchParameters) : nat :=
  Nat.max (parameters_depth (test b)) (Nat.max (parameters_depth (prefill b)) (parameters_depth (warmUp b))).

Definition bench_news (b : BenchParameters) : Z :=
  settings_news (threadLoopBuilders (test b)) + (settings_news (threadLoopBuilders (prefill b)) +
    (settings_news (threadLoopBuilders (warmUp b)) + 0)).

Lemma bench_spec fuel b st :
  (bench_depth b ≤ fuel)%nat → bench_ok b →
  cspec (bench_from_json fuel (bench_to_json b)) st (bench_news b) (named b).
Proof.
  intros Hf (Hr & H1 & H2 & H3). unfold bench_depth in Hf. unfold bench_from_json, bench_to_json, bench_news.
  pose proof (settings_news_pos (threadLoopBuilders (warmUp b))).
  pose proof (settings_news_pos (threadLoopBuilders (prefill b))). jstep.
  eapply cspec_key_then; [done|done|]. eapply cspec_bind; [lia|apply parameters_spec; [lia|done]|].
  intros x1 st1 _ Hx1. eapply cspec_key_then; [done|done|].
  eapply cspec_bind; [lia|apply parameters_spec; [lia|done]|].
  intros x2 st2 Hsub2 Hx2. eapply cspec_key_then; [done|done|].
  eapply cspec_bind; [lia|apply parameters_spec; [lia|done]|].
  intros x3 st3 Hsub3 [-> Hk3]. apply cspec_ret.
  destruct (named_mono _ _ _ _ Hsub3 Hx2) as [-> Hk2].
  destruct (named_mono _ _ _ _ Hsub3 (named_mono _ _ _ _ Hsub2 Hx1)) as [-> Hk1].
  split; [done|]. cbn [maps bench_maps]. by rewrite !Forall_app.
Qed.

(** The maps of a good configuration have the class of their id. *)
Lemma args_ok_maps : ∀ b m, args_ok b → m ∈ maps b → map_ok m.
Proof.
  cbn [maps args_builder_maps].
  fix IH 1. intros [d m|r w i m|b|a b c d e m|a b m|a b c m m'|d s m|l| |i d m|a b c d m] m0 Hok Hm;
    cbn [args_maps args_ok] in *; try (apply list_elem_of_singleton in Hm as ->; tauto).
  - apply list_elem_of_singleton in Hm as ->. apply Hok.
  - apply elem_of_cons in Hm as [->|Hm]; [tauto|]. apply list_elem_of_singleton in Hm as ->. tauto.
  - destruct Hok as [_ Hok]. induction l as [|[o b] l IHl]; simpl in *; [by apply elem_of_nil in Hm|].
    destruct Hok as [Hb Hok]. apply elem_of_app in Hm as [Hm|Hm]; [exact (IH b m0 Hb Hm)|exact (IHl Hok Hm)].
  - by apply elem_of_nil in Hm.
Qed.

Lemma parameters_ok_maps p m : parameters_ok p → m ∈ maps p → map_ok m.
Proof.
  intros (_ & _ & Hl & _) Hm. cbn [maps parameters_maps list_maps] in Hm.
  apply list_elem_of_In, in_concat in Hm as (ms & Hms & Hm).
  apply list_elem_of_In, list_elem_of_fmap in Hms as (s & -> & Hs). apply list_elem_of_In in Hm.
  rewrite Forall_forall in Hl. destruct (Hl s Hs) as [[Hok _] _]. by eapply args_ok_maps.
Qed.

Lemma bench_ok_maps b m : bench_ok b → m ∈ maps b → map_ok m.
Proof.
  intros (_ & H1 & H2 & H3) Hm. cbn [maps bench_maps] in Hm. rewrite !elem_of_app in Hm.
  destruct Hm as [Hm|[Hm|Hm]]; [exact (parameters_ok_maps _ _ H1 Hm)|exact (parameters_ok_maps _ _ H2 Hm)
    |exact (parameters_ok_maps _ _ H3 Hm)].
Qed.

End Laws.

(** ** Properties *)

(** C38. The parameters of a run survive JSON: what [to_json] writes for a well-formed
    configuration is read back as the same configuration, with the number of threads
    and the pins computed again. Only the data maps are new objects: two builders
    share one afterwards exactly if they shared one before, and it has the same class.
    The configuration may use every class of builders, distributions, thread loops and
    stop conditions. Well-formed ([bench_ok]) means: every integer member is in the
    range of its C++ type; a data map has an id below [2^63] that is its own; the
    number of threads and the pins are those that [add_thread_loop_builder] computes,
    so every pin pattern parses; the wave and the inserts of leafs handshake have
    distributions whose range can be set; a generalized builder declares known
    operations, each once; a temporary loop has at least one stage, with a duration
    and ratios for each; and a temporary skewed builder has at least one set, with a
    distribution and two times for each (and a begin, if they are set by hand). The
    last one is needed: without sets, as by default, what that builder writes cannot be
    read ([temporary_without_sets]). The fuel is the nesting of the configuration, and
    the counter of ids must not wrap around. *)
Theorem bench_parameters_roundtrip {J : Type} `{JsonLib J} class_of fuel b counter :
  bench_ok class_of b → (bench_depth b ≤ fuel)%nat → 0 ≤ counter ≤ 2 ^ 63 → bench_news b < 2 ^ 63 →
  ∃ (ρ : DataMapRef → DataMapRef) st,
    bench_from_json fuel (bench_to_json (J := J) b) {| id_counter := counter; data_map_builders := ∅ |} =
      Ok (rename ρ b, st) ∧
    (∀ m m', m ∈ maps b → m' ∈ maps b → ρ m = ρ m' → m = m') ∧
    (∀ m, m ∈ maps b → dm_class (ρ m) = dm_class m).
Proof.
  intros Hok Hf Hc Hn. set (st0 := {| id_counter := counter; data_map_builders := ∅ |}).
  assert (names_ok class_of st0) as Hst0.
  { split; [simpl; lia|]. split; [intros i m Hm|intros i i' m m' Hm]; by destruct (lookup_empty_Some i m Hm). }
  destruct (bench_spec class_of fuel b st0 Hf Hok Hst0) as (x & st & Hp & (_ & Hreg & Hinj) & _ & _ & -> & Hk).
  { unfold level, st0. cbn [id_counter]. rewrite modulus64_val. lia. }
  exists (ren (data_map_builders st)), st. split; [done|].
  assert (∀ m, m ∈ maps b → ∃ x, data_map_builders st !! dm_id m = Some x ∧ ren (data_map_builders st) m = x ∧
    dm_class m = class_of (dm_id m)) as Hlook.
  { intros m Hm. rewrite Forall_forall in Hk. destruct (Hk m Hm) as [x Hx]. exists x.
    destruct (ren_lookup _ _ _ Hx). split; [done|]. split; [done|]. by destruct (bench_ok_maps class_of b m Hok Hm). }
  split.
  - intros m m' Hm Hm' Heq. destruct (Hlook m Hm) as (x & Hx & Hr & Hcl), (Hlook m' Hm') as (x' & Hx' & Hr' & Hcl').
    assert (dm_id m = dm_id m') as Hid by (eapply Hinj; [done|done|congruence]).
    destruct m, m'. simpl in *. by subst.
  - intros m Hm. destruct (Hlook m Hm) as (x & Hx & -> & ->). by destruct (Hreg _ _ Hx) as [-> _].
Qed.

(** A builder of temporary skews without sets writes no list of hot times, and what it
    writes cannot be read. *)
Lemma temporary_without_sets {J : Type} `{JsonLib J} fuel b st :
  tc_hot_times_ b = [] → tc_hot_dist_builders_ b = [] → tc_relax_times_ b = [] → tc_set_begins_ b = [] →
  is_s64 (tc_default_hot_time_ b) → is_s64 (tc_default_relax_time_ b) → is_u64 (tc_set_number_ b) →
  temporary_skewed_from_json fuel (temporary_skewed_to_json (J := J) b) st = Undefined.
Proof.
  intros H1 H2 H3 H4 Hh Hr Hn. unfold temporary_skewed_from_json, temporary_skewed_to_json. rewrite H1, H2, H3, H4.
  destruct (tc_manual_setting_set_begins_ b); cbn [fmap list_fmap pushed app].
  all: erewrite bind_ok by (eapply member_object; [done..|apply as_bool_bool]);
    do 2 (erewrite bind_ok by (eapply member_object; [done..|by apply as_int_int]));
    (erewrite bind_ok by (eapply member_object; [done..|by apply as_size_size]));
    unfold key, mbind, conf_bind; by rewrite at_key_object by by apply distinct_NoDup.
Qed.

(** *** An example: the threads of the test share a data map with the prefill *)

Definition example_map : DataMapRef := {| dm_id := 7; dm_class := ArrayDataMapClass |}.

Definition example_skewed : SkewedBuilder :=
  {| sk_hotSize := d_lit 1 2; sk_hotRatio := d_lit 9 10; sk_hotDistBuilder := UniformDistributionBuilder;
     sk_coldDistBuilder := ZipfianDistributionBuilder d_one |}.

Definition example_loops : list ThreadLoopSettings :=
  [ {| threadLoopBuilder := CDefaultLoop {| INS_RATIO := d_lit 1 10; REM_RATIO := d_zero; RQ_RATIO := d_zero |}
         (CGeneralized
            [(["insert"; "remove"], CSkewedSets example_skewed example_skewed d_zero example_map);
             (["rangeQuery"], CMovingWindow 100 9 5 [d_zero; d_one] {| dm_id := 3; dm_class := IdDataMapClass |})]);
       quantity := 3; pinPattern := "0-1,5" |};
    {| threadLoopBuilder := CTemporaryLoop 1 [10] [{| INS_RATIO := d_zero; REM_RATIO := d_zero; RQ_RATIO := d_one |}] CNull;
       quantity := 1; pinPattern := "" |} ].

Definition example_test : Parameters :=
  {| num_threads_ := 4; pin_ := [0; 1; 5; -1]; stopCondition := CTimer 1000; threadLoopBuilders := example_loops |}.

Definition example_prefill : Parameters :=
  {| num_threads_ := 1; pin_ := [-1]; stopCondition := COperationCounter 512;
     threadLoopBuilders := [{| threadLoopBuilder := CPrefillInsertLoop 100 (CDefault UniformDistributionBuilder example_map);
                               quantity := 1; pinPattern := "" |}] |}.

Definition example_bench : BenchParameters :=
  {| range := 1024; test := example_test; prefill := example_prefill; warmUp := new_parameters |}.

Lemma bench_parameters_roundtrip_witness :
  bench_ok (λ i, if i =? 7 then ArrayDataMapClass else IdDataMapClass) example_bench ∧
  ∃ (ρ : DataMapRef → DataMapRef) st,
    bench_from_json 10 (bench_to_json (J := json) example_bench) {| id_counter := 2; data_map_builders := ∅ |} =
      Ok (rename ρ example_bench, st) ∧ dm_class (ρ example_map) = ArrayDataMapClass.
Proof.
  set (class_of := λ i, if i =? 7 then ArrayDataMapClass else IdDataMapClass).
  assert (bench_ok class_of example_bench) as Hok.
  { repeat split; try done; repeat constructor; try done. by eexists. }
  split; [exact Hok|].
  destruct (bench_parameters_roundtrip (J := json) class_of 10 example_bench 2 Hok) as (ρ & st & Hr & _ & Hc);
    [by vm_compute; lia|lia|by vm_compute|].
  exists ρ, st. split; [exact Hr|]. apply Hc. by left.
Defined.
