(* ===== verification/SharedArgs.v ===== *)
(** Generators of arguments that share state between threads, and the one that is put
    together from others ([Benchmark-v700/cpp/microbench/workloads/args_generators]:
    [creakers_and_wave_args_generator.h], [leafs_handshake_args_generator.h],
    [generalized_args_generator.h] and their builders).

    The first two read and change atomics that all threads have. A generator is the
    object of one thread; the values that its loads return are an input, and its
    loads and [compare_exchange_weak]s are recorded. [SharedLaws] puts the records of
    all threads together. *)
From Stdlib Require Import Ascii String.
From S2P Require Import Double Fraction Rng Distributions Args ArgsLaws Json Config Prelude.

#[local] Open Scope string_scope.
#[local] Open Scope list_scope.
#[local] Open Scope Z_scope.

(** ** Atomics *)

(** The atomics of the two builders. *)
Inductive atomic := wave_begin_ | wave_end_ | deleted_value_.

#[export] Instance atomic_eq_dec : EqDecision atomic.
Proof. solve_decision. Defined.

(** What a thread does with them. [compare_exchange_weak] stores the new value if it
    finds the expected one, or fails; the code does not look at the result. *)
Inductive access :=
  | Load (a : atomic) (v : Z)
  | Cas (a : atomic) (expected new : Z).

(** The values of the loads to come, and what was done. *)
Record Atomics := { at_values : nat → Z; at_next : nat; at_trace : list access }.

Definition new_atomics (loads : nat → Z) : Atomics := {| at_values := loads; at_next := 0; at_trace := [] |}.

Definition atomic_load (l : atomic) (a : Atomics) : Z * Atomics :=
  let v := at_values a (at_next a) in
  (v, {| at_values := at_values a; at_next := S (at_next a); at_trace := at_trace a ++ [Load l v] |}).

Definition atomic_cas (l : atomic) (expected new : Z) (a : Atomics) : Atomics :=
  {| a with at_trace := at_trace a ++ [Cas l expected new] |}.

(** ** Creakers and wave *)

Record CreakersAndWaveArgsGenerator := {
  cw_creakers_ratio_ : double;
  cw_creakers_begin_ : Z;
  cw_creakers_dist_ : Distribution;
  cw_wave_dist_ : Distribution;
  cw_data_map_ : DataMap;
  cw_atomics : Atomics
}.

Section Generators.
  Variables (fuel : nat) (log exp : double → double) (pow : double → double → double).

  #[local] Abbreviation dist_next := (dist_next fuel exp pow).
  #[local] Abbreviation set_range := (set_range log pow).

Definition cw_load (l : atomic) : prog CreakersAndWaveArgsGenerator Z :=
  g ← get_gen;
  let '(v, a) := atomic_load l (cw_atomics g) in
  _ ← put_gen {| g with cw_atomics := a |}; mret v.

Definition cw_cas (l : atomic) (expected new : Z) : prog CreakersAndWaveArgsGenerator () :=
  g ← get_gen; put_gen {| g with cw_atomics := atomic_cas l expected new (cw_atomics g) |}.

(** [wave_dist_->next(range)] *)
Definition wave_next (range : Z) : prog CreakersAndWaveArgsGenerator Z :=
  g ← get_gen;
  let d := set_range range (cw_wave_dist_ g) in
  _ ← put_gen {| g with cw_wave_dist_ := d |}; dist_next d.

Definition next_coin : prog CreakersAndWaveArgsGenerator bool :=
  z ← next_unit fuel; g ← get_gen; mret (z <?ᵈ cw_creakers_ratio_ g).

Definition get_creaker : prog CreakersAndWaveArgsGenerator Z :=
  g ← get_gen; v ← dist_next (cw_creakers_dist_ g); dm_get (cw_data_map_ g) (cw_creakers_begin_ g +₆₄ v).

Definition get_wave : prog CreakersAndWaveArgsGenerator Z :=
  local_wave_begin ← cw_load wave_begin_;
  local_wave_end ← cw_load wave_end_;
  g ← get_gen;
  let creakers_begin := cw_creakers_begin_ g in
  index ←
    (if local_wave_end <? local_wave_begin then
       let local_wave_length := local_wave_end +₆₄ creakers_begin -₆₄ local_wave_begin in
       v ← wave_next local_wave_length;
       let index := local_wave_begin +₆₄ v in
       mret (if creakers_begin <=? index then index -₆₄ creakers_begin else index)
     else
       let local_wave_length := local_wave_end -₆₄ local_wave_begin in
       v ← wave_next local_wave_length;
       mret (local_wave_begin +₆₄ v));
  dm_get (cw_data_map_ g) index.

Definition wave_shift (wave_edge : atomic) : prog CreakersAndWaveArgsGenerator Z :=
  local_wave_edge ← cw_load wave_edge;
  g ← get_gen;
  let new_wave_edge :=
    if local_wave_edge =? 0 then cw_creakers_begin_ g -₆₄ 1 else local_wave_edge -₆₄ 1 in
  _ ← cw_cas wave_edge local_wave_edge new_wave_edge;
  dm_get (cw_data_map_ g) new_wave_edge.

#[export] Instance creakers_args : ArgsGenerator CreakersAndWaveArgsGenerator := {|
  next_get := coin ← next_coin; if coin : bool then get_creaker else get_wave;
  next_insert := wave_shift wave_begin_;
  next_remove := wave_shift wave_end_;
  next_range :=
    coin ← next_coin;
    let next := if coin : bool then get_creaker else get_wave in
    left ← next; right ← next; mret (ordered left right)
|}.

(** ** Leafs handshake *)

Record LeafsHandshakeArgsGenerator := {
  lh_range_ : Z;
  lh_read_distribution_ : Distribution;
  lh_insert_distribution_ : Distribution;
  lh_remove_distribution_ : Distribution;
  lh_read_data_ : DataMap;
  lh_remove_data_ : DataMap;
  lh_atomics : Atomics
}.

Definition lh_load : prog LeafsHandshakeArgsGenerator Z :=
  g ← get_gen;
  let '(v, a) := atomic_load deleted_value_ (lh_atomics g) in
  _ ← put_gen {| g with lh_atomics := a |}; mret v.

Definition lh_insert_next (range : Z) : prog LeafsHandshakeArgsGenerator Z :=
  g ← get_gen;
  let d := set_range range (lh_insert_distribution_ g) in
  _ ← put_gen {| g with lh_insert_distribution_ := d |}; dist_next d.

Definition leafs_insert : prog LeafsHandshakeArgsGenerator Z :=
  local_deleted_value ← lh_load;
  r ← rng_next;
  g ← get_gen;
  let is_right := d_lit 1 2 <=?ᵈ unit_of r in
  if (local_deleted_value =? 1) || (is_right && negb (local_deleted_value =? lh_range_ g)) then
    v ← lh_insert_next (lh_range_ g -₆₄ local_deleted_value);
    mret (s64 (local_deleted_value +₆₄ v +₆₄ 1))
  else
    v ← lh_insert_next (local_deleted_value -₆₄ 1);
    mret (s64 (local_deleted_value -₆₄ v -₆₄ 1)).

Definition leafs_remove : prog LeafsHandshakeArgsGenerator Z :=
  local_deleted_value ← lh_load;
  g ← get_gen;
  index ← dist_next (lh_remove_distribution_ g);
  value ← dm_get (lh_remove_data_ g) index;
  _ ← put_gen {| g with lh_atomics := atomic_cas deleted_value_ local_deleted_value (u64 value) (lh_atomics g) |};
  mret value.

#[export] Instance leafs_args : ArgsGenerator LeafsHandshakeArgsGenerator := {|
  next_get := g ← get_gen; index ← dist_next (lh_read_distribution_ g); dm_get (lh_read_data_ g) index;
  next_insert := leafs_insert;
  next_remove := leafs_remove;
  next_range := setbench_error
|}.

End Generators.

(** ** Generalized *)

(** [std::shared_ptr]s to generators: positions in the list of the objects; a null
    pointer is none. *)
Record GeneralizedArgsGenerator (G : Type) := {
  ga_generators : list G;
  ga_get : option nat;
  ga_insert : option nat;
  ga_remove : option nat;
  ga_range : option nat
}.
Arguments ga_generators {G}. Arguments ga_get {G}. Arguments ga_insert {G}. Arguments ga_remove {G}.
Arguments ga_range {G}.

(** A method of an object [g] of a part of the state; [up] puts the object back. *)
Definition at_object {G G' A} (g : G) (up : G → G') (m : prog G A) : prog G' A := λ st,
  match m (g, st.2) with
  | Ok (a, (g', r)) => Ok (a, (up g', r))
  | SetbenchError => SetbenchError
  | Undefined => Undefined
  | OutOfFuel => OutOfFuel
  end.

(** A virtual call, to an object of one of two classes. *)
Definition virtual {G1 G2 A} (m1 : prog G1 A) (m2 : prog G2 A) : prog (G1 + G2) A := λ st,
  match st.1 with inl g => at_object g inl m1 st | inr g => at_object g inr m2 st end.

#[export] Instance virtual_args {G1 G2} `{ArgsGenerator G1, ArgsGenerator G2} : ArgsGenerator (G1 + G2) := {|
  next_get := virtual next_get next_get;
  next_insert := virtual next_insert next_insert;
  next_remove := virtual next_remove next_remove;
  next_range := virtual next_range next_range
|}.

Section Generalized.
  Context {G : Type} `{AG : ArgsGenerator G}.

Definition set_generators (gs : list G) (g : GeneralizedArgsGenerator G) : GeneralizedArgsGenerator G :=
  {| ga_generators := gs; ga_get := ga_get g; ga_insert := ga_insert g; ga_remove := ga_remove g;
     ga_range := ga_range g |}.

(** A method of the object behind a pointer. *)
Definition on_generator {A} (p : option nat) (m : prog G A) : prog (GeneralizedArgsGenerator G) A := λ st,
  match p with
  | None => Undefined
  | Some i =>
      match ga_generators st.1 !! i with
      | None => Undefined
      | Some g => at_object g (λ g', set_generators (<[i := g']> (ga_generators st.1)) st.1) m st
      end
  end.

#[export] Instance generalized_args : ArgsGenerator (GeneralizedArgsGenerator G) := {|
  next_get := g ← get_gen; on_generator (ga_get g) next_get;
  next_insert := g ← get_gen; on_generator (ga_insert g) next_insert;
  next_remove := g ← get_gen; on_generator (ga_remove g) next_remove;
  next_range := g ← get_gen; on_generator (ga_range g) next_range
|}.

End Generalized.

(** The builder over builders of a type [B]. *)
Record GeneralizedArgsGeneratorBuilder (B : Type) := {
  args_generator_builders_ : list (list string * B);
  undec_oper_types_ : list string
}.
Arguments args_generator_builders_ {B}. Arguments undec_oper_types_ {B}.

Section GeneralizedBuilder.
  Context {B G : Type}.
  (** [NullArgsGeneratorBuilder], and the virtual [init] and [build]. *)
  Variables (null : B) (init : Z → B → option B) (build : B → option G).

Definition new_generalized : GeneralizedArgsGeneratorBuilder B :=
  {| args_generator_builders_ := []; undec_oper_types_ := OPER_TYPES |}.

Definition add_args_generator_builder (opers : list string) (b : B) (g : GeneralizedArgsGeneratorBuilder B) :
    res (GeneralizedArgsGeneratorBuilder B) :=
  match declare opers (undec_oper_types_ g) with
  | Ok undec =>
      Ok {| args_generator_builders_ := args_generator_builders_ g ++ [(opers, b)]; undec_oper_types_ := undec |}
  | SetbenchError => SetbenchError
  | Undefined => Undefined
  | OutOfFuel => OutOfFuel
  end.

Definition generalized_init (range : Z) (g : GeneralizedArgsGeneratorBuilder B) :
    res (GeneralizedArgsGeneratorBuilder B) :=
  match (if decide (undec_oper_types_ g = []) then Ok g
         else add_args_generator_builder (undec_oper_types_ g) null g) with
  | Ok g =>
      match mapM (λ p : list string * B, b ← init range p.2; Some (p.1, b)) (args_generator_builders_ g) with
      | Some l => Ok {| args_generator_builders_ := l; undec_oper_types_ := undec_oper_types_ g |}
      | None => Undefined
      end
  | r => r
  end.

(** [built]: for every operation the first object that was inserted for it. *)
Definition built (l : list (list string)) (oper_type : string) : option nat :=
  fst <$> list_find (λ opers, oper_type ∈ opers) l.

Definition generalized_build (g : GeneralizedArgsGeneratorBuilder B) : option (GeneralizedArgsGenerator G) :=
  gens ← mapM (λ p, build p.2) (args_generator_builders_ g);
  let of_oper := built (args_generator_builders_ g).*1 in
  Some {| ga_generators := gens; ga_get := of_oper "get"; ga_insert := of_oper "insert";
          ga_remove := of_oper "remove"; ga_range := of_oper "rangeQuery" |}.

End GeneralizedBuilder.

(** *** Builders of the two shared generators *)

Record CreakersAndWaveArgsGeneratorBuilder := {
  cb_creakers_length_ : Z;
  cb_creakers_begin_ : Z;
  cb_start_wave_length_ : Z;
  (** The initial values of [*wave_begin_] and [*wave_end_]. *)
  cb_wave_begin_ : Z;
  cb_wave_end_ : Z;
  cb_creakers_size_ : double;
  cb_creakers_ratio_ : double;
  cb_wave_size_ : double;
  cb_creakers_dist_builder_ : DistributionBuilder;
  cb_wave_dist_builder_ : DistributionBuilder;
  cb_data_map_builder_ : DataMapBuilder
}.

Record LeafsHandshakeArgsGeneratorBuilder := {
  hb_range_ : Z;
  hb_read_dist_builder_ : DistributionBuilder;
  hb_insert_dist_builder_ : DistributionBuilder;
  hb_remove_dist_builder_ : DistributionBuilder;
  hb_read_data_map_builder_ : DataMapBuilder;
  hb_remove_data_map_builder_ : DataMapBuilder;
  (** The initial value of [*deleted_value_]. *)
  hb_deleted_value_ : Z
}.

Definition creakers_init (range : Z) (b : CreakersAndWaveArgsGeneratorBuilder) :
    option CreakersAndWaveArgsGeneratorBuilder :=
  creakers_length ← scale range (cb_creakers_size_ b);
  let creakers_begin := range -₆₄ creakers_length in
  start_wave_length ← scale range (cb_wave_size_ b);
  Some {| b with cb_creakers_length_ := creakers_length; cb_creakers_begin_ := creakers_begin;
                 cb_start_wave_length_ := start_wave_length; cb_wave_end_ := creakers_begin;
                 cb_wave_begin_ := creakers_begin -₆₄ start_wave_length |}.

Definition leafs_init (range : Z) (b : LeafsHandshakeArgsGeneratorBuilder) : LeafsHandshakeArgsGeneratorBuilder :=
  {| b with hb_range_ := range; hb_deleted_value_ := range / 2 |}.

Section SharedBuilders.
  Variables (log : double → double) (pow : double → double → double).
  Variables (fresh_last_range : Z) (fresh_area : double).

  #[local] Abbreviation build_dist := (build_dist log pow fresh_last_range fresh_area).

(** What the loads of the thread will return is given with the object. *)
Definition creakers_build (loads : nat → Z) (b : CreakersAndWaveArgsGeneratorBuilder) :
    option CreakersAndWaveArgsGenerator :=
  creakers_dist ← build_dist (cb_creakers_dist_builder_ b) (cb_creakers_length_ b);
  wave_dist ← build_dist (cb_wave_dist_builder_ b) 0;
  Some {| cw_creakers_ratio_ := cb_creakers_ratio_ b; cw_creakers_begin_ := cb_creakers_begin_ b;
          cw_creakers_dist_ := creakers_dist; cw_wave_dist_ := wave_dist;
          cw_data_map_ := dm_build (cb_data_map_builder_ b);
          cw_atomics := new_atomics loads |}.

Definition leafs_build (loads : nat → Z) (b : LeafsHandshakeArgsGeneratorBuilder) :
    option LeafsHandshakeArgsGenerator :=
  read ← build_dist (hb_read_dist_builder_ b) (hb_range_ b);
  insert ← build_dist (hb_insert_dist_builder_ b) 0;
  remove ← build_dist (hb_remove_dist_builder_ b) (hb_range_ b);
  Some {| lh_range_ := hb_range_ b; lh_read_distribution_ := read; lh_insert_distribution_ := insert;
          lh_remove_distribution_ := remove; lh_read_data_ := dm_build (hb_read_data_map_builder_ b);
          lh_remove_data_ := dm_build (hb_remove_data_map_builder_ b);
          lh_atomics := new_atomics loads |}.

End SharedBuilders.
