(* ===== verification/SharedLaws.v ===== *)
(** What the generators with shared state promise, and the generator of generators.

    A generator that loads good values from its atomics stores good values and returns
    keys of the range. [history_good] discharges the condition: in a history of any
    number of threads, where every load returns the initial value or a value stored
    before, all loads are good. Leafs handshake is an instance of [ArgsGeneratorOk].
    Creakers and wave is not, because a query of an empty wave takes a remainder of 0;
    [creakers_run_ok] is for the runs whose queries find a wave. [generalized_args_ok]
    lifts the class from the generators to the one that dispatches to them. *)
From Stdlib Require Import Ascii String.
From S2P Require Import Double Fraction Rng Distributions Args ArgsLaws Json Config SharedArgs Prelude.

#[local] Open Scope string_scope.
#[local] Open Scope list_scope.
#[local] Open Scope Z_scope.

(** ** Histories *)

(** The accesses of all threads in order, with the thread that made each. *)
Definition of_thread (t : nat) (h : list (nat * access)) : list access :=
  omap (λ p : nat * access, if decide (p.1 = t) then Some p.2 else None) h.

(** A load returns the initial value or a value stored before. *)
Definition coherent (init : atomic → Z) (h : list (nat * access)) : Prop :=
  ∀ h1 t l v h2, h = h1 ++ (t, Load l v) :: h2 →
    v = init l ∨ ∃ t' e, (t', Cas l e v) ∈ h1.

(** All values that a thread stores are good if those that it loaded before are. *)
Definition justified (P : Z → Prop) (tr : list access) : Prop :=
  ∀ tr1 l e v tr2, tr = tr1 ++ Cas l e v :: tr2 → (∀ l' w, Load l' w ∈ tr1 → P w) → P v.

Definition access_value (a : access) : Z := match a with Load _ v => v | Cas _ _ v => v end.

Lemma of_thread_app t h1 h2 : of_thread t (h1 ++ h2) = of_thread t h1 ++ of_thread t h2.
Proof. apply omap_app. Qed.

Lemma elem_of_thread t a h : a ∈ of_thread t h ↔ (t, a) ∈ h.
Proof.
  unfold of_thread. rewrite list_elem_of_omap. split.
  - intros ([t' a'] & Hin & Ha). simpl in Ha. destruct (decide (t' = t)); naive_solver.
  - intros Hin. exists (t, a). split; [done|]. simpl. by destruct (decide (t = t)).
Qed.

(** All values of a history are good. *)
Lemma history_good (P : Z → Prop) init h :
  (∀ l, P (init l)) → coherent init h → (∀ t, justified P (of_thread t h)) →
  Forall (λ p, P (access_value p.2)) h.
Proof.
  intros Hinit. induction h as [|[t a] h IH] using rev_ind; intros Hcoh Hjust; [constructor|].
  assert (Forall (λ p, P (access_value p.2)) h) as Hh.
  { apply IH.
    - intros h1 t' l v h2 ->. apply (Hcoh h1 t' l v (h2 ++ [(t, a)])). by rewrite <-app_assoc.
    - intros t' tr1 l e v tr2 Htr. apply (Hjust t' tr1 l e v (tr2 ++ of_thread t' [(t, a)])).
      by rewrite of_thread_app, Htr, <-app_assoc. }
  apply Forall_app. split; [done|]. apply Forall_singleton. rewrite Forall_forall in Hh.
  destruct a as [k v|k e v]; simpl.
  - destruct (Hcoh h t k v [] eq_refl) as [->|(t' & e & Hin)]; [done|]. by apply (Hh (t', Cas k e v)).
  - apply (Hjust t (of_thread t h) k e v []).
    + rewrite of_thread_app. simpl. by destruct (decide (t = t)).
    + intros l' w Hw. apply elem_of_thread in Hw. by apply (Hh (t, Load l' w)).
Qed.

Lemma justified_nil P : justified P [].
Proof. intros [|a tr1] l e v tr2 Htr; discriminate Htr. Qed.

Lemma justified_app P tr tr' : justified P tr → justified P tr' → justified P (tr ++ tr').
Proof.
  intros H1 H2 tr1 l e v tr2 Heq Hloads.
  apply app_eq_inv in Heq as [(k & -> & Hk)|(k & -> & Hk)].
  - destruct k as [|a k]; simpl in Hk.
    + apply (H2 [] l e v tr2); [by rewrite <-Hk|].
      intros l' w Hw. by apply elem_of_nil in Hw.
    + injection Hk as <- ->. by apply (H1 tr1 l e v k).
  - apply (H2 k l e v tr2); [done|]. intros l' w Hw. eapply Hloads, elem_of_app. by right.
Qed.

(** ** Records of the computations *)

Section Records.
  Context {G : Type} (trace : G → list access) (P : Z → Prop) (I : G → Prop).

(** The computation does not change the object. *)
Definition keeps {A} (m : prog G A) : Prop := ∀ st a st', m st = Ok (a, st') → st'.1 = st.1.

(** What it adds to the record is justified, as long as [I] holds, which stays so. *)
Definition records {A} (m : prog G A) : Prop :=
  ∀ st a st', I st.1 → m st = Ok (a, st') →
    I st'.1 ∧ ∃ tr, trace st'.1 = trace st.1 ++ tr ∧ justified P tr.

Lemma keeps_records {A} (m : prog G A) : keeps m → records m.
Proof.
  intros Hm st a st' HI H. rewrite (Hm _ _ _ H). split; [done|]. exists [].
  rewrite app_nil_r. split; [done|apply justified_nil].
Qed.

Lemma prog_bind_Ok {A B} (m : prog G A) (f : A → prog G B) st b st' :
  (m ≫= f) st = Ok (b, st') → ∃ a st1, m st = Ok (a, st1) ∧ f a st1 = Ok (b, st').
Proof. unfold mbind, prog_bind. destruct (m st) as [[a st1]| | |]; try done. eauto. Qed.

Lemma keeps_bind {A B} (m : prog G A) (f : A → prog G B) : keeps m → (∀ a, keeps (f a)) → keeps (m ≫= f).
Proof. intros Hm Hf st b st' H. apply prog_bind_Ok in H as (a & st1 & H1 & H2).
  by rewrite (Hf _ _ _ _ H2), (Hm _ _ _ H1). Qed.

Lemma records_bind {A B} (m : prog G A) (f : A → prog G B) :
  records m → (∀ a, records (f a)) → records (m ≫= f).
Proof.
  intros Hm Hf st b st' HI H. apply prog_bind_Ok in H as (a & st1 & H1 & H2).
  destruct (Hm _ _ _ HI H1) as (HI1 & tr1 & E1 & J1). destruct (Hf _ _ _ _ HI1 H2) as (HI2 & tr2 & E2 & J2).
  split; [done|]. exists (tr1 ++ tr2). rewrite E2, E1, app_assoc. split; [done|by apply justified_app].
Qed.

Lemma keeps_ret {A} (a : A) : keeps (mret a).
Proof. intros st a' st' H. by injection H as _ <-. Qed.

Lemma keeps_get : keeps get_gen.
Proof. intros st a' st' H. by injection H as _ <-. Qed.

Lemma keeps_undefined {A} : keeps (undefined (A := A)).
Proof. intros st a st' H. discriminate H. Qed.

Lemma keeps_of_option {A} (o : option A) : keeps (of_option o).
Proof. destruct o; [apply keeps_ret|apply keeps_undefined]. Qed.

Lemma keeps_rng_next : keeps rng_next.
Proof. intros st a st' H. unfold rng_next in H. destruct (Random64_next st.2). by injection H as _ <-. Qed.

Lemma keeps_dm_get m i : keeps (dm_get m i).
Proof. destruct m as [|[]]; simpl; [apply keeps_ret|apply keeps_of_option|apply keeps_undefined]. Qed.

Lemma keeps_next_unit n : keeps (next_unit n).
Proof.
  induction n as [|n IH]; [intros st a st' H; discriminate H|]. cbn [next_unit].
  apply keeps_bind; [apply keeps_rng_next|]. intros v. destruct (rejected v); [done|apply keeps_ret].
Qed.

Lemma keeps_dist_next fuel exp pow d : keeps (dist_next fuel exp pow d).
Proof.
  induction d as [range_|last area alpha|hot IHh cold IHc p h]; cbn [dist_next].
  - unfold rng_next_below. destruct (_ =? _); [apply keeps_undefined|].
    apply keeps_bind; [apply keeps_rng_next|]. intros. apply keeps_ret.
  - apply keeps_bind; [apply keeps_next_unit|]. intros. apply keeps_bind; [apply keeps_of_option|].
    intros. apply keeps_ret.
  - apply keeps_bind; [apply keeps_next_unit|]. intros z. destruct (_ <?ᵈ _); [done|].
    apply keeps_bind; [done|]. intros. apply keeps_ret.
Qed.

End Records.

(** ** Distributions whose range changes *)

Section Laws.
  Variables (fuel : nat) (log exp : double → double) (pow : double → double → double).

  #[local] Abbreviation set_range := (set_range log pow).
  #[local] Abbreviation spec := (spec fuel).

(** After [set_range] to a range of [[1, cap]] the values are below it. *)
Definition mutable_ok (d : Distribution) : Prop :=
  match d with UniformDistribution _ => True | _ => False end.

Lemma set_range_mutable l d :
  1 ≤ l → mutable_ok d → mutable_ok (set_range l d) ∧ dist_below l (set_range l d).
Proof. intros Hl. destruct d; simpl; [lia|done..]. Qed.

Lemma spec_put_eq {G} (g g' : G) r : spec (put_gen g') g r (λ _ h, h = g').
Proof. by apply spec_put. Qed.

(** *** [CreakersAndWaveArgsGenerator] *)

(** Indices of the wave and of its edges: [[0, creakers_begin]]. *)
Definition edge_ok (creakers_begin v : Z) : Prop := 0 ≤ v ≤ creakers_begin.

Definition creakers_ok (n : Z) (g : CreakersAndWaveArgsGenerator) : Prop :=
  n < 2 ^ 63 ∧ 0 < cw_creakers_begin_ g < n ∧
  dist_below (n - cw_creakers_begin_ g) (cw_creakers_dist_ g) ∧
  mutable_ok (cw_wave_dist_ g) ∧ dm_ok n (cw_data_map_ g) ∧
  ∀ i, edge_ok (cw_creakers_begin_ g) (at_values (cw_atomics g) i).

(** The number of indices of the wave between the edges [b] and [e]. *)
Definition wave_length (creakers_begin b e : Z) : Z := if e <? b then e + creakers_begin - b else e - b.

(** The next two loads, after [k] others, find a wave that is not empty. *)
Definition wave_found (k : nat) (g : CreakersAndWaveArgsGenerator) : Prop :=
  let load i := at_values (cw_atomics g) (at_next (cw_atomics g) + k + i)%nat in
  0 < wave_length (cw_creakers_begin_ g) (load 0%nat) (load 1%nat).

(** The queries of a call find one: a [get] loads two edges and a range query four. *)
Definition call_finds_wave (o : oper) (g : CreakersAndWaveArgsGenerator) : Prop :=
  match o with
  | OGet => wave_found 0 g
  | ORange => wave_found 0 g ∧ wave_found 2 g
  | OInsert | ORemove => True
  end.

#[local] Abbreviation keys n I := (λ k g', 1 ≤ k ≤ n ∧ I g').

Ltac open_gen g := apply spec_bind with (λ g' h, g' = h ∧ h = g);
  [done|by apply spec_get|]; intros ? ? r1 Hr1 [-> ->]; cbn beta zeta.

(** The object after [k] loads of edges. *)
Definition loaded (n : Z) (k : nat) (g g' : CreakersAndWaveArgsGenerator) : Prop :=
  creakers_ok n g' ∧ cw_creakers_begin_ g' = cw_creakers_begin_ g ∧
  at_values (cw_atomics g') = at_values (cw_atomics g) ∧
  at_next (cw_atomics g') = (at_next (cw_atomics g) + k)%nat.

Lemma loaded_trans n j k g g1 g2 : loaded n j g g1 → loaded n k g1 g2 → loaded n (j + k) g g2.
Proof. unfold loaded. intros (_ & H1 & H2 & H3) (Hg & -> & -> & ->). split_and!; [done..|lia]. Qed.

Lemma loaded_found n j k g g' : loaded n j g g' → wave_found (j + k) g → wave_found k g'.
Proof. intros (_ & Hcb & Hv & Hnext). unfold wave_found. by rewrite Hcb, Hv, Hnext, (Nat.add_assoc _ j k). Qed.

Lemma cw_load_ok n l g r : creakers_ok n g → words_ok r →
  spec (cw_load l) g r (λ v g', v = at_values (cw_atomics g) (at_next (cw_atomics g)) ∧ loaded n 1 g g').
Proof.
  intros Hg Hr. unfold cw_load. open_gen g.
  unfold atomic_load. eapply spec_bind; [done|apply spec_put_eq|]. cbn beta.
  intros [] g' r2 Hr2 ->. apply spec_ret. split; [done|]. split; [exact Hg|]. simpl. split_and!; [done..|lia].
Qed.

Lemma wave_next_ok n l g r : creakers_ok n g → 1 ≤ l ≤ cw_creakers_begin_ g → words_ok r →
  spec (wave_next fuel log exp pow l) g r (λ v g', 0 ≤ v < l ∧ loaded n 0 g g').
Proof.
  intros Hg Hl Hr. pose proof Hg as (Hn & Hcb & Hc & Hw & Hm & Hv). unfold wave_next. open_gen g.
  destruct (set_range_mutable l _ (proj1 Hl) Hw) as [Hw' Hd].
  eapply spec_bind; [done|apply spec_put_eq|]. cbn beta.
  intros [] g' r2 Hr2 ->. apply (dist_next_below _ _ _ _ l); [unfold modulus64; lia|done..|].
  intros v Hv'. split; [done|]. split; [done|]. simpl. by rewrite Nat.add_0_r.
Qed.

Lemma get_creaker_ok n g r : creakers_ok n g → words_ok r →
  spec (get_creaker fuel exp pow) g r (keys n (creakers_ok n)).
Proof.
  intros Hg Hr. pose proof Hg as (Hn & Hcb & Hc & Hw & Hm & Hv). unfold get_creaker. open_gen g.
  apply (spec_key _ _ _ _ n _ (λ v, cw_creakers_begin_ g +₆₄ v) (n - cw_creakers_begin_ g)); try done.
  - unfold modulus64. lia.
  - intros v Hv'. rewrite u64_add_small; rewrite ?modulus64_val; lia.
Qed.

(** The index of the wave, in both cases of the branch. *)
Lemma wave_index_ok cb b e v : 0 < cb < 2 ^ 63 → edge_ok cb b → edge_ok cb e → 0 ≤ v < wave_length cb b e →
  0 ≤ (if e <? b then let index := b +₆₄ v in if cb <=? index then index -₆₄ cb else index
       else b +₆₄ v) < cb.
Proof.
  unfold edge_ok, wave_length. intros Hcb Hb He. destruct (Z.ltb_spec e b); intros Hv; cbv zeta;
    rewrite u64_add_small by (rewrite modulus64_val; lia); [|lia].
  zbool; [rewrite u64_sub_small by (rewrite modulus64_val; lia)|]; lia.
Qed.

Lemma get_wave_ok n g r : creakers_ok n g → wave_found 0 g → words_ok r →
  spec (get_wave fuel log exp pow) g r (keys n (loaded n 2 g)).
Proof.
  intros Hg Hfound Hr. unfold get_wave.
  eapply spec_bind; [done|by apply cw_load_ok|]. intros b g1 r1 Hr1 (Hb & H1). cbn beta.
  eapply spec_bind; [done|apply (cw_load_ok n); [apply H1|done]|]. intros e g2 r2 Hr2 (He & H2). cbn beta.
  pose proof (loaded_trans _ _ _ _ _ _ H1 H2) as H12.
  apply spec_bind with (λ g' h, g' = h ∧ h = g2); [done|by apply spec_get|]. intros ? ? r3 Hr3 [-> ->].
  cbn beta zeta. pose proof H12 as (Hg2 & Hcb2 & _). pose proof Hg as (Hn & Hcb & _ & _ & Hm & Hv).
  pose proof (Hv (at_next (cw_atomics g))) as Hbok. rewrite <-Hb in Hbok.
  pose proof (Hv (S (at_next (cw_atomics g)))) as Heok.
  assert (e = at_values (cw_atomics g) (S (at_next (cw_atomics g)))) as He'.
  { destruct H1 as (_ & _ & E1 & E2). rewrite He, E1, E2. f_equal. lia. }
  rewrite <-He' in Heok.
  assert (1 ≤ wave_length (cw_creakers_begin_ g) b e ≤ cw_creakers_begin_ g) as Hlen.
  { unfold wave_found in Hfound. rewrite !Nat.add_0_r, Nat.add_1_r, <-Hb, <-He' in Hfound.
    unfold wave_length, edge_ok in *. zbool; lia. }
  assert (∀ l f, l = wave_length (cw_creakers_begin_ g) b e →
    (∀ v, 0 ≤ v < l → 0 ≤ f v < cw_creakers_begin_ g) →
    spec (index ← (v ← wave_next fuel log exp pow l; mret (f v)); dm_get (cw_data_map_ g2) index) g2 r3
      (keys n (loaded n 2 g))) as Hdraw.
  { intros l f -> Hf.
    apply spec_bind with (λ i g', 0 ≤ i < cw_creakers_begin_ g ∧ loaded n 0 g2 g'); [done| |].
    - eapply spec_bind; [done|apply (wave_next_ok n); [done|lia|done]|].
      intros v g' r4 Hr4 (Hv' & Hg'). apply spec_ret. by split; [apply Hf|].
    - intros i g' r4 Hr4 [Hi Hg']. pose proof Hg2 as (_ & _ & _ & _ & Hm2 & _).
      apply (dm_get_ok _ _ n); [done|lia|]. intros k Hk. split; [done|].
      apply (loaded_trans n 2 0 g g2 g'); done. }
  assert (0 < cw_creakers_begin_ g < 2 ^ 63) as Hcb' by lia.
  pose proof (λ v, wave_index_ok _ b e v Hcb' Hbok Heok) as Hindex.
  unfold edge_ok, wave_length in *. rewrite Hcb2. destruct (Z.ltb_spec e b).
  - rewrite (u64_add_small e), u64_sub_small by (rewrite ?modulus64_val; lia). by refine (Hdraw _ _ _ Hindex).
  - rewrite u64_sub_small by (rewrite modulus64_val; lia). by refine (Hdraw _ _ _ Hindex).
Qed.

(** The edge that a shift stores. *)
Definition shifted (creakers_begin v : Z) : Z := if v =? 0 then creakers_begin - 1 else v - 1.

Lemma shifted_ok cb v : 0 < cb → edge_ok cb v → 0 ≤ shifted cb v < cb.
Proof. unfold edge_ok, shifted. intros Hcb Hv. zbool; lia. Qed.

Lemma wave_shift_ok n e g r : creakers_ok n g → words_ok r →
  spec (wave_shift e) g r (keys n (creakers_ok n)).
Proof.
  intros Hg Hr. unfold wave_shift. pose proof Hg as (Hn & Hcb & _ & _ & Hm & Hv).
  specialize (Hv (at_next (cw_atomics g))).
  eapply spec_bind; [done|by apply cw_load_ok|]. intros v g1 r1 Hr1 (-> & Hg1 & Hc1 & _ & _). cbn beta.
  set (v := at_values (cw_atomics g) (at_next (cw_atomics g))) in *.
  apply spec_bind with (λ g' h, g' = h ∧ h = g1); [done|by apply spec_get|]. intros ? ? r3 Hr3 [-> ->].
  cbn beta zeta. apply spec_bind with (λ _ g', creakers_ok n g'); [done| |].
  { unfold cw_cas. apply spec_bind with (λ g' h, g' = h ∧ h = g1); [done|by apply spec_get|].
    intros ? ? r4 Hr4 [-> ->]. by apply spec_put. }
  intros _ g2 r4 Hr4 Hg2. pose proof Hg1 as (_ & _ & _ & _ & Hm1 & _).
  apply (dm_get_ok _ _ n); [done| |done]. rewrite Hc1.
  pose proof (shifted_ok _ v (proj1 Hcb) Hv). unfold shifted, edge_ok in *. zbool;
    rewrite u64_sub_small; rewrite ?modulus64_val; lia.
Qed.

Lemma next_coin_ok g r : words_ok r → spec (next_coin fuel) g r (λ _ g', g' = g).
Proof.
  intros Hr. unfold next_coin. apply spec_bind with (λ _ g', g' = g); [done|by apply spec_next_unit|].
  intros z ? r1 Hr1 ->. apply spec_bind with (λ g' h, g' = h ∧ h = g); [done|by apply spec_get|].
  intros ? ? r2 Hr2 [-> ->]. by apply spec_ret.
Qed.

Lemma creakers_call_ok n o g r : creakers_ok n g → call_finds_wave o g → words_ok r →
  spec (call (H := creakers_args fuel log exp pow) o) g r (λ p g', in_keys n p ∧ creakers_ok n g').
Proof.
  intros Hg Hf Hr. destruct o; cbn [call]; try by apply spec_call_key, wave_shift_ok.
  - apply spec_call_key; [done|]. eapply spec_bind; [done|by apply next_coin_ok|].
    intros [] ? r' Hr' ->; [by apply get_creaker_ok|].
    eapply spec_mono; [by apply get_wave_ok|]. intros k h [Hk [Hh _]]. by split.
  - eapply spec_bind; [done|by apply next_coin_ok|]. intros [] ? r' Hr' ->.
    { eapply spec_mono; [apply (spec_pair _ _ n (creakers_ok n)); [done..|by intros; apply get_creaker_ok]|].
      intros p g' (? & ? & ?). done. }
    destruct Hf as [Hf1 Hf2]. eapply spec_bind; [done|by apply (get_wave_ok n)|].
    intros left g1 r1 Hr1 [Hleft Hg1]. cbn beta. pose proof (loaded_found n 2 0 g g1 Hg1 Hf2) as Hf1'.
    eapply spec_bind; [done|apply (get_wave_ok n); [apply Hg1|done|done]|].
    intros right g2 r2 Hr2 [Hright Hg2]. cbn beta. apply spec_ret.
    pose proof (ordered_ok n left right Hleft Hright). split; [done|apply Hg2].
Qed.

(** All calls of a run find a wave. *)
Fixpoint finds_waves (os : list oper) (st : CreakersAndWaveArgsGenerator * Random64) : Prop :=
  match os with
  | [] => True
  | o :: os =>
      call_finds_wave o st.1 ∧
      ∀ p st', call (H := creakers_args fuel log exp pow) o st = Ok (p, st') → finds_waves os st'
  end.

Lemma creakers_run_ok n os : ∀ g r, creakers_ok n g → words_ok r → finds_waves os (g, r) →
  spec (run_opers (H := creakers_args fuel log exp pow) os) g r
    (λ ps _, length ps = length os ∧ Forall (in_keys n) ps).
Proof.
  induction os as [|o os IH]; intros g r Hg Hr Hf; [by apply spec_ret|]. destruct Hf as [Hf Hfs].
  cbn [run_opers]. eapply spec_bind_eq; [done|by apply (creakers_call_ok n)|].
  intros p g1 r1 Hcall Hr1 [Hp Hg1]. eapply spec_bind; [done|by apply IH, (Hfs p)|].
  intros ps g2 r2 _ [Hlen Hps]. apply spec_ret. simpl. split; [by rewrite Hlen|by constructor].
Qed.

(** A run of inserts and removes asks for no wave. *)
Lemma finds_waves_updates os : Forall (λ o, o = OInsert ∨ o = ORemove) os → ∀ st, finds_waves os st.
Proof. induction 1 as [|o os [-> | ->] _ IH]; intros st; [done| |]; (split; [done|]); intros; apply IH. Qed.

(** What a thread stores is justified by what it loaded before. *)
Section CreakersRecords.
  Context (cb : Z) (Hcb : 0 < cb < 2 ^ 63).

  #[local] Abbreviation records :=
    (records (λ g, at_trace (cw_atomics g)) (edge_ok cb) (λ g, cw_creakers_begin_ g = cb)).

Lemma justified_load l v : justified (edge_ok cb) [Load l v].
Proof. intros [|? [|??]] k e w tr2 Htr; discriminate Htr. Qed.

Lemma cw_load_records l : records (cw_load l).
Proof.
  intros [g r] v st' HI H. injection H as <- <-. split; [done|].
  eexists. split; [done|apply justified_load].
Qed.

Lemma wave_next_records l : records (wave_next fuel log exp pow l).
Proof.
  intros [g r] v st' HI H. pose proof (keeps_dist_next _ _ _ _ _ _ _ H) as E. rewrite E. split; [done|].
  exists []. rewrite app_nil_r. split; [done|apply justified_nil].
Qed.

Lemma get_creaker_records : records (get_creaker fuel exp pow).
Proof.
  apply keeps_records, keeps_bind; [apply keeps_get|]. intros g.
  apply keeps_bind; [apply keeps_dist_next|]. intros. apply keeps_dm_get.
Qed.

Lemma get_wave_records : records (get_wave fuel log exp pow).
Proof.
  apply records_bind; [apply cw_load_records|]. intros b. apply records_bind; [apply cw_load_records|].
  intros e. apply records_bind; [apply keeps_records, keeps_get|]. intros g. cbn zeta.
  apply records_bind; [|intros; apply keeps_records, keeps_dm_get].
  destruct (e <? b); (apply records_bind; [apply wave_next_records|]);
    intros; apply keeps_records, keeps_ret.
Qed.

Lemma wave_shift_records l : records (wave_shift l).
Proof.
  intros [g r] k st' HI H. pose proof (keeps_dm_get _ _ _ _ _ H) as E. rewrite E. split; [done|].
  set (v := at_values (cw_atomics g) (at_next (cw_atomics g))).
  exists [Load l v; Cas l v (if v =? 0 then cw_creakers_begin_ g -₆₄ 1 else v -₆₄ 1)]. split.
  { simpl. by rewrite <-app_assoc. }
  clearbody v. simpl in HI. rewrite HI. clear -Hcb.
  intros [|a [|a' [|? tr1]]] l' e w tr2 Htr Hloads; try discriminate Htr.
  injection Htr as <- <- <- <- _.
  assert (edge_ok cb v) as Hv by (apply (Hloads l), list_elem_of_singleton; done).
  pose proof (shifted_ok _ v (proj1 Hcb) Hv). unfold shifted, edge_ok in *. zbool;
    rewrite u64_sub_small; rewrite ?modulus64_val; lia.
Qed.

Lemma next_coin_records : records (next_coin fuel).
Proof.
  apply keeps_records, keeps_bind; [apply keeps_next_unit|]. intros.
  apply keeps_bind; [apply keeps_get|]. intros. apply keeps_ret.
Qed.

Lemma creakers_run_records os :
  records (run_opers (H := creakers_args fuel log exp pow) os).
Proof.
  induction os as [|o os IH]; [apply keeps_records, keeps_ret|]. cbn [run_opers].
  apply records_bind; [|intros; apply records_bind; [apply IH|intros; apply keeps_records, keeps_ret]].
  assert (∀ m : prog CreakersAndWaveArgsGenerator Z, records m → records (k ← m; mret (k, k))) as Hkey.
  { intros m Hm. apply records_bind; [done|]. intros. apply keeps_records, keeps_ret. }
  destruct o; [apply Hkey| |..]; try apply Hkey, wave_shift_records;
    (apply records_bind; [apply next_coin_records|]); intros [].
  - apply get_creaker_records.
  - apply get_wave_records.
  - repeat (apply records_bind; [apply get_creaker_records|intros]). apply keeps_records, keeps_ret.
  - repeat (apply records_bind; [apply get_wave_records|intros]). apply keeps_records, keeps_ret.
Qed.

End CreakersRecords.

(** *** [LeafsHandshakeArgsGenerator] *)

Definition leafs_ok (n : Z) (ops : oper → bool) (g : LeafsHandshakeArgsGenerator) : Prop :=
  ops ORange = false ∧ 2 ≤ n < 2 ^ 63 ∧ lh_range_ g = n ∧
  dist_below n (lh_read_distribution_ g) ∧ dist_below n (lh_remove_distribution_ g) ∧
  mutable_ok (lh_insert_distribution_ g) ∧ dm_ok n (lh_read_data_ g) ∧ dm_ok n (lh_remove_data_ g) ∧
  (∀ i, 1 ≤ at_values (lh_atomics g) i ≤ n) ∧
  Forall (λ a, 1 ≤ access_value a ≤ n) (at_trace (lh_atomics g)).

Lemma lh_load_ok n ops g r : leafs_ok n ops g → words_ok r →
  spec lh_load g r (λ v g', 1 ≤ v ≤ n ∧ leafs_ok n ops g' ∧
    last (at_trace (lh_atomics g')) = Some (Load deleted_value_ v)).
Proof.
  intros Hg Hr. pose proof Hg as (Ho & Hn & Hrg & Hrd & Hrm & Hi & Hm1 & Hm2 & Hv & Htr).
  unfold lh_load. open_gen g. unfold atomic_load.
  eapply spec_bind; [done|apply spec_put_eq|]. cbn beta. intros [] g' r2 Hr2 ->. apply spec_ret.
  split; [done|]. split; [|simpl; by rewrite last_snoc]. unfold leafs_ok. simpl. split_and!; try done; try lia.
  apply Forall_app. split; [done|]. apply Forall_singleton. apply Hv.
Qed.

Lemma lh_insert_next_ok n ops l g r : leafs_ok n ops g → 1 ≤ l ≤ n → words_ok r →
  spec (lh_insert_next fuel log exp pow l) g r (λ v g', 0 ≤ v < l ∧ leafs_ok n ops g' ∧ lh_atomics g' = lh_atomics g).
Proof.
  intros Hg Hl Hr. pose proof Hg as (Ho & Hn & Hrg & Hrd & Hrm & Hi & Hm1 & Hm2 & Hv & Htr).
  unfold lh_insert_next. open_gen g.
  destruct (set_range_mutable l _ (proj1 Hl) Hi) as [Hi' Hd].
  eapply spec_bind; [done|apply spec_put_eq|]. cbn beta. intros [] g' r2 Hr2 ->.
  apply (dist_next_below _ _ _ _ l); try done. unfold modulus64. lia.
Qed.

(** Whether the key is inserted to the right of the deleted key [d], by the draw [c]. *)
Definition insert_right (n d c : Z) : bool := (d =? 1) || ((d_lit 1 2 <=?ᵈ unit_of c) && negb (d =? n)).

(** An inserted key is in the range, on the side of the last deleted one that the coin
    gives, or on the only side that there is. *)
Lemma leafs_insert_ok n ops g r : leafs_ok n ops g → words_ok r →
  spec (leafs_insert fuel log exp pow) g r (λ k g', leafs_ok n ops g' ∧
    ∃ v, last (at_trace (lh_atomics g')) = Some (Load deleted_value_ v) ∧ 1 ≤ v ≤ n ∧
      if insert_right n v (Random64_next r).1 then v < k ≤ n else 1 ≤ k < v).
Proof.
  intros Hg Hr. unfold leafs_insert.
  eapply spec_bind_eq; [done|by apply lh_load_ok|]. intros d g0 r0 Heq Hr0 (Hd & Hg0 & Hlast). cbn beta.
  assert (r0 = r) as -> by (by injection Heq). clear g Hg Heq. rename g0 into g, Hg0 into Hg.
  apply spec_bind_eq with (λ _ g', g' = g); [done|by apply spec_rng_next|]. intros c ? r2 Hc Hr2 ->.
  assert ((Random64_next r).1 = c) as ->
    by (revert Hc; unfold rng_next; cbn [fst snd]; destruct (Random64_next r); intros [= -> _]; done).
  clear Hc. open_gen g. pose proof Hg as (_ & Hn & Hrg & _). rewrite Hrg. fold (insert_right n d c).
  destruct (insert_right n d c) eqn:Hc; unfold insert_right in Hc.
  - assert (d < n) as Hdn.
    { apply orb_true_iff in Hc as [Hc|Hc]; [apply Z.eqb_eq in Hc; lia|].
      apply andb_true_iff in Hc as [_ Hc]. apply negb_true_iff, Z.eqb_neq in Hc. lia. }
    rewrite u64_sub_small by (rewrite modulus64_val; lia).
    eapply spec_bind; [done|apply (lh_insert_next_ok n ops); [done|lia|done]|].
    intros v g' r4 Hr4 (Hv & Hg' & Hat). apply spec_ret. rewrite Hat. split; [done|]. exists d.
    split; [done|]. split; [done|]. unfold insert_right. rewrite Hc.
    rewrite !u64_add_small by (rewrite modulus64_val, ?u64_add_small; rewrite ?modulus64_val; lia).
    unfold s64. rewrite modulus64_val, Z.mod_small by lia. lia.
  - pose proof Hc as Hc'. apply orb_false_iff in Hc' as [Hc' _]. apply Z.eqb_neq in Hc'.
    rewrite (u64_sub_small d 1) by (rewrite modulus64_val; lia).
    eapply spec_bind; [done|apply (lh_insert_next_ok n ops); [done|lia|done]|].
    intros v g' r4 Hr4 (Hv & Hg' & Hat). apply spec_ret. rewrite Hat. split; [done|]. exists d.
    split; [done|]. split; [done|]. unfold insert_right. rewrite Hc.
    rewrite !u64_sub_small by (rewrite modulus64_val, ?u64_sub_small; rewrite ?modulus64_val; lia).
    unfold s64. rewrite modulus64_val, Z.mod_small by lia. lia.
Qed.

Lemma leafs_remove_ok n ops g r : leafs_ok n ops g → words_ok r →
  spec (leafs_remove fuel exp pow) g r (λ k g', 1 ≤ k ≤ n ∧ leafs_ok n ops g' ∧
    ∃ v, last (at_trace (lh_atomics g')) = Some (Cas deleted_value_ v k)).
Proof.
  intros Hg Hr. unfold leafs_remove.
  eapply spec_bind; [done|by apply lh_load_ok|]. clear g Hg. intros d g r0 Hr0 (Hd & Hg & _). cbn beta.
  open_gen g. pose proof Hg as (Ho & Hn & Hrg & Hrd & Hrm & Hi & Hm1 & Hm2 & Hv & Htr).
  apply spec_bind with (λ i g', 0 ≤ i < n ∧ g' = g); [done| |].
  { apply (dist_next_below _ _ _ _ n); try done. unfold modulus64. lia. }
  intros i ? r3 Hr3 [Hi' ->].
  apply spec_bind with (λ k g', 1 ≤ k ≤ n ∧ g' = g); [done|by apply (dm_get_ok _ _ n)|].
  intros k ? r4 Hr4 [Hk ->].
  eapply spec_bind; [done|apply spec_put_eq|]. cbn beta. intros [] g' r5 Hr5 ->. apply spec_ret.
  rewrite (u64_small k) by (unfold is_u64; rewrite modulus64_val; lia).
  split; [done|]. split; [|exists d; simpl; by rewrite last_snoc].
  unfold leafs_ok. simpl. split_and!; try done; try lia.
  apply Forall_app. split; [done|]. by apply Forall_singleton.
Qed.

#[export] Instance leafs_args_ok :
  @ArgsGeneratorOk fuel LeafsHandshakeArgsGenerator (leafs_args fuel log exp pow).
Proof.
  refine {| gen_ok := leafs_ok |}; intros n ops g r Hg Ho Hr;
    pose proof Hg as (Hro & Hn & Hrg & Hrd & Hrm & Hi & Hm1 & Hm2 & Hv & Htr).
  - open_gen g. apply (spec_key _ _ _ _ n _ (λ v, v) n); try done. unfold modulus64. lia.
  - eapply spec_mono; [by apply (leafs_insert_ok n ops)|]. intros k g' (? & v & _ & Hvn & Hk).
    split; [destruct (insert_right _ _ _); lia|done].
  - eapply spec_mono; [by apply (leafs_remove_ok n ops)|]. intros k g' (? & ? & _). by split.
  - by rewrite Hro in Ho.
Defined.

(** ** The generator of generators *)

(** The pointer that a call of an operation follows. *)
Definition slot {G} (g : GeneralizedArgsGenerator G) (o : oper) : option nat :=
  match o with
  | OGet => ga_get g | OInsert => ga_insert g | ORemove => ga_remove g | ORange => ga_range g
  end.

Lemma at_object_ok {G G' A} (g : G) (up : G → G') (m : prog G A) (g0 : G') r Q :
  spec m g r (λ a h, Q a (up h)) → spec (at_object g up m) g0 r Q.
Proof.
  unfold Distributions.spec, at_object. cbn [snd]. by destruct (m (g, r)) as [[a [h r']]| | |].
Qed.

(** *** Virtual calls *)

#[export] Instance null_args_ok : ArgsGeneratorOk fuel NullArgsGenerator.
Proof.
  refine {| gen_ok := λ n ops g, ∀ o, ops o = false |}; intros n ops g r Hg Ho; by rewrite Hg in Ho.
Defined.

Section Virtual.
  Context {G1 G2 : Type} `{ArgsGeneratorOk fuel G1, ArgsGeneratorOk fuel G2}.

Definition virtual_ok (n : Z) (ops : oper → bool) (g : G1 + G2) : Prop :=
  match g with inl g => gen_ok fuel n ops g | inr g => gen_ok fuel n ops g end.

#[export] Instance virtual_args_ok : ArgsGeneratorOk fuel (G1 + G2).
Proof.
  refine {| gen_ok := virtual_ok |}; intros n ops [g|g] r Hg Ho Hr; apply at_object_ok;
    (eapply spec_mono; [|intros a h Hh; exact Hh]);
    by first [apply next_get_ok|apply next_insert_ok|apply next_remove_ok|apply next_range_ok].
Defined.

End Virtual.

(** *** [GeneralizedArgsGenerator] *)

Section Generalized.
  Context {G : Type} `{ArgsGeneratorOk fuel G}.

(** Every supported operation has an object that supports it. *)
Definition generalized_ok (n : Z) (ops : oper → bool) (g : GeneralizedArgsGenerator G) : Prop :=
  ∃ opss : list (oper → bool), Forall2 (gen_ok fuel n) opss (ga_generators g) ∧
    ∀ o, ops o = true → ∃ i ops', slot g o = Some i ∧ opss !! i = Some ops' ∧ ops' o = true.

Lemma on_generator_ok {A} n ops o g r (m : prog G A) (Q : A → Prop) :
  generalized_ok n ops g → ops o = true →
  (∀ ops' h, gen_ok fuel n ops' h → ops' o = true → spec m h r (λ a h', Q a ∧ gen_ok fuel n ops' h')) →
  spec (on_generator (slot g o) m) g r (λ a g', Q a ∧ generalized_ok n ops g').
Proof.
  intros (opss & Hgens & Hops) Ho Hm. destruct (Hops o Ho) as (i & ops' & -> & Hi & Ho').
  destruct (Forall2_lookup_l _ _ _ _ _ Hgens Hi) as (h & Hh & Hok).
  unfold Distributions.spec, on_generator. cbn [fst snd]. rewrite Hh.
  apply at_object_ok. eapply spec_mono; [by apply Hm|]. intros a h' [HQ Hok']. split; [done|].
  exists opss. cbn [ga_generators set_generators]. split.
  - rewrite <-(list_insert_id opss i ops') by done. by apply Forall2_insert.
  - intros o' Ho1. destruct (Hops o' Ho1) as (j & ops1 & Hj & Hl & Hs). exists j, ops1.
    split; [|done]. rewrite <-Hj. by destruct o'.
Qed.

#[export] Instance generalized_args_ok : ArgsGeneratorOk fuel (GeneralizedArgsGenerator G).
Proof.
  refine {| gen_ok := generalized_ok |}; intros n ops g r Hg Ho Hr; open_gen g.
  - by apply (on_generator_ok n ops OGet g _ next_get (λ k, 1 ≤ k ≤ n));
      [..|intros; eapply next_get_ok].
  - by apply (on_generator_ok n ops OInsert g _ next_insert (λ k, 1 ≤ k ≤ n));
      [..|intros; eapply next_insert_ok].
  - by apply (on_generator_ok n ops ORemove g _ next_remove (λ k, 1 ≤ k ≤ n));
      [..|intros; eapply next_remove_ok].
  - eapply spec_mono.
    + apply (on_generator_ok n ops ORange g _ next_range (λ p, 1 ≤ p.1 ≤ p.2 ∧ p.2 ≤ n)); [done..|].
      intros ops' h Hh Ho'. eapply spec_mono; [by eapply next_range_ok|]. tauto.
    + tauto.
Defined.

End Generalized.

End Laws.
