(* ===== verification/SharedBuilders.v ===== *)
(** The builders of the generators of [SharedArgs]: what [init] and [build] give to
    the threads, and which object answers which operation. *)
From Stdlib Require Import Ascii String.
From S2P Require Import Double Fraction Rng Distributions Args ArgsLaws Json Config SharedArgs SharedLaws Prelude.

#[local] Open Scope string_scope.
#[local] Open Scope list_scope.
#[local] Open Scope Z_scope.

Section Built.
  Variables (log : double → double) (pow : double → double → double) (last : Z) (area : double).

(** ** Creakers and wave *)

(** The values of the atomics when the threads start. *)
Definition init_edges (b : CreakersAndWaveArgsGeneratorBuilder) (l : atomic) : Z :=
  match l with wave_begin_ => cb_wave_begin_ b | wave_end_ => cb_wave_end_ b | deleted_value_ => 0 end.

Lemma creakers_init_edges n b b' :
  0 < n < 2 ^ 53 → creakers_init n b = Some b' →
  0 < cb_creakers_length_ b' < n → 0 ≤ cb_start_wave_length_ b' ≤ n - cb_creakers_length_ b' →
  cb_creakers_begin_ b' = n - cb_creakers_length_ b' ∧ cb_wave_end_ b' = cb_creakers_begin_ b' ∧
  cb_wave_begin_ b' = cb_creakers_begin_ b' - cb_start_wave_length_ b'.
Proof.
  intros Hn Hinit Hl Hw. unfold creakers_init in Hinit.
  destruct (scale n (cb_creakers_size_ b)) as [l|]; [|done]. simpl in Hinit.
  destruct (scale n (cb_wave_size_ b)) as [w|]; [|done]. simpl in Hinit.
  injection Hinit as <-. cbn in *.
  rewrite !u64_sub_small by (rewrite modulus64_val, ?u64_sub_small; rewrite ?modulus64_val; lia). done.
Qed.

(** [build] for a thread whose loads are given. *)
Lemma creakers_builds n b loads :
  0 < cb_creakers_begin_ b < n → n < 2 ^ 53 → cb_creakers_length_ b = n - cb_creakers_begin_ b →
  builder_ok (cb_creakers_length_ b) (cb_creakers_dist_builder_ b) →
  cb_wave_dist_builder_ b = UniformDistributionBuilder →
  dm_ok n (dm_build (cb_data_map_builder_ b)) →
  ∃ g, creakers_build log pow last area loads b = Some g ∧ cw_creakers_begin_ g = cb_creakers_begin_ b ∧
    at_trace (cw_atomics g) = [] ∧
    ((∀ i, edge_ok (cb_creakers_begin_ b) (loads i)) → creakers_ok n g).
Proof.
  intros Hcb Hn Hlen Hc Hw Hm. unfold creakers_build.
  destruct (build_dist_below log pow last area _ (cb_creakers_length_ b) ltac:(lia) Hc) as (cd & -> & Hcd).
  simpl. rewrite Hw. simpl.
  eexists. split; [done|]. split; [done|]. split; [done|]. intros Hloads. unfold creakers_ok. simpl.
  rewrite Hlen in Hcd. split_and!; try done; lia.
Qed.

(** *** [LeafsHandshakeArgsGeneratorBuilder] *)

Definition no_range (o : oper) : bool := bool_decide (o ≠ ORange).

Lemma leafs_builds n b loads :
  2 ≤ n < 2 ^ 53 →
  builder_ok n (hb_read_dist_builder_ b) → builder_ok n (hb_remove_dist_builder_ b) →
  hb_insert_dist_builder_ b = UniformDistributionBuilder →
  dm_ok n (dm_build (hb_read_data_map_builder_ b)) → dm_ok n (dm_build (hb_remove_data_map_builder_ b)) →
  (∀ i, 1 ≤ loads i ≤ n) →
  ∃ g, leafs_build log pow last area loads (leafs_init n b) = Some g ∧
    leafs_ok n no_range g ∧ at_trace (lh_atomics g) = [].
Proof.
  intros Hn Hr Hrm Hi Hm1 Hm2 Hloads. unfold leafs_build. simpl.
  destruct (build_dist_below log pow last area _ n ltac:(lia) Hr) as (rd & -> & Hrd). simpl.
  destruct (build_dist_below log pow last area _ n ltac:(lia) Hrm) as (rmd & -> & Hrmd). rewrite Hi. simpl.
  eexists. split; [done|]. split; [|done]. unfold leafs_ok. simpl. split_and!; try done; try lia.
Qed.

End Built.

(** ** The generator of generators *)

Definition oper_name (o : oper) : string :=
  match o with OGet => "get" | OInsert => "insert" | ORemove => "remove" | ORange => "rangeQuery" end.

Lemma filter_all {A} (P : A → Prop) `{∀ x, Decision (P x)} (l : list A) : (∀ x, P x) → filter P l = l.
Proof. intros HP. induction l as [|x l IH]; [done|]. rewrite filter_cons_True by done. by rewrite IH. Qed.

Lemma declare_spec opers : ∀ undec, undec ⊆ OPER_TYPES →
  (NoDup opers ∧ opers ⊆ undec ∧ declare opers undec = Ok (filter (λ o, o ∉ opers) undec)) ∨
  (¬ (NoDup opers ∧ opers ⊆ undec) ∧ declare opers undec = SetbenchError).
Proof.
  induction opers as [|o opers IH]; intros undec Hsub.
  { left. split; [constructor|]. split; [set_solver|]. simpl. f_equal. symmetry. apply filter_all. set_solver. }
  cbn [declare]. destruct (decide (o ∉ OPER_TYPES)) as [Ho|Ho].
  { right. split; [|done]. set_solver. }
  destruct (decide (o ∉ undec)) as [Hu|Hu]; [right; split; [set_solver|done]|].
  apply dec_stable in Hu.
  destruct (IH (filter (λ o', o' ≠ o) undec)) as [(Hnd & Hin & ->)|[Hno ->]].
  - intros x Hx. apply list_elem_of_filter in Hx. set_solver.
  - left. assert (∀ x, x ∈ opers → x ≠ o ∧ x ∈ undec) as Hx.
    { intros x Hx. by apply Hin, list_elem_of_filter in Hx. }
    split; [constructor; [|done]; intros Hoo; by destruct (Hx o Hoo)|].
    split; [set_solver|]. f_equal. rewrite list_filter_filter. apply list_filter_iff. set_solver.
  - right. split; [|done]. intros [Hnd Hin]. apply NoDup_cons in Hnd as [Hoo Hnd]. apply Hno.
    split; [done|]. intros x Hx. apply list_elem_of_filter. split; [set_solver|]. set_solver.
Qed.

Section Declarations.
  Context {B : Type}.

(** A chain of calls of [add_args_generator_builder]. *)
Fixpoint add_builders (l : list (list string * B)) (g : GeneralizedArgsGeneratorBuilder B) :
    res (GeneralizedArgsGeneratorBuilder B) :=
  match l with
  | [] => Ok g
  | (opers, b) :: l =>
      match add_args_generator_builder opers b g with Ok g => add_builders l g | r => r end
  end.

(** The operations that were declared. *)
Definition declared (l : list (list string * B)) : list string := concat l.*1.

Lemma add_builders_spec l : ∀ done_ undec, undec ⊆ OPER_TYPES →
  let g := {| args_generator_builders_ := done_; undec_oper_types_ := undec |} in
  (NoDup (declared l) ∧ declared l ⊆ undec ∧
   add_builders l g = Ok {| args_generator_builders_ := done_ ++ l;
                            undec_oper_types_ := filter (λ o, o ∉ declared l) undec |}) ∨
  (¬ (NoDup (declared l) ∧ declared l ⊆ undec) ∧ add_builders l g = SetbenchError).
Proof.
  induction l as [|[opers b] l IH]; intros done_ undec Hsub g.
  { left. split; [constructor|]. split; [set_solver|]. simpl. rewrite app_nil_r.
    unfold g. do 2 f_equal. symmetry. apply filter_all. set_solver. }
  cbn [add_builders]. unfold add_args_generator_builder. cbn [undec_oper_types_ args_generator_builders_ g].
  change (declared ((opers, b) :: l)) with (opers ++ declared l).
  destruct (declare_spec opers undec Hsub) as [(Hnd & Hin & ->)|[Hno ->]].
  2: { right. split; [|done]. intros [Hnd Hin]. apply NoDup_app in Hnd as [Hnd _]. apply Hno. set_solver. }
  destruct (IH (done_ ++ [(opers, b)]) (filter (λ o, o ∉ opers) undec)) as [(Hnd' & Hin' & ->)|[Hno ->]].
  - intros x Hx. apply list_elem_of_filter in Hx. set_solver.
  - left. assert (∀ x, x ∈ declared l → (x ∉ opers) ∧ x ∈ undec) as Hx.
    { intros x Hx. by apply Hin', list_elem_of_filter in Hx. }
    split; [apply NoDup_app; split_and!; [done|set_solver|done]|]. split; [set_solver|].
    rewrite <-app_assoc. do 2 f_equal. rewrite list_filter_filter. apply list_filter_iff. set_solver.
  - right. split; [|done]. intros [Hnd' Hin']. apply NoDup_app in Hnd' as (_ & Hdisj & Hnd'). apply Hno.
    split; [done|]. intros x Hx. apply list_elem_of_filter. split; set_solver.
Qed.

End Declarations.

Section GeneralizedBuilder.
  Context {B G : Type} (null : B) (init : Z → B → option B) (build : B → option G).

(** The object that answers an operation. *)
Definition answers (g : GeneralizedArgsGenerator G) (o : oper) (h : G) : Prop :=
  ∃ i, slot g o = Some i ∧ ga_generators g !! i = Some h.

Definition init_build (n : Z) (b : B) : option G := init n b ≫= build.

Lemma built_of n L u :
  Forall (λ p : list string * B, is_Some (init_build n p.2)) L →
  (∀ o, oper_name o ∈ declared L) →
  ∃ L' g, mapM (λ p : list string * B, b ← init n p.2; Some (p.1, b)) L = Some L' ∧
    generalized_build build {| args_generator_builders_ := L'; undec_oper_types_ := u |} = Some g ∧
    Forall2 (λ p h, init_build n p.2 = Some h) L (ga_generators g) ∧
    ∀ o, ∃ i opers b h, slot g o = Some i ∧ L !! i = Some (opers, b) ∧ oper_name o ∈ opers ∧
      ga_generators g !! i = Some h ∧ init_build n b = Some h.
Proof.
  intros HL Hdecl.
  assert (∃ L' gens, mapM (λ p : list string * B, b ← init n p.2; Some (p.1, b)) L = Some L' ∧
    mapM (λ p, build p.2) L' = Some gens ∧ L'.*1 = L.*1 ∧
    Forall2 (λ p h, init_build n p.2 = Some h) L gens) as (L' & gens & H1 & H2 & H3 & H4).
  { clear Hdecl. induction HL as [|[opers b] L [h Hh] _ (L' & gens & IH1 & IH2 & IH3 & IH4)].
    - by exists [], [].
    - pose proof Hh as Hh'. unfold init_build in Hh. cbn [snd] in Hh.
      destruct (init n b) as [b'|] eqn:Hb; [|done]. simpl in Hh.
      exists ((opers, b') :: L'), (h :: gens). split_and!; [simpl; rewrite Hb; simpl; by rewrite IH1
        |simpl; rewrite Hh; simpl; by rewrite IH2|by rewrite !fmap_cons, IH3|by constructor]. }
  exists L'. unfold generalized_build. cbn [args_generator_builders_]. rewrite H2. simpl.
  eexists. split; [done|]. split; [done|]. cbn [ga_generators]. split; [done|].
  intros o. rewrite H3. specialize (Hdecl o). unfold declared in Hdecl.
  apply list_elem_of_In, in_concat in Hdecl as (opers & Hop & Hin).
  apply list_elem_of_In in Hop, Hin.
  destruct (list_find_elem_of (λ opers, oper_name o ∈ opers) L.*1 opers Hop Hin) as [[i opers'] Hi].
  pose proof Hi as Hi'. apply list_find_Some in Hi' as (Hl & Ho & _).
  apply list_lookup_fmap_Some in Hl as ([opers1 b] & Heq & Hl). simpl in Heq. subst opers1.
  destruct (Forall2_lookup_l _ _ _ _ _ H4 Hl) as (h & Hh & Hbuild).
  exists i, opers', b, h. split_and!; try done.
  unfold built. destruct o; simpl; simpl in Hi; by rewrite Hi.
Qed.

(** The builder that [init] adds for the operations that are left. *)
Definition rest (undec : list string) : list (list string * B) := if decide (undec = []) then [] else [(undec, null)].

Lemma generalized_init_eq n l undec :
  NoDup undec → undec ⊆ OPER_TYPES →
  ∃ u, generalized_init null init n {| args_generator_builders_ := l; undec_oper_types_ := undec |} =
    match mapM (λ p : list string * B, b ← init n p.2; Some (p.1, b)) (l ++ rest undec) with
    | Some l => Ok {| args_generator_builders_ := l; undec_oper_types_ := u |}
    | None => Undefined
    end.
Proof.
  intros Hnd Hsub. unfold generalized_init, rest. cbn [undec_oper_types_].
  destruct (decide (undec = [])) as [->|Hne]; [exists []; by rewrite app_nil_r|].
  unfold add_args_generator_builder. cbn [undec_oper_types_ args_generator_builders_].
  destruct (declare_spec undec undec Hsub) as [(_ & _ & ->)|[Hno _]]; [by eexists|].
  exfalso. by apply Hno.
Qed.

(** Supported operations of the objects, by their positions. *)
Lemma supported {R : list string * B → G → Prop} (ok : (oper → bool) → G → Prop) L gens :
  Forall2 R L gens →
  (∀ p h, p ∈ L → R p h → ∃ ops, ok ops h ∧ ∀ o, oper_name o ∈ p.1 → ops o = true) →
  ∃ opss, Forall2 ok opss gens ∧ Forall2 (λ ops p, ∀ o, oper_name o ∈ p.1 → ops o = true) opss L.
Proof.
  induction 1 as [|p h L gens Hp _ IH]; intros HL; [by exists []|].
  destruct (HL p h) as (ops & Hok & Hops); [left|done|].
  destruct IH as (opss & H1 & H2); [intros p' h' Hin; apply HL; by right|].
  exists (ops :: opss). split; by constructor.
Qed.

Lemma declared_lookup (l : list (list string * B)) i opers b o :
  l !! i = Some (opers, b) → o ∈ opers → o ∈ declared l.
Proof.
  intros Hl Ho. apply list_elem_of_In, in_concat. exists opers. split; apply list_elem_of_In; [|done].
  apply (list_elem_of_fmap_2 fst l (opers, b)). by eapply list_elem_of_lookup_2.
Qed.

(** Where an operation is answered. *)
Lemma rest_lookup (l : list (list string * B)) undec i opers b o :
  (∀ o, o ∈ undec → o ∉ declared l) →
  (l ++ rest undec) !! i = Some (opers, b) → o ∈ opers →
  if decide (o ∈ declared l) then l !! i = Some (opers, b) else b = null.
Proof.
  intros Hu Hi Ho. apply lookup_app_Some in Hi as [Hi|[Hlen Hi]].
  - rewrite decide_True by (by eapply declared_lookup). done.
  - unfold rest in Hi. destruct (decide (undec = [])); [done|].
    apply list_lookup_singleton_Some in Hi as [_ Heq]. injection Heq as -> ->.
    by rewrite decide_False by (by apply Hu).
Qed.

End GeneralizedBuilder.

Lemma covers {B} (null : B) l undec :
  declared l ⊆ OPER_TYPES → (∀ o, (o ∉ declared l) ∧ o ∈ OPER_TYPES → o ∈ undec) →
  ∀ o, oper_name o ∈ declared (l ++ rest null undec).
Proof.
  intros Hsub Hu o. unfold declared. rewrite fmap_app, concat_app. apply elem_of_app.
  destruct (decide (oper_name o ∈ declared l)) as [Ho|Ho]; [by left|right].
  assert (oper_name o ∈ undec) as Hin by (apply Hu; split; [done|destruct o; set_solver]).
  unfold rest. destruct (decide (undec = [])) as [->|]; [by apply elem_of_nil in Hin|].
  simpl. by rewrite app_nil_r.
Qed.

(** The generator supports the declared operations. *)
Lemma generalized_supported {B G} fuel `{ArgsGeneratorOk fuel G} (null : B) (init : Z → B → option B)
    (build : B → option G) n l undec g :
  (∀ o, o ∈ undec → o ∉ declared l) →
  Forall2 (λ p h, init_build init build n p.2 = Some h) (l ++ rest null undec) (ga_generators g) →
  (∀ o, ∃ i opers b h, slot g o = Some i ∧ (l ++ rest null undec) !! i = Some (opers, b) ∧
     oper_name o ∈ opers ∧ ga_generators g !! i = Some h ∧ init_build init build n b = Some h) →
  (∀ opers b h, (opers, b) ∈ l ++ [([], null)] → init_build init build n b = Some h →
     ∃ ops, gen_ok fuel n ops h ∧ ∀ o, oper_name o ∈ opers → ops o = true) →
  generalized_ok fuel n (λ o, bool_decide (oper_name o ∈ declared l)) g.
Proof.
  intros Hu Hgens Hslots Hops.
  set (tail := if decide (undec = []) then [] else [([] : list string, null)]).
  assert (Forall2 (λ p h, init_build init build n p.2 = Some h) (l ++ tail) (ga_generators g)) as Hgens'.
  { apply Forall2_app_inv_l in Hgens as (g1 & g2 & H1 & H2 & ->). apply Forall2_app; [done|].
    unfold rest, tail in *. destruct (decide _); [done|].
    apply Forall2_cons_inv_l in H2 as (h & g3 & Hh & H3 & ->). by constructor. }
  destruct (supported (gen_ok fuel n) (l ++ tail) _ Hgens') as (opss & H1 & H2).
  { intros [opers b] h Hin Hb. apply (Hops opers b h); [|done].
    unfold tail in Hin. destruct (decide _); set_solver. }
  exists opss. split; [done|]. intros o Ho. apply bool_decide_eq_true in Ho.
  destruct (Hslots o) as (i & opers & b & h & Hs & Hi & Hin & Hh & _).
  pose proof (rest_lookup null l undec i opers b _ Hu Hi Hin) as Hl. rewrite decide_True in Hl by done.
  destruct (Forall2_lookup_r _ _ _ i (opers, b) H2) as (ops & Hops' & Hsup).
  { rewrite lookup_app_l; [done|]. by eapply lookup_lt_Some. }
  exists i, ops. split_and!; [done|done|]. by apply Hsup.
Qed.

(** ** Properties *)

(** C36. Creakers and wave on a range [n] of fewer than [2^53] keys, with a uniform
    distribution of the wave, a uniform or skewed-uniform one of the creakers, a length
    of the creakers that leaves room for the wave, and a data map with the keys
    [1 .. n]. The threads shift the edges of the wave through two atomics and ignore
    whether their [compare_exchange_weak] succeeded. (1) A thread whose loads are
    indices of [[0, creakers_begin]] answers every sequence of operations with keys of
    [[1, n]] and no index leaves the data map, if the two edges that are next to be
    loaded by a get, and each of the two pairs for a range query, leave a wave that is
    not empty (the code does not ensure it: an empty one makes it take a remainder of
    0). Only [fuel] draws in a row that a loop rejects can keep it from returning. (2) Inserts and
    removes need no such condition. (3) In a history of any number of threads, where a
    load returns the initial value of the builder or a value that some thread tried to
    store before, every value that is loaded or stored is such an index, at every
    moment of every thread's calls. *)
Theorem creakers_and_wave_correct fuel log exp pow last area n b b' :
  0 < n < 2 ^ 53 → creakers_init n b = Some b' →
  0 < cb_creakers_length_ b' < n → 0 ≤ cb_start_wave_length_ b' ≤ n - cb_creakers_length_ b' →
  builder_ok (cb_creakers_length_ b') (cb_creakers_dist_builder_ b') →
  cb_wave_dist_builder_ b' = UniformDistributionBuilder →
  dm_ok n (dm_build (cb_data_map_builder_ b')) →
  let generator loads := creakers_build log pow last area loads b' in
  let run := run_opers (H := creakers_args fuel log exp pow) in
  (∀ loads, (∀ i, edge_ok (cb_creakers_begin_ b') (loads i)) →
     ∃ g, generator loads = Some g ∧ ∀ os r, words_ok r →
       finds_waves fuel log exp pow os (g, r) ∨ Forall (λ o, o = OInsert ∨ o = ORemove) os →
       spec fuel (run os) g r (λ ps _, length ps = length os ∧ Forall (in_keys n) ps)) ∧
  (∀ h, coherent (init_edges b') h →
     (∀ t, ∃ loads g os r ps g' r', generator loads = Some g ∧ run os (g, r) = Ok (ps, (g', r')) ∧
        of_thread t h `prefix_of` at_trace (cw_atomics g')) →
     Forall (λ p, edge_ok (cb_creakers_begin_ b') (access_value p.2)) h).
Proof.
  intros Hn Hinit Hl Hw Hc Hwd Hm generator run.
  destruct (creakers_init_edges n b b') as (Hcb & He & Hb); [done..|].
  assert (∀ loads, ∃ g, generator loads = Some g ∧ cw_creakers_begin_ g = cb_creakers_begin_ b' ∧
    at_trace (cw_atomics g) = [] ∧
    ((∀ i, edge_ok (cb_creakers_begin_ b') (loads i)) → creakers_ok n g)) as Hbuild.
  { intros loads. apply creakers_builds; try done; lia. }
  split.
  - intros loads Hloads. destruct (Hbuild loads) as (g & Hg & _ & _ & Hok). exists g. split; [done|].
    intros os r Hr Hf. apply creakers_run_ok; [by apply Hok|done|].
    destruct Hf as [Hf|Hf]; [done|by apply finds_waves_updates].
  - intros h Hcoh Hruns. apply (history_good _ (init_edges b')); [|done|].
    + intros []; unfold edge_ok; simpl; lia.
    + intros t. destruct (Hruns t) as (loads & g & os & r & ps & g' & r' & Hg & Hrun & tr & Htr).
      destruct (Hbuild loads) as (g1 & Hg1 & Hcb1 & Htr1 & _). rewrite Hg1 in Hg. injection Hg as ->.
      destruct (creakers_run_records fuel log exp pow (cb_creakers_begin_ b') ltac:(lia) os
        (g, r) ps (g', r') Hcb1 Hrun) as (_ & tr' & Htr' & Hjust).
      cbn [fst] in Htr'. rewrite Htr1 in Htr'. simpl in Htr'. rewrite Htr', Htr in *.
      intros tr1 l e v tr2 Heq. apply (Hjust tr1 l e v (tr2 ++ tr)). by rewrite Heq, <-app_assoc.
Qed.

(** C37. Leafs handshake on a range of [n] keys, [2 <= n < 2^53], with a uniform
    distribution of the inserts, uniform or skewed-uniform ones of the reads and
    removes, and data maps with the keys [1 .. n]. A thread whose loads of the last
    deleted key are keys of [[1, n]] answers every sequence of reads, inserts and removes
    with such keys, and stores only such keys, unless a loop rejects [fuel] draws in a
    row. An insert returns a key to the right of the
    deleted one that it has loaded, or to the left of it, as its draw says; next to 1 it
    is on the right, next to [n] on the left. A remove tries to store the key it
    returns. *)
Theorem leafs_handshake_correct fuel log exp pow last area n b loads :
  2 ≤ n < 2 ^ 53 →
  builder_ok n (hb_read_dist_builder_ b) → builder_ok n (hb_remove_dist_builder_ b) →
  hb_insert_dist_builder_ b = UniformDistributionBuilder →
  dm_ok n (dm_build (hb_read_data_map_builder_ b)) → dm_ok n (dm_build (hb_remove_data_map_builder_ b)) →
  (∀ i, 1 ≤ loads i ≤ n) →
  ∃ g, leafs_build log pow last area loads (leafs_init n b) = Some g ∧
    ∀ os r, Forall (λ o, o ≠ ORange) os → words_ok r →
    spec fuel (run_opers (H := leafs_args fuel log exp pow) os) g r (λ ps g',
      length ps = length os ∧ Forall (in_keys n) ps ∧
      Forall (λ a, 1 ≤ access_value a ≤ n) (at_trace (lh_atomics g')) ∧
      ∀ r', words_ok r' →
        spec fuel (leafs_insert fuel log exp pow) g' r' (λ k h,
          ∃ v, list.last (at_trace (lh_atomics h)) = Some (Load deleted_value_ v) ∧ 1 ≤ v ≤ n ∧
            let is_right := d_lit 1 2 <=?ᵈ unit_of (Random64_next r').1 in
            if (v =? 1) || (is_right && negb (v =? n)) then v < k ≤ n else 1 ≤ k < v) ∧
        spec fuel (leafs_remove fuel exp pow) g' r' (λ k h, 1 ≤ k ≤ n ∧
          ∃ v, list.last (at_trace (lh_atomics h)) = Some (Cas deleted_value_ v k))).
Proof.
  intros Hn Hr Hrm Hi Hm1 Hm2 Hloads.
  destruct (leafs_builds log pow last area n b loads) as (g & Hg & Hok & _); [done..|].
  exists g. split; [done|]. intros os r Hos Hwr.
  assert (Forall (λ o, no_range o = true) os) as Hops.
  { eapply Forall_impl; [exact Hos|]. intros o Ho. by apply bool_decide_eq_true. }
  eapply spec_mono; [by apply (@run_opers_inv fuel _ _ (leafs_args_ok fuel log exp pow) n no_range)|].
  cbn beta. intros ps g' (Hlen & Hps & Hg'). split; [done|]. split; [done|].
  split; [by apply Hg'|]. intros r' Hr'. split.
  - eapply spec_mono; [by apply (leafs_insert_ok fuel log exp pow n no_range)|].
    intros k h [_ Hk]. exact Hk.
  - eapply spec_mono; [by apply (leafs_remove_ok fuel exp pow n no_range)|].
    intros k h (? & _ & ?). by split.
Qed.

Definition example_creakers : CreakersAndWaveArgsGeneratorBuilder := {|
  cb_creakers_length_ := 0; cb_creakers_begin_ := 0; cb_start_wave_length_ := 0;
  cb_wave_begin_ := 0; cb_wave_end_ := 0;
  cb_creakers_size_ := d_lit 1 5; cb_creakers_ratio_ := d_lit 1 2; cb_wave_size_ := d_lit 1 2;
  cb_creakers_dist_builder_ := UniformDistributionBuilder;
  cb_wave_dist_builder_ := UniformDistributionBuilder;
  cb_data_map_builder_ := IdDataMapBuilder
|}.

Definition example_built : CreakersAndWaveArgsGeneratorBuilder := {|
  cb_creakers_length_ := 20; cb_creakers_begin_ := 80; cb_start_wave_length_ := 50;
  cb_wave_begin_ := 30; cb_wave_end_ := 80;
  cb_creakers_size_ := d_lit 1 5; cb_creakers_ratio_ := d_lit 1 2; cb_wave_size_ := d_lit 1 2;
  cb_creakers_dist_builder_ := UniformDistributionBuilder;
  cb_wave_dist_builder_ := UniformDistributionBuilder;
  cb_data_map_builder_ := IdDataMapBuilder
|}.

(** An insert of one thread and a remove of another. *)
Definition example_history : list (nat * access) :=
  [(0%nat, Load wave_begin_ 30); (1%nat, Load wave_end_ 80); (1%nat, Cas wave_end_ 80 79);
   (0%nat, Cas wave_begin_ 30 29)].

Lemma example_history_coherent b :
  creakers_init 100 example_creakers = Some b → coherent (init_edges b) example_history.
Proof.
  intros Hb. vm_compute in Hb. injection Hb as <-. intros h1 t l v h2 Hh. left.
  unfold example_history in Hh.
  do 5 (destruct h1 as [|? h1]; simplify_eq/=; try done).
Qed.

(** A thread that sees the edges 30 and 80 in turn. *)
Definition example_loads (i : nat) : Z := if Nat.even i then 30 else 80.

Lemma example_waves g : creakers_build id (λ x _, x) 1 d_zero example_loads example_built = Some g →
  finds_waves 8 id (λ _, d_one) (λ x _, x) [OGet; OInsert; ORange] (g, setSeed 7).
Proof.
  intros Hg. vm_compute in Hg. injection Hg as <-.
  split; [by vm_compute|]. intros p1 st1 H1. vm_compute in H1. injection H1 as <- <-.
  split; [done|]. intros p2 st2 H2. vm_compute in H2. injection H2 as <- <-.
  split; [by vm_compute|]. by intros p3 st3 _.
Qed.

Lemma creakers_and_wave_correct_witness :
  creakers_init 100 example_creakers = Some example_built ∧ cb_creakers_begin_ example_built = 80 ∧
  (∃ g, creakers_build id (λ x _, x) 1 d_zero example_loads example_built = Some g ∧
     spec 8 (run_opers (H := creakers_args 8 id (λ _, d_one) (λ x _, x)) [OGet; OInsert; ORange]) g (setSeed 7)
       (λ ps _, length ps = 3%nat ∧ Forall (in_keys 100) ps)) ∧
  Forall (λ p, edge_ok 80 (access_value p.2)) example_history.
Proof.
  pose proof (example_history_coherent example_built eq_refl) as Hcoh.
  assert (creakers_init 100 example_creakers = Some example_built) as Hb by (vm_compute; reflexivity).
  destruct (creakers_and_wave_correct 8 id (λ _, d_one) (λ x _, x) 1 d_zero 100 example_creakers example_built)
    as [Hruns Hhist].
  1: lia.
  1: exact Hb.
  1,2: cbn; lia.
  1,2: reflexivity.
  1: cbn; lia.
  split; [exact Hb|]. split; [reflexivity|]. split.
  - destruct (Hruns example_loads) as (g & Hg & Hrun).
    { intros i. unfold edge_ok, example_loads. change (cb_creakers_begin_ example_built) with 80.
      destruct (Nat.even i); lia. }
    exists g. split; [exact Hg|]. apply (Hrun [OGet; OInsert; ORange]); [by apply setSeed_ok|].
    left. by apply example_waves.
  - apply Hhist; [exact Hcoh|]. intros t. unfold example_built.
    destruct t as [|[|t]].
    + exists (λ _, 30). eexists _, [OInsert], (setSeed 7), _, _, _. split; [by vm_compute|].
      split; [by vm_compute|]. by eexists [].
    + exists (λ _, 80). eexists _, [ORemove], (setSeed 7), _, _, _. split; [by vm_compute|].
      split; [by vm_compute|]. by eexists [].
    + exists (λ _, 0). eexists _, [], (setSeed 7), _, _, _. split; [by vm_compute|].
      split; [by vm_compute|]. by eexists [].
Defined.

Definition example_leafs : LeafsHandshakeArgsGeneratorBuilder := {|
  hb_range_ := 0; hb_read_dist_builder_ := UniformDistributionBuilder;
  hb_insert_dist_builder_ := UniformDistributionBuilder;
  hb_remove_dist_builder_ := UniformDistributionBuilder;
  hb_read_data_map_builder_ := IdDataMapBuilder; hb_remove_data_map_builder_ := IdDataMapBuilder;
  hb_deleted_value_ := 0
|}.

Lemma leafs_handshake_correct_witness :
  ∃ g, leafs_build id (λ x _, x) 1 d_zero (λ _, 50) (leafs_init 100 example_leafs) = Some g ∧
    spec 8 (run_opers (H := leafs_args 8 id (λ _, d_one) (λ x _, x)) [OInsert; ORemove]) g (setSeed 7)
      (λ ps _, length ps = 2%nat ∧ Forall (in_keys 100) ps).
Proof.
  destruct (leafs_handshake_correct 8 id (λ _, d_one) (λ x _, x) 1 d_zero 100 example_leafs (λ _, 50))
    as (g & Hg & Hruns); try done; try (simpl; lia).
  exists g. split; [done|].
  eapply spec_mono; [apply (Hruns [OInsert; ORemove])|].
  - by repeat constructor.
  - by apply setSeed_ok.
  - intros ps g' (? & ? & _). by split.
Defined.

(** [GeneralizedArgsGeneratorBuilder]. A chain of [add_args_generator_builder] ends
    with [setbench_error] exactly if an operation is unknown or declared twice.
    Otherwise [init] and [build] give a generator that answers every operation with the
    object of the one builder that declares it, and an operation that no builder
    declares with the object of [NullArgsGeneratorBuilder]. If the objects answer
    their operations with keys of [[1, n]], so does the generator, for every sequence
    of declared operations. *)
Theorem generalized_args_correct {B G} fuel `{ArgsGeneratorOk fuel G} (null : B)
    (init : Z → B → option B) (build : B → option G) n l :
  let operations_ok := NoDup (declared l) ∧ declared l ⊆ OPER_TYPES in
  (¬ operations_ok → add_builders l new_generalized = SetbenchError) ∧
  (operations_ok → Forall (λ p, is_Some (init_build init build n p.2)) (l ++ [([], null)]) →
   ∃ gb gb' g, add_builders l new_generalized = Ok gb ∧ generalized_init null init n gb = Ok gb' ∧
     generalized_build build gb' = Some g ∧
     (∀ o, ∃ opers b h, answers g o h ∧ init_build init build n b = Some h ∧
        if decide (oper_name o ∈ declared l) then (opers, b) ∈ l ∧ oper_name o ∈ opers else b = null) ∧
     ((∀ opers b h, (opers, b) ∈ l ++ [([], null)] → init_build init build n b = Some h →
         ∃ ops, gen_ok fuel n ops h ∧ ∀ o, oper_name o ∈ opers → ops o = true) →
      serves fuel n (λ o, bool_decide (oper_name o ∈ declared l)) (generalized_build build gb'))).
Proof.
  intros operations_ok.
  destruct (add_builders_spec l [] OPER_TYPES) as [(Hnd & Hsub & Hadd)|[Hno Hadd]]; [done| |].
  2: { split; [done|]. intros Hok. by destruct Hno. }
  set (undec := filter (λ o, o ∉ declared l) OPER_TYPES) in *.
  assert (∀ o, o ∈ undec ↔ (o ∉ declared l) ∧ o ∈ OPER_TYPES) as Hu
    by (intros o; unfold undec; by rewrite list_elem_of_filter).
  assert (∀ o, o ∈ undec → o ∉ declared l) as Hu1 by (intros o Ho; by apply Hu in Ho as [? _]).
  split; [intros Hno; by destruct Hno|]. intros _ Hbuilders.
  rewrite Forall_app, Forall_singleton in Hbuilders. destruct Hbuilders as [Hl Hnull].
  destruct (generalized_init_eq null init n l undec) as [u Hinit].
  { apply NoDup_filter. repeat constructor; set_solver. }
  { intros o Ho. by apply Hu in Ho as [_ Ho]. }
  destruct (built_of init build n (l ++ rest null undec) u) as (L & g & HL & Hg & Hgens & Hslots).
  { apply Forall_app. split; [done|]. unfold rest. destruct (decide _); [done|]. by apply Forall_singleton. }
  { apply covers; [done|]. intros o Ho. by apply Hu. }
  rewrite HL in Hinit. eexists _, _, g. split; [exact Hadd|]. split; [exact Hinit|]. split; [done|]. split.
  - intros o. destruct (Hslots o) as (i & opers & b & h & Hs & Hi & Ho & Hh & Hb).
    exists opers, b, h. split; [by exists i|]. split; [done|].
    pose proof (rest_lookup null l undec i opers b _ Hu1 Hi Ho) as Hr.
    destruct (decide _); [|done]. split; [by eapply list_elem_of_lookup_2|done].
  - intros Hops. rewrite Hg. eapply (@serves_intro fuel _ _ (generalized_args_ok fuel)); [done|].
    by eapply generalized_supported.
Qed.

(** [NullArgsGeneratorBuilder] or [DefaultArgsGeneratorBuilder]. *)
Definition example_init (n : Z) (b : option DefaultArgsGeneratorBuilder) :
    option (option DefaultArgsGeneratorBuilder) :=
  Some (default_init n <$> b).

Definition example_build (b : option DefaultArgsGeneratorBuilder) : option (NullArgsGenerator + DefaultArgsGenerator) :=
  match b with
  | None => Some (inl NullArgs)
  | Some b => inr <$> default_build id (λ x _, x) 0 d_zero b
  end.

#[local] Existing Instance default_args_ok.

Lemma generalized_args_correct_witness :
  let b := Some {| db_range_ := 0; distributionBuilder := UniformDistributionBuilder;
                   dataMapBuilder := IdDataMapBuilder |} in
  let l := [(["get"; "rangeQuery"], b); (["insert"], b)] in
  ∃ gb gb' g, add_builders l new_generalized = Ok gb ∧ generalized_init None example_init 100 gb = Ok gb' ∧
    generalized_build example_build gb' = Some g ∧ answers g ORemove (inl NullArgs) ∧
    serves 8 (H := generalized_args (AG := virtual_args (H0 := default_args 8 id (λ x _, x)))) 100
      (λ o, bool_decide (oper_name o ∈ ["get"; "rangeQuery"; "insert"]))
      (generalized_build example_build gb').
Proof.
  intros b l.
  destruct (generalized_args_correct 8 (H0 := virtual_args_ok 8 (H2 := default_args_ok 8 id (λ x _, x)))
    None example_init example_build 100 l) as [_ Hok].
  destruct Hok as (gb & gb' & g & H1 & H2 & H3 & Hans & Hserves).
  { split; [by repeat constructor; set_solver|]. set_solver. }
  { by repeat constructor. }
  exists gb, gb', g. split; [done|]. split; [done|]. split; [done|]. split.
  - destruct (Hans ORemove) as (opers & b' & h & Ha & Hb & Hc). rewrite decide_False in Hc by set_solver.
    subst b'. by injection Hb as <-.
  - apply Hserves. intros opers b' h Hin Hb.
    assert (b' = b ∨ opers = [] ∧ b' = None) as [->|[-> ->]] by set_solver.
    + exists all_opers. split; [|done]. injection Hb as <-. simpl. split_and!; [lia|simpl; lia|simpl; lia].
    + exists (λ _, false). injection Hb as <-. split; [done|]. set_solver.
Defined.

(** ** Configurations outside of the theorems *)

(** An empty wave with a uniform distribution: a remainder of [0]. *)
Lemma empty_wave_uniform fuel log exp pow n g r :
  creakers_ok n g → ¬ wave_found 0 g → get_wave fuel log exp pow (g, r) = Undefined.
Proof.
  intros (Hn & Hcb & _ & Hw & _ & Hv) Hf. unfold mutable_ok in Hw.
  destruct (cw_wave_dist_ g) as [range| |] eqn:Hd; [|done..].
  unfold get_wave, cw_load, atomic_load, wave_next, mbind, prog_bind, get_gen, put_gen, mret, prog_ret.
  cbn [fst snd cw_atomics at_values at_next cw_wave_dist_ cw_creakers_begin_]. rewrite Hd.
  unfold wave_found in Hf. rewrite !Nat.add_0_r, Nat.add_1_r in Hf.
  pose proof (Hv (at_next (cw_atomics g))) as Hb. pose proof (Hv (S (at_next (cw_atomics g)))) as He.
  set (b := at_values _ _) in *. set (e := at_values _ (S _)) in *.
  assert (∀ l, l = 0 → ∀ st : CreakersAndWaveArgsGenerator * Random64,
    dist_next fuel exp pow (set_range log pow l (UniformDistribution range)) st = Undefined) as Hnext by (by intros l ->).
  unfold wave_length, edge_ok in *. destruct (Z.ltb_spec e b).
  - by rewrite Hnext by (rewrite (u64_add_small e), u64_sub_small by (rewrite modulus64_val; lia); lia).
  - by rewrite Hnext by (rewrite u64_sub_small by (rewrite modulus64_val; lia); lia).
Qed.

(** In a range of one key nothing can be inserted beside the deleted key [1]. *)
Lemma leafs_range_one fuel log exp pow g r range :
  lh_range_ g = 1 → lh_insert_distribution_ g = UniformDistribution range →
  (∀ i, at_values (lh_atomics g) i = 1) →
  leafs_insert fuel log exp pow (g, r) = Undefined.
Proof.
  intros Hr Hd Hv. unfold leafs_insert, lh_load, atomic_load, lh_insert_next, rng_next, mbind, prog_bind,
    get_gen, put_gen, mret, prog_ret.
  cbn [fst snd lh_atomics at_values at_next lh_insert_distribution_ lh_range_]. rewrite !Hv, Hr, Hd.
  destruct (Random64_next r). cbn. done.
Qed.
