(* ===== verification/Statistic.v ===== *)
(** The statistics of a run ([Benchmark-v700/cpp/microbench/statistics.h]): the sums over
    the threads, their JSON, and what they say about the set. *)
From Stdlib Require Import Ascii String.
From S2P Require Import Double Fraction Rng Distributions Args ArgsLaws ThreadLoops Checksum Json Prelude.

#[local] Open Scope string_scope.
#[local] Open Scope list_scope.
#[local] Open Scope Z_scope.

Record Statistic := {
  totalAll : Z;
  totalGets : Z;
  totalRQs : Z;
  totalQueries : Z;
  totalInserts : Z;
  totalRemoves : Z;
  totalUpdates : Z;
  totalSuccessfulGets : Z;
  totalSuccessfulInserts : Z;
  totalSuccessfulRemoves : Z;
  totalSuccessfulUpdates : Z;
  totalFailGets : Z;
  totalFailInserts : Z;
  totalFailRemoves : Z;
  totalFailUpdates : Z;
  SECONDS_TO_RUN : double;
  throughputSearches : Z;
  throughputRQs : Z;
  throughputQueries : Z;
  throughputUpdates : Z;
  throughputAll : Z
}.

(** Conversion to [int64_t]; [None] where it is undefined. *)
Definition d_to_int64 (x : double) : option Z :=
  match x with
  | S754_zero _ => Some 0
  | S754_finite s m e =>
      let a := Z.shiftl (Zpos m) e in
      let v := if s then - a else a in
      if (- 2 ^ 63 <=? v) && (v <? 2 ^ 63) then Some v else None
  | _ => None
  end.

(** [(int64_t)(total / SECONDS_TO_RUN)] *)
Definition throughput (total : Z) (seconds_to_run : double) : option Z :=
  d_to_int64 (d_of_Z total /ᵈ seconds_to_run).

(** Addition of [int64_t]; [None] on overflow. *)
Definition int64_add (a b : Z) : option Z :=
  let c := a + b in if (- 2 ^ 63 <=? c) && (c <? 2 ^ 63) then Some c else None.

Section Make.
  Context {G D : Type}.

(** The constructor, from the counters of the threads. *)
Definition Statistic_make (seconds_to_run : double) (w : World G D) : option Statistic :=
  let gets := get_sum num_searches w in
  let rqs := get_sum num_rq w in
  queries ← int64_add gets rqs;
  let inserts := get_sum num_inserts w in
  let removes := get_sum num_removes w in
  updates ← int64_add inserts removes;
  let successful_gets := get_sum num_successful_searches w in
  let successful_inserts := get_sum num_successful_inserts w in
  let successful_removes := get_sum num_successful_removes w in
  successful_updates ← int64_add successful_inserts successful_removes;
  let fail_gets := get_sum num_fail_searches w in
  let fail_inserts := get_sum num_fail_inserts w in
  let fail_removes := get_sum num_fail_removes w in
  fail_updates ← int64_add fail_inserts fail_removes;
  all ← int64_add updates queries;
  find_throughput ← throughput gets seconds_to_run;
  rq_throughput ← throughput rqs seconds_to_run;
  query_throughput ← throughput queries seconds_to_run;
  update_throughput ← throughput updates seconds_to_run;
  total_throughput ← throughput all seconds_to_run;
  Some {| totalAll := all; totalGets := gets; totalRQs := rqs; totalQueries := queries;
          totalInserts := inserts; totalRemoves := removes; totalUpdates := updates;
          totalSuccessfulGets := successful_gets; totalSuccessfulInserts := successful_inserts;
          totalSuccessfulRemoves := successful_removes; totalSuccessfulUpdates := successful_updates;
          totalFailGets := fail_gets; totalFailInserts := fail_inserts; totalFailRemoves := fail_removes;
          totalFailUpdates := fail_updates; SECONDS_TO_RUN := seconds_to_run;
          throughputSearches := find_throughput; throughputRQs := rq_throughput;
          throughputQueries := query_throughput; throughputUpdates := update_throughput;
          throughputAll := total_throughput |}.

End Make.

(** ** JSON *)

Section Json.
  Context {J : Type} `{JsonLib J}.

Definition statistic_to_json (s : Statistic) : J :=
  json_object
    [("total_gets", json_int (totalGets s));
     ("total_successful_gets", json_int (totalSuccessfulGets s));
     ("total_fail_gets", json_int (totalFailGets s));
     ("total_rq", json_int (totalRQs s));
     ("total_inserts", json_int (totalInserts s));
     ("total_successful_inserts", json_int (totalSuccessfulInserts s));
     ("total_fail_inserts", json_int (totalFailInserts s));
     ("total_removes", json_int (totalRemoves s));
     ("total_successful_removes", json_int (totalSuccessfulRemoves s));
     ("total_fail_removes", json_int (totalFailRemoves s));
     ("total_updates", json_int (totalUpdates s));
     ("total_successful_updates", json_int (totalSuccessfulUpdates s));
     ("total_fail_updates", json_int (totalFailUpdates s));
     ("total_queries", json_int (totalQueries s));
     ("total_ops", json_int (totalAll s));
     ("find_throughput", json_int (throughputSearches s));
     ("rq_throughput", json_int (throughputRQs s));
     ("update_throughput", json_int (throughputUpdates s));
     ("query_throughput", json_int (throughputQueries s));
     ("total_throughput", json_int (throughputAll s))].

(** Into an existing object, whose seconds stay; [None] where a key is missing. *)
Definition statistic_from_json (json : J) (s : Statistic) : option Statistic :=
  let get k := at_key k json ≫= as_int in
  gets ← get "total_gets"; successful_gets ← get "total_successful_gets"; fail_gets ← get "total_fail_gets";
  rqs ← get "total_rq";
  inserts ← get "total_inserts"; successful_inserts ← get "total_successful_inserts";
  fail_inserts ← get "total_fail_inserts";
  removes ← get "total_deletes"; successful_removes ← get "total_successful_removes";
  fail_removes ← get "total_fail_removes";
  updates ← get "total_updates"; successful_updates ← get "total_successful_updates";
  fail_updates ← get "total_fail_updates";
  queries ← get "total_queries"; all ← get "total_ops";
  find_throughput ← get "find_throughput"; rq_throughput ← get "rq_throughput";
  update_throughput ← get "update_throughput"; query_throughput ← get "query_throughput";
  total_throughput ← get "total_throughput";
  Some {| totalAll := all; totalGets := gets; totalRQs := rqs; totalQueries := queries;
          totalInserts := inserts; totalRemoves := removes; totalUpdates := updates;
          totalSuccessfulGets := successful_gets; totalSuccessfulInserts := successful_inserts;
          totalSuccessfulRemoves := successful_removes; totalSuccessfulUpdates := successful_updates;
          totalFailGets := fail_gets; totalFailInserts := fail_inserts; totalFailRemoves := fail_removes;
          totalFailUpdates := fail_updates; SECONDS_TO_RUN := SECONDS_TO_RUN s;
          throughputSearches := find_throughput; throughputRQs := rq_throughput;
          throughputQueries := query_throughput; throughputUpdates := update_throughput;
          throughputAll := total_throughput |}.

(** What is written cannot be read: the removals have another key. *)
Lemma statistic_not_readable s s' : statistic_from_json (statistic_to_json s) s' = None.
Proof.
  assert (at_key "total_deletes" (statistic_to_json s) = None) as Hmiss.
  { unfold statistic_to_json. rewrite at_key_object; [done|]. by apply (bool_decide_unpack _). }
  unfold statistic_from_json. rewrite Hmiss. cbn [mbind option_bind].
  repeat match goal with |- context [?o ≫= _] => destruct o; cbn [mbind option_bind]; [|done] end.
  done.
Qed.

End Json.

(** ** What the statistics say *)

Section Laws.
  Variable fuel : nat.
  Context {G : Type} `{AGO : ArgsGeneratorOk fuel G}.
  Context {D : Type} `{DS : SetAdapter D}.
  Variables (redis : bool) (n : Z).

Lemma zsum_fmap_plus {A} (f g : A → Z) l : zsum ((λ x, f x + g x) <$> l) = zsum (f <$> l) + zsum (g <$> l).
Proof. induction l as [|x l IH]; [done|]. rewrite !fmap_cons, !zsum_cons, IH. lia. Qed.

Lemma zsum_fmap_nonneg {A} (f : A → Z) l : Forall (λ x, 0 ≤ f x) l → 0 ≤ zsum (f <$> l).
Proof. induction 1 as [|x l Hx _ IH]; [done|]. rewrite fmap_cons, zsum_cons. lia. Qed.

Lemma zsum_fmap_ext {A} (f g : A → Z) l : Forall (λ x, f x = g x) l → zsum (f <$> l) = zsum (g <$> l).
Proof. induction 1 as [|x l Hx _ IH]; [done|]. rewrite !fmap_cons, !zsum_cons. lia. Qed.

Lemma bool_decide_between a b c : a ≤ b < c → ((a <=? b) && (b <? c)) = true.
Proof. intros ?. zbool; done || lia. Qed.

(** A counter of all threads. *)
Definition total (f : Stats → Z) (w : World G D) : Z := zsum ((λ th, f (stats (th_local th))) <$> w_threads w).

Lemma total_plus (f g h : Stats → Z) (w : World G D) :
  (∀ s, stats_ok s → f s = g s + h s) → Forall (λ th, stats_ok (stats (th_local th))) (w_threads w) →
  total f w = total g w + total h w.
Proof.
  intros Hf Hok. unfold total. rewrite <-zsum_fmap_plus. apply zsum_fmap_ext.
  eapply Forall_impl; [exact Hok|]. intros th. apply Hf.
Qed.

Lemma total_nonneg (f : Stats → Z) (w : World G D) :
  (∀ s, stats_ok s → 0 ≤ f s) → Forall (λ th, stats_ok (stats (th_local th))) (w_threads w) → 0 ≤ total f w.
Proof.
  intros Hf Hok. apply zsum_fmap_nonneg. eapply Forall_impl; [exact Hok|]. intros th. apply Hf.
Qed.

Lemma get_sum_total f (w : World G D) : 0 ≤ total f w < 2 ^ 63 → get_sum f w = total f w.
Proof. intros Ht. apply (s64_small (total f w)). lia. Qed.

(** Every total is the sum of the successes and the failures, all operations are
    counted once, and the successful updates account for the change of the set. *)
Lemma statistic_of_world keys0 w seconds s :
  world_ok fuel n keys0 w → total num_operations w < 2 ^ 63 → Statistic_make seconds w = Some s →
  totalGets s = totalSuccessfulGets s + totalFailGets s ∧
  totalInserts s = totalSuccessfulInserts s + totalFailInserts s ∧
  totalRemoves s = totalSuccessfulRemoves s + totalFailRemoves s ∧
  totalUpdates s = totalSuccessfulUpdates s + totalFailUpdates s ∧
  totalAll s = total num_operations w ∧
  ∃ keys, ds_holds n (w_ds w) keys ∧
    totalSuccessfulInserts s - totalSuccessfulRemoves s = key_count keys - key_count keys0.
Proof.
  intros (Hths & keys & Hds & _ & Hcount) Hsmall Hs. rewrite zsum_minus in Hcount.
  assert (Forall (λ th, stats_ok (stats (th_local th))) (w_threads w)) as Hok.
  { eapply Forall_impl; [exact Hths|]. by intros th (_ & _ & ? & _). }
  pose proof (total_plus num_inserts num_successful_inserts num_fail_inserts w ltac:(cbn beta; unfold stats_ok; lia) Hok) as E1.
  pose proof (total_plus num_removes num_successful_removes num_fail_removes w ltac:(cbn beta; unfold stats_ok; lia) Hok) as E2.
  pose proof (total_plus num_searches num_successful_searches num_fail_searches w ltac:(cbn beta; unfold stats_ok; lia) Hok) as E3.
  pose proof (total_plus num_operations (λ s, num_inserts s + num_removes s) (λ s, num_searches s + num_rq s) w
    ltac:(cbn beta; unfold stats_ok; lia) Hok) as E4.
  pose proof (total_plus (λ s, num_inserts s + num_removes s) num_inserts num_removes w ltac:(done) Hok) as E5.
  pose proof (total_plus (λ s, num_searches s + num_rq s) num_searches num_rq w ltac:(done) Hok) as E6.
  pose proof (λ f Hf, total_nonneg f w Hf Hok) as Hnn.
  pose proof (Hnn num_successful_inserts ltac:(unfold stats_ok; lia)).
  pose proof (Hnn num_fail_inserts ltac:(unfold stats_ok; lia)).
  pose proof (Hnn num_successful_removes ltac:(unfold stats_ok; lia)).
  pose proof (Hnn num_fail_removes ltac:(unfold stats_ok; lia)).
  pose proof (Hnn num_successful_searches ltac:(unfold stats_ok; lia)).
  pose proof (Hnn num_fail_searches ltac:(unfold stats_ok; lia)).
  pose proof (Hnn num_rq ltac:(unfold stats_ok; lia)).
  change (total num_successful_inserts w - total num_successful_removes w = key_count keys - key_count keys0) in Hcount.
  unfold Statistic_make in Hs. rewrite !get_sum_total in Hs by lia. unfold int64_add in Hs.
  repeat (rewrite bool_decide_between in Hs by lia; cbn [mbind option_bind] in Hs).
  repeat match type of Hs with (throughput ?a ?b ≫= _) = _ =>
    destruct (throughput a b); cbn [mbind option_bind] in Hs; [|done] end.
  injection Hs as <-. simpl. split_and!; try lia. exists keys. split; [done|lia].
Qed.

End Laws.
