(* ===== verification/StageProtocol.v ===== *)
(** How a stage of the microbenchmark starts and ends
    ([Benchmark-v700/cpp/microbench/main.cpp], [execute]; [workloads/thread_loops/
    thread_loop_impl.h], [ThreadLoop::run]; [workloads/stop_condition/impls/timer.h]).

    The main thread creates the threads, waits until all of them have announced
    themselves in [running], starts the timer, and lets them go with [start]. A thread
    whose stop condition holds leaves [running] and waits until all have left. The
    accesses to the [volatile] variables interleave in every order; a step of the
    relation is one of them, with the calls around it. What a thread does between two
    tests of the stop condition is in [ThreadLoops]. *)
From S2P Require Import Prelude.

Inductive timer_pc :=
  | TimerAbsent
  | TimerCreated
  | TimerSleeping
  | TimerDone.

(** Where a thread is: before its [initThread], before its increment of [running],
    before [start], in its loop, before its decrement, before [running] is zero,
    before its [deinitThread], and at its end. *)
Inductive thread_pc :=
  | TAbsent
  | TCreated
  | TInited
  | TWait
  | TLoop
  | TLeave
  | TDrain
  | TDeinit
  | TDone.

(** [MCreate i]: [i] threads exist; [MJoin i]: [i] threads have been joined. *)
Inductive main_pc :=
  | MCreate (i : nat)
  | MTimerStop
  | MTimerClear
  | MTimerSpawn
  | MTimerWait
  | MStart
  | MJoin (i : nat)
  | MClean
  | MResetStart
  | MResetDone
  | MEnd.

#[export] Instance thread_pc_eq_dec : EqDecision thread_pc.
Proof. solve_decision. Defined.
#[export] Instance main_pc_eq_dec : EqDecision main_pc.
Proof. solve_decision. Defined.

Record State := {
  running : Z;
  start : bool;
  done_ : bool;
  stop_ : bool;
  is_started_ : bool;
  timer : timer_pc;
  main_ : main_pc;
  threads : list thread_pc
}.

Definition set_thread (t : nat) (p : thread_pc) (s : State) : State :=
  {| s with threads := <[t := p]> (threads s) |}.
Definition set_main (p : main_pc) (s : State) : State := {| s with main_ := p |}.

Section Protocol.
  (** [parameters->get_num_threads()] *)
  Variable n : nat.

(** Steps of the main thread. *)
Inductive main_step (s : State) : State → Prop :=
  | create i : main_ s = MCreate i → (i < n)%nat →
      main_step s (set_main (MCreate (S i)) (set_thread i TCreated s))
  | see_running : main_ s = MCreate n → Z.of_nat n ≤ running s → main_step s (set_main MTimerStop s)
  | clear_stop : main_ s = MTimerStop → main_step s (set_main MTimerClear {| s with stop_ := false |})
  | clear_started : main_ s = MTimerClear → main_step s (set_main MTimerSpawn {| s with is_started_ := false |})
  | spawn_timer : main_ s = MTimerSpawn → main_step s (set_main MTimerWait {| s with timer := TimerCreated |})
  | see_started : main_ s = MTimerWait → is_started_ s = true → main_step s (set_main MStart s)
  | set_start : main_ s = MStart → main_step s (set_main (MJoin 0) {| s with start := true |})
  | join i : main_ s = MJoin i → threads s !! i = Some TDone → main_step s (set_main (MJoin (S i)) s)
  | set_done : main_ s = MJoin n → main_step s (set_main MClean {| s with done_ := true |})
  | join_timer : main_ s = MClean → timer s = TimerDone → main_step s (set_main MResetStart s)
  | reset_start : main_ s = MResetStart → main_step s (set_main MResetDone {| s with start := false |})
  | reset_done : main_ s = MResetDone → main_step s (set_main MEnd {| s with done_ := false |}).

(** Steps of the timer: [is_started_], and [stop_] after the sleep. *)
Inductive timer_step (s : State) : State → Prop :=
  | timer_starts : timer s = TimerCreated →
      timer_step s {| s with is_started_ := true; timer := TimerSleeping |}
  | timer_fires : timer s = TimerSleeping →
      timer_step s {| s with stop_ := true; timer := TimerDone |}.

(** Steps of thread [t]. *)
Inductive thread_step (t : nat) (s : State) : State → Prop :=
  | init_thread : threads s !! t = Some TCreated → thread_step t s (set_thread t TInited s)
  | announce : threads s !! t = Some TInited →
      thread_step t s (set_thread t TWait {| s with running := running s + 1 |})
  | see_start : threads s !! t = Some TWait → start s = true → thread_step t s (set_thread t TLoop s)
  | see_stop : threads s !! t = Some TLoop → stop_ s = true → thread_step t s (set_thread t TLeave s)
  | leave : threads s !! t = Some TLeave →
      thread_step t s (set_thread t TDrain {| s with running := running s - 1 |})
  | see_drained : threads s !! t = Some TDrain → running s = 0 → thread_step t s (set_thread t TDeinit s)
  | deinit_thread : threads s !! t = Some TDeinit → thread_step t s (set_thread t TDone s).

(** The steps that change nothing here: a round of a waiting loop, or an operation. *)
Inductive idle_step (s : State) : Prop :=
  | spin_running : main_ s = MCreate n → running s < Z.of_nat n → idle_step s
  | spin_started : main_ s = MTimerWait → is_started_ s = false → idle_step s
  | spin_start t : threads s !! t = Some TWait → start s = false → idle_step s
  | operation t : threads s !! t = Some TLoop → stop_ s = false → idle_step s
  | spin_drain t : threads s !! t = Some TDrain → running s ≠ 0 → idle_step s.

Definition progress (s s' : State) : Prop := main_step s s' ∨ timer_step s s' ∨ ∃ t, thread_step t s s'.
Definition step (s s' : State) : Prop := progress s s' ∨ (idle_step s ∧ s' = s).

(** [execute] begins with a [running] of zero and a false [start]. *)
Definition initial (s : State) : Prop :=
  running s = 0 ∧ start s = false ∧ timer s = TimerAbsent ∧ main_ s = MCreate 0 ∧
  threads s = replicate n TAbsent.

Definition reachable (s : State) : Prop := ∃ s0, initial s0 ∧ rtc step s0 s.

(** ** The invariant *)

(** The threads counted by [running]. *)
Definition counted (p : thread_pc) : Z := match p with TWait | TLoop | TLeave => 1 | _ => 0 end.

Definition before_start (p : thread_pc) : bool :=
  match p with TCreated | TInited | TWait => true | _ => false end.
Definition after_start (p : thread_pc) : bool :=
  match p with TAbsent | TCreated | TInited => false | _ => true end.
Definition drained (p : thread_pc) : bool := match p with TDrain | TDeinit | TDone => true | _ => false end.

(** What the main thread knows at each of its points. *)
Definition main_ok (s : State) : Prop :=
  match main_ s with
  | MCreate i => (i ≤ n)%nat ∧ start s = false ∧ timer s = TimerAbsent ∧
      ∀ t p, threads s !! t = Some p → if decide (t < i)%nat then Is_true (before_start p) else p = TAbsent
  | MTimerStop | MTimerClear =>
      start s = false ∧ timer s = TimerAbsent ∧ Forall (eq TWait) (threads s)
  | MTimerSpawn =>
      start s = false ∧ timer s = TimerAbsent ∧ is_started_ s = false ∧ Forall (eq TWait) (threads s)
  | MTimerWait =>
      start s = false ∧ timer s ≠ TimerAbsent ∧
      (is_started_ s = false → timer s = TimerCreated) ∧ (is_started_ s = true → timer s ≠ TimerCreated) ∧
      Forall (eq TWait) (threads s)
  | MStart => start s = false ∧ timer s ≠ TimerAbsent ∧ timer s ≠ TimerCreated ∧ Forall (eq TWait) (threads s)
  | MJoin i => (i ≤ n)%nat ∧ start s = true ∧ timer s ≠ TimerAbsent ∧ timer s ≠ TimerCreated ∧
      Forall after_start (threads s) ∧ ∀ t p, (t < i)%nat → threads s !! t = Some p → p = TDone
  | MClean => start s = true ∧ timer s ≠ TimerAbsent ∧ timer s ≠ TimerCreated ∧ Forall (eq TDone) (threads s)
  | MResetStart => start s = true ∧ Forall (eq TDone) (threads s)
  | MResetDone | MEnd => start s = false ∧ Forall (eq TDone) (threads s)
  end.

Definition protocol_ok (s : State) : Prop :=
  length (threads s) = n ∧ running s = zsum (counted <$> threads s) ∧ main_ok s ∧
  (timer s = TimerDone → stop_ s = true) ∧
  ((∃ t p, threads s !! t = Some p ∧ (p = TDeinit ∨ p = TDone)) → Forall drained (threads s)).

(** The order of a thread's points; it leaves [TWait] only after [start]. *)
Definition next_pc (started : bool) (p q : thread_pc) : Prop :=
  match p with
  | TAbsent => False
  | TCreated => q = TInited
  | TInited => q = TWait
  | TWait => started = true ∧ q = TLoop
  | TLoop => q = TLeave
  | TLeave => q = TDrain
  | TDrain => q = TDeinit
  | TDeinit => q = TDone
  | TDone => False
  end.

Lemma next_after started p q : next_pc started p q → after_start p → after_start q.
Proof. by destruct p, q; simpl; intros; destruct_and?. Qed.

Lemma next_before started p q : started = false → next_pc started p q → before_start p → before_start q.
Proof. by intros ->; destruct p, q; simpl; intros; destruct_and?. Qed.

Lemma main_ok_thread s t p q r :
  main_ok s → threads s !! t = Some p → next_pc (start s) p q →
  main_ok (set_thread t q {| s with running := r |}).
Proof.
  intros Hm Ht Hq.
  assert (∀ P : thread_pc → Prop, Forall P (threads s) → P p) as HF by (intros P HP; by eapply Forall_lookup_1).
  unfold main_ok in *. destruct s as [run st dn stop isst tm m ths]. simpl in *.
  assert (st = false → Forall (eq TWait) ths → False) as HW.
  { intros -> HP. specialize (HF _ HP). subst p. by destruct Hq. }
  assert (Forall (eq TDone) ths → False) as HD.
  { intros HP. specialize (HF _ HP). by subst p. }
  destruct m as [i| | | | | |i| | | |]; try (exfalso; destruct_and?; by auto).
  - destruct Hm as (Hi & -> & Htm & Hp). split_and!; try done. intros t' p' Ht'.
    apply list_lookup_insert_Some in Ht' as [(<- & -> & _)|[_ Ht']]; [|by apply Hp].
    specialize (Hp t p Ht). case_decide; [by eapply next_before|subst p; by simpl in Hq].
  - destruct Hm as (Hi & -> & Htm1 & Htm2 & Haft & Hp). split_and!; try done.
    + apply Forall_insert; [done|]. eapply next_after; [done|]. by apply HF.
    + intros t' p' Hlt Ht'. apply list_lookup_insert_Some in Ht' as [(<- & -> & _)|[_ Ht']]; [|by apply (Hp t')].
      specialize (Hp t p Hlt Ht). by subst p.
Qed.

Lemma counted_zero l : zsum (counted <$> l) = 0 → Forall (λ p, counted p = 0) l.
Proof.
  assert (∀ l, 0 ≤ zsum (counted <$> l)) as Hnn.
  { intros k. apply zsum_nonneg, Forall_fmap, Forall_true. by intros []. }
  induction l as [|p l IH]; [done|]. rewrite fmap_cons, zsum_cons. intros Hz.
  specialize (Hnn l). assert (0 ≤ counted p) by (by destruct p). constructor; [lia|apply IH; lia].
Qed.

Lemma counted_all l : Z.of_nat (length l) ≤ zsum (counted <$> l) → Forall (λ p, counted p = 1) l.
Proof.
  assert (∀ l, zsum (counted <$> l) ≤ Z.of_nat (length l)) as Hle.
  { clear. induction l as [|p l IH]; [done|]. rewrite fmap_cons, zsum_cons. cbn [length].
    assert (counted p ≤ 1) by (by destruct p). lia. }
  induction l as [|p l IH]; [done|]. rewrite fmap_cons, zsum_cons. cbn [length]. intros Hz.
  specialize (Hle l). assert (counted p ≤ 1) by (by destruct p). constructor; [lia|apply IH; lia].
Qed.

(** Only after [start] a thread is beyond its wait, and then all have announced
    themselves. *)
Lemma after_all s t p :
  main_ok s → threads s !! t = Some p → p ≠ TAbsent → ¬ before_start p → Forall after_start (threads s).
Proof.
  intros Hm Ht Hne Hb. unfold main_ok in Hm.
  assert (∀ P : thread_pc → Prop, Forall P (threads s) → P p) as HF by (intros P HP; by eapply Forall_lookup_1).
  assert (Forall (eq TWait) (threads s) → False) as HW.
  { intros HP. specialize (HF _ HP). by subst p; apply Hb. }
  assert (Forall (eq TDone) (threads s) → Forall after_start (threads s)) as HD.
  { intros HP. eapply Forall_impl; [exact HP|]. by intros q <-. }
  destruct (main_ s); try (exfalso; destruct_and?; by auto); try (destruct_and?; by auto).
  destruct Hm as (_ & _ & _ & Hp). specialize (Hp t p Ht). case_decide; [done|by subst p].
Qed.

(** What a step of a thread is. *)
Lemma thread_step_inv t s s' :
  thread_step t s s' →
  ∃ p q, threads s !! t = Some p ∧ next_pc (start s) p q ∧ (q = TDeinit → running s = 0) ∧
    s' = set_thread t q {| s with running := running s + counted q - counted p |}.
Proof.
  assert (∀ p q, counted q = counted p →
    set_thread t q s = set_thread t q {| s with running := running s + counted q - counted p |}) as Hsame.
  { intros p q ->. destruct s. unfold set_thread. simpl. f_equal. lia. }
  intros [Ht|Ht|Ht Hs|Ht Hs|Ht|Ht Hr|Ht]; eexists _, _; (split; [exact Ht|]).
  - split; [done|]. split; [done|]. by apply Hsame.
  - split; [done|]. split; [done|]. destruct s. unfold set_thread. simpl. f_equal. lia.
  - split; [done|]. split; [done|]. by apply Hsame.
  - split; [done|]. split; [done|]. by apply Hsame.
  - split; [done|]. split; [done|]. destruct s. unfold set_thread. simpl. f_equal. lia.
  - split; [done|]. split; [done|]. by apply Hsame.
  - split; [done|]. split; [done|]. by apply Hsame.
Qed.

Lemma thread_step_ok t s s' : protocol_ok s → thread_step t s s' → protocol_ok s'.
Proof.
  intros (Hlen & Hrun & Hm & Hstop & Hdr) Hstep.
  apply thread_step_inv in Hstep as (p & q & Ht & Hq & Hz & ->).
  split; [by simpl; rewrite length_insert|]. split; [|split; [by apply main_ok_thread with p|split; [done|]]].
  - simpl. rewrite (zsum_fmap_insert _ _ _ p) by done. lia.
  - simpl. intros (t' & p' & Ht' & Hp'). apply list_lookup_insert_Some in Ht' as [(<- & <- & _)|[Hne Ht']].
    + assert (Forall (λ x, drained x) (threads s)) as Hall.
      { destruct Hp' as [->| ->].
        - specialize (Hz eq_refl). rewrite Hz in Hrun. symmetry in Hrun. apply counted_zero in Hrun.
          assert (Forall (λ x, after_start x) (threads s)) as Ha.
          { apply (after_all s t p); [done..| |]; destruct p; simpl in Hq; simpl; first [done|by destruct Hq|tauto]. }
          apply Forall_lookup. intros i x Hx. pose proof (Forall_lookup_1 _ _ _ _ Hrun Hx).
          pose proof (Forall_lookup_1 _ _ _ _ Ha Hx). by destruct x.
        - apply Hdr. exists t, p. split; [done|]. destruct p; simpl in Hq; try done; [by destruct Hq|tauto]. }
      apply Forall_insert; [done|]. by destruct Hp' as [->| ->].
    + assert (Forall (λ x, drained x) (threads s)) as Hall by (apply Hdr; eauto).
      apply Forall_insert; [done|]. pose proof (Forall_lookup_1 _ _ _ _ Hall Ht) as Hpd.
      destruct p; simpl in Hq; subst; try done; by destruct Hq.
Qed.

Lemma timer_step_ok s s' : protocol_ok s → timer_step s s' → protocol_ok s'.
Proof.
  intros (Hlen & Hrun & Hm & Hstop & Hdr) [Ht|Ht];
    (split; [done|]; split; [done|]; split; [|split; [done|exact Hdr]]);
    unfold main_ok in *; simpl; destruct (main_ s); rewrite ?Ht in *; destruct_and?; try congruence; split_and?; try (by auto); intros; by naive_solver.
Qed.

Lemma all_wait s :
  length (threads s) = n → running s = zsum (counted <$> threads s) → Z.of_nat n ≤ running s →
  main_ s = MCreate n → main_ok s → Forall (eq TWait) (threads s).
Proof.
  intros Hlen Hrun Hge Hmain Hm. unfold main_ok in Hm. rewrite Hmain in Hm. destruct Hm as (_ & _ & _ & Hp).
  rewrite Hrun, <-Hlen in Hge. apply counted_all in Hge. apply Forall_lookup. intros t p Ht.
  pose proof (Forall_lookup_1 _ _ _ _ Hge Ht) as Hc. specialize (Hp t p Ht).
  pose proof (lookup_lt_Some _ _ _ Ht). rewrite decide_True in Hp by lia. by destruct p.
Qed.

Lemma wait_after l : Forall (eq TWait) l → Forall (λ p, after_start p) l.
Proof. intros Hl. eapply Forall_impl; [exact Hl|]. by intros p <-. Qed.

Lemma main_step_ok s s' : protocol_ok s → main_step s s' → protocol_ok s'.
Proof.
  intros (Hlen & Hrun & Hm & Hstop & Hdr) Hstep. pose proof Hm as Hm'. unfold main_ok in Hm.
  destruct Hstep as [i Hmain Hi|Hmain Hr|Hmain|Hmain|Hmain|Hmain Hs|Hmain|i Hmain Ht|Hmain|Hmain Ht|Hmain|Hmain];
    rewrite Hmain in Hm.
  - destruct Hm as (_ & Hst & Htm & Hp). destruct (lookup_lt_is_Some_2 (threads s) i) as [p Ht]; [lia|].
    pose proof (Hp i p Ht) as Hpi. rewrite decide_False in Hpi by lia. subst p.
    split; [by simpl; rewrite length_insert|]. split; [cbn [running threads set_main set_thread]; rewrite (zsum_fmap_insert _ _ _ TAbsent) by done; cbn [counted]; lia|].
    split; [|split; [done|]].
    + split_and!; try done. intros t p Ht'.
      apply list_lookup_insert_Some in Ht' as [(<- & <- & _)|[Hne Ht']]; [by rewrite decide_True by lia|].
      specialize (Hp t p Ht'). case_decide; case_decide; done || lia.
    + simpl. intros (t & p & Ht' & Hq). apply list_lookup_insert_Some in Ht' as [(<- & <- & _)|[Hne Ht']]; [by destruct Hq|].
      specialize (Hp t p Ht'). case_decide; destruct Hq; subst; done.
  - pose proof (all_wait s Hlen Hrun Hr Hmain Hm'). destruct Hm as (_ & Hst & Htm & _).
    by repeat (split; [done|]).
  - destruct Hm as (Hst & Htm & Hall). split; [done|]. split; [done|]. split; [done|]. split; [|done].
    simpl. by rewrite Htm.
  - destruct Hm as (Hst & Htm & Hall). by split; [|split; [|split]].
  - destruct Hm as (Hst & Htm & Hs & Hall). split; [done|]. split; [done|]. split; [|by split].
    unfold main_ok. simpl. split_and!; try done. by rewrite Hs.
  - destruct Hm as (Hst & Htm & _ & Hts & Hall). split; [done|]. split; [done|]. split; [|by split].
    unfold main_ok. simpl. split_and!; try done. by apply Hts.
  - destruct Hm as (Hst & Htm & Htc & Hall). split; [done|]. split; [done|]. split; [|by split].
    unfold main_ok. simpl. split_and!; try done; [lia|by apply wait_after|lia].
  - destruct Hm as (Hi & Hst & Htm & Htc & Hall & Hp). split; [done|]. split; [done|]. split; [|by split].
    unfold main_ok. simpl. pose proof (lookup_lt_Some _ _ _ Ht). split_and!; try done; [lia|].
    intros t p Hlt Hl. destruct (decide (t = i)) as [->|]; [congruence|]. apply (Hp t); [lia|done].
  - destruct Hm as (Hi & Hst & Htm & Htc & Hall & Hp). split; [done|]. split; [done|]. split; [|by split].
    unfold main_ok. simpl. split_and!; try done. apply Forall_lookup. intros t p Ht.
    pose proof (lookup_lt_Some _ _ _ Ht). symmetry. by apply (Hp t p); [lia|].
  - destruct Hm as (Hst & Htm & Htc & Hall). by repeat (split; [done|]).
  - destruct Hm as (Hst & Hall). by repeat (split; [done|]).
  - destruct Hm as (Hst & Hall). by repeat (split; [done|]).
Qed.

Lemma initial_ok s : initial s → protocol_ok s.
Proof.
  intros (Hrun & Hst & Htm & Hm & Hths). split; [by rewrite Hths, length_replicate|].
  assert (∀ t p, threads s !! t = Some p → p = TAbsent) as Habs.
  { intros t p Ht. rewrite Hths in Ht. by apply lookup_replicate in Ht as [-> _]. }
  split; [|split; [|split]].
  - rewrite Hrun, Hths. clear. induction n as [|k IH]; [done|]. cbn [replicate]. by rewrite fmap_cons, zsum_cons.
  - unfold main_ok. rewrite Hm. split_and!; [lia|done|done|]. intros t p Ht.
    rewrite decide_False by lia. by apply Habs in Ht.
  - by rewrite Htm.
  - intros (t & p & Ht & Hp). apply Habs in Ht. by destruct Hp; subst.
Qed.

Lemma progress_ok s s' : protocol_ok s → progress s s' → protocol_ok s'.
Proof.
  intros Hs [Hstep|[Hstep|[t Hstep]]]; [by eapply main_step_ok|by eapply timer_step_ok|by eapply thread_step_ok].
Qed.

Lemma reachable_ok s : reachable s → protocol_ok s.
Proof.
  intros (s0 & Hinit & Hrun). apply initial_ok in Hinit. induction Hrun as [s|s s1 s2 [Hstep|[_ ->]] _ IH]; auto.
  by apply IH, (progress_ok s).
Qed.

(** ** Progress *)

Definition thread_rank (p : thread_pc) : Z :=
  match p with
  | TAbsent => 8 | TCreated => 7 | TInited => 6 | TWait => 5 | TLoop => 4
  | TLeave => 3 | TDrain => 2 | TDeinit => 1 | TDone => 0
  end.

Definition timer_rank (p : timer_pc) : Z :=
  match p with TimerAbsent => 3 | TimerCreated => 2 | TimerSleeping => 1 | TimerDone => 0 end.

Definition main_rank (p : main_pc) : Z :=
  match p with
  | MCreate i => 2 * Z.of_nat n + 10 - Z.of_nat i
  | MTimerStop => Z.of_nat n + 9
  | MTimerClear => Z.of_nat n + 8
  | MTimerSpawn => Z.of_nat n + 7
  | MTimerWait => Z.of_nat n + 6
  | MStart => Z.of_nat n + 5
  | MJoin i => Z.of_nat n + 4 - Z.of_nat i
  | MClean => 3
  | MResetStart => 2
  | MResetDone => 1
  | MEnd => 0
  end.

(** How many steps are left, but for the idle ones. *)
Definition steps_left (s : State) : Z :=
  zsum (thread_rank <$> threads s) + timer_rank (timer s) + main_rank (main_ s).

Lemma next_rank started p q : next_pc started p q → thread_rank q = thread_rank p - 1.
Proof. destruct p; simpl; intros; destruct_and?; by subst. Qed.

Lemma progress_left s s' : protocol_ok s → progress s s' → steps_left s' < steps_left s.
Proof.
  intros (Hlen & Hrun & Hm & Hstop & Hdr) Hp. unfold main_ok in Hm.
  destruct Hp as [Hstep|[Hstep|[t Hstep]]].
  - destruct Hstep as [i Hmain Hi|Hmain Hr|Hmain|Hmain|Hmain|Hmain Hs|Hmain|i Hmain Ht|Hmain|Hmain Ht|Hmain|Hmain];
      rewrite Hmain in Hm; unfold steps_left; cbn [timer main_ threads set_main set_thread];
      rewrite Hmain; cbn [main_rank timer_rank]; try lia.
    + destruct Hm as (_ & _ & _ & Hp). destruct (lookup_lt_is_Some_2 (threads s) i) as [p Ht]; [lia|].
      pose proof (Hp i p Ht) as Hpi. rewrite decide_False in Hpi by lia. subst p.
      rewrite (zsum_fmap_insert _ _ _ TAbsent) by done. cbn [thread_rank]. lia.
    + destruct Hm as (_ & -> & _). cbn [timer_rank]. lia.
  - destruct Hstep as [Ht|Ht]; unfold steps_left; simpl; rewrite Ht; simpl; lia.
  - apply thread_step_inv in Hstep as (p & q & Ht & Hq & _ & ->). unfold steps_left. cbn [timer main_ threads set_thread].
    rewrite (zsum_fmap_insert _ _ _ p) by done. rewrite (next_rank _ _ _ Hq). lia.
Qed.

Lemma steps_left_nonneg s : protocol_ok s → 0 ≤ steps_left s.
Proof.
  intros (_ & _ & Hm & _). unfold steps_left.
  assert (0 ≤ zsum (thread_rank <$> threads s)) by (apply zsum_nonneg, Forall_fmap, Forall_true; by intros []).
  assert (0 ≤ timer_rank (timer s)) by (by destruct (timer s)). unfold main_ok in Hm.
  destruct (main_ s); simpl in *; lia.
Qed.

(** A thread that [running] counts goes on after [start]: the timer sees to it. *)
Lemma counted_progress s t p :
  start s = true → timer s ≠ TimerAbsent → timer s ≠ TimerCreated → protocol_ok s →
  threads s !! t = Some p → counted p = 1 → ∃ s', progress s s'.
Proof.
  intros Hst Ht1 Ht2 (_ & _ & _ & Hstop & _) Ht Hc. destruct p; try discriminate Hc.
  - eexists. right. right. exists t. by apply see_start.
  - destruct (timer s) eqn:Htm; try done.
    + eexists. right. left. by apply timer_fires.
    + eexists. right. right. exists t. apply see_stop; auto.
  - eexists. right. right. exists t. by apply leave.
Qed.

Lemma join_progress s i :
  protocol_ok s → main_ s = MJoin i → ∃ s', progress s s'.
Proof.
  intros Hok Hmain. pose proof Hok as (Hlen & Hrun & Hm & _). unfold main_ok in Hm. rewrite Hmain in Hm.
  destruct Hm as (Hi & Hst & Ht1 & Ht2 & Hall & _).
  destruct (decide (i = n)) as [->|]; [eexists; left; by apply set_done|].
  destruct (lookup_lt_is_Some_2 (threads s) i) as [p Ht]; [lia|].
  pose proof (Forall_lookup_1 _ _ _ _ Hall Ht) as Hp.
  assert (∀ s', thread_step i s s' → ∃ s', progress s s') as Hthread by (intros s' H; exists s'; right; right; by exists i).
  destruct p; try done.
  1-3: by apply (counted_progress s i _ Hst Ht1 Ht2 Hok Ht).
  - destruct (decide (running s = 0)) as [|Hz]; [by eapply Hthread, see_drained|].
    assert (∃ t q, threads s !! t = Some q ∧ counted q = 1) as (t & q & Hq & Hc).
    { assert (¬ Forall (λ p, counted p = 0) (threads s)) as Hex.
      { intros HF. apply Hz. rewrite Hrun. clear -HF. induction HF as [|p l Hp _ IH]; [done|].
        by rewrite fmap_cons, zsum_cons, Hp, IH. }
      apply not_Forall_Exists in Hex; [|intros x; by apply _]. apply Exists_exists in Hex as (q & Hin & Hq).
      apply list_elem_of_lookup in Hin as [t Hin]. exists t, q. split; [done|]. destruct q; try done; by destruct Hq. }
    by apply (counted_progress s t q).
  - by eapply Hthread, deinit_thread.
  - eexists. left. by apply (join s i).
Qed.

Lemma create_progress s i :
  protocol_ok s → main_ s = MCreate i → ∃ s', progress s s'.
Proof.
  intros Hok Hmain. pose proof Hok as (Hlen & Hrun & Hm & _). unfold main_ok in Hm. rewrite Hmain in Hm.
  destruct Hm as (Hi & Hst & _ & Hp).
  destruct (decide (i = n)) as [->|]; [|eexists; left; apply (create s i); [done|lia]].
  destruct (decide (Forall (λ p, p = TWait) (threads s))) as [Hall|Hex].
  - eexists. left. apply see_running; [done|]. rewrite Hrun, <-Hlen. clear -Hall.
    induction Hall as [|p l -> _ IH]; [done|]. rewrite fmap_cons, zsum_cons. cbn [length counted]. lia.
  - apply not_Forall_Exists in Hex; [|intros x; by apply _]. apply Exists_exists in Hex as (q & Hin & Hq).
    apply list_elem_of_lookup in Hin as [t Ht]. specialize (Hp t q Ht).
    pose proof (lookup_lt_Some _ _ _ Ht). rewrite decide_True in Hp by lia.
    destruct q; try done; [| |by destruct Hq]; eexists; right; right; exists t; [by apply init_thread|by apply announce].
Qed.

Lemma can_progress s : protocol_ok s → main_ s ≠ MEnd → ∃ s', progress s s'.
Proof.
  intros Hok Hend. destruct (main_ s) as [i| | | | | |i| | | |] eqn:Hmain;
    [by eapply create_progress| | | | | |by eapply join_progress| | | |done];
    pose proof Hok as (_ & _ & Hm & _); unfold main_ok in Hm; rewrite Hmain in Hm.
  - eexists. left. by apply clear_stop.
  - eexists. left. by apply clear_started.
  - eexists. left. by apply spawn_timer.
  - destruct Hm as (_ & _ & Hs & _). destruct (is_started_ s) eqn:Hst.
    + eexists. left. by apply see_started.
    + eexists. right. left. apply timer_starts. auto.
  - eexists. left. by apply set_start.
  - destruct Hm as (_ & Ht1 & Ht2 & _). destruct (timer s) eqn:Htm; try done.
    + eexists. right. left. by apply timer_fires.
    + eexists. left. by apply join_timer.
  - eexists. left. by apply reset_start.
  - eexists. left. by apply reset_done.
Qed.

Lemma ends s : protocol_ok s → ∃ s', rtc progress s s' ∧ main_ s' = MEnd.
Proof.
  intros Hok. pose proof (steps_left_nonneg s Hok) as Hnn. revert Hok.
  remember (Z.to_nat (steps_left s)) as k eqn:Hk. revert s Hnn Hk.
  induction k as [k IH] using lt_wf_ind. intros s Hnn -> Hok.
  destruct (decide (main_ s = MEnd)) as [He|Hne]; [by exists s|].
  destruct (can_progress s Hok Hne) as [s1 Hs1].
  pose proof (progress_left s s1 Hok Hs1). pose proof (progress_ok s s1 Hok Hs1) as Hok1.
  pose proof (steps_left_nonneg s1 Hok1).
  destruct (IH (Z.to_nat (steps_left s1)) ltac:(lia) s1 ltac:(lia) eq_refl Hok1) as (s' & Hrun & He).
  exists s'. split; [by eapply rtc_l|done].
Qed.

Lemma bounded s s' k : protocol_ok s → nsteps progress k s s' → Z.of_nat k ≤ steps_left s.
Proof.
  intros Hok Hrun. induction Hrun as [s|k s s1 s2 Hstep _ IH]; [by apply steps_left_nonneg|].
  pose proof (progress_left s s1 Hok Hstep). specialize (IH (progress_ok s s1 Hok Hstep)). lia.
Qed.

End Protocol.

(** ** Properties *)

(** C33. Start and end of a stage, for any number of threads and every interleaving.
    While a thread is in its loop, all threads have initialised themselves in the data
    structure, none has left it, and the timer has been started; once a thread has
    de-initialised itself no thread is in its loop again. When [execute] returns, all
    threads have ended, and [running] and [start] are as the next stage needs them. *)
Theorem stage_protocol_safe n s :
  reachable n s →
  (∀ t, threads s !! t = Some TLoop →
     length (threads s) = n ∧ start s = true ∧ (timer s = TimerSleeping ∨ timer s = TimerDone) ∧
     Forall (λ p, p = TWait ∨ p = TLoop ∨ p = TLeave ∨ p = TDrain) (threads s)) ∧
  (∀ t p, threads s !! t = Some p → p = TDeinit ∨ p = TDone → Forall (λ p, drained p) (threads s)) ∧
  (main_ s = MEnd → running s = 0 ∧ start s = false ∧ threads s = replicate n TDone).
Proof.
  intros Hs. apply reachable_ok in Hs as (Hlen & Hrun & Hm & Hstop & Hdr). split_and!.
  - intros t Ht. pose proof (after_all n s t TLoop Hm Ht ltac:(done) ltac:(simpl; tauto)) as Hall.
    assert (start s = true ∧ (timer s = TimerSleeping ∨ timer s = TimerDone)) as [Hst Htm].
    { unfold main_ok in Hm.
      assert (∀ P : thread_pc → Prop, Forall P (threads s) → P TLoop) as HF by (intros P HP; by eapply Forall_lookup_1).
      destruct (main_ s) as [i| | | | | |i| | | |]; destruct_and?;
        try (exfalso; match goal with HP : Forall (eq _) _ |- _ => apply HF in HP; discriminate HP end).
      - match goal with Hp : ∀ t p, _ |- _ => specialize (Hp t TLoop Ht) end. by case_decide.
      - split; [done|]. destruct (timer s); auto; done. }
    split_and!; try done. apply Forall_lookup. intros t' p Hp.
    pose proof (Forall_lookup_1 _ _ _ _ Hall Hp) as Ha.
    destruct p; try done; auto; exfalso.
    + by pose proof (Forall_lookup_1 _ _ _ _ (Hdr ltac:(by exists t', TDeinit; auto)) Ht).
    + by pose proof (Forall_lookup_1 _ _ _ _ (Hdr ltac:(by exists t', TDone; auto)) Ht).
  - intros t p Ht Hp. apply Hdr. by exists t, p.
  - intros Hend. unfold main_ok in Hm. rewrite Hend in Hm. destruct Hm as [Hst Hall].
    assert (threads s = replicate n TDone) as Hths.
    { symmetry. by apply replicate_as_Forall. }
    split; [|by split]. rewrite Hrun, Hths. clear. induction n as [|k IH]; [done|]. cbn [replicate].
    by rewrite fmap_cons, zsum_cons, IH.
Qed.

(** C34. A stage always ends: from every reachable state [execute] can return, it never
    waits for something that cannot happen any more, and every schedule has at most
    [10 n + 13] steps besides the rounds of the waiting loops and the operations of
    the threads. *)
Theorem stage_protocol_live n s :
  reachable n s →
  (main_ s = MEnd ∨ ∃ s', progress n s s') ∧
  (∃ s', rtc (progress n) s s' ∧ main_ s' = MEnd) ∧
  (∀ s' k, nsteps (progress n) k s s' → Z.of_nat k ≤ 10 * Z.of_nat n + 13).
Proof.
  intros Hs. pose proof (reachable_ok n s Hs) as Hok. split_and!.
  - destruct (decide (main_ s = MEnd)); [by left|right]. by apply can_progress.
  - by apply ends.
  - intros s' k Hk. pose proof (bounded n s s' k Hok Hk) as Hb.
    enough (steps_left n s ≤ 10 * Z.of_nat n + 13) by lia.
    destruct Hs as (s0 & Hinit & Hrun). transitivity (steps_left n s0).
    + apply initial_ok in Hinit. clear -Hinit Hrun. induction Hrun as [|s s1 s2 [Hstep|[_ ->]] _ IH]; [done| |by apply IH].
      pose proof (progress_left n s s1 Hinit Hstep). specialize (IH (progress_ok n s s1 Hinit Hstep)). lia.
    + destruct Hinit as (_ & _ & Htm & Hm & Hths). unfold steps_left. rewrite Htm, Hm, Hths.
      cbn [timer_rank main_rank]. clear. enough (zsum (thread_rank <$> replicate n TAbsent) = 8 * Z.of_nat n) by lia.
      induction n as [|k IH]; [done|]. cbn [replicate]. rewrite fmap_cons, zsum_cons, IH. cbn [thread_rank]. lia.
Qed.

Definition example_initial : State := {|
  running := 0; start := false; done_ := false; stop_ := true; is_started_ := false;
  timer := TimerAbsent; main_ := MCreate 0; threads := [TAbsent]
|}.

(** One thread in its loop while the timer sleeps. *)
Definition example_loop : State := {|
  running := 1; start := true; done_ := false; stop_ := false; is_started_ := true;
  timer := TimerSleeping; main_ := MJoin 0; threads := [TLoop]
|}.

Ltac compute_state :=
  match goal with |- rtc _ ?s _ => let s' := eval vm_compute in s in change s with s' end.
Ltac main_does c := eapply rtc_l; [left; left; by eapply c; simpl; done || lia|]; compute_state.
Ltac thread_does c := eapply rtc_l; [left; right; right; exists 0%nat; by eapply c|]; compute_state.

Lemma example_reachable : reachable 1 example_loop.
Proof.
  exists example_initial. split; [done|]. main_does create. thread_does init_thread. thread_does announce.
  main_does see_running. main_does clear_stop. main_does clear_started. main_does spawn_timer.
  eapply rtc_l; [left; right; left; by eapply timer_starts|]; compute_state.
  main_does see_started. main_does set_start. thread_does see_start. apply rtc_refl.
Qed.

Lemma stage_protocol_safe_witness :
  reachable 1 example_loop ∧ start example_loop = true ∧ Forall (λ p, p = TLoop) (threads example_loop).
Proof.
  split; [apply example_reachable|].
  destruct (stage_protocol_safe 1 example_loop example_reachable) as (H & _ & _).
  destruct (H 0%nat eq_refl) as (_ & Hst & _ & _). split; [done|by repeat constructor].
Defined.

Lemma stage_protocol_live_witness :
  reachable 1 example_loop ∧ ∃ s', rtc (progress 1) example_loop s' ∧ main_ s' = MEnd.
Proof.
  split; [apply example_reachable|]. apply (stage_protocol_live 1 example_loop example_reachable).
Defined.
