(* ===== verification/Heap.v ===== *)
(** A heap of nodes and computations on it.

    The search trees of [Benchmark-v700/cpp/gsat] that link their nodes in both
    directions are modelled on a heap: a pointer is an address or null, a node is a
    record, and a computation reads, changes, allocates and frees nodes. An access
    through a null or dangling pointer is undefined behaviour. *)
From S2P Require Import Distributions Prelude.

(** [nullptr] is [None]. *)
Definition ptr : Type := option positive.

Abbreviation heap := (gmap positive).

Definition hp (N A : Type) : Type := heap N → res (A * heap N).

#[export] Instance hp_ret N : MRet (hp N) := λ A a h, Ok (a, h).
#[export] Instance hp_bind N : MBind (hp N) := λ A B f p h,
  match p h with
  | Ok (a, h) => f a h
  | SetbenchError => SetbenchError
  | Undefined => Undefined
  | OutOfFuel => OutOfFuel
  end.

Section Heap.
  Context {N : Type}.
  Implicit Types (h : heap N) (p : ptr) (l : positive).

(** [*p], [*p = n], [new N(...)] and [delete p]. *)
Definition load p : hp N N := λ h,
  match p with
  | Some l => match h !! l with Some n => Ok (n, h) | None => Undefined end
  | None => Undefined
  end.

Definition store p (n : N) : hp N () := λ h,
  match p with
  | Some l => match h !! l with Some _ => Ok ((), <[l := n]> h) | None => Undefined end
  | None => Undefined
  end.

Definition alloc (n : N) : hp N ptr := λ h,
  let l := fresh (dom h) in Ok (Some l, <[l := n]> h).

Definition free p : hp N () := λ h,
  match p with
  | Some l => match h !! l with Some _ => Ok ((), delete l h) | None => Undefined end
  | None => Undefined
  end.

(** [p->field = ...] as a function on the node. *)
Definition modify p (f : N → N) : hp N () := n ← load p; store p (f n).

(** [while (cond) body], at most [n] rounds. *)
Fixpoint hp_while_n {S : Type} (n : nat) (cond : S → hp N bool) (body : S → hp N S) (s : S) : hp N S :=
  b ← cond s;
  if (b : bool) then
    match n with
    | O => λ _, OutOfFuel
    | Datatypes.S n' => s ← body s; hp_while_n n' cond body s
    end
  else mret s.

(** The loops on trees go one level up or down in a round: the number of nodes is
    enough. *)
Definition hp_while {S : Type} (cond : S → hp N bool) (body : S → hp N S) (s : S) : hp N S :=
  λ h, hp_while_n (size h) cond body s h.

(** ** Their results *)

Lemma load_ok l h n : h !! l = Some n → load (Some l) h = Ok (n, h).
Proof. intros Hl. unfold load. by rewrite Hl. Qed.

Lemma modify_ok l h n f : h !! l = Some n → modify (Some l) f h = Ok ((), <[l := f n]> h).
Proof. intros Hl. unfold modify, mbind, hp_bind. rewrite (load_ok _ _ _ Hl). unfold store. by rewrite Hl. Qed.

Lemma free_ok l h n : h !! l = Some n → free (Some l) h = Ok ((), delete l h).
Proof. intros Hl. unfold free. by rewrite Hl. Qed.

Lemma hp_bind_ok {A B : Type} (p : hp N A) (f : A → hp N B) h a h' :
  p h = Ok (a, h') → (p ≫= f) h = f a h'.
Proof. intros Hp. unfold mbind, hp_bind. by rewrite Hp. Qed.

Lemma hp_while_n_done {S : Type} n (cond : S → hp N bool) (body : S → hp N S) s h :
  cond s h = Ok (false, h) → hp_while_n n cond body s h = Ok (s, h).
Proof. intros Hc. destruct n; simpl; by rewrite (hp_bind_ok _ _ _ _ _ Hc). Qed.

Lemma hp_while_n_round {S : Type} n (cond : S → hp N bool) (body : S → hp N S) s h s' h' :
  cond s h = Ok (true, h) → body s h = Ok (s', h') →
  hp_while_n (Datatypes.S n) cond body s h = hp_while_n n cond body s' h'.
Proof. intros Hc Hb. simpl. rewrite (hp_bind_ok _ _ _ _ _ Hc). by rewrite (hp_bind_ok _ _ _ _ _ Hb). Qed.

(** The nodes outside of [ls] are the same. *)
Definition agree_off (ls : list positive) h h' : Prop := ∀ l, l ∉ ls → h' !! l = h !! l.

Lemma agree_off_refl ls h : agree_off ls h h.
Proof. done. Qed.

Lemma agree_off_trans ls h1 h2 h3 : agree_off ls h1 h2 → agree_off ls h2 h3 → agree_off ls h1 h3.
Proof. intros H1 H2 l Hl. by rewrite H2, H1. Qed.

Lemma agree_off_weaken ls ls' h h' : ls ⊆ ls' → agree_off ls h h' → agree_off ls' h h'.
Proof. intros Hsub Ha l Hl. apply Ha. intros Hin. apply Hl, Hsub, Hin. Qed.

Lemma agree_off_insert ls h h' l n : l ∈ ls → agree_off ls h h' → agree_off ls h (<[l := n]> h').
Proof. intros Hl Ha l' Hl'. rewrite lookup_insert_ne by (intros ->; done). by apply Ha. Qed.

End Heap.

#[export] Hint Resolve agree_off_refl agree_off_insert : core.

(** Lookups in a heap of writes. *)
Ltac hp_lookup :=
  match goal with
  | H : @lookup _ _ _ _ _ _ = Some _ |- _ => rewrite H
  | |- context [(<[_:=_]> _) !! _] => rewrite lookup_insert_eq || rewrite lookup_insert_ne by done
  | |- context [(delete _ _) !! _] => rewrite lookup_delete_eq || rewrite lookup_delete_ne by done
  end.

Ltac in_solver := repeat (apply agree_off_insert; [set_solver|]); apply agree_off_refl.
