(* ===== verification/Assoc.v ===== *)
(** Sorted lists of keys with values.

    The keys of a search tree from left to right, with their values, are such a list.
    A tree holds the finite map [list_to_map] of it; this file has what the insertion
    and the removal of a key do to the list and to the map, and the binary search
    that the trees use in a node. *)
From stdpp Require Import sorting.
From S2P Require Import Prelude.

Ltac app_norm := repeat (progress (rewrite <-?app_assoc; simpl)).

(** ** Sorted association lists *)

Section Assoc.
  Context {V : Type}.
  Implicit Types (l : list (Z * V)) (k : Z) (v : V).

Abbreviation to_map l := (list_to_map l : gmap Z V).

Definition ksorted l : Prop := StronglySorted Z.lt l.*1.

Definition below k l : Prop := ∀ k', k' ∈ l.*1 → k' < k.
Definition above k l : Prop := ∀ k', k' ∈ l.*1 → k < k'.

Lemma ksorted_nil : ksorted [].
Proof. constructor. Qed.

Lemma below_app k l1 l2 : below k (l1 ++ l2) ↔ below k l1 ∧ below k l2.
Proof. unfold below. rewrite fmap_app. set_solver. Qed.

Lemma above_app k l1 l2 : above k (l1 ++ l2) ↔ above k l1 ∧ above k l2.
Proof. unfold above. rewrite fmap_app. set_solver. Qed.

Lemma below_cons k k' v l : below k ((k', v) :: l) ↔ k' < k ∧ below k l.
Proof. unfold below. simpl. set_solver. Qed.

Lemma above_cons k k' v l : above k ((k', v) :: l) ↔ k < k' ∧ above k l.
Proof. unfold above. simpl. set_solver. Qed.

Lemma below_nil k : below k [].
Proof. unfold below. simpl. set_solver. Qed.

Lemma above_nil k : above k [].
Proof. unfold above. simpl. set_solver. Qed.

Lemma below_le k k' l : below k l → k ≤ k' → below k' l.
Proof. intros Hb Hle x Hx. specialize (Hb x Hx). lia. Qed.

Lemma above_le k k' l : above k l → k' ≤ k → above k' l.
Proof. intros Hb Hle x Hx. specialize (Hb x Hx). lia. Qed.

Lemma ksorted_cons k v l : ksorted ((k, v) :: l) ↔ above k l ∧ ksorted l.
Proof.
  unfold ksorted, above. simpl. split.
  - intros H. apply StronglySorted_inv in H as [Hs Hf]. rewrite Forall_forall in Hf. done.
  - intros [Ha Hs]. constructor; [done|]. by apply Forall_forall.
Qed.

Lemma ksorted_app l1 l2 :
  ksorted (l1 ++ l2) ↔ ksorted l1 ∧ ksorted l2 ∧ (∀ k1 k2, k1 ∈ l1.*1 → k2 ∈ l2.*1 → k1 < k2).
Proof.
  induction l1 as [|[k v] l1 IH]; simpl.
  - split; [intros Hs; split_and!; [apply ksorted_nil|done|set_solver]|tauto].
  - rewrite !ksorted_cons, IH, above_app. unfold above. split.
    + intros ((Ha1 & Ha2) & H1 & H2 & H12). split_and!; [done..|]. set_solver.
    + intros ((Ha & H1) & H2 & H12). split_and!; set_solver.
Qed.

Lemma ksorted_middle l1 k v l2 :
  ksorted (l1 ++ (k, v) :: l2) ↔ ksorted l1 ∧ ksorted l2 ∧ below k l1 ∧ above k l2.
Proof.
  rewrite ksorted_app, ksorted_cons. simpl. split.
  - intros (H1 & (H2 & H3) & H12). split_and!; [done..| |done]. intros x Hx. apply H12; [done|left].
  - intros (H1 & H2 & H3 & H4). split_and!; [done..|]. intros k1 k2 Hk1 Hk2.
    specialize (H3 k1 Hk1). apply elem_of_cons in Hk2 as [->|Hk2]; [done|]. specialize (H4 k2 Hk2). lia.
Qed.

(** A key between two parts can be put there, and taken away. *)
Lemma ksorted_insert l1 k v l2 :
  ksorted (l1 ++ l2) → below k l1 → above k l2 → ksorted (l1 ++ (k, v) :: l2).
Proof. rewrite ksorted_middle, ksorted_app. tauto. Qed.

Lemma ksorted_remove l1 x l2 : ksorted (l1 ++ x :: l2) → ksorted (l1 ++ l2).
Proof.
  destruct x as [k v]. rewrite ksorted_middle, ksorted_app. intros (H1 & H2 & H3 & H4). split_and!; [done..|].
  intros k1 k2 Hk1 Hk2. specialize (H3 k1 Hk1). specialize (H4 k2 Hk2). lia.
Qed.

Lemma ksorted_nodup l : ksorted l → NoDup l.*1.
Proof.
  induction l as [|[k v] l IH]; simpl; [constructor|]. rewrite ksorted_cons. intros [Ha Hs].
  constructor; [|by apply IH]. intros Hin. specialize (Ha k Hin). lia.
Qed.

(** The greatest key is last, the smallest first. *)
Lemma above_last l1 k v l2 l v' : above k l2 → l1 ++ (k, v) :: l2 = l ++ [(k, v')] → l2 = [].
Proof.
  destruct l2 as [|x l2 _] using rev_ind; [done|]. intros Ha Heq. exfalso.
  rewrite app_comm_cons, app_assoc in Heq. apply app_inj_tail in Heq as [_ ->].
  rewrite above_app, above_cons in Ha. lia.
Qed.

Lemma below_first l1 k v l2 l v' : below k l1 → l1 ++ (k, v) :: l2 = (k, v') :: l → l1 = [].
Proof. destruct l1 as [|[k1 v1] l1]; [done|]. rewrite below_cons. intros [? _] [= -> _ _]. lia. Qed.

(** ** The map of a list *)

Lemma to_map_absent l1 k l2 : below k l1 → above k l2 → to_map (l1 ++ l2) !! k = None.
Proof.
  intros Hb Ha. apply not_elem_of_list_to_map_1. rewrite fmap_app, elem_of_app.
  intros [Hk|Hk]; [specialize (Hb k Hk)|specialize (Ha k Hk)]; lia.
Qed.

Lemma to_map_insert l1 k v l2 : below k l1 → to_map (l1 ++ (k, v) :: l2) = <[k := v]> (to_map (l1 ++ l2)).
Proof.
  induction l1 as [|[k' v'] l1 IH]; simpl; [done|]. rewrite below_cons. intros [Hk Hb].
  rewrite IH by done. rewrite insert_insert_ne by lia. done.
Qed.

Lemma to_map_found l1 k v l2 : below k l1 → to_map (l1 ++ (k, v) :: l2) !! k = Some v.
Proof. intros Hb. rewrite to_map_insert by done. apply lookup_insert_eq. Qed.

Lemma to_map_remove l1 k v l2 : ksorted (l1 ++ (k, v) :: l2) →
  to_map (l1 ++ l2) = delete k (to_map (l1 ++ (k, v) :: l2)).
Proof.
  rewrite ksorted_middle. intros (_ & _ & Hb & Ha). rewrite to_map_insert by done.
  rewrite delete_insert_id; [done|by apply to_map_absent].
Qed.

(** A key that is not outside of the middle. *)
Lemma to_map_child l1 l2 l3 k : below k l1 → above k l3 → to_map (l1 ++ l2 ++ l3) !! k = to_map l2 !! k.
Proof.
  intros Hb Ha. rewrite !list_to_map_app.
  assert (to_map l1 !! k = None) as H1 by (apply not_elem_of_list_to_map_1; intros Hk; specialize (Hb k Hk); lia).
  assert (to_map l3 !! k = None) as H3 by (apply not_elem_of_list_to_map_1; intros Hk; specialize (Ha k Hk); lia).
  by rewrite lookup_union_r, lookup_union_l.
Qed.

(** Another value for the same key. *)
Lemma to_map_replace l1 k v v' l2 : below k l1 →
  to_map (l1 ++ (k, v') :: l2) = <[k := v']> (to_map (l1 ++ (k, v) :: l2)).
Proof. intros Hb. by rewrite !to_map_insert, insert_insert_eq. Qed.

Lemma ksorted_keys l l' : l.*1 = l'.*1 → ksorted l → ksorted l'.
Proof. unfold ksorted. by intros ->. Qed.

Lemma to_map_dom l : dom (to_map l) = list_to_set l.*1.
Proof. apply dom_list_to_map_L. Qed.

End Assoc.

Abbreviation to_map l := (list_to_map l : gmap Z _).

(** ** Insertion of an absent key *)

Definition inserted {V : Type} (k : Z) (v : V) (m : gmap Z V) : gmap Z V :=
  if m !! k is Some _ then m else <[k := v]> m.

(** ** Binary search

    [while (r - l > 1) { m = (l + r) >> 1; if (rep[m] < key) l = m; else r = m; }
    return r]: the interval halves, so its length is enough fuel. *)

Fixpoint bsearch_n (fuel : nat) (rep : list Z) (key l r : Z) : Z :=
  match fuel with
  | O => r
  | S fuel =>
      if 1 <? r - l then
        let m := Z.shiftr (l + r) 1 in
        if rep.[m] <? key then bsearch_n fuel rep key m r else bsearch_n fuel rep key l m
      else r
  end.

Definition bsearch (rep : list Z) (key l r : Z) : Z := bsearch_n (Z.to_nat (r - l)) rep key l r.

(** [r] is the first index with a key that is not smaller. *)
Definition first_ge (rep : list Z) (key size r : Z) : Prop :=
  0 ≤ r ≤ size ∧ (∀ i, 0 ≤ i < r → rep.[i] < key) ∧ (∀ i, r ≤ i < size → key ≤ rep.[i]).

Lemma bsearch_correct rep key size l r :
  (∀ i j, 0 ≤ i ≤ j → j < size → rep.[i] ≤ rep.[j]) → -1 ≤ l < r → r ≤ size →
  (∀ i, 0 ≤ i ≤ l → rep.[i] < key) → (∀ i, r ≤ i < size → key ≤ rep.[i]) →
  first_ge rep key size (bsearch rep key l r).
Proof.
  intros Hmono. unfold bsearch. assert (Z.to_nat (r - l) ≤ Z.to_nat (r - l))%nat as Hfuel by lia.
  revert Hfuel. generalize (Z.to_nat (r - l)) at 2 3 as n. intros n. revert l r.
  induction n as [|n IH]; intros l r Hn Hlr Hr Hlo Hhi; simpl.
  - lia.
  - destruct (Z.ltb_spec 1 (r - l)).
    + rewrite Z.shiftr_div_pow2 by lia. change (2 ^ 1) with 2.
      pose proof (Z.div_mod (l + r) 2 ltac:(lia)). pose proof (Z.mod_pos_bound (l + r) 2 ltac:(lia)).
      set (m := (l + r) / 2) in *. destruct (Z.ltb_spec (rep.[m]) key).
      * apply IH; [lia..| |done]. intros i Hi. pose proof (Hmono i m). lia.
      * apply IH; [lia..|done|]. intros i Hi. pose proof (Hmono m i). lia.
    + split; [lia|]. split; [|done]. intros i Hi. apply Hlo. lia.
Qed.
