(* ===== verification/SplayTree.v ===== *)
(** The splay tree of SetBench
    ([Benchmark-v700/cpp/gsat/ds/splay_tree/splay_tree.h] and [splay_node.h]).

    The nodes are on a heap and point to their children and to their parent; every
    operation moves the node it ends at to the root by rotations. A method takes the
    member [root_] and returns its new value. [SplayLaws] proves them correct. *)
From S2P Require Import Distributions Heap Prelude.

(** ** Nodes *)

Record SplayNode (V : Type) := {
  key : Z;
  value : V;
  left : ptr;
  right : ptr;
  parent : ptr
}.
Arguments key {V}. Arguments value {V}. Arguments left {V}. Arguments right {V}. Arguments parent {V}.

Section SplayTree.
  Context {V : Type} `{EqDecision V}.
  Variable no_value_ : V.

Abbreviation Node := (SplayNode V).
Abbreviation hp := (hp Node).

(** [SplayNode(key, value)]. *)
Definition SplayNode_make (k : Z) (v : V) : Node :=
  {| key := k; value := v; left := None; right := None; parent := None |}.

Definition GetLeft (node : ptr) : hp ptr :=
  if node is Some _ then n ← load node; mret (left n) else mret None.

Definition GetRight (node : ptr) : hp ptr :=
  if node is Some _ then n ← load node; mret (right n) else mret None.

Definition GetParent (node : ptr) : hp ptr :=
  if node is Some _ then n ← load node; mret (parent n) else mret None.

Definition SetParent (node p : ptr) : hp () :=
  if node is Some _ then modify node (λ n, {| n with parent := p |}) else mret ().

Definition SetLeft (node l : ptr) : hp () :=
  (if node is Some _ then modify node (λ n, {| n with left := l |}) else mret ());;
  SetParent l node.

Definition SetRight (node r : ptr) : hp () :=
  (if node is Some _ then modify node (λ n, {| n with right := r |}) else mret ());;
  SetParent r node.

(** ** Rotations *)

Definition UpdateParents (p node : ptr) : hp () :=
  grand_parent ← GetParent p;
  r ← GetRight grand_parent;
  (if bool_decide (r = p) then SetRight grand_parent node else SetLeft grand_parent node);;
  SetParent p node.

Definition RotateRight (node : ptr) : hp () :=
  n ← load node;
  let p := parent n in
  UpdateParents p node;;
  n ← load node;
  SetLeft p (right n);;
  SetRight node p.

Definition RotateLeft (node : ptr) : hp () :=
  n ← load node;
  let p := parent n in
  UpdateParents p node;;
  n ← load node;
  SetRight p (left n);;
  SetLeft node p.

(** The body of the loop of [Splay]. *)
Definition splay_round (node : ptr) : hp () :=
  n ← load node;
  let p := parent n in
  grand_parent ← GetParent p;
  pn ← load p;
  match grand_parent with
  | Some _ =>
      g ← load grand_parent;
      if bool_decide (right pn = node) then
        if bool_decide (right g = p) then RotateLeft p;; RotateLeft node
        else RotateLeft node;; RotateRight node
      else
        if bool_decide (left g = p) then RotateRight p;; RotateRight node
        else RotateRight node;; RotateLeft node
  | None => if bool_decide (right pn = node) then RotateLeft node else RotateRight node
  end.

Definition Splay (node : ptr) : hp () :=
  hp_while (λ _, p ← GetParent node; mret (bool_decide (p ≠ None))) (λ _, splay_round node) ().

(** ** Walks *)

Definition Min (node : ptr) : hp ptr :=
  hp_while (λ node, n ← load node; mret (bool_decide (left n ≠ None))) (λ node, n ← load node; mret (left n)) node.

Definition Max (node : ptr) : hp ptr :=
  hp_while (λ node, n ← load node; mret (bool_decide (right n ≠ None))) (λ node, n ← load node; mret (right n)) node.

(** The pair of the node and its parent. *)
Definition FindNodeAndParent (root_ : ptr) (k : Z) : hp (ptr * ptr) :=
  hp_while
    (λ '((node, _) : ptr * ptr), if node is Some _ then n ← load node; mret (bool_decide (key n ≠ k)) else mret false)
    (λ '(node, _), n ← load node; mret (if k <? key n then left n else right n, node))
    (root_, None).

(** The new [root_]. *)
Definition AddNode (root_ p node : ptr) : hp ptr :=
  match p with
  | Some _ =>
      n ← load node; pn ← load p;
      (if key n <? key pn then SetLeft p node else SetRight p node);;
      mret root_
  | None => mret node
  end.

Definition SplayAssign (node : ptr) : hp ptr := Splay node;; mret node.

(** ** Methods *)

(** The returned value, and the new [root_]. *)
Definition Find (k : Z) (root_ : ptr) : hp (V * ptr) :=
  '(node, p) ← FindNodeAndParent root_ k;
  match node with
  | Some _ => root_ ← SplayAssign node; n ← load node; mret (value n, root_)
  | None => root_ ← SplayAssign p; mret (no_value_, root_)
  end.

Definition Contains (k : Z) (root_ : ptr) : hp (bool * ptr) :=
  '(v, root_) ← Find k root_;
  mret (bool_decide (v ≠ no_value_), root_).

Definition Insert (k : Z) (v : V) (root_ : ptr) : hp (V * ptr) :=
  '(node, p) ← FindNodeAndParent root_ k;
  match node with
  | Some _ => n ← load node; root_ ← SplayAssign node; mret (value n, root_)
  | None =>
      node ← alloc (SplayNode_make k v);
      root_ ← AddNode root_ p node;
      root_ ← SplayAssign node;
      mret (no_value_, root_)
  end.

(** [Delete] after it has freed the node: the root of what is left. *)
Definition join_children (l r : ptr) : hp ptr :=
  match l with
  | Some _ =>
      SetParent l None;;
      new_root ← Max l; Splay new_root;; SetRight new_root r;; mret new_root
  | None =>
      match r with
      | Some _ =>
          SetParent r None;;
          new_root ← Min r; Splay new_root;; SetLeft new_root l;; mret new_root
      | None => mret None
      end
  end.

Definition Delete (k : Z) (root_ : ptr) : hp (V * ptr) :=
  '(node, p) ← FindNodeAndParent root_ k;
  match node with
  | None => root_ ← SplayAssign p; mret (no_value_, root_)
  | Some _ =>
      Splay node;;
      n ← load node;
      free node;;
      new_root ← join_children (left n) (right n);
      mret (value n, new_root)
  end.

(** ** The whole tree

    [Validate] returns [false] when a check throws; the fuel of the recursions is
    the number of nodes. *)

Fixpoint validate_n (fuel : nat) (node : ptr) (lo hi : option Z) : hp bool :=
  match node with
  | None => mret true
  | Some _ =>
      match fuel with
      | O => λ _, OutOfFuel
      | S fuel =>
          n ← load node;
          if (if lo is Some lo then lo <? key n else true) &&
             (if hi is Some hi then key n <? hi else true) && bool_decide (value n ≠ no_value_)
          then
            b ← validate_n fuel (left n) lo (Some (key n));
            if (b : bool) then validate_n fuel (right n) (Some (key n)) hi else mret false
          else mret false
      end
  end.

Definition Validate (root_ : ptr) : hp bool := λ h, validate_n (size h) root_ None None h.

Fixpoint free_n (fuel : nat) (node : ptr) : hp () :=
  match node with
  | None => mret ()
  | Some _ =>
      match fuel with
      | O => λ _, OutOfFuel
      | S fuel => n ← load node; free_n fuel (left n);; free_n fuel (right n);; free node
      end
  end.

(** [~SplayTree()]. *)
Definition Free (root_ : ptr) : hp () := λ h, free_n (size h) root_ h.

End SplayTree.

(** ** An execution *)

Definition example_run : res (list (option Z) * heap (SplayNode (option Z))) :=
  (λ p : hp (SplayNode (option Z)) _, p ∅) (
    '(a, root) ← Insert None 5 (Some 50) None;
    '(b, root) ← Insert None 3 (Some 30) root;
    '(c, root) ← Insert None 8 (Some 80) root;
    '(d, root) ← Insert None 3 (Some 31) root;
    '(e, root) ← Find None 8 root;
    '(f, root) ← Delete None 5 root;
    '(g, root) ← Find None 5 root;
    ok ← Validate None root;
    Free root;;
    mret [a; b; c; d; e; f; g; if (ok : bool) then Some 1 else None]).

Example example_run_result :
  example_run = Ok ([None; None; None; Some 30; Some 80; Some 50; None; Some 1], ∅).
Proof. vm_compute. reflexivity. Qed.
