(* ===== verification/SplayLaws.v ===== *)
(** Rotations and splaying on the heap.

    A tree with the addresses of its nodes describes a part of the heap ([shape]).
    Rotations are proved on a tree in a context, the path from the node to the root;
    splaying repeats them, ends, and keeps the keys in order. [SplayMap] proves the
    methods with it. *)
From S2P Require Import Distributions Assoc Heap SplayTree Prelude.

Ltac hp_run := unfold SetLeft, SetRight, SetParent, GetLeft, GetRight, GetParent, modify, load, store, mbind, hp_bind, mret, hp_ret; simpl; repeat (hp_lookup; simpl).

Section SplayLaws.
  Context {V : Type} `{EqDecision V}.
  Variable no_value_ : V.

Abbreviation Node := (SplayNode V).
Abbreviation hp := (hp Node).
Implicit Types (h : heap Node) (l n p : positive) (k : Z) (v : V).

(** ** Trees on the heap *)

Inductive tree :=
  | Lf
  | Nd (l : positive) (a : tree) (k : Z) (v : V) (b : tree).

Definition root (t : tree) : ptr := if t is Nd l _ _ _ _ then Some l else None.

Fixpoint locs (t : tree) : list positive :=
  match t with Lf => [] | Nd l a _ _ b => l :: locs a ++ locs b end.

Fixpoint inorder (t : tree) : list (Z * V) :=
  match t with Lf => [] | Nd _ a k v b => inorder a ++ (k, v) :: inorder b end.

Fixpoint shape h (par : ptr) (t : tree) : Prop :=
  match t with
  | Lf => True
  | Nd l a k v b =>
      h !! l = Some {| key := k; value := v; left := root a; right := root b; parent := par |} ∧
      shape h (Some l) a ∧ shape h (Some l) b
  end.

(** One node above the focus, with its other child. *)
Inductive frame :=
  | InL (l : positive) (k : Z) (v : V) (b : tree)
  | InR (l : positive) (k : Z) (v : V) (a : tree).

Definition plug1 (f : frame) (t : tree) : tree :=
  match f with InL l k v b => Nd l t k v b | InR l k v a => Nd l a k v t end.

Definition frame_loc (f : frame) : positive := match f with InL l _ _ _ | InR l _ _ _ => l end.
Definition frame_sub (f : frame) : tree := match f with InL _ _ _ t | InR _ _ _ t => t end.

(** The innermost frame is first. *)
Fixpoint plug (c : list frame) (t : tree) : tree :=
  match c with [] => t | f :: c => plug c (plug1 f t) end.

Definition up (c : list frame) : ptr := match c with [] => None | f :: _ => Some (frame_loc f) end.

Fixpoint clocs (c : list frame) : list positive :=
  match c with [] => [] | f :: c => frame_loc f :: locs (frame_sub f) ++ clocs c end.

Fixpoint cshape h (child : ptr) (c : list frame) : Prop :=
  match c with
  | [] => True
  | f :: c =>
      h !! frame_loc f = Some (match f with
        | InL _ k v b => {| key := k; value := v; left := child; right := root b; parent := up c |}
        | InR _ k v a => {| key := k; value := v; left := root a; right := child; parent := up c |}
        end) ∧
      shape h (Some (frame_loc f)) (frame_sub f) ∧ cshape h (Some (frame_loc f)) c
  end.

(** ** Frame rules *)

Lemma shape_frame h h' par t : (∀ l, l ∈ locs t → h' !! l = h !! l) → shape h par t → shape h' par t.
Proof.
  revert par. induction t as [|l a IHa k v b IHb]; intros par Heq; simpl; [done|].
  intros (Hl & Ha & Hb). split_and!.
  - rewrite Heq; [done|left].
  - apply IHa; [|done]. intros l' Hl'. apply Heq. simpl. set_solver.
  - apply IHb; [|done]. intros l' Hl'. apply Heq. simpl. set_solver.
Qed.

Lemma cshape_frame h h' child c :
  (∀ l, l ∈ clocs c → h' !! l = h !! l) → cshape h child c → cshape h' child c.
Proof.
  revert child. induction c as [|f c IH]; intros child Heq; simpl; [done|].
  intros (Hl & Hs & Hc). split_and!.
  - rewrite Heq; [done|left].
  - apply (shape_frame h); [|done]. intros l' Hl'. apply Heq. simpl. set_solver.
  - apply IH; [|done]. intros l' Hl'. apply Heq. simpl. set_solver.
Qed.

Lemma shape_plug1 h f c t :
  shape h (up c) (plug1 f t) ∧ cshape h (root (plug1 f t)) c ↔
  shape h (up (f :: c)) t ∧ cshape h (root t) (f :: c).
Proof. destruct f; simpl; tauto. Qed.

Lemma shape_plug h c t : shape h None (plug c t) ↔ shape h (up c) t ∧ cshape h (root t) c.
Proof.
  revert t. induction c as [|f c IH]; intros t; simpl plug; [simpl; tauto|].
  rewrite IH. apply shape_plug1.
Qed.

Lemma locs_plug c t : locs (plug c t) ≡ₚ clocs c ++ locs t.
Proof.
  revert t. induction c as [|f c IH]; intros t; simpl; [done|].
  rewrite IH. destruct f; simpl; solve_Permutation.
Qed.

Lemma plug_app c c' t : plug (c ++ c') t = plug c' (plug c t).
Proof. revert t. induction c as [|f c IH]; intros t; [done|]. apply IH. Qed.

Fixpoint before (c : list frame) : list (Z * V) :=
  match c with
  | [] => []
  | InL _ _ _ _ :: c => before c
  | InR _ k v a :: c => before c ++ inorder a ++ [(k, v)]
  end.

Fixpoint after (c : list frame) : list (Z * V) :=
  match c with
  | [] => []
  | InL _ k v b :: c => (k, v) :: inorder b ++ after c
  | InR _ _ _ _ :: c => after c
  end.

Lemma inorder_plug c t : inorder (plug c t) = before c ++ inorder t ++ after c.
Proof.
  revert t. induction c as [|f c IH]; intros t; simpl; [by rewrite app_nil_r|].
  rewrite IH. destruct f; simpl; by rewrite <-?app_assoc; simpl; rewrite <-?app_assoc.
Qed.

(** ** Writes *)

Lemma SetParent_ok h par q t : shape h par t → NoDup (locs t) →
  ∃ h', SetParent (root t) q h = Ok ((), h') ∧ shape h' q t ∧ agree_off (locs t) h h'.
Proof.
  intros Hs Hnd. destruct t as [|l a k v b]; simpl in *.
  - by exists h.
  - destruct Hs as (Hl & Ha & Hb). unfold SetParent. erewrite modify_ok by done. eexists. split; [done|].
    apply NoDup_cons in Hnd as [Hl' _]. split_and!.
    + by simplify_map_eq.
    + eapply shape_frame, Ha. intros l' ?. rewrite lookup_insert_ne; [done|set_solver].
    + eapply shape_frame, Hb. intros l' ?. rewrite lookup_insert_ne; [done|set_solver].
    + apply agree_off_insert; [left|done].
Qed.


Ltac write_done Hfr :=
  split_and!; try (by repeat hp_lookup); try (apply Hfr); in_solver.

Lemma SetLeft_ok h p pp q b : h !! p = Some pp → shape h q b → NoDup (p :: locs b) →
  ∃ h', SetLeft (Some p) (root b) h = Ok ((), h') ∧ h' !! p = Some {| pp with left := root b |} ∧
    shape h' (Some p) b ∧ agree_off (p :: locs b) h h'.
Proof.
  intros Hp Hb [Hn Hnd]%NoDup_cons.
  destruct (SetParent_ok (<[p := {| pp with left := root b |}]> h) q (Some p) b) as (h' & Hset & Hb' & Ha).
  { eapply shape_frame, Hb. intros l Hl. rewrite lookup_insert_ne; [done|set_solver]. }
  { done. }
  exists h'. split_and!; [|by rewrite Ha by done; hp_lookup|done|].
  - unfold SetLeft. by erewrite hp_bind_ok by by apply modify_ok.
  - eapply agree_off_trans; [|eapply agree_off_weaken, Ha; set_solver]. in_solver.
Qed.

Lemma SetRight_ok h p pp q b : h !! p = Some pp → shape h q b → NoDup (p :: locs b) →
  ∃ h', SetRight (Some p) (root b) h = Ok ((), h') ∧ h' !! p = Some {| pp with right := root b |} ∧
    shape h' (Some p) b ∧ agree_off (p :: locs b) h h'.
Proof.
  intros Hp Hb [Hn Hnd]%NoDup_cons.
  destruct (SetParent_ok (<[p := {| pp with right := root b |}]> h) q (Some p) b) as (h' & Hset & Hb' & Ha).
  { eapply shape_frame, Hb. intros l Hl. rewrite lookup_insert_ne; [done|set_solver]. }
  { done. }
  exists h'. split_and!; [|by rewrite Ha by done; hp_lookup|done|].
  - unfold SetRight. by erewrite hp_bind_ok by by apply modify_ok.
  - eapply agree_off_trans; [|eapply agree_off_weaken, Ha; set_solver]. in_solver.
Qed.

(** The parent of [p] gets [n] as its child. *)
Lemma UpdateParents_ok h c n p np pp : h !! n = Some np → h !! p = Some pp → parent pp = up c →
  cshape h (Some p) c → NoDup (n :: p :: clocs c) →
  ∃ h', UpdateParents (Some p) (Some n) h = Ok ((), h') ∧
    h' !! n = Some {| np with parent := up c |} ∧ h' !! p = Some {| pp with parent := Some n |} ∧
    cshape h' (Some n) c ∧ agree_off (n :: p :: clocs c) h h'.
Proof.
  intros Hn Hp Hpar Hc Hnd. unfold UpdateParents, GetParent. apply NoDup_cons in Hnd as [Hn1 Hnd].
  apply NoDup_cons in Hnd as [Hp1 Hnd]. assert (n ≠ p) as Hnp by set_solver.
  destruct c as [|f c]; simpl in Hpar |- *.
  - hp_run. rewrite Hpar. hp_run. eexists. split; [done|].
    split_and!; [by simplify_map_eq..|done|]. repeat apply agree_off_insert; try set_solver.
  - simpl in Hc, Hn1, Hp1, Hnd. destruct Hc as (Hf & Hs & Hc).
    apply NoDup_cons in Hnd as [Hf1 Hnd].
    assert (frame_loc f ≠ n ∧ frame_loc f ≠ p) as [Hfn Hfp] by set_solver.
    hp_run. rewrite Hpar. hp_run.
    assert (Hfr : ∀ h', agree_off [n; p; frame_loc f] h h' →
      shape h' (Some (frame_loc f)) (frame_sub f) ∧ cshape h' (Some (frame_loc f)) c).
    { intros h' Ha. split.
      - eapply shape_frame, Hs. intros l Hl. apply Ha. clear -Hl Hn1 Hp1 Hf1. set_solver.
      - eapply cshape_frame, Hc. intros l Hl. apply Ha. clear -Hl Hn1 Hp1 Hf1. set_solver. }
    destruct f as [g k v b|g k v a]; simpl in *.
    + rewrite bool_decide_false by (destruct b; simpl; clear -Hp1; set_solver).
      hp_run. eexists. split; [done|]. write_done Hfr.
    + rewrite bool_decide_true by done. hp_run. eexists. split; [done|]. write_done Hfr.
Qed.
(** ** Rotations *)

(** The heap [h] with the tree [t] has become [h'] with [t'], of the same nodes. *)
Definition becomes h t h' t' : Prop :=
  shape h' None t' ∧ locs t' ≡ₚ locs t ∧ agree_off (locs t) h h'.

Lemma becomes_trans h1 t1 h2 t2 h3 t3 : becomes h1 t1 h2 t2 → becomes h2 t2 h3 t3 → becomes h1 t1 h3 t3.
Proof.
  intros (_ & Hp1 & Ha1) (Hs2 & Hp2 & Ha2). split; [done|]. split; [by rewrite Hp2|].
  eapply agree_off_trans; [done|]. intros l Hl. apply Ha2. by rewrite Hp1.
Qed.

Lemma becomes_nodup h t h' t' : becomes h t h' t' → NoDup (locs t) → NoDup (locs t').
Proof. intros (_ & Hp & _). by rewrite Hp. Qed.

(** The nodes of a rotation are distinct. *)
Lemma rotation_nodup c n p a b d t :
  locs (plug c t) ≡ₚ n :: p :: locs a ++ locs b ++ locs d ++ clocs c → NoDup (locs (plug c t)) →
  n ≠ p ∧ NoDup (n :: p :: clocs c) ∧ NoDup (p :: locs b) ∧
  (∀ l, l ∈ locs a → l ≠ n ∧ l ≠ p ∧ l ∉ clocs c ∧ l ∉ locs b) ∧
  (∀ l, l ∈ locs b → l ≠ n ∧ l ≠ p ∧ l ∉ clocs c) ∧
  (∀ l, l ∈ locs d → l ≠ n ∧ l ≠ p ∧ l ∉ clocs c ∧ l ∉ locs b).
Proof.
  intros Hp. rewrite Hp, !NoDup_cons, !NoDup_app. clear Hp. intros Hnd. split_and!; set_solver.
Qed.

(** After the writes of a rotation of [n] over [p]: [h1] has new parents, [h2] has [b]
    below [p], and [n] and [p] are written last. *)
Lemma rotation_done h h1 h2 c n p np pp a b d q :
  n ≠ p → (∀ l, l ∈ locs a → l ≠ n ∧ l ≠ p ∧ l ∉ clocs c ∧ l ∉ locs b) →
  (∀ l, l ∈ locs b → l ≠ n ∧ l ≠ p ∧ l ∉ clocs c) →
  (∀ l, l ∈ locs d → l ≠ n ∧ l ≠ p ∧ l ∉ clocs c ∧ l ∉ locs b) → NoDup (n :: p :: clocs c) →
  agree_off (n :: p :: clocs c) h h1 → agree_off (p :: locs b) h1 h2 →
  shape h (Some n) a → shape h2 (Some p) b → shape h (Some q) d → cshape h1 (Some n) c →
  let h3 := <[p := pp]> (<[n := np]> h2) in
  shape h3 (Some n) a ∧ shape h3 (Some p) b ∧ shape h3 (Some q) d ∧ cshape h3 (Some n) c ∧
  agree_off (n :: p :: locs a ++ locs b ++ locs d ++ clocs c) h h3.
Proof.
  intros Hnp Hla Hlb Hld Hnd Ha1 Ha2 Ha Hb Hd Hc h3.
  assert (∀ l, l ≠ n → l ≠ p → h3 !! l = h2 !! l) as H3.
  { intros l Hn Hp. unfold h3. by rewrite !lookup_insert_ne. }
  assert (∀ l, l ≠ n → l ≠ p → l ∉ clocs c → l ∉ locs b → h3 !! l = h !! l) as Heq.
  { intros l Hn Hp Hl Hl'. rewrite H3, Ha2, Ha1; [done|clear -Hn Hp Hl Hl'; set_solver..|done|done]. }
  split_and!.
  - eapply shape_frame, Ha. intros l Hl. destruct (Hla l Hl) as (? & ? & ? & ?). by apply Heq.
  - eapply shape_frame, Hb. intros l Hl. destruct (Hlb l Hl) as (? & ? & ?). by apply H3.
  - eapply shape_frame, Hd. intros l Hl. destruct (Hld l Hl) as (? & ? & ? & ?). by apply Heq.
  - eapply cshape_frame, Hc. intros l Hl. rewrite !NoDup_cons in Hnd. rewrite H3.
    + apply Ha2. specialize (Hlb l). clear -Hl Hlb Hnd. set_solver.
    + clear -Hl Hnd. set_solver.
    + clear -Hl Hnd. set_solver.
  - intros l Hl. apply Heq; clear -Hl; set_solver.
Qed.

Lemma RotateRight_ok h c n a k v b p pk pv d :
  shape h None (plug c (Nd p (Nd n a k v b) pk pv d)) →
  NoDup (locs (plug c (Nd p (Nd n a k v b) pk pv d))) →
  ∃ h', RotateRight (Some n) h = Ok ((), h') ∧
    becomes h (plug c (Nd p (Nd n a k v b) pk pv d)) h' (plug c (Nd n a k v (Nd p b pk pv d))).
Proof.
  intros Hs Hnd. apply shape_plug in Hs as [(Hp & (Hn & Ha & Hb) & Hd) Hc]. simpl in Hn, Hp, Hc.
  eapply (rotation_nodup c n p a b d) in Hnd as (Hnp & Hnd1 & Hnd2 & Hla & Hlb & Hld);
    [|rewrite locs_plug; simpl; solve_Permutation].
  destruct (UpdateParents_ok h c n p _ _ Hn Hp eq_refl Hc Hnd1) as (h1 & Hu & Hn1 & Hp1 & Hc1 & Ha1).
  destruct (SetLeft_ok h1 p _ (Some n) b Hp1) as (h2 & Hset & Hp2 & Hb2 & Ha2); [|done|].
  { eapply shape_frame, Hb. intros l Hl. apply Ha1. specialize (Hlb l Hl). clear -Hlb. set_solver. }
  assert (h2 !! n = h1 !! n) as Hn2 by (apply Ha2; specialize (Hlb n); clear -Hlb Hnp; set_solver).
  rewrite Hn1 in Hn2. unfold RotateRight.
  erewrite hp_bind_ok by by apply load_ok. simpl. erewrite hp_bind_ok by done.
  erewrite hp_bind_ok by by apply load_ok. simpl. erewrite hp_bind_ok by done.
  hp_run. eexists. split; [done|].
  destruct (rotation_done h h1 h2 c n p {| key := k; value := v; left := root a; right := Some p; parent := up c |}
    {| key := pk; value := pv; left := root b; right := root d; parent := Some n |} a b d p
    Hnp Hla Hlb Hld Hnd1 Ha1 Ha2 Ha Hb2 Hd Hc1) as (H1 & H2 & H3 & H4 & H5).
  split_and!; [|rewrite !locs_plug; simpl; solve_Permutation|].
  - apply shape_plug. split; [|done]. split; [by repeat hp_lookup|]. split; [done|].
    split; [by repeat hp_lookup|done].
  - eapply agree_off_weaken, H5. intros l Hl. rewrite locs_plug. simpl. set_solver.
Qed.
Lemma RotateLeft_ok h c n a k v b p pk pv d :
  shape h None (plug c (Nd p d pk pv (Nd n b k v a))) →
  NoDup (locs (plug c (Nd p d pk pv (Nd n b k v a)))) →
  ∃ h', RotateLeft (Some n) h = Ok ((), h') ∧
    becomes h (plug c (Nd p d pk pv (Nd n b k v a))) h' (plug c (Nd n (Nd p d pk pv b) k v a)).
Proof.
  intros Hs Hnd. apply shape_plug in Hs as [(Hp & Hd & (Hn & Hb & Ha)) Hc]. simpl in Hn, Hp, Hc.
  eapply (rotation_nodup c n p a b d) in Hnd as (Hnp & Hnd1 & Hnd2 & Hla & Hlb & Hld);
    [|rewrite locs_plug; simpl; solve_Permutation].
  destruct (UpdateParents_ok h c n p _ _ Hn Hp eq_refl Hc Hnd1) as (h1 & Hu & Hn1 & Hp1 & Hc1 & Ha1).
  destruct (SetRight_ok h1 p _ (Some n) b Hp1) as (h2 & Hset & Hp2 & Hb2 & Ha2); [|done|].
  { eapply shape_frame, Hb. intros l Hl. apply Ha1. specialize (Hlb l Hl). clear -Hlb. set_solver. }
  assert (h2 !! n = h1 !! n) as Hn2 by (apply Ha2; specialize (Hlb n); clear -Hlb Hnp; set_solver).
  rewrite Hn1 in Hn2. unfold RotateLeft.
  erewrite hp_bind_ok by by apply load_ok. simpl. erewrite hp_bind_ok by done.
  erewrite hp_bind_ok by by apply load_ok. simpl. erewrite hp_bind_ok by done.
  hp_run. eexists. split; [done|].
  destruct (rotation_done h h1 h2 c n p {| key := k; value := v; left := Some p; right := root a; parent := up c |}
    {| key := pk; value := pv; left := root d; right := root b; parent := Some n |} a b d p
    Hnp Hla Hlb Hld Hnd1 Ha1 Ha2 Ha Hb2 Hd Hc1) as (H1 & H2 & H3 & H4 & H5).
  split_and!; [|rewrite !locs_plug; simpl; solve_Permutation|].
  - apply shape_plug. split; [|done]. split; [by repeat hp_lookup|]. split; [|done].
    split; [by repeat hp_lookup|done].
  - eapply agree_off_weaken, H5. intros l Hl. rewrite locs_plug. simpl. set_solver.
Qed.
(** ** Splaying *)

(** The node that a walk is at, or splays. *)
Definition at_node h c n a k v b : Prop :=
  shape h None (plug c (Nd n a k v b)) ∧ NoDup (locs (plug c (Nd n a k v b))).

Lemma at_node_parts h c n a k v b : at_node h c n a k v b →
  h !! n = Some {| key := k; value := v; left := root a; right := root b; parent := up c |} ∧
  cshape h (Some n) c ∧ n ∉ locs a ∧ n ∉ locs b ∧ n ∉ clocs c ∧ NoDup (clocs c).
Proof.
  intros [Hs Hnd]. apply shape_plug in Hs as [(Hn & Ha & Hb) Hc]. split_and!; try done.
  all: rewrite locs_plug, NoDup_app in Hnd; simpl in Hnd; rewrite NoDup_cons in Hnd; set_solver.
Qed.

Lemma root_ne l t : l ∉ locs t → root t ≠ Some l.
Proof. destruct t; set_solver. Qed.

Lemma becomes_at h t h' c n a k v b :
  becomes h t h' (plug c (Nd n a k v b)) → NoDup (locs t) → at_node h' c n a k v b.
Proof. intros Hb Hnd. split; [apply Hb|by eapply becomes_nodup]. Qed.

Ltac splay_end := split_and!; [eassumption || by eapply becomes_trans|simpl; lia|];
  rewrite !inorder_plug; simpl; by app_norm.

(** One round goes up one or two nodes. *)
Definition round_ok (p : hp ()) h f c n a k v b : Prop := ∃ h' c' a' b', p h = Ok ((), h') ∧
  becomes h (plug (f :: c) (Nd n a k v b)) h' (plug c' (Nd n a' k v b')) ∧
  (length c' ≤ length c)%nat ∧
  inorder (plug c' (Nd n a' k v b')) = inorder (plug (f :: c) (Nd n a k v b)).

Lemma zig_ok h f n a k v b : at_node h [f] n a k v b →
  round_ok (if f is InL _ _ _ _ then RotateRight (Some n) else RotateLeft (Some n)) h f [] n a k v b.
Proof.
  intros [Hs Hnd]. destruct f as [p pk pv d|p pk pv d].
  - edestruct (RotateRight_ok h []) as (h' & Hr & Hb); [done..|].
    eexists h', [], _, _. split; [done|]. splay_end.
  - edestruct (RotateLeft_ok h []) as (h' & Hr & Hb); [done..|].
    eexists h', [], _, _. split; [done|]. splay_end.
Qed.

(** The node and its parent on the same side of the grandparent. *)
Lemma zig_zig_ok h f g c n a k v b : at_node h (f :: g :: c) n a k v b →
  match f, g with
  | InL p _ _ _, InL _ _ _ _ => round_ok (RotateRight (Some p);; RotateRight (Some n)) h f (g :: c) n a k v b
  | InR p _ _ _, InR _ _ _ _ => round_ok (RotateLeft (Some p);; RotateLeft (Some n)) h f (g :: c) n a k v b
  | _, _ => True
  end.
Proof.
  intros [Hs Hnd]. destruct f as [p pk pv d|p pk pv d], g as [g gk gv e|g gk gv e]; [|done|done|].
  - edestruct (RotateRight_ok h c) as (h1 & Hr1 & Hb1); [done..|].
    edestruct (RotateRight_ok h1 c n) as (h2 & Hr2 & Hb2); [apply Hb1|by eapply becomes_nodup|].
    eexists h2, c, _, _. split; [by rewrite (hp_bind_ok _ _ _ _ _ Hr1)|]. splay_end.
  - edestruct (RotateLeft_ok h c) as (h1 & Hr1 & Hb1); [done..|].
    edestruct (RotateLeft_ok h1 c n) as (h2 & Hr2 & Hb2); [apply Hb1|by eapply becomes_nodup|].
    eexists h2, c, _, _. split; [by rewrite (hp_bind_ok _ _ _ _ _ Hr1)|]. splay_end.
Qed.

Lemma zig_zag_ok h f g c n a k v b : at_node h (f :: g :: c) n a k v b →
  match f, g with
  | InR _ _ _ _, InL _ _ _ _ => round_ok (RotateLeft (Some n);; RotateRight (Some n)) h f (g :: c) n a k v b
  | InL _ _ _ _, InR _ _ _ _ => round_ok (RotateRight (Some n);; RotateLeft (Some n)) h f (g :: c) n a k v b
  | _, _ => True
  end.
Proof.
  intros [Hs Hnd]. destruct f as [p pk pv d|p pk pv d], g as [g gk gv e|g gk gv e]; [done| | |done].
  - edestruct (RotateRight_ok h (InR g gk gv e :: c)) as (h1 & Hr1 & Hb1); [done..|].
    edestruct (RotateLeft_ok h1 c n) as (h2 & Hr2 & Hb2); [apply Hb1|by eapply becomes_nodup|].
    eexists h2, c, _, _. split; [by rewrite (hp_bind_ok _ _ _ _ _ Hr1)|]. splay_end.
  - edestruct (RotateLeft_ok h (InL g gk gv e :: c)) as (h1 & Hr1 & Hb1); [done..|].
    edestruct (RotateRight_ok h1 c n) as (h2 & Hr2 & Hb2); [apply Hb1|by eapply becomes_nodup|].
    eexists h2, c, _, _. split; [by rewrite (hp_bind_ok _ _ _ _ _ Hr1)|]. splay_end.
Qed.

Lemma splay_round_ok h f c n a k v b : at_node h (f :: c) n a k v b →
  round_ok (splay_round (Some n)) h f c n a k v b.
Proof.
  intros Hat. pose proof (at_node_parts _ _ _ _ _ _ _ Hat) as (Hn & (Hf & _ & Hc) & Hna & Hnb & Hnc & Hndc).
  unfold round_ok, splay_round. erewrite hp_bind_ok by by apply load_ok. simpl.
  assert (GetParent (Some (frame_loc f)) h = Ok (up c, h)) as Hg by (unfold GetParent; hp_run; by destruct f).
  erewrite hp_bind_ok by done. erewrite hp_bind_ok by by apply load_ok.
  destruct c as [|g c]; cbn [up].
  - pose proof (zig_ok _ _ _ _ _ _ _ Hat) as Hz. destruct f as [p pk pv d|p pk pv d].
    + simpl in Hnc. rewrite bool_decide_false by (apply root_ne; set_solver). exact Hz.
    + rewrite bool_decide_true by done. exact Hz.
  - destruct Hc as (Hgl & _ & _). erewrite hp_bind_ok by by apply load_ok.
    pose proof (zig_zig_ok _ _ _ _ _ _ _ _ _ Hat) as Hzz. pose proof (zig_zag_ok _ _ _ _ _ _ _ _ _ Hat) as Hza.
    simpl in Hnc, Hndc. apply NoDup_cons in Hndc as [Hfe _]. destruct f as [p pk pv d|p pk pv d], g as [g gk gv e|g gk gv e]; simpl in *.
    + rewrite bool_decide_false by (apply root_ne; set_solver). by rewrite bool_decide_true.
    + rewrite (bool_decide_false (root d = _)) by (apply root_ne; set_solver).
      rewrite bool_decide_false by (apply root_ne; set_solver). exact Hza.
    + rewrite bool_decide_true by done. rewrite bool_decide_false by (apply root_ne; set_solver). exact Hza.
    + by rewrite !bool_decide_true.
Qed.

(** [Splay(node)] ends, and the node is the root of a tree with the same keys. *)
Lemma Splay_n_ok m h c n a k v b : at_node h c n a k v b → (length c ≤ m)%nat →
  ∃ h' a' b', hp_while_n m (λ _, p ← GetParent (Some n); mret (bool_decide (p ≠ None)))
                (λ _, splay_round (Some n)) () h = Ok ((), h') ∧
    becomes h (plug c (Nd n a k v b)) h' (Nd n a' k v b') ∧
    inorder (Nd n a' k v b') = inorder (plug c (Nd n a k v b)).
Proof.
  revert h c a b. induction m as [|m IH]; intros h c a b Hat Hm.
  all: pose proof (at_node_parts _ _ _ _ _ _ _ Hat) as (Hn & _).
  all: assert (GetParent (Some n) h = Ok (up c, h)) as Hp by (unfold GetParent; hp_run; done).
  all: destruct c as [|f c]; [|simpl in Hm; try lia].
  1,2: exists h, a, b; split; [apply hp_while_n_done; by rewrite (hp_bind_ok _ _ _ _ _ Hp)|].
  1,2: split; [|done]; split; [apply Hat|done].
  destruct (splay_round_ok _ _ _ _ _ _ _ _ Hat) as (h1 & c1 & a1 & b1 & Hr & Hb1 & Hlen & Hi1).
  destruct (IH h1 c1 a1 b1) as (h' & a' & b' & Hw & Hb & Hi); [by eapply becomes_at, Hat|lia|].
  exists h', a', b'. split_and!; [|by eapply becomes_trans|by rewrite Hi, Hi1].
  erewrite hp_while_n_round; [exact Hw| |done]. by rewrite (hp_bind_ok _ _ _ _ _ Hp).
Qed.

(** The nodes of a tree are in the heap, so its size is enough fuel. *)
Lemma shape_lookup h par t l : shape h par t → l ∈ locs t → is_Some (h !! l).
Proof.
  revert par. induction t as [|l' a IHa k v b IHb]; intros par; simpl; [set_solver|].
  intros (Hl & Ha & Hb). rewrite elem_of_cons, elem_of_app. intros [->|[?|?]]; eauto.
Qed.

Lemma shape_size h t : shape h None t → NoDup (locs t) → (length (locs t) ≤ size h)%nat.
Proof.
  intros Hs Hnd. rewrite <-size_dom. rewrite <-(size_list_to_set (C := gset positive) (locs t)) by done.
  apply subseteq_size. intros l Hl. apply elem_of_list_to_set in Hl. apply elem_of_dom. by eapply shape_lookup.
Qed.

Lemma clocs_length c : (length c ≤ length (clocs c))%nat.
Proof. induction c as [|f c IH]; simpl; [lia|]. rewrite length_app. lia. Qed.

Lemma at_node_depth h c n a k v b : at_node h c n a k v b → (length c ≤ size h)%nat.
Proof.
  intros [Hs Hnd]. apply shape_size in Hs; [|done]. rewrite locs_plug, length_app in Hs.
  pose proof (clocs_length c). lia.
Qed.

Lemma Splay_ok h c n a k v b : at_node h c n a k v b →
  ∃ h' a' b', Splay (Some n) h = Ok ((), h') ∧ becomes h (plug c (Nd n a k v b)) h' (Nd n a' k v b') ∧
    inorder (Nd n a' k v b') = inorder (plug c (Nd n a k v b)).
Proof. intros Hat. apply Splay_n_ok; [done|by eapply at_node_depth]. Qed.

(** ** Walks *)

(** [FindNodeAndParent] ends at the node of the key or below the parent where it
    would be. *)
Definition path_of (k : Z) (c : list frame) : Prop :=
  Forall (λ f, match f with InL _ k' _ _ => k < k' | InR _ k' _ _ => ¬ k < k' ∧ k ≠ k' end) c.

Lemma find_loop_ok m k h c t : shape h None (plug c t) → NoDup (locs (plug c t)) → path_of k c →
  (length (locs t) ≤ m)%nat →
  ∃ c' t', hp_while_n m
      (λ '((node, _) : ptr * ptr), if node is Some _ then n ← load node; mret (bool_decide (key n ≠ k)) else mret false)
      (λ '(node, _), n ← load node; mret (if k <? key n then left n else right n, node))
      (root t, up c) h = Ok ((root t', up c'), h) ∧
    plug c' t' = plug c t ∧ path_of k c' ∧ (if t' is Nd _ _ k' _ _ then k' = k else True).
Proof.
  revert c t. induction m as [|m IH]; intros c t Hs Hnd Hpath Hm; destruct t as [|l a k' v b]; simpl in Hm; try lia.
  1,2: exists c, Lf; split_and!; [by apply hp_while_n_done|done..].
  pose proof (at_node_parts h c l a k' v b (conj Hs Hnd)) as (Hl & _).
  assert (((n ← load (Some l); mret (bool_decide (key n ≠ k))) : hp bool) h = Ok (bool_decide (k' ≠ k), h)) as Hc.
  { by erewrite hp_bind_ok by by apply load_ok. }
  destruct (decide (k' = k)) as [->|Hne].
  { exists c, (Nd l a k v b). split_and!; [|done..]. apply hp_while_n_done. simpl. rewrite Hc.
    by rewrite bool_decide_false by naive_solver. }
  rewrite bool_decide_true in Hc by done. rewrite length_app in Hm.
  destruct (Z.ltb_spec k k') as [Hlt|Hge].
  - destruct (IH (InL l k' v b :: c) a Hs Hnd) as (c' & t' & Hw & Hp & Hk & Hkey);
      [by constructor|lia|]. exists c', t'. split_and!; [|done..].
    erewrite hp_while_n_round; [exact Hw|exact Hc|]. simpl. erewrite hp_bind_ok by by apply load_ok.
    simpl. by rewrite (proj2 (Z.ltb_lt _ _) Hlt).
  - destruct (IH (InR l k' v a :: c) b Hs Hnd) as (c' & t' & Hw & Hp & Hk & Hkey);
      [constructor; [lia|done]|lia|]. exists c', t'. split_and!; [|done..].
    erewrite hp_while_n_round; [exact Hw|exact Hc|]. simpl. erewrite hp_bind_ok by by apply load_ok.
    simpl. by rewrite (proj2 (Z.ltb_ge _ _) Hge).
Qed.

Lemma FindNodeAndParent_ok k h t : shape h None t → NoDup (locs t) →
  ∃ c t', FindNodeAndParent (root t) k h = Ok ((root t', up c), h) ∧ t = plug c t' ∧
    path_of k c ∧ (if t' is Nd _ _ k' _ _ then k' = k else True).
Proof.
  intros Hs Hnd. destruct (find_loop_ok (size h) k h [] t) as (c & t' & Hw & Hp & Hk); [done..|by constructor| |].
  - by apply shape_size.
  - exists c, t'. simpl in Hp. by rewrite Hp.
Qed.

End SplayLaws.
