(* ===== verification/SplayMap.v ===== *)
(** The splay tree is a finite map.

    [represents] relates the heap and [root_] to a map: the heap holds exactly the
    nodes of a search tree with its keys. Every method does on it what the operation
    on the map does; none uses a null or dangling pointer, every loop ends, and no
    node is lost. *)
From S2P Require Import Distributions Assoc Heap SplayTree SplayLaws Prelude.

Section SplayMap.
  Context {V : Type} `{EqDecision V}.
  Variable no_value_ : V.

Abbreviation Node := (SplayNode V).
Implicit Types (h : heap Node) (l n p : positive) (k : Z) (v : V) (m : gmap Z V) (c : list (@frame V)) (t a b : @tree V).

Lemma path_between k c t : ksorted (inorder (plug c t)) → path_of k c → below k (before c) ∧ above k (after c).
Proof.
  revert t. induction c as [|f c IH]; intros t Hs Hp; simpl; [by split; [apply below_nil|apply above_nil]|].
  inversion_clear Hp as [|? ? Hf Hp']. destruct (IH _ Hs Hp') as [Hb Ha].
  simpl in Hs. rewrite inorder_plug, ksorted_app, ksorted_app in Hs. destruct Hs as (_ & (Hs & _) & _).
  destruct f as [l k' v b|l k' v a]; simpl in *.
  - split; [done|]. rewrite above_cons, above_app. apply ksorted_middle in Hs as (_ & _ & _ & Hk).
    split_and!; [done|by apply (above_le k'); [|lia]|done].
  - split; [|done]. rewrite !below_app, below_cons. apply ksorted_middle in Hs as (_ & _ & Hk & _).
    split_and!; [done|by apply (below_le k'); [|lia]|lia|apply below_nil].
Qed.

(** ** The tree as a map *)

(** [root_] points to a tree with the map [m], and the heap is the tree. *)
Definition represents h (r : ptr) (m : gmap Z V) : Prop :=
  ∃ t, r = root t ∧ shape h None t ∧ NoDup (locs t) ∧ dom h = list_to_set (locs t) ∧
    ksorted (inorder t) ∧ m = to_map (inorder t) ∧ Forall (λ kv, kv.2 ≠ no_value_) (inorder t).

Lemma becomes_dom h t h' t' : becomes h t h' t' → shape h None t →
  dom h = list_to_set (locs t) → dom h' = list_to_set (C := gset positive) (locs t').
Proof.
  intros (Hs' & Hp & Ha) Hs Hd. rewrite Hp. apply set_eq. intros l. rewrite elem_of_list_to_set.
  destruct (decide (l ∈ locs t)) as [Hin|Hin].
  - split; [done|]. intros _. rewrite <-Hp in Hin. apply elem_of_dom. by eapply shape_lookup.
  - rewrite elem_of_dom, Ha, <-elem_of_dom, Hd, elem_of_list_to_set by done. done.
Qed.

(** Splaying keeps the map. *)
Lemma SplayAssign_represents h c n a k v b m :
  at_node h c n a k v b → dom h = list_to_set (locs (plug c (Nd n a k v b))) →
  let t := plug c (Nd n a k v b) in
  ksorted (inorder t) → m = to_map (inorder t) → Forall (λ kv, kv.2 ≠ no_value_) (inorder t) →
  ∃ h', SplayAssign (Some n) h = Ok (Some n, h') ∧ represents h' (Some n) m ∧
    (∃ nd, h' !! n = Some nd ∧ value nd = v).
Proof.
  intros Hat Hd t Hs Hm Hv. destruct (Splay_ok _ _ _ _ _ _ _ Hat) as (h' & a' & b' & Hrun & Hb & Hi).
  exists h'. split_and!.
  - unfold SplayAssign. by rewrite (hp_bind_ok _ _ _ _ _ Hrun).
  - exists (Nd n a' k v b'). split; [done|]. split; [apply Hb|]. split; [by eapply becomes_nodup, Hat|].
    split; [by eapply becomes_dom, Hd; [|apply Hat]|]. by rewrite Hi.
  - destruct Hb as [(Hn & _) _]. by eexists.
Qed.

Lemma SplayAssign_null h : SplayAssign None h = Ok (None, h).
Proof. unfold SplayAssign. rewrite (hp_bind_ok _ _ _ () h); [done|]. by apply hp_while_n_done. Qed.

Lemma inorder_node c n a k v b :
  inorder (plug c (Nd n a k v b)) = (before c ++ inorder a) ++ (k, v) :: inorder b ++ after c.
Proof. rewrite inorder_plug. simpl. by app_norm. Qed.

Lemma node_lookup c n a k v b : ksorted (inorder (plug c (Nd n a k v b))) →
  to_map (inorder (plug c (Nd n a k v b))) !! k = Some v.
Proof. rewrite inorder_node. intros Hs. apply ksorted_middle in Hs as (_ & _ & Hb & _). by apply to_map_found. Qed.

(** The last node of an unsuccessful search, or null. *)
Lemma SplayAssign_up h c m t' : t' = Lf → let t := plug c t' in
  shape h None t → NoDup (locs t) → dom h = list_to_set (locs t) → ksorted (inorder t) →
  m = to_map (inorder t) → Forall (λ kv, kv.2 ≠ no_value_) (inorder t) →
  ∃ h' r, SplayAssign (up c) h = Ok (r, h') ∧ represents h' r m.
Proof.
  intros -> t Hs Hnd Hd Hk Hm Hv. destruct c as [|f c].
  - exists h, None. split; [apply SplayAssign_null|]. by exists Lf.
  - subst t. destruct f as [p pk pv b|p pk pv a].
    + destruct (SplayAssign_represents h c p Lf pk pv b m) as (h' & Hr & Hrep & _); [done..|]. by exists h', (Some p).
    + destruct (SplayAssign_represents h c p a pk pv Lf m) as (h' & Hr & Hrep & _); [done..|]. by exists h', (Some p).
Qed.

Lemma Find_ok k h r m : represents h r m →
  ∃ h' r', SplayTree.Find no_value_ k r h = Ok ((default no_value_ (m !! k), r'), h') ∧ represents h' r' m.
Proof.
  intros (t & -> & Hs & Hnd & Hd & Hk & -> & Hv). unfold SplayTree.Find.
  destruct (FindNodeAndParent_ok k h t Hs Hnd) as (c & t' & Hf & -> & Hp & Hkey).
  rewrite (hp_bind_ok _ _ _ _ _ Hf). destruct t' as [|n a k' v b]; cbv beta iota; cbn [root].
  - destruct (path_between _ _ _ Hk Hp) as [Hb Ha].
    destruct (SplayAssign_up h c _ Lf eq_refl Hs Hnd Hd Hk eq_refl Hv) as (h' & r' & Hr & Hrep).
    exists h', r'. rewrite (hp_bind_ok _ _ _ _ _ Hr). split; [|done]. rewrite inorder_plug. by rewrite to_map_absent.
  - subst k'. destruct (SplayAssign_represents h c n a k v b _ (conj Hs Hnd) Hd Hk eq_refl Hv)
      as (h' & Hr & Hrep & nd & Hn & <-).
    exists h', (Some n). rewrite (hp_bind_ok _ _ _ _ _ Hr), (hp_bind_ok _ _ _ _ _ (load_ok _ _ _ Hn)).
    by rewrite node_lookup.
Qed.

Lemma root_plug f c t t' : root (plug (f :: c) t) = root (plug (f :: c) t').
Proof.
  revert f t t'. induction c as [|g c IH]; intros f t t'; [by destruct f|].
  change (root (plug (g :: c) (plug1 f t)) = root (plug (g :: c) (plug1 f t'))). apply IH.
Qed.

Ltac write_leaf :=
  match goal with
  | Hfr : ∀ h' : heap _, agree_off ?ls ?h h' → _ |- shape ?h' _ _ ∧ _ =>
      destruct (Hfr h') as [? ?]; [in_solver|]; split;
      [ apply shape_plug; split; [simpl; split_and!; try done; by repeat hp_lookup|done]
      | apply (agree_off_weaken ls); [rewrite locs_plug; simpl; set_solver|in_solver] ]
  end.

(** The new node in the place of a leaf. *)
Lemma AddNode_ok h c n k v : n ∉ locs (plug c Lf) → shape h None (plug c Lf) → NoDup (locs (plug c Lf)) →
  path_of k c → h !! n = Some (SplayNode_make k v) →
  ∃ h', AddNode (root (plug c Lf)) (up c) (Some n) h = Ok (root (plug c (Nd n Lf k v Lf)), h') ∧
    shape h' None (plug c (Nd n Lf k v Lf)) ∧ agree_off (n :: locs (plug c Lf)) h h'.
Proof.
  intros Hn Hs Hnd Hp Hl. rewrite locs_plug, app_nil_r in Hn. rewrite locs_plug, app_nil_r in Hnd.
  destruct c as [|f c]; unfold AddNode; cbn [up].
  { exists h. split; [done|]. split; [|done]. by split_and!. }
  apply shape_plug in Hs as [_ (Hf & Hsub & Hc)]. rewrite (hp_bind_ok _ _ _ _ _ (load_ok _ _ _ Hl)).
  rewrite (hp_bind_ok _ _ _ _ _ (load_ok _ _ _ Hf)). inversion_clear Hp as [|? ? Hk _].
  simpl in Hn, Hnd. apply NoDup_cons in Hnd as [Hf1 Hnd]. assert (frame_loc f ≠ n) as Hne by set_solver.
  rewrite (root_plug f c (Nd n Lf k v Lf) Lf).
  assert (Hfr : ∀ h', agree_off [n; frame_loc f] h h' →
    shape h' (Some (frame_loc f)) (frame_sub f) ∧ cshape h' (Some (frame_loc f)) c).
  { intros h' Ha. split; [eapply shape_frame, Hsub|eapply cshape_frame, Hc].
    all: intros l Hl'; apply Ha; clear -Hl' Hn Hf1; set_solver. }
  destruct f as [p pk pv b|p pk pv a]; simpl in Hk, Hf, Hne, Hfr; cbn [key SplayNode_make].
  - rewrite (proj2 (Z.ltb_lt _ _) Hk). hp_run. eexists. split; [done|]. write_leaf.
  - rewrite (proj2 (Z.ltb_nlt _ _) (proj1 Hk)). hp_run. eexists. split; [done|]. write_leaf.
Qed.

(** After a new node is in its place. *)
Lemma AddNode_represents h c k v : shape h None (plug c Lf) → NoDup (locs (plug c Lf)) →
  dom h = list_to_set (locs (plug c Lf)) → path_of k c →
  ∃ n h0 h', alloc (SplayNode_make k v) h = Ok (Some n, h0) ∧
    AddNode (root (plug c Lf)) (up c) (Some n) h0 = Ok (root (plug c (Nd n Lf k v Lf)), h') ∧
    at_node h' c n Lf k v Lf ∧ dom h' = list_to_set (locs (plug c (Nd n Lf k v Lf))).
Proof.
  intros Hs Hnd Hd Hp. set (n := fresh (dom h)). assert (n ∉ dom h) as Hn by apply is_fresh.
  assert (n ∉ locs (plug c Lf)) as Hnl by (rewrite Hd in Hn; set_solver).
  assert (locs (plug c (Nd n Lf k v Lf)) ≡ₚ n :: locs (plug c Lf)) as Hlocs.
  { rewrite !locs_plug. simpl. rewrite app_nil_r. solve_Permutation. }
  destruct (AddNode_ok (<[n := SplayNode_make k v]> h) c n k v) as (h' & Hr & Hs' & Ha); try done.
  { eapply shape_frame, Hs. intros l Hl. rewrite lookup_insert_ne; [done|set_solver]. }
  { by hp_lookup. }
  exists n, (<[n := SplayNode_make k v]> h), h'. split; [done|]. split; [done|]. split.
  - split; [done|]. rewrite Hlocs. by constructor.
  - apply set_eq. intros l. rewrite elem_of_list_to_set. destruct (decide (l ∈ n :: locs (plug c Lf))) as [Hin|Hin].
    + rewrite Hlocs. split; [done|]. intros _. rewrite <-Hlocs in Hin. apply elem_of_dom. by eapply shape_lookup.
    + rewrite Hlocs. rewrite elem_of_dom, Ha by done. rewrite lookup_insert_ne by set_solver.
      rewrite <-elem_of_dom, Hd. set_solver.
Qed.

Lemma Insert_ok k v h r m : represents h r m → v ≠ no_value_ →
  ∃ h' r', SplayTree.Insert no_value_ k v r h = Ok ((default no_value_ (m !! k), r'), h') ∧
    represents h' r' (if m !! k is Some _ then m else <[k := v]> m).
Proof.
  intros (t & -> & Hs & Hnd & Hd & Hk & -> & Hv) Hval. unfold SplayTree.Insert.
  destruct (FindNodeAndParent_ok k h t Hs Hnd) as (c & t' & Hf & -> & Hp & Hkey).
  rewrite (hp_bind_ok _ _ _ _ _ Hf). destruct t' as [|n a k' v' b]; cbv beta iota; cbn [root].
  - destruct (path_between _ _ _ Hk Hp) as [Hb Ha].
    destruct (AddNode_represents h c k v Hs Hnd Hd Hp) as (n & h0 & h1 & Hal & Hr & Hat & Hd').
    rewrite inorder_plug in *. simpl in *.
    destruct (SplayAssign_represents h1 c n Lf k v Lf (<[k := v]> (to_map (before c ++ after c))) Hat Hd')
      as (h' & Hsp & Hrep & _).
    { rewrite inorder_plug. by apply ksorted_insert. }
    { rewrite inorder_plug. symmetry. by apply to_map_insert. }
    { rewrite inorder_plug. simpl. apply Forall_app in Hv as [? ?]. apply Forall_app. split; [done|]. by constructor. }
    exists h', (Some n). rewrite to_map_absent by done. split; [|done].
    by rewrite (hp_bind_ok _ _ _ _ _ Hal), (hp_bind_ok _ _ _ _ _ Hr), (hp_bind_ok _ _ _ _ _ Hsp).
  - subst k'. destruct (SplayAssign_represents h c n a k v' b _ (conj Hs Hnd) Hd Hk eq_refl Hv)
      as (h' & Hr & Hrep & _).
    destruct (at_node_parts _ _ _ _ _ _ _ (conj Hs Hnd)) as (Hn & _).
    exists h', (Some n). rewrite (hp_bind_ok _ _ _ _ _ (load_ok _ _ _ Hn)), (hp_bind_ok _ _ _ _ _ Hr).
    by rewrite node_lookup.
Qed.

(** ** Joining two trees *)

Lemma max_n_ok fuel h c n a k v b : at_node h c n a k v b → after c = [] → (length (locs b) ≤ fuel)%nat →
  ∃ c' n' a' k' v', hp_while_n fuel (λ node, n ← load node; mret (bool_decide (right n ≠ None)))
      (λ node, n ← load node; mret (right n)) (Some n) h = Ok (Some n', h) ∧
    plug c' (Nd n' a' k' v' Lf) = plug c (Nd n a k v b) ∧ after c' = [].
Proof.
  revert c n a k v b. induction fuel as [|fuel IH]; intros c n a k v b Hat Haf Hm.
  all: pose proof (at_node_parts _ _ _ _ _ _ _ Hat) as (Hn & _).
  all: destruct b as [|n2 a2 k2 v2 b2]; [|simpl in Hm; try lia].
  1,2: exists c, n, a, k, v; split; [|done]; apply hp_while_n_done; by rewrite (hp_bind_ok _ _ _ _ _ (load_ok _ _ _ Hn)).
  destruct (IH (InR n k v a :: c) n2 a2 k2 v2 b2 Hat Haf) as (c' & n' & a' & k' & v' & Hw & Hp & Hc).
  { rewrite length_app in Hm. lia. }
  exists c', n', a', k', v'. split; [|done].
  erewrite hp_while_n_round; [exact Hw| |]; by rewrite (hp_bind_ok _ _ _ _ _ (load_ok _ _ _ Hn)).
Qed.

Lemma min_n_ok fuel h c n a k v b : at_node h c n a k v b → before c = [] → (length (locs a) ≤ fuel)%nat →
  ∃ c' n' k' v' b', hp_while_n fuel (λ node, n ← load node; mret (bool_decide (left n ≠ None)))
      (λ node, n ← load node; mret (left n)) (Some n) h = Ok (Some n', h) ∧
    plug c' (Nd n' Lf k' v' b') = plug c (Nd n a k v b) ∧ before c' = [].
Proof.
  revert c n a k v b. induction fuel as [|fuel IH]; intros c n a k v b Hat Hbe Hm.
  all: pose proof (at_node_parts _ _ _ _ _ _ _ Hat) as (Hn & _).
  all: destruct a as [|n2 a2 k2 v2 b2]; [|simpl in Hm; try lia].
  1,2: exists c, n, k, v, b; split; [|done]; apply hp_while_n_done; by rewrite (hp_bind_ok _ _ _ _ _ (load_ok _ _ _ Hn)).
  destruct (IH (InL n k v b :: c) n2 a2 k2 v2 b2 Hat Hbe) as (c' & n' & k' & v' & b' & Hw & Hp & Hc).
  { rewrite length_app in Hm. lia. }
  exists c', n', k', v', b'. split; [|done].
  erewrite hp_while_n_round; [exact Hw| |]; by rewrite (hp_bind_ok _ _ _ _ _ (load_ok _ _ _ Hn)).
Qed.

Lemma inorder_nil t : inorder t = [] → t = Lf.
Proof. destruct t as [|n a k v b]; [done|]. simpl. intros Heq. by apply app_nil in Heq as [_ ?]. Qed.

(** The greatest key splayed has no right child, the smallest no left child. *)
Lemma SplayMax_ok h n a k v b : let t := Nd n a k v b in shape h None t → NoDup (locs t) → ksorted (inorder t) →
  ∃ n' a' k' v' h', Max (Some n) h = Ok (Some n', h) ∧ Splay (Some n') h = Ok ((), h') ∧
    becomes h t h' (Nd n' a' k' v' Lf) ∧ inorder (Nd n' a' k' v' Lf) = inorder t.
Proof.
  intros t Hs Hnd Hk. pose proof (shape_size h t Hs Hnd) as Hsz.
  destruct (max_n_ok (size h) h [] n a k v b (conj Hs Hnd)) as (c & n' & a' & k' & v' & Hw & Hp & Hc).
  { done. }
  { simpl in Hsz. rewrite length_app in Hsz. lia. }
  fold t in Hp. simpl in Hp. rewrite <-Hp in *.
  destruct (Splay_ok h c n' a' k' v' Lf (conj Hs Hnd)) as (h' & a2 & b2 & Hr & Hb & Hi).
  assert (b2 = Lf) as ->; [|by exists n', a2, k', v', h'].
  apply inorder_nil. rewrite <-Hi in Hk. apply ksorted_middle in Hk as (_ & _ & _ & Ha).
  rewrite inorder_node, Hc in Hi. by eapply above_last.
Qed.

Lemma SplayMin_ok h n a k v b : let t := Nd n a k v b in shape h None t → NoDup (locs t) → ksorted (inorder t) →
  ∃ n' k' v' b' h', Min (Some n) h = Ok (Some n', h) ∧ Splay (Some n') h = Ok ((), h') ∧
    becomes h t h' (Nd n' Lf k' v' b') ∧ inorder (Nd n' Lf k' v' b') = inorder t.
Proof.
  intros t Hs Hnd Hk. pose proof (shape_size h t Hs Hnd) as Hsz.
  destruct (min_n_ok (size h) h [] n a k v b (conj Hs Hnd)) as (c & n' & k' & v' & b' & Hw & Hp & Hc).
  { done. }
  { simpl in Hsz. rewrite length_app in Hsz. lia. }
  fold t in Hp. simpl in Hp. rewrite <-Hp in *.
  destruct (Splay_ok h c n' Lf k' v' b' (conj Hs Hnd)) as (h' & a2 & b2 & Hr & Hb & Hi).
  assert (a2 = Lf) as ->; [|by exists n', k', v', b2, h'].
  apply inorder_nil. rewrite <-Hi in Hk. apply ksorted_middle in Hk as (_ & _ & Ha & _).
  rewrite inorder_node, Hc in Hi. simpl in Hi. by eapply below_first.
Qed.

(** Two trees below a removed node become one: [t]. *)
Definition joined h a b (r : ptr) h' t : Prop :=
  r = root t ∧ shape h' None t ∧ locs t ≡ₚ locs a ++ locs b ∧
  inorder t = inorder a ++ inorder b ∧ agree_off (locs a ++ locs b) h h'.

Lemma join_right h q l a1 k v a2 : let b := Nd l a1 k v a2 in
  shape h q b → NoDup (locs b) → ksorted (inorder b) →
  ∃ r h' t, join_children None (Some l) h = Ok (r, h') ∧ joined h Lf b r h' t.
Proof.
  intros b Hb Hnd Hk. unfold join_children.
  destruct (SetParent_ok h q None _ Hb Hnd) as (h1 & Hp & Hs1 & Ha1). cbn [b root] in Hp.
  destruct (SplayMin_ok h1 l a1 k v a2 Hs1 Hnd Hk) as (n & k' & v' & b' & h2 & Hm & Hr & Hb2 & Hi).
  rewrite (hp_bind_ok _ _ _ _ _ Hp), (hp_bind_ok _ _ _ _ _ Hm), (hp_bind_ok _ _ _ _ _ Hr).
  destruct Hb2 as ((Hn & _ & Hb') & Hl2 & Ha2). assert (NoDup (locs (Nd n Lf k' v' b'))) as Hnd2 by by rewrite Hl2.
  destruct (SetLeft_ok h2 n _ None Lf Hn) as (h3 & Hset & Hn3 & _ & Ha3); [done|repeat constructor; set_solver|].
  rewrite (hp_bind_ok _ _ _ _ _ Hset). exists (Some n), h3, (Nd n Lf k' v' b'). split; [done|].
  split; [done|]. split; [split; [done|split; [done|]]|].
  { eapply shape_frame, Hb'. intros l' Hl'. apply Ha3. simpl in Hnd2. apply NoDup_cons in Hnd2 as [? _]. set_solver. }
  split; [done|]. split; [done|]. eapply agree_off_trans; [exact Ha1|].
  eapply agree_off_trans; [exact Ha2|]. apply (agree_off_weaken [n]); [|done]. fold b in Hl2.
  intros l' Hl'. change (l' ∈ locs b). rewrite <-Hl2. simpl. set_solver.
Qed.

Lemma join_left h q l a1 k v a2 b : let a := Nd l a1 k v a2 in
  shape h q a → shape h q b → NoDup (locs a ++ locs b) → ksorted (inorder a) →
  ∃ r h' t, join_children (Some l) (root b) h = Ok (r, h') ∧ joined h a b r h' t.
Proof.
  intros a Ha Hb Hnd Hk. pose proof Hnd as (Hnda & Hdis & Hndb)%NoDup_app. unfold join_children.
  destruct (SetParent_ok h q None _ Ha Hnda) as (h1 & Hp & Hs1 & Ha1). cbn [a root] in Hp.
  destruct (SplayMax_ok h1 l a1 k v a2 Hs1 Hnda Hk) as (n & a' & k' & v' & h2 & Hm & Hr & Hb2 & Hi).
  rewrite (hp_bind_ok _ _ _ _ _ Hp), (hp_bind_ok _ _ _ _ _ Hm), (hp_bind_ok _ _ _ _ _ Hr).
  destruct Hb2 as ((Hn & Ha' & _) & Hl2 & Ha2). fold a in Hl2, Ha2, Hi.
  assert (n ∈ locs a) as Hna by (rewrite <-Hl2; left).
  destruct (SetRight_ok h2 n _ q b Hn) as (h3 & Hset & Hn3 & Hb3 & Ha3).
  { eapply shape_frame, Hb. intros l' Hl'. rewrite Ha2, Ha1; [done|set_solver..]. }
  { constructor; [set_solver|done]. }
  rewrite (hp_bind_ok _ _ _ _ _ Hset). exists (Some n), h3, (Nd n a' k' v' b). split; [done|].
  assert (∀ l', l' ∈ locs a' → l' ∈ locs a ∧ l' ≠ n) as Hla'.
  { intros l' Hl'. rewrite <-Hl2 in Hnda |- *. simpl in Hnda |- *. apply NoDup_cons in Hnda as [? _]. set_solver. }
  split; [done|]. split; [split; [done|split; [|done]]|].
  { eapply shape_frame, Ha'. intros l' Hl'. destruct (Hla' l' Hl'). apply Ha3. set_solver. }
  split; [|split].
  - rewrite <-Hl2. simpl. by rewrite app_nil_r.
  - rewrite <-Hi. simpl. by app_norm.
  - intros l' Hl'. rewrite Ha3, Ha2, Ha1; [done|set_solver..].
Qed.

Lemma join_ok h q a b : shape h q a → shape h q b → NoDup (locs a ++ locs b) → ksorted (inorder a ++ inorder b) →
  ∃ r h' t, join_children (root a) (root b) h = Ok (r, h') ∧ joined h a b r h' t.
Proof.
  intros Ha Hb Hnd Hk. pose proof Hk as (Hka & Hkb & _)%ksorted_app.
  destruct a as [|l a1 k v a2]; [|by apply (join_left h q)].
  destruct b as [|l a1 k v a2]; [|by apply (join_right h q)].
  exists None, h, Lf. split; [done|]. by split_and!.
Qed.

(** ** Removal *)

Lemma deleted_dom h1 n h' ls t : n ∉ ls → dom h1 = list_to_set (n :: ls) → shape h' None t → locs t ≡ₚ ls →
  agree_off ls (delete n h1) h' → dom h' = list_to_set (C := gset positive) (locs t).
Proof.
  intros Hn Hd Hs Hl Ha. apply set_eq. intros l. rewrite Hl, elem_of_list_to_set.
  destruct (decide (l ∈ ls)) as [Hin|Hin].
  - split; [done|]. intros _. rewrite <-Hl in Hin. apply elem_of_dom. by eapply shape_lookup.
  - rewrite elem_of_dom, Ha by done. rewrite <-elem_of_dom, dom_delete_L, Hd. simpl. set_solver.
Qed.

Lemma Delete_ok k h r m : represents h r m →
  ∃ h' r', SplayTree.Delete no_value_ k r h = Ok ((default no_value_ (m !! k), r'), h') ∧ represents h' r' (delete k m).
Proof.
  intros (t & -> & Hs & Hnd & Hd & Hk & -> & Hv). unfold SplayTree.Delete.
  destruct (FindNodeAndParent_ok k h t Hs Hnd) as (c & t' & Hf & -> & Hp & Hkey).
  rewrite (hp_bind_ok _ _ _ _ _ Hf). destruct t' as [|n a k' v b]; cbv beta iota; cbn [root].
  - destruct (path_between _ _ _ Hk Hp) as [Hb Ha].
    destruct (SplayAssign_up h c _ Lf eq_refl Hs Hnd Hd Hk eq_refl Hv) as (h' & r' & Hr & Hrep).
    exists h', r'. rewrite (hp_bind_ok _ _ _ _ _ Hr). assert (to_map (inorder (plug c Lf)) !! k = None) as Hnone.
    { rewrite inorder_plug. by apply to_map_absent. }
    rewrite delete_id by done. by rewrite Hnone.
  - subst k'. rewrite node_lookup by done.
    destruct (Splay_ok h c n a k v b (conj Hs Hnd)) as (h1 & a' & b' & Hr & Hb & Hi).
    rewrite (hp_bind_ok _ _ _ _ _ Hr). pose proof (becomes_nodup _ _ _ _ Hb Hnd) as Hnd1.
    pose proof (becomes_dom _ _ _ _ Hb Hs Hd) as Hd1. destruct Hb as ((Hn & Ha & Hb) & _ & _).
    rewrite (hp_bind_ok _ _ _ _ _ (load_ok _ _ _ Hn)), (hp_bind_ok _ _ _ _ _ (free_ok _ _ _ Hn)).
    simpl in Hnd1. apply NoDup_cons in Hnd1 as [Hn1 Hnd1]. rewrite <-Hi in Hk, Hv |- *. simpl in Hk, Hv.
    destruct (join_ok (delete n h1) (Some n) a' b') as (r & h' & t & Hj & -> & Hs' & Hl & Hi' & Ha').
    { eapply shape_frame, Ha. intros l Hl. rewrite lookup_delete_ne; [done|set_solver]. }
    { eapply shape_frame, Hb. intros l Hl. rewrite lookup_delete_ne; [done|set_solver]. }
    { done. }
    { by eapply ksorted_remove. }
    cbn [left right]. rewrite (hp_bind_ok _ _ _ _ _ Hj). exists h', (root t). split; [done|].
    exists t. split_and!; [done|done|by rewrite Hl|by eapply (deleted_dom h1 n)| | |]; rewrite Hi'.
    + by eapply ksorted_remove.
    + symmetry. by apply to_map_remove.
    + apply Forall_app in Hv as [? Hv]. apply Forall_cons in Hv as [_ ?]. by apply Forall_app.
Qed.

Lemma Contains_ok k h r m : represents h r m →
  ∃ h' r', Contains no_value_ k r h = Ok ((bool_decide (is_Some (m !! k)), r'), h') ∧ represents h' r' m.
Proof.
  intros Hrep. destruct (Find_ok k h r m Hrep) as (h' & r' & Hf & Hrep'). exists h', r'. split; [|done].
  unfold Contains. rewrite (hp_bind_ok _ _ _ _ _ Hf). cbv beta iota. unfold mret, hp_ret. do 3 f_equal.
  apply bool_decide_ext. destruct Hrep as (t & _ & _ & _ & _ & _ & -> & Hv).
  destruct (to_map (inorder t) !! k) as [v|] eqn:Hl; simpl.
  - apply elem_of_list_to_map_2 in Hl. rewrite Forall_forall in Hv. specialize (Hv _ Hl). naive_solver.
  - by split; [|intros [? [=]]].
Qed.

(** ** The whole tree *)

Definition in_bounds (lo hi : option Z) (kvs : list (Z * V)) : Prop :=
  (if lo is Some x then above x kvs else True) ∧ (if hi is Some x then below x kvs else True).

Lemma splay_validate_ok fuel h par lo hi t : shape h par t → (length (locs t) ≤ fuel)%nat →
  ksorted (inorder t) → Forall (λ kv, kv.2 ≠ no_value_) (inorder t) → in_bounds lo hi (inorder t) →
  validate_n no_value_ fuel (root t) lo hi h = Ok (true, h).
Proof.
  revert par lo hi t. induction fuel as [|fuel IH]; intros par lo hi t Hs Hm Hk Hv [Hlo Hhi].
  all: destruct t as [|n a k v b]; [done|simpl in Hm; try lia]. rewrite length_app in Hm.
  destruct Hs as (Hn & Ha & Hb). simpl in *. rewrite (hp_bind_ok _ _ _ _ _ (load_ok _ _ _ Hn)). cbn [key value].
  apply ksorted_middle in Hk as (Hka & Hkb & Hba & Hab). apply Forall_app in Hv as [Hva Hv].
  apply Forall_cons in Hv as [Hvn Hvb].
  assert ((if lo is Some lo then lo <? k else true) = true) as ->.
  { destruct lo as [lo|]; [|done]. rewrite above_app, above_cons in Hlo. lia. }
  assert ((if hi is Some hi then k <? hi else true) = true) as ->.
  { destruct hi as [hi|]; [|done]. rewrite below_app, below_cons in Hhi. lia. }
  rewrite bool_decide_true by done. cbn [andb left right].
  rewrite (hp_bind_ok _ _ _ true h). 
  - apply (IH (Some n)); [done|lia|done..|]. split; [done|].
    destruct hi as [hi|]; [|done]. rewrite below_app, below_cons in Hhi. tauto.
  - apply (IH (Some n)); [done|lia|done..|]. split; [|done].
    destruct lo as [lo|]; [|done]. rewrite above_app, above_cons in Hlo. tauto.
Qed.

Lemma Validate_ok h r m : represents h r m → Validate no_value_ r h = Ok (true, h).
Proof.
  intros (t & -> & Hs & Hnd & _ & Hk & _ & Hv). apply (splay_validate_ok _ _ None); [done| |done..].
  by apply shape_size.
Qed.

Lemma free_n_ok fuel h par t : shape h par t → NoDup (locs t) → (length (locs t) ≤ fuel)%nat →
  ∃ h', free_n fuel (root t) h = Ok ((), h') ∧ agree_off (locs t) h h' ∧ ∀ l, l ∈ locs t → h' !! l = None.
Proof.
  revert h par t. induction fuel as [|fuel IH]; intros h par t Hs Hnd Hm.
  all: destruct t as [|n a k v b]; [by exists h; split_and!; [..|set_solver]|simpl in Hm; try lia].
  rewrite length_app in Hm. destruct Hs as (Hn & Ha & Hb). simpl in *.
  apply NoDup_cons in Hnd as [Hn1 Hnd]. pose proof Hnd as (Hnda & Hdis & Hndb)%NoDup_app.
  rewrite (hp_bind_ok _ _ _ _ _ (load_ok _ _ _ Hn)). cbn [left right].
  destruct (IH h (Some n) a) as (h1 & Hf1 & Ha1 & Hd1); [done..|lia|].
  destruct (IH h1 (Some n) b) as (h2 & Hf2 & Ha2 & Hd2); [|done|lia|].
  { eapply shape_frame, Hb. intros l Hl. apply Ha1. set_solver. }
  rewrite (hp_bind_ok _ _ _ _ _ Hf1), (hp_bind_ok _ _ _ _ _ Hf2).
  rewrite (free_ok n _ _ ltac:(rewrite Ha2, Ha1 by set_solver; exact Hn)).
  eexists. split; [done|]. split.
  - intros l Hl. rewrite lookup_delete_ne by set_solver. rewrite Ha2, Ha1; [done|set_solver..].
  - intros l Hl. destruct (decide (l = n)) as [->|Hne]; [by rewrite lookup_delete_eq|].
    rewrite lookup_delete_ne by done. destruct (decide (l ∈ locs b)); [by apply Hd2|].
    rewrite Ha2 by done. apply Hd1. set_solver.
Qed.

Lemma Free_ok h r m : represents h r m → Free r h = Ok ((), ∅).
Proof.
  intros (t & -> & Hs & Hnd & Hd & _). unfold Free.
  destruct (free_n_ok (size h) h None t Hs Hnd) as (h' & -> & Ha & Hf); [by apply shape_size|].
  do 3 f_equal. apply map_eq. intros l. rewrite lookup_empty. destruct (decide (l ∈ locs t)); [by apply Hf|].
  rewrite Ha by done. apply not_elem_of_dom. rewrite Hd. set_solver.
Qed.

Lemma represents_empty : represents ∅ None ∅.
Proof. exists Lf. split_and!; try done; [constructor|apply ksorted_nil]. Qed.

End SplayMap.
