(* ===== verification/Arrays.v ===== *)
(** Arrays of a fixed capacity that hold a list.

    A node of a search tree stores its keys, values and children in arrays of a fixed
    capacity, of which a prefix is in use. The loops of the code that open a gap,
    close a gap or copy a range are defined here, with what they do to the list that
    is stored in the prefix. *)
From S2P Require Import Prelude.

(** Two loops that do the same to related states. *)
Lemma for_range_sim {S T} (R : S → T → Prop) lo hi (f : Z → S → S) (g : Z → T → T) s t :
  R s t → (∀ i s t, R s t → R (f i s) (g i t)) → R (for_range lo hi f s) (for_range lo hi g t).
Proof.
  intros HR Hfg. unfold for_range. generalize (Z.to_nat (hi - lo)) as m. intros m. revert lo s t HR.
  induction m as [|m IH]; intros lo s t HR; simpl; auto.
Qed.

Section Arrays.
  Context {A : Type} `{Inhabited A}.
  Implicit Types (a l r s : list A) (i : Z) (x y : A).

(** [for (at = last; at >= index; --at) a[at + 1] = a[at];] *)
Definition shift_right a (index last : Z) : list A :=
  for_range 0 (last - index + 1) (λ i a, let at_ := last - i in a.[at_ + 1 <- a.[at_]]) a.

(** [std::move(a + from, a + to, a + at)] within one array, forwards. *)
Definition move_within a (from to at_ : Z) : list A :=
  for_range 0 (to - from) (λ i a, a.[at_ + i <- a.[from + i]]) a.

(** [std::copy(src + from, src + to, dst + at)] between two arrays. *)
Definition copy_to (src : list A) (from to : Z) (dst : list A) (at_ : Z) : list A :=
  for_range 0 (to - from) (λ i dst, dst.[at_ + i <- src.[from + i]]) dst.

(** ** Where an element is *)

Lemma get_app l r i : 0 ≤ i → (l ++ r).[i] = if i <? len l then l.[i] else r.[i - len l].
Proof. intros. destruct (Z.ltb_spec i (len l)); [by apply get_app_l|by apply get_app_r]. Qed.

Lemma get_cons_if x l i : 0 ≤ i → (x :: l).[i] = if i =? 0 then x else l.[i - 1].
Proof. intros. destruct (Z.eqb_spec i 0) as [->|]; [done|apply get_cons; lia]. Qed.

Lemma len_nil : len (@nil A) = 0.
Proof. done. Qed.

(** ** The loops *)

Lemma shift_right_get a index last : 0 ≤ index → index ≤ last + 1 → last + 1 < len a →
  len (shift_right a index last) = len a ∧
  ∀ j, 0 ≤ j < len a → (shift_right a index last).[j] = if (index <? j) && (j <=? last + 1) then a.[j - 1] else a.[j].
Proof.
  intros Hi Hil Hl. unfold shift_right.
  assert (∀ j, (index <? j) = (last + 1 - (last - index + 1) <? j)) as Heq by (intros j; f_equal; lia).
  setoid_rewrite Heq.
  apply (for_range_inv (λ i b, len b = len a ∧
    ∀ j, 0 ≤ j < len a → b.[j] = if (last + 1 - i <? j) && (j <=? last + 1) then a.[j - 1] else a.[j])).
  - lia.
  - split; [done|]. intros j Hj. by zbool.
  - intros i b Hi' [Hlen Hb]. split; [by rewrite len_set|]. intros j Hj. rewrite get_set by lia.
    rewrite Hb by lia. zbool; simpl; try (rewrite Hb by lia); zbool; simpl; try done; try (f_equal; lia).
Qed.

Lemma move_within_get a from to at_ : 0 ≤ at_ ≤ from → from ≤ to ≤ len a →
  len (move_within a from to at_) = len a ∧
  ∀ j, 0 ≤ j < len a →
    (move_within a from to at_).[j] = if (at_ <=? j) && (j <? at_ + (to - from)) then a.[j - at_ + from] else a.[j].
Proof.
  intros Hat Hft. unfold move_within.
  apply (for_range_inv (λ i b, len b = len a ∧
    ∀ j, 0 ≤ j < len a → b.[j] = if (at_ <=? j) && (j <? at_ + i) then a.[j - at_ + from] else a.[j])).
  - lia.
  - split; [done|]. intros j Hj. zbool; simpl; done || lia.
  - intros i b Hi' [Hlen Hb]. split; [by rewrite len_set|]. intros j Hj. rewrite get_set by lia.
    rewrite !Hb by lia. zbool; simpl; try done; try (f_equal; lia).
Qed.

Lemma copy_to_get src from to dst at_ : 0 ≤ at_ → 0 ≤ from ≤ to → at_ + (to - from) ≤ len dst →
  len (copy_to src from to dst at_) = len dst ∧
  ∀ j, 0 ≤ j < len dst →
    (copy_to src from to dst at_).[j] = if (at_ <=? j) && (j <? at_ + (to - from)) then src.[j - at_ + from] else dst.[j].
Proof.
  intros Hat Hft Hl. unfold copy_to.
  apply (for_range_inv (λ i b, len b = len dst ∧
    ∀ j, 0 ≤ j < len dst → b.[j] = if (at_ <=? j) && (j <? at_ + i) then src.[j - at_ + from] else dst.[j])).
  - lia.
  - split; [done|]. intros j Hj. zbool; simpl; done || lia.
  - intros i b Hi' [Hlen Hb]. split; [by rewrite len_set|]. intros j Hj. rewrite get_set by lia.
    rewrite !Hb by lia. zbool; simpl; try done; try (f_equal; lia).
Qed.

End Arrays.

(** Equality of two arrays written with appends. *)
Ltac len_empty := match goal with |- context [@len ?A (@nil ?A)] => change (@len A (@nil A)) with 0 end.
Tactic Notation "len_empty" "in" hyp(H) :=
  match type of H with context [@len ?A (@nil ?A)] => change (@len A (@nil A)) with 0 in H end.
Ltac arr_len := repeat first [rewrite len_app | rewrite len_cons | len_empty | rewrite len_set | rewrite len_replicate].
Tactic Notation "arr_len" "in" hyp(H) :=
  repeat first [rewrite len_app in H | rewrite len_cons in H | len_empty in H | rewrite len_set in H
    | rewrite len_replicate in H].

Ltac arr_get :=
  zbool; simpl; repeat (first [ rewrite get_app by lia | rewrite get_cons_if by lia ]; arr_len; zbool; simpl);
  try done; try (f_equal; lia).

Section Lists.
  Context {A : Type} `{Inhabited A}.
  Implicit Types (a l r s : list A) (i : Z) (x y : A).

(** A gap is opened. *)
Lemma shift_right_app l s y r i last : i = len l → last = len l + len s - 1 →
  ∃ x, shift_right (l ++ s ++ y :: r) i last = l ++ x :: s ++ r.
Proof.
  intros -> ->. pose proof (len_nonneg l). pose proof (len_nonneg s). pose proof (len_nonneg r).
  destruct (shift_right_get (l ++ s ++ y :: r) (len l) (len l + len s - 1)) as [Hlen Hget]; [lia..|arr_len; lia|].
  exists ((l ++ s ++ y :: r).[len l]). apply arr_ext; [rewrite Hlen; arr_len; lia|].
  intros j Hj. rewrite Hlen in Hj. rewrite Hget by lia. arr_len in Hj. arr_get.
Qed.

(** The gap is filled. *)
Lemma set_app_middle l x y r i : i = len l → (l ++ x :: r).[i <- y] = l ++ y :: r.
Proof.
  intros ->. pose proof (len_nonneg l). pose proof (len_nonneg r).
  apply arr_ext; [by arr_len|]. intros j Hj. arr_len in Hj. rewrite get_set by (arr_len; lia). arr_get.
Qed.

(** A gap is closed; the last element stays behind the end. *)
Lemma move_within_app l x s r i n : i = len l → n = len l + 1 + len s →
  ∃ y, move_within (l ++ x :: s ++ r) (i + 1) n i = l ++ s ++ y :: r.
Proof.
  intros -> ->. pose proof (len_nonneg l). pose proof (len_nonneg s). pose proof (len_nonneg r).
  destruct (move_within_get (l ++ x :: s ++ r) (len l + 1) (len l + 1 + len s) (len l)) as [Hlen Hget];
    [lia|arr_len; lia|].
  exists ((l ++ x :: s ++ r).[len l + len s]). apply arr_ext; [rewrite Hlen; arr_len; lia|].
  intros j Hj. rewrite Hlen in Hj. rewrite Hget by lia. arr_len in Hj. arr_get.
Qed.

Lemma copy_to_app l s r l' s' r' from to at_ :
  from = len l → to = len l + len s → at_ = len l' → len s' = len s →
  copy_to (l ++ s ++ r) from to (l' ++ s' ++ r') at_ = l' ++ s ++ r'.
Proof.
  intros -> -> -> Hs. pose proof (len_nonneg l). pose proof (len_nonneg s). pose proof (len_nonneg l'). pose proof (len_nonneg r').
  destruct (copy_to_get (l ++ s ++ r) (len l) (len l + len s) (l' ++ s' ++ r') (len l')) as [Hlen Hget];
    [lia..|arr_len; lia|].
  apply arr_ext; [rewrite Hlen; arr_len; lia|].
  intros j Hj. rewrite Hlen in Hj. rewrite Hget by lia. arr_len in Hj. arr_get.
Qed.

(** ** Arrays with a stored prefix *)

(** The first elements of [a], of capacity [cap], are [l]. *)
Definition stores a (cap : Z) l : Prop := len a = cap ∧ ∃ r, a = l ++ r.

Lemma stores_get a cap l i : stores a cap l → 0 ≤ i < len l → a.[i] = l.[i].
Proof. intros [_ [r ->]] Hi. by apply get_app_l. Qed.

Lemma stores_len a cap l : stores a cap l → len l ≤ cap.
Proof. intros [<- [r ->]]. arr_len. pose proof (len_nonneg r). lia. Qed.

Lemma stores_drop a cap l s : stores a cap (l ++ s) → stores a cap l.
Proof. intros [Hl [r ->]]. split; [done|]. exists (s ++ r). by rewrite app_assoc. Qed.

Lemma stores_full a cap l : stores a cap l → len l = cap → a = l.
Proof.
  intros [Hl [r ->]] Heq. arr_len in Hl. destruct r; [by rewrite app_nil_r|]. arr_len in Hl.
  pose proof (len_nonneg r). lia.
Qed.

(** Room for one more. *)
Lemma stores_room a cap l : stores a cap l → len l < cap → ∃ y r, a = l ++ y :: r.
Proof.
  intros [Hl [r ->]] Hlt. destruct r as [|y r]; [|by exists y, r]. rewrite app_nil_r in Hl. lia.
Qed.

(** [a[index] = x] after the elements from [index] to [size - 1] moved right. *)
Definition insert_at a (index size : Z) x : list A := (shift_right a index (size - 1)).[index <- x].

Lemma insert_at_stores a cap l s i n x : stores a cap (l ++ s) → len l + len s < cap → i = len l → n = len l + len s →
  stores (insert_at a i n x) cap (l ++ x :: s).
Proof.
  intros Hst Hcap -> ->. destruct (stores_room _ _ _ Hst) as (y & r & ->); [arr_len; lia|].
  destruct Hst as [Hl _]. rewrite <-app_assoc. unfold insert_at. 
  destruct (shift_right_app l s y r (len l) (len l + len s - 1)) as [z Hz]; [done..|]. rewrite Hz.
  rewrite set_app_middle by done. split; [|by exists r; rewrite <-app_assoc].
  arr_len. arr_len in Hl. lia.
Qed.

Lemma stores_set a cap l x y s i : stores a cap (l ++ x :: s) → i = len l → stores a.[i <- y] cap (l ++ y :: s).
Proof.
  intros [Hl [r ->]] ->. rewrite <-app_assoc, <-app_comm_cons, set_app_middle by done.
  split; [|exists r; by rewrite <-app_assoc]. arr_len. arr_len in Hl. lia.
Qed.

Lemma stores_push a cap l y i : stores a cap l → len l < cap → i = len l → stores a.[i <- y] cap (l ++ [y]).
Proof.
  intros Hst Hlt ->. destruct (stores_room _ _ _ Hst Hlt) as (z & r & ->). destruct Hst as [Hl _].
  rewrite set_app_middle by done. split; [|exists r; by rewrite <-app_assoc]. arr_len. arr_len in Hl. lia.
Qed.

Lemma stores_nil a : stores a (len a) [].
Proof. split; [done|]. by exists a. Qed.

Lemma list_split l i : 0 ≤ i ≤ len l → ∃ l1 l2, l = l1 ++ l2 ∧ len l1 = i ∧ len l2 = len l - i.
Proof.
  intros Hi. exists (take (Z.to_nat i) l), (drop (Z.to_nat i) l). split; [by rewrite take_drop|].
  unfold len in *. rewrite length_take, length_drop. lia.
Qed.

(** A part of one array becomes the prefix of another. *)
Lemma copy_prefix l s r dst cap from to : len dst = cap → len s ≤ cap → from = len l → to = len l + len s →
  stores (copy_to (l ++ s ++ r) from to dst 0) cap s.
Proof.
  intros Hd Hle -> ->. pose proof (len_nonneg s). destruct (list_split dst (len s)) as (d1 & d2 & -> & Hx1 & Hx2); [lia|].
  change (d1 ++ d2) with ([] ++ d1 ++ d2). rewrite copy_to_app by done. split; [|by exists d2].
  revert Hd Hx2. arr_len. lia.
Qed.

(** A copy with a gap, which is filled. *)
Lemma copy_open a cap l s (m : nat) d x i n : stores a cap (l ++ s) → i = len l → n = len l + len s → Z.of_nat m = n + 1 →
  copy_to a i n ((copy_to a 0 i (replicate m d) 0).[i <- x]) (i + 1) = l ++ x :: s.
Proof.
  intros [_ [r ->]] -> -> Hm. pose proof (len_nonneg l). pose proof (len_nonneg s). rewrite <-app_assoc.
  destruct (list_split (replicate m d) (len l)) as (d1 & d2 & Hd & Hx1 & Hx2); [arr_len; lia|].
  rewrite Hd. revert Hx2. arr_len. intros Hx2. destruct d2 as [|y d2]; [rewrite len_nil in Hx2; lia|].
  rewrite len_cons in Hx2. change (d1 ++ y :: d2) with ([] ++ d1 ++ y :: d2).
  change (copy_to (l ++ s ++ r) 0) with (copy_to ([] ++ l ++ s ++ r) 0). rewrite copy_to_app by done. simpl.
  rewrite set_app_middle by done. replace (l ++ x :: d2) with ((l ++ [x]) ++ d2 ++ []) by (rewrite app_nil_r; by rewrite <-app_assoc).
  rewrite copy_to_app; [by rewrite app_nil_r, <-app_assoc|done..| |lia]. arr_len. lia.
Qed.

(** A part copied behind a prefix. *)
Lemma copy_append src s r dst cap l from to at_ : src = s ++ r → stores dst cap l → from = 0 → to = len s →
  at_ = len l → len l + len s ≤ cap → stores (copy_to src from to dst at_) cap (l ++ s).
Proof.
  intros -> [Hd [rd ->]] -> -> -> Hle. pose proof (len_nonneg s).
  destruct (list_split rd (len s)) as (d1 & d2 & -> & Hx1 & Hx2); [revert Hd; arr_len; lia|].
  change (s ++ r) with ([] ++ s ++ r). rewrite copy_to_app by done. split; [|exists d2; by rewrite <-app_assoc].
  revert Hd Hx2. arr_len. lia.
Qed.

(** The element at [i] is taken out. *)
Lemma move_within_stores a cap l x s i n : stores a cap (l ++ x :: s) → i = len l → n = len l + 1 + len s →
  stores (move_within a (i + 1) n i) cap (l ++ s).
Proof.
  intros [Hl [r ->]] -> ->. rewrite <-app_assoc, <-app_comm_cons.
  destruct (move_within_app l x s r (len l) (len l + 1 + len s)) as [y Hy]; [done..|]. rewrite Hy.
  split; [|exists (y :: r); by rewrite <-app_assoc]. revert Hl. arr_len. lia.
Qed.

End Lists.
