(* ===== verification/Weave.v ===== *)
(** The keys of a node between those of its children.

    A node with keys [k_1 ... k_n] and children [c_0 ... c_n] holds the keys of [c_0],
    then [k_1], then the keys of [c_1], and so on: the [weave] of the lists of its
    children and its own list. The trees with many children share this file. *)
From S2P Require Import Assoc Arrays Prelude.

Section Weave.
  Context {V : Type}.
  Implicit Types (kvs : list (Z * V)) (l : list (Z * V)) (ls : list (list (Z * V))) (k : Z) (v : V).

(** Children with the key after each, and with the key before each. *)
Definition heads ls kvs : list (Z * V) := concat (zip_with (λ l kv, l ++ [kv]) ls kvs).
Definition tails kvs ls : list (Z * V) := concat (zip_with cons kvs ls).

Definition weave ls kvs : list (Z * V) := match ls with [] => [] | l :: ls => l ++ tails kvs ls end.

Lemma tails_app kvs1 kvs2 ls1 ls2 : len kvs1 = len ls1 → tails (kvs1 ++ kvs2) (ls1 ++ ls2) = tails kvs1 ls1 ++ tails kvs2 ls2.
Proof. unfold tails, len. intros Hl. rewrite zip_with_app by lia. apply concat_app. Qed.

Lemma heads_app kvs1 kvs2 ls1 ls2 : len ls1 = len kvs1 → heads (ls1 ++ ls2) (kvs1 ++ kvs2) = heads ls1 kvs1 ++ heads ls2 kvs2.
Proof. unfold heads, len. intros Hl. rewrite zip_with_app by lia. apply concat_app. Qed.

Lemma tails_cons kv kvs l ls : tails (kv :: kvs) (l :: ls) = kv :: l ++ tails kvs ls.
Proof. done. Qed.

Lemma heads_cons kv kvs l ls : heads (l :: ls) (kv :: kvs) = (l ++ [kv]) ++ heads ls kvs.
Proof. done. Qed.

Lemma heads_snoc kv kvs l ls : len ls = len kvs → heads (ls ++ [l]) (kvs ++ [kv]) = (heads ls kvs ++ l) ++ [kv].
Proof. intros Hl. rewrite heads_app by done. unfold heads at 2. simpl. by rewrite app_nil_r, app_assoc. Qed.

(** The child at [len ls1] in the middle. *)
Lemma weave_focus ls1 l ls2 kvs1 kvs2 : len ls1 = len kvs1 →
  weave (ls1 ++ l :: ls2) (kvs1 ++ kvs2) = heads ls1 kvs1 ++ l ++ tails kvs2 ls2.
Proof.
  revert kvs1. induction ls1 as [|l1 ls1 IH]; intros kvs1 Hl; destruct kvs1 as [|kv kvs1]; try (unfold len in Hl; simpl in Hl; lia).
  - done.
  - rewrite !len_cons in Hl. specialize (IH kvs1 ltac:(lia)). rewrite heads_cons, <-app_assoc, <-IH.
    simpl. unfold weave. destruct ls1; simpl; rewrite tails_cons; by app_norm.
Qed.

(** A key in the middle separates two weaves. *)
Lemma weave_split ls1 ls2 kvs1 kv kvs2 : len ls1 = len kvs1 + 1 → len ls2 = len kvs2 + 1 →
  weave (ls1 ++ ls2) (kvs1 ++ kv :: kvs2) = weave ls1 kvs1 ++ kv :: weave ls2 kvs2.
Proof.
  intros H1 H2. destruct ls1 as [|l1 ls1]; [pose proof (len_nonneg kvs1); unfold len in *; simpl in H1; lia|].
  destruct ls2 as [|l2 ls2]; [pose proof (len_nonneg kvs2); unfold len in *; simpl in H2; lia|].
  simpl. rewrite len_cons in H1. rewrite tails_app by lia. rewrite tails_cons. by app_norm.
Qed.

(** The last child of one list becomes the first of the other. *)
Lemma weave_rotate la lx lb ka kv1 kv2 kb : len la = len ka + 1 → len lb = len kb + 1 →
  weave (la ++ [lx]) (ka ++ [kv1]) ++ kv2 :: weave lb kb = weave la ka ++ kv1 :: weave (lx :: lb) (kv2 :: kb).
Proof.
  intros Ha Hb. rewrite (weave_split la [lx] ka kv1 []) by done. unfold weave at 2. simpl. rewrite app_nil_r.
  destruct lb as [|l0 lb]; [pose proof (len_nonneg kb); unfold len in *; simpl in *; lia|].
  rewrite tails_cons. simpl. by app_norm.
Qed.

Lemma tails_leaf kvs ls : len ls = len kvs → Forall (λ l, l = []) ls → tails kvs ls = kvs.
Proof.
  revert ls. induction kvs as [|kv kvs IH]; intros [|l ls] Hl Hf; try (unfold len in Hl; simpl in Hl; lia); [done|].
  rewrite !len_cons in Hl. apply Forall_cons in Hf as [-> Hf]. rewrite tails_cons. simpl. f_equal. apply IH; [lia|done].
Qed.

Lemma heads_leaf kvs ls : len ls = len kvs → Forall (λ l, l = []) ls → heads ls kvs = kvs.
Proof.
  revert ls. induction kvs as [|kv kvs IH]; intros [|l ls] Hl Hf; try (unfold len in Hl; simpl in Hl; lia); [done|].
  rewrite !len_cons in Hl. apply Forall_cons in Hf as [-> Hf]. rewrite heads_cons. simpl. f_equal. apply IH; [lia|done].
Qed.

Lemma weave_leaf ls kvs : len ls = len kvs + 1 → Forall (λ l, l = []) ls → weave ls kvs = kvs.
Proof.
  destruct ls as [|l ls]; [pose proof (len_nonneg kvs); unfold len; simpl; lia|].
  intros Hl Hf. apply Forall_cons in Hf as [-> Hf]. rewrite len_cons in Hl. simpl. apply tails_leaf; [lia|done].
Qed.

(** The parts next to a child begin and end with a key. *)
Lemma heads_last ls ka kv : len ls = len (ka ++ [kv]) → ∃ l, heads ls (ka ++ [kv]) = l ++ [kv].
Proof.
  rewrite len_app, len_cons. intros Hl. pose proof (len_nonneg ka). change (len (@nil (Z * V))) with 0 in Hl.
  destruct ls as [|lx la _] using rev_ind; [change (len (@nil (list (Z * V)))) with 0 in Hl; lia|].
  rewrite len_app, len_cons in Hl. change (len (@nil (list (Z * V)))) with 0 in Hl.
  rewrite heads_snoc by lia. by eexists.
Qed.

Lemma tails_first ls kv kb : len ls = len (kv :: kb) → ∃ l, tails (kv :: kb) ls = kv :: l.
Proof.
  destruct ls as [|lx lb]; [rewrite len_cons; pose proof (len_nonneg kb); unfold len in *; simpl in *; lia|].
  intros _. rewrite tails_cons. by eexists.
Qed.

(** The keys of the node are among those of the weave. *)
Lemma weave_Forall (Q : Z * V → Prop) ls kvs : len ls = len kvs + 1 → Forall Q (weave ls kvs) → Forall Q kvs.
Proof.
  intros Hl HF. apply Forall_forall. intros kv Hkv. apply list_elem_of_split in Hkv as (kvs1 & kvs2 & ->).
  destruct ls as [|l ls]; [pose proof (len_nonneg (kvs1 ++ kv :: kvs2)); unfold len in Hl; simpl in Hl; lia|].
  simpl in HF. apply Forall_app in HF as [_ HF]. rewrite !len_app, !len_cons in Hl. pose proof (len_nonneg kvs2).
  rewrite <-(take_drop (length kvs1) ls), tails_app in HF by (unfold len in *; rewrite length_take; lia).
  apply Forall_app in HF as [_ HF]. destruct (drop (length kvs1) ls) as [|x y] eqn:Hd.
  - apply (f_equal length) in Hd. rewrite length_drop in Hd. unfold len in *. simpl in Hd. lia.
  - rewrite tails_cons in HF. by apply Forall_cons in HF as [HF _].
Qed.

(** ** Sorted weaves *)

Lemma heads_below k ls kvs : ksorted (heads ls kvs) → len ls = len kvs → below k kvs → below k (heads ls kvs).
Proof.
  destruct kvs as [|kv kvs _] using rev_ind; intros Hs Hl Hb; [destruct ls; apply below_nil|].
  destruct ls as [|l ls _] using rev_ind; [apply below_nil|]. rewrite !len_app in Hl.
  change (len [l]) with 1 in Hl. change (len [kv]) with 1 in Hl.
  rewrite heads_snoc in Hs |- * by lia. destruct kv as [k' v']. apply ksorted_middle in Hs as (_ & _ & Hs & _).
  apply below_app in Hb as [_ Hb]. rewrite below_cons in Hb. apply below_app.
  split; [apply (below_le k'); [done|lia]|]. rewrite below_cons. split; [lia|apply below_nil].
Qed.

Lemma tails_above k ls kvs : ksorted (tails kvs ls) → above k kvs → above k (tails kvs ls).
Proof.
  destruct kvs as [|[k' v'] kvs]; [intros; apply above_nil|]. destruct ls as [|l ls]; [intros; apply above_nil|].
  rewrite tails_cons, ksorted_cons, !above_cons. intros [Ha _] [Hk _]. split; [done|]. apply (above_le k'); [done|lia].
Qed.

Lemma ksorted_tails kvs ls : len kvs = len ls → ksorted (tails kvs ls) → ksorted kvs.
Proof.
  revert ls. induction kvs as [|[k v] kvs IH]; intros ls Hl Hs; [apply ksorted_nil|].
  destruct ls as [|l ls]; [unfold len in Hl; simpl in Hl; lia|]. rewrite !len_cons in Hl.
  rewrite tails_cons, ksorted_cons in Hs. destruct Hs as [Ha Hs]. apply ksorted_app in Hs as (_ & Hs & _).
  apply ksorted_cons. split; [|apply (IH ls); [lia|done]]. apply above_app in Ha as [_ Ha]. clear -Ha Hl.
  assert (len kvs = len ls) as Hl' by lia. clear Hl. revert ls Ha Hl'.
  induction kvs as [|[k' v'] kvs IH]; intros [|l' ls] Ha Hl'; try (unfold len in Hl'; simpl in Hl'; lia); [apply above_nil..|].
  rewrite tails_cons, above_cons, above_app in Ha. rewrite above_cons. split; [tauto|].
  rewrite !len_cons in Hl'. apply (IH ls); [tauto|lia].
Qed.

Lemma ksorted_weave ls kvs : len ls = len kvs + 1 → ksorted (weave ls kvs) → ksorted kvs.
Proof.
  destruct ls as [|l ls]; [pose proof (len_nonneg kvs); unfold len; simpl; lia|]. rewrite len_cons. simpl.
  intros Hl Hs. apply ksorted_app in Hs as (_ & Hs & _). apply (ksorted_tails _ ls); [lia|done].
Qed.

(** ** The position of a key in a node *)

Lemma ksorted_get kvs i j : ksorted kvs → 0 ≤ i ≤ j → j < len kvs → (kvs.*1).[i] ≤ (kvs.*1).[j].
Proof.
  revert i j. induction kvs as [|[k v] kvs IH]; intros i j Hs Hij Hj; [unfold len in Hj; simpl in Hj; lia|].
  rewrite len_cons in Hj. apply ksorted_cons in Hs as [Ha Hs]. simpl. rewrite !get_cons_if by lia.
  zbool; [lia..| |].
  - apply Z.lt_le_incl, Ha. apply list_elem_of_lookup_total. unfold get.
    exists (Z.to_nat (j - 1)). rewrite length_fmap. split; [unfold len in Hj; lia|done].
  - apply IH; [done|lia..].
Qed.

(** The list splits at the index that a search returns. *)
Lemma first_ge_split kvs k i : ksorted kvs → first_ge (kvs.*1) k (len kvs) i →
  ∃ kvs1 kvs2, kvs = kvs1 ++ kvs2 ∧ i = len kvs1 ∧ below k kvs1 ∧
    ((∃ v kvs2', kvs2 = (k, v) :: kvs2' ∧ i ≠ len kvs ∧ (kvs.*1).[i] = k) ∨
     (above k kvs2 ∧ (i = len kvs ∨ (kvs.*1).[i] ≠ k))).
Proof.
  intros Hs (Hi & Hlo & Hhi). set (kvs1 := take (Z.to_nat i) kvs). set (kvs2 := drop (Z.to_nat i) kvs).
  assert (kvs = kvs1 ++ kvs2) as Heq by (symmetry; apply take_drop).
  assert (i = len kvs1) as Hlen by (unfold kvs1, len in *; rewrite length_take; lia).
  assert (below k kvs1) as Hb.
  { intros k' Hk'. unfold kvs1 in Hk'. rewrite fmap_take in Hk'. apply list_elem_of_lookup in Hk' as [j Hj].
    apply lookup_take_Some in Hj as [Hj Hlt]. apply lookup_get in Hj. rewrite <-Hj. apply Hlo. lia. }
  exists kvs1, kvs2. split; [done|]. split; [done|]. split; [done|].
  clearbody kvs1 kvs2. subst kvs. rewrite len_app in Hi, Hhi |- *. destruct kvs2 as [|[k' v'] kvs2].
  { right. split; [apply above_nil|]. left. rewrite len_nil. lia. }
  rewrite len_cons in *. pose proof (len_nonneg kvs2).
  assert (((kvs1 ++ (k', v') :: kvs2).*1).[i] = k') as Hget.
  { rewrite fmap_app, get_app_r by (by rewrite len_fmap, Hlen). by rewrite len_fmap, Hlen, Z.sub_diag. }
  pose proof (Hhi i ltac:(lia)) as Hge. rewrite Hget in Hge. destruct (decide (k' = k)) as [->|Hne].
  - left. exists v', kvs2. split; [done|]. split; [lia|done].
  - right. split; [|right; lia]. apply ksorted_middle in Hs as (_ & _ & _ & Ha).
    rewrite above_cons. split; [lia|]. apply (above_le k'); [done|lia].
Qed.

End Weave.
