(* ===== verification/Kids.v ===== *)
(** Nodes with many children: the bounds of each child.

    In a node with keys [k_1 ... k_n] and bounds [lo], [hi] the child [c_0] has the
    bounds [lo], [k_1], then [c_1] has [k_1], [k_2], and so on. [kids R lo kvs cs ls hi]:
    [R] holds of each child, its bounds and its list. The self-adjusting and the
    interpolation trees share this file. *)
From S2P Require Import Prelude Assoc Arrays Weave.

Section Kids.
  Context {C D : Type}.
  Implicit Types (R : C → Z → Z → list (Z * D) → Prop) (kvs l : list (Z * D)) (cs : list C) (ls : list (list (Z * D))) (k : Z).

(** Children before each key, and all children: [R] of each with its bounds. *)
Fixpoint kids_pre R (lo : Z) kvs cs ls : Prop :=
  match kvs, cs, ls with
  | [], [], [] => True
  | (k, _) :: kvs, c :: cs, l :: ls => R c lo k l ∧ kids_pre R k kvs cs ls
  | _, _, _ => False
  end.

Definition first_key kvs (hi : Z) : Z := if kvs is (k, _) :: _ then k else hi.
Fixpoint last_key (lo : Z) kvs : Z := match kvs with [] => lo | (k, _) :: kvs => last_key k kvs end.

Fixpoint kids R (lo : Z) kvs cs ls (hi : Z) : Prop :=
  match kvs with
  | [] => ∃ c l, cs = [c] ∧ ls = [l] ∧ R c lo hi l
  | (k, _) :: kvs => ∃ c cs' l ls', cs = c :: cs' ∧ ls = l :: ls' ∧ R c lo k l ∧ kids R k kvs cs' ls' hi
  end.

(** The children after a key. *)
Definition kids_post R kvs cs ls (hi : Z) : Prop :=
  match kvs with [] => cs = [] ∧ ls = [] | (k, _) :: kvs => kids R k kvs cs ls hi end.

Lemma kids_cons R lo kvs c cs l ls hi :
  kids R lo kvs (c :: cs) (l :: ls) hi ↔ R c lo (first_key kvs hi) l ∧ kids_post R kvs cs ls hi.
Proof.
  destruct kvs as [|[k vd] kvs]; simpl.
  - split; [intros (? & ? & [= -> ->] & [= -> ->] & ?); done|]. intros (HR & -> & ->). by exists c, l.
  - split; [by intros (? & ? & ? & ? & [= -> ->] & [= -> ->] & ?)|]. intros [HR Hk]. by exists c, cs, l, ls.
Qed.

Lemma kids_app R lo kvs1 kvs2 cs ls hi : kids R lo (kvs1 ++ kvs2) cs ls hi ↔
  ∃ cs1 cs2 ls1 ls2, cs = cs1 ++ cs2 ∧ ls = ls1 ++ ls2 ∧ kids_pre R lo kvs1 cs1 ls1 ∧
    kids R (last_key lo kvs1) kvs2 cs2 ls2 hi.
Proof.
  revert lo cs ls. induction kvs1 as [|[k vd] kvs1 IH]; intros lo cs ls; simpl.
  - split; [intros Hk; by exists [], cs, [], ls|]. by intros ([|] & ? & [|] & ? & -> & -> & ? & ?).
  - split.
    + intros (c & cs' & l & ls' & -> & -> & HR & Hk). apply IH in Hk as (cs1 & cs2 & ls1 & ls2 & -> & -> & Hp & Hk).
      by exists (c :: cs1), cs2, (l :: ls1), ls2.
    + intros ([|c cs1] & cs2 & [|l ls1] & ls2 & -> & -> & Hp & Hk); try done. destruct Hp as [HR Hp].
      exists c, (cs1 ++ cs2), l, (ls1 ++ ls2). split; [done|]. split; [done|]. split; [done|]. apply IH. by exists cs1, cs2, ls1, ls2.
Qed.

Lemma kids_pre_len R lo kvs cs ls : kids_pre R lo kvs cs ls → len cs = len kvs ∧ len ls = len kvs.
Proof.
  revert lo cs ls. induction kvs as [|[k vd] kvs IH]; intros lo [|c cs] [|l ls]; try done. simpl.
  intros [_ Hp]. apply IH in Hp. rewrite !len_cons. lia.
Qed.

Lemma kids_post_len R kvs cs ls hi : kids_post R kvs cs ls hi → len cs = len kvs ∧ len ls = len kvs.
Proof.
  destruct kvs as [|[k vd] kvs]; [by intros [-> ->]|]. simpl.
  revert k vd cs ls. induction kvs as [|[k' vd'] kvs IH]; intros k vd cs ls; simpl; rewrite !len_cons.
  - by intros (c & l & -> & -> & _).
  - intros (c & cs' & l & ls' & -> & -> & _ & Hk). apply (IH k' vd') in Hk. rewrite !len_cons in *. lia.
Qed.

(** The child between [kvs1] and [kvs2], which may be replaced. *)
Lemma kids_focus R lo kvs1 kvs2 cs ls hi : kids R lo (kvs1 ++ kvs2) cs ls hi → ∃ cs1 c cs2 ls1 l ls2,
  cs = cs1 ++ c :: cs2 ∧ ls = ls1 ++ l :: ls2 ∧ kids_pre R lo kvs1 cs1 ls1 ∧
  R c (last_key lo kvs1) (first_key kvs2 hi) l ∧ kids_post R kvs2 cs2 ls2 hi.
Proof.
  intros (cs1 & cs' & ls1 & ls' & -> & -> & Hp & Hk)%kids_app.
  assert (∃ c cs2 l ls2, cs' = c :: cs2 ∧ ls' = l :: ls2) as (c & cs2 & l & ls2 & -> & ->).
  { destruct kvs2 as [|[k vd] kvs2]; simpl in Hk; [destruct Hk as (c & l & -> & -> & _)|destruct Hk as (c & cs2 & l & ls2 & -> & -> & _)]; by repeat eexists. }
  apply kids_cons in Hk as [HR Hk]. by exists cs1, c, cs2, ls1, l, ls2.
Qed.

Lemma kids_plug R lo kvs1 kvs2 cs1 c cs2 ls1 l ls2 hi : kids_pre R lo kvs1 cs1 ls1 →
  R c (last_key lo kvs1) (first_key kvs2 hi) l → kids_post R kvs2 cs2 ls2 hi →
  kids R lo (kvs1 ++ kvs2) (cs1 ++ c :: cs2) (ls1 ++ l :: ls2) hi.
Proof. intros Hp HR Hk. apply kids_app. exists cs1, (c :: cs2), ls1, (l :: ls2). do 3 (split; [done|]). by apply kids_cons. Qed.

Lemma kids_mono R R' lo kvs cs ls hi : (∀ c lo hi l, R c lo hi l → R' c lo hi l) →
  kids R lo kvs cs ls hi → kids R' lo kvs cs ls hi.
Proof.
  intros HR. revert lo cs ls. induction kvs as [|[k vd] kvs IH]; intros lo cs ls; simpl.
  - intros (c & l & -> & -> & H). exists c, l. auto.
  - intros (c & cs' & l & ls' & -> & -> & H & Hk). exists c, cs', l, ls'. auto 6.
Qed.

Lemma kids_pre_mono R R' lo kvs cs ls : (∀ c lo hi l, R c lo hi l → R' c lo hi l) →
  kids_pre R lo kvs cs ls → kids_pre R' lo kvs cs ls.
Proof.
  intros HR. revert lo cs ls. induction kvs as [|[k vd] kvs IH]; intros lo [|c cs] [|l ls]; try done.
  simpl. intros [H Hk]. auto.
Qed.

Lemma kids_post_mono R R' kvs cs ls hi : (∀ c lo hi l, R c lo hi l → R' c lo hi l) →
  kids_post R kvs cs ls hi → kids_post R' kvs cs ls hi.
Proof. intros HR. destruct kvs as [|[k vd] kvs]; [done|]. by apply kids_mono. Qed.

(** The bounds are the keys, whatever the values. *)
Lemma kids_set_value R lo kvs1 k vd vd' kvs2 cs ls hi :
  kids R lo (kvs1 ++ (k, vd) :: kvs2) cs ls hi → kids R lo (kvs1 ++ (k, vd') :: kvs2) cs ls hi.
Proof.
  rewrite !kids_app. intros (cs1 & cs2 & ls1 & ls2 & -> & -> & Hp & Hk). by exists cs1, cs2, ls1, ls2.
Qed.

Lemma kids_len R lo kvs cs ls hi : kids R lo kvs cs ls hi → len ls = len kvs + 1 ∧ len cs = len kvs + 1.
Proof.
  rewrite <-(app_nil_r kvs). intros (cs1 & c & cs2 & ls1 & l & ls2 & -> & -> & Hp & _ & Hq)%kids_focus.
  apply kids_pre_len in Hp as [Hc1 Hl1]. destruct Hq as [-> ->]. rewrite app_nil_r. arr_len. lia.
Qed.

Lemma kids_lookup R lo kvs1 kvs2 cs ls hi : kids R lo (kvs1 ++ kvs2) cs ls hi → ∃ cs1 c cs2 ls1 l ls2 lo' hi',
  cs = cs1 ++ c :: cs2 ∧ ls = ls1 ++ l :: ls2 ∧ len cs1 = len kvs1 ∧ len ls1 = len kvs1 ∧ R c lo' hi' l.
Proof.
  intros (cs1 & c & cs2 & ls1 & l & ls2 & -> & -> & Hp & HR & _)%kids_focus. apply kids_pre_len in Hp as [? ?].
  by exists cs1, c, cs2, ls1, l, ls2, (last_key lo kvs1), (first_key kvs2 hi).
Qed.

Lemma kids_pre_snoc R lo kvs cs ls k vd c l : kids_pre R lo kvs cs ls → R c (last_key lo kvs) k l →
  kids_pre R lo (kvs ++ [(k, vd)]) (cs ++ [c]) (ls ++ [l]).
Proof.
  revert lo cs ls. induction kvs as [|[k' vd'] kvs IH]; intros lo [|c' cs] [|l' ls]; try done.
  simpl. intros [HR Hp] Hc. split; [done|]. by apply IH.
Qed.

Lemma last_key_snoc lo kvs k vd : last_key lo (kvs ++ [(k, vd)]) = k.
Proof. revert lo. induction kvs as [|[k' vd'] kvs IH]; intros lo; simpl; [done|apply IH]. Qed.

Lemma weave_kids_null kvs : weave (replicate (S (length kvs)) []) kvs = kvs.
Proof. apply weave_leaf; [unfold len; rewrite length_replicate; lia|by apply Forall_replicate]. Qed.

Lemma ksorted_heads ls kvs s : len ls = len kvs → ksorted (heads ls kvs ++ s) → ksorted kvs.
Proof.
  intros Hl Hs. apply (ksorted_weave (ls ++ [s])); [arr_len; lia|]. rewrite <-(app_nil_r kvs), weave_focus by done.
  unfold tails. simpl. by rewrite app_nil_r.
Qed.

(** ** Keys inside of bounds *)

(** The keys are inside of the bounds. *)
Definition in_range (lo hi : Z) l : Prop := ∀ k, k ∈ l.*1 → lo ≤ k < hi.

Lemma in_range_app lo hi l1 l2 : in_range lo hi (l1 ++ l2) ↔ in_range lo hi l1 ∧ in_range lo hi l2.
Proof. unfold in_range. rewrite fmap_app. set_solver. Qed.

Lemma in_range_split lo hi l1 k vd l2 : ksorted (l1 ++ (k, vd) :: l2) → in_range lo hi (l1 ++ (k, vd) :: l2) →
  lo ≤ k < hi ∧ in_range lo k l1 ∧ in_range k hi l2.
Proof.
  intros (_ & _ & Hb & Ha)%ksorted_middle [H1 H2]%in_range_app.
  split; [apply H2; set_solver|]. split; intros k' Hk'.
  - specialize (Hb k' Hk'). specialize (H1 k' Hk'). lia.
  - specialize (Ha k' Hk'). assert (lo ≤ k' < hi) by (apply H2; set_solver). lia.
Qed.

(** The keys after those of a node. *)
Lemma in_range_last (lo hi : Z) ls kvs l : len ls = len kvs → ksorted (heads ls kvs ++ l) → in_range lo hi (heads ls kvs ++ l) →
  in_range (last_key lo kvs) hi l.
Proof.
  intros Hl (_ & _ & Hlt)%ksorted_app [_ Hin]%in_range_app x Hx. specialize (Hin x Hx). split; [|lia].
  destruct kvs as [|[k d] ka _] using rev_ind; [simpl; lia|]. rewrite last_key_snoc.
  destruct (heads_last _ _ _ Hl) as [l1 Hh]. apply Z.lt_le_incl, Hlt; [|done]. rewrite Hh, fmap_app. set_solver.
Qed.

(** The bounds of a child. *)
Lemma in_range_child lo hi ls1 kvs1 l kvs2 ls2 : len ls1 = len kvs1 → len ls2 = len kvs2 →
  ksorted (heads ls1 kvs1 ++ l ++ tails kvs2 ls2) → in_range lo hi (heads ls1 kvs1 ++ l ++ tails kvs2 ls2) →
  in_range (last_key lo kvs1) (first_key kvs2 hi) l.
Proof.
  intros H1 H2 (_ & (_ & _ & Hlt)%ksorted_app & Hhl)%ksorted_app [_ [Hl _]%in_range_app]%in_range_app x Hx.
  specialize (Hl x Hx). split.
  - destruct kvs1 as [|[k' vd] ka _] using rev_ind; [simpl; lia|]. rewrite last_key_snoc.
    destruct (heads_last _ _ _ H1) as [l1 Hh]. apply Z.lt_le_incl, Hhl; [rewrite Hh|]; rewrite fmap_app; set_solver.
  - destruct kvs2 as [|[k' vd] kb]; [simpl; lia|]. simpl.
    destruct (tails_first _ _ _ H2) as [l2 Ht]. apply Hlt; [done|]. rewrite Ht. set_solver.
Qed.

Lemma last_key_ge (lo hi : Z) ls kvs l : len ls = len kvs → in_range lo hi (heads ls kvs ++ l) → lo ≤ last_key lo kvs.
Proof.
  intros H1 [Hh _]%in_range_app. destruct kvs as [|[k vd] ka _] using rev_ind; [done|]. rewrite last_key_snoc.
  destruct (heads_last _ _ _ H1) as [l1 Heq]. apply (Hh k). rewrite Heq, fmap_app. set_solver.
Qed.

(** The bounds of a child are within those of its parent. *)
Lemma child_within lo hi ls1 kvs1 l kvs2 ls2 : len ls1 = len kvs1 → len ls2 = len kvs2 →
  in_range lo hi (heads ls1 kvs1 ++ l ++ tails kvs2 ls2) → lo ≤ last_key lo kvs1 ∧ first_key kvs2 hi ≤ hi.
Proof.
  intros H1 H2 Hin. split; [by eapply last_key_ge|]. apply in_range_app in Hin as [_ [_ Ht]%in_range_app].
  - destruct kvs2 as [|[k vd] kb]; [done|]. simpl. destruct (tails_first _ _ _ H2) as [l2 Heq].
    apply Z.lt_le_incl, (Ht k). rewrite Heq. set_solver.
Qed.

(** The list of a node around one of its keys. *)
Lemma weave_entry R lo kvs1 k vd kvs2 cs ls hi : kids R lo (kvs1 ++ (k, vd) :: kvs2) cs ls hi →
  ∃ l1 l2, ∀ vd, weave ls (kvs1 ++ (k, vd) :: kvs2) = l1 ++ (k, vd) :: l2.
Proof.
  intros (cs1 & c & cs2 & ls1 & l & ls2 & -> & -> & Hp & _ & Hq)%kids_focus.
  apply kids_pre_len in Hp as [_ Hl1]. apply kids_post_len in Hq as [_ Hl2].
  destruct ls2 as [|l2 ls2]; [rewrite len_cons in Hl2; pose proof (len_nonneg kvs2); change (len (@nil (list (Z * D)))) with 0 in Hl2; lia|].
  exists (heads ls1 kvs1 ++ l), (l2 ++ tails kvs2 ls2). intros vd'. rewrite weave_focus by done. rewrite tails_cons. by app_norm.
Qed.

Lemma below_last_key k (lo : Z) kvs : below k kvs → lo ≤ k → last_key lo kvs ≤ k.
Proof.
  destruct kvs as [|[k' vd] kvs _] using rev_ind; [done|]. rewrite last_key_snoc, below_app, below_cons. lia.
Qed.

Lemma above_first_key k (hi : Z) kvs : above k kvs → k < hi → k < first_key kvs hi.
Proof. destruct kvs as [|[k' vd] kvs]; [done|]. rewrite above_cons. simpl. lia. Qed.

(** As above, when no key is the lower bound. *)
Lemma above_last_key (lo : Z) ls kvs l : len ls = len kvs → ksorted (heads ls kvs ++ l) → above lo (heads ls kvs ++ l) →
  above (last_key lo kvs) l.
Proof.
  intros Hl (_ & _ & Hlt)%ksorted_app [_ Ha]%above_app. destruct kvs as [|[k d] ka _] using rev_ind; [done|].
  rewrite last_key_snoc. destruct (heads_last _ _ _ Hl) as [l1 Hh]. intros x Hx. apply Hlt; [|done].
  rewrite Hh, fmap_app. set_solver.
Qed.

Lemma bounds_strict (lo hi : Z) ls1 kvs1 l kvs2 ls2 : len ls1 = len kvs1 → len ls2 = len kvs2 → lo < hi →
  ksorted (heads ls1 kvs1 ++ l ++ tails kvs2 ls2) → in_range lo hi (heads ls1 kvs1 ++ l ++ tails kvs2 ls2) →
  above lo (heads ls1 kvs1 ++ l ++ tails kvs2 ls2) → last_key lo kvs1 < first_key kvs2 hi.
Proof.
  intros H1 H2 Hlh Hs [Hin _]%in_range_app Ha%above_last_key; [|done..]. destruct kvs2 as [|[k d] kb]; simpl.
  - destruct kvs1 as [|[k d] ka _] using rev_ind; [done|]. rewrite last_key_snoc.
    destruct (heads_last _ _ _ H1) as [l1 Hh]. apply Hin. rewrite Hh, fmap_app. set_solver.
  - destruct (tails_first _ _ _ H2) as [l2 Ht]. apply Ha. rewrite Ht, fmap_app. set_solver.
Qed.

Lemma bounds_ordered lo hi ls1 kvs1 l kvs2 ls2 : len ls1 = len kvs1 → len ls2 = len kvs2 → lo ≤ hi →
  ksorted (heads ls1 kvs1 ++ l ++ tails kvs2 ls2) → in_range lo hi (heads ls1 kvs1 ++ l ++ tails kvs2 ls2) →
  last_key lo kvs1 ≤ first_key kvs2 hi.
Proof.
  intros H1 H2 Hlh (_ & _ & Hhl)%ksorted_app [Hh [_ Ht]%in_range_app]%in_range_app.
  assert (∀ k vd ka, kvs1 = ka ++ [(k, vd)] → k ∈ (heads ls1 kvs1).*1) as Hin1.
  { intros k vd ka ->. destruct (heads_last _ _ _ H1) as [l1 Heq]. rewrite Heq, fmap_app. set_solver. }
  assert (∀ k vd kb, kvs2 = (k, vd) :: kb → k ∈ (tails kvs2 ls2).*1) as Hin2.
  { intros k vd kb ->. destruct (tails_first _ _ _ H2) as [l2 Heq]. rewrite Heq. set_solver. }
  destruct kvs1 as [|[k1 vd1] ka _] using rev_ind; [|rewrite last_key_snoc; specialize (Hin1 k1 vd1 ka eq_refl)];
    (destruct kvs2 as [|[k2 vd2] kb]; [|specialize (Hin2 k2 vd2 kb eq_refl)]); simpl.
  - done.
  - by apply Ht.
  - apply Z.lt_le_incl. by apply Hh.
  - apply Z.lt_le_incl, Hhl; [done|]. rewrite fmap_app. set_solver.
Qed.

End Kids.

Section Null.
  Context {N D : Type}.
  Implicit Types (R : option N → Z → Z → list (Z * D) → Prop) (kvs : list (Z * D)) (cs : list (option N)) (ls : list (list (Z * D))).

(** Null children only. *)
Lemma kids_null R lo kvs cs ls hi : (∀ lo hi l, R None lo hi l ↔ l = []) → Forall (λ c, c = None) cs →
  len cs = len kvs + 1 → kids R lo kvs cs ls hi ↔ ls = replicate (length cs) [].
Proof.
  intros HR. revert lo cs ls. induction kvs as [|[k vd] kvs IH]; intros lo cs ls HF Hl; simpl.
  - destruct cs as [|c [|c' cs]]; try (unfold len in Hl; simpl in Hl; lia). apply Forall_cons in HF as [-> _]. simpl. split.
    + intros (? & l & [= <-] & -> & H%HR). by subst.
    + intros ->. exists None, []. split; [done|]. split; [done|]. by apply HR.
  - destruct cs as [|c cs]; [pose proof (len_nonneg kvs); unfold len in *; simpl in *; lia|]. rewrite !len_cons in Hl.
    apply Forall_cons in HF as [-> HF]. simpl. split.
    + intros (? & ? & l & ls' & [= <- <-] & -> & H%HR & Hk). apply IH in Hk; [by subst|done|lia].
    + intros ->. exists None, cs, [], (replicate (length cs) []). split; [done|]. split; [done|]. split; [by apply HR|].
      apply IH; [done|lia|done].
Qed.

(** A node whose children are all null. *)
Lemma kids_all_nil R (lo : Z) kvs1 kvs2 cs1 cs2 ls1 ls2 hi : (∀ lo hi l, R None lo hi l ↔ l = []) →
  Forall (λ c, c = None) (cs1 ++ None :: cs2) → kids_pre R lo kvs1 cs1 ls1 → kids_post R kvs2 cs2 ls2 hi →
  heads ls1 kvs1 = kvs1 ∧ tails kvs2 ls2 = kvs2.
Proof.
  intros HR HF Hp Hq. pose proof (kids_pre_len _ _ _ _ _ Hp) as [Hc1 Hl1]. pose proof (kids_post_len _ _ _ _ _ Hq) as [Hc2 Hl2].
  assert (kids R lo (kvs1 ++ kvs2) (cs1 ++ None :: cs2) (ls1 ++ [] :: ls2) hi) as Hk
    by (apply kids_plug; [done|by apply HR|done]).
  apply kids_null in Hk; [|done|done|revert Hc1 Hc2; arr_len; lia].
  assert (Forall (λ l, l = []) (ls1 ++ [] :: ls2)) as HL by (rewrite Hk; by apply Forall_replicate).
  apply Forall_app in HL as [HL1 [_ HL2]%Forall_cons]. split; [by apply heads_leaf|by apply tails_leaf].
Qed.

End Null.

(** ** The arrays of a node

    What the arrays of a node for [cap] keys store. The children behind the used ones are
    null; in a node that is being filled ([filled]) there is a child before each key. *)

Section Node.
  Context {N D : Type} `{!Inhabited D}.
  Implicit Types (r : list Z) (vs : list D) (c : list (option N)) (kvs : list (Z * D)) (cs : list (option N)) (k : Z) (d : D).

Definition stores_node r vs c (size cap : Z) kvs cs : Prop :=
  stores r cap kvs.*1 ∧ stores vs cap kvs.*2 ∧ len c = cap + 1 ∧ (∃ j, c = cs ++ replicate j None) ∧
  size = len kvs ∧ len cs = len kvs + 1.

Lemma stores_node_kv r vs c size cap kvs1 k d kvs2 cs i : stores_node r vs c size cap (kvs1 ++ (k, d) :: kvs2) cs →
  i = len kvs1 → r.[i] = k ∧ vs.[i] = d.
Proof.
  intros (Hk & Hv & _) ->. pose proof (len_nonneg kvs1). pose proof (len_nonneg kvs2).
  rewrite (stores_get _ _ _ _ Hk), (stores_get _ _ _ _ Hv) by (rewrite len_fmap; arr_len; lia).
  rewrite !fmap_app, !get_app_r by (rewrite len_fmap; lia). by rewrite !len_fmap, Z.sub_diag.
Qed.

Lemma stores_node_child r vs c size cap kvs cs1 x cs2 i : stores_node r vs c size cap kvs (cs1 ++ x :: cs2) →
  i = len cs1 → c.[i] = x.
Proof.
  intros (_ & _ & _ & (j & ->) & _) ->. pose proof (len_nonneg cs1). rewrite <-app_assoc, get_app_r by lia. by rewrite Z.sub_diag.
Qed.

Lemma stores_node_set_child r vs c size cap kvs cs1 x cs2 i y : stores_node r vs c size cap kvs (cs1 ++ x :: cs2) →
  i = len cs1 → stores_node r vs c.[i <- y] size cap kvs (cs1 ++ y :: cs2).
Proof.
  intros (Hk & Hv & Hl & (j & Hj) & Hs & Hc) ->. split; [done|]. split; [done|]. split; [|split; [|split; [done|]]].
  - by rewrite len_set.
  - exists j. rewrite Hj, <-!app_assoc, <-!app_comm_cons. by apply set_app_middle.
  - revert Hc. by arr_len.
Qed.

Lemma stores_node_set_value r vs c size cap kvs1 k d d' kvs2 cs i : stores_node r vs c size cap (kvs1 ++ (k, d) :: kvs2) cs →
  i = len kvs1 → stores_node r vs.[i <- d'] c size cap (kvs1 ++ (k, d') :: kvs2) cs.
Proof.
  intros (Hr & Hv & Hc & Hj & Hsz & Hcs) ->. revert Hr Hv Hsz Hcs. unfold stores_node. rewrite !fmap_app, !len_app, !len_cons.
  intros Hr Hv Hsz Hcs. split_and!; try done. apply stores_set with (x := d); [done|by rewrite len_fmap].
Qed.

(** The keys are in order. *)
Lemma stores_node_sorted r vs c size cap kvs cs : stores_node r vs c size cap kvs cs → ksorted kvs →
  ∀ i j, 0 ≤ i ≤ j → j < size → r.[i] ≤ r.[j].
Proof.
  intros (Hr & _ & _ & _ & Hs & _) Hsort i j Hi Hj. rewrite Hs in Hj.
  rewrite !(stores_get _ _ _ _ Hr) by (rewrite len_fmap; lia). by apply ksorted_get.
Qed.

(** A search finds the key, or the child where it belongs. *)
Lemma stores_node_search r vs c size cap kvs cs k i : stores_node r vs c size cap kvs cs → ksorted kvs → first_ge r k size i →
  ∃ kvs1 kvs2, kvs = kvs1 ++ kvs2 ∧ i = len kvs1 ∧ below k kvs1 ∧
    ((∃ d kvs2', kvs2 = (k, d) :: kvs2' ∧ negb (i =? size) && (r.[i] =? k) = true) ∨
     (above k kvs2 ∧ negb (i =? size) && (r.[i] =? k) = false)).
Proof.
  intros (Hr & _ & _ & _ & Hsz & _) Hs Hge. rewrite Hsz in Hge |- *.
  assert (first_ge kvs.*1 k (len kvs) i) as Hge'.
  { destruct Hge as (Hb & Hlo & Hhi). split; [done|]. split; intros j Hj;
      rewrite <-(stores_get _ _ _ _ Hr) by (rewrite len_fmap; lia); auto. }
  destruct (first_ge_split _ _ _ Hs Hge') as (kvs1 & kvs2 & Heq & Hlen & Hb & Hcase).
  exists kvs1, kvs2. split; [done|]. split; [done|]. split; [done|].
  destruct Hcase as [(d & kvs2' & -> & Hne & Hget)|[Ha Hget]]; [left; exists d, kvs2'|right]; (split; [done|]).
  - rewrite (stores_get _ _ _ _ Hr) by (rewrite len_fmap; destruct Hge; lia). rewrite Hget. lia.
  - destruct Hget as [Hget|Hget]; [lia|]. destruct (Z.eqb_spec i (len kvs)); [done|].
    rewrite (stores_get _ _ _ _ Hr) by (rewrite len_fmap; destruct Hge; lia). simpl. lia.
Qed.

(** The bounds that the code computes for a child. *)
Lemma stores_node_bounds r vs c size cap kvs1 kvs2 cs (lo hi : Z) : stores_node r vs c size cap (kvs1 ++ kvs2) cs →
  (if len kvs1 =? 0 then lo else r.[len kvs1 - 1]) = last_key lo kvs1 ∧
  (if len kvs1 =? size then hi else r.[len kvs1]) = first_key kvs2 hi.
Proof.
  intros Hh. pose proof Hh as (_ & _ & _ & _ & Hs & _). rewrite len_app in Hs. split.
  - destruct kvs1 as [|[k d] ka _] using rev_ind; [done|]. rewrite last_key_snoc, len_app, len_cons. rewrite <-app_assoc in Hh.
    change (len (@nil (Z * D))) with 0. pose proof (len_nonneg ka). destruct (Z.eqb_spec (len ka + (0 + 1)) 0); [lia|].
    by destruct (stores_node_kv _ _ _ _ _ _ _ _ _ _ (len ka + (0 + 1) - 1) Hh ltac:(lia)) as [-> _].
  - destruct kvs2 as [|[k d] kb].
    + change (len (@nil (Z * D))) with 0 in Hs. destruct (Z.eqb_spec (len kvs1) size); [done|lia].
    + rewrite len_cons in Hs. pose proof (len_nonneg kb). destruct (Z.eqb_spec (len kvs1) size); [lia|].
      by destruct (stores_node_kv _ _ _ _ _ _ _ _ _ _ (len kvs1) Hh eq_refl) as [-> _].
Qed.

(** *** Nodes without children *)

Lemma null_replicate cs : Forall (λ x, x = None) cs → cs = replicate (length cs) None.
Proof. intros HF. symmetry. apply replicate_as_elem_of. split; [done|]. intros x. by rewrite Forall_forall in HF; apply HF. Qed.

Lemma stores_node_null_children r vs c size cap kvs cs : stores_node r vs c size cap kvs cs → Forall (λ x, x = None) cs →
  c = replicate (Z.to_nat (cap + 1)) None.
Proof.
  intros (_ & _ & Hl & (j & Hj) & _) HF. rewrite (null_replicate cs HF), <-replicate_add in Hj. rewrite Hj in Hl |- *.
  rewrite len_replicate in Hl. f_equal. lia.
Qed.

Lemma stores_node_null r vs c size cap kvs : stores r cap kvs.*1 → stores vs cap kvs.*2 →
  c = replicate (Z.to_nat (cap + 1)) None → size = len kvs → stores_node r vs c size cap kvs (replicate (S (length kvs)) None).
Proof.
  intros Hr Hv Hc Hs. pose proof (stores_len _ _ _ Hr) as Hl. rewrite len_fmap in Hl. pose proof (len_nonneg kvs).
  split_and!; try done.
  - rewrite Hc, len_replicate. lia.
  - rewrite Hc. exists (Z.to_nat cap - length kvs)%nat. rewrite <-replicate_add. f_equal. unfold len in *. lia.
  - rewrite len_replicate. unfold len. lia.
Qed.

(** A key goes between the others. *)
Lemma stores_insert r vs cap (size : Z) kvs1 k d kvs2 : stores r cap (kvs1 ++ kvs2).*1 → stores vs cap (kvs1 ++ kvs2).*2 →
  size = len (kvs1 ++ kvs2) → size < cap →
  stores (insert_at r (len kvs1) size k) cap (kvs1 ++ (k, d) :: kvs2).*1 ∧
  stores (insert_at vs (len kvs1) size d) cap (kvs1 ++ (k, d) :: kvs2).*2.
Proof.
  rewrite !fmap_app, !fmap_cons, len_app. intros Hr Hv Hs Hroom.
  split; (apply insert_at_stores; [done|rewrite !len_fmap; lia|by rewrite len_fmap|by rewrite !len_fmap]).
Qed.

(** *** Nodes that are being filled *)

Definition filled r vs c (cap : Z) kvs cs : Prop :=
  stores r cap kvs.*1 ∧ stores vs cap kvs.*2 ∧ len c = cap + 1 ∧ (∃ j, c = cs ++ replicate j None) ∧ len cs = len kvs.

Lemma stores_new {A} `{!Inhabited A} (x : A) cap : 0 ≤ cap → stores (replicate (Z.to_nat cap) x) cap [].
Proof. intros Hc. split; [rewrite len_replicate; lia|]. by eexists. Qed.

Lemma filled_new x (d : D) cap : 0 ≤ cap →
  filled (replicate (Z.to_nat cap) x) (replicate (Z.to_nat cap) d) (replicate (Z.to_nat (cap + 1)) None) cap [] [].
Proof.
  intros Hc. split_and!; [by apply stores_new..|rewrite len_replicate; lia|by eexists|done].
Qed.

Lemma filled_push r vs c cap kvs cs k d x (i : Z) : filled r vs c cap kvs cs → i = len kvs → len kvs < cap →
  filled r.[i <- k] vs.[i <- d] c.[i <- x] cap (kvs ++ [(k, d)]) (cs ++ [x]).
Proof.
  intros (Hr & Hv & Hl & (j & Hj) & Hc) -> Hcap. unfold filled. rewrite !fmap_app. split_and!.
  - apply stores_push; [done|by rewrite len_fmap|by rewrite len_fmap].
  - apply stores_push; [done|by rewrite len_fmap|by rewrite len_fmap].
  - by rewrite len_set.
  - destruct j as [|j]; [rewrite Hj, app_nil_r in Hl; lia|]. exists j. rewrite Hj. simpl.
    rewrite set_app_middle by done. by app_norm.
  - arr_len. lia.
Qed.

(** The last child completes the node. *)
Lemma filled_finish r vs c cap kvs cs x (i : Z) : filled r vs c cap kvs cs → i = len kvs → len kvs ≤ cap →
  stores_node r vs c.[i <- x] i cap kvs (cs ++ [x]).
Proof.
  intros (Hr & Hv & Hl & (j & Hj) & Hc) -> Hcap. unfold stores_node. split_and!; try done.
  - by rewrite len_set.
  - destruct j as [|j]; [rewrite Hj, app_nil_r in Hl; lia|]. exists j. rewrite Hj. simpl.
    rewrite set_app_middle by done. by app_norm.
  - arr_len. lia.
Qed.

Lemma filled_get r vs c cap kvs cs k : filled r vs c cap kvs cs → len kvs < cap → (r.[len kvs <- k]).[len kvs] = k.
Proof. intros ([Hl _] & _) Hcap. apply get_set_eq. pose proof (len_nonneg kvs). lia. Qed.

(** The loop that copies the entries of a leaf. *)
Lemma copy_entries (a s b : list (Z * D)) r vs (cap : Z) : stores r cap [] → stores vs cap [] → len s ≤ cap →
  ∃ r' vs', for_range 0 (len s) (λ i '(r, vs), (r.[i <- ((a ++ s ++ b).[len a + i]).1], vs.[i <- ((a ++ s ++ b).[len a + i]).2]))
      (r, vs) = (r', vs') ∧ stores r' cap s.*1 ∧ stores vs' cap s.*2.
Proof.
  intros Hr0 Hv0 Hs. pose proof (len_nonneg s). pose proof (len_nonneg a).
  enough (∃ r' vs' s1 s2, for_range 0 (len s)
      (λ i '(r, vs), (r.[i <- ((a ++ s ++ b).[len a + i]).1], vs.[i <- ((a ++ s ++ b).[len a + i]).2])) (r, vs) = (r', vs') ∧
      s = s1 ++ s2 ∧ len s1 = len s ∧ stores r' cap s1.*1 ∧ stores vs' cap s1.*2) as (r' & vs' & s1 & s2 & -> & Heq & Hl & Hr & Hv).
  { exists r', vs'. split; [done|]. rewrite Heq, len_app in Hl. assert (s2 = []) as -> by (apply nil_length_inv; unfold len in *; lia).
    rewrite app_nil_r in Heq. by rewrite Heq. }
  apply (for_range_inv (λ i st, ∃ r' vs' s1 s2, st = (r', vs') ∧ s = s1 ++ s2 ∧ len s1 = i ∧ stores r' cap s1.*1 ∧ stores vs' cap s1.*2)).
  - done.
  - by exists r, vs, [], s.
  - intros i st Hi (r' & vs' & s1 & s2 & -> & -> & Hl & Hr & Hv). destruct s2 as [|e s2]; [rewrite app_nil_r in *; lia|].
    assert ((a ++ (s1 ++ e :: s2) ++ b).[len a + i] = e) as ->.
    { rewrite get_app_r by lia. rewrite <-app_assoc, get_app_r by lia. by replace (len a + i - len a - len s1) with 0 by lia. }
    rewrite len_app, len_cons in Hs. pose proof (len_nonneg s2).
    eexists _, _, (s1 ++ [e]), s2. split; [done|]. split; [by app_norm|]. split; [arr_len; lia|]. rewrite !fmap_app.
    split; (apply stores_push; [done|rewrite len_fmap; lia|by rewrite len_fmap]).
Qed.

End Node.
