(* ===== verification/Lazy.v ===== *)
(** Lazily deleted entries.

    Some trees keep the entry of a removed key, marked, until they are rebuilt. [val]
    is the value of an entry that is not removed. [trim x y]: [y] is [x] without some
    of the removed entries; [alive_map] is the map that a list of entries stands for;
    [edits] is what an operation on one key does to the list. *)
From S2P Require Import Prelude Assoc Arrays Weave.

(** ** Operations on one key *)

Section Edits.
  Context {D V : Type}.
  Implicit Types (l : list (Z * D)) (k : Z).

(** [on_key] edits the entry of the key and gives the result; a missing key's result is
    [no_value_], and [added] are its new entries. *)
Definition edits (on_key : D → D * V) (no_value_ : V) k (added l l' : list (Z * D)) (result : V) : Prop :=
  ∃ l1 l2, below k l1 ∧ above k l2 ∧
    ((∃ d, l = l1 ++ (k, d) :: l2 ∧ l' = l1 ++ (k, (on_key d).1) :: l2 ∧ result = (on_key d).2) ∨
     (l = l1 ++ l2 ∧ l' = l1 ++ added ++ l2 ∧ result = no_value_)).

(** At most the key is added. *)
Definition adds k (added : list (Z * D)) : Prop := added = [] ∨ ∃ d, added = [(k, d)].

Section Laws.
  Context (on_key : D → D * V) (no_value_ : V) (k : Z) (added : list (Z * D)).
  Implicit Types (r : V).

Abbreviation edits := (edits on_key no_value_ k added).

Lemma edits_between pre l l' post r : below k pre → above k post → edits l l' r →
  edits (pre ++ l ++ post) (pre ++ l' ++ post) r.
Proof.
  intros Hpre Hpost (l1 & l2 & Hb & Ha & H). exists (pre ++ l1), (l2 ++ post).
  rewrite below_app, above_app. split; [done|]. split; [done|].
  destruct H as [(d & -> & -> & ->)|(-> & -> & ->)]; [left; exists d|right]; by rewrite <-!app_assoc.
Qed.

Lemma edits_len l l' r : edits l l' r → len l' ≤ len l + len added.
Proof.
  intros (l1 & l2 & _ & _ & [(d & -> & -> & _)|(-> & -> & _)]); pose proof (len_nonneg added); rewrite ?len_app, ?len_cons; lia.
Qed.

Lemma edits_sorted l l' r : adds k added → edits l l' r → ksorted l → ksorted l'.
Proof.
  intros Hadds (l1 & l2 & Hb & Ha & [(d & -> & -> & _)|(-> & -> & _)]).
  - by rewrite !ksorted_middle.
  - intros Hs. destruct Hadds as [->|(d & ->)]; [done|]. by apply ksorted_insert.
Qed.

(** A property of all entries that [on_key] keeps. *)
Lemma edits_Forall (Q : Z * D → Prop) l l' r : edits l l' r → Forall Q added →
  (∀ d, Q (k, d) → Q (k, (on_key d).1)) → Forall Q l → Forall Q l'.
Proof.
  intros (l1 & l2 & _ & _ & [(d & -> & -> & _)|(-> & -> & _)]) Ha Hk; rewrite !Forall_app, ?Forall_cons.
  - intros (H1 & H & H2). split; [done|]. split; [by apply Hk|done].
  - by intros (H1 & H2).
Qed.

Lemma edits_keys (Q : Z → Prop) l l' r : adds k added → edits l l' r → (added ≠ [] → Q k) → (∀ k', k' ∈ l.*1 → Q k') →
  ∀ k', k' ∈ l'.*1 → Q k'.
Proof.
  intros Hadds (l1 & l2 & Hb & Ha & [(d & -> & -> & _)|(-> & -> & _)]) Hk; rewrite !fmap_app; simpl.
  - set_solver.
  - intros Hl k'. rewrite !elem_of_app. destruct Hadds as [->|(d & ->)]; [set_solver|]. specialize (Hk ltac:(done)). set_solver.
Qed.

End Laws.

End Edits.

Section Lazy.
  Context {D V : Type} (val : D → option V).
  Implicit Types (x y z l : list (Z * D)) (k : Z) (e : Z * D).

Definition live e : bool := if val e.2 is Some _ then true else false.

Inductive trim : list (Z * D) → list (Z * D) → Prop :=
  | trim_nil : trim [] []
  | trim_keep e x y : trim x y → trim (e :: x) (e :: y)
  | trim_drop e x y : live e = false → trim x y → trim (e :: x) y.

Lemma trim_refl x : trim x x.
Proof. induction x; by constructor. Qed.

Lemma trim_trans x y z : trim x y → trim y z → trim x z.
Proof.
  intros Hxy. revert z. induction Hxy as [|e x y _ IH|e x y He _ IH]; intros z Hyz; [done|..].
  - inversion Hyz; subst; constructor; auto.
  - constructor; auto.
Qed.

Lemma trim_app x1 x2 y1 y2 : trim x1 y1 → trim x2 y2 → trim (x1 ++ x2) (y1 ++ y2).
Proof. intros H1 H2. induction H1; simpl; [done|by constructor..]. Qed.

Lemma trim_filter x : trim x (filter (λ e, live e = true) x).
Proof.
  induction x as [|e x IH]; [constructor|]. rewrite filter_cons. destruct (live e) eqn:He; simpl; by constructor.
Qed.

Lemma trim_len x y : trim x y → len y ≤ len x.
Proof. induction 1; rewrite ?len_cons; [done|lia..]. Qed.

Lemma trim_elem x y e : trim x y → e ∈ y → e ∈ x.
Proof. induction 1; set_solver. Qed.

Lemma trim_sorted x y : trim x y → ksorted x → ksorted y.
Proof.
  induction 1 as [|[k d] x y Ht IH|[k d] x y _ _ IH]; [done|..]; rewrite ?ksorted_cons.
  - intros [Ha Hs]. split; [|auto]. intros k' (e & -> & He)%list_elem_of_fmap. apply Ha. apply list_elem_of_fmap.
    exists e. split; [done|]. by eapply trim_elem.
  - intros [_ Hs]. auto.
Qed.

Lemma trim_keys x y k : trim x y → k ∈ y.*1 → k ∈ x.*1.
Proof. intros Ht (e & -> & He)%list_elem_of_fmap. apply list_elem_of_fmap. exists e. split; [done|]. by eapply trim_elem. Qed.

Lemma trim_Forall (Q : Z * D → Prop) x y : trim x y → Forall Q x → Forall Q y.
Proof. rewrite !Forall_forall. intros Ht HF e He. apply HF. by eapply trim_elem. Qed.

(** ** The map *)

Definition alive l : list (Z * V) := omap (λ e, pair e.1 <$> val e.2) l.

Lemma alive_app l1 l2 : alive (l1 ++ l2) = alive l1 ++ alive l2.
Proof. apply omap_app. Qed.

Lemma alive_cons k d l : alive ((k, d) :: l) = (if val d is Some v then [(k, v)] else []) ++ alive l.
Proof. unfold alive. simpl. by destruct (val d). Qed.

Lemma alive_keys l k : k ∈ (alive l).*1 → k ∈ l.*1.
Proof.
  intros ([k' v] & -> & (e & He & Heq)%list_elem_of_omap)%list_elem_of_fmap. apply list_elem_of_fmap. exists e. split; [|done].
  destruct (val e.2); [|done]. by injection Heq.
Qed.

Lemma alive_below k l : below k l → below k (alive l).
Proof. intros Hb k' Hk'%alive_keys. by apply Hb. Qed.

Lemma alive_above k l : above k l → above k (alive l).
Proof. intros Ha k' Hk'%alive_keys. by apply Ha. Qed.

Lemma alive_trim x y : trim x y → alive x = alive y.
Proof.
  induction 1 as [|[k d] x y _ IH|[k d] x y He _ IH]; [done|..]; rewrite !alive_cons, IH; [done|].
  unfold live in He. simpl in He. by destruct (val d).
Qed.

Lemma alive_len l : len (alive l) ≤ len l.
Proof.
  induction l as [|[k d] l IH]; [done|]. rewrite alive_cons, len_app, len_cons. destruct (val d); [change (len [(k, v)]) with 1|change (len (@nil (Z * V))) with 0]; lia.
Qed.

Lemma alive_tails (kvs : list (Z * D)) (ls : list (list (Z * D))) : len ls = len kvs → len (alive (tails kvs ls)) = len (alive (concat ls)) + len (alive kvs).
Proof.
  revert ls. induction kvs as [|[k vd] kvs IH]; intros [|l ls] Hl; [done|pose proof (len_nonneg ls)|pose proof (len_nonneg kvs)|];
    revert Hl; arr_len; intros Hl; [lia..|].
  rewrite tails_cons. simpl concat. rewrite !alive_cons, !alive_app, !len_app, IH by lia. lia.
Qed.

Lemma alive_weave (kvs : list (Z * D)) (ls : list (list (Z * D))) : len ls = len kvs + 1 → len (alive (weave ls kvs)) = len (alive (concat ls)) + len (alive kvs).
Proof.
  destruct ls as [|l ls]; [pose proof (len_nonneg kvs); arr_len; lia|]. rewrite len_cons. intros Hl. unfold weave. simpl concat.
  rewrite !alive_app, !len_app, alive_tails by lia. lia.
Qed.

Definition alive_map l : gmap Z V := list_to_map (alive l).

Lemma alive_map_size l : ksorted l → Z.of_nat (base.size (alive_map l)) = len (alive l).
Proof.
  intros Hs. unfold alive_map, len. f_equal. rewrite <-length_map_to_list, map_to_list_to_map; [done|].
  induction l as [|[k d] l IH]; [constructor|]. apply ksorted_cons in Hs as [Ha%alive_above Hs]. specialize (IH Hs).
  rewrite alive_cons. destruct (val d) as [v|]; [|done]. simpl. constructor; [|done]. intros Hk. specialize (Ha k Hk). lia.
Qed.

Lemma alive_map_elem l k v : alive_map l !! k = Some v → ∃ d, (k, d) ∈ l ∧ val d = Some v.
Proof.
  intros ([k' d] & He & Heq)%elem_of_list_to_map_2%list_elem_of_omap. simpl in Heq.
  destruct (val d) eqn:Hd; [|done]. injection Heq as -> ->. by exists d.
Qed.

(** The key in the middle. *)
Lemma alive_lookup k d l1 l2 : below k l1 → above k l2 → alive_map (l1 ++ (k, d) :: l2) !! k = val d.
Proof.
  intros Hb%alive_below Ha%alive_above. unfold alive_map. rewrite alive_app, alive_cons.
  destruct (val d); [by apply to_map_found|by apply to_map_absent].
Qed.

Lemma alive_lookup_none k l1 l2 : below k l1 → above k l2 → alive_map (l1 ++ l2) !! k = None.
Proof. intros Hb%alive_below Ha%alive_above. unfold alive_map. rewrite alive_app. by apply to_map_absent. Qed.

(** The entries of the key are in the middle. *)
Lemma alive_lookup_between k l1 l l2 : below k l1 → above k l2 → alive_map (l1 ++ l ++ l2) !! k = alive_map l !! k.
Proof. intros Hb%alive_below Ha%alive_above. unfold alive_map. rewrite !alive_app. by apply to_map_child. Qed.

Lemma alive_set k d l1 l2 : below k l1 → above k l2 → alive_map (l1 ++ (k, d) :: l2) =
  if val d is Some v then <[k := v]> (alive_map (l1 ++ l2)) else alive_map (l1 ++ l2).
Proof.
  intros Hb%alive_below Ha%alive_above. unfold alive_map. rewrite !alive_app, alive_cons.
  destruct (val d); [by apply to_map_insert|done].
Qed.

(** ** Operations on the map *)

Section MapEdits.
  Context (on_key : D → D * V) (no_value_ : V) (k : Z) (added : list (Z * D)).
  Implicit Types (r : V).

Abbreviation edits := (edits on_key no_value_ k added).

(** What an edit does to the map, from what it does to an entry. *)
Lemma edits_find l l' r : edits l l' r → added = [] →
  (∀ d, (k, d) ∈ l → val (on_key d).1 = val d ∧ (on_key d).2 = default no_value_ (val d)) →
  alive_map l' = alive_map l ∧ r = default no_value_ (alive_map l !! k).
Proof.
  intros (l1 & l2 & Hb & Ha & [(d & -> & -> & ->)|(-> & -> & ->)]) -> Hd.
  - rewrite alive_lookup, !alive_set by done. by destruct (Hd d) as [-> ->]; [set_solver|].
  - by rewrite alive_lookup_none.
Qed.

Lemma edits_insert v l l' r : edits l l' r → (∃ d, added = [(k, d)] ∧ val d = Some v) →
  (∀ d, (k, d) ∈ l → val (on_key d).1 = Some (default v (val d)) ∧ (on_key d).2 = default no_value_ (val d)) →
  alive_map l' = inserted k v (alive_map l) ∧ r = default no_value_ (alive_map l !! k).
Proof.
  unfold inserted. intros (l1 & l2 & Hb & Ha & [(d & -> & -> & ->)|(-> & -> & ->)]) (d0 & -> & Hd0) Hd.
  - rewrite alive_lookup, !alive_set by done. destruct (Hd d) as [-> ->]; [set_solver|]. by destruct (val d).
  - rewrite alive_lookup_none by done. split; [|done]. simpl. by rewrite alive_set, Hd0.
Qed.

Lemma edits_delete l l' r : edits l l' r → added = [] →
  (∀ d, (k, d) ∈ l → val (on_key d).1 = None ∧ (on_key d).2 = default no_value_ (val d)) →
  alive_map l' = delete k (alive_map l) ∧ r = default no_value_ (alive_map l !! k).
Proof.
  intros (l1 & l2 & Hb & Ha & [(d & -> & -> & ->)|(-> & -> & ->)]) -> Hd; pose proof (alive_lookup_none k l1 l2 Hb Ha) as Hnone.
  - rewrite alive_lookup, !alive_set by done. destruct (Hd d) as [-> ->]; [set_solver|].
    split; [|done]. destruct (val d); [by rewrite delete_insert_id|by rewrite delete_id].
  - rewrite Hnone. split; [|done]. simpl. by rewrite delete_id.
Qed.

End MapEdits.

End Lazy.

(** [val] follows from the hypotheses of these. *)
Arguments trim_trans {D V val}.
Arguments trim_app {D V val}.
Arguments trim_len {D V val}.
Arguments trim_sorted {D V val}.
Arguments trim_keys {D V val}.
Arguments trim_Forall {D V val}.
Arguments alive_trim {D V val}.
Arguments alive_map_elem {D V val}.
Arguments edits_between {D V on_key no_value_ k added}.
Arguments edits_len {D V on_key no_value_ k added}.
Arguments edits_sorted {D V on_key no_value_ k added}.
Arguments edits_Forall {D V on_key no_value_ k added}.
Arguments edits_keys {D V on_key no_value_ k added}.
Arguments alive_len {D V val}.
