(* ===== verification/TreeLoops.v ===== *)
(** The loops over a node that visit its keys and children in order.

    [CollectAndClear] and [CollectNonMarked] append the entries of a subtree that are
    kept; the two [Validate]s count the entries that are not removed. Both trees have the
    same loops, around a recursive call that is a parameter here. *)
From S2P Require Import Prelude Distributions Assoc Arrays Weave Kids Lazy.

Section TreeLoops.
  Context {N D V : Type} `{!Inhabited D} (val : D → option V).
  Implicit Types (r : list Z) (vs : list D) (c : list (option N)) (kvs l es : list (Z * D)) (cs : list (option N)) (ls : list (list (Z * D))).
  Implicit Types (R : option N → Z → Z → list (Z * D) → Prop).

(** ** Collecting *)

Definition kept (keep : D → bool) l : list (Z * D) := filter (λ e, keep e.2 = true) l.

Lemma kept_app keep l1 l2 : kept keep (l1 ++ l2) = kept keep l1 ++ kept keep l2.
Proof. apply filter_app. Qed.

Lemma kept_entry (keep : D → bool) (k : Z) (d : D) es : (if keep d then es ++ [(k, d)] else es) = es ++ kept keep [(k, d)].
Proof. unfold kept. rewrite filter_cons. simpl. destruct (keep d); simpl; [done|by rewrite app_nil_r]. Qed.

(** Only removed entries are dropped. *)
Lemma kept_trim keep l : (∀ d v, val d = Some v → keep d = true) → trim val l (kept keep l).
Proof.
  intros Hk. induction l as [|[k d] l IH]; [constructor|]. unfold kept in *. rewrite filter_cons. simpl.
  destruct (keep d) eqn:Hd; simpl; [by constructor|]. constructor; [|done]. unfold live. simpl.
  destruct (val d) as [v|] eqn:Hv; [|done]. by rewrite (Hk _ _ Hv) in Hd.
Qed.

(** All entries that are kept are alive. *)
Lemma kept_len keep l : (∀ d, keep d = if val d is Some _ then true else false) → len (kept keep l) = len (alive val l).
Proof.
  intros Hk. induction l as [|[k d] l IH]; [done|]. rewrite alive_cons, len_app, <-IH. unfold kept. rewrite filter_cons. simpl.
  rewrite Hk. destruct (val d); simpl; [rewrite len_cons|]; arr_len; lia.
Qed.

Definition collect_step r vs (keep : D → bool) (child : Z → list (Z * D) → res (list (Z * D))) (index : Z) (acc : res (list (Z * D))) :
    res (list (Z * D)) :=
  res_bind acc (λ es,
    let vd := vs.[index] in
    let es := if keep vd then es ++ [(r.[index], vd)] else es in
    child (index + 1) es).

Lemma collect_loop R r vs c size cap kvs cs ls lo hi keep child es :
  stores_node r vs c size cap kvs cs → kids R lo kvs cs ls hi →
  (∀ i lo' hi' l es, 0 ≤ i → R c.[i] lo' hi' l → child i es = Ok (es ++ kept keep l)) →
  for_range 0 size (collect_step r vs keep child) (child 0 es) = Ok (es ++ kept keep (weave ls kvs)).
Proof.
  intros Hh Hk Hchild. pose proof (kids_len _ _ _ _ _ _ Hk) as [Hls Hcs]. pose proof Hh as (_ & _ & _ & _ & Hs & _).
  pose proof (len_nonneg kvs).
  enough (∃ kvs1 kvs2 l0 ls1 ls2, kvs = kvs1 ++ kvs2 ∧ len kvs1 = size ∧ ls = (l0 :: ls1) ++ ls2 ∧ len ls1 = size ∧
    for_range 0 size (collect_step r vs keep child) (child 0 es) = Ok (es ++ kept keep (l0 ++ tails kvs1 ls1)))
    as (kvs1 & kvs2 & l0 & ls1 & ls2 & -> & H1 & -> & H2 & ->).
  { rewrite len_app in Hs. rewrite len_app, len_cons, len_app in Hls.
    assert (kvs2 = [] ∧ ls2 = []) as [-> ->] by (split; apply nil_length_inv; unfold len in *; lia). by rewrite !app_nil_r. }
  apply (for_range_inv (λ i acc, ∃ kvs1 kvs2 l0 ls1 ls2, kvs = kvs1 ++ kvs2 ∧ len kvs1 = i ∧ ls = (l0 :: ls1) ++ ls2 ∧ len ls1 = i ∧
    acc = Ok (es ++ kept keep (l0 ++ tails kvs1 ls1)))); [lia| |].
  - destruct (kids_lookup _ _ [] kvs _ _ _ Hk) as (cs1 & x & cs2 & ls1 & l0 & ls2 & lo' & hi' & -> & -> & Hl1 & Hl2 & HR).
    assert (ls1 = []) as -> by (apply nil_length_inv; unfold len in *; simpl in *; lia).
    exists [], kvs, l0, [], ls2. split_and!; try done. rewrite app_nil_r.
    apply (Hchild 0 lo' hi'); [lia|]. by rewrite (stores_node_child _ _ _ _ _ _ _ _ _ 0 Hh).
  - intros i acc Hi (kvs1 & kvs2 & l0 & ls1 & ls2 & -> & Hl1 & -> & Hl2 & ->).
    destruct kvs2 as [|[k d] kvs2]; [rewrite app_nil_r in Hs; lia|]. unfold collect_step at 1.
    destruct (stores_node_kv _ _ _ _ _ _ _ _ _ _ i Hh ltac:(lia)) as [-> ->]. cbn [res_bind].
    replace (kvs1 ++ (k, d) :: kvs2) with ((kvs1 ++ [(k, d)]) ++ kvs2) in Hk by by app_norm.
    destruct (kids_lookup _ _ _ _ _ _ _ Hk) as (cs1 & x & cs2 & ls1' & l' & ls2' & lo' & hi' & -> & Heq & Hc1 & Hl3 & HR).
    revert Hc1 Hl3. arr_len. intros Hc1 Hl3. apply app_inj_1 in Heq as [<- ->]; [|unfold len in *; simpl; lia].
    exists (kvs1 ++ [(k, d)]), kvs2, l0, (ls1 ++ [l']), ls2'. split; [by app_norm|]. split; [arr_len; lia|]. split; [by app_norm|].
    split; [arr_len; lia|]. rewrite (Hchild (i + 1) lo' hi' l'); [|lia|rewrite (stores_node_child _ _ _ _ _ _ _ _ _ (i + 1) Hh); [done|lia]].
    assert (l0 ++ tails (kvs1 ++ [(k, d)]) (ls1 ++ [l']) = (l0 ++ tails kvs1 ls1) ++ [(k, d)] ++ l') as ->.
    { rewrite tails_app by lia. rewrite tails_cons. simpl. rewrite app_nil_r. by app_norm. }
    rewrite kept_entry, (kept_app keep (l0 ++ tails kvs1 ls1)), (kept_app keep [(k, d)]). by rewrite <-!app_assoc.
Qed.

(** ** Counting *)

(** The children as above, and more of each. *)
Lemma kids_strengthen R R' lo kvs cs ls hi : kids R lo kvs cs ls hi →
  (∀ kvs1 kvs2 ls1 l ls2 x, kvs = kvs1 ++ kvs2 → ls = ls1 ++ l :: ls2 → len ls1 = len kvs1 → len ls2 = len kvs2 →
    R x (last_key lo kvs1) (first_key kvs2 hi) l → R' x (last_key lo kvs1) (first_key kvs2 hi) l) →
  kids R' lo kvs cs ls hi.
Proof.
  revert lo cs ls. induction kvs as [|[k d] kvs IH]; intros lo cs ls; simpl.
  - intros (x & l & -> & -> & HR) HRR. exists x, l. split; [done|]. split; [done|]. by apply (HRR [] [] [] l []).
  - intros (x & cs' & l & ls' & -> & -> & HR & Hk) HRR. exists x, cs', l, ls'. split; [done|]. split; [done|].
    pose proof (kids_len _ _ _ _ _ _ Hk) as [Hl _]. split.
    + apply (HRR [] ((k, d) :: kvs) [] l ls'); try done. by rewrite len_cons.
    + apply IH; [done|]. intros kvs1 kvs2 ls1 l1 ls2 y -> -> H1 H2 HRy.
      apply (HRR ((k, d) :: kvs1) kvs2 (l :: ls1) l1 ls2); try done. by rewrite !len_cons, H1.
Qed.

Definition count_step r vs (size lo hi : Z) (cmp : Z → Z → bool) (ok gone : D → bool)
    (child : Z → Z → Z → res (option Z)) (index : Z) (total : res (option Z)) : res (option Z) :=
  res_bind total (λ total,
    match total with
    | None => Ok None
    | Some total_size =>
        let child_left := if index =? 0 then lo else r.[index - 1] in
        let child_right := if index =? size then hi else r.[index] in
        let vd := vs.[index] in
        if cmp child_left child_right && (negb (index <? size) || ok vd) then
          let live := if (index <? size) && gone vd then 1 else 0 in
          res_bind (child index child_left child_right) (λ s,
            Ok (if s is Some s then Some (total_size + live + s) else None))
        else Ok None
    end).

(** The check of the value at an index, and its part of the size. *)
Lemma count_value r vs c size cap kvs1 kvs2 cs (ok alive_vd : D → bool) : stores_node r vs c size cap (kvs1 ++ kvs2) cs →
  Forall (λ e, ok e.2 = true) (kvs1 ++ kvs2) → (∀ d, alive_vd d = if val d is Some _ then true else false) →
  negb (len kvs1 <? size) || ok vs.[len kvs1] = true ∧
  (if (len kvs1 <? size) && alive_vd vs.[len kvs1] then 1 else 0) = len (alive val (take 1 kvs2)).
Proof.
  intros Hh Hok Halive. pose proof Hh as (_ & _ & _ & _ & Hs & _). rewrite len_app in Hs. destruct kvs2 as [|[k d] kb].
  - change (len (@nil (Z * D))) with 0 in Hs. by destruct (Z.ltb_spec (len kvs1) size); [lia|].
  - destruct (stores_node_kv _ _ _ _ _ _ _ _ _ _ _ Hh eq_refl) as [_ ->]. apply Forall_app in Hok as [_ [Hok _]%Forall_cons].
    rewrite len_cons in Hs. pose proof (len_nonneg kb). destruct (Z.ltb_spec (len kvs1) size); [|lia]. simpl in *.
    split; [done|]. rewrite Halive. by destruct (val d).
Qed.

Lemma count_loop R r vs c size cap kvs cs ls lo hi cmp ok alive_vd child :
  stores_node r vs c size cap kvs cs → kids R lo kvs cs ls hi →
  (∀ kvs1 kvs2, kvs = kvs1 ++ kvs2 → cmp (last_key lo kvs1) (first_key kvs2 hi) = true) →
  Forall (λ e, ok e.2 = true) kvs → (∀ d, alive_vd d = if val d is Some _ then true else false) →
  (∀ i lo' hi' l, 0 ≤ i → R c.[i] lo' hi' l → child i lo' hi' = Ok (Some (len (alive val l)))) →
  for_range 0 (size + 1) (count_step r vs size lo hi cmp ok alive_vd child) (Ok (Some 0)) =
    Ok (Some (len (alive val (weave ls kvs)))).
Proof.
  intros Hh Hk Hcmp Hok Halive Hchild. pose proof (kids_len _ _ _ _ _ _ Hk) as [Hls Hcs]. pose proof Hh as (_ & _ & _ & _ & Hn & _).
  pose proof (len_nonneg kvs).
  enough (∃ kvs1 kvs2 ls1 ls2, kvs = kvs1 ++ kvs2 ∧ ls = ls1 ++ ls2 ∧ len ls1 = size + 1 ∧ len kvs1 = Z.min (size + 1) (len kvs) ∧
    for_range 0 (size + 1) (count_step r vs size lo hi cmp ok alive_vd child) (Ok (Some 0)) =
      Ok (Some (len (alive val (concat ls1)) + len (alive val kvs1)))) as (kvs1 & kvs2 & ls1 & ls2 & -> & -> & H1 & H2 & ->).
  { pose proof (len_app kvs1 kvs2). pose proof (len_app ls1 ls2). pose proof (len_nonneg kvs2). pose proof (len_nonneg ls2).
    assert (kvs2 = [] ∧ ls2 = []) as [-> ->] by (split; apply nil_length_inv; unfold len in *; lia).
    rewrite !app_nil_r in *. by rewrite alive_weave. }
  apply (for_range_inv (λ i acc, ∃ kvs1 kvs2 ls1 ls2, kvs = kvs1 ++ kvs2 ∧ ls = ls1 ++ ls2 ∧ len ls1 = i ∧
    len kvs1 = Z.min i (len kvs) ∧ acc = Ok (Some (len (alive val (concat ls1)) + len (alive val kvs1))))); [lia| |].
  { exists [], kvs, [], ls. split; [done|]. split; [done|]. split; [done|]. split; [|done]. change (len (@nil (Z * D))) with 0. lia. }
  intros i acc Hi (kvs1 & kvs2 & ls1 & ls2' & -> & -> & Hi1 & Hi2 & ->).
  replace (Z.min i (len (kvs1 ++ kvs2))) with i in Hi2 by lia. subst i. unfold count_step at 1. cbn [res_bind]. cbv zeta.
  apply kids_focus in Hk as (cs1 & x & cs2 & ls1' & lc & ls2 & -> & Heq & Hp & Hc & Hq).
  apply kids_pre_len in Hp as [Hc1 Hl1]. apply kids_post_len in Hq as [Hc2 Hl2].
  apply app_inj_1 in Heq as [<- ->]; [|unfold len in *; lia]. rewrite Hl1.
  destruct (stores_node_bounds _ _ _ _ _ _ _ _ lo hi Hh) as [-> ->]. rewrite (Hcmp _ _ eq_refl). cbn [andb].
  rewrite (Hchild (len kvs1) (last_key lo kvs1) (first_key kvs2 hi) lc);
    [|apply len_nonneg|by rewrite (stores_node_child _ _ _ _ _ _ _ _ _ _ Hh)].
  assert (negb (len kvs1 <? size) || ok vs.[len kvs1] = true ∧
    (if (len kvs1 <? size) && alive_vd vs.[len kvs1] then 1 else 0) = len (alive val (take 1 kvs2))) as [-> ->].
  { by eapply count_value. }
  cbn [res_bind]. exists (kvs1 ++ take 1 kvs2), (drop 1 kvs2), (ls1 ++ [lc]), ls2.
  split; [by rewrite <-app_assoc, take_drop|]. split; [by app_norm|]. split; [arr_len; lia|]. split.
  - destruct kvs2 as [|y kb]; [|pose proof (len_nonneg kb)]; revert Hi Hn; try rewrite firstn_cons, firstn_O; try rewrite firstn_nil; arr_len; lia.
  - do 2 f_equal. rewrite concat_app, !alive_app. simpl concat. rewrite app_nil_r. arr_len. lia.
Qed.

End TreeLoops.
