(* ===== verification/IdIndex.v ===== *)
(** The index of a node in an interpolation search tree ([Benchmark-v700/cpp/gsat/ds/ist/id.h]).

    [id.[i]] is the first key that is not below the upper end of the [i]th of [id_size]
    equal parts of [[left, right)]. A search locates the part of its key, and only looks
    between the indices of that part and of the one before. The differences and products
    are [int64_t]s: [id_fits] says when they cannot overflow, and then the index is
    right. *)
From S2P Require Import Prelude Assoc Arrays.

(** [while (j < node->rep_size && node->rep[j] < cur) ++j;] *)
Fixpoint advance (fuel : nat) (rep : list Z) (rep_size cur j : Z) : Z :=
  match fuel with
  | O => j
  | S fuel => if (j <? rep_size) && (rep.[j] <? cur) then advance fuel rep rep_size cur (j + 1) else j
  end.

Lemma advance_ok fuel rep rep_size cur j : 0 ≤ j ≤ rep_size → (Z.to_nat (rep_size - j) ≤ fuel)%nat →
  let j' := advance fuel rep rep_size cur j in
  j ≤ j' ≤ rep_size ∧ (∀ t, j ≤ t < j' → rep.[t] < cur) ∧ (j' < rep_size → cur ≤ rep.[j']).
Proof.
  revert j. induction fuel as [|fuel IH]; intros j Hj Hf; simpl; [split; [lia|split; [lia|lia]]|].
  destruct (Z.ltb_spec j rep_size); simpl; [|split; [lia|split; lia]].
  destruct (Z.ltb_spec (rep.[j]) cur) as [Hlt|Hge]; [|split; [lia|split; [lia|done]]].
  destruct (IH (j + 1) ltac:(lia) ltac:(lia)) as (H1 & H2 & H3). split; [lia|]. split; [|done].
  intros t Ht. destruct (decide (t = j)) as [->|]; [done|]. apply H2. lia.
Qed.

Section IdIndex.
  (** The members of the node. *)
  Variables (left right : Z) (rep : list Z) (rep_size : Z).

(** [cur]: [(i + 1) * (static_cast<int64_t>(right) - left) / id_size] added to [left]. *)
Definition id_cur (id_size i : Z) : Z := s64 (left + s64 ((i + 1) * s64 (right - left)) ÷ id_size).

(** [BUILD_ID(this)] *)
Definition BUILD_ID (id_size : Z) : list Z :=
  (for_range 0 id_size (λ i '(j, id),
    let j := advance (Z.to_nat rep_size) rep rep_size (id_cur id_size i) j in (j, id.[i <- j]))
    (0, replicate (Z.to_nat id_size) 0)).2.

(** [ID_LOCATE(this)]: [l] and [r]. *)
Definition ID_LOCATE (id : list Z) (key : Z) : Z * Z :=
  let j := s32 (s64 (s64 (key - left) * len id) ÷ s64 (right - left)) in
  (if j =? 0 then -1 else id.[j - 1] - 1, id.[j]).

(** [Search]: with the index, and without it. *)
Definition id_search (index : option (list Z)) (key : Z) : Z :=
  let '(l, r) := if index is Some id then ID_LOCATE id key else (-1, rep_size) in
  bsearch rep key l r.

(** ** Laws *)

(** [a] separates the keys that are smaller than [cur] from the others. *)
Definition separates (cur a : Z) : Prop :=
  0 ≤ a ≤ rep_size ∧ (∀ t, 0 ≤ t < a → rep.[t] < cur) ∧ (∀ t, a ≤ t < rep_size → cur ≤ rep.[t]).

(** The bounds are [int64_t]s, [id_size] is an [int], and its product with the length of
    the interval is an [int64_t]. *)
Definition id_fits (size : Z) : Prop :=
  1 ≤ size < 2 ^ 31 ∧ - 2 ^ 63 ≤ left < right ∧ right < 2 ^ 63 ∧ size * (right - left) < 2 ^ 63.

Definition id_ok (id : list Z) : Prop :=
  id_fits (len id) ∧ ∀ i, 0 ≤ i < len id → separates (id_cur (len id) i) id.[i].

Lemma id_cur_div size i : id_fits size → -1 ≤ i < size → id_cur size i = left + ((i + 1) * (right - left)) / size.
Proof.
  intros (Hs & Hl & Hr & Hp) Hi. unfold id_cur.
  assert (0 ≤ (i + 1) * (right - left) ≤ size * (right - left)) as Hprod by nia.
  rewrite (s64_small (right - left)), (s64_small (_ * _)), Z.quot_div_nonneg by nia. apply s64_small.
  pose proof (Z.div_pos ((i + 1) * (right - left)) size ltac:(lia) ltac:(lia)).
  assert ((i + 1) * (right - left) / size ≤ right - left) by (apply Z.div_le_upper_bound; lia). lia.
Qed.

Lemma id_cur_mono size i j : id_fits size → -1 ≤ i ≤ j → j < size → id_cur size i ≤ id_cur size j.
Proof.
  intros Hf Hij Hj. rewrite !id_cur_div by (done || lia). destruct Hf as (? & ? & _).
  apply Z.add_le_mono_l, Z.div_le_mono; nia.
Qed.

Lemma BUILD_ID_ok size : id_fits size → 0 ≤ rep_size →
  (∀ i j, 0 ≤ i ≤ j → j < rep_size → rep.[i] ≤ rep.[j]) → id_ok (BUILD_ID size).
Proof.
  intros Hfits Hn Hmono. pose proof Hfits as (Hsize & _). unfold BUILD_ID.
  set (st := for_range 0 size _ _).
  enough (0 ≤ st.1 ≤ rep_size ∧ len st.2 = size ∧ (∀ i, 0 ≤ i < size → separates (id_cur size i) st.2.[i]) ∧
    (∀ t, 0 ≤ t < st.1 → rep.[t] < id_cur size (size - 1))) as (_ & Hl & Hs & _).
  { split; by rewrite Hl. }
  subst st. apply (for_range_inv (λ m st, 0 ≤ st.1 ≤ rep_size ∧ len st.2 = size ∧
    (∀ i, 0 ≤ i < m → separates (id_cur size i) st.2.[i]) ∧ (∀ t, 0 ≤ t < st.1 → rep.[t] < id_cur size (m - 1)))); [lia| |].
  { cbn [fst snd]. split; [lia|]. split; [rewrite len_replicate; lia|]. split; [lia|]. lia. }
  intros m [j id] Hm (Hj & Hl & Hs & Hlo). cbn [fst snd] in *.
  pose proof (advance_ok (Z.to_nat rep_size) rep rep_size (id_cur size m) j Hj ltac:(lia)) as (Hr & H1 & H2).
  set (j' := advance _ _ _ _ _) in *. clearbody j'. replace (m + 1 - 1) with m by lia.
  assert (∀ t, 0 ≤ t < j' → rep.[t] < id_cur size m) as Hlow.
  { intros t Ht. destruct (Z.lt_ge_cases t j); [|apply H1; lia]. pose proof (Hlo t ltac:(lia)) as Hlt.
    pose proof (id_cur_mono size (m - 1) m Hfits ltac:(lia) ltac:(lia)). lia. }
  split; [lia|]. split; [by rewrite len_set|]. split; [|done]. intros i Hi. rewrite get_set by lia.
  destruct (Z.eqb_spec m i) as [<-|]; [|apply Hs; lia].
  split; [lia|]. split; [done|]. intros t Ht. pose proof (H2 ltac:(lia)). pose proof (Hmono j' t ltac:(lia) ltac:(lia)). lia.
Qed.

(** The interval of [ID_LOCATE] has the key's index. *)
Lemma ID_LOCATE_ok id key : id_ok id → left ≤ key < right → let '(l, r) := ID_LOCATE id key in
  -1 ≤ l < r ∧ r ≤ rep_size ∧ (∀ i, 0 ≤ i ≤ l → rep.[i] < key) ∧ (∀ i, r ≤ i < rep_size → key ≤ rep.[i]).
Proof.
  intros (Hfits & Hs) Hk. pose proof Hfits as (Hl & Hlr & Hr64 & Hpr). unfold ID_LOCATE.
  set (S := len id) in *. set (R := right - left) in *.
  assert (0 ≤ (key - left) * S < R * S) as Hprod by (unfold R; nia).
  assert (R < 2 ^ 63) as HR by nia.
  rewrite (s64_small (key - left)), (s64_small R), (s64_small (_ * _)), Z.quot_div_nonneg by lia.
  set (j := ((key - left) * S) / R).
  pose proof (Z.div_mod ((key - left) * S) R ltac:(lia)) as Hdm. pose proof (Z.mod_pos_bound ((key - left) * S) R ltac:(lia)) as Hmod.
  fold j in Hdm. assert (0 ≤ j < S) as Hj by nia. clearbody j. rewrite (s32_small j) by lia.
  destruct (Hs j Hj) as (Hr & Hrlo & Hrhi).
  assert (key ≤ id_cur S j) as Hcur.
  { rewrite id_cur_div by (done || lia). fold R. enough (key - left ≤ (j + 1) * R / S) by lia. apply Z.div_le_lower_bound; nia. }
  destruct (Z.eqb_spec j 0) as [->|Hj0].
  - split; [lia|]. split; [lia|]. split; [lia|]. intros i Hi. specialize (Hrhi i Hi). lia.
  - destruct (Hs (j - 1) ltac:(lia)) as (Hp & Hplo & Hphi).
    assert (id_cur S (j - 1) ≤ key) as Hcur'.
    { rewrite id_cur_div by (done || lia). fold R. replace (j - 1 + 1) with j by lia. enough (j * R / S ≤ key - left) by lia.
      apply Z.div_le_upper_bound; nia. }
    assert (id.[j - 1] ≤ id.[j]).
    { apply Z.nlt_ge. intros Hlt. pose proof (Hplo _ (conj (proj1 Hr) Hlt)). assert (id.[j] < rep_size) as Hin by lia.
      pose proof (Hrhi _ (conj (Z.le_refl _) Hin)).
      pose proof (id_cur_mono S (j - 1) j Hfits ltac:(lia) ltac:(lia)). lia. }
    split; [lia|]. split; [lia|]. split; [intros i Hi; pose proof (Hplo i ltac:(lia)); lia|].
    intros i Hi. specialize (Hrhi i Hi). lia.
Qed.

Lemma id_search_ok index key : (if index is Some id then id_ok id else True) → left ≤ key < right → 0 ≤ rep_size →
  (∀ i j, 0 ≤ i ≤ j → j < rep_size → rep.[i] ≤ rep.[j]) → first_ge rep key rep_size (id_search index key).
Proof.
  intros Hidx Hk Hn Hmono. unfold id_search. destruct index as [a|].
  - pose proof (ID_LOCATE_ok a key Hidx Hk) as Hok. destruct (ID_LOCATE a key) as [l r].
    destruct Hok as (H1 & H2 & H3 & H4). by apply bsearch_correct.
  - apply bsearch_correct; [done|lia..].
Qed.

End IdIndex.

(** In a wide interval the products wrap around, and the search with the index misses
    the key at position 3. *)
Lemma id_wide_interval :
  let rep := [0; 1; 2 ^ 61; 2 ^ 62 - 1] in
  let search index := id_search 0 (2 ^ 62) rep 4 index (2 ^ 62 - 1) in
  search None = 3 ∧ search (Some (BUILD_ID 0 (2 ^ 62) rep 4 4)) = 2.
Proof. by vm_compute. Qed.

(** A part of the interval. *)
Lemma id_fits_within left right lo hi size : id_fits left right size → left ≤ lo → lo < hi → hi ≤ right →
  id_fits lo hi size.
Proof. unfold id_fits. intros (? & ? & ? & ?) ? ? ?. nia. Qed.
