(* ===== verification/BTree.v ===== *)
(** The B-tree of SetBench
    ([Benchmark-v700/cpp/gsat/ds/btree/btree.h] and [btree_node.h]).

    A node has arrays of [kMaxKeys] keys and values and of [kMaxKeys + 1] children, of
    which a prefix is in use, as in the code. A node is the only one that points to
    its children, so a child is a part of its parent's value: where the code changes
    a node through a pointer that its parent also holds, [set_child] writes the new
    child into the parent. The methods keep the path from the root in the arrays
    [nodes] and [indices] of [kMaxDepth] entries; a longer path is undefined
    behaviour. [BTreeLaws] proves them correct. *)
From S2P Require Import Distributions Assoc Arrays Prelude.

(** ** Nodes *)

(** [kMinKeys] is the template's parameter. *)
Inductive BTreeNode (V : Type) := {
  keys : list Z;
  values : list V;
  children : list (option (BTreeNode V));
  size : Z
}.
Arguments keys {V}. Arguments values {V}. Arguments children {V}. Arguments size {V}.

Definition kMaxDepth : nat := 16.

Section BTree.
  Context {V : Type} `{EqDecision V}.
  Variables (no_value_ : V) (kMinKeys : Z).

#[local] Instance V_inhabited : Inhabited V := populate no_value_.
Abbreviation Node := (BTreeNode V).

Definition kMaxKeys : Z := 2 * kMinKeys.

(** [InitializeDefault()] on a new node. *)
Definition new_node : Node :=
  {| keys := replicate (Z.to_nat kMaxKeys) 0; values := replicate (Z.to_nat kMaxKeys) no_value_;
     children := replicate (Z.to_nat (kMaxKeys + 1)) None; size := 0 |}.

(** [InitializeMove(keys + from, values + from, children + from, isize)]. *)
Definition InitializeMove (n : Node) (ikeys : list Z) (ivalues : list V) (ichildren : list (option Node))
    (from isize : Z) : Node :=
  {| keys := copy_to ikeys from (from + isize) (keys n) 0;
     values := copy_to ivalues from (from + isize) (values n) 0;
     children := copy_to ichildren from (from + isize + 1) (replicate (Z.to_nat (kMaxKeys + 1)) None) 0;
     size := isize |}.

Definition Search (n : Node) (key : Z) : Z := bsearch (keys n) key (-1) (size n).

Definition KeyFound (n : Node) (index key : Z) : bool := negb (index =? size n) && ((keys n).[index] =? key).

Definition set_child (n : Node) (index : Z) (c : option Node) : Node :=
  {| keys := keys n; values := values n; children := (children n).[index <- c]; size := size n |}.

(** The levels of a tree: the fuel of the loops that go down. *)
Fixpoint levels (n : Node) : nat :=
  S (foldr (λ c m, max (if c is Some c then levels c else O) m) O (children n)).

(** ** [Find] *)

Fixpoint find_n (fuel : nat) (key : Z) (node : option Node) : res V :=
  match node with
  | None => Ok no_value_
  | Some n =>
      let index := Search n key in
      if KeyFound n index key then Ok (values n).[index]
      else match fuel with O => OutOfFuel | S fuel => find_n fuel key (children n).[index] end
  end.

Definition Find (key : Z) (root_ : Node) : res V := find_n (levels root_) key (Some root_).

Definition Contains (key : Z) (root_ : Node) : res bool :=
  match Find key root_ with
  | Ok v => Ok (bool_decide (v ≠ no_value_))
  | SetbenchError => SetbenchError | Undefined => Undefined | OutOfFuel => OutOfFuel
  end.

(** ** The path from the root *)

(** The used entries of [nodes] and [indices], the deepest first. *)
Definition path : Type := list (Node * Z).

(** The node at the top of the path is now [c], and is still its parent's child. *)
Definition relink (up : path) (c : option Node) : option Node :=
  foldl (λ c '(n, i), Some (set_child n i c)) c up.

Inductive walk :=
  | Found (up : path) (node : Node) (index : Z)
  | Missing (up : path).

(** The loop down of [Insert] and of [Delete]; [slots] entries of the arrays are free. *)
Fixpoint descend (slots : nat) (key : Z) (up : path) (node : Node) : res walk :=
  match slots with
  | O => Undefined
  | S slots =>
      let index := Search node key in
      if KeyFound node index key then Ok (Found up node index)
      else match (children node).[index] with
           | None => Ok (Missing ((node, index) :: up))
           | Some c => descend slots key ((node, index) :: up) c
           end
  end.

(** ** [Insert] *)

(** The arrays of [kMaxKeys + 1] entries of [Split]. *)
Definition split_keys (n : Node) (index key : Z) : list Z :=
  let a := replicate (Z.to_nat (kMaxKeys + 1)) 0 in
  let a := copy_to (keys n) 0 index a 0 in
  let a := a.[index <- key] in
  copy_to (keys n) index (size n) a (index + 1).

Definition split_values (n : Node) (index : Z) (value : V) : list V :=
  let a := replicate (Z.to_nat (kMaxKeys + 1)) no_value_ in
  let a := copy_to (values n) 0 index a 0 in
  let a := a.[index <- value] in
  copy_to (values n) index (size n) a (index + 1).

Definition split_children (n : Node) (index : Z) (next_node : option Node) : list (option Node) :=
  let a := replicate (Z.to_nat (kMaxKeys + 2)) None in
  let a := copy_to (children n) 0 index a 0 in
  let a := a.[index <- next_node] in
  copy_to (children n) index (size n + 1) a (index + 1).

(** The changed node, and the new [*key], [*value] and [*next_node]. *)
Definition Split (n : Node) (index key : Z) (value : V) (next_node : option Node) : Node * Z * V * option Node :=
  let keys := split_keys n index key in
  let values := split_values n index value in
  let children := split_children n index next_node in
  (InitializeMove n keys values children (kMinKeys + 1) kMinKeys, keys.[kMinKeys], values.[kMinKeys],
   Some (InitializeMove new_node keys values children 0 kMinKeys)).

(** The loops that make room, and the assignments after them. *)
Definition insert_in_node (n : Node) (index key : Z) (value : V) (next_node : option Node) : Node :=
  {| keys := insert_at (keys n) index (size n) key;
     values := insert_at (values n) index (size n) value;
     children := insert_at (children n) index (size n + 1) next_node;
     size := size n + 1 |}.

Definition grow (key : Z) (value : V) (next_node root_ : option Node) : Node :=
  let n := new_node in
  {| keys := (keys n).[0 <- key]; values := (values n).[0 <- value];
     children := (children n).[0 <- next_node].[1 <- root_]; size := 1 |}.

(** The loop up; [child] is the node that the last round has changed. *)
Fixpoint ascend (up : path) (key : Z) (value : V) (next_node child : option Node) : option Node :=
  match up with
  | [] => Some (grow key value next_node child)
  | (node, index) :: up =>
      let node := set_child node index child in
      if size node =? kMaxKeys then
        let '(node, key, value, next_node) := Split node index key value next_node in
        ascend up key value next_node (Some node)
      else relink up (Some (insert_in_node node index key value next_node))
  end.

Definition Insert (key : Z) (value : V) (root_ : Node) : res (V * Node) :=
  match descend kMaxDepth key [] root_ with
  | Ok (Found _ node index) => Ok ((values node).[index], root_)
  | Ok (Missing up) =>
      match ascend up key value None None with Some r => Ok (no_value_, r) | None => Undefined end
  | SetbenchError => SetbenchError | Undefined => Undefined | OutOfFuel => OutOfFuel
  end.

(** ** [Delete] *)

(** To the rightmost leaf below [children[index]]. *)
Fixpoint descend_max (slots : nat) (up : path) (node : Node) (index : Z) : res (path * Node * Z) :=
  match (children node).[index] with
  | None => Ok (up, node, index)
  | Some c =>
      match slots with
      | O => Undefined
      | S slots => descend_max slots ((node, index) :: up) c (size c)
      end
  end.

Definition remove_from_node (n : Node) (index : Z) : Node :=
  {| keys := move_within (keys n) (index + 1) (size n) index;
     values := move_within (values n) (index + 1) (size n) index;
     children := children n; size := size n - 1 |}.

(** [remove_node] gets the greatest key below it in place of the removed one. *)
Definition replace_key (n : Node) (index key : Z) (value : V) : Node :=
  {| keys := (keys n).[index <- key]; values := (values n).[index <- value];
     children := children n; size := size n |}.

(** The two children that a transfer or a merge works on; a null pointer is
    dereferenced otherwise. An [assert] that fails is undefined as well. *)
Definition with_children (n : Node) (left_index : Z) (f : Node → Node → Node) : res Node :=
  match (children n).[left_index], (children n).[left_index + 1] with
  | Some l, Some r => Ok (f l r)
  | _, _ => Undefined
  end.

(** The [assert] of [MergeChildren]. *)
Definition children_fit (n : Node) (left_index : Z) : bool :=
  match (children n).[left_index], (children n).[left_index + 1] with
  | Some l, Some r => size l + size r + 1 =? kMaxKeys
  | _, _ => false
  end.

Definition TransferFromLeftToRight (n : Node) (left_index : Z) : res Node :=
  with_children n left_index (λ l r,
    let left_size := size l in
    let r := {| keys := insert_at (keys r) 0 (size r) (keys n).[left_index];
                values := insert_at (values r) 0 (size r) (values n).[left_index];
                children := insert_at (children r) 0 (size r + 1) (children l).[left_size];
                size := size r + 1 |} in
    let n := replace_key n left_index (keys l).[left_size - 1] (values l).[left_size - 1] in
    let l := {| keys := keys l; values := values l; children := children l; size := size l - 1 |} in
    set_child (set_child n left_index (Some l)) (left_index + 1) (Some r)).

Definition TransferFromRightToLeft (n : Node) (left_index : Z) : res Node :=
  with_children n left_index (λ l r,
    let left_size := size l in
    let right_size := size r in
    let l := {| keys := (keys l).[left_size <- (keys n).[left_index]];
                values := (values l).[left_size <- (values n).[left_index]];
                children := (children l).[left_size + 1 <- (children r).[0]];
                size := size l + 1 |} in
    let n := replace_key n left_index (keys r).[0] (values r).[0] in
    let r := {| keys := move_within (keys r) 1 right_size 0;
                values := move_within (values r) 1 right_size 0;
                children := move_within (children r) 1 (right_size + 1) 0;
                size := size r - 1 |} in
    set_child (set_child n left_index (Some l)) (left_index + 1) (Some r)).

Definition MergeChildren (n : Node) (left_index : Z) : res Node :=
  if negb (children_fit n left_index) then Undefined else
  with_children n left_index (λ l r,
    let left_size := size l in
    let right_size := size r in
    let lkeys := (keys l).[left_size <- (keys n).[left_index]] in
    let lvalues := (values l).[left_size <- (values n).[left_index]] in
    let l := {| keys := copy_to (keys r) 0 right_size lkeys (left_size + 1);
                values := copy_to (values r) 0 right_size lvalues (left_size + 1);
                children := copy_to (children r) 0 (right_size + 1) (children l) (left_size + 1);
                size := left_size + right_size + 1 |} in
    let n := {| keys := move_within (keys n) (left_index + 1) (size n) left_index;
                values := move_within (values n) (left_index + 1) (size n) left_index;
                children := move_within (children n) (left_index + 2) (size n + 1) (left_index + 1);
                size := size n - 1 |} in
    set_child n left_index (Some l)).

(** [node->children[index]->size > kMinKeys]. *)
Definition child_has_more (n : Node) (index : Z) : res bool :=
  match (children n).[index] with Some c => Ok (kMinKeys <? size c) | None => Undefined end.

(** The end of [Delete]: the root moves down when it has no key left. *)
Definition shrink (root_ : option Node) : res Node :=
  match root_ with
  | None => Undefined
  | Some r =>
      match (children r).[0] with
      | Some c => Ok (if size r =? 0 then c else r)
      | None => Ok r
      end
  end.

Definition return_root (r : option Node) : res Node := if r is Some r then Ok r else Undefined.

(** The loop up; the root at its end. *)
Fixpoint rebalance (up : path) (child : Node) : res Node :=
  match up with
  | [] => shrink (Some child)
  | (node, index) :: up =>
      let node := set_child node index (Some child) in
      if kMinKeys <=? size child then shrink (relink up (Some node))
      else if negb (size child =? kMinKeys - 1) then Undefined
      else
        res_bind (if negb (index =? 0) then child_has_more node (index - 1) else Ok false) (λ from_left,
          if (from_left : bool) then
            res_bind (TransferFromLeftToRight node (index - 1)) (λ node, return_root (relink up (Some node)))
          else
            res_bind (if negb (index =? size node) then child_has_more node (index + 1) else Ok false) (λ from_right,
              if (from_right : bool) then
                res_bind (TransferFromRightToLeft node index) (λ node, return_root (relink up (Some node)))
              else
                res_bind (MergeChildren node (if index =? 0 then index else index - 1)) (λ node,
                  rebalance up node)))
  end.

(** The leaf has lost a key. *)
Definition after_removal (up : path) (leaf : Node) : res Node :=
  if kMinKeys <=? size leaf then return_root (relink up (Some leaf)) else rebalance up leaf.

Definition Delete (key : Z) (root_ : Node) : res (V * Node) :=
  match descend kMaxDepth key [] root_ with
  | Ok (Missing _) => Ok (no_value_, root_)
  | Ok (Found up node index) =>
      let result := (values node).[index] in
      match (children node).[index] with
      | None => res_bind (after_removal up (remove_from_node node index)) (λ r, Ok (result, r))
      | Some c =>
          match (kMaxDepth - S (length up))%nat with
          | O => Undefined
          | S slots =>
              res_bind (descend_max slots [] c (size c)) (λ '(below, leaf, index'),
                let index' := index' - 1 in
                let node := replace_key node index (keys leaf).[index'] (values leaf).[index'] in
                res_bind (after_removal (below ++ (node, index) :: up) (remove_from_node leaf index'))
                  (λ r, Ok (result, r)))
          end
      end
  | SetbenchError => SetbenchError | Undefined => Undefined | OutOfFuel => OutOfFuel
  end.

(** ** [Validate]

    [false] when a check throws. [BTree(no_value)] starts with [new_node]. *)

Definition bounds_ok (lo hi : option Z) : bool :=
  match lo, hi with Some l, Some r => l <? r | _, _ => true end.

Fixpoint validate_n (fuel : nat) (is_root : bool) (node : option Node) (left_key_bound right_key_bound : option Z) : res bool :=
  match node with
  | None => Ok true
  | Some n =>
      match fuel with
      | O => OutOfFuel
      | S fuel =>
          if (is_root || (kMinKeys <=? size n)) && (size n <=? kMaxKeys) then
            for_range 0 (size n + 1) (λ index r, res_bind r (λ ok,
              if (ok : bool) then
                let left_key := if index =? 0 then left_key_bound else Some (keys n).[index - 1] in
                let right_key := if index =? size n then right_key_bound else Some (keys n).[index] in
                if bounds_ok left_key right_key &&
                   (negb (index <? size n) || bool_decide ((values n).[index] ≠ no_value_))
                then validate_n fuel false (children n).[index] left_key right_key
                else Ok false
              else Ok false)) (Ok true)
          else Ok false
      end
  end.

Definition Validate (root_ : Node) : res bool := validate_n (levels root_) true (Some root_) None None.

End BTree.

(** ** An execution: [kMinKeys = 1] *)

Definition example_insert (r : res (BTreeNode Z)) (k : Z) : res (BTreeNode Z) :=
  res_bind r (λ t, res_bind (Insert 0 1 k (10 * k) t) (λ '(_, t), Ok t)).
Definition example_delete (r : res (BTreeNode Z)) (k : Z) : res (BTreeNode Z) :=
  res_bind r (λ t, res_bind (Delete 0 1 k t) (λ '(_, t), Ok t)).
Definition example_keys : list Z := [5; 2; 8; 1; 9; 3; 7; 4; 6; 10; 12; 11].

Example example_run :
  (let t := foldl example_insert (Ok (new_node 0 1)) example_keys in
   let t' := foldl example_delete t [5; 8; 1; 12; 3; 20] in
   res_bind t' (λ t', res_bind (Validate 0 1 t') (λ ok,
     res_bind (foldr (λ k r, res_bind (Find 0 k t') (λ v, res_bind r (λ vs, Ok (v :: vs)))) (Ok []) (seqZ 1 12))
       (λ vs, Ok (ok, vs))))) = Ok (true, [0; 20; 0; 40; 0; 60; 70; 0; 90; 100; 110; 0]).
Proof. vm_compute. reflexivity. Qed.
