(* ===== verification/BTreeLaws.v ===== *)
(** The B-tree of SetBench is a finite map, of logarithmic height.

    [rep h min c l]: [c] is a tree of height [h] with the keys and values [l] in
    order, whose root has at least [min] keys and every other node at least
    [kMinKeys]. [up_ok] says the same of the path above a node. The methods keep
    such trees and do what the operation on the map does; the height is bounded by
    the number of keys, so that the arrays of the methods are long enough. *)
From S2P Require Import Prelude Distributions Assoc Arrays Weave BTree.

Section BTreeLaws.
  Context {V : Type} `{EqDecision V}.
  Variables (no_value_ : V) (kMinKeys : Z).
  Hypothesis Hmin : 0 < kMinKeys.

#[local] Hint Extern 0 (Inhabited V) => exact (V_inhabited no_value_) : typeclass_instances.
Abbreviation Node := (BTreeNode V).
Abbreviation kMaxKeys := (kMaxKeys kMinKeys).
Implicit Types (n : Node) (kvs l pre post : list (Z * V)) (cs : list (option Node)) (ls : list (list (Z * V))).

(** ** Nodes *)

(** What the arrays of [n] store. *)
Definition holds n kvs cs : Prop :=
  stores (keys n) kMaxKeys kvs.*1 ∧ stores (values n) kMaxKeys kvs.*2 ∧
  stores (children n) (kMaxKeys + 1) cs ∧ size n = len kvs ∧ len cs = len kvs + 1.

Fixpoint rep (h : nat) (min : Z) (c : option Node) l : Prop :=
  match h with
  | O => c = None ∧ l = []
  | S h => ∃ n kvs cs ls, c = Some n ∧ holds n kvs cs ∧ min ≤ len kvs ∧
      Forall2 (rep h kMinKeys) cs ls ∧ l = weave ls kvs
  end.

Lemma rep_weaken h min min' c l : min' ≤ min → rep h min c l → rep h min' c l.
Proof. destruct h; [done|]. intros Hle (n & kvs & cs & ls & -> & Hh & Hm & Hf). exists n, kvs, cs, ls. split_and!; [done..|lia|apply Hf|apply Hf]. Qed.

Lemma holds_set_child n kvs cs1 c0 cs2 c i : holds n kvs (cs1 ++ c0 :: cs2) → i = len cs1 →
  holds (set_child n i c) kvs (cs1 ++ c :: cs2).
Proof.
  intros (Hk & Hv & Hc & Hs & Hl) ->. split; [done|]. split; [done|]. split; [by eapply stores_set|].
  split; [done|]. revert Hl. by arr_len.
Qed.

Lemma holds_child n kvs cs1 c cs2 i : holds n kvs (cs1 ++ c :: cs2) → i = len cs1 → (children n).[i] = c.
Proof.
  intros (_ & _ & Hc & _) ->. rewrite (stores_get _ _ _ _ Hc) by (arr_len; pose proof (len_nonneg cs2); pose proof (len_nonneg cs1); lia).
  rewrite get_app_r by lia. by rewrite Z.sub_diag.
Qed.

Lemma holds_kv n kvs1 k v kvs2 cs i : holds n (kvs1 ++ (k, v) :: kvs2) cs → i = len kvs1 →
  (keys n).[i] = k ∧ (values n).[i] = v.
Proof.
  intros (Hk & Hv & _) ->. pose proof (len_nonneg kvs1). pose proof (len_nonneg kvs2).
  rewrite (stores_get _ _ _ _ Hk), (stores_get _ _ _ _ Hv) by (rewrite len_fmap; arr_len; lia).
  rewrite !fmap_app, !get_app_r by (rewrite len_fmap; lia). by rewrite !len_fmap, Z.sub_diag.
Qed.

Lemma stores_ge a cap (s : list Z) k i : stores a cap s → first_ge a k (len s) i → first_ge s k (len s) i.
Proof.
  intros Hs (Hi & Hlo & Hhi). split; [done|]. split; intros j Hj; rewrite <-(stores_get _ _ _ _ Hs) by lia; auto.
Qed.

(** A search finds the key, or the child where it belongs. *)
Lemma Search_ok n kvs cs k : holds n kvs cs → ksorted kvs → ∃ kvs1 kvs2,
  kvs = kvs1 ++ kvs2 ∧ Search n k = len kvs1 ∧ below k kvs1 ∧
  ((∃ v kvs2', kvs2 = (k, v) :: kvs2' ∧ KeyFound n (Search n k) k = true) ∨
   (above k kvs2 ∧ KeyFound n (Search n k) k = false)).
Proof.
  intros (Hk & _ & _ & Hsz & _) Hs.
  assert (first_ge (keys n) k (len kvs) (Search n k)) as Hge.
  { unfold Search. rewrite Hsz. pose proof (len_nonneg kvs). apply bsearch_correct; [|lia..].
    intros i j Hij Hj. rewrite !(stores_get _ _ _ _ Hk) by (rewrite len_fmap; lia). by apply ksorted_get. }
  assert (first_ge kvs.*1 k (len kvs) (Search n k)) as Hge'.
  { rewrite <-(len_fmap fst) in Hge |- *. by eapply stores_ge. }
  destruct (first_ge_split _ _ _ Hs Hge') as (kvs1 & kvs2 & Heq & Hi & Hb & Hcase).
  exists kvs1, kvs2. split; [done|]. split; [done|]. split; [done|]. unfold KeyFound.
  destruct Hcase as [(v & kvs2' & -> & Hne & Hget)|[Ha Hget]]; [left; exists v, kvs2'|right]; (split; [done|]).
  - rewrite (stores_get _ _ _ _ Hk) by (rewrite len_fmap; destruct Hge; lia). rewrite Hsz, Hget. lia.
  - rewrite Hsz. destruct Hget as [Hget|Hget]; [lia|]. destruct (Z.eqb_spec (Search n k) (len kvs)); [done|].
    rewrite (stores_get _ _ _ _ Hk) by (rewrite len_fmap; destruct Hge; lia). simpl. lia.
Qed.

(** The child at the index of a search, and what is left and right of it. *)
Lemma focus n kvs1 kvs2 cs ls h : holds n (kvs1 ++ kvs2) cs → Forall2 (rep h kMinKeys) cs ls →
  ∃ cs1 c cs2 ls1 l ls2, cs = cs1 ++ c :: cs2 ∧ ls = ls1 ++ l :: ls2 ∧ len cs1 = len kvs1 ∧ len ls1 = len kvs1 ∧
    len ls2 = len kvs2 ∧
    Forall2 (rep h kMinKeys) cs1 ls1 ∧ rep h kMinKeys c l ∧ Forall2 (rep h kMinKeys) cs2 ls2 ∧
    weave ls (kvs1 ++ kvs2) = heads ls1 kvs1 ++ l ++ tails kvs2 ls2.
Proof.
  intros (_ & _ & _ & _ & Hl) Hf. pose proof (len_nonneg kvs1). pose proof (len_nonneg kvs2).
  rewrite len_app in Hl. assert (∃ cs1 c cs2, cs = cs1 ++ c :: cs2 ∧ len cs1 = len kvs1) as (cs1 & c & cs2 & -> & Hl1).
  { destruct (cs !! length kvs1) as [c|] eqn:Hc.
    - exists (take (length kvs1) cs), c, (drop (S (length kvs1)) cs). split; [by rewrite take_drop_middle|].
      apply lookup_lt_Some in Hc. unfold len. rewrite length_take. lia.
    - apply lookup_ge_None in Hc. unfold len in *. lia. }
  apply Forall2_app_inv_l in Hf as (ls1 & ls' & Hf1 & Hf2 & ->).
  apply Forall2_cons_inv_l in Hf2 as (l & ls2 & Hc & Hf2 & ->).
  exists cs1, c, cs2, ls1, l, ls2. pose proof (Forall2_length _ _ _ Hf1). pose proof (Forall2_length _ _ _ Hf2).
  revert Hl. arr_len. intros Hl. split_and!; try done; [unfold len in *; lia..|]. apply weave_focus. unfold len in *. lia.
Qed.

(** ** [Find] *)

Lemma levels_child n c i : (children n).[i] = Some c → 0 ≤ i → (levels c < levels n)%nat.
Proof.
  intros Hc Hi. destruct n as [ks vs cs sz]. simpl in *. unfold get in Hc.
  assert (Some c ∈ cs) as Hin.
  { rewrite list_lookup_total_alt in Hc. destruct (cs !! Z.to_nat i) as [x|] eqn:Hx; simpl in Hc; [|done].
    subst x. by apply list_elem_of_lookup_2 in Hx. }
  clear Hc. induction cs as [|x cs IH]; [set_solver|]. simpl. apply elem_of_cons in Hin as [<-|Hin].
  - lia.
  - specialize (IH Hin). lia.
Qed.

Lemma find_n_ok h min fuel k c l : rep h min c l → ksorted l →
  (if c is Some n then levels n ≤ fuel else True)%nat →
  find_n no_value_ fuel k c = Ok (default no_value_ (to_map l !! k)).
Proof.
  revert h min c l. induction fuel as [|fuel IH]; intros h min c l Hr Hs Hfuel.
  all: destruct h as [|h]; [destruct Hr as [-> ->]; done|].
  all: destruct Hr as (n & kvs & cs & ls & -> & Hh & Hm & Hf & ->).
  { destruct n. simpl in Hfuel. lia. }
  pose proof (Forall2_length _ _ _ Hf) as Hlen. assert (len ls = len kvs + 1) as Hls.
  { destruct Hh as (_ & _ & _ & _ & Hl). unfold len in *. lia. }
  destruct (Search_ok n kvs cs k Hh (ksorted_weave _ _ Hls Hs)) as (kvs1 & kvs2 & -> & Hi & Hb & Hcase).
  destruct (focus n kvs1 kvs2 cs ls h Hh Hf) as (cs1 & c & cs2 & ls1 & l & ls2 & -> & -> & Hc1 & Hl1 & Hl2 & Hf1 & Hc & Hf2 & Heq).
  rewrite Heq in Hs |- *. pose proof Hs as Hs'. apply ksorted_app in Hs' as (Hsh & Hst & _).
  assert (below k (heads ls1 kvs1)) as Hbh by by apply heads_below.
  simpl. destruct Hcase as [(v & kvs2' & -> & ->)|[Ha ->]].
  - f_equal. destruct (holds_kv _ _ _ _ _ _ (Search n k) Hh Hi) as [_ ->].
    destruct ls2 as [|l2 ls2]; [unfold len in Hl2; simpl in Hl2; lia|].
    rewrite tails_cons in *. rewrite app_assoc in Hs |- *. apply ksorted_middle in Hs as (_ & _ & Hbl & _).
    by rewrite to_map_found.
  - rewrite Hi. rewrite (holds_child _ _ _ _ _ _ Hh) by done.
    apply ksorted_app in Hst as (Hsl & Hst & _). rewrite (IH h kMinKeys c l Hc Hsl).
    + f_equal. f_equal. rewrite (to_map_child _ _ _ k); [done..|by apply tails_above].
    + destruct c as [c|]; [|done]. pose proof (holds_child _ _ _ _ _ (len kvs1) Hh ltac:(lia)) as Hch.
      apply levels_child in Hch; [lia|]. pose proof (len_nonneg kvs1). lia.
Qed.

(** ** Paths *)

(** A node with children of height [h], without the child at [i]. *)
Definition frame_ok (h : nat) (min : Z) n (i : Z) pre post : Prop :=
  ∃ kvs1 kvs2 cs1 c cs2 ls1 ls2, holds n (kvs1 ++ kvs2) (cs1 ++ c :: cs2) ∧ i = len kvs1 ∧
    len cs1 = len kvs1 ∧ min ≤ len kvs1 + len kvs2 ∧ Forall2 (rep h kMinKeys) cs1 ls1 ∧
    Forall2 (rep h kMinKeys) cs2 ls2 ∧ pre = heads ls1 kvs1 ∧ post = tails kvs2 ls2.

(** A root that is not a leaf has a key. *)
Definition root_min (h : nat) : Z := if decide (h ≤ 1)%nat then 0 else 1.

(** The least size of a node of height [h] below the path [up]; the path starts at the
    root when [b] is true. *)
Definition min_at (b : bool) (up : path (V := V)) (h : nat) : Z :=
  match up with [] => if b then root_min h else kMinKeys | _ => kMinKeys end.

(** A path from height [H] down to a child of height [h], and the keys on its sides. *)
Fixpoint up_ok (b : bool) (h : nat) (up : path) (H : nat) pre post : Prop :=
  match up with
  | [] => h = H ∧ pre = [] ∧ post = []
  | (n, i) :: up => ∃ p q pre' post', frame_ok h (min_at b up (S h)) n i p q ∧
      up_ok b (S h) up H pre' post' ∧ pre = pre' ++ p ∧ post = q ++ post'
  end.

Lemma up_ok_height b h up H pre post : up_ok b h up H pre post → H = (h + length up)%nat.
Proof.
  revert h pre post. induction up as [|[n i] up IH]; intros h pre post; simpl; [intros [-> _]; lia|].
  intros (p & q & pre' & post' & _ & Hu & _). apply IH in Hu. lia.
Qed.

Lemma root_min_range h : 0 ≤ root_min h ≤ 1.
Proof. unfold root_min. case_decide; lia. Qed.

Lemma min_at_range b up h : 0 ≤ min_at b up h ≤ kMinKeys.
Proof. unfold min_at. pose proof (root_min_range h). destruct up, b; lia. Qed.

Lemma frame_plug h min n i p q c l : frame_ok h min n i p q → rep h kMinKeys c l →
  rep (S h) min (Some (set_child n i c)) (p ++ l ++ q).
Proof.
  intros (kvs1 & kvs2 & cs1 & c0 & cs2 & ls1 & ls2 & Hh & -> & Hl & Hm & Hf1 & Hf2 & -> & ->) Hc.
  exists (set_child n (len kvs1) c), (kvs1 ++ kvs2), (cs1 ++ c :: cs2), (ls1 ++ l :: ls2).
  split; [done|]. split; [by eapply holds_set_child|]. split; [by rewrite len_app|].
  split; [by apply Forall2_app, Forall2_cons|]. rewrite weave_focus; [done|].
  apply Forall2_length in Hf1. unfold len in *. lia.
Qed.

Lemma relink_ok b h up H pre post c l : up_ok b h up H pre post → rep h (min_at b up h) c l →
  rep H (min_at b [] H) (relink up c) (pre ++ l ++ post).
Proof.
  revert h pre post c l. induction up as [|[n i] up IH]; intros h pre post c l; simpl.
  - intros (-> & -> & ->) Hc. by rewrite app_nil_r.
  - intros (p & q & pre' & post' & Hfr & Hu & -> & ->) Hc. rewrite <-!app_assoc.
    rewrite (app_assoc l), (app_assoc p). eapply IH; [done|]. by apply frame_plug.
Qed.

Lemma relink_root h up H pre post c l : up_ok true (S h) up H pre post → rep (S h) (min_at true up (S h)) c l →
  ∃ r, relink up c = Some r ∧ rep H (root_min H) (Some r) (pre ++ l ++ post).
Proof.
  intros Hu Hc. pose proof (up_ok_height _ _ _ _ _ _ Hu) as HH. pose proof (relink_ok _ _ _ _ _ _ _ _ Hu Hc) as Hr.
  destruct H as [|H]; [lia|]. pose proof Hr as (r & kvs & cs & ls & Heq & _). exists r. split; [done|]. by rewrite <-Heq.
Qed.

(** The node at the top of a path, for the descent. *)
Lemma focus_frame h min n kvs1 kvs2 cs1 c cs2 ls1 ls2 : holds n (kvs1 ++ kvs2) (cs1 ++ c :: cs2) →
  min ≤ len (kvs1 ++ kvs2) → len cs1 = len kvs1 → Forall2 (rep h kMinKeys) cs1 ls1 → Forall2 (rep h kMinKeys) cs2 ls2 →
  frame_ok h min n (len kvs1) (heads ls1 kvs1) (tails kvs2 ls2).
Proof. rewrite len_app. intros. exists kvs1, kvs2, cs1, c, cs2, ls1, ls2. by split_and!. Qed.

Lemma up_ok_cons b h up H pre post n i p q : frame_ok h (min_at b up (S h)) n i p q → up_ok b (S h) up H pre post →
  up_ok b h ((n, i) :: up) H (pre ++ p) (q ++ post).
Proof. intros Hf Hu. by exists p, q, pre, post. Qed.

(** The keys of a found node: the child left of the key, the key, and the rest. *)
Definition found_at (h : nat) (min : Z) n (i : Z) k v (lc : list (Z * V)) p q : Prop :=
  ∃ kvs1 kvs2 cs1 c cs2 ls1 ls2, holds n (kvs1 ++ (k, v) :: kvs2) (cs1 ++ c :: cs2) ∧ i = len kvs1 ∧
    len cs1 = len kvs1 ∧ min ≤ len kvs1 + 1 + len kvs2 ∧ Forall2 (rep h kMinKeys) cs1 ls1 ∧ rep h kMinKeys c lc ∧
    Forall2 (rep h kMinKeys) cs2 ls2 ∧ p = heads ls1 kvs1 ∧ (k, v) :: q = tails ((k, v) :: kvs2) ls2.

Definition walk_ok (H : nat) (k : Z) l (w : walk (V := V)) : Prop :=
  match w with
  | Missing up => up ≠ [] ∧ ∃ pre post, up_ok true 0 up H pre post ∧ l = pre ++ post ∧ below k pre ∧ above k post
  | Found up n i => ∃ h v pre post lc p q, up_ok true (S h) up H pre post ∧
      found_at h (min_at true up (S h)) n i k v lc p q ∧
      l = (pre ++ p ++ lc) ++ (k, v) :: q ++ post ∧ below k (pre ++ p ++ lc)
  end.

Lemma descend_ok slots h up n H k l pre post : (h < slots)%nat → up_ok true (S h) up H pre post →
  rep (S h) (min_at true up (S h)) (Some n) l → ksorted (pre ++ l ++ post) → below k pre → above k post →
  ∃ w, descend slots k up n = Ok w ∧ walk_ok H k (pre ++ l ++ post) w.
Proof.
  revert h up n l pre post. induction slots as [|slots IH]; intros h up n l pre post Hslots Hu Hr Hs Hpre Hpost; [lia|].
  destruct Hr as (? & kvs & cs & ls & [= <-] & Hh & Hm & Hf & ->).
  pose proof Hs as (_ & (Hsw & _)%ksorted_app & _)%ksorted_app.
  assert (len ls = len kvs + 1) as Hls.
  { apply Forall2_length in Hf. destruct Hh as (_ & _ & _ & _ & Hl). unfold len in *. lia. }
  destruct (Search_ok n kvs cs k Hh (ksorted_weave _ _ Hls Hsw)) as (kvs1 & kvs2 & -> & Hi & Hb & Hcase).
  destruct (focus n kvs1 kvs2 cs ls h Hh Hf) as (cs1 & c & cs2 & ls1 & l & ls2 & -> & -> & Hc1 & Hl1 & Hl2 & Hf1 & Hc & Hf2 & Heq).
  rewrite Heq in Hsw, Hs |- *. pose proof Hsw as (Hsh & (Hsl & Hst & _)%ksorted_app & _)%ksorted_app.
  assert (below k (heads ls1 kvs1)) as Hbh by by apply heads_below.
  simpl. destruct Hcase as [(v & kvs2' & -> & ->)|[Ha ->]].
  - eexists. split; [done|]. destruct ls2 as [|l2 ls2]; [unfold len in Hl2; simpl in Hl2; lia|].
    exists h, v, pre, post, l, (heads ls1 kvs1), (l2 ++ tails kvs2' ls2). split; [done|].
    split; [|split].
    + exists kvs1, kvs2', cs1, c, cs2, ls1, (l2 :: ls2). split_and!; try done.
      rewrite len_app, len_cons in Hm. lia.
    + rewrite tails_cons. by app_norm.
    + rewrite tails_cons, app_assoc in Hsw. apply ksorted_middle in Hsw as (_ & _ & Hsw & _). by rewrite below_app.
  - rewrite (holds_child _ _ _ _ _ _ Hh) by (by rewrite Hi). rewrite Hi.
    pose proof (up_ok_cons true h up H pre post n (len kvs1) _ _
      (focus_frame h _ n kvs1 kvs2 cs1 c cs2 ls1 ls2 Hh Hm Hc1 Hf1 Hf2) Hu) as Hu'.
    assert (above k (tails kvs2 ls2)) as Hat by by apply tails_above.
    assert (pre ++ (heads ls1 kvs1 ++ l ++ tails kvs2 ls2) ++ post =
      (pre ++ heads ls1 kvs1) ++ l ++ tails kvs2 ls2 ++ post) as Hassoc by by app_norm.
    rewrite Hassoc in Hs |- *. destruct c as [c|].
    + destruct h as [|h]; [by destruct Hc as [? _]|]. apply (IH h); [lia|done|done|done| |].
      * by apply below_app.
      * by apply above_app.
    + eexists. split; [done|]. destruct h as [|h]; [|by destruct Hc as (? & ? & ? & ? & [=] & _)].
      destruct Hc as [_ ->]. split; [done|]. exists (pre ++ heads ls1 kvs1), (tails kvs2 ls2 ++ post).
      split; [done|]. split; [done|]. by rewrite below_app, above_app.
Qed.

(** ** [Insert] *)

Lemma holds_insert n kvs1 kvs2 cs1 c cs2 k v next i : holds n (kvs1 ++ kvs2) (cs1 ++ c :: cs2) →
  i = len kvs1 → len cs1 = len kvs1 → len (kvs1 ++ kvs2) < kMaxKeys →
  holds (insert_in_node no_value_ n i k v next) (kvs1 ++ (k, v) :: kvs2) (cs1 ++ next :: c :: cs2).
Proof.
  intros (Hk & Hv & Hc & Hs & Hl) -> Hcs Hlt. rewrite fmap_app in Hk. rewrite fmap_app in Hv. revert Hl Hlt Hs. arr_len. intros Hl Hlt Hs.
  split; [|split; [|split; [|split]]]; cbn [insert_in_node keys values children size].
  - rewrite fmap_app, fmap_cons. apply insert_at_stores; [done|rewrite !len_fmap; lia|by rewrite len_fmap|rewrite !len_fmap; lia].
  - rewrite fmap_app, fmap_cons. apply insert_at_stores; [done|rewrite !len_fmap; lia|by rewrite len_fmap|rewrite !len_fmap; lia].
  - apply insert_at_stores; [done|arr_len; lia|lia|arr_len; lia].
  - rewrite Hs. arr_len. lia.
  - arr_len. lia.
Qed.

Lemma holds_InitializeMove n ks vs kl kr kvs cl cr cs from isize :
  len (keys n) = kMaxKeys → len (values n) = kMaxKeys → len kvs ≤ kMaxKeys →
  ks = kl ++ kvs ++ kr → vs = cl ++ cs ++ cr → len cs = len kvs + 1 →
  from = len kl → len cl = len kl → isize = len kvs →
  holds (InitializeMove no_value_ kMinKeys n ks.*1 ks.*2 vs from isize) kvs cs.
Proof.
  intros Hk Hv Hle -> -> Hcs -> Hcl ->. rewrite !fmap_app. split; [|split; [|split; [|split]]]; cbn [InitializeMove keys values children size].
  - apply copy_prefix; rewrite ?len_fmap; done || lia.
  - apply copy_prefix; rewrite ?len_fmap; done || lia.
  - apply copy_prefix; [|lia..]. arr_len. unfold BTree.kMaxKeys in *. lia.
  - done.
  - done.
Qed.

(** A full node splits around the middle of its keys and the new one. *)
Lemma Split_ok n kvs1 kvs2 cs1 c cs2 k v next i : holds n (kvs1 ++ kvs2) (cs1 ++ c :: cs2) →
  i = len kvs1 → len cs1 = len kvs1 → size n = kMaxKeys → ∃ n' n'' k' v' kl kr cl cr,
    Split no_value_ kMinKeys n i k v next = (n', k', v', Some n'') ∧
    kvs1 ++ (k, v) :: kvs2 = kl ++ (k', v') :: kr ∧ cs1 ++ next :: c :: cs2 = cl ++ cr ∧
    holds n'' kl cl ∧ holds n' kr cr ∧ len kl = kMinKeys ∧ len kr = kMinKeys.
Proof.
  intros (Hk & Hv & Hc & Hs & Hl) -> Hcs Hfull. rewrite fmap_app in Hk. rewrite fmap_app in Hv. rewrite Hs in Hfull.
  revert Hl Hfull. arr_len. intros Hl Hfull. unfold BTree.kMaxKeys in Hfull.
  assert (split_keys kMinKeys n (len kvs1) k = (kvs1 ++ (k, v) :: kvs2).*1) as Hks.
  { unfold split_keys. rewrite fmap_app, fmap_cons. eapply copy_open; [done|by rewrite len_fmap|rewrite Hs, !len_fmap; by arr_len|].
    rewrite Hs. arr_len. unfold BTree.kMaxKeys. lia. }
  assert (split_values no_value_ kMinKeys n (len kvs1) v = (kvs1 ++ (k, v) :: kvs2).*2) as Hvs.
  { unfold split_values. rewrite fmap_app, fmap_cons. eapply copy_open; [done|by rewrite len_fmap|rewrite Hs, !len_fmap; by arr_len|].
    rewrite Hs. arr_len. unfold BTree.kMaxKeys. lia. }
  assert (split_children kMinKeys n (len kvs1) next = cs1 ++ next :: c :: cs2) as Hchs.
  { unfold split_children. eapply copy_open; [done|lia|rewrite Hs; arr_len; lia|].
    rewrite Hs. arr_len. unfold BTree.kMaxKeys. lia. }
  destruct (list_split (kvs1 ++ (k, v) :: kvs2) kMinKeys) as (kl & kr & Hkeq & Hkl & Hkr); [arr_len; lia|].
  destruct (list_split (cs1 ++ next :: c :: cs2) (kMinKeys + 1)) as (cl & cr & Hceq & Hcl & Hcr); [arr_len; lia|].
  revert Hkr Hcr. arr_len. intros Hkr Hcr. destruct kr as [|[k' v'] kr]; [rewrite len_nil in Hkr; lia|]. rewrite len_cons in Hkr.
  exists (InitializeMove no_value_ kMinKeys n (kl ++ (k', v') :: kr).*1 (kl ++ (k', v') :: kr).*2 (cl ++ cr) (kMinKeys + 1) kMinKeys),
    (InitializeMove no_value_ kMinKeys (new_node no_value_ kMinKeys) (kl ++ (k', v') :: kr).*1 (kl ++ (k', v') :: kr).*2 (cl ++ cr) 0 kMinKeys),
    k', v', kl, kr, cl, cr.
  split; [|split; [done|split; [done|split; [|split; [|lia]]]]].
  - unfold Split. rewrite Hks, Hvs, Hchs, Hkeq, Hceq. rewrite !fmap_app.
    rewrite !get_app_r by (rewrite len_fmap; lia). rewrite !len_fmap, Hkl, Z.sub_diag. done.
  - eapply (holds_InitializeMove _ _ _ [] ((k', v') :: kr) kl [] cr cl); try done; simpl; arr_len; unfold BTree.kMaxKeys; lia.
  - eapply (holds_InitializeMove _ _ _ (kl ++ [(k', v')]) [] kr cl [] cr).
    + apply Hk.
    + apply Hv.
    + unfold BTree.kMaxKeys. lia.
    + rewrite app_nil_r. by app_norm.
    + by rewrite app_nil_r.
    + lia.
    + arr_len. lia.
    + arr_len. lia.
    + lia.
Qed.

Lemma stores_replicate {A} `{Inhabited A} (x : A) cap : 0 ≤ cap → stores (replicate (Z.to_nat cap) x) cap [].
Proof. intros Hc. split; [rewrite len_replicate; lia|]. by eexists. Qed.

Lemma holds_new : holds (new_node no_value_ kMinKeys) [] [None].
Proof.
  unfold new_node. split; [|split; [|split; [|split]]]; cbn [keys values children size]; try done.
  1,2: apply stores_replicate; unfold BTree.kMaxKeys; lia.
  split; [rewrite len_replicate; unfold BTree.kMaxKeys; lia|].
  replace (Z.to_nat (kMaxKeys + 1)) with (S (Z.to_nat kMaxKeys)) by (unfold BTree.kMaxKeys; lia). by eexists.
Qed.

Lemma holds_grow k v next root_ : holds (grow no_value_ kMinKeys k v next root_) [(k, v)] [next; root_].
Proof.
  unfold grow, new_node. split; [|split; [|split; [|split]]]; cbn [keys values children size]; try done.
  - apply (stores_push _ kMaxKeys []); [apply stores_replicate|..]; unfold BTree.kMaxKeys; try done; rewrite ?len_nil; lia.
  - apply (stores_push _ kMaxKeys []); [apply stores_replicate|..]; unfold BTree.kMaxKeys; try done; rewrite ?len_nil; lia.
  - apply (stores_push _ (kMaxKeys + 1) [next]); [|unfold BTree.kMaxKeys; rewrite len_cons, len_nil; lia|done].
    apply (stores_push _ (kMaxKeys + 1) []); [apply stores_replicate|..]; unfold BTree.kMaxKeys; try done; rewrite ?len_nil; lia.
Qed.

Lemma rep_node h min n kvs cs ls l : holds n kvs cs → min ≤ len kvs → Forall2 (rep h kMinKeys) cs ls →
  l = weave ls kvs → rep (S h) min (Some n) l.
Proof. intros. by exists n, kvs, cs, ls. Qed.

Lemma Forall2_split {A B} (P : A → B → Prop) (cs1 cs2 : list A) (xs : list B) : Forall2 P (cs1 ++ cs2) xs →
  ∃ x1 x2, xs = x1 ++ x2 ∧ Forall2 P cs1 x1 ∧ Forall2 P cs2 x2 ∧ len cs1 = len x1 ∧ len cs2 = len x2.
Proof.
  intros Hf. apply Forall2_app_inv_l in Hf as (x1 & x2 & H1 & H2 & ->). exists x1, x2.
  pose proof (Forall2_length _ _ _ H1). pose proof (Forall2_length _ _ _ H2). unfold len. split_and!; try done; lia.
Qed.

(** A full node with a new key and child becomes two. *)
Lemma split_rep h n i k v next ln p q child lc min : frame_ok h min n i p q → rep h kMinKeys next ln →
  rep h kMinKeys child lc → size n = kMaxKeys → ∃ n' n'' k' v' l1 l2,
    Split no_value_ kMinKeys (set_child n i child) i k v next = (n', k', v', Some n'') ∧
    p ++ (ln ++ (k, v) :: lc) ++ q = l1 ++ (k', v') :: l2 ∧
    rep (S h) kMinKeys (Some n'') l1 ∧ rep (S h) kMinKeys (Some n') l2.
Proof.
  intros (kvs1 & kvs2 & cs1 & c0 & cs2 & ls1 & ls2 & Hh & -> & Hl & Hm & Hf1 & Hf2 & -> & ->) Hn Hc Hfull.
  destruct (Split_ok (set_child n (len kvs1) child) kvs1 kvs2 cs1 child cs2 k v next (len kvs1))
    as (n' & n'' & k' & v' & kl & kr & cl & cr & Hs & Hk & Hcs & H1 & H2 & Hkl & Hkr);
    [by eapply holds_set_child|done..|].
  assert (Forall2 (rep h kMinKeys) (cs1 ++ next :: child :: cs2) (ls1 ++ ln :: lc :: ls2)) as Hf.
  { apply Forall2_app; [done|]. by repeat constructor. }
  rewrite Hcs in Hf. apply Forall2_split in Hf as (la & lb & Hls & Hfa & Hfb & Hla & Hlb).
  pose proof (Forall2_length _ _ _ Hf1) as Hlen1.
  exists n', n'', k', v', (weave la kl), (weave lb kr). split; [done|].
  pose proof H1 as (_ & _ & _ & _ & H1'). pose proof H2 as (_ & _ & _ & _ & H2').
  split; [|by split; [apply (rep_node _ _ _ _ _ la _ H1)|apply (rep_node _ _ _ _ _ lb _ H2)]; try lia].
  rewrite <-weave_split by lia. rewrite <-Hls, <-Hk.
  rewrite weave_focus by (unfold len in *; lia). rewrite tails_cons. by app_norm.
Qed.

(** The tree becomes one that holds the new key, and may be one higher. *)
Lemma ascend_ok up h H k v next child pre post ln lc : up_ok true h up H pre post →
  rep h kMinKeys next ln → rep h kMinKeys child lc →
  ∃ H' r, ascend no_value_ kMinKeys up k v next child = Some r ∧
    rep H' (root_min H') (Some r) (pre ++ (ln ++ (k, v) :: lc) ++ post) ∧ (H' ≤ S H)%nat.
Proof.
  revert h k v next child pre post ln lc. induction up as [|[n i] up IH]; intros h k v next child pre post ln lc Hu Hn Hc; cbn [ascend].
  - destruct Hu as (-> & -> & ->). exists (S H), (grow no_value_ kMinKeys k v next child). split; [done|].
    split; [|lia]. rewrite app_nil_r. apply (rep_node H _ _ [(k, v)] [next; child] [ln; lc]);
      [apply holds_grow|apply root_min_range|by repeat constructor|]. unfold weave. rewrite tails_cons. by rewrite app_nil_r.
  - destruct Hu as (p & q & pre' & post' & Hfr & Hu & -> & ->).
    assert (size (set_child n i child) = size n) as -> by done. destruct (Z.eqb_spec (size n) kMaxKeys) as [Hfull|Hroom].
    + destruct (split_rep _ _ _ k v _ _ _ _ _ _ _ Hfr Hn Hc Hfull) as (n' & n'' & k' & v' & l1 & l2 & -> & Hl & H1 & H2).
      destruct (IH (S h) k' v' (Some n'') (Some n') pre' post' l1 l2) as (H' & r & Ha & Hr & Hle); [done..|].
      exists H', r. split; [done|]. split; [|done]. rewrite <-Hl in Hr. revert Hr. by app_norm.
    + destruct Hfr as (kvs1 & kvs2 & cs1 & c0 & cs2 & ls1 & ls2 & Hh & -> & Hl & Hm & Hf1 & Hf2 & -> & ->).
      assert (len (kvs1 ++ kvs2) < kMaxKeys) as Hlt.
      { destruct Hh as (Hk & _ & _ & Hs & _). apply stores_len in Hk. rewrite len_fmap in Hk. lia. }
      pose proof (holds_insert _ kvs1 kvs2 cs1 child cs2 k v next (len kvs1)
        (holds_set_child _ _ _ _ _ child _ Hh (eq_sym Hl)) eq_refl Hl Hlt) as Hins.
      destruct (relink_root h up H pre' post' (Some (insert_in_node no_value_ (set_child n (len kvs1) child) (len kvs1) k v next))
        (heads ls1 kvs1 ++ ln ++ tails ((k, v) :: kvs2) (lc :: ls2))) as (r & Hr & Hrep); [done| |].
      { apply (rep_node _ _ _ _ _ (ls1 ++ ln :: lc :: ls2) _ Hins); [arr_len; lia| |].
        - apply Forall2_app; [done|]. by repeat constructor.
        - symmetry. apply weave_focus. apply Forall2_length in Hf1. unfold len in *. lia. }
      exists H, r. split; [done|]. split; [|lia]. revert Hrep. rewrite tails_cons. by app_norm.
Qed.
(** ** [Delete]: two siblings *)

(** The node [n] with children [L] and [R] left and right of its key [kv] at [i]. *)
Definition pair_at (h : nat) (min : Z) n (i : Z) (L R : Node) p (kv : Z * V) q : Prop :=
  ∃ ka kb ca cb la lb, holds n (ka ++ kv :: kb) (ca ++ Some L :: Some R :: cb) ∧ i = len ka ∧ len ca = len ka ∧
    min ≤ len ka + 1 + len kb ∧ Forall2 (rep h kMinKeys) ca la ∧ Forall2 (rep h kMinKeys) cb lb ∧
    p = heads la ka ∧ q = tails kb lb.

Lemma pair_key h min n i L R p kv q : pair_at h min n i L R p kv q →
  (keys n).[i] = kv.1 ∧ (values n).[i] = kv.2.
Proof. intros (ka & kb & ca & cb & la & lb & Hh & Hi & _). destruct kv as [k v]. by eapply holds_kv. Qed.

Lemma with_children_ok h min n i L R p kv q f : pair_at h min n i L R p kv q → with_children n i f = Ok (f L R).
Proof.
  intros (ka & kb & ca & cb & la & lb & Hh & -> & Hl & _). unfold with_children.
  rewrite (holds_child _ _ _ _ _ _ Hh) by done.
  replace (ca ++ Some L :: Some R :: cb) with ((ca ++ [Some L]) ++ Some R :: cb) in Hh by by app_norm.
  rewrite (holds_child _ _ _ _ _ _ Hh); [done|]. arr_len. lia.
Qed.

Lemma holds_replace_key n kvs1 kv kvs2 cs k v i : holds n (kvs1 ++ kv :: kvs2) cs → i = len kvs1 →
  holds (replace_key n i k v) (kvs1 ++ (k, v) :: kvs2) cs.
Proof.
  intros (Hk & Hv & Hc & Hs & Hl) ->. rewrite fmap_app, fmap_cons in Hk. rewrite fmap_app, fmap_cons in Hv.
  split; [|split; [|split; [|split]]]; cbn [replace_key keys values children size].
  - rewrite fmap_app, fmap_cons. eapply stores_set; [done|]. by rewrite len_fmap.
  - rewrite fmap_app, fmap_cons. eapply stores_set; [done|]. by rewrite len_fmap.
  - done.
  - rewrite Hs. by arr_len.
  - rewrite Hl. by arr_len.
Qed.

(** Both siblings and the key between them are replaced. *)
Lemma pair_replace h min n i L R p kv q k v L' R' lL lR : pair_at h min n i L R p kv q →
  rep h kMinKeys (Some L') lL → rep h kMinKeys (Some R') lR →
  rep (S h) min (Some (set_child (set_child (replace_key n i k v) i (Some L')) (i + 1) (Some R')))
    (p ++ lL ++ (k, v) :: lR ++ q).
Proof.
  intros (ka & kb & ca & cb & la & lb & Hh & -> & Hl & Hm & Hf1 & Hf2 & -> & ->) HL HR.
  pose proof (Forall2_length _ _ _ Hf1) as Hla. pose proof (holds_replace_key _ _ _ _ _ k v _ Hh eq_refl) as Hh1.
  pose proof (holds_set_child _ _ _ _ _ (Some L') (len ka) Hh1 (eq_sym Hl)) as Hh2.
  replace (ca ++ Some L' :: Some R :: cb) with ((ca ++ [Some L']) ++ Some R :: cb) in Hh2 by by app_norm.
  assert (len ka + 1 = len (ca ++ [Some L'])) as Hi by (arr_len; lia).
  pose proof (holds_set_child _ _ _ _ _ (Some R') (len ka + 1) Hh2 Hi) as Hh3.
  apply (rep_node _ _ _ _ _ (la ++ lL :: lR :: lb) _ Hh3).
  - arr_len. lia.
  - rewrite <-app_assoc. apply Forall2_app; [done|]. by repeat constructor.
  - rewrite weave_focus by (unfold len in *; lia). by rewrite tails_cons.
Qed.

(** The siblings become one, without the key between them. *)
Lemma holds_remove_pair n ka kv kb ca L R cb L' : holds n (ka ++ kv :: kb) (ca ++ Some L :: Some R :: cb) → len ca = len ka →
  holds (set_child {| keys := move_within (keys n) (len ka + 1) (size n) (len ka);
                      values := move_within (values n) (len ka + 1) (size n) (len ka);
                      children := move_within (children n) (len ka + 2) (size n + 1) (len ka + 1);
                      size := size n - 1 |} (len ka) (Some L'))
    (ka ++ kb) (ca ++ Some L' :: cb).
Proof.
  intros (Hk & Hv & Hc & Hs & Hl) Hca. rewrite fmap_app, fmap_cons in Hk. rewrite fmap_app, fmap_cons in Hv.
  revert Hs Hl. arr_len. intros Hs Hl. eapply holds_set_child; [|done].
  split; [|split; [|split; [|split]]]; cbn [keys values children size].
  - rewrite fmap_app. eapply move_within_stores; [exact Hk|by rewrite len_fmap|rewrite !len_fmap; lia].
  - rewrite fmap_app. eapply move_within_stores; [exact Hv|by rewrite len_fmap|rewrite !len_fmap; lia].
  - replace (ca ++ Some L :: Some R :: cb) with ((ca ++ [Some L]) ++ Some R :: cb) in Hc by by app_norm.
    replace (ca ++ Some L :: cb) with ((ca ++ [Some L]) ++ cb) by by app_norm.
    replace (len ka + 2) with (len ka + 1 + 1) by lia. eapply move_within_stores; [exact Hc|arr_len; lia|arr_len; lia].
  - rewrite Hs. arr_len. lia.
  - arr_len. lia.
Qed.

Lemma holds_merge L kl cl R kr cr k v : holds L kl cl → holds R kr cr → len kl + 1 + len kr ≤ kMaxKeys →
  holds {| keys := copy_to (keys R) 0 (size R) ((keys L).[size L <- k]) (size L + 1);
           values := copy_to (values R) 0 (size R) ((values L).[size L <- v]) (size L + 1);
           children := copy_to (children R) 0 (size R + 1) (children L) (size L + 1);
           size := size L + size R + 1 |} (kl ++ (k, v) :: kr) (cl ++ cr).
Proof.
  intros (HkL & HvL & HcL & HsL & HlL) (HkR & HvR & HcR & HsR & HlR) Hle. pose proof (len_nonneg kr).
  destruct HkR as [_ [rk HkR]], HvR as [_ [rv HvR]], HcR as [_ [rc HcR]].
  split; [|split; [|split; [|split]]]; cbn [keys values children size].
  - rewrite fmap_app, fmap_cons. replace (kl.*1 ++ k :: kr.*1) with ((kl.*1 ++ [k]) ++ kr.*1) by by app_norm.
    eapply copy_append; [exact HkR|eapply stores_push; [exact HkL|rewrite len_fmap; lia|by rewrite len_fmap]|done|by rewrite len_fmap
      |arr_len; rewrite len_fmap; lia|arr_len; rewrite !len_fmap; lia].
  - rewrite fmap_app, fmap_cons. replace (kl.*2 ++ v :: kr.*2) with ((kl.*2 ++ [v]) ++ kr.*2) by by app_norm.
    eapply copy_append; [exact HvR|eapply stores_push; [exact HvL|rewrite len_fmap; lia|by rewrite len_fmap]|done|by rewrite len_fmap
      |arr_len; rewrite len_fmap; lia|arr_len; rewrite !len_fmap; lia].
  - eapply copy_append; [exact HcR|exact HcL|done|lia..].
  - arr_len. lia.
  - arr_len. lia.
Qed.

Lemma children_fit_ok h min n i L R p kv q : pair_at h min n i L R p kv q → size L + size R + 1 = kMaxKeys →
  children_fit kMinKeys n i = true.
Proof.
  intros Hp Hsz. pose proof (with_children_ok _ _ _ _ _ _ _ _ _ (λ a _ : Node, a) Hp) as H1.
  pose proof (with_children_ok _ _ _ _ _ _ _ _ _ (λ _ b : Node, b) Hp) as H2. unfold with_children, children_fit in *.
  destruct (children n).[i], (children n).[i + 1]; [|done..]. injection H1 as ->. injection H2 as ->. lia.
Qed.

Lemma MergeChildren_ok h min n i L R p kv q lL lR : pair_at (S h) min n i L R p kv q →
  rep (S h) 0 (Some L) lL → rep (S h) 0 (Some R) lR → size L + size R + 1 = kMaxKeys →
  ∃ n', MergeChildren no_value_ kMinKeys n i = Ok n' ∧ rep (S (S h)) (min - 1) (Some n') (p ++ lL ++ kv :: lR ++ q).
Proof.
  intros Hp HL HR Hsz. unfold MergeChildren. rewrite (children_fit_ok _ _ _ _ _ _ _ _ _ Hp Hsz). cbn [negb]. rewrite (with_children_ok _ _ _ _ _ _ _ _ _ _ Hp).
  destruct (pair_key _ _ _ _ _ _ _ _ _ Hp) as [-> ->]. eexists. split; [done|].
  destruct Hp as (ka & kb & ca & cb & la & lb & Hh & -> & Hl & Hm & Hf1 & Hf2 & -> & ->).
  destruct HL as (? & kl & cl & ll & [= <-] & HhL & _ & HfL & ->).
  destruct HR as (? & kr & cr & lr & [= <-] & HhR & _ & HfR & ->).
  pose proof HhL as (_ & _ & _ & HsL & HlL). pose proof HhR as (_ & _ & _ & HsR & HlR).
  pose proof (holds_merge _ _ _ _ _ _ kv.1 kv.2 HhL HhR ltac:(lia)) as Hm'.
  eapply (rep_node _ _ _ _ _ (la ++ weave (ll ++ lr) (kl ++ (kv.1, kv.2) :: kr) :: lb)).
  - by eapply holds_remove_pair.
  - arr_len. lia.
  - apply Forall2_app; [done|]. constructor; [|done]. eapply rep_node; [exact Hm'|arr_len; unfold BTree.kMaxKeys in Hsz; lia|by apply Forall2_app|done].
  - pose proof (Forall2_length _ _ _ Hf1). pose proof (Forall2_length _ _ _ HfL). pose proof (Forall2_length _ _ _ HfR).
    rewrite weave_focus, weave_split by (unfold len in *; lia). destruct kv. by app_norm.
Qed.

(** A node without its last key and child. *)
Lemma holds_pop n kvs kv cs c : holds n (kvs ++ [kv]) (cs ++ [c]) →
  holds {| keys := keys n; values := values n; children := children n; size := size n - 1 |} kvs cs.
Proof.
  intros (Hk & Hv & Hc & Hs & Hl). rewrite fmap_app in Hk. rewrite fmap_app in Hv. arr_len in Hs. arr_len in Hl.
  split; [by eapply stores_drop|]. split; [by eapply stores_drop|]. split; [by eapply stores_drop|]. cbn [size]. split; lia.
Qed.

Lemma holds_push n kvs k v cs c : holds n kvs cs → len kvs < kMaxKeys →
  holds {| keys := (keys n).[size n <- k]; values := (values n).[size n <- v];
           children := (children n).[size n + 1 <- c]; size := size n + 1 |} (kvs ++ [(k, v)]) (cs ++ [c]).
Proof.
  intros (Hk & Hv & Hc & Hs & Hl) Hlt. split; [|split; [|split; [|split]]]; cbn [keys values children size].
  - rewrite fmap_app. apply stores_push; rewrite ?len_fmap; done || lia.
  - rewrite fmap_app. apply stores_push; rewrite ?len_fmap; done || lia.
  - apply stores_push; done || lia.
  - arr_len. lia.
  - arr_len. lia.
Qed.

Lemma holds_unshift n kvs k v cs c : holds n kvs cs → len kvs < kMaxKeys →
  holds {| keys := insert_at (keys n) 0 (size n) k; values := insert_at (values n) 0 (size n) v;
           children := insert_at (children n) 0 (size n + 1) c; size := size n + 1 |} ((k, v) :: kvs) (c :: cs).
Proof.
  intros (Hk & Hv & Hc & Hs & Hl) Hlt. split; [|split; [|split; [|split]]]; cbn [keys values children size].
  - rewrite fmap_cons. apply (insert_at_stores _ _ []); arr_len; rewrite ?len_fmap; done || lia.
  - rewrite fmap_cons. apply (insert_at_stores _ _ []); arr_len; rewrite ?len_fmap; done || lia.
  - apply (insert_at_stores _ _ []); arr_len; done || lia.
  - arr_len. lia.
  - arr_len. lia.
Qed.

Lemma holds_shift n kvs kv cs c : holds n (kv :: kvs) (c :: cs) →
  holds {| keys := move_within (keys n) 1 (size n) 0; values := move_within (values n) 1 (size n) 0;
           children := move_within (children n) 1 (size n + 1) 0; size := size n - 1 |} kvs cs.
Proof.
  intros (Hk & Hv & Hc & Hs & Hl). rewrite fmap_cons in Hk. rewrite fmap_cons in Hv. revert Hs Hl. arr_len. intros Hs Hl.
  split; [|split; [|split; [|split]]]; cbn [keys values children size]; try lia.
  - apply (move_within_stores _ _ [] kv.1 kvs.*1 0 _ Hk); arr_len; rewrite ?len_fmap; done || lia.
  - apply (move_within_stores _ _ [] kv.2 kvs.*2 0 _ Hv); arr_len; rewrite ?len_fmap; done || lia.
  - apply (move_within_stores _ _ [] c cs 0 _ Hc); arr_len; done || lia.
Qed.

Lemma snoc_inv {A} (xs : list A) : 0 < len xs → ∃ (ys : list A) x, xs = ys ++ [x].
Proof. destruct xs as [|x ys _] using rev_ind; [arr_len; lia|]. eauto. Qed.

Lemma TransferFromLeftToRight_ok h min n i L R p kv q lL lR : pair_at (S h) min n i L R p kv q →
  rep (S h) (kMinKeys + 1) (Some L) lL → rep (S h) (kMinKeys - 1) (Some R) lR → size R < kMinKeys →
  ∃ n', TransferFromLeftToRight no_value_ n i = Ok n' ∧ rep (S (S h)) min (Some n') (p ++ lL ++ kv :: lR ++ q).
Proof.
  intros Hp (? & kvs & cs & ls & [= <-] & HhL & HmL & HfL & ->) (? & kr & cr & lr & [= <-] & HhR & HmR & HfR & ->) Hsz.
  unfold TransferFromLeftToRight. rewrite (with_children_ok _ _ _ _ _ _ _ _ _ _ Hp).
  destruct (pair_key _ _ _ _ _ _ _ _ _ Hp) as [-> ->]. eexists. split; [done|].
  pose proof HhL as (_ & _ & _ & HsL & HlL). pose proof HhR as (_ & _ & _ & HsR & HlR).
  destruct (snoc_inv kvs) as (kl & [k v] & ->); [lia|]. destruct (snoc_inv cs) as (cl & c & ->); [lia|].
  revert HsL HlL HmL. arr_len. intros HsL HlL HmL.
  rewrite (holds_child L _ _ c [] _ HhL) by lia.
  destruct (holds_kv L kl k v [] (cl ++ [c]) (size L - 1) HhL ltac:(lia)) as [-> ->].
  apply Forall2_split in HfL as (ll & lc & -> & HfL & Hfc & Hll & _). apply Forall2_cons_inv_l in Hfc as (lx & ? & Hc & Hn & ->).
  apply Forall2_nil_inv_l in Hn as ->. pose proof (Forall2_length _ _ _ HfR) as HlenR.
  pose proof (weave_rotate ll lx lr kl (k, v) kv kr ltac:(lia) ltac:(unfold len in *; lia)) as Heq.
  assert (∀ x, weave (ll ++ [lx]) (kl ++ [(k, v)]) ++ kv :: weave lr kr ++ x = (weave (ll ++ [lx]) (kl ++ [(k, v)]) ++ kv :: weave lr kr) ++ x) as ->
    by (intros x; by app_norm).
  rewrite Heq, <-app_assoc, <-app_comm_cons. apply (pair_replace _ _ _ _ _ _ _ _ _ k v _ _ _ _ Hp).
  - eapply rep_node; [eapply holds_pop, HhL|lia|exact HfL|done].
  - eapply (rep_node _ _ _ (kv :: kr) (c :: cr) (lx :: lr)); [|arr_len; lia|by constructor|done].
    destruct kv as [k0 v0]. apply (holds_unshift R kr k0 v0 cr c HhR). unfold BTree.kMaxKeys. lia.
Qed.

Lemma TransferFromRightToLeft_ok h min n i L R p kv q lL lR : pair_at (S h) min n i L R p kv q →
  rep (S h) (kMinKeys - 1) (Some L) lL → rep (S h) (kMinKeys + 1) (Some R) lR → size L < kMinKeys →
  ∃ n', TransferFromRightToLeft no_value_ n i = Ok n' ∧ rep (S (S h)) min (Some n') (p ++ lL ++ kv :: lR ++ q).
Proof.
  intros Hp (? & kl & cl & ll & [= <-] & HhL & HmL & HfL & ->) (? & kvs & cs & ls & [= <-] & HhR & HmR & HfR & ->) Hsz.
  unfold TransferFromRightToLeft. rewrite (with_children_ok _ _ _ _ _ _ _ _ _ _ Hp).
  destruct (pair_key _ _ _ _ _ _ _ _ _ Hp) as [-> ->]. eexists. split; [done|].
  pose proof HhL as (_ & _ & _ & HsL & HlL). pose proof HhR as (_ & _ & _ & HsR & HlR).
  destruct kvs as [|[k v] kr]; [arr_len in HmR; lia|]. destruct cs as [|c cr]; [arr_len in HlR; pose proof (len_nonneg kr); lia|].
  arr_len in HmR. arr_len in HlR. arr_len in HsR. rewrite (holds_child R _ [] c cr 0 HhR) by done.
  destruct (holds_kv R [] k v kr (c :: cr) 0 HhR eq_refl) as [-> ->].
  apply Forall2_cons_inv_l in HfR as (lx & lr & Hc & HfR & ->).
  pose proof (Forall2_length _ _ _ HfL) as HlenL. pose proof (Forall2_length _ _ _ HfR) as HlenR.
  pose proof (weave_rotate ll lx lr kl kv (k, v) kr ltac:(unfold len in *; lia) ltac:(unfold len in *; lia)) as Heq.
  rewrite app_comm_cons, (app_assoc (weave ll kl)), <-Heq, <-app_assoc, <-app_comm_cons.
  apply (pair_replace _ _ _ _ _ _ _ _ _ k v _ _ _ _ Hp).
  - eapply (rep_node _ _ _ (kl ++ [kv]) (cl ++ [c]) (ll ++ [lx])); [|arr_len; lia|by apply Forall2_app; [|constructor]|done].
    destruct kv as [k0 v0]. apply (holds_push L kl k0 v0 cl c HhL). unfold BTree.kMaxKeys. lia.
  - eapply rep_node; [eapply holds_shift, HhR|lia|exact HfR|done].
Qed.

(** ** [Delete]: the way up *)

Lemma shrink_ok H r l min : rep (S H) min (Some r) l →
  ∃ H' r', shrink (Some r) = Ok r' ∧ (H' = S H ∨ H' = H ∧ H' ≠ O) ∧ rep H' (root_min H') (Some r') l.
Proof.
  intros (? & kvs & cs & ls & [= <-] & Hh & Hm & Hf & ->). pose proof Hh as (_ & _ & _ & Hs & Hl). unfold shrink.
  destruct cs as [|c cs]; [arr_len in Hl; pose proof (len_nonneg kvs); lia|]. rewrite (holds_child _ _ [] c cs 0 Hh) by done.
  pose proof (root_min_range (S H)) as Hrm.
  apply Forall2_cons_inv_l in Hf as (l0 & ls' & Hc & Hf & ->). destruct c as [c|].
  - destruct H as [|H]; [by destruct Hc as [? _]|]. destruct (Z.eqb_spec (size r) 0) as [Hz|Hnz].
    + exists (S H), c. split; [done|]. split; [right; by split|].
      destruct kvs as [|kv kvs]; [|arr_len in Hs; pose proof (len_nonneg kvs); lia].
      destruct cs as [|c' cs]; [|arr_len in Hl; pose proof (len_nonneg cs); lia]. apply Forall2_nil_inv_l in Hf as ->.
      assert (weave [l0] [] = l0) as -> by apply app_nil_r. eapply rep_weaken; [|exact Hc]. pose proof (root_min_range (S H)). lia.
    + exists (S (S H)), r. split; [done|]. split; [by left|]. eapply rep_node; [exact Hh| |by constructor|done].
      pose proof (len_nonneg kvs). lia.
  - destruct H as [|H]; [|by destruct Hc as (? & ? & ? & ? & [=] & _)]. exists 1%nat, r. split; [done|]. split; [by left|].
    eapply rep_node; [exact Hh| |by constructor|done]. unfold root_min. simpl. pose proof (len_nonneg kvs). done.
Qed.

(** The siblings of the child that has lost a key. *)
Lemma left_sibling h min n i p q child : frame_ok (S h) min n i p q → i ≠ 0 →
  ∃ L p' kv lL, pair_at (S h) min (set_child n i (Some child)) (i - 1) L child p' kv q ∧
    rep (S h) kMinKeys (Some L) lL ∧ p = p' ++ lL ++ [kv].
Proof.
  intros (kvs1 & kvs2 & cs1 & c & cs2 & ls1 & ls2 & Hh & -> & Hl & Hm & Hf1 & Hf2 & -> & ->) Hi. pose proof (len_nonneg kvs1).
  destruct (snoc_inv kvs1) as (ka & kv & ->); [lia|]. destruct (snoc_inv cs1) as (ca & cL & ->); [lia|].
  apply Forall2_split in Hf1 as (la & lx & -> & Hf1 & Hfx & Hla & _). apply Forall2_cons_inv_l in Hfx as (lL & ? & HL & Hn & ->).
  apply Forall2_nil_inv_l in Hn as ->. pose proof HL as (L & _ & _ & _ & -> & _).
  pose proof (holds_set_child _ _ _ _ _ (Some child) _ Hh (eq_sym Hl)) as Hh'.
  rewrite <-!app_assoc in Hh'. arr_len in Hl. arr_len in Hm. exists L, (heads la ka), kv, lL. split_and!.
  - exists ka, kvs2, ca, cs2, la, ls2. split_and!; [exact Hh'|arr_len; lia|lia..|done|done|done|done].
  - done.
  - rewrite heads_snoc by lia. by app_norm.
Qed.

Lemma right_sibling h min n i p q child : frame_ok (S h) min n i p q → i ≠ size n →
  ∃ R q' kv lR, pair_at (S h) min (set_child n i (Some child)) i child R p kv q' ∧
    rep (S h) kMinKeys (Some R) lR ∧ q = kv :: lR ++ q'.
Proof.
  intros (kvs1 & kvs2 & cs1 & c & cs2 & ls1 & ls2 & Hh & -> & Hl & Hm & Hf1 & Hf2 & -> & ->) Hi.
  pose proof Hh as (_ & _ & _ & Hs & Hlc). arr_len in Hs. arr_len in Hlc.
  destruct kvs2 as [|kv kb]; [arr_len in Hs; lia|]. arr_len in Hlc. arr_len in Hm.
  destruct cs2 as [|cR cb]; [arr_len in Hlc; pose proof (len_nonneg kb); lia|].
  apply Forall2_cons_inv_l in Hf2 as (lR & lb & HR & Hf2 & ->). pose proof HR as (R & _ & _ & _ & -> & _).
  pose proof (holds_set_child _ _ _ _ _ (Some child) _ Hh (eq_sym Hl)) as Hh'.
  exists R, (tails kb lb), kv, lR. split_and!; [|done|done].
  exists kvs1, kb, cs1, cb, ls1, lb. split_and!; try done; lia.
Qed.

Lemma pair_children h min n i L R p kv q : pair_at h min n i L R p kv q →
  child_has_more kMinKeys n i = Ok (kMinKeys <? size L) ∧ child_has_more kMinKeys n (i + 1) = Ok (kMinKeys <? size R).
Proof.
  intros (ka & kb & ca & cb & la & lb & Hh & -> & Hl & _). unfold child_has_more.
  rewrite (holds_child _ _ _ _ _ _ Hh) by done.
  replace (ca ++ Some L :: Some R :: cb) with ((ca ++ [Some L]) ++ Some R :: cb) in Hh by by app_norm.
  rewrite (holds_child _ _ _ _ _ _ Hh); [done|]. arr_len. lia.
Qed.

Lemma rep_size h min n l : rep (S h) min (Some n) l → min ≤ size n ≤ kMaxKeys.
Proof.
  intros (? & kvs & cs & ls & [= <-] & (Hk & _ & _ & -> & _) & Hm & _). apply stores_len in Hk. rewrite len_fmap in Hk. lia.
Qed.

Lemma rep_resize h min min' n l : rep (S h) min (Some n) l → min' ≤ size n → rep (S h) min' (Some n) l.
Proof.
  intros (? & kvs & cs & ls & [= <-] & Hh & _ & Hf & Hl) Hs. pose proof Hh as (_ & _ & _ & Hsz & _).
  eapply rep_node; [exact Hh|lia|exact Hf|exact Hl].
Qed.

(** The tree that a run of [Delete] returns. *)
Definition returns (r : res Node) (H : nat) l : Prop :=
  ∃ H' t, r = Ok t ∧ (0 < H' ≤ H)%nat ∧ rep H' (root_min H') (Some t) l.

Lemma return_relink h up H pre post n l : up_ok true (S h) up H pre post → rep (S h) (min_at true up (S h)) (Some n) l →
  returns (return_root (relink up (Some n))) H (pre ++ l ++ post).
Proof.
  intros Hu Hr. destruct (relink_root _ _ _ _ _ _ _ Hu Hr) as (r & -> & Hrep). exists H, r.
  apply up_ok_height in Hu. split; [done|]. split; [lia|done].
Qed.

Lemma shrink_relink h up H pre post n l : up_ok true (S h) up H pre post → rep (S h) (min_at true up (S h)) (Some n) l →
  returns (shrink (relink up (Some n))) H (pre ++ l ++ post).
Proof.
  intros Hu Hr. destruct (relink_root _ _ _ _ _ _ _ Hu Hr) as (r & -> & Hrep). apply up_ok_height in Hu.
  destruct H as [|H]; [lia|]. destruct (shrink_ok _ _ _ _ Hrep) as (H' & r' & Hs & HH & Hrep').
  exists H', r'. split; [done|]. split; [lia|done].
Qed.

Lemma min_at_pos up h : 1 ≤ min_at true up (S (S h)).
Proof. unfold min_at, root_min. destruct up; [|lia]. case_decide; lia. Qed.

(** The left sibling lends a key, or can be merged with; the same on the right. *)
Lemma left_round h min n i p q child l : frame_ok (S h) min n i p q →
  rep (S h) (kMinKeys - 1) (Some child) l → size child < kMinKeys →
  let n1 := set_child n i (Some child) in
  let test := if negb (i =? 0) then child_has_more kMinKeys n1 (i - 1) else Ok false in
  (test = Ok true ∧ ∃ n', TransferFromLeftToRight no_value_ n1 (i - 1) = Ok n' ∧ rep (S (S h)) min (Some n') (p ++ l ++ q)) ∨
  (test = Ok false ∧ (i = 0 ∨ ∃ n', MergeChildren no_value_ kMinKeys n1 (i - 1) = Ok n' ∧ rep (S (S h)) (min - 1) (Some n') (p ++ l ++ q))).
Proof.
  intros Hfr Hr Hsmall n1 test. pose proof (rep_size _ _ _ _ Hr) as Hc. subst test n1.
  destruct (Z.eqb_spec i 0) as [Hi|Hi]; simpl; [right; by split; [|left]|].
  destruct (left_sibling _ _ _ _ _ _ child Hfr Hi) as (L & p' & kv & lL & Hp & HL & ->).
  rewrite (proj1 (pair_children _ _ _ _ _ _ _ _ _ Hp)). pose proof (rep_size _ _ _ _ HL) as HsL.
  assert ((p' ++ lL ++ [kv]) ++ l ++ q = p' ++ lL ++ kv :: l ++ q) as -> by by app_norm.
  destruct (Z.ltb_spec kMinKeys (size L)) as [Hmore|Hless]; [left|right]; (split; [done|]); [|right].
  - eapply TransferFromLeftToRight_ok; [exact Hp| |exact Hr|done]. eapply rep_resize; [exact HL|lia].
  - eapply MergeChildren_ok; [exact Hp|eapply rep_resize; [exact HL|lia]|eapply rep_resize; [exact Hr|lia]|].
    unfold BTree.kMaxKeys. lia.
Qed.

Lemma right_round h min n i p q child l : frame_ok (S h) min n i p q →
  rep (S h) (kMinKeys - 1) (Some child) l → size child < kMinKeys →
  let n1 := set_child n i (Some child) in
  let test := if negb (i =? size n1) then child_has_more kMinKeys n1 (i + 1) else Ok false in
  (test = Ok true ∧ ∃ n', TransferFromRightToLeft no_value_ n1 i = Ok n' ∧ rep (S (S h)) min (Some n') (p ++ l ++ q)) ∨
  (test = Ok false ∧ (i = size n ∨ ∃ n', MergeChildren no_value_ kMinKeys n1 i = Ok n' ∧ rep (S (S h)) (min - 1) (Some n') (p ++ l ++ q))).
Proof.
  intros Hfr Hr Hsmall n1 test. pose proof (rep_size _ _ _ _ Hr) as Hc. subst test n1. change (size (set_child n i (Some child))) with (size n).
  destruct (Z.eqb_spec i (size n)) as [Hi|Hi]; simpl; [right; by split; [|left]|].
  destruct (right_sibling _ _ _ _ _ _ child Hfr Hi) as (R & q' & kv & lR & Hp & HR & ->).
  rewrite (proj2 (pair_children _ _ _ _ _ _ _ _ _ Hp)). pose proof (rep_size _ _ _ _ HR) as HsR.
  destruct (Z.ltb_spec kMinKeys (size R)) as [Hmore|Hless]; [left|right]; (split; [done|]); [|right].
  - eapply TransferFromRightToLeft_ok; [exact Hp|exact Hr| |done]. eapply rep_resize; [exact HR|lia].
  - eapply MergeChildren_ok; [exact Hp|eapply rep_resize; [exact Hr|lia]|eapply rep_resize; [exact HR|lia]|].
    unfold BTree.kMaxKeys. lia.
Qed.

Lemma frame_index h min n i p q : frame_ok h min n i p q → 0 ≤ i ∧ min ≤ size n.
Proof.
  intros (kvs1 & kvs2 & cs1 & c & cs2 & ls1 & ls2 & (_ & _ & _ & Hs & _) & -> & _ & Hm & _). arr_len in Hs.
  pose proof (len_nonneg kvs1). lia.
Qed.

Lemma rebalance_ok up h H pre post child l : up_ok true (S h) up H pre post →
  rep (S h) (min_at true up (S h) - 1) (Some child) l →
  returns (rebalance no_value_ kMinKeys up child) H (pre ++ l ++ post).
Proof.
  revert h pre post child l. induction up as [|[n i] up IH]; intros h pre post child l Hu Hr; cbn [rebalance].
  { destruct Hu as (<- & -> & ->). rewrite app_nil_r. destruct (shrink_ok _ _ _ _ Hr) as (H' & r & Hs & HH & Hrep).
    exists H', r. split; [done|]. split; [lia|done]. }
  cbn [min_at] in Hr. destruct Hu as (p & q & pre' & post' & Hfr & Hu & -> & ->).
  replace ((pre' ++ p) ++ l ++ q ++ post') with (pre' ++ (p ++ l ++ q) ++ post') by by app_norm.
  destruct (Z.leb_spec kMinKeys (size child)) as [Hbig|Hsmall].
  { eapply shrink_relink; [exact Hu|]. eapply frame_plug; [exact Hfr|]. by eapply rep_resize. }
  pose proof (rep_size _ _ _ _ Hr) as Hsz. destruct (Z.eqb_spec (size child) (kMinKeys - 1)) as [_|Hne]; [cbn [negb]|lia].
  pose proof (min_at_pos up h) as Hpos. destruct (frame_index _ _ _ _ _ _ Hfr) as [Hi Hn].
  destruct (left_round _ _ _ _ _ _ _ _ Hfr Hr Hsmall) as [(-> & n' & Htr & Hrep)|[-> Hleft]]; simpl.
  { rewrite Htr. by eapply return_relink. }
  destruct (right_round _ _ _ _ _ _ _ _ Hfr Hr Hsmall) as [(Ht & n' & Htr & Hrep)|[Ht Hright]]; simpl in Ht; rewrite Ht; simpl.
  { rewrite Htr. by eapply return_relink. }
  assert (∃ n', MergeChildren no_value_ kMinKeys (set_child n i (Some child)) (if i =? 0 then i else i - 1) = Ok n' ∧
    rep (S (S h)) (min_at true up (S (S h)) - 1) (Some n') (p ++ l ++ q)) as (n' & -> & Hrep).
  { destruct (Z.eqb_spec i 0) as [->|Hnz].
    - destruct Hright as [Hright|Hright]; [lia|done].
    - destruct Hleft as [Hleft|Hleft]; [lia|done]. }
  by apply (IH (S h)).
Qed.

Lemma after_removal_ok up H pre post leaf l : up_ok true 1 up H pre post →
  rep 1 (min_at true up 1 - 1) (Some leaf) l →
  returns (after_removal no_value_ kMinKeys up leaf) H (pre ++ l ++ post).
Proof.
  intros Hu Hr. unfold after_removal. pose proof (min_at_range true up 1).
  destruct (Z.leb_spec kMinKeys (size leaf)) as [Hbig|Hsmall]; [|by apply (rebalance_ok up 0)].
  eapply return_relink; [exact Hu|]. eapply rep_resize; [exact Hr|lia].
Qed.

(** ** [Delete]: the leaf *)

Lemma leaf_children cs ls : Forall2 (rep 0 kMinKeys) cs ls → Forall (λ l, l = []) ls.
Proof. induction 1 as [|c l cs ls [_ ->] _ IH]; by constructor. Qed.

Lemma leaf_children_of cs ls : Forall2 (rep 0 kMinKeys) cs ls → ∀ c, c ∈ cs → c = None.
Proof. induction 1 as [|c l cs ls [-> _] _ IH]; intros c'; [by intros ?%not_elem_of_nil|]. intros [->|Hc]%elem_of_cons; auto. Qed.

Lemma leaf_rep n min kvs cs : holds n kvs cs → (∀ c, c ∈ cs → c = None) → min ≤ len kvs → rep 1 min (Some n) kvs.
Proof.
  intros Hh Hnone Hm. pose proof Hh as (_ & _ & _ & _ & Hl). exists n, kvs, cs, (replicate (length cs) []).
  split_and!; [done..| |].
  - clear -Hnone. induction cs as [|c cs IH]; [constructor|]. constructor; [|apply IH; set_solver].
    split; [apply Hnone; set_solver|done].
  - rewrite weave_leaf; [done| |by apply Forall_replicate]. rewrite <-Hl. unfold len. by rewrite length_replicate.
Qed.

Lemma leaf_holds n min l : rep 1 min (Some n) l → ∃ cs, holds n l cs ∧ (∀ c, c ∈ cs → c = None) ∧ min ≤ len l.
Proof.
  intros (? & kvs & cs & ls & [= <-] & Hh & Hm & Hf & ->). pose proof Hh as (_ & _ & _ & _ & Hl).
  rewrite weave_leaf; [|apply Forall2_length in Hf; unfold len in *; lia|by eapply leaf_children].
  exists cs. split; [done|]. split; [by eapply leaf_children_of|done].
Qed.

(** A leaf without the key at [i]. *)
Lemma remove_from_leaf n min l1 kv l2 i : rep 1 min (Some n) (l1 ++ kv :: l2) → i = len l1 →
  rep 1 (min - 1) (Some (remove_from_node no_value_ n i)) (l1 ++ l2).
Proof.
  intros Hr ->. apply leaf_holds in Hr as (cs & (Hk & Hv & Hc & Hs & Hl) & Hnone & Hm).
  pose proof (len_nonneg l1). pose proof (len_nonneg l2). rewrite fmap_app, fmap_cons in Hk. rewrite fmap_app, fmap_cons in Hv.
  arr_len in Hs. arr_len in Hl. arr_len in Hm. destruct (snoc_inv cs) as (cs' & c & ->); [lia|]. arr_len in Hl.
  apply (leaf_rep _ _ _ cs'); [|set_solver|arr_len; lia].
  split; [|split; [|split; [|split]]]; cbn [remove_from_node keys values children size].
  - rewrite fmap_app. eapply move_within_stores; [exact Hk|by rewrite len_fmap|rewrite !len_fmap; lia].
  - rewrite fmap_app. eapply move_within_stores; [exact Hv|by rewrite len_fmap|rewrite !len_fmap; lia].
  - by eapply stores_drop.
  - rewrite Hs. arr_len. lia.
  - arr_len. lia.
Qed.

(** ** [Delete]: the greatest key below a node *)

(** The last child of a node. *)
Lemma last_child h n l : rep (S h) kMinKeys (Some n) l → ∃ c p lc,
  (children n).[size n] = c ∧ frame_ok h kMinKeys n (size n) p [] ∧ rep h kMinKeys c lc ∧ l = p ++ lc.
Proof.
  intros (? & kvs & cs & ls & [= <-] & Hh & Hm & Hf & ->). rewrite <-(app_nil_r kvs) in Hh.
  destruct (focus _ _ _ _ _ _ Hh Hf) as (cs1 & c & cs2 & ls1 & lc & ls2 & -> & -> & Hc1 & Hl1 & Hl2 & Hf1 & Hc & Hf2 & Heq).
  rewrite app_nil_r in Heq. rewrite Heq. pose proof Hh as (_ & _ & _ & Hs & _). rewrite app_nil_r in Hs.
  exists c, (heads ls1 kvs), lc. split; [by apply (holds_child _ _ _ _ _ _ Hh); lia|].
  split; [|split; [done|by rewrite app_nil_r]]. exists kvs, [], cs1, c, cs2, ls1, ls2.
  split_and!; try done. arr_len. lia.
Qed.

Lemma descend_max_ok slots h up n G pre l : (h ≤ slots)%nat → up_ok false (S h) up G pre [] →
  rep (S h) kMinKeys (Some n) l → ∃ up' leaf pre' l',
    descend_max slots up n (size n) = Ok (up', leaf, size leaf) ∧ up_ok false 1 up' G pre' [] ∧
    rep 1 kMinKeys (Some leaf) l' ∧ pre ++ l = pre' ++ l'.
Proof.
  revert h up n pre l. induction slots as [|slots IH]; intros h up n pre l Hslots Hu Hr.
  all: destruct (last_child _ _ _ Hr) as (c & p & lc & Hc & Hfr & Hrc & ->); cbn [descend_max]; rewrite Hc.
  all: destruct h as [|h]; [destruct Hrc as [-> ->]; exists up, n, pre, (p ++ []); done|].
  { lia. }
  pose proof Hrc as (c' & _ & _ & _ & -> & _).
  destruct (IH h ((n, size n) :: up) c' (pre ++ p) lc) as (up' & leaf & pre' & l' & Hd & Hu' & Hr' & Heq); [lia| |done|].
  - exists p, [], pre, []. split_and!; try done. destruct up; done.
  - exists up', leaf, pre', l'. rewrite <-app_assoc in Heq. done.
Qed.

(** A path below a path. *)
Lemma up_ok_app b h below G up H pre1 post1 pre2 post2 : up_ok false h below G pre1 post1 → up ≠ [] →
  up_ok b G up H pre2 post2 → up_ok b h (below ++ up) H (pre2 ++ pre1) (post1 ++ post2).
Proof.
  revert h pre1 post1. induction below as [|[n i] below IH]; intros h pre1 post1; simpl.
  - intros (-> & -> & ->) _ Hu. by rewrite app_nil_r.
  - intros (p & q & pre' & post' & Hfr & Hb & -> & ->) Hne Hu. exists p, q, (pre2 ++ pre'), (post' ++ post2).
    split; [|split; [by apply IH|by app_norm]]. destruct below; simpl in *; [|done]. by destruct up.
Qed.

(** A found node whose key is replaced by the greatest one below it. *)
Lemma found_frame h min n i k v lc p q k' v' : found_at h min n i k v lc p q →
  frame_ok h min (replace_key n i k' v') i p ((k', v') :: q).
Proof.
  intros (kvs1 & kvs2 & cs1 & c & cs2 & ls1 & ls2 & Hh & -> & Hl & Hm & Hf1 & Hc & Hf2 & -> & Hq).
  destruct ls2 as [|l2 ls2]; [done|]. rewrite tails_cons in Hq. injection Hq as ->.
  exists kvs1, ((k', v') :: kvs2), cs1, c, cs2, ls1, (l2 :: ls2).
  split; [by eapply holds_replace_key|]. split_and!; try done. arr_len. lia.
Qed.

Lemma found_child h min n i k v lc p q : found_at h min n i k v lc p q →
  rep h kMinKeys (children n).[i] lc ∧ (values n).[i] = v.
Proof.
  intros (kvs1 & kvs2 & cs1 & c & cs2 & ls1 & ls2 & Hh & -> & Hl & Hm & Hf1 & Hc & Hf2 & _).
  rewrite (holds_child _ _ _ _ _ _ Hh) by done. split; [done|]. by destruct (holds_kv _ _ _ _ _ _ _ Hh eq_refl).
Qed.

(** A found leaf. *)
Lemma found_leaf min n i k v lc p q : found_at 0 min n i k v lc p q →
  rep 1 min (Some n) (p ++ (k, v) :: q) ∧ i = len p ∧ lc = [].
Proof.
  intros (kvs1 & kvs2 & cs1 & c & cs2 & ls1 & ls2 & Hh & -> & Hl & Hm & Hf1 & [-> ->] & Hf2 & -> & Hq).
  pose proof Hh as (_ & _ & _ & _ & Hlc). arr_len in Hlc.
  pose proof (Forall2_length _ _ _ Hf1). pose proof (Forall2_length _ _ _ Hf2).
  rewrite tails_leaf in Hq; [|arr_len; unfold len in *; lia|by eapply leaf_children]. injection Hq as ->.
  rewrite heads_leaf; [|unfold len in *; lia|by eapply leaf_children]. split; [|done].
  eapply leaf_rep; [exact Hh| |arr_len; lia]. intros c [Hc|[->|Hc]%elem_of_cons]%elem_of_app; [|done|].
  - by eapply (leaf_children_of cs1).
  - by eapply (leaf_children_of cs2).
Qed.

End BTreeLaws.
