(* ===== verification/BTreeMap.v ===== *)
(** What the operations of the B-tree do to the map that it represents.

    Laws of [Find], [Contains], [Insert], [Delete] and [Validate] on a tree that
    [represents] a map, from the lemmas of [BTreeLaws]. The arrays of the methods have
    [kMaxDepth] entries: a tree with fewer than [capacity] keys is low enough. *)
From S2P Require Import Prelude Distributions Assoc Arrays Weave BTree BTreeLaws.

Section BTreeMap.
  Context {V : Type} `{EqDecision V}.
  Variables (no_value_ : V) (kMinKeys : Z).
  Hypothesis Hmin : 0 < kMinKeys.

#[local] Hint Extern 0 (Inhabited V) => exact (V_inhabited no_value_) : typeclass_instances.
Abbreviation Node := (BTreeNode V).
Abbreviation rep := (rep kMinKeys).
Implicit Types (n t : Node) (kvs l : list (Z * V)) (cs : list (option Node)) (ls : list (list (Z * V))) (m : gmap Z V).

Definition represents t m : Prop := ∃ h l, (0 < h)%nat ∧ rep h (root_min h) (Some t) l ∧ ksorted l ∧
  no_value_ ∉ l.*2 ∧ m = to_map l.

(** ** The height *)

(** The number of keys of the smallest tree that is too high, plus one. *)
Definition capacity : Z := 2 * (kMinKeys + 1) ^ Z.of_nat kMaxDepth.

Definition weights ls : Z := foldr (λ l s, len l + 1 + s) 0 ls.

Lemma len_weave ls kvs : len ls = len kvs + 1 → len (weave ls kvs) + 1 = weights ls.
Proof.
  destruct ls as [|l ls]; [pose proof (len_nonneg kvs); unfold len in *; simpl in *; lia|]. rewrite len_cons. intros Hl.
  simpl. rewrite len_app. assert (len ls = len kvs) as Hl' by lia. clear Hl.
  enough (len (tails kvs ls) = weights ls) by (unfold weights in *; lia).
  revert kvs Hl'. induction ls as [|l' ls IH]; intros [|kv kvs] Hl; try (unfold len in Hl; simpl in Hl; lia); [done|].
  rewrite !len_cons in Hl. rewrite tails_cons, len_cons, len_app, IH by lia. simpl. lia.
Qed.

Lemma weights_ge ls B : Forall (λ l, B ≤ len l + 1) ls → len ls * B ≤ weights ls.
Proof.
  induction 1 as [|l ls Hl _ IH]; [done|]. rewrite len_cons. simpl. lia.
Qed.

(** A tree of height [h] has at least [(kMinKeys + 1)^h - 1] keys. *)
Lemma rep_len h min c l : rep (S h) min c l → (min + 1) * (kMinKeys + 1) ^ Z.of_nat h ≤ len l + 1.
Proof.
  revert min c l. induction h as [|h IH]; intros min c l (n & kvs & cs & ls & -> & Hh & Hm & Hf & ->).
  all: assert (len ls = len kvs + 1) as Hl by
    (apply Forall2_length in Hf; destruct Hh as (_ & _ & _ & _ & Hl); unfold len in *; lia).
  all: rewrite len_weave by done.
  - etrans; [|apply (weights_ge _ 1)]; [rewrite Hl; change (Z.of_nat 0) with 0; rewrite Z.pow_0_r; lia|].
    apply Forall_forall. intros l' _. pose proof (len_nonneg l'). lia.
  - etrans; [|apply (weights_ge _ ((kMinKeys + 1) ^ Z.of_nat (S h)))].
    + rewrite Hl. apply Z.mul_le_mono_nonneg_r; [|lia]. apply Z.pow_nonneg. lia.
    + eapply Forall2_Forall_r; [exact Hf|]. apply Forall_forall. intros c _ l' Hc. apply IH in Hc.
      by rewrite Nat2Z.inj_succ, Z.pow_succ_r by lia.
Qed.

Lemma represents_size t m : represents t m → ∃ h l, (0 < h)%nat ∧ rep h (root_min h) (Some t) l ∧ ksorted l ∧
  no_value_ ∉ l.*2 ∧ m = to_map l ∧ Z.of_nat (base.size m) = len l.
Proof.
  intros (h & l & Hh & Hr & Hs & Hv & ->). exists h, l. split_and!; try done.
  unfold len. f_equal. by rewrite <-size_dom, to_map_dom, size_list_to_set, length_fmap by by apply ksorted_nodup.
Qed.

(** The height is logarithmic. *)
Lemma height_le h t l d : (0 < h)%nat → (0 < d)%nat → rep h (root_min h) (Some t) l →
  len l + 1 < 2 * (kMinKeys + 1) ^ Z.of_nat d → (h ≤ d)%nat.
Proof.
  intros Hh Hd Hr Hl. destruct h as [|h]; [lia|]. apply rep_len in Hr.
  destruct (decide (S h ≤ d)%nat) as [|Hbig]; [done|]. exfalso.
  assert (root_min (S h) = 1) as Hrm by (unfold root_min; case_decide; lia). rewrite Hrm in Hr.
  assert ((kMinKeys + 1) ^ Z.of_nat d ≤ (kMinKeys + 1) ^ Z.of_nat h) by (apply Z.pow_le_mono_r; lia). lia.
Qed.

Lemma height_ok h t l : (0 < h)%nat → rep h (root_min h) (Some t) l → len l + 1 < capacity → (h ≤ kMaxDepth)%nat.
Proof. intros Hh. apply height_le; [done|unfold kMaxDepth; lia]. Qed.

Lemma descend_root t h l d k : (0 < h ≤ d)%nat → rep h (root_min h) (Some t) l → ksorted l →
  ∃ w, descend d k [] t = Ok w ∧ walk_ok kMinKeys h k l w.
Proof.
  intros Hh Hr Hs. destruct h as [|h]; [lia|].
  destruct (descend_ok kMinKeys d h [] t (S h) k l [] []) as (w & Hd & Hw); try done; [lia|by rewrite app_nil_r|..].
  - apply below_nil.
  - apply above_nil.
  - exists w. rewrite app_nil_r in Hw. done.
Qed.

(** ** The operations *)

Lemma Find_map t m k : represents t m → Find no_value_ k t = Ok (default no_value_ (m !! k)).
Proof. intros (h & l & Hh & Hr & Hs & _ & ->). by eapply (find_n_ok no_value_ kMinKeys Hmin). Qed.

Lemma to_map_value l k v : to_map l !! k = Some v → v ∈ l.*2.
Proof. intros Hl. apply elem_of_list_to_map_2 in Hl. apply list_elem_of_fmap. by exists (k, v). Qed.

Lemma represents_value t m k v : represents t m → m !! k = Some v → v ≠ no_value_.
Proof. intros (h & l & _ & _ & _ & Hv & ->) Hk ->. by apply to_map_value in Hk. Qed.

Lemma Contains_map t m k : represents t m → Contains no_value_ k t = Ok (bool_decide (k ∈ dom m)).
Proof.
  intros Hr. unfold Contains. rewrite (Find_map _ _ _ Hr). f_equal. apply bool_decide_ext. rewrite elem_of_dom.
  destruct (m !! k) as [v|] eqn:Hk; simpl.
  - split; [done|]. intros _. by eapply represents_value.
  - split; [done|]. by intros [? ?].
Qed.

Lemma Insert_map t m k v : represents t m → v ≠ no_value_ → Z.of_nat (base.size m) + 1 < capacity →
  ∃ t', Insert no_value_ kMinKeys k v t = Ok (default no_value_ (m !! k), t') ∧ represents t' (inserted k v m).
Proof.
  intros (h & l & Hh & Hr & Hs & Hv & -> & Hlen)%represents_size Hne Hcap. rewrite Hlen in Hcap.
  pose proof (height_ok _ _ _ Hh Hr Hcap) as Hmax.
  destruct (descend_root t h l kMaxDepth k) as (w & Hd & Hw); [lia|done..|]. unfold Insert. rewrite Hd.
  destruct w as [up n i|up].
  - destruct Hw as (h' & v' & pre & post & lc & p & q & Hu & Hat & -> & Hb).
    destruct (found_child no_value_ _ _ _ _ _ _ _ _ _ _ Hat) as [_ ->]. exists t. unfold inserted.
    rewrite to_map_found by done. split; [done|]. by exists h, ((pre ++ p ++ lc) ++ (k, v') :: q ++ post).
  - destruct Hw as (Hne' & pre & post & Hu & -> & Hb & Ha).
    destruct (ascend_ok no_value_ kMinKeys Hmin up 0 h k v None None pre post [] []) as (h' & r & -> & Hr' & Hle); [done..|].
    exists r. unfold inserted. rewrite to_map_absent by done. split; [done|]. exists h', (pre ++ ((k, v) :: []) ++ post).
    assert (h' ≠ 0%nat) by (destruct h'; [by destruct Hr'|done]).
    split; [lia|]. split; [done|]. split; [by apply ksorted_insert|]. split; [|by rewrite <-to_map_insert].
    rewrite fmap_app in Hv |- *. set_solver.
Qed.

Lemma returns_represents r h l : returns kMinKeys r h l → ksorted l → no_value_ ∉ l.*2 →
  ∃ t', r = Ok t' ∧ represents t' (to_map l).
Proof. intros (h' & t' & -> & Hh & Hr) Hs Hv. exists t'. split; [done|]. exists h', l. split_and!; [lia|done..]. Qed.

(** The key is removed from the leaf where it is. *)
Lemma Delete_leaf up n i h k v lc p q pre post : up_ok kMinKeys true 1 up h pre post →
  found_at kMinKeys 0 (min_at kMinKeys true up 1) n i k v lc p q →
  returns kMinKeys (after_removal no_value_ kMinKeys up (remove_from_node no_value_ n i)) h
    ((pre ++ p ++ lc) ++ q ++ post).
Proof.
  intros Hu Hat. destruct (found_leaf _ _ _ _ _ _ _ _ _ Hat) as (Hleaf & Hi & ->).
  pose proof (remove_from_leaf no_value_ _ Hmin _ _ _ _ _ _ Hleaf Hi) as Hrem.
  replace ((pre ++ p ++ []) ++ q ++ post) with (pre ++ (p ++ q) ++ post) by (rewrite app_nil_r; by app_norm).
  by eapply after_removal_ok.
Qed.

(** The greatest key below the node takes its place. *)
Lemma Delete_inner up n i h h' k v lc p q pre post c :
  up_ok kMinKeys true (S (S h')) up h pre post → (h ≤ kMaxDepth)%nat →
  found_at kMinKeys (S h') (min_at kMinKeys true up (S (S h'))) n i k v lc p q → (children n).[i] = Some c →
  ∃ slots below leaf i', (kMaxDepth - S (length up))%nat = S slots ∧
    descend_max slots [] c (size c) = Ok (below, leaf, i') ∧
    returns kMinKeys
      (after_removal no_value_ kMinKeys
        (below ++ (replace_key n i (keys leaf).[i' - 1] (values leaf).[i' - 1], i) :: up)
        (remove_from_node no_value_ leaf (i' - 1))) h ((pre ++ p ++ lc) ++ q ++ post).
Proof.
  intros Hu Hmax Hat Hc. pose proof (up_ok_height _ _ _ _ _ _ _ Hu) as Hh.
  destruct (found_child no_value_ _ _ _ _ _ _ _ _ _ _ Hat) as [Hrc _]. rewrite Hc in Hrc.
  exists (kMaxDepth - S (S (length up)))%nat.
  destruct (descend_max_ok kMinKeys (kMaxDepth - S (S (length up))) h' [] c (S h') [] lc)
    as (below & leaf & pre' & l' & Hd & Hub & Hleaf & Heq); [lia|done..|].
  exists below, leaf, (size leaf). split; [lia|]. split; [done|].
  pose proof (leaf_holds _ _ _ _ Hleaf) as (cs & Hh' & _ & Hm').
  pose proof Hh' as (_ & _ & _ & Hsz & _). destruct (snoc_inv l') as (l1 & [k' v'] & ->); [lia|].
  rewrite len_app, len_cons in Hsz. change (len (@nil (Z * V))) with 0 in Hsz.
  destruct (holds_kv no_value_ _ _ _ _ _ _ _ (size leaf - 1) Hh') as [-> ->]; [lia|].
  pose proof (remove_from_leaf no_value_ _ Hmin _ _ _ _ _ (size leaf - 1) Hleaf ltac:(lia)) as Hrem. rewrite app_nil_r in Hrem.
  pose proof (found_frame no_value_ _ _ _ _ _ _ _ _ _ _ k' v' Hat) as Hfr.
  pose proof (up_ok_cons _ _ _ _ _ _ _ _ _ _ _ Hfr Hu) as Hu'.
  pose proof (up_ok_app kMinKeys true 1 below (S h') ((replace_key n i k' v', i) :: up) h _ _ _ _ Hub ltac:(done) Hu') as Hup.
  simpl in Heq. subst lc.
  replace ((pre ++ p ++ pre' ++ l1 ++ [(k', v')]) ++ q ++ post)
    with (((pre ++ p) ++ pre') ++ l1 ++ [] ++ ((k', v') :: q) ++ post) by by app_norm.
  eapply after_removal_ok; [done|exact Hup|]. eapply rep_weaken; [|exact Hrem].
  pose proof (min_at_range kMinKeys Hmin true (below ++ (replace_key n i k' v', i) :: up) 1). lia.
Qed.

Lemma Delete_map t m k : represents t m → Z.of_nat (base.size m) + 1 < capacity →
  ∃ t', Delete no_value_ kMinKeys k t = Ok (default no_value_ (m !! k), t') ∧ represents t' (delete k m).
Proof.
  intros (h & l & Hh & Hr & Hs & Hv & -> & Hlen)%represents_size Hcap. rewrite Hlen in Hcap.
  pose proof (height_ok _ _ _ Hh Hr Hcap) as Hmax.
  destruct (descend_root t h l kMaxDepth k) as (w & Hd & Hw); [lia|done..|]. unfold Delete. rewrite Hd. destruct w as [up n i|up].
  - destruct Hw as (h' & v' & pre & post & lc & p & q & Hu & Hat & -> & Hb). set (l1 := pre ++ p ++ lc).
    rewrite to_map_found by done. rewrite <-(to_map_remove l1 k v' (q ++ post)) by done.
    assert (ksorted (l1 ++ q ++ post)) as Hs' by by eapply ksorted_remove.
    assert (no_value_ ∉ (l1 ++ q ++ post).*2) as Hv' by (rewrite fmap_app in Hv |- *; set_solver).
    destruct (found_child no_value_ _ _ _ _ _ _ _ _ _ _ Hat) as [Hrc ->]. destruct ((children n).[i]) as [c|] eqn:Hc.
    + destruct h' as [|h']; [by destruct Hrc as [? _]|].
      destruct (Delete_inner _ _ _ _ _ _ _ _ _ _ _ _ _ Hu Hmax Hat Hc) as (slots & bl & leaf & i' & -> & Hdm & Hret).
      rewrite Hdm. simpl. destruct (returns_represents _ _ _ Hret Hs' Hv') as (t' & -> & Hrep). by exists t'.
    + destruct h' as [|h']; [|by destruct Hrc as (? & ? & ? & ? & [=] & _)].
      destruct (returns_represents _ _ _ (Delete_leaf _ _ _ _ _ _ _ _ _ _ _ Hu Hat) Hs' Hv') as (t' & -> & Hrep).
      by exists t'.
  - destruct Hw as (Hne' & pre & post & Hu & -> & Hb & Ha). exists t. rewrite to_map_absent by done. split; [done|].
    rewrite delete_id by (by apply to_map_absent). by exists h, (pre ++ post).
Qed.

(** The way down to a key. *)
Lemma descend_map t m d k : represents t m → (0 < d)%nat → Z.of_nat (base.size m) + 1 < 2 * (kMinKeys + 1) ^ Z.of_nat d →
  ∃ w, descend d k [] t = Ok w ∧
    match w with
    | Found up node i => m !! k = Some (values node).[i] ∧ (length up < d)%nat
    | Missing up => m !! k = None ∧ (length up ≤ d)%nat
    end.
Proof.
  intros (h & l & Hh & Hr & Hs & Hv & -> & Hlen)%represents_size Hd Hcap. rewrite Hlen in Hcap.
  pose proof (height_le _ _ _ _ Hh Hd Hr Hcap) as Hmax.
  destruct (descend_root t h l d k) as (w & Hw & Hok); [lia|done..|]. exists w. split; [done|]. destruct w as [up n i|up].
  - destruct Hok as (h' & v' & pre & post & lc & p & q & Hu & Hat & -> & Hb).
    destruct (found_child no_value_ _ _ _ _ _ _ _ _ _ _ Hat) as [_ ->]. apply up_ok_height in Hu.
    split; [by apply to_map_found|lia].
  - destruct Hok as (_ & pre & post & Hu & -> & Hb & Ha). apply up_ok_height in Hu.
    split; [by apply to_map_absent|lia].
Qed.

(** ** [Validate] *)

(** All keys of [l] are inside the bounds. *)
Definition inside (lo hi : option Z) l : Prop :=
  bounds_ok lo hi = true ∧ (∀ a, lo = Some a → above a l) ∧ (∀ b, hi = Some b → below b l).

(** The bounds of the child at an index of a node. *)
Definition left_bound (lo : option Z) kvs1 : option Z := if last kvs1 is Some (k, _) then Some k else lo.
Definition right_bound (hi : option Z) kvs2 : option Z := if kvs2 is (k, _) :: _ then Some k else hi.

Lemma inside_child lo hi ls1 kvs1 lc kvs2 ls2 : len ls1 = len kvs1 → len ls2 = len kvs2 →
  ksorted (heads ls1 kvs1 ++ lc ++ tails kvs2 ls2) → inside lo hi (heads ls1 kvs1 ++ lc ++ tails kvs2 ls2) →
  inside (left_bound lo kvs1) (right_bound hi kvs2) lc.
Proof.
  intros H1 H2 Hs (Hb & Ha & Hbe). unfold inside, left_bound, right_bound.
  destruct kvs1 as [|[k v] ka _] using rev_ind; [|destruct (heads_last _ _ _ H1) as (l1 & Hh); rewrite Hh, last_snoc in *].
  all: destruct kvs2 as [|[k2 v2] kb]; [|destruct (tails_first _ _ _ H2) as (l2 & Ht); rewrite Ht in *].
  - split; [done|]. split; intros x Hx; [specialize (Ha x Hx)|specialize (Hbe x Hx)].
    + by apply above_app in Ha as [_ [? _]%above_app].
    + by apply below_app in Hbe as [_ [? _]%below_app].
  - rewrite app_assoc in Hs. apply ksorted_middle in Hs as (_ & _ & [_ Hr]%below_app & _).
    split; [|split; [intros x Hx; specialize (Ha x Hx); by apply above_app in Ha as [_ [? _]%above_app]|by intros x [= <-]]].
    destruct lo as [a|]; [|done]. simpl. specialize (Ha a eq_refl). rewrite !above_app, above_cons in Ha. lia.
  - rewrite <-app_assoc in Hs. apply ksorted_middle in Hs as (_ & _ & _ & [Hl _]%above_app).
    split; [|split; [by intros x [= <-]|intros x Hx; specialize (Hbe x Hx); by apply below_app in Hbe as [_ [? _]%below_app]]].
    destruct hi as [b|]; [|done]. simpl. specialize (Hbe b eq_refl). rewrite !below_app, below_cons in Hbe. lia.
  - rewrite <-app_assoc in Hs. pose proof Hs as (_ & _ & _ & [Hl [Hlt _]%above_cons]%above_app)%ksorted_middle.
    split; [simpl; lia|]. split; [by intros x [= <-]|]. intros x [= <-].
    change (l1 ++ [(k, v)] ++ lc ++ (k2, v2) :: l2) with (l1 ++ (((k, v) :: lc) ++ (k2, v2) :: l2)) in Hs.
    rewrite app_assoc in Hs. apply ksorted_middle in Hs as (_ & _ & Hs & _).
    by apply below_app in Hs as [_ [_ Hs]%below_cons].
Qed.

(** The bounds that the code computes at an index. *)
Lemma bounds_at n kvs1 kvs2 cs lo hi : holds kMinKeys n (kvs1 ++ kvs2) cs →
  (if len kvs1 =? 0 then lo else Some (keys n).[len kvs1 - 1]) = left_bound lo kvs1 ∧
  (if len kvs1 =? size n then hi else Some (keys n).[len kvs1]) = right_bound hi kvs2.
Proof.
  intros Hh. pose proof Hh as (_ & _ & _ & Hs & _). rewrite len_app in Hs. unfold left_bound, right_bound. split.
  - destruct kvs1 as [|[k v] ka _] using rev_ind; [done|]. rewrite <-app_assoc in Hh. rewrite last_snoc, len_app, len_cons.
    change (len (@nil (Z * V))) with 0. pose proof (len_nonneg ka). destruct (Z.eqb_spec (len ka + (0 + 1)) 0); [lia|].
    by destruct (holds_kv no_value_ _ _ _ _ _ _ _ (len ka + (0 + 1) - 1) Hh ltac:(lia)) as [-> _].
  - pose proof (len_nonneg kvs1). destruct kvs2 as [|[k v] kb].
    + change (len (@nil (Z * V))) with 0 in Hs. destruct (Z.eqb_spec (len kvs1) (size n)); [done|lia].
    + rewrite len_cons in Hs. pose proof (len_nonneg kb). destruct (Z.eqb_spec (len kvs1) (size n)); [lia|].
      by destruct (holds_kv no_value_ _ _ _ _ _ _ _ (len kvs1) Hh eq_refl) as [-> _].
Qed.

Lemma value_at n kvs1 kvs2 cs ls2 : holds kMinKeys n (kvs1 ++ kvs2) cs → len ls2 = len kvs2 →
  no_value_ ∉ (tails kvs2 ls2).*2 →
  negb (len kvs1 <? size n) || bool_decide ((values n).[len kvs1] ≠ no_value_) = true.
Proof.
  intros Hh Hl Hv. pose proof Hh as (_ & _ & _ & Hs & _). rewrite len_app in Hs. destruct kvs2 as [|[k v] kb].
  - change (len (@nil (Z * V))) with 0 in Hs. destruct (Z.ltb_spec (len kvs1) (size n)); [lia|done].
  - destruct (holds_kv no_value_ _ _ _ _ _ _ _ (len kvs1) Hh eq_refl) as [_ ->]. apply orb_true_iff. right.
    apply bool_decide_eq_true. intros ->. destruct (tails_first _ _ _ Hl) as [l Ht]. rewrite Ht in Hv. set_solver.
Qed.

Lemma validate_n_ok h min fuel is_root c l lo hi : rep h min c l → (is_root = false → kMinKeys ≤ min) → ksorted l →
  no_value_ ∉ l.*2 → inside lo hi l → (if c is Some n then levels n ≤ fuel else True)%nat →
  validate_n no_value_ kMinKeys fuel is_root c lo hi = Ok true.
Proof.
  revert h min is_root c l lo hi. induction fuel as [|fuel IH]; intros h min is_root c l lo hi Hr Hroot Hs Hv Hin Hfuel.
  all: destruct h as [|h]; [by destruct Hr as [-> ->]|]; pose proof Hr as (n & kvs & cs & ls & -> & Hh & Hm & Hf & ->).
  { destruct n. simpl in Hfuel. lia. }
  pose proof (rep_size _ _ _ _ _ Hr) as Hsz. cbn [validate_n].
  assert ((is_root || (kMinKeys <=? size n)) && (size n <=? BTree.kMaxKeys kMinKeys) = true) as ->.
  { destruct is_root; simpl; [lia|]. specialize (Hroot eq_refl). lia. }
  pose proof Hh as (_ & _ & _ & Hn & _). pose proof (len_nonneg kvs).
  apply (for_range_inv (λ _ r, r = Ok true)); [lia|done|]. intros i r Hi ->. simpl.
  destruct (list_split kvs i) as (kvs1 & kvs2 & -> & Hi1 & Hi2); [lia|]. subst i.
  destruct (focus _ _ _ _ _ _ _ Hh Hf) as (cs1 & c & cs2 & ls1 & lc & ls2 & -> & -> & Hc1 & Hl1 & Hl2 & Hf1 & Hc & Hf2 & Heq).
  rewrite Heq in Hs, Hin, Hv. destruct (bounds_at _ _ _ _ lo hi Hh) as [-> ->].
  rewrite !fmap_app in Hv. rewrite (value_at _ _ _ _ ls2 Hh) by (done || set_solver).
  pose proof (inside_child _ _ _ _ _ _ _ Hl1 Hl2 Hs Hin) as Hin'. pose proof Hin' as (-> & _). simpl.
  assert ((children n).[len kvs1] = c) as Hch by by apply (holds_child _ _ _ _ _ _ _ Hh).
  apply ksorted_app in Hs as (_ & (Hs & _)%ksorted_app & _).
  rewrite Hch. apply (IH h kMinKeys false c lc); try done; [set_solver|].
  destruct c as [c|]; [|done]. apply (levels_child kMinKeys Hmin) in Hch; [lia|]. pose proof (len_nonneg kvs1). lia.
Qed.

Lemma Validate_map t m : represents t m → Validate no_value_ kMinKeys t = Ok true.
Proof.
  intros (h & l & Hh & Hr & Hs & Hv & ->). by eapply validate_n_ok.
Qed.

Lemma new_node_map : represents (new_node no_value_ kMinKeys) ∅.
Proof.
  exists 1%nat, []. split; [lia|]. split; [|split; [apply ksorted_nil|split; [apply not_elem_of_nil|done]]].
  apply (leaf_rep _ _ _ _ [None]); [by apply holds_new|set_solver|done].
Qed.

End BTreeMap.
