(* ===== verification/SearchTree.v ===== *)
(** What the search trees of SetBench promise, and their [ds_adapter]s
    ([Benchmark-v700/cpp/ds/splay_tree/adapter.h], [ds/btree/adapter.h] and
    [gsat/ds/splay_tree], [gsat/ds/btree]).

    [SearchTree] is the interface: the operations of a tree, the map that it
    represents, and what each operation does to the map. The splay tree and the
    B-tree are instances. Any sequence of operations on a tree of the class gives the
    results of a finite map, and its [ds_adapter] is a [SetAdapter], so that the
    theorems on the microbenchmark hold for it. *)
From S2P Require Import Prelude Double Rng Distributions Args ArgsLaws Adapter ThreadLoops Checksum.
From S2P Require Import Heap Assoc SplayTree SplayMap BTree BTreeMap.

(** ** The interface *)

(** [st_fits n]: the tree can have [n] keys and one more. *)
Class SearchTree (T V : Type) (no_value_ : V) := {
  st_new : T;
  st_Find : Z → T → res (V * T);
  st_Contains : Z → T → res (bool * T);
  st_Insert : Z → V → T → res (V * T);
  st_Delete : Z → T → res (V * T);
  st_Validate : T → res bool;
  st_represents : T → gmap Z V → Prop;
  st_fits : Z → Prop;
  st_fits_le n n' : n' ≤ n → st_fits n → st_fits n';
  st_new_law : st_represents st_new ∅;
  st_Find_law k t m : st_represents t m →
    ∃ t', st_Find k t = Ok (default no_value_ (m !! k), t') ∧ st_represents t' m;
  st_Contains_law k t m : st_represents t m →
    ∃ t', st_Contains k t = Ok (bool_decide (k ∈ dom m), t') ∧ st_represents t' m;
  st_Insert_law k v t m : st_represents t m → v ≠ no_value_ → st_fits (Z.of_nat (base.size m)) →
    ∃ t', st_Insert k v t = Ok (default no_value_ (m !! k), t') ∧ st_represents t' (inserted k v m);
  st_Delete_law k t m : st_represents t m → st_fits (Z.of_nat (base.size m)) →
    ∃ t', st_Delete k t = Ok (default no_value_ (m !! k), t') ∧ st_represents t' (delete k m);
  st_Validate_law t m : st_represents t m → st_Validate t = Ok true;
  st_value_law t m k v : st_represents t m → m !! k = Some v → v ≠ no_value_
}.

(** ** The trees *)

Section Trees.
  Context {V : Type} `{EqDecision V}.
  Variable no_value_ : V.

(** The splay tree: [root_] and the heap of its nodes. *)
Definition splay : Type := ptr * heap (SplayNode V).

Definition splay_call {A} (method : ptr → hp (SplayNode V) (A * ptr)) (t : splay) : res (A * splay) :=
  res_bind (method t.1 t.2) (λ '((a, root_), h), Ok (a, (root_, h))).

Definition splay_represents (t : splay) (m : gmap Z V) : Prop := SplayMap.represents no_value_ t.2 t.1 m.

#[export] Instance splay_tree : SearchTree splay V no_value_.
Proof.
  refine {| st_new := (None, ∅);
    st_Find k := splay_call (SplayTree.Find no_value_ k);
    st_Contains k := splay_call (SplayTree.Contains no_value_ k);
    st_Insert k v := splay_call (SplayTree.Insert no_value_ k v);
    st_Delete k := splay_call (SplayTree.Delete no_value_ k);
    st_Validate t := res_bind (SplayTree.Validate no_value_ t.1 t.2) (λ '(ok, _), Ok ok);
    st_represents := splay_represents;
    st_fits _ := True |}; unfold splay_represents, splay_call.
  - done.
  - apply represents_empty.
  - intros k [r h] m Hr. destruct (Find_ok no_value_ k h r m Hr) as (h' & r' & Hc & Hr'). exists (r', h').
    simpl. by rewrite Hc.
  - intros k [r h] m Hr. destruct (Contains_ok no_value_ k h r m Hr) as (h' & r' & Hc & Hr'). exists (r', h').
    simpl. rewrite Hc. simpl. split; [|done]. do 2 f_equal. apply bool_decide_ext. by rewrite elem_of_dom.
  - intros k v [r h] m Hr Hv _. destruct (Insert_ok no_value_ k v h r m Hr Hv) as (h' & r' & Hc & Hr'). exists (r', h').
    simpl. by rewrite Hc.
  - intros k [r h] m Hr _. destruct (Delete_ok no_value_ k h r m Hr) as (h' & r' & Hc & Hr'). exists (r', h').
    simpl. by rewrite Hc.
  - intros [r h] m Hr. simpl. by rewrite (Validate_ok no_value_ h r m Hr).
  - intros [r h] m k v (t & _ & _ & _ & _ & _ & -> & Hv) Hk. apply elem_of_list_to_map_2 in Hk.
    rewrite Forall_forall in Hv. by apply (Hv (k, v)).
Defined.

(** The B-tree, where [kMinKeys] is positive, as the [static_assert] says. *)
Variables (kMinKeys : Z) (Hmin : 0 < kMinKeys).

Definition btree_tree : SearchTree (BTreeNode V) V no_value_.
Proof.
  refine {| st_new := new_node no_value_ kMinKeys;
    st_Find k t := res_bind (BTree.Find no_value_ k t) (λ v, Ok (v, t));
    st_Contains k t := res_bind (BTree.Contains no_value_ k t) (λ b, Ok (b, t));
    st_Insert k v := BTree.Insert no_value_ kMinKeys k v;
    st_Delete k := BTree.Delete no_value_ kMinKeys k;
    st_Validate := BTree.Validate no_value_ kMinKeys;
    st_represents := BTreeMap.represents no_value_ kMinKeys;
    st_fits n := n + 1 < capacity kMinKeys |}.
  - lia.
  - by apply new_node_map.
  - intros k t m Hr. exists t. by rewrite (Find_map no_value_ kMinKeys Hmin t m).
  - intros k t m Hr. exists t. by rewrite (Contains_map no_value_ kMinKeys Hmin t m).
  - intros k v t m Hr Hv Hf. by apply Insert_map.
  - intros k t m Hr Hf. by apply Delete_map.
  - intros t m Hr. by eapply Validate_map.
  - intros t m k v. apply represents_value.
Defined.

End Trees.

(** ** Sequences of operations *)

Section Sequences.
  Context {T V : Type} `{EqDecision V} {no_value_ : V} `{ST : SearchTree T V no_value_}.
  Implicit Types (t : T) (m : gmap Z V).

Inductive tree_op :=
  | TInsert (k : Z) (v : V)
  | TDelete (k : Z)
  | TFind (k : Z)
  | TContains (k : Z).

Inductive tree_result := TValue (v : V) | TBool (b : bool).

Definition tree_step (o : tree_op) t : res (tree_result * T) :=
  match o with
  | TInsert k v => res_bind (st_Insert k v t) (λ '(v, t), Ok (TValue v, t))
  | TDelete k => res_bind (st_Delete k t) (λ '(v, t), Ok (TValue v, t))
  | TFind k => res_bind (st_Find k t) (λ '(v, t), Ok (TValue v, t))
  | TContains k => res_bind (st_Contains k t) (λ '(b, t), Ok (TBool b, t))
  end.

(** What the operation returns, and does to a map. *)
Definition map_step (o : tree_op) m : tree_result * gmap Z V :=
  match o with
  | TInsert k v => (TValue (default no_value_ (m !! k)), inserted k v m)
  | TDelete k => (TValue (default no_value_ (m !! k)), delete k m)
  | TFind k => (TValue (default no_value_ (m !! k)), m)
  | TContains k => (TBool (bool_decide (k ∈ dom m)), m)
  end.

Fixpoint tree_run (os : list tree_op) t : res (list tree_result * T) :=
  match os with
  | [] => Ok ([], t)
  | o :: os => res_bind (tree_step o t) (λ '(r, t), res_bind (tree_run os t) (λ '(rs, t), Ok (r :: rs, t)))
  end.

Fixpoint map_run (os : list tree_op) m : list tree_result * gmap Z V :=
  match os with
  | [] => ([], m)
  | o :: os => let '(r, m) := map_step o m in let '(rs, m) := map_run os m in (r :: rs, m)
  end.

(** A value that is inserted is not the reserved one. *)
Definition op_ok (o : tree_op) : Prop := match o with TInsert _ v => v ≠ no_value_ | _ => True end.

Lemma size_inserted k v m : (base.size (inserted k v m) ≤ S (base.size m))%nat.
Proof. unfold inserted. destruct (m !! k) eqn:Hk; [lia|]. by rewrite map_size_insert_None. Qed.

Lemma step_size o m : (base.size (map_step o m).2 ≤ S (base.size m))%nat.
Proof.
  destruct o; simpl; [apply size_inserted| |lia..]. rewrite map_size_delete. destruct (m !! k); simpl; lia.
Qed.

Lemma tree_step_ok o t m : st_represents t m → op_ok o → st_fits (Z.of_nat (base.size m)) →
  ∃ t', tree_step o t = Ok ((map_step o m).1, t') ∧ st_represents t' (map_step o m).2.
Proof.
  intros Hr Ho Hf. destruct o as [k v|k|k|k]; simpl in *.
  - destruct (st_Insert_law k v t m Hr Ho Hf) as (t' & -> & Hr'). by exists t'.
  - destruct (st_Delete_law k t m Hr Hf) as (t' & -> & Hr'). by exists t'.
  - destruct (st_Find_law k t m Hr) as (t' & -> & Hr'). by exists t'.
  - destruct (st_Contains_law k t m Hr) as (t' & -> & Hr'). by exists t'.
Qed.

Lemma tree_run_ok os t m : st_represents t m → Forall op_ok os → st_fits (Z.of_nat (base.size m) + len os) →
  ∃ t', tree_run os t = Ok ((map_run os m).1, t') ∧ st_represents t' (map_run os m).2.
Proof.
  revert t m. induction os as [|o os IH]; intros t m Hr Ho Hf; simpl; [by exists t|].
  apply Forall_cons in Ho as [Ho Hos]. rewrite len_cons in Hf. pose proof (len_nonneg os).
  destruct (tree_step_ok o t m Hr Ho) as (t1 & -> & Hr1); [eapply st_fits_le; [|exact Hf]; lia|]. simpl.
  pose proof (step_size o m) as Hs. destruct (map_step o m) as [r m1]. simpl in *.
  destruct (IH t1 m1 Hr1 Hos) as (t2 & -> & Hr2); [eapply st_fits_le; [|exact Hf]; lia|].
  simpl. destruct (map_run os m1). by exists t2.
Qed.

End Sequences.

Arguments tree_op V : clear implicits.
Arguments tree_result V : clear implicits.

(** ** The adapters *)

Section TreeAdapter.
  Context {T : Type} {no_value_ : Value} `{ST : SearchTree T Value no_value_}.
  (** [KEY_TO_VALUE]. *)
  Variables (key_to_value : Z → Value) (Hvalue : ∀ k, key_to_value k ≠ no_value_).

Definition tree_call {A} (r : res (A * T)) : option (A * T) := match r with Ok (a, t) => Some (a, t) | _ => None end.

(** The tree has keys of [[1, n]] only. *)
Definition tree_holds (n : Z) (t : T) (keys : gset Z) : Prop :=
  ∃ m, st_represents t m ∧ dom m = keys ∧ (∀ k, k ∈ keys → 1 ≤ k ≤ n) ∧ st_fits n.

Lemma tree_holds_fits n (m : gmap Z Value) : (∀ k, k ∈ dom m → 1 ≤ k ≤ n) → st_fits n → 1 ≤ n → st_fits (Z.of_nat (base.size m)).
Proof.
  intros Hk Hf Hn. eapply st_fits_le; [|exact Hf]. rewrite <-size_dom.
  trans (Z.of_nat (base.size (list_to_set (C := gset Z) (seqZ 1 n)))).
  - apply inj_le. apply subseteq_size. intros k Hin. apply Hk in Hin. apply elem_of_list_to_set, elem_of_seqZ. lia.
  - rewrite size_list_to_set by apply NoDup_seqZ. rewrite length_seqZ. lia.
Qed.

Lemma value_absent t (m : gmap Z Value) k : st_represents t m → default no_value_ (m !! k) = no_value_ ↔ k ∉ dom m.
Proof.
  intros Hr. rewrite not_elem_of_dom. destruct (m !! k) as [v|] eqn:Hk; simpl; [|done].
  split; [|done]. intros ->. by destruct (st_value_law t m k no_value_ Hr Hk).
Qed.

Lemma dom_inserted k v (m : gmap Z Value) : dom (inserted k v m) = {[k]} ∪ dom m.
Proof.
  unfold inserted. destruct (m !! k) eqn:Hk; [|by rewrite dom_insert_L]. apply mk_is_Some, elem_of_dom in Hk. set_solver.
Qed.

Definition tree_adapter : SetAdapter T.
Proof.
  refine {| getNoValue := no_value_;
    ds_insertIfAbsent _ _ key t := tree_call (st_Insert key (key_to_value key) t);
    ds_erase _ _ key t := tree_call (st_Delete key t);
    ds_find _ _ key t := tree_call (st_Find key t);
    ds_contains _ _ key t := tree_call (st_Contains key t);
    ds_rangeQuery _ _ _ _ _ := None;
    ds_ranges := false;
    ds_holds := tree_holds |}.
  - intros n t keys _ _ k (m & Hr & <- & Hk & Hf) Hin. pose proof (tree_holds_fits n m Hk Hf ltac:(lia)) as Hf'.
    destruct (st_Insert_law k (key_to_value k) t m Hr (Hvalue k) Hf') as (t' & -> & Hr').
    eexists _, t'. split; [done|]. split; [by eapply value_absent|]. exists (inserted k (key_to_value k) m).
    split; [done|]. split; [apply dom_inserted|]. split; [set_solver|done].
  - intros n t keys _ _ k (m & Hr & <- & Hk & Hf) Hin. pose proof (tree_holds_fits n m Hk Hf ltac:(lia)) as Hf'.
    destruct (st_Delete_law k t m Hr Hf') as (t' & -> & Hr').
    eexists _, t'. split; [done|]. split; [by eapply value_absent|]. exists (delete k m).
    split; [done|]. split; [apply dom_delete_L|]. split; [set_solver|done].
  - intros n t keys _ _ k (m & Hr & <- & Hk & Hf) Hin. destruct (st_Find_law k t m Hr) as (t' & -> & Hr').
    eexists _, t'. split; [done|]. split; [by eapply value_absent|]. by exists m.
  - intros n t keys _ _ k (m & Hr & <- & Hk & Hf) Hin. destruct (st_Contains_law k t m Hr) as (t' & -> & Hr').
    exists t'. split; [done|]. by exists m.
  - done.
Defined.

End TreeAdapter.

(** ** Properties *)

(** C27. The splay tree refines a finite map. Any sequence of inserts, removals, searches
    and membership tests on a new tree returns what the operations on a map return;
    every loop ends, no null or dangling pointer is used, [Validate] accepts the tree
    that results, and its destructor frees every node. *)
Theorem splay_tree_refines_map {V : Type} `{EqDecision V} (no_value_ : V) (os : list (tree_op V)) :
  Forall (op_ok (no_value_ := no_value_)) os →
  ∃ t, tree_run (ST := splay_tree no_value_) os (None, ∅) = Ok ((map_run (no_value_ := no_value_) os ∅).1, t) ∧
    splay_represents no_value_ t (map_run (no_value_ := no_value_) os ∅).2 ∧
    SplayTree.Validate no_value_ t.1 t.2 = Ok (true, t.2) ∧ SplayTree.Free t.1 t.2 = Ok ((), ∅).
Proof.
  intros Hos. destruct (tree_run_ok (ST := splay_tree no_value_) os (None, ∅) ∅) as (t & Hrun & Hr);
    [apply represents_empty|done|exact I|].
  exists t. split; [done|]. split; [done|]. split; [exact (Validate_ok no_value_ _ _ _ Hr)|exact (Free_ok no_value_ _ _ _ Hr)].
Qed.

(** C28. The B-tree refines a finite map, for any positive [kMinKeys]. Any sequence of
    operations on a new tree returns what the operations on a map return, as long as
    their number is below [2 (kMinKeys + 1)^kMaxDepth - 1]: the arrays of the path are
    then never overrun, no null child is dereferenced and no [assert] fails.
    [Validate] accepts the tree that results. *)
Theorem btree_refines_map {V : Type} `{EqDecision V} (no_value_ : V) (kMinKeys : Z) (Hmin : 0 < kMinKeys)
    (os : list (tree_op V)) :
  Forall (op_ok (no_value_ := no_value_)) os → len os + 1 < capacity kMinKeys →
  ∃ t, tree_run (ST := btree_tree no_value_ kMinKeys Hmin) os (new_node no_value_ kMinKeys) =
      Ok ((map_run (no_value_ := no_value_) os ∅).1, t) ∧
    BTreeMap.represents no_value_ kMinKeys t (map_run (no_value_ := no_value_) os ∅).2 ∧
    BTree.Validate no_value_ kMinKeys t = Ok true.
Proof.
  intros Hos Hcap. destruct (tree_run_ok (ST := btree_tree no_value_ kMinKeys Hmin) os (new_node no_value_ kMinKeys) ∅)
    as (t & Hrun & Hr); [by apply new_node_map|done|done|].
  exists t. split; [done|]. split; [done|]. exact (Validate_map no_value_ kMinKeys Hmin t _ Hr).
Qed.

(** The B-tree is low. In a tree that the operations have built, the way down to any
    key visits at most [d] nodes when there are fewer than [2 (kMinKeys + 1)^d - 1]
    keys, and ends at the key or at the leaf where it belongs: [d] entries of the arrays
    [nodes] and [indices] are enough, and with the adapter's [kMinKeys = 8] the
    [kMaxDepth = 16] entries are enough for more than [2^51] keys. *)
Theorem btree_path_length {V : Type} `{EqDecision V} (no_value_ : V) (kMinKeys : Z) (t : BTreeNode V) (m : gmap Z V)
    (d : nat) (key : Z) :
  0 < kMinKeys → BTreeMap.represents no_value_ kMinKeys t m → (0 < d)%nat →
  Z.of_nat (base.size m) + 1 < 2 * (kMinKeys + 1) ^ Z.of_nat d →
  2 ^ 51 < capacity 8 ∧
  ∃ w, descend d key [] t = Ok w ∧
    match w with
    | Found up _ _ => is_Some (m !! key) ∧ (length up < d)%nat
    | Missing up => m !! key = None ∧ (length up ≤ d)%nat
    end.
Proof.
  intros Hmin Hr Hd Hsize.  split; [done|]. destruct (descend_map no_value_ kMinKeys Hmin t m d key Hr Hd Hsize) as (w & -> & Hw).
  exists w. split; [done|]. destruct w; [|done]. destruct Hw as [-> ?]. by split.
Qed.

(** C29. The microbenchmark on a search tree through its [ds_adapter], used by one thread
    at a time and without range queries, which the adapters answer with
    [setbench_error]. For any tree of the class and any generators, whatever operations
    are drawn over the prefill, the warm-up and the test: no call fails, [curKeySum]
    and [curSize] after the warm-up are the sum and the number of the keys then in the
    tree, the [threads_final_keysum] printed after the test is the sum of the keys
    that are in it at the end, and [validateStructure] accepts that tree. *)
Theorem tree_stages_key_sum {G T : Type} fuel redis n {no_value_ : Value} `{ArgsGeneratorOk fuel G}
    `{SearchTree T Value no_value_} (key_to_value : Z → Value) (Hvalue : ∀ k, key_to_value k ≠ no_value_)
    prefill warmUp test rngs :
  let adapter := tree_adapter key_to_value Hvalue in
  let b0 := {| g_ds := st_new; g_rngs := rngs; curKeySum := 0; curSize := 0 |} in
  st_fits n → Forall words_ok rngs →
  Forall (λ st, (length (sg_threads st) ≤ 1)%nat ∧ stage_ok (DS := adapter) fuel n (length rngs) st)
    [prefill; warmUp; test] → startable test →
  match run (DS := adapter) redis prefill warmUp test b0 with
  | Ok (w, b) =>
      (∃ b1 (m1 : gmap Z Value), fill_stages (DS := adapter) redis prefill warmUp b0 = Ok b1 ∧
         st_represents (g_ds b1) m1 ∧ curKeySum b = s64 (key_sum (dom m1)) ∧
         curSize b = s64 (key_count (dom m1))) ∧
      ∃ m : gmap Z Value, st_represents (g_ds b) m ∧
        threads_final_keysum (w, b) = s64 (key_sum (dom m)) ∧ st_Validate (g_ds b) = Ok true
  | OutOfFuel => Forall fair_or_empty [prefill; warmUp; test] → Exists (rejects fuel) rngs
  | SetbenchError | Undefined => False
  end.
Proof.
  intros adapter b0 Hf Hr Hss Ht. assert (ds_holds (SetAdapter := adapter) n st_new ∅) as Hnew.
  { exists ∅. split; [apply st_new_law|]. split; [apply dom_empty_L|]. split; [set_solver|done]. }
  pose proof (start_globals_ok (DS := adapter) n st_new rngs Hnew) as Hb.
  assert (Forall (stage_ok (DS := adapter) fuel n (length rngs)) [prefill; warmUp; test]) as Hss'
    by (eapply Forall_impl; [exact Hss|]; by intros st [_ ?]).
  pose proof (run_stages_ok (DS := adapter) fuel redis n rngs prefill warmUp test _ Hr Hb Hss' Ht) as Hrun.
  fold b0 in Hrun. destruct (run _ _ _ _ _) as [[w b]| | |]; try done.
  destruct Hrun as (b1 & Hfill & [(keys1 & (m1 & Hm1 & <- & _) & Hk & Hc) _] & Hk' & Hc' & keys & Hds & Hsum).
  cbn [snd] in *. split; [exists b1, m1; by rewrite Hk', Hc'|].
  destruct Hds as (m & Hm & <- & _). exists m. split; [done|]. split; [done|]. by eapply st_Validate_law.
Qed.

(** *** Examples *)

Definition example_ops : list (tree_op Z) :=
  [TInsert 5 50; TInsert 2 20; TInsert 8 80; TInsert 5 55; TInsert 1 10; TFind 2; TDelete 5; TContains 5;
   TInsert 7 70; TInsert 6 60; TInsert 9 90; TInsert 3 30; TDelete 8; TDelete 1; TDelete 4; TContains 7; TFind 8].

Definition example_results : list (tree_result Z) :=
  [TValue 0; TValue 0; TValue 0; TValue 50; TValue 0; TValue 20; TValue 50; TBool false;
   TValue 0; TValue 0; TValue 0; TValue 0; TValue 80; TValue 10; TValue 0; TBool true; TValue 0].

Lemma splay_tree_refines_map_witness :
  ∃ t, tree_run (ST := splay_tree 0) example_ops (None, ∅) = Ok (example_results, t) ∧
    SplayTree.Validate 0 t.1 t.2 = Ok (true, t.2) ∧ SplayTree.Free t.1 t.2 = Ok ((), ∅).
Proof.
  destruct (splay_tree_refines_map 0 example_ops) as (t & Hrun & _ & Hv); [by repeat constructor|].
  exists t. split; [exact Hrun|exact Hv].
Defined.

Lemma btree_refines_map_witness :
  ∃ t, tree_run (ST := btree_tree 0 1 Z.lt_0_1) example_ops (new_node 0 1) = Ok (example_results, t) ∧
    BTree.Validate 0 1 t = Ok true.
Proof.
  destruct (btree_refines_map 0 1 Z.lt_0_1 example_ops) as (t & Hrun & _ & Hv); [by repeat constructor|by vm_compute|].
  exists t. split; [exact Hrun|exact Hv].
Defined.

(** Ten keys, and three nodes on every way down. *)
Lemma btree_path_length_witness :
  ∃ t, foldl example_insert (Ok (new_node 0 1)) (seqZ 1 10) = Ok t ∧ ∃ w, descend 3 7 [] t = Ok w ∧
    match w with Found up _ _ => (length up < 3)%nat | Missing up => (length up ≤ 3)%nat end.
Proof.
  destruct (tree_run_ok (ST := btree_tree 0 1 Z.lt_0_1) ((λ k, TInsert k (10 * k)) <$> seqZ 1 10) (new_node 0 1) ∅)
    as (t & Hrun & Hr); [by apply new_node_map|by repeat constructor|by vm_compute|].
  exists t. vm_compute in Hrun. injection Hrun as <-. split; [by vm_compute|].
  destruct (btree_path_length 0 1 _ _ 3 7 Z.lt_0_1 Hr ltac:(lia) ltac:(by vm_compute)) as (_ & w & Hd & Hw).
  exists w. split; [exact Hd|]. destruct w; apply Hw.
Defined.

(** A prefill of four keys, then eight operations, on the adapter's B-tree. *)
Definition no_ranges (o : oper) : bool := if o is ORange then false else true.

Lemma pick_no_range cdf : cdf2 cdf = cdf1 cdf → cdf_ok no_ranges cdf.
Proof. intros Hc v _. unfold pick. rewrite Hc. destruct (_ <?ᵈ cdf0 cdf); [done|]. by destruct (_ <?ᵈ cdf1 cdf). Qed.

Definition example_no_range : Cdf := make_cdf
  {| INS_RATIO := d_lit 3 10; REM_RATIO := d_lit 3 10; RQ_RATIO := d_lit 0 1 |}.

Definition tree_prefill : Stage DefaultArgsGenerator :=
  {| sg_threads := [(PrefillInsertThreadLoop 5, example_generator)];
     sg_stop := OperationCounter 4 []; sg_events := replicate 21 (Turn 0 1) |}.

Definition tree_test : Stage DefaultArgsGenerator :=
  {| sg_threads := [(DefaultThreadLoop example_no_range, example_generator)];
     sg_stop := OperationCounter 8 []; sg_events := replicate 10 (Turn 0 1) |}.

Definition key_number (k : Z) : Value := Number k.

Lemma tree_example_stages_ok H8 Hv : Forall (λ st, (length (sg_threads st) ≤ 1)%nat ∧
    stage_ok (AGO := default_args_ok 8 id (λ x _, x))
      (DS := tree_adapter (ST := btree_tree NullPtr 8 H8) key_number Hv) 8 9 1 st) [tree_prefill; example_no_stage; tree_test].
Proof.
  repeat constructor; simpl; try lia; exists no_ranges; (split; [by apply example_generator_ok|]); (split; [done|]).
  - done.
  - by apply pick_no_range.
Qed.

Lemma key_number_ok k : key_number k ≠ NullPtr.
Proof. done. Qed.

Definition factor_8 : 0 < 8 := eq_refl.

#[local] Abbreviation example_adapter := (tree_adapter (ST := btree_tree NullPtr 8 factor_8) key_number key_number_ok).

Lemma example_fits : st_fits (SearchTree := btree_tree NullPtr 8 factor_8) 9.
Proof. by vm_compute. Qed.

Lemma example_word : Forall words_ok [setSeed 5].
Proof. repeat constructor; by vm_compute. Qed.

Lemma tree_stages_key_sum_witness :
  ∃ w b keys, run (AG := default_args 8 id (λ x _, x)) (DS := example_adapter) false
      tree_prefill example_no_stage tree_test
      {| g_ds := new_node NullPtr 8; g_rngs := [setSeed 5]; curKeySum := 0; curSize := 0 |} = Ok (w, b) ∧
    curSize b = 4 ∧ 27 = s64 (key_sum keys) ∧ BTree.Validate NullPtr 8 (g_ds b) = Ok true.
Proof.
  pose proof (tree_stages_key_sum 8 false 9 (H0 := default_args_ok 8 id (λ x _, x)) (H1 := btree_tree NullPtr 8 factor_8)
    key_number key_number_ok tree_prefill example_no_stage tree_test [setSeed 5]) as Hrun.
  cbv zeta in Hrun. specialize (Hrun example_fits). specialize (Hrun example_word).
  specialize (Hrun (tree_example_stages_ok factor_8 key_number_ok) ltac:(by left)).
  assert (match run (AG := default_args 8 id (λ x _, x)) (DS := example_adapter) false
    tree_prefill example_no_stage tree_test
    {| g_ds := new_node NullPtr 8; g_rngs := [setSeed 5]; curKeySum := 0; curSize := 0 |}
    with Ok p => (threads_final_keysum p, curSize p.2) = (27, 4) | _ => False end) as Hb by by vm_compute.
  change (@st_new _ _ _ _) with (new_node NullPtr 8) in Hrun.
  destruct (run _ _ _ _ _) as [[w b]| | |]; try done. injection Hb as Hb Hsize. destruct Hrun as (_ & m & _ & Hsum & Hval).
  exists w, b, (dom m). split; [done|]. split; [exact Hsize|]. split; [by rewrite <-Hb|exact Hval].
Defined.
