(* ===== verification/BoundedTree.v ===== *)
(** What the rebuilt search trees promise.

    [SearchTree] is the interface of a tree that is right for all keys. The
    self-adjusting trees and the interpolation search tree hold the keys of an interval
    [[left, right)], and count in an [int] of each node the insertions that pass it:
    [BoundedTree] is their interface. [bt_represents Q n t m]: the tree [t] stands for the
    map [m], after [n] operations at most, and every key that was inserted has [Q]. *)
From S2P Require Import Prelude Distributions Assoc SearchTree.

Class BoundedTree (T V : Type) (no_value_ : V) (left_ right_ : Z) := {
  bt_new : T;
  bt_Find : Z → T → res (V * T);
  bt_Contains : Z → T → res (bool * T);
  bt_Insert : Z → V → T → res (V * T);
  bt_Delete : Z → T → res (V * T);
  bt_represents : (Z → Prop) → Z → T → gmap Z V → Prop;
  bt_new_law Q : bt_represents Q 0 bt_new ∅;
  bt_mono Q n n' t m : n ≤ n' → bt_represents Q n t m → bt_represents Q n' t m;
  bt_Find_law Q n k t m : bt_represents Q n t m → left_ ≤ k < right_ → 0 ≤ n → n + 1 < 2 ^ 31 →
    ∃ t', bt_Find k t = Ok (default no_value_ (m !! k), t') ∧ bt_represents Q (n + 1) t' m;
  bt_Contains_law Q n k t m : bt_represents Q n t m → left_ ≤ k < right_ → 0 ≤ n → n + 1 < 2 ^ 31 →
    ∃ t', bt_Contains k t = Ok (bool_decide (k ∈ dom m), t') ∧ bt_represents Q (n + 1) t' m;
  bt_Insert_law (Q : Z → Prop) n k v t m : bt_represents Q n t m → left_ ≤ k < right_ → Q k → v ≠ no_value_ →
    0 ≤ n → n + 1 < 2 ^ 31 →
    ∃ t', bt_Insert k v t = Ok (default no_value_ (m !! k), t') ∧ bt_represents Q (n + 1) t' (inserted k v m);
  bt_Delete_law Q n k t m : bt_represents Q n t m → left_ ≤ k < right_ → 0 ≤ n → n + 1 < 2 ^ 31 →
    ∃ t', bt_Delete k t = Ok (default no_value_ (m !! k), t') ∧ bt_represents Q (n + 1) t' (delete k m)
}.

Section Bounded.
  Context {T V : Type} `{EqDecision V} {no_value_ : V} {left_ right_ : Z} `{BT : BoundedTree T V no_value_ left_ right_}.
  Implicit Types (t : T) (m : gmap Z V).

Abbreviation map_step := (map_step (no_value_ := no_value_)).
Abbreviation map_run := (map_run (no_value_ := no_value_)).

Definition bounded_step (o : tree_op V) t : res (tree_result V * T) :=
  match o with
  | TInsert k v => res_bind (bt_Insert k v t) (λ '(v, t), Ok (TValue v, t))
  | TDelete k => res_bind (bt_Delete k t) (λ '(v, t), Ok (TValue v, t))
  | TFind k => res_bind (bt_Find k t) (λ '(v, t), Ok (TValue v, t))
  | TContains k => res_bind (bt_Contains k t) (λ '(b, t), Ok (TBool b, t))
  end.

Fixpoint bounded_run (os : list (tree_op V)) t : res (list (tree_result V) * T) :=
  match os with
  | [] => Ok ([], t)
  | o :: os => res_bind (bounded_step o t) (λ '(r, t), res_bind (bounded_run os t) (λ '(rs, t), Ok (r :: rs, t)))
  end.

Definition op_key (o : tree_op V) : Z := match o with TInsert k _ | TDelete k | TFind k | TContains k => k end.

(** The keys are in the interval; no value that is inserted is the reserved one. *)
Definition bounded_op_ok (o : tree_op V) : Prop := left_ ≤ op_key o < right_ ∧ op_ok (no_value_ := no_value_) o.

Definition inserts (o : tree_op V) (k : Z) : Prop := if o is TInsert k' _ then k = k' else False.

Lemma bounded_step_ok (Q : Z → Prop) o n t m : bt_represents Q n t m → bounded_op_ok o → (∀ k, inserts o k → Q k) → 0 ≤ n →
  n + 1 < 2 ^ 31 → ∃ t', bounded_step o t = Ok ((map_step o m).1, t') ∧ bt_represents Q (n + 1) t' (map_step o m).2.
Proof.
  intros Hr [Hk Ho] HQ HT HT2. destruct o as [k v|k|k|k]; simpl in *.
  - destruct (bt_Insert_law Q n k v t m) as (t' & -> & Hr'); try done; [by apply HQ|]. by exists t'.
  - destruct (bt_Delete_law Q n k t m) as (t' & -> & Hr'); [done..|]. by exists t'.
  - destruct (bt_Find_law Q n k t m) as (t' & -> & Hr'); [done..|]. by exists t'.
  - destruct (bt_Contains_law Q n k t m) as (t' & -> & Hr'); [done..|]. by exists t'.
Qed.

Lemma bounded_run_ok (Q : Z → Prop) os n t m : bt_represents Q n t m → Forall bounded_op_ok os →
  Forall (λ o, ∀ k, inserts o k → Q k) os → 0 ≤ n → n + len os < 2 ^ 31 →
  ∃ t', bounded_run os t = Ok ((map_run os m).1, t') ∧ bt_represents Q (n + len os) t' (map_run os m).2.
Proof.
  revert n t m. induction os as [|o os IH]; intros n t m Hr Hos HQ HT HT2; simpl.
  { exists t. split; [done|]. change (len (@nil (tree_op V))) with 0. by rewrite Z.add_0_r. }
  apply Forall_cons in Hos as [Ho Hos]. apply Forall_cons in HQ as [Hq HQ]. rewrite len_cons in *. pose proof (len_nonneg os).
  destruct (bounded_step_ok Q o n t m Hr Ho Hq) as (t1 & -> & Hr1); [lia..|]. cbn [res_bind].
  destruct (map_step o m) as [r m1]. cbn [fst snd] in *.
  destruct (IH (n + 1) t1 m1 Hr1 Hos HQ) as (t2 & -> & Hr2); [lia..|]. cbn [res_bind].
  destruct (map_run os m1). exists t2. split; [done|]. by replace (n + (len os + 1)) with (n + 1 + len os) by lia.
Qed.

(** From a new tree; [Q] of all operations. *)
Lemma bounded_new_ok os : Forall bounded_op_ok os → len os < 2 ^ 31 →
  ∃ t, bounded_run os bt_new = Ok ((map_run os ∅).1, t) ∧
    bt_represents (λ k, ∃ o, o ∈ os ∧ inserts o k) (len os) t (map_run os ∅).2.
Proof.
  intros Hos Hlen. apply (bounded_run_ok _ os 0); [apply bt_new_law|done| |done|lia].
  apply Forall_forall. intros o Ho k Hk. by exists o.
Qed.

End Bounded.

Arguments bounded_op_ok {V} no_value_ left_ right_ o.
