(* ===== verification/GSAT.v ===== *)
(** The self-adjusting search trees of SetBench
    ([Benchmark-v700/cpp/gsat/ds/gsat/gsat.h] and [gsat_node.h]).

    A node counts its accesses; when there are more than its bound, the subtree below
    it is built anew, with the keys that are used most near its root. A removed key
    stays, with a negative number of accesses, until a rebuild clears it. The template
    [GSAT] is instantiated with a class of nodes and a [Delimiter]: [GSATTraits] has
    what they provide, [GSATKinds] the four instances. As in [BTree], a child is a part
    of its parent's value. [GSATLaws] proves the operations correct. *)
From S2P Require Import Double Distributions Assoc Arrays Prelude.

(** ** Nodes *)

Record ValueData (V : Type) := { value : V; accesses : Z }.
Arguments value {V}. Arguments accesses {V}.

(** [GSATNode] with the members of the classes derived from it. [capacity] is the
    argument of the constructor, [id] the index of [SAITNode]. *)
Inductive GSATNode (V : Type) := {
  left : Z;
  right : Z;
  rep_size : Z;
  total_asize : Z;
  leaf : bool;
  rebuild_bound : Z;
  counter : Z;
  rep : list Z;
  value_data : list (ValueData V);
  children : list (option (GSATNode V));
  capacity : Z;
  id : option (list Z)
}.
Arguments left {V}. Arguments right {V}. Arguments rep_size {V}. Arguments total_asize {V}. Arguments leaf {V}.
Arguments rebuild_bound {V}. Arguments counter {V}. Arguments rep {V}. Arguments value_data {V}.
Arguments children {V}. Arguments capacity {V}. Arguments id {V}.

Inductive ClearPolicy := kNone | kRoot | kRapid.

(** The arguments of the template and of the constructor. [unspecified] is the result
    of a conversion of a [double] that does not fit. *)
Record GSATTraits (V : Type) := {
  array_size : Z → Z;
  NodeSearch : GSATNode V → Z → Z;
  NodeComplete : GSATNode V → Z → GSATNode V;
  delimiter_ : Z → Z;
  CP : ClearPolicy;
  no_value_ : V;
  left_ : Z;
  right_ : Z;
  leaf_size_ : Z;
  min_rebuild_bound_ : Z;
  rebuild_factor_ : double;
  unspecified : double → Z
}.
Arguments array_size {V}. Arguments NodeSearch {V}. Arguments NodeComplete {V}. Arguments delimiter_ {V}.
Arguments CP {V}. Arguments no_value_ {V}. Arguments left_ {V}. Arguments right_ {V}. Arguments leaf_size_ {V}.
Arguments min_rebuild_bound_ {V}. Arguments rebuild_factor_ {V}. Arguments unspecified {V}.

Section GSAT.
  Context {V : Type} `{EqDecision V}.
  Variable P : GSATTraits V.

#[local] Instance value_data_inhabited : Inhabited (ValueData V) := populate {| value := no_value_ P; accesses := 0 |}.
Abbreviation Node := (GSATNode V).
Abbreviation entry := (Z * ValueData V)%type.

(** [new Node(left, right, capacity, rebuild_bound)]. *)
Definition new_gsat_node (l r c bound : Z) : Node :=
  let size := array_size P c in
  {| left := l; right := r; rep_size := 0; total_asize := 0; leaf := true; rebuild_bound := bound; counter := 0;
     rep := replicate (Z.to_nat size) 0; value_data := replicate (Z.to_nat size) inhabitant;
     children := replicate (Z.to_nat (size + 1)) None; capacity := c; id := None |}.

Definition CreateRoot : Node := new_gsat_node (left_ P) (right_ P) (leaf_size_ P) (min_rebuild_bound_ P).

Definition GetCapacity (n : Node) : Z := array_size P (capacity n).

(** [Access()] *)
Definition Access (n : Node) : Node * bool :=
  let n := {| n with counter := counter n + 1 |} in (n, rebuild_bound n <? counter n).

Definition KEY_FOUND (n : Node) (index key : Z) : bool := negb (index =? rep_size n) && ((rep n).[index] =? key).

(** [INSERT(node, index, key, value, accesses)] *)
Definition INSERT (n : Node) (index key : Z) (v : V) (a : Z) : Node :=
  {| n with rep := insert_at (rep n) index (rep_size n) key;
            value_data := insert_at (value_data n) index (rep_size n) {| value := v; accesses := a |};
            rep_size := rep_size n + 1 |}.

Definition gsat_set_child (n : Node) (index : Z) (c : option Node) : Node :=
  {| n with children := (children n).[index <- c] |}.

(** The levels of a tree. *)
Fixpoint gsat_levels (n : Node) : nat :=
  S (foldr (λ c m, max (if c is Some c then gsat_levels c else O) m) O (children n)).

(** ** The rebuild *)

(** The entries of [rep] and [value_data], of which [at] are in use. *)
Fixpoint CollectAndClear (fuel : nat) (clear : bool) (n : Node) (es : list entry) : res (list entry) :=
  match fuel with
  | O => OutOfFuel
  | S fuel =>
      let child (index : Z) es := if (children n).[index] is Some c then CollectAndClear fuel clear c es else Ok es in
      for_range 0 (rep_size n) (λ index r, res_bind r (λ es,
        let vd := (value_data n).[index] in
        let es := if negb clear || (0 <? accesses vd) then es ++ [((rep n).[index], vd)] else es in
        child (index + 1) es)) (child 0 es)
  end.

(** [pac]: the sums of the accesses. *)
Definition sum_accesses (es : list entry) : list Z :=
  for_range 0 (len es)
    (λ index pac, pac.[index + 1 <- pac.[index] + Z.abs (accesses (es.[index]).2)])
    (replicate (S (length es)) 0).

(** The loop that finds the next key of a node: [from] and [to]. *)
Fixpoint split_n (fuel : nat) (pac : list Z) (l child_accesses from to : Z) : Z * Z :=
  match fuel with
  | O => (from, to)
  | S fuel =>
      if 1 <? to - from then
        let m := Z.shiftr (from + to) 1 in
        if pac.[m] - pac.[l] <? child_accesses then split_n fuel pac l child_accesses m to
        else split_n fuel pac l child_accesses from m
      else (from, to)
  end.

Definition split_range (pac : list Z) (l r child_accesses : Z) : Z * Z :=
  split_n (Z.to_nat (r - l)) pac l child_accesses l r.

(** A node for [size] keys, with none of them in a child. *)
Definition ideal_leaf (es : list entry) (l size left_bound right_bound bound : Z) : Node :=
  let n := new_gsat_node left_bound right_bound (leaf_size_ P) bound in
  for_range 0 size
    (λ index n, {| n with rep := (rep n).[index <- (es.[l + index]).1];
                          value_data := (value_data n).[index <- (es.[l + index]).2] |})
    {| n with total_asize := size; rep_size := size |}.

(** The rounds of the loop over the keys of a node, [left == right] included; then the
    last child. [build] is the recursive call. *)
Definition ideal_finish (build : Z → Z → Z → Z → res (option Node)) (r right_bound total_accesses : Z)
    (n : Node) (index l left_bound : Z) : res (option Node) :=
  res_bind (build l r left_bound right_bound) (λ c,
    let n := gsat_set_child n index c in
    Ok (Some (NodeComplete P {| n with rep_size := index |} total_accesses))).

Fixpoint ideal_loop (build : Z → Z → Z → Z → res (option Node)) (es : list entry) (pac : list Z)
    (r right_bound total_accesses child_accesses : Z) (rounds : nat) (n : Node) (index l left_bound : Z) :
    res (option Node) :=
  match rounds with
  | O => ideal_finish build r right_bound total_accesses n index l left_bound
  | S rounds =>
      let '(from, to) := split_range pac l r child_accesses in
      let n := {| n with rep := (rep n).[index <- (es.[from]).1];
                         value_data := (value_data n).[index <- (es.[from]).2] |} in
      res_bind (build l from left_bound (rep n).[index]) (λ c,
        let n := gsat_set_child n index c in
        let left_bound := (rep n).[index] in
        if to =? r then ideal_finish build r right_bound total_accesses n (index + 1) to left_bound
        else ideal_loop build es pac r right_bound total_accesses child_accesses rounds n (index + 1) to left_bound)
  end.

Fixpoint BuildIdealTree (fuel : nat) (es : list entry) (pac : list Z) (l r left_bound right_bound : Z) : res (option Node) :=
  let size := r - l in
  if size <=? 0 then Ok None
  else
    match fuel with
    | O => OutOfFuel
    | S fuel =>
        let total_accesses := pac.[r] - pac.[l] in
        let bound := Z.max (min_rebuild_bound_ P)
          (convert (unspecified P) 64 d_trunc (rebuild_factor_ P *ᵈ d_of_Z total_accesses)) in
        if size <=? leaf_size_ P then Ok (Some (ideal_leaf es l size left_bound right_bound bound))
        else
          let capacity := delimiter_ P total_accesses in
          let child_accesses := convert (unspecified P) 32 d_ceil (d_of_Z total_accesses /ᵈ (d_of_Z capacity +ᵈ d_one)) in
          let n := new_gsat_node left_bound right_bound capacity bound in
          ideal_loop (BuildIdealTree fuel es pac) es pac r right_bound total_accesses child_accesses (Z.to_nat capacity)
            {| n with total_asize := size |} 0 l left_bound
    end.

(** [is_root] is [root_ == node]. *)
Definition RebuildTree (is_root : bool) (n : Node) : res (option Node) :=
  let count := total_asize n in
  let clear := match CP P with kNone => false | kRapid => true | kRoot => is_root end in
  res_bind (CollectAndClear (gsat_levels n) clear n []) (λ es,
    if count <? len es then Undefined
    else
      res_bind (BuildIdealTree (length es) es (sum_accesses es) 0 (len es) (left n) (right n)) (λ result,
        Ok (if result is None then if is_root then Some CreateRoot else None else result))).

(** ** The way down

    The loops of [Find], [Insert] and [Delete] differ in what they do to a node on the
    path, to the entry of the key, and where the key is missing. *)
Record Visit := {
  on_path : Node → Node;
  on_key : ValueData V → ValueData V * V;
  on_null : Node → Z → Node
}.

(** The loop with the assignment through [rebuild_node_at] after it: the first node
    whose accesses exceed its bound is built anew when all below it is done. [pending]:
    there is a [rebuild_node] above. *)
Fixpoint walk (fuel : nat) (v : Visit) (key : Z) (is_root pending : bool) (n : Node) : res (V * option Node) :=
  match fuel with
  | O => OutOfFuel
  | S fuel =>
      let '(n, exceeds) := Access (on_path v n) in
      let done (result : V) (n : Node) :=
        res_bind (if exceeds && negb pending then RebuildTree is_root n else Ok (Some n)) (λ c, Ok (result, c)) in
      let index := NodeSearch P n key in
      if KEY_FOUND n index key then
        let '(vd, result) := on_key v (value_data n).[index] in
        done result {| n with value_data := (value_data n).[index <- vd] |}
      else
        match (children n).[index] with
        | Some c =>
            res_bind (walk fuel v key false (pending || exceeds) c) (λ '(result, c),
              done result (gsat_set_child n index c))
        | None => done (no_value_ P) (on_null v n index)
        end
  end.

Definition find_visit : Visit := {|
  on_path n := n;
  on_key vd :=
    if accesses vd <? 0 then ({| vd with accesses := accesses vd - 1 |}, no_value_ P)
    else ({| vd with accesses := accesses vd + 1 |}, value vd);
  on_null n _ := n
|}.

(** The key goes into the node, or into a new child. *)
Definition add_key (key : Z) (v : V) (n : Node) (index : Z) : Node :=
  if leaf n && (rep_size n <? GetCapacity n) then INSERT n index key v 1
  else
    let child_left := if index =? 0 then left n else (rep n).[index - 1] in
    let child_right := if index =? rep_size n then right n else (rep n).[index] in
    let child := new_gsat_node child_left child_right (leaf_size_ P) (min_rebuild_bound_ P) in
    let child := INSERT child 0 key v 1 in
    let child := {| child with total_asize := s32 (total_asize child + 1); counter := counter child + 1 |} in
    gsat_set_child n index (Some child).

Definition insert_visit (key : Z) (v : V) : Visit := {|
  on_path n := {| n with total_asize := s32 (total_asize n + 1) |};
  on_key vd :=
    if accesses vd <? 0 then ({| value := v; accesses := - accesses vd + 1 |}, no_value_ P)
    else ({| vd with accesses := accesses vd + 1 |}, value vd);
  on_null := add_key key v
|}.

Definition delete_visit : Visit := {|
  on_path n := n;
  on_key vd :=
    if 0 <? accesses vd then ({| vd with accesses := - accesses vd - 1 |}, value vd)
    else ({| vd with accesses := accesses vd - 1 |}, no_value_ P);
  on_null n _ := n
|}.

(** ** Methods: the result and the new [root_], which is not null *)

Definition visit_root (v : Visit) (key : Z) (root_ : Node) : res (V * Node) :=
  res_bind (walk (gsat_levels root_) v key true false root_) (λ '(result, c),
    if c is Some root_ then Ok (result, root_) else Undefined).

Definition gsat_Find (key : Z) (root_ : Node) : res (V * Node) := visit_root find_visit key root_.

Definition gsat_Contains (key : Z) (root_ : Node) : res (bool * Node) :=
  res_bind (gsat_Find key root_) (λ '(v, root_), Ok (bool_decide (v ≠ no_value_ P), root_)).

Definition gsat_Insert (key : Z) (v : V) (root_ : Node) : res (V * Node) :=
  if (left root_ <=? key) && (key <? right root_) then visit_root (insert_visit key v) key root_ else Undefined.

Definition gsat_Delete (key : Z) (root_ : Node) : res (V * Node) := visit_root delete_visit key root_.

(** ** [Validate]: the size, or [None] when a check throws *)

Fixpoint gsat_validate_n (fuel : nat) (node : option Node) (l r : Z) : res (option Z) :=
  match node with
  | None => Ok (Some 0)
  | Some n =>
      match fuel with
      | O => OutOfFuel
      | S fuel =>
          if (left n =? l) && (right n =? r) then
            let sizes :=
              for_range 0 (rep_size n + 1) (λ index total, res_bind total (λ total,
                match total with
                | None => Ok None
                | Some total_size =>
                    let child_left := if index =? 0 then l else (rep n).[index - 1] in
                    let child_right := if index =? rep_size n then r else (rep n).[index] in
                    let vd := (value_data n).[index] in
                    if (child_left <=? child_right) &&
                       (negb (index <? rep_size n) || bool_decide (value vd ≠ no_value_ P))
                    then
                      let live := if (index <? rep_size n) && (0 <? accesses vd) then 1 else 0 in
                      res_bind (gsat_validate_n fuel (children n).[index] child_left child_right) (λ s,
                        Ok (if s is Some s then Some (total_size + live + s) else None))
                    else Ok None
                end)) (Ok (Some 0)) in
            res_bind sizes (λ total,
              Ok (if total is Some t then if t <=? total_asize n then Some t else None else None))
          else Ok None
      end
  end.

Definition gsat_Validate (root_ : Node) : res bool :=
  res_bind (gsat_validate_n (gsat_levels root_) (Some root_) (left_ P) (right_ P)) (λ s,
    Ok (if s is Some _ then true else false)).

End GSAT.

Arguments Visit V : clear implicits.
