(* ===== verification/GSATLaws.v ===== *)
(** The self-adjusting search trees: the shape of a tree and its rebuild.

    [grep h T c lo hi l]: [c] is a subtree for the keys of [[lo, hi)] with the entries
    [l] in order, of height [h] at most, whose [total_asize]s are at most [T]. The
    class [GSATTraitsOk] is what the laws need of the node class and the delimiter. *)
From S2P Require Import Prelude Double Distributions Assoc Arrays Weave Kids Lazy TreeLoops GSAT.

Section GSATLaws.
  Context {V : Type} `{EqDecision V}.
  Variable P : GSATTraits V.

#[local] Hint Extern 0 (Inhabited (ValueData V)) => exact (value_data_inhabited P) : typeclass_instances.
Abbreviation Node := (GSATNode V).
Abbreviation entry := (Z * ValueData V)%type.
Implicit Types (n : Node) (kvs l pre post es : list entry) (cs : list (option Node)) (ls : list (list entry)) (k : Z).

(** ** Nodes *)

(** What the arrays of [n] store; the children behind the used ones are null. *)
Definition gsat_holds n kvs cs : Prop :=
  stores_node (rep n) (value_data n) (children n) (rep_size n) (GetCapacity P n) kvs cs.

(** What a class of nodes and a delimiter promise. *)
Class GSATTraitsOk := {
  index_ok : Node → Prop;
  index_none n : id n = None → index_ok n;
  index_ext n n' : left n = left n' → right n = right n' → rep n = rep n' → rep_size n = rep_size n' →
    id n = id n' → leaf n = leaf n' → index_ok n → index_ok n';
  index_leaf n : index_ok n → leaf n = true → id n = None;
  Search_law n kvs cs k : gsat_holds n kvs cs → ksorted kvs → index_ok n → left n ≤ k < right n →
    first_ge (rep n) k (rep_size n) (NodeSearch P n k);
  Complete_law n kvs cs total : gsat_holds n kvs cs → ksorted kvs → id n = None → leaf n = true →
    left_ P ≤ left n → left n < right n → right n ≤ right_ P → 1 ≤ total < 2 ^ 31 →
    ∃ index, NodeComplete P n total = {| n with leaf := forallb (λ c, if c is Some _ then false else true) cs; id := index |} ∧
      index_ok (NodeComplete P n total);
  leaf_size_law : 1 ≤ leaf_size_ P ≤ array_size P (leaf_size_ P);
  delimiter_law total : 2 ≤ total → 1 ≤ delimiter_ P total ≤ array_size P (delimiter_ P total);
  bounds_law : left_ P < right_ P
}.

Context `{TO : GSATTraitsOk}.

(** ** Trees *)

(** A leaf with room has no child. *)
Definition leaf_ok n cs : Prop :=
  leaf n = true → rep_size n < GetCapacity P n → Forall (λ c, c = None) cs.

Fixpoint grep (h : nat) (T : Z) (c : option Node) (lo hi : Z) l : Prop :=
  match c with
  | None => l = []
  | Some n =>
      match h with
      | O => False
      | S h => ∃ kvs cs ls, gsat_holds n kvs cs ∧ left n = lo ∧ right n = hi ∧ index_ok n ∧ leaf_ok n cs ∧
          kids (grep h T) lo kvs cs ls hi ∧ l = weave ls kvs ∧ len l ≤ total_asize n ≤ T
      end
  end.

Lemma grep_none h T lo hi l : grep h T None lo hi l ↔ l = [].
Proof. by destruct h. Qed.

Lemma grep_mono h h' T T' c lo hi l : (h ≤ h')%nat → T ≤ T' → grep h T c lo hi l → grep h' T' c lo hi l.
Proof.
  intros Hh HT. revert h' Hh c lo hi l. induction h as [|h IH]; intros h' Hh [n|] lo hi l; [done| |..].
  1,3: by rewrite !grep_none.
  destruct h' as [|h']; [lia|]. intros (kvs & cs & ls & H1 & H2 & H3 & H4 & H5 & Hk & H6 & H7).
  exists kvs, cs, ls. split_and!; try done; [|lia..]. eapply kids_mono; [|exact Hk]. intros. apply (IH h'); [lia|done].
Qed.

Lemma grep_node h T n kvs cs ls lo hi l : gsat_holds n kvs cs → left n = lo → right n = hi → index_ok n → leaf_ok n cs →
  kids (grep h T) lo kvs cs ls hi → l = weave ls kvs → len l ≤ total_asize n ≤ T → grep (S h) T (Some n) lo hi l.
Proof. intros. by exists kvs, cs, ls. Qed.

(** The lookups that the code does. *)
Lemma gsat_kv n kvs1 k vd kvs2 cs i : gsat_holds n (kvs1 ++ (k, vd) :: kvs2) cs → i = len kvs1 →
  (rep n).[i] = k ∧ (value_data n).[i] = vd.
Proof. apply stores_node_kv. Qed.

Lemma gsat_child n kvs cs1 c cs2 i : gsat_holds n kvs (cs1 ++ c :: cs2) → i = len cs1 → (children n).[i] = c.
Proof. apply stores_node_child. Qed.

Lemma gsat_holds_child n kvs cs1 c cs2 i c' : gsat_holds n kvs (cs1 ++ c :: cs2) → i = len cs1 →
  gsat_holds (gsat_set_child n i c') kvs (cs1 ++ c' :: cs2).
Proof. apply stores_node_set_child. Qed.

(** The key is found, or belongs into the child at the index. *)
Lemma gsat_search n kvs cs k : gsat_holds n kvs cs → ksorted kvs → index_ok n → left n ≤ k < right n →
  ∃ kvs1 kvs2, kvs = kvs1 ++ kvs2 ∧ NodeSearch P n k = len kvs1 ∧ below k kvs1 ∧
    ((∃ vd kvs2', kvs2 = (k, vd) :: kvs2' ∧ KEY_FOUND n (NodeSearch P n k) k = true) ∨
     (above k kvs2 ∧ KEY_FOUND n (NodeSearch P n k) k = false)).
Proof.
  intros Hh Hs Hi Hk. destruct (stores_node_search _ _ _ _ _ _ _ _ _ Hh Hs (Search_law n kvs cs k Hh Hs Hi Hk))
    as (kvs1 & kvs2 & H). by exists kvs1, kvs2.
Qed.

Lemma gsat_levels_child n c i : (children n).[i] = Some c → 0 ≤ i → (gsat_levels c < gsat_levels n)%nat.
Proof.
  intros Hc Hi. assert (Some c ∈ children n) as Hin.
  { unfold get in Hc. rewrite list_lookup_total_alt in Hc. destruct (children n !! Z.to_nat i) as [x|] eqn:Hx; simpl in Hc; [|done].
    subst x. by apply list_elem_of_lookup_2 in Hx. }
  clear Hc. destruct n. simpl in *. clear -Hin. revert Hin. generalize children. intros cs Hin. induction cs as [|x cs IH]; [set_solver|].
  simpl. apply elem_of_cons in Hin as [<-|Hin]; [lia|]. specialize (IH Hin). lia.
Qed.

(** The value of an entry that is not removed. *)
Definition gsat_val (vd : ValueData V) : option V := if 0 <? accesses vd then Some (value vd) else None.
Abbreviation trim := (trim gsat_val).
Abbreviation live := (live gsat_val).

(** ** [CollectAndClear] *)

Definition collected (clear : bool) (vd : ValueData V) : bool := negb clear || (0 <? accesses vd).
Definition cleared (clear : bool) l : list entry := kept (collected clear) l.

Lemma cleared_trim clear l : trim l (cleared clear l).
Proof.
  apply kept_trim. intros vd v. unfold gsat_val, collected. destruct (0 <? accesses vd); [|done]. by destruct clear.
Qed.

Lemma collect_ok fuel clear h T n lo hi l es : grep h T (Some n) lo hi l → (gsat_levels n ≤ fuel)%nat →
  CollectAndClear P fuel clear n es = Ok (es ++ cleared clear l).
Proof.
  revert h n lo hi l es. induction fuel as [|fuel IH]; intros [|h] n lo hi l es Hg Hfuel; [done|destruct n; simpl in Hfuel; lia|done|].
  destruct Hg as (kvs & cs & ls & Hh & _ & _ & _ & _ & Hk & -> & _). cbn [CollectAndClear].
  apply (collect_loop (grep h T) _ _ _ _ _ _ _ _ _ _ (collected clear)
    (λ i es, if (children n).[i] is Some c then CollectAndClear P fuel clear c es else Ok es) es Hh Hk).
  intros i lo' hi' l es' Hi Hc. destruct ((children n).[i]) as [c|] eqn:Hci.
  - apply gsat_levels_child in Hci; [|done]. eapply IH; [exact Hc|lia].
  - apply grep_none in Hc. subst. by rewrite app_nil_r.
Qed.

(** ** [BuildIdealTree] *)

Definition used (e : entry) : Prop := accesses e.2 ≠ 0.

(** The accesses of the entries. *)
Definition acc_sum l : Z := zsum ((λ e : entry, Z.abs (accesses e.2)) <$> l).

Lemma acc_sum_cons e l : acc_sum (e :: l) = Z.abs (accesses e.2) + acc_sum l.
Proof. done. Qed.

Lemma acc_sum_app l1 l2 : acc_sum (l1 ++ l2) = acc_sum l1 + acc_sum l2.
Proof. unfold acc_sum. by rewrite fmap_app, zsum_app. Qed.

Lemma acc_sum_nonneg l : 0 ≤ acc_sum l.
Proof. induction l as [|e l IH]; [done|]. rewrite acc_sum_cons. lia. Qed.

Lemma acc_sum_len l : Forall used l → len l ≤ acc_sum l.
Proof.
  unfold used. induction 1 as [|e l He _ IH]; [done|]. rewrite acc_sum_cons, len_cons. lia.
Qed.

Lemma acc_sum_trim x y : trim x y → acc_sum y ≤ acc_sum x.
Proof. induction 1; rewrite ?acc_sum_cons; lia. Qed.

(** All entries were accessed, at most [A] times together. *)
Definition tame (A : Z) l : Prop := Forall used l ∧ acc_sum l ≤ A.

Lemma tame_trim A x y : trim x y → tame A x → tame A y.
Proof. intros Ht [Hu Ha]. split; [by eapply trim_Forall|]. apply acc_sum_trim in Ht. lia. Qed.

Lemma tame_middle A l1 l l2 : tame A (l1 ++ l ++ l2) → tame A l.
Proof.
  intros [Hu Ha]. apply Forall_app in Hu as [_ [Hu _]%Forall_app]. split; [done|]. rewrite !acc_sum_app in Ha.
  pose proof (acc_sum_nonneg l1). pose proof (acc_sum_nonneg l2). lia.
Qed.

(** [pac] has the sums. *)
Lemma sum_accesses_get es i : 0 ≤ i ≤ len es → (sum_accesses P es).[i] = acc_sum (take (Z.to_nat i) es).
Proof.
  intros Hi. unfold sum_accesses.
  enough (∀ pac, pac = for_range 0 (len es)
      (λ index pac, pac.[index + 1 <- pac.[index] + Z.abs (accesses (es.[index]).2)])
      (replicate (S (length es)) 0) →
    len pac = len es + 1 ∧ ∀ i, 0 ≤ i ≤ len es → pac.[i] = acc_sum (take (Z.to_nat i) es)) as H
    by (by apply (H _ eq_refl)).
  intros pac ->. apply (for_range_inv (λ m pac, len pac = len es + 1 ∧
    ∀ i, 0 ≤ i ≤ m → pac.[i] = acc_sum (take (Z.to_nat i) es))).
  - apply len_nonneg.
  - split; [rewrite len_replicate; unfold len; lia|]. intros j Hj. replace j with 0 by lia. done.
  - intros m pac Hm [Hl Hp]. split; [by rewrite len_set|]. intros j Hj. rewrite get_set by lia.
    destruct (Z.eqb_spec (m + 1) j) as [<-|]; [|apply Hp; lia]. rewrite (Hp m) by lia.
    replace (Z.to_nat (m + 1)) with (S (Z.to_nat m)) by lia.
    rewrite (take_S_r _ _ (es.[m])) by (apply get_lookup; lia). rewrite acc_sum_app, acc_sum_cons.
    change (acc_sum []) with 0. lia.
Qed.

Lemma sum_accesses_range a s b :
  (sum_accesses P (a ++ s ++ b)).[len a + len s] - (sum_accesses P (a ++ s ++ b)).[len a] = acc_sum s.
Proof.
  pose proof (len_nonneg a). pose proof (len_nonneg s). pose proof (len_nonneg b).
  rewrite !sum_accesses_get by (arr_len; lia).
  replace (Z.to_nat (len a + len s)) with (length (a ++ s)) by (rewrite length_app; unfold len; lia).
  replace (Z.to_nat (len a)) with (length a) by (unfold len; lia).
  rewrite app_assoc, take_app_length, <-app_assoc, take_app_length, acc_sum_app. lia.
Qed.

Lemma split_n_range fuel pac (l a from to : Z) : from < to → (Z.to_nat (to - from) ≤ fuel)%nat →
  let '(f, t) := split_n fuel pac l a from to in from ≤ f ∧ t = f + 1 ∧ t ≤ to.
Proof.
  revert from to. induction fuel as [|fuel IH]; intros from to Hlt Hf; simpl; [lia|].
  destruct (Z.ltb_spec 1 (to - from)); [|lia].
  rewrite Z.shiftr_div_pow2 by lia. change (2 ^ 1) with 2.
  pose proof (Z.div_mod (from + to) 2 ltac:(lia)). pose proof (Z.mod_pos_bound (from + to) 2 ltac:(lia)).
  set (m := (from + to) / 2) in *. destruct (_ <? a).
  - specialize (IH m to ltac:(lia) ltac:(lia)). destruct (split_n _ _ _ _ _ _). lia.
  - specialize (IH from m ltac:(lia) ltac:(lia)). destruct (split_n _ _ _ _ _ _). lia.
Qed.

Lemma split_range_ok pac (l r a : Z) : l < r → ∃ from, split_range pac l r a = (from, from + 1) ∧ l ≤ from < r.
Proof.
  intros Hlt. unfold split_range. pose proof (split_n_range (Z.to_nat (r - l)) pac l a l r Hlt ltac:(lia)) as Hs.
  destruct (split_n _ _ _ _ _ _) as [f t]. exists f. destruct Hs as (? & -> & ?). split; [done|lia].
Qed.

(** A node that is being filled. *)
Definition filling n kvs cs (lo hi : Z) : Prop :=
  filled (rep n) (value_data n) (children n) (GetCapacity P n) kvs cs ∧ left n = lo ∧ right n = hi ∧ leaf n = true ∧ id n = None.

Lemma new_filling lo hi c bound : 0 ≤ array_size P c → filling (new_gsat_node P lo hi c bound) [] [] lo hi.
Proof. intros Hc. split; [by apply filled_new|done]. Qed.

Lemma filling_push n kvs cs lo hi k vd c (i : Z) : filling n kvs cs lo hi → i = len kvs → len kvs < GetCapacity P n →
  filling (gsat_set_child {| n with rep := (rep n).[i <- k]; value_data := (value_data n).[i <- vd] |} i c)
    (kvs ++ [(k, vd)]) (cs ++ [c]) lo hi.
Proof. intros [Hf H] Hi Hcap. split; [by apply filled_push|done]. Qed.

Definition sized n (i : Z) : Node := {| n with rep_size := i |}.

(** The last child completes the node. *)
Lemma filling_finish n kvs cs lo hi c (i : Z) : filling n kvs cs lo hi → i = len kvs → len kvs ≤ GetCapacity P n →
  gsat_holds (sized (gsat_set_child n i c) i) kvs (cs ++ [c]).
Proof. intros [Hf _] Hi Hcap. by apply filled_finish. Qed.

Lemma kids_all_null h T lo kvs hi : kids (grep h T) lo kvs (replicate (S (length kvs)) None) (replicate (S (length kvs)) []) hi.
Proof.
  apply kids_null; [by intros; apply grep_none|by apply Forall_replicate|unfold len; rewrite length_replicate; lia|].
  by rewrite length_replicate.
Qed.

Lemma ideal_leaf_ok T es a s b lo hi bound : es = a ++ s ++ b → len s ≤ leaf_size_ P → len s ≤ T →
  grep 1 T (Some (ideal_leaf P es (len a) (len s) lo hi bound)) lo hi s.
Proof.
  intros -> Hs HT. pose proof leaf_size_law as Hsize. pose proof (len_nonneg s). unfold ideal_leaf.
  set (n0 := new_gsat_node P lo hi (leaf_size_ P) bound). set (base := {| n0 with total_asize := len s; rep_size := len s |}).
  destruct (new_filling lo hi (leaf_size_ P) bound ltac:(lia)) as [(Hr0 & Hv0 & _) _].
  destruct (copy_entries a s b (rep base) (value_data base) (GetCapacity P base) Hr0 Hv0) as (r & vs & Heq & Hr & Hv);
    [unfold GetCapacity; simpl; lia|].
  pose proof (for_range_sim (λ n p, n = {| base with rep := p.1; value_data := p.2 |}) 0 (len s)
    (λ index n, {| n with rep := (rep n).[index <- ((a ++ s ++ b).[len a + index]).1];
                          value_data := (value_data n).[index <- ((a ++ s ++ b).[len a + index]).2] |})
    (λ i '(r, vs), (r.[i <- ((a ++ s ++ b).[len a + i]).1], vs.[i <- ((a ++ s ++ b).[len a + i]).2]))
    base (rep base, value_data base) eq_refl) as Hsim.
  rewrite Heq in Hsim. rewrite Hsim by (by intros i n [r' vs'] ->). cbn [fst snd].
  apply (grep_node 0 T _ s (replicate (S (length s)) None) (replicate (S (length s)) [])); try done.
  - by apply stores_node_null.
  - by apply index_none.
  - intros _ _. by apply Forall_replicate.
  - by apply kids_all_null.
  - by rewrite weave_kids_null.
Qed.

(** The bounds of a subtree; those of the root are the bounds of the tree. *)
Definition root_bounds (is_root : bool) (lo hi : Z) : Prop :=
  (is_root = true → lo = left_ P ∧ hi = right_ P) ∧ left_ P ≤ lo ∧ hi ≤ right_ P.

(** The recursive call is right for at most [m] entries. *)
Definition builds (T : Z) es (m : Z) (build : Z → Z → Z → Z → res (option Node)) : Prop :=
  ∀ a s b lo hi, es = a ++ s ++ b → len s ≤ m → ksorted s → in_range lo hi s → left_ P ≤ lo → hi ≤ right_ P →
    ∃ c h, build (len a) (len a + len s) lo hi = Ok c ∧ grep h T c lo hi s ∧ (s ≠ [] → c ≠ None).

Lemma ideal_finish_ok T es m build a s b n kvs cs ls lo hi h total r i lb :
  r = len a + len s → i = len kvs → lb = last_key lo kvs → builds T es m build → es = a ++ s ++ b → len s ≤ m →
  filling n kvs cs lo hi → len kvs ≤ GetCapacity P n → kids_pre (grep h T) lo kvs cs ls →
  left_ P ≤ lo → lo < hi → hi ≤ right_ P → 1 ≤ total < 2 ^ 31 → lo ≤ last_key lo kvs →
  ksorted (heads ls kvs ++ s) → in_range (last_key lo kvs) hi s → len (heads ls kvs) + len s ≤ total_asize n ≤ T →
  ∃ c h', ideal_finish P build r hi total n i (len a) lb = Ok (Some c) ∧
    grep h' T (Some c) lo hi (heads ls kvs ++ s).
Proof.
  intros -> -> -> Hbuild -> Hs Hfill Hcap Hpre Hlow Hlh Hhigh Htotal Hlast Hsort Hin Hsize. unfold ideal_finish.
  pose proof (kids_pre_len _ _ _ _ _ Hpre) as [_ Hls]. pose proof Hsort as (_ & Hsort' & _)%ksorted_app.
  destruct (Hbuild a s b (last_key lo kvs) hi eq_refl Hs Hsort' Hin ltac:(lia) Hhigh) as (c & h2 & -> & Hc & _). cbn [res_bind].
  pose proof (filling_finish _ _ _ _ _ c _ Hfill eq_refl Hcap) as Hh.
  pose proof Hfill as (_ & Hlo & Hhi & Hleaf & Hid).
  destruct (Complete_law _ _ _ total Hh (ksorted_heads _ _ _ Hls Hsort) Hid Hleaf) as (index & Heq & Hidx); [simpl; lia..|done|].
  unfold sized in Heq, Hidx. eexists _, (S (max h h2)). split; [done|]. rewrite Heq in Hidx |- *.
  eapply (grep_node _ T _ kvs (cs ++ [c]) (ls ++ [s])); try done.
  - intros Hl _. simpl in Hl. apply Forall_forall. intros c' Hc'. rewrite forallb_forall in Hl. apply list_elem_of_In in Hc'.
    specialize (Hl c' Hc'). by destruct c'.
  - rewrite <-(app_nil_r kvs) at 1. apply kids_plug; [|eapply grep_mono; [..|exact Hc]; [lia|done]|done].
    eapply kids_pre_mono; [|exact Hpre]. intros. eapply grep_mono; [..|done]; [lia|done].
  - apply kids_pre_len in Hpre as [_ Hl]. rewrite <-(app_nil_r kvs). rewrite weave_focus by done.
    unfold tails. simpl. by rewrite !app_nil_r.
  - rewrite len_app. simpl. lia.
Qed.

Lemma filling_get n kvs cs lo hi k : filling n kvs cs lo hi → len kvs < GetCapacity P n →
  ((rep n).[len kvs <- k]).[len kvs] = k.
Proof. intros [Hf _] Hcap. by eapply filled_get. Qed.

Lemma ideal_loop_ok T es m build pac total ca rounds : builds T es m build → 1 ≤ total < 2 ^ 31 →
  ∀ a s b n kvs cs ls lo hi h r i p lb, r = len a + len s → i = len kvs → p = len a → lb = last_key lo kvs →
  es = a ++ s ++ b → (rounds = O → len s ≤ m) → len s ≤ m + 1 → (rounds ≠ O → s ≠ []) →
  filling n kvs cs lo hi → len kvs + Z.of_nat rounds ≤ GetCapacity P n → kids_pre (grep h T) lo kvs cs ls →
  left_ P ≤ lo → lo < hi → hi ≤ right_ P → lo ≤ last_key lo kvs →
  ksorted (heads ls kvs ++ s) → in_range (last_key lo kvs) hi s → len (heads ls kvs) + len s ≤ total_asize n ≤ T →
  ∃ c h', ideal_loop P build es pac r hi total ca rounds n i p lb = Ok (Some c) ∧
    grep h' T (Some c) lo hi (heads ls kvs ++ s).
Proof.
  intros Hbuild Htotal. induction rounds as [|rounds IH]; intros a s b n kvs cs ls lo hi h r i p lb -> -> -> -> -> H0 Hm Hne Hfill Hcap Hpre Hlow Hlh Hhigh Hlast Hsort Hin Hsize.
  { eapply ideal_finish_ok; try done; [by apply H0|lia]. }
  specialize (Hne ltac:(done)). pose proof Hsort as (_ & Hsort' & _)%ksorted_app. assert (0 < len s) as Hpos by (unfold len; destruct s; [done|simpl; lia]).
  cbn [ideal_loop]. destruct (split_range_ok pac (len a) (len a + len s) ca ltac:(lia)) as (from & -> & Hfrom).
  destruct (list_split s (from - len a) ltac:(lia)) as (s1 & s2' & -> & Hs1 & Hs2).
  destruct s2' as [|[k vd] s2]; [change (len (@nil entry)) with 0 in Hs2; lia|].
  destruct (in_range_split _ _ _ _ _ _ Hsort' Hin) as (Hk & Hin1 & Hin2). pose proof (len_nonneg s2).
  pose proof Hsort' as (Hsort1 & Hsort2 & _)%ksorted_middle. revert Hm Hsize. arr_len. intros Hm Hsize.
  assert ((a ++ (s1 ++ (k, vd) :: s2) ++ b).[from] = (k, vd)) as ->.
  { rewrite get_app_r by lia. rewrite <-app_assoc, get_app_r by lia. by replace (from - len a - len s1) with 0 by lia. }
  cbn [fst snd]. cbn [rep gsat_set_child]. rewrite (filling_get _ _ _ _ _ k Hfill) by lia.
  replace from with (len a + len s1) by lia.
  destruct (Hbuild a s1 ((k, vd) :: s2 ++ b) (last_key lo kvs) k) as (c & h1 & -> & Hc & _); [by app_norm|lia|done|done|lia|lia|].
  cbn [res_bind]. pose proof (filling_push _ _ _ _ _ k vd c _ Hfill eq_refl ltac:(lia)) as Hfill'.
  pose proof (kids_pre_len _ _ _ _ _ Hpre) as [_ Hls].
  assert (kids_pre (grep (max h h1) T) lo (kvs ++ [(k, vd)]) (cs ++ [c]) (ls ++ [s1])) as Hpre'.
  { apply kids_pre_snoc; [|eapply grep_mono; [..|exact Hc]; [lia|done]].
    eapply kids_pre_mono; [|exact Hpre]. intros. eapply grep_mono; [..|done]; [lia|done]. }
  assert (heads ls kvs ++ s1 ++ (k, vd) :: s2 = heads (ls ++ [s1]) (kvs ++ [(k, vd)]) ++ s2) as Heq
    by (rewrite heads_snoc by done; by app_norm). rewrite Heq in Hsort |- *.
  pose proof (last_key_snoc lo kvs k vd) as Hlk.
  assert (len (heads (ls ++ [s1]) (kvs ++ [(k, vd)])) + len s2 ≤ total_asize n ≤ T) as Hsize'
    by (rewrite heads_snoc by done; arr_len; lia).
  assert (len (kvs ++ [(k, vd)]) + Z.of_nat rounds ≤ GetCapacity P n) as Hcap' by (arr_len; lia).
  replace (len a + len s1 + 1) with (len (a ++ s1 ++ [(k, vd)])) by (arr_len; lia).
  assert (len a + (len s1 + (len s2 + 1)) = len (a ++ s1 ++ [(k, vd)]) + len s2) as -> by (arr_len; lia).
  rewrite <-Hlk in Hin2. assert (lo ≤ last_key lo (kvs ++ [(k, vd)])) as Hlast' by (rewrite Hlk; lia).
  destruct (Z.eqb_spec (len (a ++ s1 ++ [(k, vd)])) (len (a ++ s1 ++ [(k, vd)]) + len s2)).
  - eapply ideal_finish_ok; [done|by arr_len|done|done| |lia|exact Hfill'|..]; try done; [by app_norm|].
    etrans; [|exact Hcap']. lia.
  - eapply IH; [done|by arr_len|done|done| |lia|lia| |exact Hfill'|..]; try done; [by app_norm|].
    intros _ ->. change (len (@nil entry)) with 0 in *. lia.
Qed.

Lemma delimiter_new total lo hi bound : 2 ≤ total →
  filling (new_gsat_node P lo hi (delimiter_ P total) bound) [] [] lo hi ∧ 1 ≤ delimiter_ P total ∧
  delimiter_ P total ≤ GetCapacity P (new_gsat_node P lo hi (delimiter_ P total) bound).
Proof. intros Ht. pose proof (delimiter_law total Ht). split; [apply new_filling; lia|]. unfold GetCapacity. simpl. lia. Qed.

Lemma filling_asize n kvs cs lo hi (t : Z) : filling n kvs cs lo hi → filling {| n with total_asize := t |} kvs cs lo hi.
Proof. done. Qed.

(** The entries [[l, r)] become a tree: with a round for each, the recursion ends. *)
Lemma BuildIdealTree_ok T A es fuel : tame A es → A < 2 ^ 31 → len es ≤ T →
  builds T es (Z.of_nat fuel) (BuildIdealTree P fuel es (sum_accesses P es)).
Proof.
  intros Htame HA HT. induction fuel as [|fuel IH]; intros a s b lo hi Heq Hs Hsort Hin Hlow Hhigh; cbn [BuildIdealTree].
  all: destruct (Z.leb_spec (len a + len s - len a) 0) as [Hempty|Hne].
  all: try (destruct s as [|e s]; [by exists None, O|rewrite len_cons in *; pose proof (len_nonneg s); lia]).
  { lia. }
  set (total := (sum_accesses P es).[len a + len s] - (sum_accesses P es).[len a]).
  set (bound := Z.max _ _). pose proof (len_nonneg a). pose proof (len_nonneg b).
  assert (len es = len a + (len s + len b)) as Hles by (rewrite Heq; by arr_len).
  assert (tame A s) as [Hused Hsum] by (rewrite Heq in Htame; by eapply tame_middle).
  assert (len s ≤ total < 2 ^ 31) as Htotal.
  { unfold total. rewrite Heq, sum_accesses_range. pose proof (acc_sum_len s Hused). lia. }
  pose proof leaf_size_law as Hleaf. replace (len a + len s - len a) with (len s) in * by lia.
  assert (s ≠ []) as Hs0 by (intros ->; by change (len (@nil entry)) with 0 in Hne).
  destruct (Z.leb_spec (len s) (leaf_size_ P)).
  - exists (Some (ideal_leaf P es (len a) (len s) lo hi bound)), 1%nat. split; [done|]. split; [|done].
    eapply ideal_leaf_ok; [exact Heq|done|lia].
  - destruct (delimiter_new total lo hi bound ltac:(lia)) as (Hfill & Hc1 & Hc2).
    destruct s as [|e s']; [done|]. assert (lo < hi) as Hlh by (specialize (Hin e.1 ltac:(set_solver)); lia).
    set (n := new_gsat_node P lo hi (delimiter_ P total) bound) in *.
    destruct (ideal_loop_ok T es (Z.of_nat fuel) (BuildIdealTree P fuel es (sum_accesses P es)) (sum_accesses P es) total
      (convert (unspecified P) 32 d_ceil (d_of_Z total /ᵈ (d_of_Z (delimiter_ P total) +ᵈ d_one))) (Z.to_nat (delimiter_ P total)) IH
      ltac:(lia) a (e :: s') b {| n with total_asize := len (e :: s') |}
      [] [] [] lo hi O (len a + len (e :: s')) 0 (len a) lo)
      as (c & h & Hb & Hc); try done; try lia.
    + change (GetCapacity P _) with (GetCapacity P n). change (len (@nil (Z * ValueData V))) with 0. lia.
    + change (0 + len (e :: s') ≤ len (e :: s') ≤ T). lia.
    + exists (Some c), h. by rewrite Hb.
Qed.

(** ** [RebuildTree] *)

Lemma CreateRoot_grep T : 0 ≤ T → grep 1 T (Some (CreateRoot P)) (left_ P) (right_ P) [].
Proof.
  intros HT. pose proof leaf_size_law.
  destruct (new_filling (left_ P) (right_ P) (leaf_size_ P) (min_rebuild_bound_ P) ltac:(lia)) as [(Hr & Hv & _) _].
  apply (grep_node _ _ _ [] [None] [[]]); try done.
  - exact (stores_node_null _ _ _ _ _ [] Hr Hv eq_refl eq_refl).
  - by apply index_none.
  - intros _ _. by constructor.
  - by exists None, [].
Qed.

Lemma RebuildTree_ok h T A is_root n lo hi l : grep h T (Some n) lo hi l → lo < hi → ksorted l → in_range lo hi l →
  tame A l → A < 2 ^ 31 → root_bounds is_root lo hi → 0 ≤ T →
  ∃ c h' l', RebuildTree P is_root n = Ok c ∧ grep h' T c lo hi l' ∧ trim l l' ∧ (is_root = true → c ≠ None).
Proof.
  intros Hg Hlh Hsort Hin Htame HA (Hroot & Hlow & Hhigh) HT. unfold RebuildTree.
  set (clear := match CP P with kNone => false | kRapid => true | kRoot => is_root end).
  rewrite (collect_ok _ clear _ _ _ _ _ _ [] Hg) by done. cbn [res_bind]. rewrite app_nil_l.
  pose proof (cleared_trim clear l) as Ht. set (l' := cleared clear l) in *. clearbody l'.
  pose proof (trim_len _ _ Ht) as Hl. destruct h as [|h]; [done|].
  destruct Hg as (kvs & cs & ls & _ & -> & -> & _ & _ & _ & _ & Hsize). replace (total_asize n <? len l') with false by lia.
  destruct (BuildIdealTree_ok T A l' (length l') (tame_trim _ _ _ Ht Htame) HA ltac:(lia) [] l' [] lo hi)
    as (c & h' & Hb & Hc & Hne); [by rewrite app_nil_r|by unfold len|by eapply trim_sorted|..|done|done|].
  { intros k Hk. apply Hin. by eapply trim_keys. }
  change (len (@nil (Z * ValueData V))) with 0 in Hb. rewrite Z.add_0_l in Hb. rewrite Hb. cbn [res_bind].
  destruct c as [c|]; [by exists (Some c), h', l'|].
  destruct is_root; [|by exists None, h', l'].
  assert (l' = []) as -> by (destruct l'; [done|by destruct (Hne ltac:(done))]).
  destruct (Hroot eq_refl) as [Hlo Hhi]. exists (Some (CreateRoot P)), 1%nat, []. rewrite Hlo, Hhi.
  split; [done|]. split; [by apply CreateRoot_grep|]. done.
Qed.

End GSATLaws.
