(* ===== verification/GSATMap.v ===== *)
(** The self-adjusting search trees: the way down and the map.

    [walk_ok] is the law of the loop that [Find], [Insert] and [Delete] share: it edits
    the entry of the key, and a rebuild on the way may drop entries of removed keys.
    The entries with a positive number of accesses are the map. *)
From S2P Require Import Prelude Double Distributions Assoc Arrays Weave Kids Lazy TreeLoops GSAT GSATLaws.

Section GSATMap.
  Context {V : Type} `{EqDecision V} {P : GSATTraits V} `{TO : GSATTraitsOk V P}.

#[local] Hint Extern 0 (Inhabited (ValueData V)) => exact (value_data_inhabited P) : typeclass_instances.
Abbreviation Node := (GSATNode V).
Abbreviation entry := (Z * ValueData V)%type.
Abbreviation grep := (grep P).
Implicit Types (n : Node) (kvs l es : list entry) (cs : list (option Node)) (ls : list (list entry)) (k : Z).

Abbreviation trim := (trim gsat_val).
Abbreviation alive := (alive gsat_val).
Abbreviation alive_map := (alive_map gsat_val).

(** ** Visits *)

(** What a visit does to the entries of a subtree. *)
Abbreviation edits v := (edits (on_key v) (no_value_ P)).

(** What the parts of a visit promise. *)
Class VisitOk (v : Visit V) k (added : list entry) := {
  added_law : added = [] ∨ ∃ vd, added = [(k, vd)] ∧ Z.abs (accesses vd) = 1;
  path_law n : - 2 ^ 31 ≤ total_asize n + len added < 2 ^ 31 →
    on_path v n = {| n with total_asize := total_asize n + len added |};
  key_law vd : accesses vd ≠ 0 → Z.abs (accesses (on_key v vd).1) = Z.abs (accesses vd) + 1;
  null_law h T n kvs1 kvs2 cs1 cs2 ls1 ls2 lo hi : gsat_holds P n (kvs1 ++ kvs2) (cs1 ++ None :: cs2) →
    left n = lo → right n = hi → index_ok P n → leaf_ok P n (cs1 ++ None :: cs2) →
    kids_pre (grep h T) lo kvs1 cs1 ls1 → kids_post (grep h T) kvs2 cs2 ls2 hi →
    len (heads ls1 kvs1 ++ added ++ tails kvs2 ls2) ≤ total_asize n ≤ T →
    ∃ h', grep h' T (Some (on_null v n (len kvs1))) lo hi (heads ls1 kvs1 ++ added ++ tails kvs2 ls2)
}.

Section Walk.
  Context (v : Visit V) (k : Z) (added : list entry) `{VO : !VisitOk v k added}.

Lemma added_adds : adds k added.
Proof. destruct added_law as [?|(vd & ? & _)]; [by left|right; by exists vd]. Qed.

Lemma edits_in_range lo hi l l' r : edits v k added l l' r → lo ≤ k < hi → in_range lo hi l → in_range lo hi l'.
Proof. intros He Hk Hin. exact (edits_keys (λ k, lo ≤ k < hi) _ _ _ added_adds He (λ _, Hk) Hin). Qed.

(** One access more, at most. *)
Lemma edits_tame A l l' r : edits v k added l l' r → tame A l → tame (A + 1) l'.
Proof.
  intros (l1 & l2 & _ & _ & [(d & -> & -> & _)|(-> & -> & _)]); unfold tame;
    rewrite !Forall_app, ?Forall_cons, !acc_sum_app, ?acc_sum_cons; cbn [snd].
  - intros [(H1 & Hd & H2) Ha]. unfold used in Hd |- *. cbn [snd] in *. pose proof (key_law d Hd). split; [|lia].
    split; [done|]. split; [lia|done].
  - intros [(H1 & H2) Ha]. destruct added_law as [->|(vd & -> & Hvd)]; rewrite ?acc_sum_cons.
    + change (acc_sum []) with 0. split; [done|lia].
    + change (acc_sum []) with 0. cbn [snd]. split; [|lia]. split; [done|]. split; [|done].
      constructor; [|done]. unfold used. cbn [snd]. lia.
Qed.

(** ** The loop *)

(** A node whose accesses exceed its bound is built anew, unless one above is. *)
Definition finish (is_root exceeds pending : bool) (result : V) (n : Node) : res (V * option Node) :=
  res_bind (if exceeds && negb pending then RebuildTree P is_root n else Ok (Some n)) (λ c, Ok (result, c)).

Lemma finish_ok h T A is_root exceeds pending result n lo hi l : grep h T (Some n) lo hi l → lo < hi →
  ksorted l → in_range lo hi l → tame A l → A < 2 ^ 31 → root_bounds P is_root lo hi → 0 ≤ T →
  ∃ c h' l', finish is_root exceeds pending result n = Ok (result, c) ∧ grep h' T c lo hi l' ∧ trim l l' ∧
    (is_root = true → c ≠ None).
Proof.
  intros Hg Hlh Hs Hin Hu HA Hroot HT. unfold finish. destruct (exceeds && negb pending).
  - destruct (RebuildTree_ok P h T A is_root n lo hi l) as (c & h' & l' & -> & H); try done. by exists c, h', l'.
  - exists (Some n), h, l. split; [done|]. split; [done|]. split; [apply trim_refl|done].
Qed.

(** The node as the visit leaves it on the way down. *)
Definition touched n : Node := {| n with total_asize := total_asize n + len added; counter := counter n + 1 |}.

Definition set_entry n (i : Z) (vd : ValueData V) : Node := {| n with value_data := (value_data n).[i <- vd] |}.

Lemma walk_step fuel is_root pending n : - 2 ^ 31 ≤ total_asize n + len added < 2 ^ 31 →
  ∃ exceeds, walk P (S fuel) v k is_root pending n =
    let index := NodeSearch P (touched n) k in
    if KEY_FOUND (touched n) index k then
      finish is_root exceeds pending (on_key v (value_data n).[index]).2
        (set_entry (touched n) index (on_key v (value_data n).[index]).1)
    else
      match (children n).[index] with
      | Some c =>
          res_bind (walk P fuel v k false (pending || exceeds) c) (λ '(result, c),
            finish is_root exceeds pending result (gsat_set_child (touched n) index c))
      | None => finish is_root exceeds pending (no_value_ P) (on_null v (touched n) index)
      end.
Proof.
  intros Hr. exists (rebuild_bound n <? counter n + 1). cbn [walk]. rewrite (path_law n Hr). unfold Access.
  cbn [rebuild_bound counter]. cbv zeta. fold (touched n). set (i := NodeSearch P (touched n) k).
  change (value_data (touched n)) with (value_data n). change (children (touched n)) with (children n).
  destruct (KEY_FOUND _ _ _); [|done]. by destruct (on_key v _).
Qed.

(** The entry of the key in a node. *)
Lemma found_ok h T n lo hi kvs1 vd kvs2 cs ls vd' : let kvs := kvs1 ++ (k, vd) :: kvs2 in
  gsat_holds P n kvs cs → left n = lo → right n = hi → index_ok P n → leaf_ok P n cs → kids (grep h T) lo kvs cs ls hi →
  len (weave ls kvs) ≤ total_asize n ≤ T → ksorted (weave ls kvs) →
  ∃ l1 l2, below k l1 ∧ above k l2 ∧ weave ls kvs = l1 ++ (k, vd) :: l2 ∧
    grep (S h) (T + len added) (Some (set_entry (touched n) (len kvs1) vd')) lo hi (l1 ++ (k, vd') :: l2).
Proof.
  intros kvs Hh Hlo Hhi Hidx Hleaf Hk Hsize Hs.
  destruct (weave_entry _ _ _ _ _ _ _ _ _ Hk) as (l1 & l2 & Hw). pose proof (Hw vd) as Hl. fold kvs in Hl. rewrite Hl in Hs, Hsize.
  exists l1, l2. apply ksorted_middle in Hs as (_ & _ & Hb & Ha). split; [done|]. split; [done|]. split; [done|].
  rewrite <-Hw. pose proof (len_nonneg added).
  apply (grep_node P h _ _ (kvs1 ++ (k, vd') :: kvs2) cs ls); [|done|done|by apply (index_ext P n)|done| |done|].
  - eapply stores_node_set_value; [exact Hh|done].
  - eapply kids_mono; [|by eapply kids_set_value]. intros. eapply grep_mono; [..|done]; [done|lia].
  - rewrite Hw. revert Hsize. arr_len. simpl. lia.
Qed.

(** The child where the key belongs. *)
Lemma child_ok h h' T n lo hi kvs1 kvs2 cs1 c cs2 ls1 l ls2 c' l' y r : gsat_holds P n (kvs1 ++ kvs2) (cs1 ++ Some c :: cs2) →
  left n = lo → right n = hi → index_ok P n → leaf_ok P n (cs1 ++ Some c :: cs2) →
  kids_pre (grep h T) lo kvs1 cs1 ls1 → kids_post (grep h T) kvs2 cs2 ls2 hi →
  len (heads ls1 kvs1 ++ l ++ tails kvs2 ls2) ≤ total_asize n ≤ T →
  grep h' (T + len added) c' (last_key lo kvs1) (first_key kvs2 hi) l' → edits v k added l y r → trim y l' →
  grep (S (max h h')) (T + len added) (Some (gsat_set_child (touched n) (len kvs1) c')) lo hi
    (heads ls1 kvs1 ++ l' ++ tails kvs2 ls2).
Proof.
  intros Hh Hlo Hhi Hidx Hleaf Hp Hq Hsize Hc He Ht. pose proof (len_nonneg added).
  pose proof (kids_pre_len _ _ _ _ _ Hp) as [Hc1 Hl1].
  apply (grep_node P _ _ _ (kvs1 ++ kvs2) (cs1 ++ c' :: cs2) (ls1 ++ l' :: ls2)); [|done|done|by apply (index_ext P n)|..].
  - by apply (gsat_holds_child P (touched n) _ _ (Some c)).
  - intros Hlf Hroom. specialize (Hleaf Hlf Hroom). apply Forall_app in Hleaf as [_ [? _]%Forall_cons]. done.
  - apply kids_plug; [|eapply grep_mono; [..|exact Hc]; [lia|done]|].
    + eapply kids_pre_mono; [|exact Hp]. intros. eapply grep_mono; [..|done]; lia.
    + eapply kids_post_mono; [|exact Hq]. intros. eapply grep_mono; [..|done]; lia.
  - by rewrite weave_focus.
  - apply edits_len in He. apply trim_len in Ht. revert Hsize. arr_len. simpl. lia.
Qed.

(** What the loop leaves of a subtree with the entries [l]. *)
Definition walk_post T (is_root : bool) lo hi l (r : res (V * option Node)) : Prop := ∃ result c h' l' y,
  r = Ok (result, c) ∧ grep h' (T + len added) c lo hi l' ∧ edits v k added l y result ∧ trim y l' ∧ (is_root = true → c ≠ None).

Lemma finish_edits T A is_root exceeds pending lo hi l result n h y0 y : ksorted l → in_range lo hi l →
  tame A l → A + 1 < 2 ^ 31 → lo ≤ k < hi → 0 ≤ T + len added → root_bounds P is_root lo hi →
  grep h (T + len added) (Some n) lo hi y → edits v k added l y0 result → trim y0 y →
  walk_post T is_root lo hi l (finish is_root exceeds pending result n).
Proof.
  intros Hs Hin Hu HA Hk HT Hroot Hg He Ht0.
  destruct (finish_ok h _ (A + 1) is_root exceeds pending result n lo hi y Hg) as (c & h' & l' & Hf & Hc & Ht & Hne); [lia|..|done|done|done|].
  - eapply trim_sorted; [done|by apply (edits_sorted _ _ _ added_adds He)].
  - intros k' Hk'. eapply edits_in_range; [done..|by eapply trim_keys].
  - eapply tame_trim; [done|by eapply edits_tame].
  - exists result, c, h', l', y0. split; [done|]. split; [done|]. split; [done|]. split; [by eapply trim_trans|done].
Qed.

(** The law of the loop. *)
Lemma walk_ok fuel h T A is_root pending n lo hi l : grep h T (Some n) lo hi l → (gsat_levels n ≤ fuel)%nat →
  ksorted l → in_range lo hi l → tame A l → A + 1 < 2 ^ 31 → lo ≤ k < hi → 0 ≤ T → T + len added < 2 ^ 31 →
  root_bounds P is_root lo hi →
  walk_post T is_root lo hi l (walk P fuel v k is_root pending n).
Proof.
  revert h is_root pending n lo hi l. induction fuel as [|fuel IH]; intros [|h] is_root pending n lo hi l Hg Hfuel Hs Hin Hu HA Hk HT HT2 Hroot;
    [done|destruct n; simpl in Hfuel; lia|done|].
  destruct Hg as (kvs & cs & ls & Hh & Hlo & Hhi & Hidx & Hleaf & Hkids & -> & Hsize). pose proof (len_nonneg added).
  pose proof (len_nonneg (weave ls kvs)).
  destruct (walk_step fuel is_root pending n) as (exceeds & ->); [lia|]. cbv zeta.
  assert (∀ result n' h' y0 y, grep h' (T + len added) (Some n') lo hi y → edits v k added (weave ls kvs) y0 result → trim y0 y →
    walk_post T is_root lo hi (weave ls kvs) (finish is_root exceeds pending result n')) as Hfinish.
  { intros. eapply finish_edits; try done. lia. }
  destruct (gsat_search P (touched n) kvs cs k) as (kvs1 & kvs2 & -> & -> & Hb & Hcase); [done| |by apply (index_ext P n)|simpl; lia|].
  { eapply ksorted_weave; [|exact Hs]. by apply kids_len in Hkids as [? _]. }
  destruct Hcase as [(vd & kvs2' & -> & ->)|[Ha ->]].
  - destruct (gsat_kv _ _ _ _ _ _ _ _ Hh eq_refl) as [_ ->].
    destruct (found_ok h T n lo hi kvs1 vd kvs2' cs ls (on_key v vd).1) as (l1 & l2 & Hb' & Ha' & Hw & Hg); try done.
    eapply Hfinish; [exact Hg| |apply trim_refl]. exists l1, l2. split; [done|]. split; [done|]. left. by exists vd.
  - apply kids_focus in Hkids as (cs1 & c & cs2 & ls1 & lc & ls2 & -> & -> & Hp & Hc & Hq).
    pose proof (kids_pre_len _ _ _ _ _ Hp) as [Hc1 Hl1]. pose proof (kids_post_len _ _ _ _ _ Hq) as [Hc2 Hl2].
    rewrite (gsat_child _ _ _ _ _ _ _ Hh) by done. rewrite weave_focus in * by done.
    pose proof Hs as (Hs1 & (Hsl & Hs2 & _)%ksorted_app & _)%ksorted_app.
    pose proof (heads_below k _ _ Hs1 Hl1 Hb) as Hb'. pose proof (tails_above k _ _ Hs2 Ha) as Ha'.
    destruct c as [c|].
    + assert (gsat_levels c < gsat_levels n)%nat as Hlev.
      { apply (gsat_levels_child _ _ (len kvs1)); [by rewrite (gsat_child _ _ _ _ _ _ _ Hh)|apply len_nonneg]. }
      destruct (child_within lo hi ls1 kvs1 lc kvs2 ls2 Hl1 Hl2 Hin) as [Hw1 Hw2]. destruct Hroot as (Hroot & Hlow & Hhigh).
      destruct (IH h false (pending || exceeds) c (last_key lo kvs1) (first_key kvs2 hi) lc) as (result & c' & h' & l' & y & -> & Hc' & He & Ht & _);
        [done|lia|done|by eapply in_range_child|by eapply tame_middle|done| |done|done|split; [done|lia]|].
      { split; [apply below_last_key; [done|lia]|apply above_first_key; [done|lia]]. }
      cbn [res_bind]. eapply (Hfinish _ _ _ (heads ls1 kvs1 ++ y ++ tails kvs2 ls2)); [by eapply child_ok|by apply edits_between|apply trim_app; [apply trim_refl|apply trim_app; [done|apply trim_refl]]].
    + apply grep_none in Hc. subst lc.
      destruct (null_law h (T + len added) (touched n) kvs1 kvs2 cs1 cs2 ls1 ls2 lo hi) as (h' & Hg); try done.
      * by apply (index_ext P n).
      * eapply kids_pre_mono; [|exact Hp]. intros. eapply grep_mono; [..|done]; lia.
      * eapply kids_post_mono; [|exact Hq]. intros. eapply grep_mono; [..|done]; lia.
      * revert Hsize. arr_len. simpl. lia.
      * eapply Hfinish; [exact Hg| |apply trim_refl]. exists (heads ls1 kvs1), (tails kvs2 ls2). split; [done|]. split; [done|]. by right.
Qed.

End Walk.
(** ** The three visits *)

Lemma plain_null h T n kvs1 kvs2 cs1 cs2 ls1 ls2 lo hi : gsat_holds P n (kvs1 ++ kvs2) (cs1 ++ None :: cs2) →
  left n = lo → right n = hi → index_ok P n → leaf_ok P n (cs1 ++ None :: cs2) →
  kids_pre (grep h T) lo kvs1 cs1 ls1 → kids_post (grep h T) kvs2 cs2 ls2 hi →
  len (heads ls1 kvs1 ++ tails kvs2 ls2) ≤ total_asize n ≤ T →
  grep (S h) T (Some n) lo hi (heads ls1 kvs1 ++ tails kvs2 ls2).
Proof.
  intros Hh Hlo Hhi Hidx Hleaf Hp Hq Hsize. pose proof (kids_pre_len _ _ _ _ _ Hp) as [Hc1 Hl1].
  apply (grep_node P _ _ _ (kvs1 ++ kvs2) (cs1 ++ None :: cs2) (ls1 ++ [] :: ls2)); try done.
  - apply kids_plug; [done|by apply grep_none|done].
  - by rewrite weave_focus.
Qed.

Lemma untouched n : n = {| n with total_asize := total_asize n + 0 |}.
Proof. destruct n. simpl. by rewrite Z.add_0_r. Qed.

#[export] Instance find_visit_ok k : VisitOk (find_visit P) k [].
Proof.
  split.
  - by left.
  - intros n _. apply untouched.
  - intros vd. simpl. destruct (Z.ltb_spec (accesses vd) 0); simpl; lia.
  - intros. exists (S h). by eapply plain_null.
Defined.

#[export] Instance delete_visit_ok k : VisitOk (delete_visit P) k [].
Proof.
  split.
  - by left.
  - intros n _. apply untouched.
  - intros vd. simpl. destruct (Z.ltb_spec 0 (accesses vd)); simpl; lia.
  - intros. exists (S h). by eapply plain_null.
Defined.

(** A node for one key. *)
Definition entry_of k (v : V) : entry := (k, {| value := v; accesses := 1 |}).

Lemma null_grep h T n kvs lo hi : stores (rep n) (GetCapacity P n) kvs.*1 → stores (value_data n) (GetCapacity P n) kvs.*2 →
  children n = replicate (Z.to_nat (GetCapacity P n + 1)) None → rep_size n = len kvs → id n = None →
  left n = lo → right n = hi → len kvs ≤ total_asize n ≤ T → grep (S h) T (Some n) lo hi kvs.
Proof.
  intros Hr Hv Hc Hs Hid Hlo Hhi Hsize. pose proof (stores_node_null _ _ _ _ _ _ Hr Hv Hc Hs) as Hh.
  eapply (grep_node P _ _ _ kvs); [exact Hh|done|done|by apply index_none|intros _ _; by apply Forall_replicate|apply kids_all_null|by rewrite weave_kids_null|done].
Qed.

Lemma INSERT_stores n kvs1 kvs2 k v : stores (rep n) (GetCapacity P n) (kvs1 ++ kvs2).*1 →
  stores (value_data n) (GetCapacity P n) (kvs1 ++ kvs2).*2 → rep_size n = len (kvs1 ++ kvs2) → rep_size n < GetCapacity P n →
  stores (rep (INSERT P n (len kvs1) k v 1)) (GetCapacity P n) (kvs1 ++ entry_of k v :: kvs2).*1 ∧
  stores (value_data (INSERT P n (len kvs1) k v 1)) (GetCapacity P n) (kvs1 ++ entry_of k v :: kvs2).*2.
Proof. apply stores_insert. Qed.

(** The new child of [add_key]. *)
Lemma new_child_grep T k v lo hi bound : 1 ≤ T →
  grep 1 T (Some (let child := INSERT P (new_gsat_node P lo hi (leaf_size_ P) bound) 0 k v 1 in
    {| child with total_asize := s32 (total_asize child + 1); counter := counter child + 1 |})) lo hi [entry_of k v].
Proof.
  intros HT. pose proof (leaf_size_law P) as Hl. destruct (new_filling P lo hi (leaf_size_ P) bound ltac:(lia)) as [(Hr & Hv & _) _].
  set (n := new_gsat_node P lo hi (leaf_size_ P) bound) in *.
  destruct (INSERT_stores n [] [] k v Hr Hv eq_refl) as [Hr' Hv']; [unfold GetCapacity; simpl; lia|].
  apply null_grep; done.
Qed.

Lemma add_child h T n kvs1 kvs2 cs1 cs2 ls1 ls2 lo hi child l : gsat_holds P n (kvs1 ++ kvs2) (cs1 ++ None :: cs2) →
  left n = lo → right n = hi → index_ok P n → (leaf n = true → GetCapacity P n ≤ rep_size n) →
  kids_pre (grep h T) lo kvs1 cs1 ls1 → kids_post (grep h T) kvs2 cs2 ls2 hi →
  grep 1 T (Some child) (last_key lo kvs1) (first_key kvs2 hi) l →
  len (heads ls1 kvs1 ++ l ++ tails kvs2 ls2) ≤ total_asize n ≤ T →
  grep (S (max h 1)) T (Some (gsat_set_child n (len kvs1) (Some child))) lo hi (heads ls1 kvs1 ++ l ++ tails kvs2 ls2).
Proof.
  intros Hh Hlo Hhi Hidx Hfull Hp Hq Hc Hsize. pose proof (kids_pre_len _ _ _ _ _ Hp) as [Hc1 Hl1].
  apply (grep_node P _ _ _ (kvs1 ++ kvs2) (cs1 ++ Some child :: cs2) (ls1 ++ l :: ls2)); [|done|done|by apply (index_ext P n)|..].
  - by apply (gsat_holds_child P n _ _ None).
  - intros Hlf Hroom. specialize (Hfull Hlf). unfold GetCapacity in *. simpl in *. lia.
  - apply kids_plug; [|eapply grep_mono; [..|exact Hc]; [lia|done]|].
    + eapply kids_pre_mono; [|exact Hp]. intros. eapply grep_mono; [..|done]; lia.
    + eapply kids_post_mono; [|exact Hq]. intros. eapply grep_mono; [..|done]; lia.
  - by rewrite weave_focus.
  - done.
Qed.

#[export] Instance insert_visit_ok k v : VisitOk (insert_visit P k v) k [entry_of k v].
Proof.
  split.
  - right. by exists {| value := v; accesses := 1 |}.
  - intros n Hn. change (len [entry_of k v]) with 1 in *. cbn [insert_visit on_path]. by rewrite s32_small.
  - intros vd. simpl. destruct (Z.ltb_spec (accesses vd) 0); simpl; lia.
  - intros h T n kvs1 kvs2 cs1 cs2 ls1 ls2 lo hi Hh Hlo Hhi Hidx Hleaf Hp Hq Hsize. cbn [insert_visit on_null]. unfold add_key.
    pose proof (kids_pre_len _ _ _ _ _ Hp) as [Hc1 Hl1]. pose proof Hh as (Hr & Hv & _ & _ & Hs & _).
    destruct (leaf n) eqn:Hlf; [destruct (Z.ltb_spec (rep_size n) (GetCapacity P n)) as [Hroom|Hfull]|]; cbn [andb].
    { pose proof (Hleaf Hlf Hroom) as HF. destruct (kids_all_nil _ _ _ _ _ _ _ _ _ (grep_none P h T) HF Hp Hq) as [Hh1 Ht2].
      rewrite Hh1, Ht2 in *. destruct (INSERT_stores n kvs1 kvs2 k v Hr Hv Hs Hroom) as [Hr' Hv'].
      exists 1%nat. apply null_grep; try done; [exact (stores_node_null_children _ _ _ _ _ _ _ Hh HF)| |exact (index_leaf P n Hidx Hlf)].
      cbn [INSERT rep_size]. rewrite Hs. simpl. arr_len. lia. }
    all: destruct (stores_node_bounds _ _ _ _ _ kvs1 kvs2 _ (left n) (right n) Hh) as [-> ->]; rewrite Hlo, Hhi.
    all: assert (1 ≤ T) as HT by
      (revert Hsize; arr_len; pose proof (len_nonneg (heads ls1 kvs1)); pose proof (len_nonneg (tails kvs2 ls2)); lia).
    all: exists (S (max h 1)); eapply add_child; try done; try by apply new_child_grep.
    all: intros Hlf'; first [lia|congruence].
Defined.

(** ** The map of a tree *)

Lemma used_in k vd l : Forall used l → (k, vd) ∈ l → accesses vd ≠ 0.
Proof. rewrite Forall_forall. intros Hu Hin. exact (Hu _ Hin). Qed.

Lemma find_edits k l l' r : edits (find_visit P) k [] l l' r → Forall used l →
  alive_map l' = alive_map l ∧ r = default (no_value_ P) (alive_map l !! k).
Proof.
  intros He Hu. eapply edits_find; [done|done|]. intros vd Hvd%used_in; [|done]. unfold gsat_val. cbn [find_visit on_key].
  destruct (Z.ltb_spec (accesses vd) 0); cbn [fst snd accesses value]; zbool; try lia; done.
Qed.

Lemma insert_edits k v l l' r : edits (insert_visit P k v) k [entry_of k v] l l' r → Forall used l →
  alive_map l' = inserted k v (alive_map l) ∧ r = default (no_value_ P) (alive_map l !! k).
Proof.
  intros He Hu. eapply edits_insert; [done|by eexists|]. intros vd Hvd%used_in; [|done]. unfold gsat_val. cbn [insert_visit on_key].
  destruct (Z.ltb_spec (accesses vd) 0); cbn [fst snd accesses value]; zbool; try lia; done.
Qed.

Lemma delete_edits k l l' r : edits (delete_visit P) k [] l l' r → Forall used l →
  alive_map l' = delete k (alive_map l) ∧ r = default (no_value_ P) (alive_map l !! k).
Proof.
  intros He Hu. eapply edits_delete; [done|done|]. intros vd Hvd%used_in; [|done]. unfold gsat_val. cbn [delete_visit on_key].
  destruct (Z.ltb_spec 0 (accesses vd)); cbn [fst snd accesses value]; zbool; try lia; done.
Qed.

(** ** The methods *)

Definition valued (e : entry) : Prop := value e.2 ≠ no_value_ P.

(** [total_asize] of all nodes, and the accesses of all entries together, are at most [T]. *)
Definition gsat_represents (T : Z) (root_ : Node) (m : gmap Z V) : Prop := ∃ h l,
  grep h T (Some root_) (left_ P) (right_ P) l ∧ ksorted l ∧ in_range (left_ P) (right_ P) l ∧
  tame T l ∧ Forall valued l ∧ m = alive_map l.

Lemma CreateRoot_map : gsat_represents 0 (CreateRoot P) ∅.
Proof.
  exists 1%nat, []. split; [by apply CreateRoot_grep|]. split; [apply ksorted_nil|]. split; [intros k Hk; set_solver|]. done.
Qed.

Lemma visit_root_ok v k added T root_ m `{!VisitOk v k added} : gsat_represents T root_ m → left_ P ≤ k < right_ P →
  0 ≤ T → T + 1 < 2 ^ 31 → Forall valued added →
  (∀ vd, value vd ≠ no_value_ P → value (on_key v vd).1 ≠ no_value_ P) →
  ∃ l y result root', Forall used l ∧ m = alive_map l ∧ edits v k added l y result ∧
    visit_root P v k root_ = Ok (result, root') ∧ gsat_represents (T + 1) root' (alive_map y).
Proof.
  intros (h & l & Hg & Hs & Hin & Hu & Hv & ->) Hk HT HT2 Hadd Hkey. unfold visit_root.
  assert (0 ≤ len added ≤ 1) as Hlen by (destruct (added_adds v k added) as [->|(vd & ->)]; done).
  destruct (walk_ok v k added (gsat_levels root_) h T T true false root_ (left_ P) (right_ P) l)
    as (result & c & h' & l' & y & -> & Hc & He & Ht & Hne); try done; [lia|].
  destruct c as [root'|]; [|by destruct (Hne eq_refl)]. exists l, y, result, root'.
  split; [by destruct Hu|]. split; [done|]. split; [done|]. split; [done|].
  exists h', l'. split; [eapply grep_mono; [..|exact Hc]; [done|lia]|].
  split; [eapply trim_sorted; [done|by apply (edits_sorted _ _ _ (added_adds v k added) He)]|].
  split; [intros k' Hk'; by eapply edits_in_range; [..|by eapply trim_keys]|].
  split; [eapply tame_trim; [done|by eapply edits_tame]|].
  split; [eapply trim_Forall; [done|by exact (edits_Forall valued _ _ _ He Hadd Hkey Hv)]|].
  unfold Lazy.alive_map. by rewrite (alive_trim _ _ Ht).
Qed.

Lemma gsat_represents_mono T T' root_ m : T ≤ T' → gsat_represents T root_ m → gsat_represents T' root_ m.
Proof.
  intros HT (h & l & Hg & Hs & Hin & [Hu Ha] & H). exists h, l. split; [by eapply grep_mono; [..|exact Hg]|].
  split; [done|]. split; [done|]. split; [|done]. split; [done|lia].
Qed.

Lemma gsat_Find_ok k T root_ m : gsat_represents T root_ m → left_ P ≤ k < right_ P → 0 ≤ T → T + 1 < 2 ^ 31 →
  ∃ root', gsat_Find P k root_ = Ok (default (no_value_ P) (m !! k), root') ∧ gsat_represents (T + 1) root' m.
Proof.
  intros Hr Hk HT HT2.
  destruct (visit_root_ok (find_visit P) k [] T root_ m Hr Hk) as (l & y & result & root' & Hu & -> & He & Hw & Hr');
    [done|done|done|intros vd Hvd; simpl; by destruct (accesses vd <? 0)|].
  destruct (find_edits _ _ _ _ He Hu) as [Hm ->]. exists root'. split; [done|]. by rewrite Hm in Hr'.
Qed.

Lemma gsat_Insert_ok k v T root_ m : gsat_represents T root_ m → left_ P ≤ k < right_ P → v ≠ no_value_ P → 0 ≤ T →
  T + 1 < 2 ^ 31 →
  ∃ root', gsat_Insert P k v root_ = Ok (default (no_value_ P) (m !! k), root') ∧
    gsat_represents (T + 1) root' (inserted k v m).
Proof.
  intros Hr Hk Hv HT HT2. unfold gsat_Insert.
  assert ((left root_ <=? k) && (k <? right root_) = true) as ->.
  { destruct Hr as ([|h] & l & Hg & _); [done|]. destruct Hg as (kvs & cs & ls & _ & -> & -> & _). lia. }
  destruct (visit_root_ok (insert_visit P k v) k [entry_of k v] T root_ m Hr Hk) as (l & y & result & root' & Hu & -> & He & Hw & Hr');
    [done|done|by constructor|intros vd Hvd; simpl; by destruct (accesses vd <? 0)|].
  destruct (insert_edits _ _ _ _ _ He Hu) as [Hm ->]. exists root'. split; [done|]. by rewrite Hm in Hr'.
Qed.

Lemma gsat_Delete_ok k T root_ m : gsat_represents T root_ m → left_ P ≤ k < right_ P → 0 ≤ T → T + 1 < 2 ^ 31 →
  ∃ root', gsat_Delete P k root_ = Ok (default (no_value_ P) (m !! k), root') ∧ gsat_represents (T + 1) root' (delete k m).
Proof.
  intros Hr Hk HT HT2.
  destruct (visit_root_ok (delete_visit P) k [] T root_ m Hr Hk) as (l & y & result & root' & Hu & -> & He & Hw & Hr');
    [done|done|done|intros vd Hvd; simpl; by destruct (0 <? accesses vd)|].
  destruct (delete_edits _ _ _ _ He Hu) as [Hm ->]. exists root'. split; [done|]. by rewrite Hm in Hr'.
Qed.

Lemma gsat_Contains_ok k T root_ m : gsat_represents T root_ m → left_ P ≤ k < right_ P → 0 ≤ T → T + 1 < 2 ^ 31 →
  ∃ root', gsat_Contains P k root_ = Ok (bool_decide (k ∈ dom m), root') ∧ gsat_represents (T + 1) root' m.
Proof.
  intros Hr Hk HT HT2. destruct (gsat_Find_ok k T root_ m Hr Hk HT HT2) as (root' & Hf & Hr'). exists root'. split; [|done].
  unfold gsat_Contains. rewrite Hf. cbn [res_bind]. do 2 f_equal. apply bool_decide_ext. rewrite elem_of_dom.
  destruct (m !! k) as [v|] eqn:Hm; simpl; [|split; [done|by intros []]].
  split; [done|]. intros _. destruct Hr as (h & l & _ & _ & _ & _ & Hv & ->).
  apply alive_map_elem in Hm as (vd & Hin & Hval). rewrite Forall_forall in Hv. specialize (Hv _ Hin).
  unfold gsat_val in Hval. destruct (0 <? accesses vd); [|done]. injection Hval as <-. done.
Qed.

(** ** [Validate] *)

Definition has_value (vd : ValueData V) : bool := bool_decide (value vd ≠ no_value_ P).

Lemma gsat_validate_n_ok fuel h T c lo hi l : grep h T c lo hi l → (if c is Some n then gsat_levels n ≤ fuel else True)%nat →
  ksorted l → in_range lo hi l → lo ≤ hi → Forall valued l → gsat_validate_n P fuel c lo hi = Ok (Some (len (alive l))).
Proof.
  revert h c lo hi l. induction fuel as [|fuel IH]; intros h [n|] lo hi l Hg Hfuel Hs Hin Hlh Hv.
  2, 4: by apply grep_none in Hg as ->.
  { destruct n. simpl in Hfuel. lia. }
  destruct h as [|h]; [done|]. destruct Hg as (kvs & cs & ls & Hh & Hlo & Hhi & _ & _ & Hk & -> & Hsize).
  cbn [gsat_validate_n]. rewrite Hlo, Hhi, !Z.eqb_refl. cbn [andb]. pose proof (kids_len _ _ _ _ _ _ Hk) as [Hls _].
  set (sizes := for_range 0 (rep_size n + 1) _ _).
  assert (sizes = Ok (Some (len (alive (weave ls kvs))))) as ->.
  2: { cbn [res_bind]. pose proof (alive_len (val := gsat_val) (weave ls kvs)). by replace (len (alive (weave ls kvs)) <=? total_asize n) with true by lia. }
  apply (count_loop gsat_val (λ c lo hi l, grep h T c lo hi l ∧ ksorted l ∧ in_range lo hi l ∧ lo ≤ hi ∧ Forall valued l)
    _ _ _ _ _ _ _ _ lo hi Z.leb has_value (λ vd, 0 <? accesses vd)
    (λ i a b, gsat_validate_n P fuel (children n).[i] a b) Hh).
  - eapply kids_strengthen; [exact Hk|]. intros kvs1 kvs2 ls1 lc ls2 x -> -> H1 H2 Hc. rewrite weave_focus in Hs, Hin, Hv by done.
    split; [done|]. split; [by apply ksorted_app in Hs as (_ & (? & _)%ksorted_app & _)|].
    split; [by eapply in_range_child|]. split; [by eapply bounds_ordered|]. by apply Forall_app in Hv as [_ [? _]%Forall_app].
  - intros kvs1 kvs2 ->. apply Z.leb_le. apply kids_focus in Hk as (cs1 & x & cs2 & ls1 & lc & ls2 & -> & -> & Hp & _ & Hq).
    apply kids_pre_len in Hp as [_ H1]. apply kids_post_len in Hq as [_ H2]. rewrite weave_focus in Hs, Hin by done.
    by eapply bounds_ordered.
  - eapply Forall_impl; [eapply weave_Forall; [exact Hls|exact Hv]|]. intros [k vd] Hvd. by apply bool_decide_eq_true.
  - intros vd. unfold gsat_val. by destruct (0 <? accesses vd).
  - intros i lo' hi' lc Hi (Hc & Hsc & Hinc & Hle & Hvc). apply (IH h); try done.
    destruct ((children n).[i]) as [c|] eqn:Hci; [|done]. apply gsat_levels_child in Hci; [lia|done].
Qed.

Lemma gsat_Validate_ok T root_ m : gsat_represents T root_ m → gsat_Validate P root_ = Ok true.
Proof.
  intros (h & l & Hg & Hs & Hin & _ & Hv & _). pose proof (bounds_law P) as Hb. unfold gsat_Validate.
  rewrite (gsat_validate_n_ok _ h T (Some root_) _ _ l); try done. lia.
Qed.

End GSATMap.
