(* ===== verification/GSATKinds.v ===== *)
(** The four self-adjusting trees: [SABT], [SAST], [SALT] and [SAIT]
    ([Benchmark-v700/cpp/gsat/ds/sabt], [sast], [salt] and [sait]).

    Each is [GSAT] with a class of nodes and a [Delimiter]; [traits] has what they
    provide, and [traits_ok] proves that it is what [GSATLaws] needs. So all four
    refine a finite map.

    The square root of [SqrtDelimiter] is that of [Z]: the double one, rounded towards
    zero, is the same for fewer than 2^52 accesses. [id_size_of] is
    [ceil(pow(total_accesses, ALPHA))], where [ALPHA] is set by the build. *)
From S2P Require Import Prelude Double Distributions Assoc Arrays Weave Kids IdIndex GSAT GSATLaws.

(** ** The delimiters *)

Definition ConstantDelimiter (C _total_accesses : Z) : Z := C.

Fixpoint log_delimiter_n (fuel : nat) (pow total_accesses : Z) : Z :=
  match fuel with
  | O => pow
  | S fuel => if Z.shiftl 1 pow <? total_accesses then log_delimiter_n fuel (pow + 1) total_accesses else pow
  end.

(** [1ll << pow] has 63 bits at most. *)
Definition LogDelimiter (total_accesses : Z) : Z := log_delimiter_n 63 0 total_accesses.

Definition SqrtDelimiter (total_accesses : Z) : Z := Z.sqrt total_accesses.

(** ** The nodes *)

Section Nodes.
  Context {V : Type}.
  Implicit Types (n : GSATNode V).

(** [INITIALIZE_LEAF(this)] *)
Definition initialize_leaf n : GSATNode V :=
  {| n with leaf := leaf n && negb (existsb (λ c, if c is Some _ then true else false) (take (Z.to_nat (rep_size n + 1)) (children n))) |}.

Definition SABT_Search n (key : Z) : Z := bsearch (rep n) key (-1) (rep_size n).

Definition SAST_Search n (key : Z) : Z := if (rep_size n =? 0) || (key <=? (rep n).[0]) then 0 else 1.

Definition SAIT_Search n (key : Z) : Z :=
  id_search (left n) (right n) (rep n) (rep_size n) (id n) key.

Definition SAIT_Complete (id_size_of : Z → Z) n (total_accesses : Z) : GSATNode V :=
  let n := initialize_leaf n in
  if leaf n then n else {| n with id := Some (BUILD_ID (left n) (right n) (rep n) (rep_size n) (id_size_of total_accesses)) |}.

End Nodes.

(** ** The trees *)

Inductive gsat_kind :=
  | SABT (kMinKeys : Z)
  | SAST
  | SALT (leaf_size : Z)
  | SAIT (leaf_size : Z) (id_size_of : Z → Z).

(** What the constructors check; and the index of [SAIT] is not empty and its arithmetic
    does not overflow, for as many accesses as an [int] counts. *)
Definition kind_ok (kind : gsat_kind) (left_ right_ : Z) : Prop :=
  match kind with
  | SABT kMinKeys => 0 < kMinKeys
  | SAST => True
  | SALT leaf_size => 0 < leaf_size
  | SAIT leaf_size id_size_of => 0 < leaf_size ∧ ∀ total, 1 ≤ total < 2 ^ 31 → id_fits left_ right_ (id_size_of total)
  end.

Definition GetMaxKeys (min_keys : Z) : Z := 2 * min_keys.

Section Traits.
  Context {V : Type}.
  Variables (kind : gsat_kind) (CP : ClearPolicy) (no_value_ : V) (left_ right_ : Z).
  Variables (min_rebuild_bound : Z) (rebuild_factor : double) (unspecified : double → Z).

Definition traits : GSATTraits V := {|
  array_size c := match kind with SABT kMinKeys => GetMaxKeys kMinKeys | SAST => 1 | SALT _ | SAIT _ _ => c end;
  NodeSearch := match kind with SAST => SAST_Search | SAIT _ _ => SAIT_Search | _ => SABT_Search end;
  NodeComplete :=
    match kind with SAIT _ id_size_of => SAIT_Complete id_size_of | _ => λ n _, initialize_leaf n end;
  delimiter_ :=
    match kind with
    | SABT kMinKeys => ConstantDelimiter (GetMaxKeys kMinKeys)
    | SAST => ConstantDelimiter 1
    | SALT _ => LogDelimiter
    | SAIT _ _ => SqrtDelimiter
    end;
  GSAT.CP := CP;
  GSAT.no_value_ := no_value_;
  GSAT.left_ := left_;
  GSAT.right_ := right_;
  leaf_size_ :=
    match kind with SABT kMinKeys => GetMaxKeys kMinKeys | SAST => 1 | SALT leaf_size | SAIT leaf_size _ => leaf_size end;
  min_rebuild_bound_ := min_rebuild_bound;
  rebuild_factor_ := rebuild_factor;
  GSAT.unspecified := unspecified
|}.

End Traits.

(** ** The laws *)

Lemma log_delimiter_n_le fuel pow total : pow ≤ log_delimiter_n fuel pow total.
Proof.
  revert pow. induction fuel as [|fuel IH]; intros pow; simpl; [lia|]. destruct (_ <? _); [|lia]. specialize (IH (pow + 1)). lia.
Qed.

Lemma LogDelimiter_pos total : 2 ≤ total → 1 ≤ LogDelimiter total.
Proof.
  intros Ht. unfold LogDelimiter. change 63%nat with (S 62). generalize 62%nat as fuel. intros fuel. cbn [log_delimiter_n].
  replace (Z.shiftl 1 0 <? total) with true by (change (Z.shiftl 1 0) with 1; lia). apply log_delimiter_n_le.
Qed.

Section TraitsOk.
  Context {V : Type} `{EqDecision V}.
  Implicit Types (n : GSATNode V) (kvs : list (Z * ValueData V)) (cs : list (option (GSATNode V))).

Definition kind_index_ok n : Prop := match id n with None => True | Some id => leaf n = false ∧ id_ok (left n) (right n) (rep n) (rep_size n) id end.

Lemma kind_index_ext n n' : left n = left n' → right n = right n' → rep n = rep n' → rep_size n = rep_size n' →
  id n = id n' → leaf n = leaf n' → kind_index_ok n → kind_index_ok n'.
Proof.
  intros Hl Hr Hrep Hs Hid Hleaf. unfold kind_index_ok. rewrite <-Hid, <-Hleaf. destruct (id n) as [a|]; [|done].
  by rewrite Hl, Hr, Hrep, Hs.
Qed.

Lemma SABT_Search_ok (P : GSATTraits V) n kvs cs k : gsat_holds P n kvs cs → ksorted kvs →
  first_ge (rep n) k (rep_size n) (SABT_Search n k).
Proof.
  intros Hh Hs. pose proof Hh as (_ & _ & _ & _ & Hsz & _). pose proof (len_nonneg kvs).
  apply bsearch_correct; [by eapply stores_node_sorted|lia..].
Qed.

Lemma SAIT_Search_ok (P : GSATTraits V) n kvs cs k : gsat_holds P n kvs cs → ksorted kvs → kind_index_ok n →
  left n ≤ k < right n → first_ge (rep n) k (rep_size n) (SAIT_Search n k).
Proof.
  intros Hh Hs Hidx Hk. apply id_search_ok; [|done| |by eapply stores_node_sorted].
  - unfold kind_index_ok in Hidx. destruct (id n); [apply Hidx|done].
  - destruct Hh as (_ & _ & _ & _ & -> & _). apply len_nonneg.
Qed.

Lemma SAST_Search_ok n k : 0 ≤ rep_size n ≤ 1 → first_ge (rep n) k (rep_size n) (SAST_Search n k).
Proof.
  intros Hs. unfold SAST_Search. destruct (Z.eqb_spec (rep_size n) 0) as [->|]; cbn [orb]; [split; [lia|split; lia]|].
  replace (rep_size n) with 1 by lia. destruct (Z.leb_spec k ((rep n).[0])); (split; [lia|split; intros i Hi]); replace i with 0 by lia; lia.
Qed.

Lemma initialize_leaf_ok (P : GSATTraits V) n kvs cs : gsat_holds P n kvs cs → leaf n = true →
  initialize_leaf n = {| n with leaf := forallb (λ c, if c is Some _ then false else true) cs |}.
Proof.
  intros (_ & _ & _ & (j & Hj) & Hs & Hc) Hleaf. unfold initialize_leaf. rewrite Hleaf. cbn [andb].
  assert (take (Z.to_nat (rep_size n + 1)) (children n) = cs) as ->.
  { rewrite Hj, Hs. apply take_app_length'. unfold len in *. lia. }
  f_equal. clear. induction cs as [|[c|] cs IH]; [done..|]. simpl. by rewrite IH.
Qed.

Section Instance.
  Context (kind : gsat_kind) (CP : ClearPolicy) (no_value_ : V) (left_ right_ : Z).
  Context (min_rebuild_bound : Z) (rebuild_factor : double) (unspecified : double → Z).
  Context (Hkind : kind_ok kind left_ right_) (Hbounds : left_ < right_).

Abbreviation P := (traits kind CP no_value_ left_ right_ min_rebuild_bound rebuild_factor unspecified).

Lemma kind_search n kvs cs k : gsat_holds P n kvs cs → ksorted kvs → kind_index_ok n → left n ≤ k < right n →
  first_ge (rep n) k (rep_size n) (NodeSearch P n k).
Proof.
  intros Hh Hs Hidx Hk. pose proof Hh as (Hr & _ & _ & _ & Hsz & _). pose proof (len_nonneg kvs).
  apply stores_len in Hr. rewrite len_fmap in Hr. unfold GetCapacity in Hr.
  destruct kind; cbn [traits NodeSearch array_size] in *; [by eapply SABT_Search_ok| |by eapply SABT_Search_ok|by eapply SAIT_Search_ok].
  apply SAST_Search_ok. lia.
Qed.

Lemma kind_complete n kvs cs total : gsat_holds P n kvs cs → ksorted kvs → id n = None → leaf n = true →
  left_ ≤ left n → left n < right n → right n ≤ right_ → 1 ≤ total < 2 ^ 31 →
  ∃ index, NodeComplete P n total = {| n with leaf := forallb (λ c, if c is Some _ then false else true) cs; id := index |} ∧
    kind_index_ok (NodeComplete P n total).
Proof.
  intros Hh Hs Hid Hleaf Hlow Hlr Hhigh Htotal. pose proof (initialize_leaf_ok P n kvs cs Hh Hleaf) as Hinit.
  assert (∃ index, initialize_leaf n = {| n with leaf := forallb (λ c, if c is Some _ then false else true) cs; id := index |} ∧
    kind_index_ok (initialize_leaf n)) as Hplain.
  { exists (id n). rewrite Hinit. split; [done|]. unfold kind_index_ok. cbn [id]. by rewrite Hid. }
  destruct kind; cbn [traits NodeComplete]; [exact Hplain..|]. unfold SAIT_Complete. rewrite Hinit in Hplain |- *.
  cbn [leaf]. destruct (forallb _ cs) eqn:Hcs; [exact Hplain|]. cbn [rep rep_size left right]. eexists. split; [reflexivity|].
  split; [done|]. apply BUILD_ID_ok; cbn [left right rep_size];
    [by apply (id_fits_within left_ right_); [apply Hkind|..]| |].
  - destruct Hh as (_ & _ & _ & _ & -> & _). apply len_nonneg.
  - by eapply stores_node_sorted.
Qed.

#[export] Instance traits_ok : GSATTraitsOk P.
Proof.
  refine {| index_ok := kind_index_ok |}.
  - intros n Hid. unfold kind_index_ok. by rewrite Hid.
  - intros n n' H1 H2 H3 H4 H5 H6. by apply kind_index_ext.
  - intros n Hidx Hleaf. unfold kind_index_ok in Hidx. destruct (id n); [|done]. destruct Hidx. congruence.
  - apply kind_search.
  - apply kind_complete.
  - destruct kind; cbn [traits leaf_size_ array_size kind_ok] in *; unfold GetMaxKeys; lia.
  - intros total Htotal. destruct kind; cbn [traits delimiter_ array_size kind_ok] in *; unfold ConstantDelimiter, GetMaxKeys; try lia.
    + pose proof (LogDelimiter_pos total Htotal). lia.
    + unfold SqrtDelimiter. pose proof (Z.sqrt_le_mono 1 total ltac:(lia)). change (Z.sqrt 1) with 1 in *. lia.
  - done.
Defined.

End Instance.

End TraitsOk.
