(* ===== verification/GSATTree.v ===== *)
(** The self-adjusting search trees refine a finite map.

    Sequences of the operations of [BoundedTree] on a tree of [GSATKinds]. *)
From S2P Require Import Prelude Double Distributions Assoc SearchTree BoundedTree IdIndex GSAT GSATLaws GSATMap GSATKinds.

Section GSATTree.
  Context {V : Type} `{EqDecision V} (P : GSATTraits V).

Definition gsat_tree `{TO : GSATTraitsOk V P} : BoundedTree (GSATNode V) V (no_value_ P) (left_ P) (right_ P).
Proof.
  refine {| bt_new := CreateRoot P; bt_Find := gsat_Find P; bt_Contains := gsat_Contains P; bt_Insert := gsat_Insert P;
    bt_Delete := gsat_Delete P; bt_represents _ := gsat_represents |}; intros Q.
  - apply CreateRoot_map.
  - intros n n' t m. apply gsat_represents_mono.
  - intros n k t m. apply gsat_Find_ok.
  - intros n k t m. apply gsat_Contains_ok.
  - intros n k v t m Hr Hk _. by apply gsat_Insert_ok.
  - intros n k t m. apply gsat_Delete_ok.
Defined.

End GSATTree.

(** C30. Each of the self-adjusting trees refines a finite map, whatever its clear policy,
    rebuild bound and rebuild factor. (For [SAIT]: when the size that [pow] gives the
    index of fewer than 2^31 accesses is positive and fits [int], and its product with
    the length of [[left, right)] fits [int64_t], as it does for intervals of at most
    2^32 keys.) Any sequence of fewer than 2^31 inserts, removals,
    searches and membership tests of keys of [[left, right)] on a new tree returns what
    the operations on a map return, through every rebuild that they cause: all loops
    and recursions end, no null pointer is used and no array is left. [Validate] accepts
    the tree that results. *)
Theorem gsat_refines_map {V : Type} `{EqDecision V} kind CP (no_value_ : V) left_ right_ min_rebuild_bound rebuild_factor
    unspecified (os : list (tree_op V)) (Hkind : kind_ok kind left_ right_) (Hb : left_ < right_) :
  let P := traits kind CP no_value_ left_ right_ min_rebuild_bound rebuild_factor unspecified in
  let TO := traits_ok kind CP no_value_ left_ right_ min_rebuild_bound rebuild_factor unspecified Hkind Hb in
  Forall (bounded_op_ok no_value_ left_ right_) os → len os < 2 ^ 31 →
  ∃ root_, bounded_run (BT := gsat_tree P) os (CreateRoot P) = Ok ((map_run (no_value_ := no_value_) os ∅).1, root_) ∧
    gsat_Validate P root_ = Ok true.
Proof.
  intros P TO Hos Hlen. destruct (bounded_new_ok (BT := gsat_tree P) os Hos Hlen) as (root_ & Hrun & Hr).
  exists root_. split; [exact Hrun|exact (gsat_Validate_ok _ _ _ Hr)].
Qed.

(** An [SAIT] that is rebuilt, with its index, after the third operation and later. *)
Definition sait_example : GSATTraits Z :=
  traits (SAIT 1 (λ total, Z.sqrt total + 1)) kRapid (-1) 0 100 2 (d_lit 1 4) (λ _, 0).

Definition sait_ops : list (tree_op Z) :=
  [TInsert 50 5; TInsert 20 2; TInsert 70 7; TFind 20; TInsert 10 1; TDelete 50; TInsert 20 3; TContains 50; TFind 70;
   TInsert 90 9; TInsert 60 6; TContains 10; TInsert 50 8; TFind 50].

Lemma sait_example_ok : kind_ok (SAIT 1 (λ total, Z.sqrt total + 1)) 0 100.
Proof.
  split; [lia|]. intros total Ht. cbn beta. pose proof (Z.sqrt_nonneg total).
  pose proof (Z.sqrt_lt_square total (2 ^ 16) ltac:(lia) ltac:(lia)) as Hs. unfold id_fits. lia.
Defined.

Definition sait_bounds : 0 < 100 := eq_refl.

Lemma gsat_refines_map_witness :
  ∃ root_, bounded_run (BT := gsat_tree sait_example (TO := traits_ok _ _ _ _ _ _ _ _ sait_example_ok sait_bounds)) sait_ops
      (CreateRoot sait_example) =
    Ok ([TValue (-1); TValue (-1); TValue (-1); TValue 2; TValue (-1); TValue 5; TValue 2; TBool false; TValue 7;
         TValue (-1); TValue (-1); TBool true; TValue (-1); TValue 8], root_) ∧ gsat_Validate sait_example root_ = Ok true.
Proof.
  apply (gsat_refines_map (SAIT 1 (λ total, Z.sqrt total + 1)) kRapid (-1) 0 100 2 (d_lit 1 4) (λ _, 0) sait_ops sait_example_ok sait_bounds).
  - repeat constructor; cbn; lia.
  - done.
Defined.
