(* ===== verification/IST.v ===== *)
(** The interpolation search tree of SetBench
    ([Benchmark-v700/cpp/gsat/ds/ist/ist.h] and [ist_node.h]).

    A node with a square root of the keys of its subtree as its own keys, and an index
    ([IdIndex]) that finds the place of a key by interpolation. A removal marks the
    entry; a node counts the insertions and removals that pass it, and when there are
    more than its bound the subtree is built anew without the marked entries. As in
    [GSAT], a child is a part of its parent's value. [ISTLaws] proves the operations
    correct. *)
From S2P Require Import Prelude Double Distributions Assoc Arrays IdIndex.

(** ** Nodes *)

Record ISTValueData (V : Type) := { ist_value : V; marked : bool }.
Arguments ist_value {V}. Arguments marked {V}.

Inductive ISTNode (V : Type) := {
  rep : list Z;
  value_data : list (ISTValueData V);
  children : list (option (ISTNode V));
  id : option (list Z);
  left : Z;
  right : Z;
  rep_size : Z;
  capacity : Z;
  total_asize : Z;
  rebuild_bound : Z;
  counter : Z
}.
Arguments rep {V}. Arguments value_data {V}. Arguments children {V}. Arguments id {V}. Arguments left {V}.
Arguments right {V}. Arguments rep_size {V}. Arguments capacity {V}. Arguments total_asize {V}.
Arguments rebuild_bound {V}. Arguments counter {V}.

(** The constant members of the tree. [id_size_of] is [ceil(pow(size, alpha_))], [unspecified]
    the result of a conversion of a [double] that does not fit. *)
Record ISTParams (V : Type) := {
  no_value_ : V;
  left_ : Z;
  right_ : Z;
  leaf_size_ : Z;
  min_rebuild_bound_ : Z;
  rebuild_factor_ : double;
  id_size_of : Z → Z;
  unspecified : double → Z
}.
Arguments no_value_ {V}. Arguments left_ {V}. Arguments right_ {V}. Arguments leaf_size_ {V}.
Arguments min_rebuild_bound_ {V}. Arguments rebuild_factor_ {V}. Arguments id_size_of {V}. Arguments unspecified {V}.

(** The defaults of the constructor. *)
Definition kLeafSize : Z := 16.
Definition kMinRebuildBound : Z := 100.
Definition kRebuildFactor : double := d_lit 1 4.

Section IST.
  Context {V : Type} `{EqDecision V}.
  Variable P : ISTParams V.

#[local] Instance ist_data_inhabited : Inhabited (ISTValueData V) := populate {| ist_value := no_value_ P; marked := false |}.
Abbreviation Node := (ISTNode V).
Abbreviation entry := (Z * ISTValueData V)%type.

(** [new Node(left, right, capacity, rebuild_bound)] *)
Definition new_ist_node (l r c bound : Z) : Node :=
  {| rep := replicate (Z.to_nat c) 0; value_data := replicate (Z.to_nat c) inhabitant;
     children := replicate (Z.to_nat (c + 1)) None; id := None; left := l; right := r; rep_size := 0; capacity := c;
     total_asize := 0; rebuild_bound := bound; counter := 0 |}.

Definition CreateRoot : Node := new_ist_node (left_ P) (right_ P) (leaf_size_ P) (min_rebuild_bound_ P).

Definition BuildId (n : Node) (size : Z) : Node :=
  {| n with id := Some (BUILD_ID (left n) (right n) (rep n) (rep_size n) size) |}.

Definition ist_Search (n : Node) (key : Z) : Z := id_search (left n) (right n) (rep n) (rep_size n) (id n) key.

Definition ist_KeyFound (n : Node) (index key : Z) : bool := negb (index =? rep_size n) && ((rep n).[index] =? key).

(** [Count()] *)
Definition ist_Count (n : Node) : Node * bool :=
  let n := {| n with counter := counter n + 1 |} in (n, rebuild_bound n <? counter n).

(** [ISTNode::Insert] *)
Definition node_insert (n : Node) (index key : Z) (v : V) : Node :=
  {| n with rep := insert_at (rep n) index (rep_size n) key;
            value_data := insert_at (value_data n) index (rep_size n) {| ist_value := v; marked := false |};
            rep_size := rep_size n + 1 |}.

Definition ist_set_child (n : Node) (index : Z) (c : option Node) : Node :=
  {| n with children := (children n).[index <- c] |}.

(** The levels of a tree. *)
Fixpoint ist_levels (n : Node) : nat :=
  S (foldr (λ c m, max (if c is Some c then ist_levels c else O) m) O (children n)).

(** ** The rebuild *)

(** The entries of [rep] and [value_data], of which [at] are in use. *)
Fixpoint CollectNonMarked (fuel : nat) (n : Node) (es : list entry) : res (list entry) :=
  match fuel with
  | O => OutOfFuel
  | S fuel =>
      let child (index : Z) es := if (children n).[index] is Some c then CollectNonMarked fuel c es else Ok es in
      for_range 0 (rep_size n) (λ index r, res_bind r (λ es,
        let vd := (value_data n).[index] in
        let es := if negb (marked vd) then es ++ [((rep n).[index], vd)] else es in
        child (index + 1) es)) (child 0 es)
  end.

(** A leaf for [size] keys. *)
Definition ist_leaf (es : list entry) (l size left_bound right_bound : Z) : Node :=
  let n := new_ist_node left_bound right_bound (leaf_size_ P) (min_rebuild_bound_ P) in
  for_range 0 size
    (λ index n, {| n with rep := (rep n).[index <- (es.[l + index]).1];
                          value_data := (value_data n).[index <- (es.[l + index]).2] |})
    {| n with total_asize := size; rep_size := size |}.

(** The body of the loop over the [step] keys of a node. [build] is the recursive call. *)
Definition ist_round (build : Z → Z → Z → Z → res (option Node)) (es : list entry) (l step left_bound index : Z) (n : Node) :
    res Node :=
  let child_left := l + index * step in
  let child_right := l + (index + 1) * step - 1 in
  let n := {| n with rep := (rep n).[index <- (es.[child_right]).1];
                     value_data := (value_data n).[index <- (es.[child_right]).2] |} in
  let child_left_bound := if index =? 0 then left_bound else (rep n).[index - 1] in
  let child_right_bound := (rep n).[index] in
  res_bind (build child_left child_right child_left_bound child_right_bound) (λ c, Ok (ist_set_child n index c)).

Fixpoint BuildIdealTree (fuel : nat) (es : list entry) (l r left_bound right_bound : Z) : res (option Node) :=
  let size := r - l in
  if size <=? 0 then Ok None
  else if size <=? leaf_size_ P then Ok (Some (ist_leaf es l size left_bound right_bound))
  else
    match fuel with
    | O => OutOfFuel
    | S fuel =>
        let rebuild_bound := Z.max (min_rebuild_bound_ P)
          (convert (unspecified P) 32 d_trunc (rebuild_factor_ P *ᵈ d_of_Z size)) in
        let step := Z.sqrt size in
        let n := new_ist_node left_bound right_bound step rebuild_bound in
        let n := {| n with total_asize := size; rep_size := step |} in
        res_bind
          (for_range 0 step (λ index r, res_bind r (ist_round (BuildIdealTree fuel es) es l step left_bound index)) (Ok n))
          (λ n, res_bind (BuildIdealTree fuel es (l + step * step) r (rep n).[step - 1] right_bound) (λ c,
            Ok (Some (BuildId (ist_set_child n step c) (id_size_of P size)))))
    end.

(** [is_root] is [node == root_]. *)
Definition RebuildTree (is_root : bool) (n : Node) : res (option Node) :=
  res_bind (CollectNonMarked (ist_levels n) n []) (λ es,
    if total_asize n <? len es then Undefined
    else
      res_bind (BuildIdealTree (length es) es 0 (len es) (left n) (right n)) (λ result,
        Ok (if result is None then if is_root then Some CreateRoot else None else result))).

(** ** The way down *)

Fixpoint ist_find_n (fuel : nat) (key : Z) (node : option Node) : res V :=
  match node with
  | None => Ok (no_value_ P)
  | Some n =>
      match fuel with
      | O => OutOfFuel
      | S fuel =>
          let index := ist_Search n key in
          if ist_KeyFound n index key then
            let vd := (value_data n).[index] in Ok (if marked vd then no_value_ P else ist_value vd)
          else ist_find_n fuel key (children n).[index]
      end
  end.

(** What the loops of [Insert] and [Delete] do to a node on the path, to the entry of the
    key, and where the key is missing. *)
Record ISTVisit := {
  ist_on_path : Node → Node;
  ist_on_key : ISTValueData V → ISTValueData V * V;
  ist_on_null : Node → Z → Node
}.

(** The loop with the assignment through [rebuild_node_at] after it. *)
Fixpoint ist_walk (fuel : nat) (v : ISTVisit) (key : Z) (is_root pending : bool) (n : Node) : res (V * option Node) :=
  match fuel with
  | O => OutOfFuel
  | S fuel =>
      let '(n, exceeds) := ist_Count (ist_on_path v n) in
      let done (result : V) (n : Node) :=
        res_bind (if exceeds && negb pending then RebuildTree is_root n else Ok (Some n)) (λ c, Ok (result, c)) in
      let index := ist_Search n key in
      if ist_KeyFound n index key then
        let '(vd, result) := ist_on_key v (value_data n).[index] in
        done result {| n with value_data := (value_data n).[index <- vd] |}
      else
        match (children n).[index] with
        | Some c =>
            res_bind (ist_walk fuel v key false (pending || exceeds) c) (λ '(result, c),
              done result (ist_set_child n index c))
        | None => done (no_value_ P) (ist_on_null v n index)
        end
  end.

Definition ist_add_key (key : Z) (v : V) (n : Node) (index : Z) : Node :=
  if rep_size n <? capacity n then node_insert n index key v
  else
    let l := if index =? 0 then left n else (rep n).[index - 1] in
    let r := if index =? rep_size n then right n else (rep n).[index] in
    let child := new_ist_node l r (leaf_size_ P) (min_rebuild_bound_ P) in
    let child := node_insert child 0 key v in
    let child := {| child with total_asize := s32 (total_asize child + 1); counter := counter child + 1 |} in
    ist_set_child n index (Some child).

Definition ist_insert_visit (key : Z) (v : V) : ISTVisit := {|
  ist_on_path n := {| n with total_asize := s32 (total_asize n + 1) |};
  ist_on_key vd :=
    if marked vd then ({| ist_value := v; marked := false |}, no_value_ P) else (vd, ist_value vd);
  ist_on_null := ist_add_key key v
|}.

Definition ist_delete_visit : ISTVisit := {|
  ist_on_path n := n;
  ist_on_key vd := if negb (marked vd) then ({| vd with marked := true |}, ist_value vd) else (vd, no_value_ P);
  ist_on_null n _ := n
|}.

(** ** Methods *)

Definition ist_visit_root (v : ISTVisit) (key : Z) (root_ : Node) : res (V * Node) :=
  res_bind (ist_walk (ist_levels root_) v key true false root_) (λ '(result, c),
    if c is Some root_ then Ok (result, root_) else Undefined).

Definition ist_Find (key : Z) (root_ : Node) : res V := ist_find_n (ist_levels root_) key (Some root_).

Definition ist_Contains (key : Z) (root_ : Node) : res bool :=
  res_bind (ist_Find key root_) (λ v, Ok (bool_decide (v ≠ no_value_ P))).

Definition ist_Insert (key : Z) (v : V) (root_ : Node) : res (V * Node) :=
  if (left root_ <=? key) && (key <=? right root_) then ist_visit_root (ist_insert_visit key v) key root_ else Undefined.

Definition ist_Delete (key : Z) (root_ : Node) : res (V * Node) := ist_visit_root ist_delete_visit key root_.

(** ** [Validate]: the size, or [None] when a check throws *)

Fixpoint ist_validate_n (fuel : nat) (node : option Node) (l r : Z) : res (option Z) :=
  match node with
  | None => Ok (Some 0)
  | Some n =>
      match fuel with
      | O => OutOfFuel
      | S fuel =>
          if (left n =? l) && (right n =? r) then
            let sizes :=
              for_range 0 (rep_size n + 1) (λ index total, res_bind total (λ total,
                match total with
                | None => Ok None
                | Some total_size =>
                    let child_left := if index =? 0 then l else (rep n).[index - 1] in
                    let child_right := if index =? rep_size n then r else (rep n).[index] in
                    let vd := (value_data n).[index] in
                    if (child_left <? child_right) &&
                       (negb (index <? rep_size n) || bool_decide (ist_value vd ≠ no_value_ P))
                    then
                      let live := if (index <? rep_size n) && negb (marked vd) then 1 else 0 in
                      res_bind (ist_validate_n fuel (children n).[index] child_left child_right) (λ s,
                        Ok (if s is Some s then Some (total_size + live + s) else None))
                    else Ok None
                end)) (Ok (Some 0)) in
            res_bind sizes (λ total,
              Ok (if total is Some t then if t <=? total_asize n then Some t else None else None))
          else Ok None
      end
  end.

Definition ist_Validate (root_ : Node) : res bool :=
  res_bind (ist_validate_n (ist_levels root_) (Some root_) (left_ P) (right_ P)) (λ s,
    Ok (if s is Some _ then true else false)).

End IST.

Arguments ISTVisit V : clear implicits.
