(* ===== verification/ISTLaws.v ===== *)
(** The interpolation search tree: the shape of a tree and its rebuild.

    [irep h T c lo hi l]: [c] is a subtree for the keys of [[lo, hi)] with the entries
    [l] in order, of height [h] at most, whose [total_asize]s are at most [T]. A node
    with room has neither children nor an index. *)
From S2P Require Import Prelude Double Distributions Assoc Arrays Weave Kids Lazy TreeLoops IdIndex IST.

Section ISTLaws.
  Context {V : Type} `{EqDecision V}.
  Variable P : ISTParams V.

(** What the constructor checks, and what [pow] does: for as many keys as an [int]
    counts, the index is not empty and its arithmetic does not overflow. *)
Class ISTParamsOk := {
  leaf_size_law : 1 ≤ leaf_size_ P;
  bounds_law : left_ P < right_ P;
  id_size_law size : 1 ≤ size < 2 ^ 31 → id_fits (left_ P) (right_ P) (id_size_of P size)
}.

Context `{PO : ISTParamsOk}.

#[local] Hint Extern 0 (Inhabited (ISTValueData V)) => exact (ist_data_inhabited P) : typeclass_instances.
Abbreviation Node := (ISTNode V).
Abbreviation entry := (Z * ISTValueData V)%type.
Implicit Types (n : Node) (kvs l es : list entry) (cs : list (option Node)) (ls : list (list entry)) (k : Z).

Definition ist_holds n kvs cs : Prop :=
  stores_node (rep n) (value_data n) (children n) (rep_size n) (capacity n) kvs cs.

Definition ist_index_ok n : Prop := if id n is Some a then id_ok (left n) (right n) (rep n) (rep_size n) a else True.

Definition room_ok n cs : Prop := rep_size n < capacity n → id n = None ∧ Forall (λ c, c = None) cs.

Fixpoint irep (h : nat) (T : Z) (c : option Node) (lo hi : Z) l : Prop :=
  match c with
  | None => l = []
  | Some n =>
      match h with
      | O => False
      | S h => ∃ kvs cs ls, ist_holds n kvs cs ∧ left n = lo ∧ right n = hi ∧ ist_index_ok n ∧ room_ok n cs ∧
          kids (irep h T) lo kvs cs ls hi ∧ l = weave ls kvs ∧ len l ≤ total_asize n ≤ T
      end
  end.

Lemma irep_none h T lo hi l : irep h T None lo hi l ↔ l = [].
Proof. by destruct h. Qed.

Lemma irep_mono h h' T T' c lo hi l : (h ≤ h')%nat → T ≤ T' → irep h T c lo hi l → irep h' T' c lo hi l.
Proof.
  intros Hh HT. revert h' Hh c lo hi l. induction h as [|h IH]; intros h' Hh [n|] lo hi l; [done| |..].
  1,3: by rewrite !irep_none.
  destruct h' as [|h']; [lia|]. intros (kvs & cs & ls & H1 & H2 & H3 & H4 & H5 & Hk & H6 & H7).
  exists kvs, cs, ls. split_and!; try done; [|lia..]. eapply kids_mono; [|exact Hk]. intros. apply (IH h'); [lia|done].
Qed.

Lemma irep_node h T n kvs cs ls lo hi l : ist_holds n kvs cs → left n = lo → right n = hi → ist_index_ok n → room_ok n cs →
  kids (irep h T) lo kvs cs ls hi → l = weave ls kvs → len l ≤ total_asize n ≤ T → irep (S h) T (Some n) lo hi l.
Proof. intros. by exists kvs, cs, ls. Qed.

(** A node without children. *)
Lemma null_irep h T n kvs lo hi : stores (rep n) (capacity n) kvs.*1 → stores (value_data n) (capacity n) kvs.*2 →
  children n = replicate (Z.to_nat (capacity n + 1)) None → rep_size n = len kvs → id n = None →
  left n = lo → right n = hi → len kvs ≤ total_asize n ≤ T → irep (S h) T (Some n) lo hi kvs.
Proof.
  intros Hr Hv Hc Hs Hid Hlo Hhi Hsize. pose proof (stores_node_null _ _ _ _ _ _ Hr Hv Hc Hs) as Hh.
  eapply (irep_node _ _ _ kvs); [exact Hh|done|done| | | |by rewrite weave_kids_null|done].
  - unfold ist_index_ok. by rewrite Hid.
  - intros _. split; [done|by apply Forall_replicate].
  - apply kids_null; [by intros; apply irep_none|by apply Forall_replicate|unfold len; rewrite length_replicate; lia|].
    by rewrite length_replicate.
Qed.

Lemma CreateRoot_irep T : 0 ≤ T → irep 1 T (Some (CreateRoot P)) (left_ P) (right_ P) [].
Proof. intros HT. pose proof leaf_size_law. apply null_irep; try done; (apply stores_new; simpl; lia). Qed.

(** The key is found, or belongs into the child at the index. *)
Lemma ist_search n kvs cs k : ist_holds n kvs cs → ksorted kvs → ist_index_ok n → left n ≤ k < right n →
  ∃ kvs1 kvs2, kvs = kvs1 ++ kvs2 ∧ ist_Search n k = len kvs1 ∧ below k kvs1 ∧
    ((∃ vd kvs2', kvs2 = (k, vd) :: kvs2' ∧ ist_KeyFound n (ist_Search n k) k = true) ∨
     (above k kvs2 ∧ ist_KeyFound n (ist_Search n k) k = false)).
Proof.
  intros Hh Hs Hi Hk.
  destruct (stores_node_search _ _ _ _ _ _ _ k (ist_Search n k) Hh Hs) as (kvs1 & kvs2 & H); [|by exists kvs1, kvs2].
  apply id_search_ok; [done|done| |by eapply stores_node_sorted].
  destruct Hh as (_ & _ & _ & _ & -> & _). apply len_nonneg.
Qed.

Lemma ist_levels_child n c i : (children n).[i] = Some c → 0 ≤ i → (ist_levels c < ist_levels n)%nat.
Proof.
  intros Hc Hi. assert (Some c ∈ children n) as Hin.
  { unfold get in Hc. rewrite list_lookup_total_alt in Hc. destruct (children n !! Z.to_nat i) as [x|] eqn:Hx; simpl in Hc; [|done].
    subst x. by apply list_elem_of_lookup_2 in Hx. }
  clear Hc. destruct n. simpl in *. clear -Hin. revert Hin. generalize children. intros cs Hin. induction cs as [|x cs IH]; [set_solver|].
  simpl. apply elem_of_cons in Hin as [<-|Hin]; [lia|]. specialize (IH Hin). lia.
Qed.

(** ** [CollectNonMarked] *)

Definition ist_val (vd : ISTValueData V) : option V := if marked vd then None else Some (ist_value vd).

Definition unmarked l : list entry := kept (λ vd, negb (marked vd)) l.

Lemma unmarked_trim l : trim ist_val l (unmarked l).
Proof. apply kept_trim. intros vd v. unfold ist_val. by destruct (marked vd). Qed.

Lemma ist_collect_ok fuel h T n lo hi l es : irep h T (Some n) lo hi l → (ist_levels n ≤ fuel)%nat →
  CollectNonMarked P fuel n es = Ok (es ++ unmarked l).
Proof.
  revert h n lo hi l es. induction fuel as [|fuel IH]; intros [|h] n lo hi l es Hg Hfuel; [done|destruct n; simpl in Hfuel; lia|done|].
  destruct Hg as (kvs & cs & ls & Hh & _ & _ & _ & _ & Hk & -> & _). cbn [CollectNonMarked].
  apply (collect_loop (irep h T) _ _ _ _ _ _ _ _ _ _ (λ vd, negb (marked vd))
    (λ i es, if (children n).[i] is Some c then CollectNonMarked P fuel c es else Ok es) es Hh Hk).
  intros i lo' hi' l es' Hi Hc. destruct ((children n).[i]) as [c|] eqn:Hci.
  - apply ist_levels_child in Hci; [|done]. eapply IH; [exact Hc|lia].
  - apply irep_none in Hc. subst. by rewrite app_nil_r.
Qed.

(** ** [BuildIdealTree] *)

Lemma ist_leaf_ok T es a s b lo hi : es = a ++ s ++ b → len s ≤ leaf_size_ P → len s ≤ T →
  irep 1 T (Some (ist_leaf P es (len a) (len s) lo hi)) lo hi s.
Proof.
  intros -> Hs HT. pose proof leaf_size_law as Hsize. pose proof (len_nonneg s). unfold ist_leaf.
  set (n0 := new_ist_node P lo hi (leaf_size_ P) (min_rebuild_bound_ P)).
  set (base := {| n0 with total_asize := len s; rep_size := len s |}).
  destruct (copy_entries a s b (rep base) (value_data base) (capacity base)) as (r & vs & Heq & Hr & Hv);
    [apply stores_new; simpl; lia..|done|].
  pose proof (for_range_sim (λ n p, n = {| base with rep := p.1; value_data := p.2 |}) 0 (len s)
    (λ index n, {| n with rep := (rep n).[index <- ((a ++ s ++ b).[len a + index]).1];
                          value_data := (value_data n).[index <- ((a ++ s ++ b).[len a + index]).2] |})
    (λ i '(r, vs), (r.[i <- ((a ++ s ++ b).[len a + i]).1], vs.[i <- ((a ++ s ++ b).[len a + i]).2]))
    base (rep base, value_data base) eq_refl) as Hsim.
  rewrite Heq in Hsim. rewrite Hsim by (by intros i n [r' vs'] ->). cbn [fst snd].
  by apply null_irep.
Qed.

(** The bounds of a subtree; those of the root are the bounds of the tree. *)
Definition ist_root_bounds (is_root : bool) (lo hi : Z) : Prop :=
  (is_root = true → lo = left_ P ∧ hi = right_ P) ∧ left_ P ≤ lo ∧ hi ≤ right_ P.

(** The recursive call is right for at most [m] entries. *)
Definition ist_builds (T : Z) es (m : Z) (build : Z → Z → Z → Z → res (option Node)) : Prop :=
  ∀ a s b lo hi, es = a ++ s ++ b → len s ≤ m → ksorted s → in_range lo hi s → left_ P ≤ lo → hi ≤ right_ P →
    ∃ c h, build (len a) (len a + len s) lo hi = Ok c ∧ irep h T c lo hi s ∧ (s ≠ [] → c ≠ None).

(** After some rounds of the loop: the node, and the entries that are left. *)
Definition building (T : Z) (n0 : Node) (s : list entry) (step lo : Z) (i : Z) (acc : res Node) : Prop :=
  ∃ n kvs cs ls s2 h, acc = Ok n ∧ s = heads ls kvs ++ s2 ∧ len kvs = i ∧ len (heads ls kvs) = i * step ∧
    filled (rep n) (value_data n) (children n) step kvs cs ∧ kids_pre (irep h T) lo kvs cs ls ∧
    n = {| n0 with rep := rep n; value_data := value_data n; children := children n |}.

Lemma filled_last (r : list Z) (vs : list (ISTValueData V)) (c : list (option Node)) cap kvs cs (lo : Z) : filled r vs c cap kvs cs →
  0 < len kvs → r.[len kvs - 1] = last_key lo kvs.
Proof.
  intros (Hr & _) Hpos. destruct kvs as [|[k vd] ka _] using rev_ind; [done|]. rewrite last_key_snoc. pose proof (len_nonneg ka).
  rewrite (stores_get _ _ _ _ Hr) by (rewrite len_fmap; arr_len; lia). rewrite fmap_app, get_app_r by (rewrite len_fmap; arr_len; lia).
  arr_len. rewrite len_fmap. by replace (len ka + (0 + 1) - 1 - len ka) with 0 by lia.
Qed.

Lemma filled_last_key (r : list Z) (vs : list (ISTValueData V)) (c : list (option Node)) cap kvs cs (x lo : Z) : filled r vs c cap kvs cs →
  (if len kvs =? 0 then lo else (r.[len kvs <- x]).[len kvs - 1]) = last_key lo kvs.
Proof.
  intros Hf. pose proof (len_nonneg kvs). destruct (Z.eqb_spec (len kvs) 0) as [He|].
  - assert (kvs = []) as -> by (apply nil_length_inv; unfold len in *; lia). done.
  - rewrite get_set_ne by lia. eapply filled_last; [done|lia].
Qed.

Lemma ist_round_ok T es m build a s b n0 step lo hi (i : Z) acc : ist_builds T es m build → es = a ++ s ++ b → ksorted s →
  in_range lo hi s → left_ P ≤ lo → hi ≤ right_ P → 1 ≤ step → step - 1 ≤ m → 0 ≤ i < step → (i + 1) * step ≤ len s →
  building T n0 s step lo i acc → building T n0 s step lo (i + 1) (res_bind acc (ist_round P build es (len a) step lo i)).
Proof.
  intros Hbuild -> Hs Hin Hlow Hhigh Hstep Hm Hi Hlen (n & kvs & cs & ls & s2 & h & -> & -> & <- & Hl & Hf & Hp & Hn).
  pose proof (len_nonneg kvs). pose proof (kids_pre_len _ _ _ _ _ Hp) as [Hcs Hls].
  pose proof Hs as (_ & Hs2 & _)%ksorted_app.
  assert (in_range (last_key lo kvs) hi s2) as Hin2 by (by eapply in_range_last).
  pose proof (last_key_ge lo hi ls kvs s2 ltac:(lia) Hin) as Hlast.
  rewrite len_app in Hlen. destruct (list_split s2 (step - 1) ltac:(nia)) as (s1 & s2' & -> & Hs1 & Hl2).
  destruct s2' as [|[k vd] s2]; [change (len (@nil entry)) with 0 in Hl2; nia|].
  destruct (in_range_split _ _ _ _ _ _ Hs2 Hin2) as (Hk & Hin1 & _). pose proof Hs2 as (Hsort1 & _)%ksorted_middle.
  cbn [res_bind]. unfold ist_round.
  assert ((a ++ (heads ls kvs ++ s1 ++ (k, vd) :: s2) ++ b).[len a + (len kvs + 1) * step - 1] = (k, vd)) as ->.
  { rewrite get_app_r by nia. rewrite <-!app_assoc, get_app_r by nia. rewrite get_app_r by nia.
    by replace (len a + (len kvs + 1) * step - 1 - len a - len (heads ls kvs) - len s1) with 0 by nia. }
  cbn [fst snd rep]. rewrite (filled_last_key _ _ _ _ _ _ k lo Hf), (filled_get _ _ _ _ _ _ k Hf) by lia.
  destruct (Hbuild (a ++ heads ls kvs) s1 ((k, vd) :: s2 ++ b) (last_key lo kvs) k) as (c & h1 & Hb & Hc & _); [by app_norm|lia|done|done|lia|lia|].
  replace (len a + len kvs * step) with (len (a ++ heads ls kvs)) by (arr_len; lia).
  replace (len a + (len kvs + 1) * step - 1) with (len (a ++ heads ls kvs) + len s1) by (arr_len; lia).
  rewrite Hb. cbn [res_bind].
  eexists _, (kvs ++ [(k, vd)]), (cs ++ [c]), (ls ++ [s1]), s2, (max h h1). split; [done|].
  split; [rewrite heads_snoc by done; by app_norm|]. split; [by arr_len|]. split; [rewrite heads_snoc by done; arr_len; lia|].
  split; [apply filled_push; [done|done|lia]|]. split; [|clear -Hn; destruct n, n0; simpl in *; injection Hn; intros; by subst].
  apply kids_pre_snoc; [|eapply irep_mono; [..|exact Hc]; [lia|done]].
  eapply kids_pre_mono; [|exact Hp]. intros. eapply irep_mono; [..|done]; [lia|done].
Qed.

(** All rounds, and the last child. *)
Lemma ist_node_ok T es m build a s b lo hi bound : ist_builds T es m build → es = a ++ s ++ b → ksorted s → in_range lo hi s →
  lo < hi → left_ P ≤ lo → hi ≤ right_ P → 1 ≤ len s → len s ≤ m + 1 → len s ≤ T → T < 2 ^ 31 →
  let step := Z.sqrt (len s) in
  let n0 := new_ist_node P lo hi step bound in
  let n0 := {| n0 with total_asize := len s; rep_size := step |} in
  ∃ n h, res_bind
      (for_range 0 step (λ index r, res_bind r (ist_round P build es (len a) step lo index)) (Ok n0))
      (λ n, res_bind (build (len a + step * step) (len a + len s) (rep n).[step - 1] hi) (λ c,
        Ok (Some (BuildId (ist_set_child n step c) (id_size_of P (len s)))))) = Ok (Some n) ∧ irep h T (Some n) lo hi s.
Proof.
  intros Hbuild -> Hs Hin Hlh Hlow Hhigh Hpos Hm HT HT2 step n0' n0.
  pose proof (Z.sqrt_spec (len s) ltac:(lia)) as Hsqrt. pose proof (Z.sqrt_nonneg (len s)).
  cbv zeta in Hsqrt. assert (1 ≤ step) as Hstep by (unfold step; nia). fold step in Hsqrt.
  assert (step ≤ step * step) by nia. clearbody step.
  assert (building T n0 s step lo step
    (for_range 0 step (λ index r, res_bind r (ist_round P build (a ++ s ++ b) (len a) step lo index)) (Ok n0))) as Hloop.
  { apply (for_range_inv (building T n0 s step lo)); [lia| |].
    - exists n0, [], [], [], s, O. split; [done|]. split; [done|]. split; [done|]. split; [done|].
      split; [apply filled_new; lia|done].
    - intros i acc Hi Hacc. assert ((i + 1) * step ≤ step * step) by (apply Z.mul_le_mono_nonneg_r; lia).
      apply (ist_round_ok T _ m build a s b n0 step lo hi i acc); try done; lia. }
  destruct Hloop as (n & kvs & cs & ls & s2 & h & -> & -> & Hk & Hl & Hf & Hp & Hn). cbn [res_bind].
  pose proof (kids_pre_len _ _ _ _ _ Hp) as [_ Hls]. pose proof Hs as (_ & Hs2 & _)%ksorted_app.
  rewrite <-Hk, (filled_last _ _ _ _ _ _ lo Hf), Hk by lia. rewrite len_app in Hsqrt, Hm, HT |- *.
  destruct (Hbuild (a ++ heads ls kvs) s2 b (last_key lo kvs) hi) as (c & h1 & Hb & Hc & _);
    [by app_norm|nia|done|by eapply in_range_last|pose proof (last_key_ge lo hi ls kvs s2 ltac:(lia) Hin); lia|done|].
  replace (len a + step * step) with (len (a ++ heads ls kvs)) by (arr_len; lia).
  replace (len a + (len (heads ls kvs) + len s2)) with (len (a ++ heads ls kvs) + len s2) by (arr_len; lia).
  rewrite Hb. cbn [res_bind]. eexists _, (S (max h h1)). split; [done|].
  pose proof (filled_finish _ _ _ _ _ _ c step Hf (eq_sym Hk) ltac:(lia)) as Hh.
  assert (ksorted kvs) as Hkvs by (by eapply ksorted_heads).
  assert (rep_size n = step ∧ capacity n = step ∧ left n = lo ∧ right n = hi ∧ total_asize n = len (heads ls kvs ++ s2))
    as (Hrs & Hcap & Hlo & Hhi & Hta) by (rewrite Hn; done).
  eapply (irep_node _ T _ kvs (cs ++ [c]) (ls ++ [s2])); try done.
  - unfold ist_holds. simpl. by rewrite Hrs, Hcap.
  - unfold ist_index_ok. simpl. rewrite Hrs, Hlo, Hhi. apply BUILD_ID_ok; [apply (id_fits_within (left_ P) (right_ P)); [apply id_size_law; lia|lia..]|lia|].
    exact (stores_node_sorted _ _ _ _ _ _ _ Hh Hkvs).
  - unfold room_ok. simpl. lia.
  - rewrite <-(app_nil_r kvs) at 1. apply kids_plug; [|eapply irep_mono; [..|exact Hc]; [lia|done]|done].
    eapply kids_pre_mono; [|exact Hp]. intros. eapply irep_mono; [..|done]; [lia|done].
  - rewrite <-(app_nil_r kvs). rewrite weave_focus by done. unfold tails. simpl. by rewrite !app_nil_r.
  - simpl. rewrite Hta, !len_app. lia.
Qed.

(** The recursion ends: a child has fewer entries. *)
Lemma ist_build_ok T es fuel : len es ≤ T → T < 2 ^ 31 → ist_builds T es (Z.of_nat fuel) (BuildIdealTree P fuel es).
Proof.
  intros HT HT2. pose proof leaf_size_law as Hleaf. induction fuel as [|fuel IH]; intros a s b lo hi Heq Hs Hsort Hin Hlow Hhigh; cbn [BuildIdealTree].
  all: replace (len a + len s - len a) with (len s) by lia; pose proof (len_nonneg a); pose proof (len_nonneg b).
  all: assert (len es = len a + (len s + len b)) as Hles by (rewrite Heq; by arr_len).
  all: destruct (Z.leb_spec (len s) 0); [assert (s = []) as -> by (apply nil_length_inv; unfold len in *; lia); by exists None, O|].
  { lia. }
  assert (s ≠ []) as Hs0 by by intros ->.
  destruct (Z.leb_spec (len s) (leaf_size_ P)).
  - exists (Some (ist_leaf P es (len a) (len s) lo hi)), 1%nat. split; [done|]. split; [|done]. eapply ist_leaf_ok; [exact Heq|done|lia].
  - assert (lo < hi) as Hlh by (destruct s as [|e s]; [done|specialize (Hin e.1 ltac:(set_solver)); lia]).
    destruct (ist_node_ok T es (Z.of_nat fuel) (BuildIdealTree P fuel es) a s b lo hi
      (Z.max (min_rebuild_bound_ P) (convert (unspecified P) 32 d_trunc (rebuild_factor_ P *ᵈ d_of_Z (len s)))) IH Heq Hsort Hin Hlh Hlow Hhigh)
      as (n & h & Hb & Hn); [lia..|]. by exists (Some n), h.
Qed.

(** ** [RebuildTree] *)

Lemma ist_rebuild_ok h T is_root n lo hi l : irep h T (Some n) lo hi l → ksorted l → in_range lo hi l →
  ist_root_bounds is_root lo hi → 0 ≤ T < 2 ^ 31 →
  ∃ c h' l', RebuildTree P is_root n = Ok c ∧ irep h' T c lo hi l' ∧ trim ist_val l l' ∧ (is_root = true → c ≠ None).
Proof.
  intros Hg Hsort Hin (Hroot & Hlow & Hhigh) HT. unfold RebuildTree. rewrite (ist_collect_ok _ _ _ _ _ _ _ [] Hg) by done.
  cbn [res_bind]. rewrite app_nil_l. pose proof (unmarked_trim l) as Ht. set (l' := unmarked l) in *. clearbody l'.
  pose proof (trim_len _ _ Ht) as Hl. destruct h as [|h]; [done|].
  destruct Hg as (kvs & cs & ls & _ & Hlo & Hhi & _ & _ & _ & _ & Hsize). replace (total_asize n <? len l') with false by lia.
  destruct (ist_build_ok T l' (length l') ltac:(lia) ltac:(lia) [] l' [] lo hi) as (c & h' & Hb & Hc & Hne);
    [by rewrite app_nil_r|by unfold len|by eapply trim_sorted|intros k Hk; apply Hin; by eapply trim_keys|done|done|].
  change (len (@nil (Z * ISTValueData V))) with 0 in Hb. rewrite Z.add_0_l in Hb. rewrite Hlo, Hhi, Hb. cbn [res_bind].
  destruct c as [c|]; [by exists (Some c), h', l'|].
  destruct is_root; [|by exists None, h', l'].
  assert (l' = []) as -> by (destruct l'; [done|by destruct (Hne ltac:(done))]).
  destruct (Hroot eq_refl) as [Hlo' Hhi']. exists (Some (CreateRoot P)), 1%nat, []. rewrite Hlo', Hhi'.
  split; [done|]. split; [apply CreateRoot_irep; lia|]. done.
Qed.

End ISTLaws.
