(* ===== verification/ISTMap.v ===== *)
(** The interpolation search tree: the way down and the map.

    [ist_walk_ok] is the law of the loop that [Insert] and [Delete] share, as [walk_ok]
    is in [GSATMap]; [ist_find_n_ok] that of the loop of [Find]. The entries that are not
    marked are the map. *)
From S2P Require Import Prelude Double Distributions Assoc Arrays Weave Kids Lazy TreeLoops IdIndex IST ISTLaws.

Section ISTMap.
  Context {V : Type} `{EqDecision V} {P : ISTParams V} `{PO : ISTParamsOk V P}.

#[local] Hint Extern 0 (Inhabited (ISTValueData V)) => exact (ist_data_inhabited P) : typeclass_instances.
Abbreviation Node := (ISTNode V).
Abbreviation entry := (Z * ISTValueData V)%type.
Implicit Types (n : Node) (kvs l es : list entry) (cs : list (option Node)) (ls : list (list entry)) (k : Z).

Abbreviation trim := (trim ist_val).
Abbreviation alive := (alive ist_val).
Abbreviation alive_map := (alive_map ist_val).

(** ** Nodes *)

(** Some children and the one at the index. *)
Lemma irep_plug h h' T T' n kvs1 kvs2 cs1 c cs2 ls1 l ls2 lo hi : ist_holds n (kvs1 ++ kvs2) (cs1 ++ c :: cs2) →
  left n = lo → right n = hi → ist_index_ok n → room_ok n (cs1 ++ c :: cs2) → (h ≤ h')%nat → T ≤ T' →
  kids_pre (irep h T) lo kvs1 cs1 ls1 → irep h' T' c (last_key lo kvs1) (first_key kvs2 hi) l →
  kids_post (irep h T) kvs2 cs2 ls2 hi → len (heads ls1 kvs1 ++ l ++ tails kvs2 ls2) ≤ total_asize n ≤ T' →
  irep (S h') T' (Some n) lo hi (heads ls1 kvs1 ++ l ++ tails kvs2 ls2).
Proof.
  intros Hh Hlo Hhi Hidx Hroom Hhh HT Hp Hc Hq Hsize. pose proof (kids_pre_len _ _ _ _ _ Hp) as [Hc1 Hl1].
  apply (irep_node _ _ _ (kvs1 ++ kvs2) (cs1 ++ c :: cs2) (ls1 ++ l :: ls2)); try done; [|by rewrite weave_focus].
  apply kids_plug; [|done|].
  - eapply kids_pre_mono; [|exact Hp]. intros. by eapply irep_mono.
  - eapply kids_post_mono; [|exact Hq]. intros. by eapply irep_mono.
Qed.

(** ** Visits *)

Abbreviation edits v := (edits (ist_on_key v) (no_value_ P)).

(** What the parts of a visit promise. *)
Class ISTVisitOk (v : ISTVisit V) k (added : list entry) := {
  ist_added_law : adds k added;
  ist_path_law n : - 2 ^ 31 ≤ total_asize n + len added < 2 ^ 31 →
    ist_on_path v n = {| n with total_asize := total_asize n + len added |};
  ist_null_law h T n kvs1 kvs2 cs1 cs2 ls1 ls2 lo hi : ist_holds n (kvs1 ++ kvs2) (cs1 ++ None :: cs2) →
    left n = lo → right n = hi → ist_index_ok n → room_ok n (cs1 ++ None :: cs2) →
    kids_pre (irep h T) lo kvs1 cs1 ls1 → kids_post (irep h T) kvs2 cs2 ls2 hi →
    len (heads ls1 kvs1 ++ added ++ tails kvs2 ls2) ≤ total_asize n ≤ T →
    ∃ h', irep h' T (Some (ist_on_null v n (len kvs1))) lo hi (heads ls1 kvs1 ++ added ++ tails kvs2 ls2)
}.

Section Walk.
  Context (v : ISTVisit V) (k : Z) (added : list entry) `{VO : !ISTVisitOk v k added}.

Lemma ist_edits_in_range lo hi l l' r : edits v k added l l' r → lo ≤ k < hi → in_range lo hi l → in_range lo hi l'.
Proof. intros He Hk Hin. exact (edits_keys (λ k, lo ≤ k < hi) _ _ _ ist_added_law He (λ _, Hk) Hin). Qed.

(** ** The loop of [Insert] and [Delete] *)

(** A node that has counted enough is built anew, unless one above is. *)
Definition ist_finish (is_root exceeds pending : bool) (result : V) (n : Node) : res (V * option Node) :=
  res_bind (if exceeds && negb pending then RebuildTree P is_root n else Ok (Some n)) (λ c, Ok (result, c)).

Lemma ist_finish_ok h T is_root exceeds pending result n lo hi l : irep h T (Some n) lo hi l →
  ksorted l → in_range lo hi l → ist_root_bounds P is_root lo hi → 0 ≤ T < 2 ^ 31 →
  ∃ c h' l', ist_finish is_root exceeds pending result n = Ok (result, c) ∧ irep h' T c lo hi l' ∧ trim l l' ∧
    (is_root = true → c ≠ None).
Proof.
  intros Hg Hs Hin Hroot HT. unfold ist_finish. destruct (exceeds && negb pending).
  - destruct (ist_rebuild_ok P h T is_root n lo hi l) as (c & h' & l' & -> & H); try done. by exists c, h', l'.
  - exists (Some n), h, l. split; [done|]. split; [done|]. split; [apply trim_refl|done].
Qed.

(** The node as the visit leaves it on the way down. *)
Definition ist_touched n : Node := {| n with total_asize := total_asize n + len added; counter := counter n + 1 |}.

Definition ist_set_entry n (i : Z) (vd : ISTValueData V) : Node := {| n with value_data := (value_data n).[i <- vd] |}.

Lemma ist_walk_step fuel is_root pending n : - 2 ^ 31 ≤ total_asize n + len added < 2 ^ 31 →
  ∃ exceeds, ist_walk P (S fuel) v k is_root pending n =
    let index := ist_Search (ist_touched n) k in
    if ist_KeyFound (ist_touched n) index k then
      ist_finish is_root exceeds pending (ist_on_key v (value_data n).[index]).2
        (ist_set_entry (ist_touched n) index (ist_on_key v (value_data n).[index]).1)
    else
      match (children n).[index] with
      | Some c =>
          res_bind (ist_walk P fuel v k false (pending || exceeds) c) (λ '(result, c),
            ist_finish is_root exceeds pending result (ist_set_child (ist_touched n) index c))
      | None => ist_finish is_root exceeds pending (no_value_ P) (ist_on_null v (ist_touched n) index)
      end.
Proof.
  intros Hr. exists (rebuild_bound n <? counter n + 1). cbn [ist_walk]. rewrite (ist_path_law n Hr). unfold ist_Count.
  cbn [rebuild_bound counter]. cbv zeta. fold (ist_touched n). set (i := ist_Search (ist_touched n) k).
  change (value_data (ist_touched n)) with (value_data n). change (children (ist_touched n)) with (children n).
  destruct (ist_KeyFound _ _ _); [|done]. by destruct (ist_on_key v _).
Qed.

(** The entry of the key in a node. *)
Lemma ist_found_ok h T n lo hi kvs1 vd kvs2 cs ls vd' : let kvs := kvs1 ++ (k, vd) :: kvs2 in
  ist_holds n kvs cs → left n = lo → right n = hi → ist_index_ok n → room_ok n cs → kids (irep h T) lo kvs cs ls hi →
  len (weave ls kvs) ≤ total_asize n ≤ T → ksorted (weave ls kvs) →
  ∃ l1 l2, below k l1 ∧ above k l2 ∧ weave ls kvs = l1 ++ (k, vd) :: l2 ∧
    irep (S h) (T + len added) (Some (ist_set_entry (ist_touched n) (len kvs1) vd')) lo hi (l1 ++ (k, vd') :: l2).
Proof.
  intros kvs Hh Hlo Hhi Hidx Hroom Hk Hsize Hs.
  destruct (weave_entry _ _ _ _ _ _ _ _ _ Hk) as (l1 & l2 & Hw). pose proof (Hw vd) as Hl. fold kvs in Hl. rewrite Hl in Hs, Hsize.
  exists l1, l2. apply ksorted_middle in Hs as (_ & _ & Hb & Ha). split; [done|]. split; [done|]. split; [done|].
  rewrite <-Hw. pose proof (len_nonneg added).
  apply (irep_node h _ _ (kvs1 ++ (k, vd') :: kvs2) cs ls); [|done|done|done|done| |done|].
  - eapply stores_node_set_value; [exact Hh|done].
  - eapply kids_mono; [|by eapply kids_set_value]. intros. eapply irep_mono; [..|done]; [done|lia].
  - rewrite Hw. revert Hsize. arr_len. simpl. lia.
Qed.

(** The child where the key belongs. *)
Lemma ist_child_ok h h' T n lo hi kvs1 kvs2 cs1 c cs2 ls1 l ls2 c' l' y r : ist_holds n (kvs1 ++ kvs2) (cs1 ++ Some c :: cs2) →
  left n = lo → right n = hi → ist_index_ok n → room_ok n (cs1 ++ Some c :: cs2) →
  kids_pre (irep h T) lo kvs1 cs1 ls1 → kids_post (irep h T) kvs2 cs2 ls2 hi →
  len (heads ls1 kvs1 ++ l ++ tails kvs2 ls2) ≤ total_asize n ≤ T →
  irep h' (T + len added) c' (last_key lo kvs1) (first_key kvs2 hi) l' → edits v k added l y r → trim y l' →
  irep (S (max h h')) (T + len added) (Some (ist_set_child (ist_touched n) (len kvs1) c')) lo hi
    (heads ls1 kvs1 ++ l' ++ tails kvs2 ls2).
Proof.
  intros Hh Hlo Hhi Hidx Hroom Hp Hq Hsize Hc He Ht. pose proof (len_nonneg added).
  pose proof (kids_pre_len _ _ _ _ _ Hp) as [Hc1 Hl1].
  apply (irep_plug h (max h h') T _ _ kvs1 kvs2 cs1 c' cs2); try done; [by eapply stores_node_set_child| |lia|lia| |].
  - intros Hr. destruct (Hroom Hr) as [_ HF]. by apply Forall_app in HF as [_ [? _]%Forall_cons].
  - eapply irep_mono; [..|exact Hc]; [lia|done].
  - apply edits_len in He. apply trim_len in Ht. revert Hsize. arr_len. simpl. lia.
Qed.

(** What the loop leaves of a subtree with the entries [l]. *)
Definition ist_walk_post T (is_root : bool) lo hi l (r : res (V * option Node)) : Prop := ∃ result c h' l' y,
  r = Ok (result, c) ∧ irep h' (T + len added) c lo hi l' ∧ edits v k added l y result ∧ trim y l' ∧ (is_root = true → c ≠ None).

Lemma ist_finish_edits T is_root exceeds pending lo hi l result n h y0 y : ksorted l → in_range lo hi l →
  lo ≤ k < hi → 0 ≤ T + len added < 2 ^ 31 → ist_root_bounds P is_root lo hi →
  irep h (T + len added) (Some n) lo hi y → edits v k added l y0 result → trim y0 y →
  ist_walk_post T is_root lo hi l (ist_finish is_root exceeds pending result n).
Proof.
  intros Hs Hin Hk HT Hroot Hg He Ht0.
  destruct (ist_finish_ok h _ is_root exceeds pending result n lo hi y Hg) as (c & h' & l' & Hf & Hc & Ht & Hne); [..|done|done|].
  - eapply trim_sorted; [done|by apply (edits_sorted _ _ _ ist_added_law He)].
  - intros k' Hk'. eapply ist_edits_in_range; [done..|by eapply trim_keys].
  - exists result, c, h', l', y0. split; [done|]. split; [done|]. split; [done|]. split; [by eapply trim_trans|done].
Qed.

(** The law of the loop. *)
Lemma ist_walk_ok fuel h T is_root pending n lo hi l : irep h T (Some n) lo hi l → (ist_levels n ≤ fuel)%nat →
  ksorted l → in_range lo hi l → lo ≤ k < hi → 0 ≤ T → T + len added < 2 ^ 31 → ist_root_bounds P is_root lo hi →
  ist_walk_post T is_root lo hi l (ist_walk P fuel v k is_root pending n).
Proof.
  revert h is_root pending n lo hi l. induction fuel as [|fuel IH]; intros [|h] is_root pending n lo hi l Hg Hfuel Hs Hin Hk HT HT2 Hroot;
    [done|destruct n; simpl in Hfuel; lia|done|].
  destruct Hg as (kvs & cs & ls & Hh & Hlo & Hhi & Hidx & Hroom & Hkids & -> & Hsize). pose proof (len_nonneg added).
  pose proof (len_nonneg (weave ls kvs)).
  destruct (ist_walk_step fuel is_root pending n) as (exceeds & ->); [lia|]. cbv zeta.
  assert (∀ result n' h' y0 y, irep h' (T + len added) (Some n') lo hi y → edits v k added (weave ls kvs) y0 result → trim y0 y →
    ist_walk_post T is_root lo hi (weave ls kvs) (ist_finish is_root exceeds pending result n')) as Hfinish.
  { intros. eapply ist_finish_edits; try done. lia. }
  destruct (ist_search (ist_touched n) kvs cs k) as (kvs1 & kvs2 & -> & -> & Hb & Hcase); [done| |done|simpl; lia|].
  { eapply ksorted_weave; [|exact Hs]. by apply kids_len in Hkids as [? _]. }
  destruct Hcase as [(vd & kvs2' & -> & ->)|[Ha ->]].
  - destruct (stores_node_kv _ _ _ _ _ _ _ _ _ _ _ Hh eq_refl) as [_ ->].
    destruct (ist_found_ok h T n lo hi kvs1 vd kvs2' cs ls (ist_on_key v vd).1) as (l1 & l2 & Hb' & Ha' & Hw & Hg); try done.
    eapply Hfinish; [exact Hg| |apply trim_refl]. exists l1, l2. split; [done|]. split; [done|]. left. by exists vd.
  - apply kids_focus in Hkids as (cs1 & c & cs2 & ls1 & lc & ls2 & -> & -> & Hp & Hc & Hq).
    pose proof (kids_pre_len _ _ _ _ _ Hp) as [Hc1 Hl1]. pose proof (kids_post_len _ _ _ _ _ Hq) as [Hc2 Hl2].
    rewrite (stores_node_child _ _ _ _ _ _ _ _ _ _ Hh) by done. rewrite weave_focus in * by done.
    pose proof Hs as (Hs1 & (Hsl & Hs2 & _)%ksorted_app & _)%ksorted_app.
    pose proof (heads_below k _ _ Hs1 Hl1 Hb) as Hb'. pose proof (tails_above k _ _ Hs2 Ha) as Ha'.
    destruct c as [c|].
    + assert (ist_levels c < ist_levels n)%nat as Hlev.
      { apply (ist_levels_child _ _ (len kvs1)); [by rewrite (stores_node_child _ _ _ _ _ _ _ _ _ _ Hh)|apply len_nonneg]. }
      destruct (child_within lo hi ls1 kvs1 lc kvs2 ls2 Hl1 Hl2 Hin) as [Hw1 Hw2]. destruct Hroot as (Hroot & Hlow & Hhigh).
      destruct (IH h false (pending || exceeds) c (last_key lo kvs1) (first_key kvs2 hi) lc) as (result & c' & h' & l' & y & -> & Hc' & He & Ht & _);
        [done|lia|done|by eapply in_range_child| |done|done|split; [done|lia]|].
      { split; [apply below_last_key; [done|lia]|apply above_first_key; [done|lia]]. }
      cbn [res_bind]. eapply (Hfinish _ _ _ (heads ls1 kvs1 ++ y ++ tails kvs2 ls2)); [by eapply ist_child_ok|by apply edits_between|apply trim_app; [apply trim_refl|apply trim_app; [done|apply trim_refl]]].
    + apply irep_none in Hc. subst lc.
      destruct (ist_null_law h (T + len added) (ist_touched n) kvs1 kvs2 cs1 cs2 ls1 ls2 lo hi) as (h' & Hg); try done.
      * eapply kids_pre_mono; [|exact Hp]. intros. eapply irep_mono; [..|done]; lia.
      * eapply kids_post_mono; [|exact Hq]. intros. eapply irep_mono; [..|done]; lia.
      * revert Hsize. arr_len. simpl. lia.
      * eapply Hfinish; [exact Hg| |apply trim_refl]. exists (heads ls1 kvs1), (tails kvs2 ls2). split; [done|]. split; [done|]. by right.
Qed.

End Walk.

(** ** The loop of [Find] *)

Lemma ist_find_n_ok fuel h T k c lo hi l : irep h T c lo hi l → (if c is Some n then ist_levels n ≤ fuel else True)%nat →
  ksorted l → lo ≤ k < hi → ist_find_n P fuel k c = Ok (default (no_value_ P) (alive_map l !! k)).
Proof.
  revert h c lo hi l. induction fuel as [|fuel IH]; intros h [n|] lo hi l Hg Hfuel Hs Hk.
  2, 4: by apply irep_none in Hg as ->.
  { destruct n. simpl in Hfuel. lia. }
  destruct h as [|h]; [done|]. destruct Hg as (kvs & cs & ls & Hh & Hlo & Hhi & Hidx & _ & Hkids & -> & _). cbn [ist_find_n].
  pose proof (kids_len _ _ _ _ _ _ Hkids) as [Hls _].
  destruct (ist_search n kvs cs k) as (kvs1 & kvs2 & -> & -> & Hb & Hcase); [done|by eapply ksorted_weave|done|lia|].
  destruct Hcase as [(vd & kvs2' & -> & ->)|[Ha ->]].
  - destruct (stores_node_kv _ _ _ _ _ _ _ _ _ _ _ Hh eq_refl) as [_ ->].
    destruct (weave_entry _ _ _ _ _ _ _ _ _ Hkids) as (l1 & l2 & Hw). rewrite Hw in *.
    apply ksorted_middle in Hs as (_ & _ & Hb' & Ha'). rewrite alive_lookup by done. unfold ist_val. by destruct (marked vd).
  - apply kids_focus in Hkids as (cs1 & c & cs2 & ls1 & lc & ls2 & -> & -> & Hp & Hc & Hq).
    apply kids_pre_len in Hp as [Hc1 Hl1]. apply kids_post_len in Hq as [_ Hl2]. rewrite weave_focus in * by done.
    pose proof Hs as (Hs1 & (Hsl & Hs2 & _)%ksorted_app & _)%ksorted_app.
    rewrite (stores_node_child _ _ _ _ _ _ _ _ _ _ Hh) by done.
    rewrite (IH h c (last_key lo kvs1) (first_key kvs2 hi) lc Hc); [|destruct c as [c|]; [|done]|done|].
    + by rewrite alive_lookup_between by (by apply heads_below || by apply tails_above).
    + assert (ist_levels c < ist_levels n)%nat as Hlev; [|lia].
      apply (ist_levels_child _ _ (len kvs1)); [by rewrite (stores_node_child _ _ _ _ _ _ _ _ _ _ Hh)|apply len_nonneg].
    + split; [apply below_last_key; [done|lia]|apply above_first_key; [done|lia]].
Qed.

(** ** The visits *)

#[export] Instance ist_delete_visit_ok k : ISTVisitOk (ist_delete_visit P) k [].
Proof.
  split.
  - by left.
  - intros n _. destruct n. cbn. by rewrite Z.add_0_r.
  - intros h T n kvs1 kvs2 cs1 cs2 ls1 ls2 lo hi Hh Hlo Hhi Hidx Hroom Hp Hq Hsize. exists (S h).
    rewrite app_nil_l in *. rewrite <-(app_nil_l (tails kvs2 ls2)) in *. by eapply irep_plug; [..|by apply irep_none| |].
Defined.

Definition ist_entry_of k (v : V) : entry := (k, {| ist_value := v; marked := false |}).

(** The key in a node with room, which has no children. *)
Lemma ist_insert_irep h T n kvs1 kvs2 k v lo hi : stores (rep n) (capacity n) (kvs1 ++ kvs2).*1 →
  stores (value_data n) (capacity n) (kvs1 ++ kvs2).*2 → children n = replicate (Z.to_nat (capacity n + 1)) None →
  rep_size n = len (kvs1 ++ kvs2) → rep_size n < capacity n → id n = None → left n = lo → right n = hi →
  len (kvs1 ++ kvs2) + 1 ≤ total_asize n ≤ T →
  irep (S h) T (Some (node_insert P n (len kvs1) k v)) lo hi (kvs1 ++ ist_entry_of k v :: kvs2).
Proof.
  intros Hr Hv Hc Hs Hroom Hid Hlo Hhi Hsize.
  destruct (stores_insert _ _ _ _ kvs1 k {| ist_value := v; marked := false |} kvs2 Hr Hv Hs Hroom) as [Hr' Hv'].
  apply null_irep; try done; cbn [node_insert rep_size total_asize]; rewrite ?Hs; revert Hsize; arr_len; lia.
Qed.

(** The new child of [ist_add_key]. *)
Lemma ist_new_child_irep T k v lo hi : 1 ≤ T →
  irep 1 T (Some (let child := node_insert P (new_ist_node P lo hi (leaf_size_ P) (min_rebuild_bound_ P)) 0 k v in
    {| child with total_asize := s32 (total_asize child + 1); counter := counter child + 1 |})) lo hi [ist_entry_of k v].
Proof.
  intros HT. pose proof (leaf_size_law P) as Hl.
  set (n := new_ist_node P lo hi (leaf_size_ P) (min_rebuild_bound_ P)).
  apply (ist_insert_irep 0 T {| n with total_asize := 1; counter := 1 |} [] [] k v lo hi); try done; try (apply stores_new; simpl; lia); simpl; lia.
Qed.

#[export] Instance ist_insert_visit_ok k v : ISTVisitOk (ist_insert_visit P k v) k [ist_entry_of k v].
Proof.
  split.
  - right. by eexists.
  - intros n Hn. change (len [ist_entry_of k v]) with 1 in *. cbn [ist_insert_visit ist_on_path]. by rewrite s32_small.
  - intros h T n kvs1 kvs2 cs1 cs2 ls1 ls2 lo hi Hh Hlo Hhi Hidx Hroom Hp Hq Hsize. cbn [ist_insert_visit ist_on_null].
    unfold ist_add_key. pose proof (kids_pre_len _ _ _ _ _ Hp) as [Hc1 Hl1]. pose proof Hh as (Hr & Hv & _ & _ & Hs & _).
    destruct (Z.ltb_spec (rep_size n) (capacity n)) as [Hlt|Hfull].
    + destruct (Hroom Hlt) as [Hid HF]. destruct (kids_all_nil _ _ _ _ _ _ _ _ _ (irep_none h T) HF Hp Hq) as [Hh1 Ht2].
      rewrite Hh1, Ht2 in *. exists 1%nat. apply ist_insert_irep; try done; [by eapply stores_node_null_children|].
      revert Hsize. arr_len. lia.
    + destruct (stores_node_bounds _ _ _ _ _ kvs1 kvs2 _ (left n) (right n) Hh) as [-> ->]. rewrite Hlo, Hhi.
      assert (1 ≤ T) as HT by
        (revert Hsize; arr_len; pose proof (len_nonneg (heads ls1 kvs1)); pose proof (len_nonneg (tails kvs2 ls2)); lia).
      exists (S (max h 1)). change (ist_entry_of k v :: tails kvs2 ls2) with ([ist_entry_of k v] ++ tails kvs2 ls2).
      eapply (irep_plug h (max h 1) T); [by eapply stores_node_set_child|done..|intros Hlt; simpl in Hlt; lia|lia|done|done| |done|done].
      eapply irep_mono; [..|by apply ist_new_child_irep]; lia.
Defined.

(** ** The map of a tree *)

Lemma ist_insert_edits k v l l' r : edits (ist_insert_visit P k v) k [ist_entry_of k v] l l' r →
  alive_map l' = inserted k v (alive_map l) ∧ r = default (no_value_ P) (alive_map l !! k).
Proof.
  intros He. eapply edits_insert; [done|by eexists|]. intros vd _. unfold ist_val. cbn [ist_insert_visit ist_on_key].
  destruct (marked vd) eqn:Hm; cbn [fst snd marked ist_value]; rewrite ?Hm; done.
Qed.

Lemma ist_delete_edits k l l' r : edits (ist_delete_visit P) k [] l l' r →
  alive_map l' = delete k (alive_map l) ∧ r = default (no_value_ P) (alive_map l !! k).
Proof.
  intros He. eapply edits_delete; [done|done|]. intros vd _. unfold ist_val. cbn [ist_delete_visit ist_on_key].
  destruct (marked vd) eqn:Hm; cbn [negb fst snd marked ist_value]; rewrite ?Hm; done.
Qed.

(** ** The methods *)

Definition ist_valued (e : entry) : Prop := ist_value e.2 ≠ no_value_ P.

Context (Q : Z → Prop).

(** [total_asize] of all nodes is at most [T]; the keys that were inserted have [Q]. *)
Definition ist_represents (T : Z) (root_ : Node) (m : gmap Z V) : Prop := ∃ h l,
  irep h T (Some root_) (left_ P) (right_ P) l ∧ ksorted l ∧ in_range (left_ P) (right_ P) l ∧
  Forall ist_valued l ∧ (∀ k, k ∈ l.*1 → Q k) ∧ m = alive_map l.

Lemma CreateRoot_represents : ist_represents 0 (CreateRoot P) ∅.
Proof.
  exists 1%nat, []. split; [by apply CreateRoot_irep|]. split; [apply ksorted_nil|]. split; [intros k Hk; set_solver|].
  split; [done|]. split; [intros k Hk; set_solver|done].
Qed.

Lemma ist_visit_root_ok v k added T root_ m `{!ISTVisitOk v k added} : ist_represents T root_ m → left_ P ≤ k < right_ P →
  (added ≠ [] → Q k) → 0 ≤ T → T + len added < 2 ^ 31 → Forall ist_valued added →
  (∀ vd, ist_value vd ≠ no_value_ P → ist_value (ist_on_key v vd).1 ≠ no_value_ P) →
  ∃ l y result root', m = alive_map l ∧ edits v k added l y result ∧
    ist_visit_root P v k root_ = Ok (result, root') ∧ ist_represents (T + len added) root' (alive_map y).
Proof.
  intros (h & l & Hg & Hs & Hin & Hv & HQ & ->) Hk HQk HT HT2 Hadd Hkey. unfold ist_visit_root.
  destruct (ist_walk_ok v k added (ist_levels root_) h T true false root_ (left_ P) (right_ P) l)
    as (result & c & h' & l' & y & -> & Hc & He & Ht & Hne); try done.
  destruct c as [root'|]; [|by destruct (Hne eq_refl)]. exists l, y, result, root'.
  split; [done|]. split; [done|]. split; [done|]. pose proof (ist_added_law (ISTVisitOk := ISTVisitOk0)) as Hadds.
  exists h', l'. split; [done|].
  split; [eapply trim_sorted; [done|by apply (edits_sorted _ _ _ Hadds He)]|].
  split; [intros k' Hk'; by eapply ist_edits_in_range; [..|by eapply trim_keys]|].
  split; [eapply trim_Forall; [done|by exact (edits_Forall ist_valued _ _ _ He Hadd Hkey Hv)]|].
  split; [intros k' Hk'; eapply (edits_keys Q _ _ _ Hadds He HQk HQ); by eapply trim_keys|].
  unfold Lazy.alive_map. by rewrite (alive_trim _ _ Ht).
Qed.

Lemma ist_represents_mono T T' root_ m : T ≤ T' → ist_represents T root_ m → ist_represents T' root_ m.
Proof. intros HT (h & l & Hg & H). exists h, l. split; [|done]. by eapply irep_mono; [..|exact Hg]. Qed.

Lemma ist_Find_ok k T root_ m : ist_represents T root_ m → left_ P ≤ k < right_ P →
  ist_Find P k root_ = Ok (default (no_value_ P) (m !! k)).
Proof. intros (h & l & Hg & Hs & _ & _ & _ & ->) Hk. by eapply ist_find_n_ok. Qed.

Lemma ist_Contains_ok k T root_ m : ist_represents T root_ m → left_ P ≤ k < right_ P →
  ist_Contains P k root_ = Ok (bool_decide (k ∈ dom m)).
Proof.
  intros Hr Hk. unfold ist_Contains. rewrite (ist_Find_ok k T root_ m Hr Hk). cbn [res_bind]. f_equal.
  apply bool_decide_ext. rewrite elem_of_dom. destruct (m !! k) as [v|] eqn:Hm; simpl; [|split; [done|by intros []]].
  split; [done|]. intros _. destruct Hr as (h & l & _ & _ & _ & Hv & _ & ->).
  apply alive_map_elem in Hm as (vd & Hin & Hval). rewrite Forall_forall in Hv. specialize (Hv _ Hin).
  unfold ist_val in Hval. destruct (marked vd); [done|]. injection Hval as <-. done.
Qed.

Lemma ist_Insert_ok k v T root_ m : ist_represents T root_ m → left_ P ≤ k < right_ P → Q k → v ≠ no_value_ P → 0 ≤ T →
  T + 1 < 2 ^ 31 →
  ∃ root', ist_Insert P k v root_ = Ok (default (no_value_ P) (m !! k), root') ∧
    ist_represents (T + 1) root' (inserted k v m).
Proof.
  intros Hr Hk HQ Hv HT HT2. unfold ist_Insert.
  assert ((left root_ <=? k) && (k <=? right root_) = true) as ->.
  { destruct Hr as ([|h] & l & Hg & _); [done|]. destruct Hg as (kvs & cs & ls & _ & -> & -> & _). lia. }
  destruct (ist_visit_root_ok (ist_insert_visit P k v) k [ist_entry_of k v] T root_ m Hr Hk (λ _, HQ)) as (l & y & result & root' & -> & He & Hw & Hr');
    [done|done|by constructor|intros vd Hvd; simpl; by destruct (marked vd)|].
  destruct (ist_insert_edits _ _ _ _ _ He) as [Hm ->]. exists root'. split; [done|]. by rewrite Hm in Hr'.
Qed.

Lemma ist_Delete_ok k T root_ m : ist_represents T root_ m → left_ P ≤ k < right_ P → 0 ≤ T < 2 ^ 31 →
  ∃ root', ist_Delete P k root_ = Ok (default (no_value_ P) (m !! k), root') ∧ ist_represents T root' (delete k m).
Proof.
  intros Hr Hk HT.
  destruct (ist_visit_root_ok (ist_delete_visit P) k [] T root_ m Hr Hk (λ H, False_ind _ (H eq_refl))) as (l & y & result & root' & -> & He & Hw & Hr');
    [lia|change (len (@nil entry)) with 0; lia|done|intros vd Hvd; simpl; by destruct (marked vd)|].
  destruct (ist_delete_edits _ _ _ _ He) as [Hm ->]. exists root'. split; [done|]. rewrite Hm in Hr'.
  eapply ist_represents_mono; [|done]. change (len (@nil entry)) with 0. lia.
Qed.

(** ** [Validate] *)

Definition ist_has_value (vd : ISTValueData V) : bool := bool_decide (ist_value vd ≠ no_value_ P).

(** The body of the loop of [Validate]. *)
Abbreviation validate_step fuel n lo hi := (count_step (rep n) (value_data n) (rep_size n) lo hi Z.ltb ist_has_value
  (λ vd, negb (marked vd)) (λ i a b, ist_validate_n P fuel (children n).[i] a b)).

Lemma ist_validate_node fuel n lo hi : left n = lo → right n = hi → ist_validate_n P (S fuel) (Some n) lo hi =
  res_bind (for_range 0 (rep_size n + 1) (validate_step fuel n lo hi) (Ok (Some 0))) (λ total,
    Ok (if total is Some t then if t <=? total_asize n then Some t else None else None)).
Proof. intros Hlo Hhi. cbn [ist_validate_n]. rewrite Hlo, Hhi, !Z.eqb_refl. done. Qed.

(** A tree with no key that is its lower bound. *)
Lemma ist_validate_n_ok fuel h T c lo hi l : irep h T c lo hi l → (if c is Some n then ist_levels n ≤ fuel else True)%nat →
  ksorted l → in_range lo hi l → above lo l → lo < hi → Forall ist_valued l →
  ist_validate_n P fuel c lo hi = Ok (Some (len (alive l))).
Proof.
  revert h c lo hi l. induction fuel as [|fuel IH]; intros h [n|] lo hi l Hg Hfuel Hs Hin Ha Hlh Hv.
  2, 4: by apply irep_none in Hg as ->.
  { destruct n. simpl in Hfuel. lia. }
  destruct h as [|h]; [done|]. destruct Hg as (kvs & cs & ls & Hh & Hlo & Hhi & _ & _ & Hk & -> & Hsize).
  rewrite ist_validate_node by done. pose proof (kids_len _ _ _ _ _ _ Hk) as [Hls _].
  assert (for_range 0 (rep_size n + 1) (validate_step fuel n lo hi) (Ok (Some 0)) = Ok (Some (len (alive (weave ls kvs))))) as ->.
  2: { cbn [res_bind]. pose proof (alive_len (val := ist_val) (weave ls kvs)). by replace (len (alive (weave ls kvs)) <=? total_asize n) with true by lia. }
  apply (count_loop ist_val (λ c lo hi l, irep h T c lo hi l ∧ ksorted l ∧ in_range lo hi l ∧ above lo l ∧ lo < hi ∧ Forall ist_valued l)
    _ _ _ _ _ _ _ _ _ _ _ _ _ _ Hh).
  - eapply kids_strengthen; [exact Hk|]. intros kvs1 kvs2 ls1 lc ls2 x -> -> H1 H2 Hc. rewrite weave_focus in Hs, Hin, Hv, Ha by done.
    split; [done|]. split; [by apply ksorted_app in Hs as (_ & (? & _)%ksorted_app & _)|].
    split; [by eapply in_range_child|]. split; [|split; [by eapply bounds_strict|by apply Forall_app in Hv as [_ [? _]%Forall_app]]].
    by apply above_last_key in Ha as [? _]%above_app.
  - intros kvs1 kvs2 ->. apply Z.ltb_lt. apply kids_focus in Hk as (cs1 & x & cs2 & ls1 & lc & ls2 & -> & -> & Hp & _ & Hq).
    apply kids_pre_len in Hp as [_ H1]. apply kids_post_len in Hq as [_ H2]. rewrite weave_focus in Hs, Hin, Ha by done.
    by eapply bounds_strict.
  - eapply Forall_impl; [eapply weave_Forall; [exact Hls|exact Hv]|]. intros [k vd] Hvd. by apply bool_decide_eq_true.
  - intros vd. unfold ist_val. by destruct (marked vd).
  - intros i lo' hi' lc Hi (Hc & Hsc & Hinc & Hac & Hle & Hvc). apply (IH h); try done.
    destruct ((children n).[i]) as [c|] eqn:Hci; [|done]. apply ist_levels_child in Hci; [lia|done].
Qed.

(** A tree with the key that is its lower bound: some check throws. *)
Lemma ist_validate_n_left fuel h T n lo hi vd l : irep h T (Some n) lo hi ((lo, vd) :: l) → (ist_levels n ≤ fuel)%nat →
  ist_validate_n P fuel (Some n) lo hi = Ok None.
Proof.
  revert h n hi l. induction fuel as [|fuel IH]; intros [|h] n hi l Hg Hfuel; [done|destruct n; simpl in Hfuel; lia|done|].
  destruct Hg as (kvs & cs & ls & Hh & Hlo & Hhi & _ & _ & Hk & Hl & _). rewrite ist_validate_node by done.
  pose proof Hh as (_ & _ & _ & _ & Hsz & _). pose proof (len_nonneg kvs).
  rewrite for_range_first by lia. change (0 + 1) with 1.
  apply (kids_focus _ _ []) in Hk as (cs1 & c & cs2 & ls1 & lc & ls2 & -> & -> & Hp & Hc & _).
  pose proof (kids_pre_len _ _ _ _ _ Hp) as [Hc1 Hl1].
  assert (cs1 = [] ∧ ls1 = []) as [-> ->] by (split; apply nil_length_inv; unfold len in *; simpl in *; lia).
  assert (validate_step fuel n lo hi 0 (Ok (Some 0)) = Ok None) as ->.
  2: { rewrite (for_range_const (λ r, r = Ok None)) by (try intros i r _ ->; done). done. }
  unfold count_step. cbn [res_bind]. cbv zeta. destruct (stores_node_bounds _ _ _ _ _ [] kvs _ lo hi Hh) as [_ Hright].
  change (len (@nil entry)) with 0 in Hright. rewrite Hright, (stores_node_child _ _ _ _ _ _ [] _ _ _ Hh) by done. clear Hright.
  simpl in Hc. destruct lc as [|e lc].
  - destruct kvs as [|[k d] kvs]; [done|]. assert (k = lo) as -> by (destruct ls2; [discriminate Hl|by injection Hl]).
    simpl. by rewrite Z.ltb_irrefl.
  - injection Hl as <- ->. destruct c as [c|]; [|by apply irep_none in Hc].
    simpl. rewrite (IH h c (first_key kvs hi) lc Hc).
    + destruct (_ && _); done.
    + assert ((children n).[0] = Some c) as Hlev by (by rewrite (stores_node_child _ _ _ _ _ _ [] _ _ _ Hh)).
      apply ist_levels_child in Hlev; lia.
Qed.

(** [Validate] accepts a tree if no key is the lower bound, and rejects it if one is. *)
Lemma ist_Validate_ok T root_ m : ist_represents T root_ m → (∀ k, Q k → left_ P < k) → ist_Validate P root_ = Ok true.
Proof.
  intros (h & l & Hg & Hs & Hin & Hv & HQ & _) Hleft. pose proof (bounds_law P) as Hb. unfold ist_Validate.
  rewrite (ist_validate_n_ok _ h T (Some root_) _ _ l); try done. intros k Hk. by apply Hleft, HQ.
Qed.

Lemma ist_Validate_left T root_ m : ist_represents T root_ m → left_ P ∈ dom m → ist_Validate P root_ = Ok false.
Proof.
  intros (h & l & Hg & Hs & Hin & _ & _ & ->) [v Hm]%elem_of_dom. unfold ist_Validate.
  apply alive_map_elem in Hm as (vd & He & _). destruct l as [|[k d] l]; [set_solver|].
  assert (k = left_ P) as ->.
  { apply ksorted_cons in Hs as [Ha _]. pose proof (Hin k ltac:(set_solver)). apply elem_of_cons in He as [[= -> _]|He]; [done|].
    specialize (Ha (left_ P) ltac:(by apply (list_elem_of_fmap_2 fst) in He)). lia. }
  by rewrite (ist_validate_n_left _ h T root_ _ _ d l).
Qed.

(** ** The height of a tree that was built anew *)

Definition child_levels (c : option Node) : nat := if c is Some n then ist_levels n else O.

(** The limit for [h] levels: the keys of the children of a node are about the square root of its own. *)
Definition level_limit (h : nat) : Z := 4 * 2 ^ 2 ^ Z.of_nat h.

Lemma level_limit_step h size : 0 ≤ size ≤ level_limit (S h) → 2 * Z.sqrt size ≤ level_limit h.
Proof.
  unfold level_limit. rewrite Nat2Z.inj_succ, Z.pow_succ_r, <-Z.add_diag, Z.pow_add_r by lia.
  set (x := 2 ^ 2 ^ Z.of_nat h). assert (0 < x) as Hx by (apply Z.pow_pos_nonneg; lia). clearbody x. intros Hsize.
  destruct (Z.sqrt_spec size) as [H1 _]; [lia|]. assert (Z.sqrt size ≤ 2 * x); [|lia]. apply Z.square_le_simpl_nonneg; lia.
Qed.

Lemma ist_levels_le n h : Forall (λ c, (child_levels c ≤ h)%nat) (children n) → (ist_levels n ≤ S h)%nat.
Proof.
  destruct n as [? ? cs]. simpl. intros HF. apply le_n_S. clear -HF. induction HF as [|c cs Hc _ IH]; simpl; [lia|].
  fold (child_levels c). lia.
Qed.

Lemma ist_leaf_levels es a size lo hi : ist_levels (ist_leaf P es a size lo hi) = 1%nat.
Proof.
  assert (ist_levels (ist_leaf P es a size lo hi) ≤ 1)%nat; [|destruct (ist_leaf P es a size lo hi); simpl in *; lia].
  apply ist_levels_le. apply (for_range_const (λ n, Forall (λ c, (child_levels c ≤ 0)%nat) (children n))); [|by intros].
  by apply Forall_replicate.
Qed.

(** The children of a node during the loop of [BuildIdealTree]. *)
Definition low_node (h : nat) (r : res Node) : Prop := if r is Ok n then Forall (λ c, (child_levels c ≤ h)%nat) (children n) else True.

Lemma low_set_child h (r : res (option Node)) n i : Forall (λ c, (child_levels c ≤ h)%nat) (children n) →
  (∀ c, r = Ok c → (child_levels c ≤ h)%nat) → low_node h (res_bind r (λ c, Ok (ist_set_child n i c))).
Proof. intros Hn Hr. destruct r as [c| | |]; simpl; try done. apply Forall_insert; [done|by apply Hr]. Qed.

Lemma ist_build_levels fuel es a b lo hi c h : 16 ≤ leaf_size_ P → (1 ≤ h)%nat → b - a ≤ level_limit h →
  BuildIdealTree P fuel es a b lo hi = Ok c → (child_levels c ≤ h)%nat.
Proof.
  intros Hleaf. revert a b lo hi c h. induction fuel as [|fuel IH]; intros a b lo hi c h Hh Hsize; cbn [BuildIdealTree];
    (destruct (Z.leb_spec (b - a) 0); [intros [= <-]; simpl; lia|]);
    (destruct (Z.leb_spec (b - a) (leaf_size_ P)); [intros [= <-]; simpl; rewrite ist_leaf_levels; lia|]); [done|].
  destruct h as [|[|h]]; [lia|change (level_limit 1) with 16 in Hsize; lia|]. pose proof (level_limit_step (S h) (b - a) ltac:(lia)) as Hstep.
  destruct (Z.sqrt_spec (b - a)) as [H1 H2]; [lia|]. pose proof (Z.sqrt_nonneg (b - a)). set (step := Z.sqrt (b - a)) in *. clearbody step.
  set (loop := for_range 0 step _ _). assert (low_node (S h) loop) as Hloop.
  { apply (for_range_const (low_node (S h))); [apply Forall_replicate; simpl; lia|].
    intros i [n| | |] Hi Hn; [|done..]. cbn [res_bind]. unfold ist_round. apply low_set_child; [exact Hn|]. intros c'. apply IH; lia. }
  clearbody loop. destruct loop as [n| | |]; try done. cbn [res_bind].
  destruct (BuildIdealTree P fuel es (a + step * step) b _ hi) as [c'| | |] eqn:Hlast; try done. intros [= <-].
  apply ist_levels_le. apply Forall_insert; [exact Hloop|]. eapply IH; [..|exact Hlast]; lia.
Qed.

(** A rebuild leaves the entries that are not marked, in a low tree. *)
Lemma ist_rebuild_levels T root_ m h : ist_represents T root_ m → 0 ≤ T < 2 ^ 31 → 16 ≤ leaf_size_ P → (1 ≤ h)%nat →
  Z.of_nat (base.size m) ≤ level_limit h →
  ∃ root', RebuildTree P true root_ = Ok (Some root') ∧ ist_represents T root' m ∧ (ist_levels root' ≤ h)%nat.
Proof.
  intros (h0 & l & Hg & Hs & Hin & Hv & HQ & ->) HT Hleaf Hh Hsize.
  destruct (ist_rebuild_ok P h0 T true root_ (left_ P) (right_ P) l Hg Hs Hin ltac:(by split) HT) as (c & h' & l' & Hb & Hc & Ht & Hne).
  destruct c as [root'|]; [|by destruct (Hne eq_refl)]. exists root'. split; [done|]. split.
  - exists h', l'. split; [done|]. split; [by eapply trim_sorted|]. split; [intros k Hk; apply Hin; by eapply trim_keys|].
    split; [by eapply trim_Forall|]. split; [intros k Hk; apply HQ; by eapply trim_keys|].
    unfold Lazy.alive_map. by rewrite (alive_trim _ _ Ht).
  - unfold RebuildTree in Hb. rewrite (ist_collect_ok _ _ _ _ _ _ _ _ [] Hg), app_nil_l in Hb by done. cbn [res_bind] in Hb.
    destruct (total_asize root_ <? len (unmarked l)); [done|].
    destruct (BuildIdealTree P _ (unmarked l) 0 _ _ _) as [c| | |] eqn:Hbuild; try done. apply ist_build_levels with (h := h) in Hbuild; [|done..|].
    + destruct c; injection Hb as <-; [done|]. etrans; [|exact Hh]. apply ist_levels_le. apply Forall_replicate. simpl. lia.
    + rewrite alive_map_size in Hsize by done. unfold unmarked. rewrite kept_len with (val := ist_val); [lia|].
      intros vd. unfold ist_val. by destruct (marked vd).
Qed.

End ISTMap.
