(* ===== verification/ISTTree.v ===== *)
(** The interpolation search tree refines a finite map.

    Sequences of the operations of [BoundedTree] on an [IST]. *)
From S2P Require Import Prelude Double Distributions Assoc SearchTree BoundedTree IdIndex IST ISTLaws ISTMap.

Section ISTTree.
  Context {V : Type} `{EqDecision V} (P : ISTParams V).

(** [Find] and [Contains] leave the tree as it is. *)
Definition ist_tree `{PO : ISTParamsOk V P} : BoundedTree (ISTNode V) V (no_value_ P) (left_ P) (right_ P).
Proof.
  refine {| bt_new := CreateRoot P;
    bt_Find k t := res_bind (ist_Find P k t) (λ v, Ok (v, t));
    bt_Contains k t := res_bind (ist_Contains P k t) (λ b, Ok (b, t));
    bt_Insert := ist_Insert P; bt_Delete := ist_Delete P; bt_represents := ist_represents |}; intros Q.
  - apply CreateRoot_represents.
  - intros n n' t m. apply ist_represents_mono.
  - intros n k t m Hr Hk _ _. exists t. rewrite (ist_Find_ok Q k n t m Hr Hk). split; [done|].
    eapply ist_represents_mono; [|done]. lia.
  - intros n k t m Hr Hk _ _. exists t. rewrite (ist_Contains_ok Q k n t m Hr Hk). split; [done|].
    eapply ist_represents_mono; [|done]. lia.
  - intros n k v t m. apply ist_Insert_ok.
  - intros n k t m Hr Hk Hn Hn2. destruct (ist_Delete_ok Q k n t m Hr Hk) as (t' & Hd & Hr'); [lia|].
    exists t'. split; [done|]. eapply ist_represents_mono; [|done]. lia.
Defined.

End ISTTree.

(** C31. The interpolation search tree refines a finite map, whatever its leaf size, rebuild
    bound and rebuild factor, and whatever size [pow] gives an index of fewer than 2^31
    keys, provided it is positive and fits [int], and its product with the length of
    [[left, right)] fits [int64_t], as it does for intervals of at most 2^32 keys. Any
    sequence of fewer than 2^31 inserts, removals, searches and membership tests of keys
    of [[left, right)] on a new tree returns what the operations on a map return, through
    every rebuild that they cause: all loops and recursions end, no null pointer is used
    and no array is left. [Validate] accepts the tree that results when the key [left] was
    not inserted, and throws when it is in the tree. *)
Theorem ist_refines_map {V : Type} `{EqDecision V} (P : ISTParams V) (PO : ISTParamsOk P) (os : list (tree_op V)) :
  Forall (bounded_op_ok (no_value_ P) (left_ P) (right_ P)) os → len os < 2 ^ 31 →
  ∃ root_, bounded_run (BT := ist_tree P) os (CreateRoot P) = Ok ((map_run (no_value_ := no_value_ P) os ∅).1, root_) ∧
    ((∀ v, TInsert (left_ P) v ∉ os) → ist_Validate P root_ = Ok true) ∧
    (left_ P ∈ dom (map_run (no_value_ := no_value_ P) os ∅).2 → ist_Validate P root_ = Ok false).
Proof.
  intros Hos Hlen. destruct (bounded_new_ok (BT := ist_tree P) os Hos Hlen) as (root_ & Hrun & Hr).
  exists root_. split; [exact Hrun|]. split; [|exact (ist_Validate_left _ _ _ _ Hr)].
  intros Hleft. apply (ist_Validate_ok _ _ _ _ Hr). intros k (o & Ho & Hi). destruct o as [k' v|k'|k'|k']; try done.
  simpl in Hi. subst k'. assert (k ≠ left_ P) as Hk by (intros ->; by apply (Hleft v)).
  rewrite Forall_forall in Hos. destruct (Hos _ Ho) as [Hb _]. simpl in Hb. lia.
Qed.

(** C32. A rebuild of the interpolation search tree keeps the map and leaves a low tree,
    under the same condition on the sizes of the indices.
    After any sequence of operations, if the tree has at most [4 * 2^(2^h)] keys that are
    not removed and leaves have room for the 16 keys of [kLeafSize], the rebuild of the
    root succeeds, stands for the same map, and has at most [h] levels: 2 for 64 keys,
    5 for as many keys as an [int] can count. *)
Theorem ist_rebuild_low {V : Type} `{EqDecision V} (P : ISTParams V) (PO : ISTParamsOk P) (os : list (tree_op V)) (h : nat) :
  Forall (bounded_op_ok (no_value_ P) (left_ P) (right_ P)) os → len os < 2 ^ 31 → 16 ≤ leaf_size_ P → (1 ≤ h)%nat →
  let m := (map_run (no_value_ := no_value_ P) os ∅).2 in
  Z.of_nat (base.size m) ≤ level_limit h →
  level_limit 2 = 64 ∧ 2 ^ 31 ≤ level_limit 5 ∧
  ∃ root_ root', res_bind (bounded_run (BT := ist_tree P) os (CreateRoot P)) (λ '(_, t), Ok t) = Ok root_ ∧
    RebuildTree P true root_ = Ok (Some root') ∧ (ist_levels root' ≤ h)%nat ∧
    (∀ k, left_ P ≤ k < right_ P → ist_Find P k root' = Ok (default (no_value_ P) (m !! k))).
Proof.
  intros Hos Hlen Hleaf Hh m Hm. split; [done|]. split; [done|].
  destruct (bounded_new_ok (BT := ist_tree P) os Hos Hlen) as (root_ & Hrun & Hr).
  destruct (ist_rebuild_levels _ _ _ _ h Hr (conj (len_nonneg os) Hlen) Hleaf Hh Hm) as (root' & Hb & Hr' & Hl).
  exists root_, root'. simpl in Hrun. rewrite Hrun. split; [done|]. split; [done|]. split; [done|].
  intros k Hk. exact (ist_Find_ok _ _ _ _ _ Hr' Hk).
Qed.

(** A tree that is rebuilt, with an index of the rounded up square root, and [alpha_ = 0.5]. *)
Definition ist_example : ISTParams Z :=
  {| no_value_ := -1; left_ := 0; right_ := 100; leaf_size_ := 2; min_rebuild_bound_ := 2; rebuild_factor_ := d_lit 1 4;
     id_size_of size := Z.sqrt_up size; unspecified _ := 0 |}.

Lemma ist_example_ok : ISTParamsOk ist_example.
Proof.
  split; [done|done|]. intros size Hsize. unfold ist_example, id_size_of. cbn [left_ right_].
  pose proof (Z.sqrt_up_pos size) as [_ Hpos]. specialize (Hpos ltac:(lia)).
  assert (Z.sqrt_up size ≤ Z.sqrt_up (2 ^ 32)) as Hs by (apply Z.sqrt_up_le_mono; lia).
  change (Z.sqrt_up (2 ^ 32)) with (2 ^ 16) in Hs. unfold id_fits. lia.
Defined.

Definition ist_ops : list (tree_op Z) :=
  [TInsert 50 5; TInsert 20 2; TInsert 70 7; TFind 20; TInsert 10 1; TDelete 50; TInsert 20 3; TContains 50; TFind 70;
   TInsert 90 9; TInsert 60 6; TContains 10; TInsert 50 8; TFind 50; TInsert 30 3; TInsert 40 4; TDelete 20; TInsert 0 9].

Lemma ist_refines_map_witness :
  ∃ root_, bounded_run (BT := ist_tree ist_example (PO := ist_example_ok)) ist_ops (CreateRoot ist_example) =
    Ok ([TValue (-1); TValue (-1); TValue (-1); TValue 2; TValue (-1); TValue 5; TValue 2; TBool false; TValue 7;
         TValue (-1); TValue (-1); TBool true; TValue (-1); TValue 8; TValue (-1); TValue (-1); TValue 2; TValue (-1)], root_) ∧
    ist_Validate ist_example root_ = Ok false.
Proof.
  destruct (ist_refines_map ist_example ist_example_ok ist_ops) as (root_ & Hrun & _ & Hleft).
  - repeat constructor; cbn; lia.
  - done.
  - exists root_. split; [exact Hrun|]. apply Hleft. by vm_compute.
Defined.

(** Twenty keys in a tree with the default leaves: two levels. *)
Definition ist_default : ISTParams Z :=
  {| no_value_ := -1; left_ := 0; right_ := 100; leaf_size_ := kLeafSize; min_rebuild_bound_ := kMinRebuildBound;
     rebuild_factor_ := kRebuildFactor; id_size_of size := Z.sqrt_up size; unspecified _ := 0 |}.

Lemma ist_default_ok : ISTParamsOk ist_default.
Proof. split; [done|done|]. apply (id_size_law ist_example (ISTParamsOk := ist_example_ok)). Defined.

Definition twenty_inserts : list (tree_op Z) := (λ k, TInsert k (10 * k)) <$> seqZ 1 20.

Lemma ist_rebuild_low_witness :
  ∃ root_ root', res_bind (bounded_run (BT := ist_tree ist_default (PO := ist_default_ok)) twenty_inserts (CreateRoot ist_default))
      (λ '(_, t), Ok t) = Ok root_ ∧
    RebuildTree ist_default true root_ = Ok (Some root') ∧ (ist_levels root' ≤ 2)%nat ∧ ist_Find ist_default 7 root' = Ok 70.
Proof.
  destruct (ist_rebuild_low ist_default ist_default_ok twenty_inserts 2) as (_ & _ & root_ & root' & Hrun & Hb & Hl & Hf).
  - repeat constructor; cbn; lia.
  - done.
  - done.
  - lia.
  - by vm_compute.
  - exists root_, root'. split; [exact Hrun|]. split; [exact Hb|]. split; [exact Hl|].
    assert (default (-1) ((map_run (no_value_ := -1) twenty_inserts ∅).2 !! 7) = 70) as H7 by by vm_compute.
    rewrite <-H7. apply (Hf 7). split; done.
Defined.
